(* ===== verification/_CoqProject ===== *)
-Q . S2P
Prelude.v
Bytes.v
Chain.v
Capability.v
Material.v
Provenance.v
Uint256.v
Frame.v
SourceContract.v
Planner.v
Durable.v
Descriptor.v
Delta.v
Rows.v
Scan.v
Overlay.v
Processing.v
Fees.v
Blobs.v
Erc20.v
Inverse.v
Window.v
Delivery.v
Ranges.v
Artifacts.v
Checkpoints.v
Capacity.v
Registration.v
Consumers.v
Pruning.v
Lane.v
Apply.v
Revert.v
Codec.v
Samples.v
Scenario.v
Ledger.v
Feed.v
Retention.v
Consumption.v
Reorg.v
Publication.v
Requests.v
FairCommits.v
Cadence.v
LiveHead.v
LiveChain.v
LiveMaterial.v
Batches.v
Wire.v
Verified.v
LiveLane.v
LiveSamples.v
VerifiedSamples.v
