(* ===== verification/Prelude.v ===== *)
(** * Leani: the verified core

    Leani indexes execution chains. Sources deliver block frames with their
    provenance, the planner picks the source of every range, processors map
    frames to deltas and reduce deltas to rows and domain changes, and a
    SQLite store applies, undoes and finalizes blocks, publishes changes to
    durable consumers and keeps everything bounded. This library models the
    program's data and contracts ([crates/primitives], [crates/source-api],
    [crates/processor-api]), the core of the store
    ([crates/store-sqlite/src/lib.rs]), two processors that run on it
    ([crates/processor-blobs], [crates/processor-erc20]), the slot clock
    ([crates/chain]), the live lane and the material of blocks
    ([crates/source-p2p]), and the requests and commit turns of the runtime
    ([crates/runtime]), and proves what they promise to each other.

    ** Conventions

    Integers are [Z] with their width written out ([u64_max], [i64_max],
    saturating and checked operations); strings and byte vectors are
    [string] and [list byte]; hashes are vectors of 32 bytes. Fallible code
    returns [result E A]; code that writes and can fail is [eff S E A],
    which keeps what was written before an error, as the program's pool
    connections do, while [atomic] is a SQLite transaction. [zoom] runs a
    part's operation inside a larger state. SQL tables are [gmap]s by
    primary key, or lists where a rowid orders them, and a statement is the
    function on the table that its text denotes, with its conflict clause,
    ordering and limit. A reducer is an interaction tree with the calls of
    [ReducerTransaction] as its nodes ([Overlay.Reducer]), so one reducer
    runs against the overlay and against the specification.

    blake3, hex, postcard and serde_json are not part of the repository:
    they are class parameters ([Blake3], [Hex], [Postcard], [DescriptorJson],
    collected in [Lane.Wire]) with their documented laws as classes of their
    own ([WireLaws]); [Codec] is an instance that satisfies every law, on
    which the lane's witnesses run. alloy's integers and headers are the
    classes [Processing.Alloy] and [LiveHead.AlloyHeader], its transactions,
    receipts, blooms and roots [Wire.WireTypes] and [Wire.WireRoots] with
    the laws [Wire.WireLaws], reth's consensus rules the record
    [LiveHead.Consensus]; [Samples], [LiveSamples] and [VerifiedSamples] are
    instances of these. What the peers of a request answer, and in which
    order, is an argument ([LiveChain.Pool]), and so is all a turn of the
    live lane meets ([LiveLane.Turn]).

    ** Files

    - [Prelude]: integers, [result], [eff], comparators, sorting and list
      lemmas. [Bytes]: bytes, fixed arrays, big-endian integers, hex.
    - [Chain], [Capability], [Material], [Provenance], [Frame]
      ([primitives/src/chain.rs], [capability.rs], [material.rs],
      [provenance.rs], [frame.rs]): block identity and its ordered keys, the
      capability lattice, filters and their coverage, evidence levels, frames
      and what they may claim to supply.
    - [Durable] ([durable.rs], [cursor.rs]): versioned envelopes and opaque
      cursors.
    - [SourceContract], [Planner] ([source-api/src/contract.rs],
      [planner.rs]): requests, plans, chunk slicing, the attested-head
      channel, source selection and coverage gaps.
    - [Descriptor], [Delta] ([processor-api/src/descriptor.rs],
      [contract.rs]): descriptors and lifecycle policies, the acceptance of a
      frame by a requirement, encoded deltas and their checksum.
    - [Rows], [Scan], [Overlay], [Inverse], [Window]: processor rows and
      mutations with undo images; paged scans merged with uncommitted
      writes; the reducer overlay and the historical microbatch's reduction;
      inverse changes; output windows.
    - [Delivery], [Capacity]: the change log, outbox and parked changes;
      admission against the delivery and physical limits and the state of a
      lane that was paused by it.
    - [Ranges], [Artifacts], [Checkpoints]: canonical block range sets and
      coverage owners; the artifact tables with their accounting triggers;
      recovery checkpoints and snapshots.
    - [Registration]: [register_processor] with the identity rule, its
      aliases, and the replacement of descriptors.
    - [Lane], [Apply], [Revert]: the tables of one processor instance, and
      over them [apply_with_origin_to_stream], [undo], [mark_attested] and
      [mark_finalized], each whole and composed of the operations before.
    - [Consumers], [Pruning]: durable consumers, their sessions and leases,
      acknowledgements, reading from a consumer's position and from a
      cursor; pruning of the change log.
    - [Processing], [Fees], [Blobs], [Erc20] ([processor-blobs/src/math.rs],
      [schedule.rs], [processor.rs], [model.rs]; [processor-erc20/src/lib.rs]):
      reducers as monadic programs over the rows; the blob schedule and the
      EIP-4844 fee; the two processors' [map] and [reduce]. [Uint256]
      ([wasm-guest/src/u256.rs]): a guest's integers and their text.
    - [Cadence] ([chain/src/lib.rs], [beacon.rs], [op_stack.rs]): slots of
      Ethereum and op-stack chains, forks and the entries they come from.
    - [Requests], [FairCommits] ([runtime/src/lib.rs]): the request of a live
      lane and of a historical job from the requirements of processors, the
      scope pushed down for all of them, a job's ranges; and the commit turns
      of historical jobs, a deficit round robin run one event at a time.
    - [LiveHead], [LiveChain], [LiveLane] ([source-p2p/src/live_head.rs],
      [header_rules.rs], [lib.rs]): the head gate, votes, unattested tail and
      header rules; header chains, the requests for them, reorg plans and the
      proof of an attested head's ancestry; and over them the live lane,
      [subscribe] and the turns of [next_live_event], each step of the loop a
      definition.
    - [LiveMaterial], [Batches], [Wire], [Verified] ([source-p2p/src/
      live_material.rs], [lib.rs], [wire.rs]): bodies and receipts that
      subscriptions share, with every interleaving of their calls; long
      fetches cut into requests; the validation of bodies and receipts
      against headers, the frames of verified material, and the acquisition
      of logs through header blooms. [LiveLane] makes its frames with them.
    - [Codec], [Scenario], [Samples], [LiveSamples], [VerifiedSamples]: an
      instance of the encodings, lanes on concrete blocks, and the processors,
      headers and material on concrete input.
    - [Ledger], [Reorg], [Publication]: what the lane's operations do,
      together. [Feed], [Retention], [Consumption]: the same for the change
      log with its consumers.

    ** What is shown

    - The lane. Coverage, applied blocks and the undo journal agree in every
      reachable state, finalized blocks stay and refuse undo
      ([Ledger.finalized_forever]); through any reorganization the rows are
      those of the surviving blocks ([Reorg.reorg_rows]); a block publishes
      once, in order, after the parked ones below it, none of which is lost
      ([Publication.publishes_in_order]) and is taken in once
      ([Publication.applied_once]).
    - Reduction. The overlay refines direct writes, a microbatch is its
      blocks one by one, merged scans are scans of the merged rows, and a
      clear [window_dependent] flag means what it says ([Overlay], [Scan]).
    - Undo. Rows, pruned rows and metadata come back, and inverse changes
      restore a mirroring consumer ([Window], [Inverse]).
    - Delivery. Streams stay dense and counted, parked changes are released
      in block order whatever the batches, admission keeps streams within
      their limit, its write-free prediction is exact, and a drained lane
      resumes ([Delivery], [Capacity]).
    - Consumption. Whatever runs beside a consumer, the changes it has not
      acknowledged stay readable and its progress never moves back; a session
      that lost its lease writes nothing; an acknowledgement does exactly
      what it says; a read returns the next matching changes and ends; a
      pruning deletes exactly the prefix no registered consumer needs
      ([Consumption], [Retention]).
    - Processors. Derived balances are what a pair received less what it
      sent, or are marked, and the reducer is exact ledger arithmetic
      ([Erc20]); a block's blobs, fees and burns add up ([Blobs]); the fee
      expansion ends and never wraps ([Fees]); a guest's integers are integers
      and print and parse back ([Uint256]).
    - The live head. Slots tile time ([Cadence]); a header counts by a quorum
      of distinct peers and an unverified branch joins only as a linked chain
      close to the attested head ([LiveHead]); the proof of an attested
      ancestry ends, whatever peers answer, in ancestors by hash
      ([LiveChain]).
    - The live lane. Whatever peers, clocks and attested heads do, as long as
      no reorg is taken while a frame waits in the queue, a consumer can
      follow its events, and what it reports as attested rests on an attested
      head it read ([LiveLane]). Without that condition both fail, on a
      concrete run ([LiveSamples.stale_frame_delivered]).
    - Material. A request made for requirements covers every item their
      filters select ([Requests]); logs acquired through blooms are exactly
      those a full normalization selects, and the gas of a block's receipts
      adds up to its header's ([Verified]); batching changes nothing
      ([Batches]); calls that share downloads return the right material, hold
      one claim per block, download a block another call has claimed only
      after waiting for it in vain, and never wait in a circle
      ([LiveMaterial]).
    - Commit turns. One is held at a time, selecting ends, and a waiting job
      is overtaken a bounded number of times ([FairCommits]).
    - Registration keeps identities, frames accepted before stay accepted,
      and snapshots stay restorable ([Registration], [Checkpoints]).
    - Storage. Range sets are normal forms, artifact totals equal the rows,
      promotion respects the budget or does nothing ([Ranges], [Artifacts]).
    - Contracts. Plan validation, planner choice and rejection, coverage
      gaps, frame acceptance, filter coverage, descriptor validity, envelope
      and delta round trips, key order ([SourceContract], [Planner],
      [Descriptor], [Material], [Durable], [Delta], [Chain]).

    ** Bounds and fuel

    These loops carry fuel, each with a proof that the fuel given is enough.
    [Scan.scan_loop] reads pages until one is short and gets one more step
    than there are committed rows, since every full page is at least one row
    further. [Window.expired_loop] visits collections in order and gets one
    more step than metadata rows. [Delivery.release_loop] publishes batches
    and gets one more step than parked rows. [Consumers.consumer_changes_loop] pages over the
    stream and gets one more step than log rows. [Fees.expand] gets 1,300
    steps, after which a term of the expansion that started below [2^256] is
    zero or has overflowed. [Uint256.U256.chunks] gets five, since four limbs
    are below the fifth power of its divisor. [LiveChain.prove_windows] gets
    one window more than the full ones between a block and the head.
    [FairCommits.select_loop] gets the rounds the most indebted job takes to
    owe nothing, and two. [Batches.fetch_complete_within] gets as many replies
    as blocks, since each adds one. Everything else is structural.
    Values the model takes as [Z] where the program has a machine integer are
    bounded by hypotheses of the theorems that need it, never by the
    definitions.

    ** Not modelled

    - Concurrency inside the store (that of the commit turns and of shared
      material is modelled): the writer lock makes operations run one
      at a time, so the model is the sequence of operations. Reads that run
      beside a writer see a committed state.
    - Notifications ([notify_waiters], the coverage-removal counter), tracing
      and the metrics: they hold no state the operations read.
    - The rest of the store: listing consumers and stream statistics,
      handoffs and archive catalogues, coverage compaction, the historical
      microbatch's commit and scheduler plans, canonical blocks, query
      snapshots and migrations. They stand beside the operations modelled
      here and write other tables, or the same ones through them.
    - Peers, sessions and what a request goes through on the wire: scheduling
      over reth's network stack. Who answers, and what, is an argument.
    - The rest of the runtime (chunks in flight, material budgets, the
      coordination of lanes), HTTP and JSON-RPC, the other sources and the
      finality clients, raw history and artifact files, the Wasm host and the
      process around them: asynchronous glue over third-party crates (tokio,
      axum, reth, wasmtime, parquet) with little state of its own. The other
      processors have the shape of the two that are modelled.
    - TOML and YAML decoding of chain entries, reth's chain specifications and
      the built-in tables. *)

From Stdlib Require Import ZArith Lia Strings.Byte.
From stdpp Require Import gmap strings list list_numbers fin_maps sorting.

(** ** Machine integers

    Every Rust integer is a [Z]; the width is a predicate and the
    width-dependent operations of the standard library are written out. *)

Declare Scope leani_scope.
Delimit Scope leani_scope with leani.
Open Scope Z_scope.

Definition u8_max : Z := 255.
Definition u16_max : Z := 65535.
Definition u32_max : Z := 4294967295.
Definition u64_max : Z := 18446744073709551615.
Definition i64_max : Z := 9223372036854775807.
Definition i64_min : Z := -9223372036854775808.

Definition is_u8 (z : Z) : Prop := 0 ≤ z ≤ u8_max.
Definition is_u16 (z : Z) : Prop := 0 ≤ z ≤ u16_max.
Definition is_u32 (z : Z) : Prop := 0 ≤ z ≤ u32_max.
Definition is_u64 (z : Z) : Prop := 0 ≤ z ≤ u64_max.

(** [u64::saturating_add], [saturating_sub], [saturating_mul]. *)
Definition sat_add (a b : Z) : Z := Z.min u64_max (a + b).
Definition sat_sub (a b : Z) : Z := Z.max 0 (a - b).
Definition sat_mul (a b : Z) : Z := Z.min u64_max (a * b).

(** [u64::checked_add], [checked_sub]. *)
Definition checked_add (a b : Z) : option Z :=
  if a + b <=? u64_max then Some (a + b) else None.
Definition checked_sub (a b : Z) : option Z :=
  if b <=? a then Some (a - b) else None.

Ltac uints :=
  unfold sat_add, sat_sub, sat_mul, is_u8, is_u16, is_u32, is_u64,
    u8_max, u16_max, u32_max, u64_max, i64_max in *; try lia.

Lemma checked_add_Some a b c :
  checked_add a b = Some c ↔ c = a + b ∧ a + b ≤ u64_max.
Proof. unfold checked_add. destruct (Z.leb_spec (a + b) u64_max); naive_solver lia. Qed.

Lemma checked_add_None a b : checked_add a b = None ↔ u64_max < a + b.
Proof. unfold checked_add. destruct (Z.leb_spec (a + b) u64_max); naive_solver lia. Qed.

Lemma checked_sub_Some a b c : checked_sub a b = Some c ↔ c = a - b ∧ b ≤ a.
Proof. unfold checked_sub. destruct (Z.leb_spec b a); naive_solver lia. Qed.

Lemma checked_sub_None a b : checked_sub a b = None ↔ a < b.
Proof. unfold checked_sub. destruct (Z.leb_spec b a); naive_solver lia. Qed.

Lemma sat_add_u64 a b : is_u64 a → is_u64 b → is_u64 (sat_add a b).
Proof. uints. Qed.

Lemma sat_sub_u64 a b : is_u64 a → is_u64 b → is_u64 (sat_sub a b).
Proof. uints. Qed.

Lemma sat_mul_u64 a b : is_u64 a → is_u64 b → is_u64 (sat_mul a b).
Proof. intros Ha Hb. assert (0 ≤ a * b) by (apply Z.mul_nonneg_nonneg; uints). uints. Qed.

Create HintDb leani.
Create Rewrite HintDb leani.
#[export] Hint Resolve sat_add_u64 sat_sub_u64 sat_mul_u64 : leani.

(** ** Fallible code

    [Result<A, E>], with the error type first so that it is a monad in [A];
    stdpp's [x ← c; k] is Rust's [let x = c?; k]. *)

Inductive result (E A : Type) : Type :=
  | Ok (a : A)
  | Err (e : E).
Arguments Ok {E A} a.
Arguments Err {E A} e.

#[export] Instance result_ret E : MRet (result E) := λ A a, Ok a.
#[export] Instance result_bind E : MBind (result E) := λ A B f c,
  match c with Ok a => f a | Err e => Err e end.
#[export] Instance result_fmap E : FMap (result E) := λ A B f c,
  match c with Ok a => Ok (f a) | Err e => Err e end.
#[export] Instance result_eq_dec `{EqDecision E, EqDecision A} : EqDecision (result E A).
Proof. solve_decision. Defined.

(** [Option::ok_or], [Result::map_err], [Result::ok]. *)
Definition ok_or {E A} (o : option A) (e : E) : result E A :=
  match o with Some a => Ok a | None => Err e end.
Definition map_err {E F A} (f : E → F) (c : result E A) : result F A :=
  match c with Ok a => Ok a | Err e => Err (f e) end.
Definition is_ok {E A} (c : result E A) : bool :=
  match c with Ok _ => true | Err _ => false end.

Lemma result_bind_Ok {E A B} (c : result E A) (f : A → result E B) b :
  (c ≫= f) = Ok b ↔ ∃ a, c = Ok a ∧ f a = Ok b.
Proof. destruct c; naive_solver. Qed.

Lemma result_bind_Err {E A B} (c : result E A) (f : A → result E B) e :
  (c ≫= f) = Err e ↔ c = Err e ∨ ∃ a, c = Ok a ∧ f a = Err e.
Proof. destruct c; naive_solver. Qed.

(** A guard followed by the rest, and a checked step followed by the rest. *)
Lemma if_Err_Ok {E A} (b : bool) (e : E) (k : result E A) a :
  (if b then Err e else k) = Ok a ↔ b = false ∧ k = Ok a.
Proof. destruct b; naive_solver. Qed.

Lemma bind_unit_Ok {E A} (c : result E ()) (k : result E A) a :
  (_ ← c; k) = Ok a ↔ c = Ok () ∧ k = Ok a.
Proof. destruct c as [[]|]; cbn; naive_solver. Qed.

(** Split a computation that succeeded into its steps. *)
Ltac invert_ok :=
  repeat match goal with
  | H : (_ ≫= _) = Ok _ |- _ => apply result_bind_Ok in H as (? & ? & ?)
  | H : Ok _ = Ok _ |- _ => injection H as H; subst
  | H : Err _ = Ok _ |- _ => discriminate H
  | H : Ok _ = Err _ |- _ => discriminate H
  | H : (if ?b then _ else _) = Ok _ |- _ => destruct b eqn:?
  | H : (if ?b then _ else _) = Err _ |- _ => destruct b eqn:?
  end.

(** A loop body that may fail, folded over a list from the left. *)
Fixpoint fold_result {E A B} (f : B → A → result E B) (b : B) (l : list A) : result E B :=
  match l with
  | [] => Ok b
  | a :: l => b' ← f b a; fold_result f b' l
  end.

Lemma fold_result_app {E A B} (f : B → A → result E B) b l1 l2 :
  fold_result f b (l1 ++ l2) = (b' ← fold_result f b l1; fold_result f b' l2).
Proof.
  revert b; induction l1 as [|a l1 IH]; intros b; [done|]; cbn.
  destruct (f b a); cbn; auto.
Qed.

Lemma fold_result_invariant {E A B} (P : B → Prop) (f : B → A → result E B) b l b' :
  (∀ b a b', P b → f b a = Ok b' → P b') →
  P b → fold_result f b l = Ok b' → P b'.
Proof.
  intros Hf; revert b; induction l as [|a l IH]; intros b Hb; cbn; [naive_solver|].
  intros (b1 & H1 & H2)%result_bind_Ok. eauto.
Qed.

Lemma fold_result_invariant_in {E A B} (P : B → Prop) (f : B → A → result E B) b l b' :
  (∀ b a b', a ∈ l → P b → f b a = Ok b' → P b') →
  P b → fold_result f b l = Ok b' → P b'.
Proof.
  revert b; induction l as [|a l IH]; intros b Hf Hb; cbn; [naive_solver|].
  intros (b1 & H1 & H2)%result_bind_Ok. apply (IH b1); [|by eapply Hf; [left|..]|done].
  intros c a' c' Ha'. apply Hf. by right.
Qed.

(** A fold that only checks. *)
Lemma fold_result_unit {E A} (g : () → A → result E ()) l :
  fold_result g () l = Ok () ↔ ∀ x, x ∈ l → g () x = Ok ().
Proof.
  induction l as [|x l IH]; cbn; [split; [|done]; set_solver|].
  rewrite result_bind_Ok. setoid_rewrite elem_of_cons. split.
  - intros ([] & Hx & Hl) y [->|Hy]; [done|]. by apply IH.
  - intros Hall. exists (). split; [by apply Hall; left|]. apply IH. eauto.
Qed.

(** ** Fallible code that writes as it goes

    A step reads and replaces the state; what it wrote before it fails stays
    written. *)
Definition eff (S E A : Type) : Type := S → S * result E A.

#[export] Instance eff_ret S E : MRet (eff S E) := λ A a s, (s, Ok a).
#[export] Instance eff_bind S E : MBind (eff S E) := λ A B f c s,
  match c s with (s', Ok a) => f a s' | (s', Err e) => (s', Err e) end.

(** A computation that does not touch the state, a read of it, a write. *)
Definition lift {S E A} (c : result E A) : eff S E A := λ s, (s, c).
Definition gets {S E A} (f : S → A) : eff S E A := λ s, (s, Ok (f s)).
Definition modify {S E} (f : S → S) : eff S E () := λ s, (f s, Ok ()).

Lemma eff_bind_Ok {S E A B} (c : eff S E A) (f : A → eff S E B) s s' b :
  (c ≫= f) s = (s', Ok b) ↔ ∃ s1 a, c s = (s1, Ok a) ∧ f a s1 = (s', Ok b).
Proof. unfold mbind, eff_bind. destruct (c s) as [s1 [a|e]]; naive_solver. Qed.

Lemma lift_Ok {S E A} (c : result E A) (s s' : S) a : lift c s = (s', Ok a) ↔ s' = s ∧ c = Ok a.
Proof. unfold lift. naive_solver. Qed.

(** A transaction: an error leaves the state as it was. *)
Definition transact {S E A} (f : S → result E (S * A)) : eff S E A := λ s,
  match f s with Ok (s', a) => (s', Ok a) | Err e => (s, Err e) end.

Lemma transact_Ok {S E A} (f : S → result E (S * A)) s s' a :
  transact f s = (s', Ok a) ↔ f s = Ok (s', a).
Proof. unfold transact. destruct (f s) as [[]|]; naive_solver. Qed.

(** A step that acts on one part; a failing step keeps what it wrote. *)
Definition zoom {S T E A} (get : S → T) (put : S → T → S) (m : eff T E A) : eff S E A := λ s,
  let '(t, r) := m (get s) in (put s t, r).

(** Several steps as one transaction: an error rolls all of them back. *)
Definition atomic {S E A} (m : eff S E A) : eff S E A := λ s,
  match m s with (s', Ok a) => (s', Ok a) | (_, Err e) => (s, Err e) end.

(** A step without a result, and a conditional step. *)
Definition unit_step {S E} (f : S → result E S) (s : S) : result E (S * ()) := s' ← f s; Ok (s', ()).
Definition when {S E} (b : bool) (m : eff S E ()) : eff S E () := if b then m else lift (Ok ()).

Lemma zoom_Ok {S T E A} (get : S → T) (put : S → T → S) (m : eff T E A) s s' a :
  zoom get put m s = (s', Ok a) ↔ ∃ t, m (get s) = (t, Ok a) ∧ s' = put s t.
Proof. unfold zoom. destruct (m (get s)); naive_solver. Qed.

Lemma atomic_Ok {S E A} (m : eff S E A) s s' a : atomic m s = (s', Ok a) → m s = (s', Ok a).
Proof. unfold atomic. destruct (m s) as [? []]; naive_solver. Qed.

Lemma atomic_run {S E A} (m : eff S E A) s s' a : m s = (s', Ok a) → atomic m s = (s', Ok a).
Proof. unfold atomic. by intros ->. Qed.

Lemma atomic_Err {S E A} (m : eff S E A) s s' e : atomic m s = (s', Err e) → s' = s.
Proof. unfold atomic. destruct (m s) as [? []]; naive_solver. Qed.

Lemma unit_step_Ok {S E} (f : S → result E S) s s' u : unit_step f s = Ok (s', u) ↔ f s = Ok s'.
Proof. unfold unit_step. destruct (f s), u; cbn; naive_solver. Qed.

(** What a computation does to the state whether it fails or not. *)
Definition keeps {S E A} (R : relation S) (m : eff S E A) : Prop := ∀ s s' r, m s = (s', r) → R s s'.

Section keeps.
Context {S E : Type} (R : relation S) `{!PreOrder R}.

Lemma keeps_lift {A} (c : result E A) : keeps R (lift c).
Proof. by intros s s' r [= <- _]. Qed.
Lemma keeps_gets {A} (f : S → A) : keeps R (gets (E:=E) f).
Proof. by intros s s' r [= <- _]. Qed.
Lemma keeps_modify (f : S → S) : (∀ s, R s (f s)) → keeps R (modify (E:=E) f).
Proof. intros Hf s s' r [= <- _]. apply Hf. Qed.
Lemma keeps_bind {A B} (c : eff S E A) (f : A → eff S E B) :
  keeps R c → (∀ a, keeps R (f a)) → keeps R (c ≫= f).
Proof.
  intros Hc Hf s s' r. unfold mbind, eff_bind. destruct (c s) as [s1 [a|e]] eqn:H1.
  - intros H2. etrans; [by eapply Hc|by eapply Hf].
  - intros [= <- _]. by eapply Hc.
Qed.
Lemma keeps_transact {A} (f : S → result E (S * A)) :
  (∀ s s' a, f s = Ok (s', a) → R s s') → keeps R (transact f).
Proof. intros Hf s s' r. unfold transact. destruct (f s) as [[s1 a]|e] eqn:H1; intros [= <- _]; [by eapply Hf|done]. Qed.
Lemma keeps_atomic {A} (m : eff S E A) : keeps R m → keeps R (atomic m).
Proof. intros Hm s s' r. unfold atomic. destruct (m s) as [s1 [a|e]] eqn:H1; intros [= <- _]; [by eapply Hm|done]. Qed.
Lemma keeps_zoom {T A} (get : S → T) (put : S → T → S) (m : eff T E A) :
  (∀ s t, R s (put s t)) → keeps R (zoom get put m).
Proof. intros Hp s s' r. unfold zoom. destruct (m (get s)) as [t r']. intros [= <- _]. apply Hp. Qed.
Lemma keeps_when b (m : eff S E ()) : keeps R m → keeps R (when b m).
Proof. intros Hm. destruct b; [done|apply keeps_lift]. Qed.
Lemma keeps_if {A} (b : bool) (m1 m2 : eff S E A) : keeps R m1 → keeps R m2 → keeps R (if b then m1 else m2).
Proof. by destruct b. Qed.

(** What it does when it fails. *)
Definition keeps_on_error {A} (m : eff S E A) : Prop := ∀ s s' e, m s = (s', Err e) → R s s'.

Lemma error_keeps {A} (m : eff S E A) : keeps R m → keeps_on_error m.
Proof. intros Hm s s' e Hrun. by eapply Hm. Qed.
Lemma error_atomic {A} (m : eff S E A) : keeps_on_error (atomic m).
Proof. by intros s s' e ->%atomic_Err. Qed.
Lemma error_bind {A B} (c : eff S E A) (f : A → eff S E B) :
  keeps R c → (∀ a, keeps_on_error (f a)) → keeps_on_error (c ≫= f).
Proof.
  intros Hc Hf s s' e. unfold mbind, eff_bind. destruct (c s) as [s1 [a|e']] eqn:H1.
  - intros H2. etrans; [by eapply Hc|by eapply Hf].
  - intros [= <- _]. by eapply Hc.
Qed.
Lemma error_if {A} (b : bool) (m1 m2 : eff S E A) :
  keeps_on_error m1 → keeps_on_error m2 → keeps_on_error (if b then m1 else m2).
Proof. by destruct b. Qed.
End keeps.

(** Run an effectful computation whose next step is known. *)
Lemma eff_bind_step {S E A B} (c : eff S E A) (f : A → eff S E B) s s1 r :
  c s = (s1, r) →
  (c ≫= f) s = match r with Ok a => f a s1 | Err e => (s1, Err e) end.
Proof. unfold mbind, eff_bind. by intros ->. Qed.

(** ** Lists *)

Lemma StronglySorted_seqZ m n : StronglySorted Z.lt (seqZ m n).
Proof.
  destruct (Z.le_gt_cases n 0); [rewrite seqZ_nil by lia; constructor|].
  rewrite <-(Z2Nat.id n) by lia. generalize (Z.to_nat n). clear. intros k. revert m.
  induction k as [|k IH]; intros m; [constructor|].
  rewrite seqZ_cons by lia. rewrite Nat2Z.inj_succ, Z.pred_succ. constructor; [apply IH|].
  apply Forall_forall. intros x. rewrite elem_of_seqZ. lia.
Qed.

(** [Vec::contains]. *)
Definition list_contains {A} `{EqDecision A} (l : list A) (x : A) : bool := bool_decide (x ∈ l).

Lemma list_contains_spec {A} `{EqDecision A} (l : list A) x : list_contains l x = true ↔ x ∈ l.
Proof. unfold list_contains. by rewrite bool_decide_eq_true. Qed.

Lemma forallb_spec {A} (f : A → bool) l : forallb f l = true ↔ ∀ x, x ∈ l → f x = true.
Proof. rewrite forallb_forall. by setoid_rewrite list_elem_of_In. Qed.

Lemma existsb_spec {A} (f : A → bool) l : existsb f l = true ↔ ∃ x, x ∈ l ∧ f x = true.
Proof. rewrite existsb_exists. by setoid_rewrite list_elem_of_In. Qed.

(** ** Entries of a map in key order

    [BTreeMap] iteration and SQL's [ORDER BY] on a key: the entries of a
    finite map, sorted by a total order on the keys. *)
Section map_entries.
Context {K V : Type} `{Countable K} (R : relation K).
Context `{!RelDecision R, !Total R, !PartialOrder R}.

Definition entry_le (x y : K * V) : Prop := R x.1 y.1.
#[export] Instance entry_le_dec : RelDecision entry_le.
Proof. intros x y. unfold entry_le. apply _. Defined.
#[export] Instance entry_le_total : Total entry_le.
Proof. intros x y. apply (total R). Qed.
#[export] Instance entry_le_trans : Transitive entry_le.
Proof. intros x y z. unfold entry_le. apply transitivity. Qed.

Definition map_entries (m : gmap K V) : list (K * V) := merge_sort entry_le (map_to_list m).

Lemma map_entries_perm m : map_entries m ≡ₚ map_to_list m.
Proof. apply merge_sort_Permutation. Qed.

Lemma elem_of_map_entries m k v : (k, v) ∈ map_entries m ↔ m !! k = Some v.
Proof. by rewrite map_entries_perm, elem_of_map_to_list. Qed.

Lemma map_entries_sorted m : StronglySorted entry_le (map_entries m).
Proof. apply (StronglySorted_merge_sort _). Qed.

Lemma map_entries_NoDup m : NoDup (map_entries m).*1.
Proof. rewrite map_entries_perm. apply NoDup_fst_map_to_list. Qed.

Lemma length_map_entries m : length (map_entries m) = size m.
Proof. rewrite map_entries_perm. apply length_map_to_list. Qed.

Lemma list_to_map_entries m : list_to_map (map_entries m) = m.
Proof.
  rewrite <-(list_to_map_to_list m) at 2. apply list_to_map_proper; [apply map_entries_NoDup|].
  apply map_entries_perm.
Qed.

(** Strictly ascending lists of entries are determined by their elements. *)
Lemma entries_unique (l k : list (K * V)) :
  StronglySorted entry_le l → StronglySorted entry_le k → NoDup l.*1 → NoDup k.*1 →
  (∀ x, x ∈ l ↔ x ∈ k) → l = k.
Proof.
  intros Hl. revert k. induction Hl as [|x l Hl IH Hx]; intros k Hk Hnl Hnk Heq.
  { destruct k as [|y k]; [done|]. assert (y ∈ []) as []%elem_of_nil by (apply Heq; by left). }
  destruct Hk as [|y k Hk Hy].
  { assert (x ∈ []) as []%elem_of_nil by (apply Heq; by left). }
  cbn in Hnl, Hnk. apply NoDup_cons in Hnl as [Hxl Hnl], Hnk as [Hyk Hnk].
  assert (x = y) as ->.
  { assert (x ∈ y :: k) as [|Hxk]%elem_of_cons by (apply Heq; by left); [done|].
    assert (y ∈ x :: l) as [|Hyl]%elem_of_cons by (apply Heq; by left); [done|].
    rewrite Forall_forall in Hx, Hy. specialize (Hx y Hyl). specialize (Hy x Hxk).
    exfalso. apply Hxl. assert (x.1 = y.1) as -> by (by apply (anti_symm R)).
    by apply list_elem_of_fmap_2. }
  f_equal. apply IH; [done..|]. intros z. split; intros Hz.
  - assert (z ∈ y :: k) as [->|?]%elem_of_cons by (apply Heq; by right); [|done].
    destruct Hxl. by apply list_elem_of_fmap_2.
  - assert (z ∈ y :: l) as [->|?]%elem_of_cons by (apply Heq; by right); [|done].
    destruct Hyk. by apply list_elem_of_fmap_2.
Qed.

Lemma filter_sorted (P : K * V → bool) l :
  StronglySorted entry_le l → StronglySorted entry_le (List.filter P l).
Proof.
  induction 1 as [|x l Hl IH Hx]; cbn; [constructor|]. destruct (P x); [|done].
  constructor; [done|]. rewrite Forall_forall in *. intros y Hy.
  rewrite list_elem_of_In, filter_In, <-list_elem_of_In in Hy. by apply Hx, Hy.
Qed.

Lemma filter_NoDup_keys (P : K * V → bool) l : NoDup l.*1 → NoDup (List.filter P l).*1.
Proof.
  induction l as [|x l IH]; cbn; [done|]. intros [Hx Hl]%NoDup_cons. destruct (P x); [|by apply IH].
  cbn. constructor; [|by apply IH]. intros (y & Heq & Hy)%list_elem_of_fmap.
  rewrite list_elem_of_In, filter_In, <-list_elem_of_In in Hy. destruct Hy as [Hy _]. apply Hx. rewrite Heq.
  by apply list_elem_of_fmap_2.
Qed.

(** The entries of a map that a predicate selects, as the entries of the
    smaller map. *)
Lemma map_entries_filter (P : K * V → bool) m m' :
  (∀ k v, m' !! k = Some v ↔ m !! k = Some v ∧ P (k, v) = true) →
  map_entries m' = List.filter P (map_entries m).
Proof.
  intros Heq. apply entries_unique; auto using map_entries_sorted, map_entries_NoDup,
    filter_sorted, filter_NoDup_keys.
  intros [k v]. rewrite elem_of_map_entries, Heq.
  by rewrite list_elem_of_In, filter_In, <-list_elem_of_In, elem_of_map_entries.
Qed.

(** Cutting an ascending list where a downward-closed predicate ends. *)
Lemma filter_split (P : K * V → bool) l :
  StronglySorted entry_le l → (∀ x y, entry_le x y → P y = true → P x = true) →
  l = List.filter P l ++ List.filter (λ x, negb (P x)) l.
Proof.
  intros Hl HP. induction Hl as [|x l Hl IH Hx]; cbn; [done|].
  destruct (P x) eqn:HPx; cbn; [by f_equal|].
  assert (List.filter P l = []) as Hnil.
  { apply elem_of_nil_inv. intros y Hy. rewrite list_elem_of_In, filter_In, <-list_elem_of_In in Hy.
    destruct Hy as [Hy HPy]. rewrite Forall_forall in Hx. specialize (HP x y (Hx y Hy) HPy). congruence. }
  rewrite Hnil in *. cbn in *. by f_equal.
Qed.

(** The first entries of an ascending list are those up to the last taken. *)
Lemma elem_of_take_last n l x y :
  StronglySorted entry_le l → NoDup l.*1 → last (take n l) = Some x →
  y ∈ take n l ↔ y ∈ l ∧ entry_le y x.
Proof.
  intros Hl Hnd Hx. rewrite <-(take_drop n l) in Hl, Hnd |- * at 2.
  assert (x ∈ take n l) as Hin by by eapply last_Some_elem_of.
  split.
  - intros Hy. split; [apply elem_of_app; by left|].
    apply last_Some in Hx as [l' Hx]. rewrite Hx in Hy, Hl. rewrite <-app_assoc in Hl.
    apply elem_of_app in Hy as [Hy | ->%list_elem_of_singleton]; [|by unfold entry_le].
    eapply StronglySorted_app_1_elem_of; [exact Hl|done|]. by left.
  - intros [[|Hy]%elem_of_app Hle]; [done|]. exfalso.
    assert (entry_le x y) as Hge by by eapply StronglySorted_app_1_elem_of.
    assert (x.1 = y.1) as Heq by by apply (anti_symm R).
    rewrite fmap_app in Hnd. apply NoDup_app in Hnd as (_ & Hdisj & _).
    apply (Hdisj x.1); [by apply list_elem_of_fmap_2|]. rewrite Heq. by apply list_elem_of_fmap_2.
Qed.
End map_entries.

Lemma filter_andb {A} (P Q : A → bool) l :
  List.filter (λ x, P x && Q x) l = List.filter Q (List.filter P l).
Proof.
  induction l as [|x l IH]; cbn; [done|]. destruct (P x); cbn; [|done].
  destruct (Q x); [by f_equal|done].
Qed.

Lemma length_filter_lt {A} (P Q : A → bool) l x :
  (∀ y, Q y = true → P y = true) → x ∈ l → P x = true → Q x = false →
  (length (List.filter Q l) < length (List.filter P l))%nat.
Proof.
  intros HQP. assert (∀ k, length (List.filter Q k) ≤ length (List.filter P k))%nat as Hle.
  { induction k as [|y k IH]; cbn; [done|]. specialize (HQP y).
    destruct (Q y), (P y); cbn; try lia; by specialize (HQP eq_refl). }
  induction l as [|y l IH]; [by intros ?%elem_of_nil|]. intros [->|Hin]%elem_of_cons HP HQ; cbn.
  - rewrite HP, HQ. cbn. specialize (Hle l). lia.
  - specialize (IH Hin HP HQ). specialize (HQP y).
    destruct (Q y), (P y); cbn; try lia; by specialize (HQP eq_refl).
Qed.

(** A partial function defined on a whole list keeps its positions. *)
Lemma lookup_omap_all {A B} (f : A → option B) (l : list A) (p : nat) :
  (∀ x, x ∈ l → is_Some (f x)) → omap f l !! p = l !! p ≫= f.
Proof.
  revert p. induction l as [|x l IH]; intros p Hf; [done|]. cbn [omap list_omap].
  destruct (Hf x) as [y Hy]; [by left|]. rewrite Hy. destruct p as [|p]; cbn; [done|]. apply IH. intros; apply Hf. by right.
Qed.

Lemma elem_of_filter_list {A} (f : A → bool) l x : x ∈ List.filter f l ↔ x ∈ l ∧ f x = true.
Proof. rewrite !list_elem_of_In. apply filter_In. Qed.

Lemma NoDup_filter_list {A} (f : A → bool) l : NoDup l → NoDup (List.filter f l).
Proof. rewrite !NoDup_ListNoDup. apply List.NoDup_filter. Qed.

(** Rows keep distinct keys when some are dropped. *)
Lemma NoDup_fmap_filter {A B} (g : A → B) (f : A → bool) (l : list A) :
  NoDup (g <$> l) → NoDup (g <$> List.filter f l).
Proof.
  induction l as [|x l IH]; cbn; [done|]. intros [Hn Hnd]%NoDup_cons.
  destruct (f x); [|by apply IH]. cbn. constructor; [|by apply IH].
  intros (y & Heq & [Hy _]%elem_of_filter_list)%list_elem_of_fmap. apply Hn. rewrite Heq.
  by apply list_elem_of_fmap_2.
Qed.

Lemma NoDup_take_list {A} n (l : list A) : NoDup l → NoDup (take n l).
Proof. rewrite <-(take_drop n l) at 1. by intros [? _]%NoDup_app. Qed.

Lemma StronglySorted_filter_list {A} (R : relation A) (f : A → bool) l :
  StronglySorted R l → StronglySorted R (List.filter f l).
Proof.
  induction 1 as [|x l Hl IH Hx]; cbn; [constructor|]. destruct (f x); [|done].
  constructor; [done|]. rewrite Forall_forall in *. intros y [Hy _]%elem_of_filter_list. auto.
Qed.

Lemma StronglySorted_weaken {A} (R S : relation A) l :
  (∀ x y, x ∈ l → y ∈ l → R x y → S x y) → StronglySorted R l → StronglySorted S l.
Proof.
  intros HRS. induction 1 as [|x l Hl IH Hx]; constructor.
  - apply IH. intros y z Hy Hz. apply HRS; by right.
  - rewrite Forall_forall in *. intros y Hy. apply HRS; [by left|by right|auto].
Qed.

Lemma StronglySorted_map {A B} (f : A → B) (R : relation B) l :
  StronglySorted (λ x y, R (f x) (f y)) l → StronglySorted R (f <$> l).
Proof. induction 1 as [|x l Hl IH Hx]; constructor; [done|]. by apply Forall_fmap. Qed.

(** Sorted without repeats, an order is strict. *)
Lemma StronglySorted_distinct {A} (R : relation A) l :
  StronglySorted R l → NoDup l → StronglySorted (λ x y, R x y ∧ x ≠ y) l.
Proof.
  induction 1 as [|x l Hl IH Hx]; [constructor|]. intros [Hn Hnd]%NoDup_cons. constructor; [by apply IH|].
  rewrite Forall_forall in *. intros y Hy. split; [auto|]. by intros ->.
Qed.

Lemma Forall2_weaken {A B} (P Q : A → B → Prop) l k :
  Forall2 P l k → (∀ x y, x ∈ l → P x y → Q x y) → Forall2 Q l k.
Proof.
  induction 1 as [|x y l k Hxy Hall IH]; intros HPQ; constructor; [by apply HPQ; [left|]|].
  apply IH. intros a b Ha. apply HPQ. by right.
Qed.

(** What a partial function picks from a list, each item once. *)
Lemma omap_split {A B} (f : A → option B) l :
  ∃ picked rest, l ≡ₚ picked ++ rest ∧ Forall2 (λ x y, f x = Some y) picked (omap f l)
    ∧ Forall (λ x, f x = None) rest.
Proof.
  induction l as [|x l (picked & rest & Hp & Hall & Hrest)]; [by exists [], []|]. cbn [omap list_omap].
  destruct (f x) as [y|] eqn:Hx.
  - exists (x :: picked), rest. split; [by rewrite Hp|]. split; [by constructor|done].
  - exists picked, (x :: rest). split; [|split; [done|by constructor]]. by rewrite Hp, Permutation_middle.
Qed.

Lemma filter_partition {A} (f : A → bool) l :
  l ≡ₚ List.filter f l ++ List.filter (λ x, negb (f x)) l.
Proof.
  induction l as [|x l IH]; [done|]. cbn. destruct (f x); cbn; [by rewrite <-IH|].
  by rewrite <-Permutation_middle, <-IH.
Qed.

#[export] Instance filter_list_perm {A} (f : A → bool) : Proper ((≡ₚ) ==> (≡ₚ)) (List.filter f).
Proof.
  induction 1 as [|x l k _ IH|x y l|l1 l2 l3 _ IH1 _ IH2]; cbn.
  - done.
  - destruct (f x); [by constructor|done].
  - destruct (f x), (f y); try done. by constructor.
  - by rewrite IH1.
Qed.

Lemma filter_all {A} (f : A → bool) l : (∀ x, x ∈ l → f x = true) → List.filter f l = l.
Proof.
  induction l as [|x l IH]; intros Hall; [done|]. cbn. rewrite Hall by by left. f_equal. apply IH.
  intros y Hy. apply Hall. by right.
Qed.

Lemma filter_none {A} (f : A → bool) l : (∀ x, x ∈ l → f x = false) → List.filter f l = [].
Proof. intros Hf. induction l as [|x l IH]; [done|]. cbn. rewrite Hf by by left. apply IH. intros; apply Hf. by right. Qed.

(** One order has one sorted list. *)
Lemma sorted_perm_eq {A} (R : relation A) l1 l2 :
  (∀ x y, x ∈ l1 → y ∈ l1 → R x y → R y x → x = y) →
  StronglySorted R l1 → StronglySorted R l2 → l1 ≡ₚ l2 → l1 = l2.
Proof.
  revert l2; induction l1 as [|x l1 IH]; intros l2 Heq H1 H2 Hp.
  { symmetry. by apply Permutation_nil. }
  destruct l2 as [|y l2]; [by apply Permutation_sym, Permutation_nil in Hp|].
  apply StronglySorted_inv in H1 as [H1 Hx], H2 as [H2 Hy]. rewrite Forall_forall in Hx, Hy.
  assert (x = y) as <-.
  { assert (y ∈ x :: l1) as [->|Hyl]%elem_of_cons by (rewrite Hp; by left); [done|].
    assert (x ∈ y :: l2) as [->|Hxl]%elem_of_cons by (rewrite <-Hp; by left); [done|].
    apply Heq; [by left|by right|auto..]. }
  f_equal. apply IH; [|done..|by eapply Permutation_cons_inv].
  intros a b Ha Hb. apply Heq; by right.
Qed.

(** The first [k] of a list are among the first [k] of any of its parts. *)
Lemma elem_of_take_filter {A} (f : A → bool) k l x :
  x ∈ take k l → f x = true → x ∈ take k (List.filter f l).
Proof.
  revert k; induction l as [|y l IH]; intros k; [by rewrite take_nil; intros ?%elem_of_nil|].
  destruct k as [|k]; cbn; [by intros ?%elem_of_nil|]. intros [->|Hx]%elem_of_cons Hf.
  - rewrite Hf. by left.
  - destruct (f y); [right; by apply IH|]. apply (IH (S k)); [|done].
    apply elem_of_take in Hx as (i & Hi & Hlt). apply elem_of_take. exists i. split; [done|lia].
Qed.

(** [SELECT MAX(..)] and [MIN(..)]: none of no rows. *)
Definition maximum (l : list Z) : option Z :=
  match l with [] => None | z :: zs => Some (foldl Z.max z zs) end.
Definition minimum (l : list Z) : option Z :=
  match l with [] => None | z :: zs => Some (foldl Z.min z zs) end.

Lemma foldl_bound (f : Z → Z → Z) (R : Z → Z → Prop) `{!PreOrder R} :
  (∀ a b, R a (f a b) ∧ R b (f a b) ∧ (f a b = a ∨ f a b = b)) →
  ∀ l z, foldl f z l ∈ z :: l ∧ ∀ x, x ∈ z :: l → R x (foldl f z l).
Proof.
  intros Hf l; induction l as [|y l IH]; intros z; cbn.
  - split; [by left|]. by intros x ->%list_elem_of_singleton.
  - destruct (Hf z y) as (Hz & Hy & Heq), (IH (f z y)) as [Hin Hall]. split.
    + apply elem_of_cons in Hin as [-> | Hin]; [|by do 2 right].
      destruct Heq as [-> | ->]; [by left|right; by left].
    + intros x [-> | [-> | Hx]%elem_of_cons]%elem_of_cons; [|..|apply Hall; by right];
        (etrans; [|apply Hall; by left]); done.
Qed.

Lemma maximum_spec l m : maximum l = Some m ↔ m ∈ l ∧ ∀ x, x ∈ l → x ≤ m.
Proof.
  assert (∀ m', maximum l = Some m' → m' ∈ l ∧ ∀ x, x ∈ l → x ≤ m') as Hmax.
  { destruct l as [|z l]; [done|]. cbn. intros m' [= <-]. apply (foldl_bound Z.max Z.le). lia. }
  split; [apply Hmax|]. intros [Hin Hall]. destruct (maximum l) as [m'|] eqn:Hm.
  - destruct (Hmax _ eq_refl) as [Hin' Hall']. specialize (Hall _ Hin'). specialize (Hall' _ Hin). f_equal. lia.
  - destruct l; [by apply elem_of_nil in Hin|done].
Qed.

Lemma minimum_spec l m : minimum l = Some m ↔ m ∈ l ∧ ∀ x, x ∈ l → m ≤ x.
Proof.
  assert (∀ m', minimum l = Some m' → m' ∈ l ∧ ∀ x, x ∈ l → m' ≤ x) as Hmin.
  { destruct l as [|z l]; [done|]. cbn. intros m' [= <-].
    assert (PreOrder Z.ge) by (split; [intros ?; lia|intros ? ? ? ? ?; lia]).
    destruct (foldl_bound Z.min Z.ge ltac:(intros; lia) l z) as [Hin Hall]. split; [done|].
    intros x Hx%Hall. lia. }
  split; [apply Hmin|]. intros [Hin Hall]. destruct (minimum l) as [m'|] eqn:Hm.
  - destruct (Hmin _ eq_refl) as [Hin' Hall']. specialize (Hall _ Hin'). specialize (Hall' _ Hin). f_equal. lia.
  - destruct l; [by apply elem_of_nil in Hin|done].
Qed.

Lemma maximum_None l : maximum l = None ↔ l = [].
Proof. by destruct l. Qed.
Lemma minimum_None l : minimum l = None ↔ l = [].
Proof. by destruct l. Qed.

(** Of consecutive keys, an initial and a final part. *)
Lemma filter_above {A} (key : A → Z) l m n a :
  key <$> l = seqZ m n → List.filter (λ x, a <? key x) l = drop (Z.to_nat (a + 1 - m)) l.
Proof.
  revert m n; induction l as [|x l IH]; intros m n; cbn; [by rewrite drop_nil|].
  intros Hk. destruct (Z.leb_spec n 0) as [Hn|Hn]; [by rewrite seqZ_nil in Hk|].
  rewrite seqZ_cons in Hk by lia. injection Hk as Hx Hl. specialize (IH _ _ Hl). rewrite IH.
  destruct (Z.ltb_spec a (key x)).
  - replace (Z.to_nat (a + 1 - m)) with 0%nat by lia. cbn. f_equal.
    replace (Z.to_nat (a + 1 - Z.succ m)) with 0%nat by lia. done.
  - replace (Z.to_nat (a + 1 - m)) with (S (Z.to_nat (a + 1 - Z.succ m))) by lia. done.
Qed.

Lemma filter_below {A} (key : A → Z) l m n b :
  key <$> l = seqZ m n → List.filter (λ x, key x <? b) l = take (Z.to_nat (b - m)) l.
Proof.
  revert m n; induction l as [|x l IH]; intros m n; cbn; [by rewrite take_nil|].
  intros Hk. destruct (Z.leb_spec n 0) as [Hn|Hn]; [by rewrite seqZ_nil in Hk|].
  rewrite seqZ_cons in Hk by lia. injection Hk as Hx Hl. specialize (IH _ _ Hl). rewrite IH.
  destruct (Z.ltb_spec (key x) b).
  - replace (Z.to_nat (b - m)) with (S (Z.to_nat (b - Z.succ m))) by lia. done.
  - replace (Z.to_nat (b - m)) with 0%nat by lia. cbn.
    replace (Z.to_nat (b - Z.succ m)) with 0%nat by lia. done.
Qed.

Lemma take_seqZ k m n : take k (seqZ m n) = seqZ m (Z.min (Z.of_nat k) n).
Proof.
  apply list_eq. intros i. destruct (decide (i < k)%nat).
  - rewrite lookup_take_lt by done. destruct (decide (Z.of_nat i < n)).
    + rewrite !lookup_seqZ_lt by lia. done.
    + rewrite !lookup_seqZ_ge by lia. done.
  - rewrite lookup_take_ge by lia. rewrite lookup_seqZ_ge by lia. done.
Qed.

Lemma drop_seqZ k m n : drop k (seqZ m n) = seqZ (m + Z.of_nat k) (n - Z.of_nat k).
Proof.
  apply list_eq. intros i. rewrite lookup_drop. destruct (decide (Z.of_nat (k + i) < n)).
  - rewrite !lookup_seqZ_lt by lia. f_equal. lia.
  - rewrite !lookup_seqZ_ge by lia. done.
Qed.

(** Dropping elements outside the first [k] keeps the first [k]. *)
Lemma take_filter_keep {A} (f : A → bool) k l :
  (∀ x, x ∈ take k l → f x = true) → take k (List.filter f l) = take k l.
Proof.
  revert k; induction l as [|y l IH]; intros [|k] Hf; cbn; [done..|]. cbn in Hf.
  rewrite (Hf y) by by left. cbn. f_equal. apply IH. intros x Hx. apply Hf. by right.
Qed.

(** ** Saturating sums *)

(** The value a saturating [u64] computation of the exact [z] holds. *)
Definition saturate (z : Z) : Z := Z.min u64_max z.

Definition Z_sum (l : list Z) : Z := foldr Z.add 0 l.

Lemma Z_sum_nonneg l : Forall (λ z, 0 ≤ z) l → 0 ≤ Z_sum l.
Proof. unfold Z_sum. induction 1; cbn in *; lia. Qed.

Lemma Z_sum_app l k : Z_sum (l ++ k) = Z_sum l + Z_sum k.
Proof. unfold Z_sum. induction l as [|z l IH]; cbn; lia. Qed.

Lemma sat_add_saturate a b :
  0 ≤ a → 0 ≤ b → sat_add (saturate a) (saturate b) = saturate (a + b).
Proof. unfold saturate. uints. Qed.

Lemma sat_mul_saturate a b :
  0 ≤ a → 0 ≤ b → sat_mul (saturate a) (saturate b) = saturate (a * b).
Proof.
  intros Ha Hb. unfold sat_mul, saturate.
  destruct (decide (a = 0)) as [->|]; [by rewrite Z.min_r by uints|].
  destruct (decide (b = 0)) as [->|]; [by rewrite (Z.min_r _ 0), !Z.mul_0_r by uints|].
  assert (0 < u64_max) by uints. generalize dependent u64_max. intros M HM.
  destruct (Z.le_gt_cases M a).
  { rewrite (Z.min_l M a) by done. rewrite !Z.min_l; nia. }
  rewrite (Z.min_r M a) by lia. destruct (Z.le_gt_cases M b).
  { rewrite (Z.min_l M b) by done. rewrite !Z.min_l; nia. }
  by rewrite (Z.min_r M b) by lia.
Qed.

(** A fold of saturating steps saturates the exact sum of their weights. *)
Lemma saturate_fold {A} (step : Z → A → Z) (w : A → Z) t l :
  (∀ t x, 0 ≤ t → step (saturate t) x = saturate (t + w x)) →
  (∀ x, 0 ≤ w x) → 0 ≤ t →
  fold_left step l (saturate t) = saturate (t + Z_sum (w <$> l)).
Proof.
  intros Hstep Hw. revert t; induction l as [|x l IH]; intros t Ht; cbn [fold_left].
  - f_equal. unfold Z_sum; cbn. lia.
  - pose proof (Hw x). rewrite Hstep, IH by lia. f_equal. unfold Z_sum; cbn. lia.
Qed.

(** [SUM] over the values of a table. *)
Section map_sum.
Context {K V : Type} `{Countable K} (w : V → Z).

Definition map_sum (m : gmap K V) : Z := Z_sum ((λ e, w e.2) <$> map_to_list m).

Lemma Z_sum_perm l k : l ≡ₚ k → Z_sum l = Z_sum k.
Proof. unfold Z_sum. induction 1; cbn; lia. Qed.

Lemma map_sum_empty : map_sum ∅ = 0.
Proof. unfold map_sum. by rewrite map_to_list_empty. Qed.

Lemma map_sum_insert m k v : m !! k = None → map_sum (<[k := v]> m) = w v + map_sum m.
Proof.
  intros Hk. unfold map_sum. rewrite (Z_sum_perm _ _ (fmap_Permutation _ _ _ (map_to_list_insert m k v Hk))).
  done.
Qed.

Lemma map_sum_delete m k v : m !! k = Some v → map_sum (delete k m) = map_sum m - w v.
Proof.
  intros Hk. rewrite <-(insert_delete_id m k v Hk) at 2. rewrite map_sum_insert by apply lookup_delete_eq. lia.
Qed.

Lemma map_sum_nonneg m : (∀ v, 0 ≤ w v) → 0 ≤ map_sum m.
Proof.
  intros Hw. apply Z_sum_nonneg, Forall_fmap, Forall_true. intros e. apply Hw.
Qed.
End map_sum.

(** ** Stable sorting

    [slice::sort_by] and [sort_by_key] are stable; [leb x y] holds when [x]
    does not sort after [y]. *)
Section sort_by.
Context {A : Type} (leb : A → A → bool).

Fixpoint sort_insert (x : A) (l : list A) : list A :=
  match l with
  | [] => [x]
  | y :: l' => if leb x y then x :: l else y :: sort_insert x l'
  end.

Definition sort_by (l : list A) : list A := foldr sort_insert [] l.

Lemma sort_insert_perm x l : sort_insert x l ≡ₚ x :: l.
Proof.
  induction l as [|y l IH]; cbn; [done|]. destruct (leb x y); [done|].
  rewrite IH. apply Permutation_swap.
Qed.

Lemma sort_by_perm l : sort_by l ≡ₚ l.
Proof. induction l as [|x l IH]; cbn; [done|]. by rewrite sort_insert_perm, IH. Qed.

Lemma elem_of_sort_by x l : x ∈ sort_by l ↔ x ∈ l.
Proof. by rewrite sort_by_perm. Qed.

Context (leb_total : ∀ x y, leb x y = true ∨ leb y x = true).
Context (leb_trans : ∀ x y z, leb x y = true → leb y z = true → leb x z = true).

Lemma sort_insert_sorted x l :
  StronglySorted (λ a b, leb a b = true) l →
  StronglySorted (λ a b, leb a b = true) (sort_insert x l).
Proof.
  induction 1 as [|y l Hl IH Hy]; cbn; [repeat constructor|].
  destruct (leb x y) eqn:Hxy.
  - constructor; [by constructor|]. constructor; [done|].
    eapply Forall_impl; [exact Hy|]. cbn. eauto.
  - constructor; [done|]. rewrite sort_insert_perm. constructor; [|done].
    destruct (leb_total x y); congruence.
Qed.

Lemma sort_by_sorted l : StronglySorted (λ a b, leb a b = true) (sort_by l).
Proof. induction l; cbn; [constructor|]. by apply sort_insert_sorted. Qed.

(** The head is the first of the least elements. *)
Lemma sort_by_head l x :
  head (sort_by l) = Some x →
  ∃ before after, l = before ++ x :: after ∧
    (∀ y, y ∈ before → leb y x = false) ∧ (∀ y, y ∈ l → leb x y = true).
Proof.
  assert (∀ y, leb y y = true) as Hrefl by (intros y; destruct (leb_total y y); done).
  revert x. induction l as [|z l IH]; intros x; [done|].
  change (sort_by (z :: l)) with (sort_insert z (sort_by l)).
  destruct (sort_by l) as [|y ys] eqn:Hs; cbn.
  - intros Heq. assert (z = x) as -> by congruence. assert (l = []) as ->.
    { apply Permutation_nil. rewrite <-Hs. apply sort_by_perm. }
    exists [], []. split_and!; [done|by intros ? ?%elem_of_nil|].
    intros y ->%list_elem_of_singleton. done.
  - destruct (IH y eq_refl) as (before & after & -> & Hb & Hall).
    destruct (leb z y) eqn:Hzy; cbn; intros Heq; [assert (z = x) as -> by congruence|assert (y = x) as -> by congruence].
    + exists [], (before ++ y :: after). split_and!; [done|by intros ? ?%elem_of_nil|].
      intros w [->|Hw]%elem_of_cons; eauto.
    + exists (z :: before), after. split_and!; [done|..].
      * intros w [->|Hw]%elem_of_cons; eauto.
      * intros w [->|Hw]%elem_of_cons; [|eauto].
        destruct (leb_total x z); congruence.
Qed.

(** Sorting a list whose equals are equal depends on its elements only. *)
Lemma sort_by_unique l1 l2 :
  (∀ x y, x ∈ l1 → y ∈ l1 → leb x y = true → leb y x = true → x = y) →
  StronglySorted (λ a b, leb a b = true) l2 → l1 ≡ₚ l2 → sort_by l1 = l2.
Proof.
  intros Heq Hl2 Hp. apply (sorted_perm_eq (λ a b, leb a b = true)); [|apply sort_by_sorted|done|].
  - intros x y Hx Hy. apply Heq; by apply elem_of_sort_by.
  - by rewrite sort_by_perm.
Qed.

End sort_by.

(** [Ordering::then_with]. *)
Definition then_with (c d : comparison) : comparison :=
  match c with Eq => d | _ => c end.

(** What [Ord] promises of a comparison function. *)
Class Comparator {A} (cmp : A → A → comparison) : Prop := {
  cmp_antisym x y : cmp y x = CompOpp (cmp x y);
  cmp_trans x y z c : cmp x y = c → cmp y z = c → cmp x z = c;
}.

(** [x] does not sort after [y]. *)
Definition cmp_leb {A} (cmp : A → A → comparison) (x y : A) : bool :=
  match cmp x y with Gt => false | _ => true end.

(** [bool]'s order. *)
Definition bool_cmp (a b : bool) : comparison := Z.b2z a ?= Z.b2z b.

#[export] Instance Z_comparator : Comparator Z.compare.
Proof.
  split; [intros; by rewrite Z.compare_antisym|]. intros x y z c.
  destruct (Z.compare_spec x y), (Z.compare_spec y z), (Z.compare_spec x z); naive_solver lia.
Qed.

#[export] Instance on_comparator {A B} (f : A → B) cmp :
  Comparator cmp → Comparator (λ x y, cmp (f x) (f y)).
Proof. intros []. split; eauto. Qed.

#[export] Instance flip_comparator {A} (cmp : A → A → comparison) :
  Comparator cmp → Comparator (λ x y, cmp y x).
Proof. intros []. split; eauto. Qed.

Lemma cmp_mixed {A} (cmp : A → A → comparison) `{!Comparator cmp} x y z :
  (cmp x y = Eq → cmp x z = cmp y z) ∧ (cmp y z = Eq → cmp x z = cmp x y).
Proof.
  split; intros H.
  - destruct (cmp y z) eqn:Hyz; [by eapply cmp_trans|..];
      destruct (cmp x z) eqn:Hxz; try done; exfalso;
      assert (cmp y x = Eq) as Hyx by (by rewrite cmp_antisym, H);
      assert (cmp z x = CompOpp (cmp x z)) as Hzx by apply cmp_antisym; rewrite Hxz in Hzx; cbn in Hzx.
    + pose proof (cmp_trans y x z Eq Hyx Hxz). congruence.
    + pose proof (cmp_trans y z x Lt Hyz Hzx). congruence.
    + pose proof (cmp_trans y x z Eq Hyx Hxz). congruence.
    + pose proof (cmp_trans y z x Gt Hyz Hzx). congruence.
  - destruct (cmp x y) eqn:Hxy; [by eapply cmp_trans|..];
      destruct (cmp x z) eqn:Hxz; try done; exfalso;
      assert (cmp z y = Eq) as Hzy by (by rewrite cmp_antisym, H);
      assert (cmp z x = CompOpp (cmp x z)) as Hzx by apply cmp_antisym; rewrite Hxz in Hzx; cbn in Hzx.
    + pose proof (cmp_trans x z y Eq Hxz Hzy). congruence.
    + pose proof (cmp_trans z x y Lt Hzx Hxy). congruence.
    + pose proof (cmp_trans x z y Eq Hxz Hzy). congruence.
    + pose proof (cmp_trans z x y Gt Hzx Hxy). congruence.
Qed.

#[export] Instance then_comparator {A} (f g : A → A → comparison) :
  Comparator f → Comparator g → Comparator (λ x y, then_with (f x y) (g x y)).
Proof.
  intros Hf Hg. split.
  - intros x y. rewrite (cmp_antisym (cmp:=f) x y), (cmp_antisym (cmp:=g) x y).
    by destruct (f x y).
  - intros x y z c. destruct (cmp_mixed f x y z) as [H1 H2].
    destruct (f x y) eqn:Hxy; cbn.
    + rewrite H1 by done. destruct (f y z); cbn; [apply cmp_trans|congruence..].
    + intros <-. destruct (f y z) eqn:Hyz; cbn; [by rewrite H2|..|done].
      intros _. by rewrite (cmp_trans x y z Lt).
    + intros <-. destruct (f y z) eqn:Hyz; cbn; [by rewrite H2|done|].
      intros _. by rewrite (cmp_trans x y z Gt).
Qed.

Section cmp_leb.
Context {A : Type} (cmp : A → A → comparison) `{!Comparator cmp}.

Lemma cmp_leb_spec x y : cmp_leb cmp x y = true ↔ cmp x y ≠ Gt.
Proof. unfold cmp_leb. by destruct (cmp x y). Qed.

Lemma cmp_leb_false x y : cmp_leb cmp x y = false ↔ cmp y x = Lt.
Proof.
  unfold cmp_leb. rewrite (cmp_antisym (cmp:=cmp) x y). by destruct (cmp x y).
Qed.

Lemma cmp_leb_total x y : cmp_leb cmp x y = true ∨ cmp_leb cmp y x = true.
Proof. unfold cmp_leb. rewrite (cmp_antisym (cmp:=cmp) x y). destruct (cmp x y); auto. Qed.

Lemma cmp_leb_trans x y z : cmp_leb cmp x y = true → cmp_leb cmp y z = true → cmp_leb cmp x z = true.
Proof.
  unfold cmp_leb. destruct (cmp_mixed cmp x y z) as [H1 H2].
  destruct (cmp x y) eqn:Hxy; [by rewrite H1|..|done].
  destruct (cmp y z) eqn:Hyz; [by rewrite H2| |done]. by rewrite (cmp_trans x y z Lt).
Qed.
End cmp_leb.

Lemma cmp_refl {A} (cmp : A → A → comparison) `{!Comparator cmp} x : cmp x x = Eq.
Proof. pose proof (cmp_antisym (cmp:=cmp) x x). by destruct (cmp x x). Qed.

(** The order of a comparison function, for the ordered containers. *)
Definition cmp_le {A} (cmp : A → A → comparison) (x y : A) : Prop := cmp x y ≠ Gt.

(** What [Eq] promises: it is equality. *)
Class EqComparator {A} (cmp : A → A → comparison) : Prop :=
  cmp_eq x y : cmp x y = Eq → x = y.

#[export] Instance cmp_le_dec {A} (cmp : A → A → comparison) : RelDecision (cmp_le cmp).
Proof. intros x y. unfold cmp_le. apply _. Defined.

#[export] Instance cmp_le_total {A} (cmp : A → A → comparison) :
  Comparator cmp → Total (cmp_le cmp).
Proof.
  intros Hc x y. unfold cmp_le. rewrite (cmp_antisym (cmp:=cmp) x y).
  destruct (cmp x y); cbn; [left|left|right]; discriminate.
Qed.

#[export] Instance cmp_le_order {A} (cmp : A → A → comparison) :
  Comparator cmp → EqComparator cmp → PartialOrder (cmp_le cmp).
Proof.
  intros Hc He. split; [split|].
  - intros x. unfold cmp_le. pose proof (cmp_antisym (cmp:=cmp) x x). by destruct (cmp x x).
  - intros x y z. unfold cmp_le. rewrite <-!cmp_leb_spec. apply cmp_leb_trans, _.
  - intros x y. unfold cmp_le. rewrite (cmp_antisym (cmp:=cmp) x y).
    destruct (cmp x y) eqn:H; [by intros; apply He|by intros _ []|by intros []].
Qed.

#[export] Instance then_eq_comparator {A} (f g : A → A → comparison) :
  (∀ x y, f x y = Eq → g x y = Eq → x = y) → EqComparator (λ x y, then_with (f x y) (g x y)).
Proof. intros H x y. destruct (f x y) eqn:Hf; cbn; [|done..]. auto. Qed.

(** The [u16] formatted by [{:04x}]. *)
Definition hex_digit (z : Z) : string :=
  match z with
  | 0 => "0" | 1 => "1" | 2 => "2" | 3 => "3" | 4 => "4" | 5 => "5" | 6 => "6" | 7 => "7"
  | 8 => "8" | 9 => "9" | 10 => "a" | 11 => "b" | 12 => "c" | 13 => "d" | 14 => "e" | _ => "f"
  end.
Definition hex4 (z : Z) : string :=
  hex_digit (z / 4096 mod 16) +:+ hex_digit (z / 256 mod 16)
  +:+ hex_digit (z / 16 mod 16) +:+ hex_digit (z mod 16).
