(* ===== verification/Bytes.v ===== *)
(** * Bytes, fixed-size arrays, big-endian integers and byte order

    What the source uses of Rust's [u8], [[u8; N]], [to_be_bytes],
    [from_be_bytes], the lexicographic [Ord] of byte strings (also SQLite's
    BLOB order), and the ordered iteration of [BTreeMap]. *)
From Stdlib Require Import ZArith Lia Strings.Byte.
From stdpp Require Import gmap strings list list_numbers fin_maps sorting.
From S2P Require Import Prelude.

(** ** Bytes *)

Definition byte_Z (b : byte) : Z := Z.of_N (Byte.to_N b).
Definition byte_of_Z (z : Z) : byte :=
  default x00 (Byte.of_N (Z.to_N (z mod 256))).

Lemma byte_Z_range b : 0 ≤ byte_Z b < 256.
Proof. unfold byte_Z. pose proof (Byte.to_N_bounded b). lia. Qed.

Lemma byte_Z_of_Z z : byte_Z (byte_of_Z z) = z mod 256.
Proof.
  unfold byte_Z, byte_of_Z. pose proof (Z.mod_pos_bound z 256 ltac:(lia)).
  destruct (Byte.of_N (Z.to_N (z mod 256))) as [b|] eqn:Hb; cbn.
  - apply Byte.to_of_N in Hb. lia.
  - apply Byte.of_N_None_iff in Hb. lia.
Qed.

Lemma byte_of_Z_Z b : byte_of_Z (byte_Z b) = b.
Proof.
  unfold byte_of_Z. rewrite Z.mod_small by apply byte_Z_range.
  unfold byte_Z. by rewrite N2Z.id, Byte.of_to_N.
Qed.

#[export] Instance byte_Z_inj : Inj (=) (=) byte_Z.
Proof. intros a b Hab. by rewrite <-(byte_of_Z_Z a), Hab, byte_of_Z_Z. Qed.

#[export] Instance byte_eq_dec : EqDecision byte := Byte.byte_eq_dec.
#[export] Program Instance byte_countable : Countable byte :=
  inj_countable' Byte.to_N (λ n, default x00 (Byte.of_N n)) _.
Next Obligation. intros b. cbn. by rewrite Byte.of_to_N. Qed.

#[export] Hint Resolve byte_Z_range : leani.

(** ** Fixed-size arrays [[u8; n]] *)

Definition array (n : nat) : Type := { l : list byte | length l = n }.

Definition bytes_of {n} (a : array n) : list byte := `a.

#[export] Instance array_eq_dec n : EqDecision (array n).
Proof. unfold array. apply _. Defined.

(** [<[u8; n]>::try_from(slice)]. *)
Definition array_of (n : nat) (l : list byte) : option (array n) :=
  match decide (length l = n) with left H => Some (l ↾ H) | right _ => None end.

#[export] Program Instance array_countable n : Countable (array n) :=
  inj_countable (λ a, `a) (array_of n) _.
Next Obligation.
  intros n [l Hl]. unfold array_of. cbn. destruct (decide (length l = n)) as [H|]; [|done].
  f_equal. by apply (sig_eq_pi _).
Qed.

(** [[b; n]]. *)
Definition array_fill (n : nat) (b : byte) : array n :=
  replicate n b ↾ length_replicate n b.

Lemma length_bytes_of {n} (a : array n) : length (bytes_of a) = n.
Proof. apply (proj2_sig a). Qed.

Lemma bytes_of_inj {n} (a b : array n) : bytes_of a = bytes_of b → a = b.
Proof. apply (sig_eq_pi _). Qed.

Lemma array_of_Some {n} l (a : array n) : array_of n l = Some a ↔ l = bytes_of a.
Proof.
  unfold array_of. split.
  - destruct (decide _); naive_solver.
  - intros ->. destruct (decide _) as [H|H]; [|by destruct H; apply length_bytes_of].
    f_equal. by apply bytes_of_inj.
Qed.

Lemma array_of_None n l : array_of n l = None ↔ length l ≠ n.
Proof. unfold array_of. destruct (decide _); naive_solver. Qed.

(** ** Big-endian integers *)

(** [uN::to_be_bytes], least significant [n] bytes of [z]. *)
Fixpoint be_bytes (n : nat) (z : Z) : list byte :=
  match n with
  | O => []
  | S n => byte_of_Z (z / 256 ^ Z.of_nat n) :: be_bytes n z
  end.

(** [uN::from_be_bytes]. *)
Fixpoint be_val (l : list byte) : Z :=
  match l with
  | [] => 0
  | b :: l => byte_Z b * 256 ^ Z.of_nat (length l) + be_val l
  end.

Lemma pow256_pos n : 0 < 256 ^ Z.of_nat n.
Proof. apply Z.pow_pos_nonneg; lia. Qed.

Lemma pow256_succ n : 256 ^ Z.of_nat (S n) = 256 * 256 ^ Z.of_nat n.
Proof. rewrite Nat2Z.inj_succ, Z.pow_succ_r; lia. Qed.

#[export] Hint Rewrite @length_replicate @length_app @length_take @length_drop : leani.

Lemma length_be_bytes n z : length (be_bytes n z) = n.
Proof. induction n; cbn; congruence. Qed.

Lemma be_val_range l : 0 ≤ be_val l < 256 ^ Z.of_nat (length l).
Proof.
  induction l as [|b l IH]; cbn [be_val length]; [lia|]. rewrite pow256_succ.
  pose proof (byte_Z_range b). pose proof (pow256_pos (length l)). nia.
Qed.

Lemma be_val_bytes n z : be_val (be_bytes n z) = z mod 256 ^ Z.of_nat n.
Proof.
  induction n as [|n IH]; [by rewrite Z.mod_1_r|]. cbn [be_bytes be_val].
  rewrite length_be_bytes, IH, byte_Z_of_Z, pow256_succ, (Z.mul_comm 256).
  rewrite Z.rem_mul_r; [lia| |lia]. pose proof (pow256_pos n). lia.
Qed.

Lemma be_val_bytes_small n z : 0 ≤ z < 256 ^ Z.of_nat n → be_val (be_bytes n z) = z.
Proof. intros. rewrite be_val_bytes. by apply Z.mod_small. Qed.

Lemma be_bytes_mod n z k : (n ≤ k)%nat → be_bytes n (z mod 256 ^ Z.of_nat k) = be_bytes n z.
Proof.
  induction n as [|n IH]; intros Hk; cbn; [done|]. f_equal; [|apply IH; lia].
  apply (inj byte_Z). rewrite !byte_Z_of_Z.
  pose proof (pow256_pos n). pose proof (pow256_pos (k - n - 1)).
  replace (Z.of_nat k) with (Z.of_nat n + (1 + Z.of_nat (k - n - 1))) by lia.
  rewrite Z.pow_add_r, Z.rem_mul_r by lia.
  rewrite (Z.mul_comm (256 ^ Z.of_nat n)), Z.div_add by lia.
  rewrite Z.div_small, Z.add_0_l by (apply Z.mod_pos_bound; lia).
  rewrite Z.pow_add_r, Z.pow_1_r, Z.rem_mul_r by lia.
  rewrite Z.mul_comm, Z.mod_add by lia. by rewrite Z.mod_mod by lia.
Qed.

Lemma be_bytes_val l : be_bytes (length l) (be_val l) = l.
Proof.
  induction l as [|b l IH]; [done|]. cbn [be_bytes be_val length].
  pose proof (be_val_range l). pose proof (pow256_pos (length l)). f_equal.
  - rewrite Z.add_comm, Z.div_add, Z.div_small, Z.add_0_l by lia. apply byte_of_Z_Z.
  - rewrite <-(be_bytes_mod _ _ (length l)) by lia.
    rewrite Z.add_comm, Z.mod_add, Z.mod_small by lia. done.
Qed.

Lemma be_val_inj l k : length l = length k → be_val l = be_val k → l = k.
Proof. intros Hlk Hv. by rewrite <-(be_bytes_val l), Hlk, Hv, be_bytes_val. Qed.

Lemma be_val_app l k : be_val (l ++ k) = be_val l * 256 ^ Z.of_nat (length k) + be_val k.
Proof.
  induction l as [|b l IH]; [done|]. cbn [app be_val].
  rewrite IH, length_app, Nat2Z.inj_add, Z.pow_add_r by lia. ring.
Qed.

Lemma u64_be_range z : is_u64 z → 0 ≤ z < 256 ^ Z.of_nat 8.
Proof. intros. change (256 ^ Z.of_nat 8) with 18446744073709551616. uints. Qed.

Lemma u32_be_range z : is_u32 z → 0 ≤ z < 256 ^ Z.of_nat 4.
Proof. intros. change (256 ^ Z.of_nat 4) with 4294967296. uints. Qed.

Lemma u16_be_range z : is_u16 z → 0 ≤ z < 256 ^ Z.of_nat 2.
Proof. intros. change (256 ^ Z.of_nat 2) with 65536. uints. Qed.

#[export] Hint Resolve u64_be_range u32_be_range u16_be_range : leani.
#[export] Hint Rewrite length_be_bytes @length_bytes_of : leani.

(** ** Lexicographic order of byte strings *)

(** The derived [Ord] of [Vec<u8>] and [[u8; N]], and SQLite's BLOB order:
    a proper prefix sorts first. *)
Fixpoint bytes_cmp (l k : list byte) : comparison :=
  match l, k with
  | [], [] => Eq
  | [], _ :: _ => Lt
  | _ :: _, [] => Gt
  | a :: l, b :: k =>
      match byte_Z a ?= byte_Z b with Eq => bytes_cmp l k | c => c end
  end.

Definition bytes_le (l k : list byte) : Prop := bytes_cmp l k ≠ Gt.
Definition bytes_lt (l k : list byte) : Prop := bytes_cmp l k = Lt.

#[export] Instance bytes_le_dec : RelDecision bytes_le.
Proof. unfold bytes_le. intros ??. apply _. Defined.
#[export] Instance bytes_lt_dec : RelDecision bytes_lt.
Proof. unfold bytes_lt. intros ??. apply _. Defined.

Lemma bytes_cmp_refl l : bytes_cmp l l = Eq.
Proof. induction l as [|a l IH]; cbn; [done|]. by rewrite Z.compare_refl. Qed.

Lemma bytes_cmp_eq l k : bytes_cmp l k = Eq ↔ l = k.
Proof.
  split; [|intros ->; apply bytes_cmp_refl].
  revert k; induction l as [|a l IH]; intros [|b k]; cbn; try done.
  destruct (Z.compare_spec (byte_Z a) (byte_Z b)) as [E| |]; [|done|done].
  apply (inj byte_Z) in E as ->. intros H%IH. congruence.
Qed.

Lemma bytes_cmp_antisym l k : bytes_cmp k l = CompOpp (bytes_cmp l k).
Proof.
  revert k; induction l as [|a l IH]; intros [|b k]; cbn; try done.
  rewrite (Z.compare_antisym (byte_Z a)). destruct (byte_Z a ?= byte_Z b); cbn; auto.
Qed.

Lemma bytes_cmp_lt_trans l k m : bytes_cmp l k = Lt → bytes_cmp k m = Lt → bytes_cmp l m = Lt.
Proof.
  revert k m; induction l as [|a l IH]; intros [|b k] [|c m]; cbn; try done.
  destruct (Z.compare_spec (byte_Z a) (byte_Z b)), (Z.compare_spec (byte_Z b) (byte_Z c)),
    (Z.compare_spec (byte_Z a) (byte_Z c)); try done; try lia; eauto.
Qed.

#[export] Instance bytes_le_total : Total bytes_le.
Proof. intros l k. unfold bytes_le. rewrite (bytes_cmp_antisym k l). destruct (bytes_cmp k l); naive_solver. Qed.

#[export] Instance bytes_le_po : PartialOrder bytes_le.
Proof.
  split; [split|].
  - intros l. unfold bytes_le. by rewrite bytes_cmp_refl.
  - intros l k m. unfold bytes_le. intros H1 H2.
    destruct (bytes_cmp l k) eqn:E1; [apply bytes_cmp_eq in E1 as ->; done| |done].
    destruct (bytes_cmp k m) eqn:E2; [apply bytes_cmp_eq in E2 as ->; by rewrite E1| |done].
    by rewrite (bytes_cmp_lt_trans _ _ _ E1 E2).
  - intros l k H1 H2. unfold bytes_le in *. rewrite bytes_cmp_antisym in H2.
    destruct (bytes_cmp l k) eqn:E; [by apply bytes_cmp_eq|done|done].
Qed.

(** On equal lengths the byte order is the order of the big-endian values. *)
Lemma bytes_cmp_be l k : length l = length k → bytes_cmp l k = (be_val l ?= be_val k).
Proof.
  revert k; induction l as [|a l IH]; intros [|b k]; cbn [bytes_cmp be_val length]; try done.
  intros [= Hlen]. rewrite Hlen. pose proof (be_val_range l) as Hl. pose proof (be_val_range k).
  rewrite Hlen in Hl. pose proof (pow256_pos (length k)).
  destruct (Z.compare_spec (byte_Z a) (byte_Z b)) as [->|Hc|Hc].
  - rewrite IH by done. by rewrite Z.add_compare_mono_l.
  - symmetry. apply Z.compare_lt_iff. nia.
  - symmetry. apply Z.compare_gt_iff. nia.
Qed.

Lemma bytes_cmp_app l1 l2 k1 k2 :
  length l1 = length k1 →
  bytes_cmp (l1 ++ l2) (k1 ++ k2) =
    match bytes_cmp l1 k1 with Eq => bytes_cmp l2 k2 | c => c end.
Proof.
  revert k1; induction l1 as [|a l1 IH]; intros [|b k1]; cbn; try done.
  intros [= Hlen]. destruct (byte_Z a ?= byte_Z b); auto.
Qed.

#[export] Instance bytes_comparator : Comparator bytes_cmp.
Proof.
  split; [intros; apply bytes_cmp_antisym|]. intros x y z [].
  - rewrite !bytes_cmp_eq. congruence.
  - apply bytes_cmp_lt_trans.
  - rewrite (bytes_cmp_antisym y x), (bytes_cmp_antisym z y), (bytes_cmp_antisym z x).
    intros H1 H2. rewrite (bytes_cmp_lt_trans z y x); [done|..].
    + by destruct (bytes_cmp z y).
    + by destruct (bytes_cmp y x).
Qed.

#[export] Instance bytes_eq_comparator : EqComparator bytes_cmp.
Proof. intros x y. apply bytes_cmp_eq. Qed.
