(* ===== verification/Chain.v ===== *)
(** * Canonical chain identity and ordering

    Models [crates/primitives/src/chain.rs]: the numeric and fixed-bytes
    newtypes, [BlockRange], [BlockRef], [CanonicalKey] with its ordered
    48-byte encoding, the Mainnet slot clock and [Finality]. *)
From Stdlib Require Import ZArith Lia Strings.Byte.
From stdpp Require Import gmap strings list list_numbers sorting.
From S2P Require Import Prelude Bytes.

(** The [u64] newtypes are the integers they wrap. *)
Abbreviation ChainId := Z.
Abbreviation BlockNumber := Z.

(** The fixed-bytes newtypes. *)
Definition BlockHash := array 32.
Definition TransactionHash := array 32.
Definition Address := array 20.
Definition Quantity := array 32.

#[export] Instance BlockHash_eq_dec : EqDecision BlockHash := array_eq_dec 32.
#[export] Instance BlockHash_countable : Countable BlockHash := array_countable 32.
#[export] Instance TransactionHash_eq_dec : EqDecision TransactionHash := array_eq_dec 32.
#[export] Instance TransactionHash_countable : Countable TransactionHash := array_countable 32.
#[export] Instance Address_eq_dec : EqDecision Address := array_eq_dec 20.
#[export] Instance Address_countable : Countable Address := array_countable 20.
#[export] Instance Quantity_eq_dec : EqDecision Quantity := array_eq_dec 32.
#[export] Instance Quantity_countable : Countable Quantity := array_countable 32.

Definition hash_zero : BlockHash := array_fill 32 x00.

(** ** Inclusive block intervals *)

Record BlockRange := MkBlockRange {
  range_start : BlockNumber;
  range_end : BlockNumber;
}.

Record BlockRangeError := MkBlockRangeError {
  error_start : BlockNumber;
  error_end : BlockNumber;
}.

#[export] Instance BlockRange_eq_dec : EqDecision BlockRange.
Proof. solve_decision. Defined.
#[export] Instance BlockRangeError_eq_dec : EqDecision BlockRangeError.
Proof. solve_decision. Defined.

Module BlockRange.

Definition new (start stop : BlockNumber) : result BlockRangeError BlockRange :=
  if start <=? stop then Ok (MkBlockRange start stop)
  else Err (MkBlockRangeError start stop).

(** [Deserialize]: the wire struct's two fields go through [new]. *)
Definition of_wire (wire : BlockNumber * BlockNumber) : result BlockRangeError BlockRange :=
  new wire.1 wire.2.

Definition single (block : BlockNumber) : BlockRange := MkBlockRange block block.

Definition contains (r : BlockRange) (block : BlockNumber) : bool :=
  (range_start r <=? block) && (block <=? range_end r).

(** The subtraction is plain [u64] arithmetic, which the invariant [valid]
    keeps from underflowing. *)
Definition len (r : BlockRange) : Z := sat_add (range_end r - range_start r) 1.
Definition checked_len (r : BlockRange) : option Z :=
  checked_add (range_end r - range_start r) 1.

Definition is_empty (r : BlockRange) : bool := false.

Definition iter (r : BlockRange) : list BlockNumber :=
  seqZ (range_start r) (range_end r - range_start r + 1).

(** The invariant of every constructible range. *)
Definition valid (r : BlockRange) : Prop :=
  is_u64 (range_start r) ∧ is_u64 (range_end r) ∧ range_start r ≤ range_end r.

Lemma new_Ok start stop r :
  new start stop = Ok r ↔ r = MkBlockRange start stop ∧ start ≤ stop.
Proof. unfold new. destruct (Z.leb_spec start stop); naive_solver lia. Qed.

Lemma new_valid start stop r :
  is_u64 start → is_u64 stop → new start stop = Ok r → valid r.
Proof. intros ?? [-> ?]%new_Ok. by unfold valid. Qed.

Lemma single_valid b : is_u64 b → valid (single b).
Proof. unfold valid. cbn. naive_solver lia. Qed.

Lemma contains_spec r b : contains r b = true ↔ range_start r ≤ b ≤ range_end r.
Proof. unfold contains. lia. Qed.

Lemma elem_of_iter r b : b ∈ iter r ↔ range_start r ≤ b ≤ range_end r.
Proof. unfold iter. rewrite elem_of_seqZ. lia. Qed.

(** Iterating a valid range visits exactly the blocks it contains, in
    ascending order, each once; [checked_len] is their number whenever that
    fits a [u64], and it fails, with [len] saturated, only for the interval
    of all [2^64] blocks. *)
Theorem iter_len r (Hr : valid r) :
  (∀ b, b ∈ iter r ↔ contains r b = true) ∧
  StronglySorted Z.lt (iter r) ∧
  (∀ n, checked_len r = Some n → Z.of_nat (length (iter r)) = n ∧ len r = n) ∧
  (checked_len r = None ↔ r = MkBlockRange 0 u64_max) ∧
  (r = MkBlockRange 0 u64_max → len r = u64_max).
Proof.
  destruct Hr as (Hs & He & Hle). split_and!.
  - intros b. by rewrite elem_of_iter, contains_spec.
  - unfold iter. apply StronglySorted_seqZ.
  - intros n [-> Hn]%checked_add_Some. unfold iter, len. rewrite length_seqZ. uints.
  - unfold checked_len. rewrite checked_add_None. destruct r as [s e]; cbn in *.
    split; [|intros [= -> ->]; uints]. intros. f_equal; uints.
  - intros ->. done.
Qed.

(** The witness of [iter_len], at [4..=6]. *)
Lemma iter_len_witness :
  checked_len (MkBlockRange 4 6) = Some 3 ∧ iter (MkBlockRange 4 6) = [4; 5; 6] ∧
  (∀ b, b ∈ iter (MkBlockRange 4 6) ↔ contains (MkBlockRange 4 6) b = true).
Proof.
  split_and!; [reflexivity|reflexivity|].
  apply (iter_len (MkBlockRange 4 6)). unfold valid; cbn. uints.
Defined.

End BlockRange.

#[export] Hint Resolve BlockRange.new_valid BlockRange.single_valid : leani.

(** ** Block references and canonical keys *)

Record BlockRef := MkBlockRef {
  ref_number : BlockNumber;
  ref_hash : BlockHash;
  ref_parent_hash : BlockHash;
  ref_timestamp : Z;
}.

Record CanonicalKey := MkCanonicalKey {
  key_chain_id : ChainId;
  key_number : BlockNumber;
  key_hash : BlockHash;
}.

#[export] Instance BlockRef_eq_dec : EqDecision BlockRef.
Proof. solve_decision. Defined.
#[export] Instance CanonicalKey_eq_dec : EqDecision CanonicalKey.
Proof. solve_decision. Defined.

Definition canonical_key (r : BlockRef) (chain_id : ChainId) : CanonicalKey :=
  MkCanonicalKey chain_id (ref_number r) (ref_hash r).

Module CanonicalKey.

Definition ENCODED_LEN : nat := 48.

Definition encode_ordered (k : CanonicalKey) : list byte :=
  be_bytes 8 (key_chain_id k) ++ be_bytes 8 (key_number k) ++ bytes_of (key_hash k).

(** The three [copy_from_slice] calls take the ranges [..8], [8..16] and
    [16..]; the last one's array always has 32 bytes after the length
    check, so the fallback is never taken ([decode_ordered_Ok]). *)
Definition decode_ordered (bytes : list byte) : result string CanonicalKey :=
  if negb (length bytes =? ENCODED_LEN)%nat
  then Err "canonical key must be exactly 48 bytes"
  else
    let chain_id := take 8 bytes in
    let number := take 8 (drop 8 bytes) in
    hash ← ok_or (array_of 32 (drop 16 bytes)) "canonical key must be exactly 48 bytes";
    Ok (MkCanonicalKey (be_val chain_id) (be_val number) hash).

Definition valid (k : CanonicalKey) : Prop := is_u64 (key_chain_id k) ∧ is_u64 (key_number k).

Lemma length_encode k : length (encode_ordered k) = ENCODED_LEN.
Proof.
  unfold encode_ordered. by rewrite !length_app, !length_be_bytes, length_bytes_of.
Qed.

Lemma be_val_take8 l : (8 ≤ length l)%nat → is_u64 (be_val (take 8 l)).
Proof.
  intros. pose proof (be_val_range (take 8 l)) as Hr.
  rewrite length_take_le in Hr by done. change (256 ^ Z.of_nat 8) with (u64_max + 1) in Hr. uints.
Qed.

(** The ordered key codec is exact: a byte string decodes to a key with
    [u64] fields precisely when it is the encoding of that key, and any
    input that is not 48 bytes long is refused. *)
Theorem decode_ordered_Ok bytes k :
  (decode_ordered bytes = Ok k ↔ valid k ∧ encode_ordered k = bytes) ∧
  (length bytes ≠ 48%nat →
    decode_ordered bytes = Err "canonical key must be exactly 48 bytes").
Proof.
  unfold decode_ordered, ENCODED_LEN. split; cycle 1.
  { intros Hl%Nat.eqb_neq. by rewrite Hl. }
  split.
  - destruct (Nat.eqb_spec (length bytes) 48) as [Hlen|]; cbn [negb]; [|done].
    intros (h & Hh & [= <-])%result_bind_Ok.
    destruct (array_of 32 _) as [h'|] eqn:Ha; [|done]. injection Hh as ->.
    apply array_of_Some in Ha. split.
    + split; apply be_val_take8; rewrite ?length_drop, Hlen; lia.
    + unfold encode_ordered; cbn [key_chain_id key_number key_hash]. rewrite <-Ha.
      rewrite <-(take_drop 8 bytes) at 4. f_equal.
      { rewrite <-(be_bytes_val (take 8 bytes)) at 2. f_equal. rewrite length_take. lia. }
      rewrite <-(take_drop 8 (drop 8 bytes)) at 2. rewrite drop_drop. f_equal.
      rewrite <-(be_bytes_val (take 8 (drop 8 bytes))) at 2. f_equal.
      rewrite length_take, length_drop. lia.
  - intros [[Hc Hn] <-]. rewrite length_encode. cbn [negb Nat.eqb ENCODED_LEN].
    unfold encode_ordered at 3. rewrite app_assoc, drop_app_length'
      by (by rewrite length_app, !length_be_bytes).
    replace (array_of 32 (bytes_of (key_hash k))) with (Some (key_hash k))
      by (symmetry; by apply array_of_Some).
    unfold ok_or, mbind, result_bind, encode_ordered. destruct k as [c n h]; cbn [key_chain_id key_number key_hash].
    rewrite take_app_length' by (by rewrite length_be_bytes).
    rewrite drop_app_length' by (by rewrite length_be_bytes).
    rewrite take_app_length' by (by rewrite length_be_bytes).
    by rewrite !be_val_bytes_small by auto with leani.
Qed.

(** Rust's derived order of [(chain, number, hash)]. *)
Definition key_cmp (k1 k2 : CanonicalKey) : comparison :=
  match key_chain_id k1 ?= key_chain_id k2 with
  | Eq => match key_number k1 ?= key_number k2 with
          | Eq => bytes_cmp (bytes_of (key_hash k1)) (bytes_of (key_hash k2))
          | c => c
          end
  | c => c
  end.

(** The encoding is ordered, as its name promises: comparing encodings
    byte by byte is comparing chain, then height, then hash. *)
Theorem encode_ordered_cmp k1 k2 (H1 : valid k1) (H2 : valid k2) :
  bytes_cmp (encode_ordered k1) (encode_ordered k2) = key_cmp k1 k2.
Proof.
  destruct H1, H2. unfold encode_ordered, key_cmp.
  rewrite !bytes_cmp_app by (by rewrite !length_be_bytes).
  rewrite !bytes_cmp_be by (by rewrite !length_be_bytes, ?length_bytes_of).
  by rewrite !be_val_bytes_small by auto with leani.
Qed.

(** The witness of [encode_ordered_cmp]: height decides before the hash. *)
Lemma encode_ordered_cmp_witness :
  bytes_cmp (encode_ordered (MkCanonicalKey 1 9 (array_fill 32 xff)))
    (encode_ordered (MkCanonicalKey 1 10 hash_zero)) = Lt.
Proof.
  rewrite (encode_ordered_cmp (MkCanonicalKey 1 9 (array_fill 32 xff))
    (MkCanonicalKey 1 10 hash_zero));
    [reflexivity|unfold valid; cbn; uints|unfold valid; cbn; uints].
Defined.

End CanonicalKey.

(** ** The Mainnet slot clock *)

Definition MAINNET_GENESIS_TIME : Z := 1606824023.
Definition SLOT_SECONDS : Z := 12.

Definition slot_starting_at (timestamp : Z) : option Z :=
  match checked_sub timestamp MAINNET_GENESIS_TIME with
  | Some since => if since mod SLOT_SECONDS =? 0 then Some (since / SLOT_SECONDS) else None
  | None => None
  end.

Definition slot_at (timestamp : Z) : Z :=
  sat_sub timestamp MAINNET_GENESIS_TIME / SLOT_SECONDS.

(** ** Finality levels *)

Inductive Finality := Unattested | Attested | Finalized.

#[export] Instance Finality_eq_dec : EqDecision Finality.
Proof. solve_decision. Defined.

Module Finality.

(** The [repr(u8)] discriminant, which the derived [Ord] compares. *)
Definition as_u8 (f : Finality) : Z :=
  match f with Unattested => 0 | Attested => 1 | Finalized => 2 end.

Definition satisfies (f required : Finality) : bool := as_u8 required <=? as_u8 f.

Definition name (f : Finality) : string :=
  match f with
  | Unattested => "unattested"
  | Attested => "attested"
  | Finalized => "finalized"
  end.

(** [Ord::max] on the derived order. *)
Definition max (a b : Finality) : Finality := if as_u8 a <=? as_u8 b then b else a.
Definition ltb (a b : Finality) : bool := as_u8 a <? as_u8 b.

#[export] Instance as_u8_inj : Inj (=) (=) as_u8.
Proof. by intros [] []. Qed.

Lemma satisfies_refl f : satisfies f f = true.
Proof. by destruct f. Qed.

Lemma satisfies_trans f g h : satisfies f g = true → satisfies g h = true → satisfies f h = true.
Proof. by destruct f, g, h. Qed.

End Finality.
