(* ===== verification/Capability.v ===== *)
(** * Capability sets

    Models [crates/primitives/src/capability.rs]: the [Capability]
    vocabulary, [CapabilitySet] as the 16-bit word it is, derivation of field
    groups, and [FrameCapabilityReport::satisfies]. *)
From Stdlib Require Import ZArith Lia.
From stdpp Require Import gmap strings list list_numbers.
From S2P Require Import Prelude.

Inductive Capability :=
  | Header | Body | Transactions | Calldata | Receipts | Logs | Withdrawals
  | BlobSidecars | Traces | StateDiffs | ConsensusFinality | Mempool
  | Senders | BlobFields | ReceiptOutcome | BlockSize.

#[export] Instance Capability_eq_dec : EqDecision Capability.
Proof. solve_decision. Defined.

(** The [repr(u8)] discriminant. *)
Definition cap_index (c : Capability) : Z :=
  match c with
  | Header => 0 | Body => 1 | Transactions => 2 | Calldata => 3
  | Receipts => 4 | Logs => 5 | Withdrawals => 6 | BlobSidecars => 7
  | Traces => 8 | StateDiffs => 9 | ConsensusFinality => 10 | Mempool => 11
  | Senders => 12 | BlobFields => 13 | ReceiptOutcome => 14 | BlockSize => 15
  end.

Definition cap_bit (c : Capability) : Z := Z.shiftl 1 (cap_index c).

(** The bits of the set; every [u16] is a valid one. *)
Abbreviation CapabilitySet := Z.

Module CapabilitySet.

Definition NONE : CapabilitySet := 0.
Definition ALL : CapabilitySet := u16_max.

Definition of_cap (c : Capability) : CapabilitySet := cap_bit c.
Definition with_cap (s : CapabilitySet) (c : Capability) : CapabilitySet :=
  Z.lor s (cap_bit c).
Definition without (s : CapabilitySet) (c : Capability) : CapabilitySet :=
  Z.land s (Z.lxor u16_max (cap_bit c)).
Definition contains (s : CapabilitySet) (c : Capability) : bool :=
  negb (Z.land s (cap_bit c) =? 0).
Definition contains_all (s required : CapabilitySet) : bool :=
  Z.land s required =? required.
Definition union (s t : CapabilitySet) : CapabilitySet := Z.lor s t.
Definition intersection (s t : CapabilitySet) : CapabilitySet := Z.land s t.

Definition with_derivable (s : CapabilitySet) : CapabilitySet :=
  let bits := s in
  let bits :=
    if contains s Transactions then
      Z.lor bits
        (Z.lor (Z.lor (Z.lor (Z.lor (cap_bit Body) (cap_bit Calldata)) (cap_bit Senders))
          (cap_bit BlobFields)) (cap_bit BlockSize))
    else bits in
  if contains s Receipts then
    Z.lor bits (Z.lor (cap_bit Logs) (cap_bit ReceiptOutcome))
  else bits.

Definition from_bits (bits : Z) : option CapabilitySet := Some bits.

Definition VALUES : list Capability :=
  [Header; Body; Transactions; Calldata; Receipts; Logs; Withdrawals;
   BlobSidecars; Traces; StateDiffs; ConsensusFinality; Mempool; Senders;
   BlobFields; ReceiptOutcome; BlockSize].

Definition iter (s : CapabilitySet) : list Capability := List.filter (contains s) VALUES.

Definition from_iter (l : list Capability) : CapabilitySet := fold_left with_cap l NONE.

(** *** The set it represents *)

Lemma cap_index_range c : 0 ≤ cap_index c < 16.
Proof. destruct c; cbn; lia. Qed.

Lemma cap_index_inj c d : cap_index c = cap_index d → c = d.
Proof. by destruct c, d. Qed.

Lemma cap_index_surj i : 0 ≤ i < 16 → ∃ c, cap_index c = i ∧ c ∈ VALUES.
Proof.
  intros Hi. assert (i ∈ cap_index <$> VALUES) as (c & -> & Hc)%list_elem_of_fmap; [|eauto].
  change (cap_index <$> VALUES) with (seqZ 0 16). rewrite elem_of_seqZ. lia.
Qed.

Lemma elem_of_VALUES c : c ∈ VALUES.
Proof. destruct (cap_index_surj _ (cap_index_range c)) as (d & ->%cap_index_inj & ?). done. Qed.

Lemma testbit_cap_bit c i : 0 ≤ i → Z.testbit (cap_bit c) i = (i =? cap_index c).
Proof.
  intros. unfold cap_bit. pose proof (cap_index_range c).
  rewrite Z.shiftl_spec by done. destruct (Z.eqb_spec i (cap_index c)) as [->|].
  - by rewrite Z.sub_diag.
  - destruct (Z.lt_ge_cases i (cap_index c)); [by apply Z.testbit_neg_r; lia|].
    by apply (Z.bits_above_log2 1); [lia|cbn; lia].
Qed.

(** Membership is one bit of the word. *)
Lemma contains_testbit s c : contains s c = Z.testbit s (cap_index c).
Proof.
  unfold contains. pose proof (cap_index_range c) as Hc.
  destruct (Z.testbit s (cap_index c)) eqn:Hb; [apply negb_true_iff|apply negb_false_iff].
  - apply Z.eqb_neq. intros H0. apply (f_equal (λ z, Z.testbit z (cap_index c))) in H0.
    rewrite Z.land_spec, Hb, testbit_cap_bit, Z.eqb_refl, Z.bits_0 in H0 by lia. done.
  - apply Z.eqb_eq. apply Z.bits_inj'. intros i Hi.
    rewrite Z.land_spec, testbit_cap_bit, Z.bits_0 by done.
    destruct (Z.eqb_spec i (cap_index c)) as [->|]; [by rewrite Hb|apply andb_false_r].
Qed.

Lemma testbit_u16 s i : is_u16 s → 16 ≤ i → Z.testbit s i = false.
Proof.
  intros Hs Hi. destruct (decide (s = 0)) as [->|]; [apply Z.bits_0|].
  apply Z.bits_above_log2; [uints|]. apply Z.lt_le_trans with 16; [|done].
  apply Z.log2_lt_pow2; [uints|]. change (2 ^ 16) with 65536. uints.
Qed.

Lemma u16_iff s : is_u16 s ↔ 0 ≤ s ∧ ∀ i, 16 ≤ i → Z.testbit s i = false.
Proof.
  split; [intros; split; [uints|by intros; apply testbit_u16]|].
  intros [Hs Hb]. destruct (decide (s = 0)) as [->|]; [uints|].
  unfold is_u16, u16_max. split; [done|].
  assert (Z.log2 s < 16) as Hl.
  { destruct (Z.lt_ge_cases (Z.log2 s) 16) as [|Hge]; [done|].
    specialize (Hb _ Hge). rewrite Z.bit_log2 in Hb by lia. done. }
  apply Z.log2_lt_pow2 in Hl; [|lia]. change (2 ^ 16) with 65536 in Hl. lia.
Qed.

Lemma contains_ext s t : is_u16 s → is_u16 t → (∀ c, contains s c = contains t c) → s = t.
Proof.
  intros Hs Ht Heq. apply Z.bits_inj'. intros i Hi.
  destruct (Z.lt_ge_cases i 16) as [|Hge]; [|by rewrite !testbit_u16].
  destruct (cap_index_surj i) as (c & <- & _); [lia|]. by rewrite <-!contains_testbit.
Qed.

Lemma contains_NONE c : contains NONE c = false.
Proof. by destruct c. Qed.

Lemma contains_ALL c : contains ALL c = true.
Proof. by destruct c. Qed.

Lemma contains_with s c d : contains (with_cap s c) d = contains s d || bool_decide (d = c).
Proof.
  rewrite !contains_testbit. unfold with_cap. pose proof (cap_index_range d).
  rewrite Z.lor_spec, testbit_cap_bit by lia. f_equal.
  destruct (Z.eqb_spec (cap_index d) (cap_index c)) as [->%cap_index_inj|Hne].
  - by rewrite bool_decide_eq_true_2.
  - by rewrite bool_decide_eq_false_2 by congruence.
Qed.

Lemma contains_of c d : contains (of_cap c) d = bool_decide (d = c).
Proof. exact (contains_with NONE c d). Qed.

Lemma contains_without s c d : contains (without s c) d = contains s d && bool_decide (d ≠ c).
Proof.
  rewrite !contains_testbit. unfold without. rewrite Z.land_spec. f_equal. by destruct c, d.
Qed.

Lemma contains_union s t c : contains (union s t) c = contains s c || contains t c.
Proof. rewrite !contains_testbit. apply Z.lor_spec. Qed.

Lemma contains_intersection s t c :
  contains (intersection s t) c = contains s c && contains t c.
Proof. rewrite !contains_testbit. apply Z.land_spec. Qed.

Lemma u16_lor s t : is_u16 s → is_u16 t → is_u16 (Z.lor s t).
Proof.
  rewrite !u16_iff. intros [Hs Hs'] [Ht Ht']. split; [by apply Z.lor_nonneg|].
  intros i Hi. by rewrite Z.lor_spec, Hs', Ht'.
Qed.

Lemma u16_cap_bit c : is_u16 (cap_bit c).
Proof. by destruct c. Qed.

Lemma u16_with s c : is_u16 s → is_u16 (with_cap s c).
Proof. intros. apply u16_lor; [done|apply u16_cap_bit]. Qed.

Lemma u16_fold l s : is_u16 s → is_u16 (fold_left with_cap l s).
Proof. revert s; induction l; cbn; eauto using u16_with. Qed.

Lemma cap_contains_all_spec s r :
  is_u16 r → contains_all s r = true ↔ ∀ c, contains r c = true → contains s c = true.
Proof.
  intros Hr. unfold contains_all. rewrite Z.eqb_eq. split.
  - intros <- c. rewrite !contains_testbit, Z.land_spec. by intros [? _]%andb_true_iff.
  - intros Hc. apply Z.bits_inj'. intros i Hi. rewrite Z.land_spec.
    destruct (Z.lt_ge_cases i 16) as [|Hge]; [|by rewrite (testbit_u16 r), andb_false_r].
    destruct (cap_index_surj i) as (c & <- & _); [lia|].
    specialize (Hc c). rewrite !contains_testbit in Hc.
    destruct (Z.testbit r (cap_index c)); [by rewrite Hc|apply andb_false_r].
Qed.

Lemma elem_of_cap_iter s c : c ∈ iter s ↔ contains s c = true.
Proof.
  unfold iter. rewrite list_elem_of_In, filter_In, <-list_elem_of_In.
  pose proof (elem_of_VALUES c). naive_solver.
Qed.

Lemma contains_fold l s c :
  contains (fold_left with_cap l s) c = contains s c || bool_decide (c ∈ l).
Proof.
  revert s; induction l as [|d l IH]; intros s; cbn [fold_left].
  { by rewrite bool_decide_eq_false_2, orb_false_r by apply not_elem_of_nil. }
  rewrite IH, contains_with, <-orb_assoc. f_equal.
  rewrite <-bool_decide_or. apply bool_decide_ext. by rewrite elem_of_cons.
Qed.

Lemma contains_from_iter l c : contains (from_iter l) c = bool_decide (c ∈ l).
Proof. unfold from_iter. by rewrite contains_fold, contains_NONE. Qed.

Lemma u16_from_iter l : is_u16 (from_iter l).
Proof. apply u16_fold. unfold NONE. uints. Qed.

(** The 16-bit word implements finite sets of capabilities: its
    operations are the empty and the full set, insertion, removal, union
    and intersection; [contains_all] is inclusion; enumerating a word and
    collecting the result gives the word back; and two words with the same
    members are the same word. *)
Theorem refines_sets :
  (∀ c, contains NONE c = false ∧ contains ALL c = true) ∧
  (∀ s c d, contains (with_cap s c) d = contains s d || bool_decide (d = c)) ∧
  (∀ s c d, contains (without s c) d = contains s d && bool_decide (d ≠ c)) ∧
  (∀ s t c, contains (union s t) c = contains s c || contains t c) ∧
  (∀ s t c, contains (intersection s t) c = contains s c && contains t c) ∧
  (∀ s r, is_u16 r →
    contains_all s r = true ↔ ∀ c, contains r c = true → contains s c = true) ∧
  (∀ s c, c ∈ iter s ↔ contains s c = true) ∧
  (∀ l c, contains (from_iter l) c = bool_decide (c ∈ l)) ∧
  (∀ s, is_u16 s → from_iter (iter s) = s) ∧
  (∀ s t, is_u16 s → is_u16 t → (∀ c, contains s c = contains t c) → s = t).
Proof.
  split_and!; eauto using contains_NONE, contains_ALL, contains_with, contains_without,
    contains_union, contains_intersection, cap_contains_all_spec, elem_of_cap_iter,
    contains_from_iter, contains_ext.
  intros s Hs. apply contains_ext; [apply u16_from_iter|done|].
  intros c. rewrite contains_from_iter. apply eq_true_iff_eq.
  by rewrite bool_decide_eq_true, elem_of_cap_iter.
Qed.

(** The witness of [refines_sets]: inclusion at two concrete words. *)
Lemma refines_sets_witness :
  contains_all (of_cap Receipts) (of_cap Logs) = false ∧
  contains_all (with_derivable (of_cap Receipts)) (of_cap Logs) = true ∧
  from_iter (iter 4129) = 4129.
Proof.
  split_and!; [reflexivity|reflexivity|].
  destruct refines_sets as (_ & _ & _ & _ & _ & _ & _ & _ & Hiter & _).
  apply Hiter. vm_compute. split; discriminate.
Defined.

(** *** Derivation *)

(** The groups a bundle stands for. *)
Definition derives (c d : Capability) : bool :=
  match c with
  | Transactions => bool_decide (d ∈ [Body; Calldata; Senders; BlobFields; BlockSize])
  | Receipts => bool_decide (d ∈ [Logs; ReceiptOutcome])
  | _ => false
  end.

Lemma contains_with_derivable s d :
  contains (with_derivable s) d =
    contains s d
    || (contains s Transactions && derives Transactions d)
    || (contains s Receipts && derives Receipts d).
Proof.
  unfold with_derivable. rewrite !contains_testbit.
  destruct (Z.testbit s (cap_index Transactions)), (Z.testbit s (cap_index Receipts));
    cbn [andb]; rewrite ?Z.lor_spec; destruct (Z.testbit s (cap_index d)); by destruct d.
Qed.

Lemma u16_with_derivable s : is_u16 s → is_u16 (with_derivable s).
Proof.
  intros. unfold with_derivable.
  destruct (contains s Transactions), (contains s Receipts);
    repeat apply u16_lor; try done.
Qed.

End CapabilitySet.

#[export] Hint Resolve CapabilitySet.u16_with CapabilitySet.u16_with_derivable
  CapabilitySet.u16_from_iter CapabilitySet.u16_lor CapabilitySet.u16_cap_bit : leani.
#[export] Hint Rewrite CapabilitySet.contains_NONE CapabilitySet.contains_ALL
  CapabilitySet.contains_with CapabilitySet.contains_of CapabilitySet.contains_union
  CapabilitySet.contains_intersection CapabilitySet.contains_without : leani.

(** ** What a frame supplies *)

Record FrameCapabilityReport := MkReport {
  present : CapabilitySet;
  complete : CapabilitySet;
}.

#[export] Instance FrameCapabilityReport_eq_dec : EqDecision FrameCapabilityReport.
Proof. solve_decision. Defined.

Module Report.
Import CapabilitySet.

Definition satisfies (r : FrameCapabilityReport) (required : CapabilitySet)
    (allow_filtered : bool) : bool :=
  let components := if allow_filtered then present r else complete r in
  let supplied := with_derivable components in
  let supplied :=
    if contains components Header then with_cap supplied BlockSize else supplied in
  contains_all supplied required.

(** One capability a component set supplies. *)
Definition supplies (components : CapabilitySet) (c : Capability) : bool :=
  contains components c
  || (contains components Transactions && derives Transactions c)
  || (contains components Receipts && derives Receipts c)
  || (contains components Header && bool_decide (c = BlockSize)).

(** A frame report satisfies a requirement exactly when every required
    capability is one of its components, is derived from its transactions
    or receipts, or is the block size of its header. *)
Lemma satisfies_spec r required allow (Hr : is_u16 required) :
  satisfies r required allow = true ↔
  ∀ c, contains required c = true →
    supplies (if allow then present r else complete r) c = true.
Proof.
  unfold satisfies. set (s := if allow then _ else _). cbn zeta.
  rewrite cap_contains_all_spec by done. unfold supplies.
  split; intros H c Hc; specialize (H c Hc); revert H;
    destruct (contains s Header); rewrite ?contains_with, contains_with_derivable;
    by rewrite ?orb_false_r.
Qed.

End Report.
