(* ===== verification/Material.v ===== *)
(** * Material presence, filters and coverage of filters

    Models [crates/primitives/src/material.rs]: [FilterScope] with its
    matching and covering predicates, [TopicFilter], [Completeness],
    [MissingReason] and [Material]. *)
From Stdlib Require Import ZArith Lia Strings.Byte.
From stdpp Require Import gmap strings list list_numbers.
From S2P Require Import Prelude Bytes Chain.

Record TopicFilter := MkTopicFilter {
  position : Z;
  alternatives : list (array 32);
}.

Record FilterScope := MkFilterScope {
  block_range : option BlockRange;
  addresses : list Address;
  topics : list TopicFilter;
  transaction_hashes : list TransactionHash;
  transaction_types : list Z;
  senders : list Address;
  recipients : list Address;
}.

#[export] Instance TopicFilter_eq_dec : EqDecision TopicFilter.
Proof. solve_decision. Defined.
#[export] Instance FilterScope_eq_dec : EqDecision FilterScope.
Proof. solve_decision. Defined.

(** [FilterScope::default()]: no predicate at all. *)
Definition scope_default : FilterScope := MkFilterScope None [] [] [] [] [] [].

(** ** Lists as wildcards *)

Definition LINEAR_SCAN_LIMIT : nat := 16.

(** Long lists are indexed by a [BTreeSet] before the scan. *)
Definition contains_all {A} `{Countable A} (values required : list A) : bool :=
  if (length values <=? LINEAR_SCAN_LIMIT)%nat
  then forallb (list_contains values) required
  else
    let indexed : gset A := list_to_set values in
    forallb (λ value, bool_decide (value ∈ indexed)) required.

Definition list_matches {A} `{EqDecision A} (list : list A) (value : option A) : bool :=
  bool_decide (list = [])
  || match value with Some v => list_contains list v | None => false end.

Definition list_covers {A} `{Countable A} (scope filter : list A) : bool :=
  bool_decide (scope = []) || (bool_decide (filter ≠ []) && contains_all scope filter).

Definition topics_cover (scope filter : list TopicFilter) : bool :=
  forallb (λ required,
    match List.filter (λ topic, position topic =? position required) filter with
    | [] => false
    | first :: constraints =>
        let matchable :=
          List.filter (λ value,
            forallb (λ topic, list_contains (alternatives topic) value) constraints)
            (alternatives first) in
        contains_all (alternatives required) matchable
    end) scope.

Module FilterScope.

Definition covers_values (self filter : FilterScope) : bool :=
  list_covers (addresses self) (addresses filter)
  && topics_cover (topics self) (topics filter)
  && list_covers (transaction_hashes self) (transaction_hashes filter)
  && list_covers (transaction_types self) (transaction_types filter)
  && list_covers (senders self) (senders filter)
  && list_covers (recipients self) (recipients filter).

Definition covers (self filter : FilterScope) : bool :=
  let range_covered :=
    match block_range self, block_range filter with
    | None, _ => true
    | Some _, None => false
    | Some s, Some f =>
        (range_start s <=? range_start f) && (range_end f <=? range_end s)
    end in
  range_covered && covers_values self filter.

(** [Option::is_none_or] on the scope's range. *)
Definition matches_block (self : FilterScope) (block : BlockNumber) : bool :=
  match block_range self with
  | None => true
  | Some r => BlockRange.contains r block
  end.

Definition covers_at (self filter : FilterScope) (block : BlockNumber) : bool :=
  if match block_range filter with
     | Some r => negb (BlockRange.contains r block)
     | None => false
     end
  then true
  else
    match block_range self with
    | None => true
    | Some r => BlockRange.contains r block
    end && covers_values self filter.

Definition matches_transaction_hash (self : FilterScope) (hash : TransactionHash) : bool :=
  list_matches (transaction_hashes self) (Some hash).

(** [hash] is a thunk that only a constrained scope forces. *)
Definition matches_transaction (self : FilterScope) (transaction_type : Z)
    (recipient : option Address) (hash : unit → TransactionHash) : bool :=
  list_matches (transaction_types self) (Some transaction_type)
  && list_matches (recipients self) recipient
  && (bool_decide (transaction_hashes self = [])
      || matches_transaction_hash self (hash tt)).

Definition matches_sender (self : FilterScope) (sender : option Address) : bool :=
  list_matches (senders self) sender.

Definition matches_log_address (self : FilterScope) (address : Address) : bool :=
  list_matches (addresses self) (Some address).

Definition matches_log (self : FilterScope) (address : Address)
    (log_topics : list (list byte)) : bool :=
  matches_log_address self address
  && forallb (λ filter,
       match log_topics !! Z.to_nat (position filter) with
       | Some topic =>
           existsb (λ alternative, bool_decide (bytes_of alternative = topic))
             (alternatives filter)
       | None => false
       end) (topics self).

Definition constrains_transactions (self : FilterScope) : bool :=
  bool_decide (transaction_types self ≠ [])
  || bool_decide (transaction_hashes self ≠ [])
  || bool_decide (senders self ≠ [])
  || bool_decide (recipients self ≠ []).

Definition constrains_logs (self : FilterScope) : bool :=
  bool_decide (addresses self ≠ []) || bool_decide (topics self ≠ []).

End FilterScope.

(** ** Material *)

Inductive Completeness := VerifiedPredicate | DatasetDeclared | Partial.

Inductive MissingReason :=
  NotRequested | Unsupported | NotAvailable | TemporarilyUnavailable | Pruned.

Inductive MaterialKind := KindComplete | KindFiltered | KindMissing.

Inductive Material (A : Type) :=
  | Complete (value : A)
  | Filtered (value : A) (scope : FilterScope) (completeness : Completeness)
  | Missing (reason : MissingReason).
Arguments Complete {A} value.
Arguments Filtered {A} value scope completeness.
Arguments Missing {A} reason.

#[export] Instance Completeness_eq_dec : EqDecision Completeness.
Proof. solve_decision. Defined.
#[export] Instance MissingReason_eq_dec : EqDecision MissingReason.
Proof. solve_decision. Defined.
#[export] Instance Material_eq_dec `{EqDecision A} : EqDecision (Material A).
Proof. solve_decision. Defined.

Module Material.

Definition kind {A} (m : Material A) : MaterialKind :=
  match m with
  | Complete _ => KindComplete
  | Filtered _ _ _ => KindFiltered
  | Missing _ => KindMissing
  end.

Definition is_present {A} (m : Material A) : bool :=
  match m with Missing _ => false | _ => true end.

Definition is_complete {A} (m : Material A) : bool :=
  match m with Complete _ => true | _ => false end.

Definition as_complete {A} (m : Material A) : option A :=
  match m with Complete value => Some value | _ => None end.

Definition as_present {A} (m : Material A) : option A :=
  match m with
  | Complete value | Filtered value _ _ => Some value
  | Missing _ => None
  end.

Definition map {A B} (mapper : A → B) (m : Material A) : Material B :=
  match m with
  | Complete value => Complete (mapper value)
  | Filtered value scope completeness => Filtered (mapper value) scope completeness
  | Missing reason => Missing reason
  end.

End Material.

(** ** Correctness of covering *)

Lemma contains_all_spec {A} `{Countable A} (values required : list A) :
  contains_all values required = true ↔ ∀ v, v ∈ required → v ∈ values.
Proof.
  unfold contains_all. destruct (_ <=? _)%nat; cbn zeta; rewrite forallb_spec.
  - by setoid_rewrite list_contains_spec.
  - setoid_rewrite bool_decide_eq_true. by setoid_rewrite elem_of_list_to_set.
Qed.

Lemma list_matches_spec {A} `{EqDecision A} (l : list A) v :
  list_matches l v = true ↔ l = [] ∨ ∃ x, v = Some x ∧ x ∈ l.
Proof.
  unfold list_matches. rewrite orb_true_iff, bool_decide_eq_true.
  destruct v; rewrite ?list_contains_spec; naive_solver.
Qed.

Lemma list_covers_spec {A} `{Countable A} (scope filter : list A) :
  list_covers scope filter = true ↔
  scope = [] ∨ (filter ≠ [] ∧ ∀ v, v ∈ filter → v ∈ scope).
Proof.
  unfold list_covers.
  by rewrite orb_true_iff, andb_true_iff, !bool_decide_eq_true, contains_all_spec.
Qed.

Lemma list_covers_matches {A} `{Countable A} (scope filter : list A) v :
  list_covers scope filter = true → list_matches filter v = true → list_matches scope v = true.
Proof. rewrite list_covers_spec, !list_matches_spec. naive_solver. Qed.

Lemma list_covers_refl {A} `{Countable A} (l : list A) : list_covers l l = true.
Proof. rewrite list_covers_spec. destruct (decide (l = [])); naive_solver. Qed.

Lemma list_covers_trans {A} `{Countable A} (l k m : list A) :
  list_covers l k = true → list_covers k m = true → list_covers l m = true.
Proof. rewrite !list_covers_spec. naive_solver. Qed.

(** What every constraint of [filter] at a position allows there. *)
Definition allowed_at (filter : list TopicFilter) (p : Z) (v : array 32) : Prop :=
  ∀ t, t ∈ filter → position t = p → v ∈ alternatives t.

Lemma topics_cover_spec scope filter :
  topics_cover scope filter = true ↔
  ∀ r, r ∈ scope →
    (∃ t, t ∈ filter ∧ position t = position r) ∧
    ∀ v, allowed_at filter (position r) v → v ∈ alternatives r.
Proof.
  unfold topics_cover. rewrite forallb_spec. apply forall_proper; intros r.
  apply Morphisms_Prop.iff_iff_iff_impl_morphism; [done|]. unfold allowed_at.
  set (at_pos := λ topic, position topic =? position r).
  assert (∀ t, t ∈ List.filter at_pos filter ↔ t ∈ filter ∧ position t = position r) as Hin.
  { intros t. unfold at_pos. rewrite !list_elem_of_In, filter_In, Z.eqb_eq. done. }
  destruct (List.filter at_pos filter) as [|first constraints] eqn:Hf.
  { split; [done|]. intros [(t & Ht) _]. by apply Hin, elem_of_nil in Ht. }
  rewrite contains_all_spec.
  assert (∀ v, v ∈ List.filter (λ v, forallb (λ t, list_contains (alternatives t) v) constraints)
      (alternatives first) ↔ ∀ t, t ∈ filter → position t = position r → v ∈ alternatives t) as Hv.
  { intros v. rewrite list_elem_of_In, filter_In, <-list_elem_of_In, forallb_spec.
    setoid_rewrite list_contains_spec. setoid_rewrite elem_of_cons in Hin. naive_solver. }
  setoid_rewrite Hv. split; [|naive_solver]. intros Ha. split; [|done].
  exists first. apply Hin. by left.
Qed.

Lemma topics_cover_refl l : topics_cover l l = true.
Proof. apply topics_cover_spec. intros r Hr. split; [by exists r|]. intros v Hv. by apply Hv. Qed.

Lemma topics_cover_trans l k m :
  topics_cover l k = true → topics_cover k m = true → topics_cover l m = true.
Proof.
  rewrite !topics_cover_spec. unfold allowed_at. intros Hlk Hkm r Hr.
  destruct (Hlk r Hr) as ((t & Ht & Hpos) & Hv). split.
  - destruct (Hkm t Ht) as ((u & Hu & Hut) & _). exists u. split; congruence.
  - intros v Hm. apply Hv. intros u Hu Hpu. apply (Hkm u Hu). intros w ??. apply Hm; congruence.
Qed.

Lemma topics_match_allowed filter (log_topics : list (list byte)) :
  forallb (λ f,
    match log_topics !! Z.to_nat (position f) with
    | Some topic => existsb (λ a, bool_decide (bytes_of a = topic)) (alternatives f)
    | None => false
    end) filter = true ↔
  ∀ f, f ∈ filter →
    ∃ v, log_topics !! Z.to_nat (position f) = Some (bytes_of v) ∧ v ∈ alternatives f.
Proof.
  rewrite forallb_spec. apply forall_proper; intros f.
  apply Morphisms_Prop.iff_iff_iff_impl_morphism; [done|].
  destruct (log_topics !! _) as [topic|]; [|naive_solver].
  rewrite existsb_spec. setoid_rewrite bool_decide_eq_true. naive_solver.
Qed.

Lemma topics_cover_match scope filter (log_topics : list (list byte)) :
  topics_cover scope filter = true →
  (∀ f, f ∈ filter →
    ∃ v, log_topics !! Z.to_nat (position f) = Some (bytes_of v) ∧ v ∈ alternatives f) →
  ∀ r, r ∈ scope →
    ∃ v, log_topics !! Z.to_nat (position r) = Some (bytes_of v) ∧ v ∈ alternatives r.
Proof.
  rewrite topics_cover_spec. intros Hcov Hf r Hr.
  destruct (Hcov r Hr) as ((t & Ht & Hpos) & Hv).
  destruct (Hf t Ht) as (v & Hl & _). rewrite Hpos in Hl. exists v. split; [done|].
  apply Hv. intros u Hu Hpu. destruct (Hf u Hu) as (w & Hw & Hin).
  rewrite Hpu, Hl in Hw. injection Hw as Hw%bytes_of_inj. by subst.
Qed.

(** ** What a scope selects

    An item is a log with the transaction and block it belongs to; [matches]
    composes the predicates in the way [FilterScope]'s documentation tells a
    source to apply them. *)
Record Item := MkItem {
  item_block : BlockNumber;
  item_type : Z;
  item_recipient : option Address;
  item_hash : TransactionHash;
  item_sender : option Address;
  item_address : Address;
  item_topics : list (list byte);
}.

Definition matches (scope : FilterScope) (i : Item) : bool :=
  FilterScope.matches_block scope (item_block i)
  && FilterScope.matches_transaction scope (item_type i) (item_recipient i) (λ _, item_hash i)
  && FilterScope.matches_sender scope (item_sender i)
  && FilterScope.matches_log scope (item_address i) (item_topics i).

Module Covers.
Import FilterScope.

Lemma covers_values_spec s f :
  covers_values s f = true ↔
  list_covers (addresses s) (addresses f) = true ∧
  topics_cover (topics s) (topics f) = true ∧
  list_covers (transaction_hashes s) (transaction_hashes f) = true ∧
  list_covers (transaction_types s) (transaction_types f) = true ∧
  list_covers (senders s) (senders f) = true ∧
  list_covers (recipients s) (recipients f) = true.
Proof. unfold covers_values. rewrite !andb_true_iff. tauto. Qed.

(** The hash thunk is forced only when the scope constrains hashes, which
    makes no difference to the verdict. *)
Lemma matches_transaction_spec s ty to h :
  matches_transaction s ty to h = true ↔
  list_matches (transaction_types s) (Some ty) = true ∧
  list_matches (recipients s) to = true ∧
  list_matches (transaction_hashes s) (Some (h tt)) = true.
Proof.
  unfold matches_transaction, matches_transaction_hash.
  rewrite !andb_true_iff, orb_true_iff, bool_decide_eq_true.
  rewrite (list_matches_spec (transaction_hashes s)). naive_solver.
Qed.

Lemma covers_values_matches s f i :
  covers_values s f = true →
  matches_block s (item_block i) = true →
  matches f i = true → matches s i = true.
Proof.
  rewrite covers_values_spec. intros (Ha & Ht & Hh & Hty & Hs & Hr) Hb.
  unfold matches, matches_sender, matches_log, matches_log_address.
  rewrite !andb_true_iff, !matches_transaction_spec, !topics_match_allowed.
  intros [[[_ (H1 & H2 & H3)] H4] [H5 H6]].
  split_and!; eauto using list_covers_matches, topics_cover_match.
Qed.

Lemma covers_range s f b :
  covers s f = true → matches_block f b = true → matches_block s b = true.
Proof.
  unfold covers, matches_block, BlockRange.contains. intros [H _]%andb_true_iff. revert H.
  destruct (block_range s), (block_range f); try done. lia.
Qed.

Lemma covers_at_matches s f i :
  covers_at s f (item_block i) = true → matches f i = true → matches s i = true.
Proof.
  intros Hc Hm. assert (matches_block f (item_block i) = true) as Hb.
  { revert Hm. unfold matches. by rewrite !andb_true_iff; intros [[[? _] _] _]. }
  revert Hc. unfold covers_at. unfold matches_block in Hb.
  destruct (block_range f); [rewrite Hb; cbn|]; intros [??]%andb_true_iff;
    by eapply covers_values_matches.
Qed.

(** Coverage is sound: when a scope covers a filter, every log of every
    transaction of every block that the filter selects is selected by the
    scope, so material complete for the scope is complete for the filter;
    and [covers_at] is as good for the items of its block. *)
Theorem covers_sound s f i (Hm : matches f i = true) :
  (covers s f = true → matches s i = true) ∧
  (covers_at s f (item_block i) = true → matches s i = true).
Proof.
  assert (matches_block f (item_block i) = true) as Hb.
  { revert Hm. unfold matches. by rewrite !andb_true_iff; intros [[[? _] _] _]. }
  split; intros Hc; [|by eapply covers_at_matches].
  eapply covers_values_matches; [|by eapply covers_range|done].
  unfold covers in Hc. by apply andb_true_iff in Hc as [_ ?].
Qed.

(** The witness of [covers_sound]: a scope of two topics at position 0
    covers a filter of one of them, and selects the log it selects. *)
Lemma covers_sound_witness :
  let topic b := array_fill 32 b in
  let s := MkFilterScope None [] [MkTopicFilter 0 [topic x01; topic x02]] [] [] [] [] in
  let f := MkFilterScope None [array_fill 20 x07] [MkTopicFilter 0 [topic x02]] [] [] [] [] in
  let i := MkItem 5 2 None (topic x03) None (array_fill 20 x07) [bytes_of (topic x02)] in
  covers s f = true ∧ covers f s = false ∧ matches s i = true.
Proof.
  cbn zeta. split_and!; [vm_compute; reflexivity|vm_compute; reflexivity|].
  eapply (covers_sound _ (MkFilterScope None [array_fill 20 x07]
    [MkTopicFilter 0 [array_fill 32 x02]] [] [] [] [])); vm_compute; reflexivity.
Defined.

(** Coverage is a preorder on scopes, and the empty scope covers
    everything. *)
Theorem covers_preorder :
  (∀ s, covers s s = true) ∧
  (∀ f, covers scope_default f = true) ∧
  (∀ s t f, covers s t = true → covers t f = true → covers s f = true).
Proof.
  unfold covers. split_and!.
  - intros s. rewrite andb_true_iff, covers_values_spec.
    split_and!; auto using list_covers_refl, topics_cover_refl.
    destruct (block_range s) as [r|]; [|done]. by rewrite !Z.leb_refl.
  - done.
  - intros s t f. rewrite !andb_true_iff, !covers_values_spec.
    intros (H & ? & ? & ? & ? & ? & ?) (H' & ? & ? & ? & ? & ? & ?).
    split_and!; eauto using list_covers_trans, topics_cover_trans.
    destruct (block_range s), (block_range t), (block_range f); try done; lia.
Qed.

(** The witness of [covers_preorder]: coverage composes on block ranges. *)
Lemma covers_preorder_witness :
  let r a b := MkFilterScope (Some (MkBlockRange a b)) [] [] [] [] [] [] in
  covers (r 0 9) (r 4 6) = true.
Proof.
  cbn zeta. destruct covers_preorder as (_ & _ & Htrans).
  apply (Htrans _ (MkFilterScope (Some (MkBlockRange 2 8)) [] [] [] [] [] []));
    vm_compute; reflexivity.
Defined.

End Covers.
