(* ===== verification/Provenance.v ===== *)
(** * Source identity, trust and verification evidence

    Models [crates/primitives/src/provenance.rs]. *)
From Stdlib Require Import ZArith Lia Strings.Byte Strings.Ascii.
From stdpp Require Import gmap strings list list_numbers.
From S2P Require Import Prelude Bytes Chain.

(** [str::bytes]; [str::len] is its length. *)
Definition string_bytes (s : string) : list byte := String.list_byte_of_string s.

(** [u8::is_ascii_alphanumeric]. *)
Definition is_ascii_alphanumeric (b : byte) : bool :=
  let z := byte_Z b in
  ((48 <=? z) && (z <=? 57)) || ((65 <=? z) && (z <=? 90)) || ((97 <=? z) && (z <=? 122)).

(** [b'-' | b'_' | b'.']. *)
Definition is_portable_punct (b : byte) : bool :=
  bool_decide (b ∈ string_bytes "-_.").

Lemma string_bytes_length s : length (string_bytes s) = String.length s.
Proof.
  unfold string_bytes, String.list_byte_of_string. rewrite length_map.
  induction s; cbn; congruence.
Qed.

Lemma string_bytes_inj s t : string_bytes s = string_bytes t → s = t.
Proof.
  unfold string_bytes. intros H.
  by rewrite <-(String.string_of_list_byte_of_string s), H, String.string_of_list_byte_of_string.
Qed.

(** [str]'s [Ord]: the order of the bytes. *)
Definition string_cmp (a b : string) : comparison := bytes_cmp (string_bytes a) (string_bytes b).

#[export] Instance string_comparator : Comparator string_cmp.
Proof. apply (on_comparator string_bytes bytes_cmp), _. Qed.

#[export] Instance string_eq_comparator : EqComparator string_cmp.
Proof. intros a b H. by apply string_bytes_inj, bytes_cmp_eq. Qed.

(** ** Source identifiers *)

Record SourceId := MkSourceId { source_id : string }.
#[export] Instance SourceId_eq_dec : EqDecision SourceId.
Proof. solve_decision. Defined.

(** The 1 to 64 portable bytes shared by source, processor and consumer ids. *)
Definition portable_id (limit : nat) (value : string) : bool :=
  negb (bool_decide (value = "") || (limit <? String.length value)%nat)
  && forallb (λ byte, is_ascii_alphanumeric byte || is_portable_punct byte) (string_bytes value).

Module SourceId.

(** The error is the refused text. *)
Definition new (value : string) : result string SourceId :=
  if bool_decide (value = "") || (64 <? String.length value)%nat then Err value
  else if negb (forallb (λ byte, is_ascii_alphanumeric byte || is_portable_punct byte)
                  (string_bytes value)) then Err value
  else Ok (MkSourceId value).

Definition as_str (id : SourceId) : string := source_id id.

Lemma new_spec value :
  new value = if portable_id 64 value then Ok (MkSourceId value) else Err value.
Proof. unfold new, portable_id. by destruct (_ || _), (forallb _ _). Qed.

End SourceId.

Inductive SourceKind :=
  | PublicDataset | HistoryArchive | RetainedHistory | ExecutionP2p
  | ConsensusP2p | BeaconApi | Synthetic | JsonRpc | SequencerGossip | KindL1Anchor.

#[export] Instance SourceKind_eq_dec : EqDecision SourceKind.
Proof. solve_decision. Defined.

Inductive TrustModel :=
  Untrusted | TrustedManifest | TrustedDataset | ProtocolVerified.

#[export] Instance TrustModel_eq_dec : EqDecision TrustModel.
Proof. solve_decision. Defined.

(** The derived [Ord] follows declaration order. *)
Definition trust_level (t : TrustModel) : Z :=
  match t with
  | Untrusted => 0 | TrustedManifest => 1 | TrustedDataset => 2 | ProtocolVerified => 3
  end.
Definition trust_ltb (t u : TrustModel) : bool := trust_level t <? trust_level u.

Record ObjectIdentity := MkObjectIdentity {
  locator : string;
  object_version : option string;
  object_checksum : option (array 32);
  object_schema : option string;
}.

Record Provenance := MkProvenance {
  prov_source_id : SourceId;
  prov_source_kind : SourceKind;
  prov_trust : TrustModel;
  prov_range : option BlockRange;
  prov_object : option ObjectIdentity;
  observed_at_unix_ms : Z;
  projection : list string;
}.

(** ** Verification evidence *)

Inductive CheckStatus := Verified | Failed | NotChecked | Unavailable.

#[export] Instance CheckStatus_eq_dec : EqDecision CheckStatus.
Proof. solve_decision. Defined.

Record VerificationCheck := MkCheck {
  status : CheckStatus;
  detail : option string;
}.

Module VerificationCheck.
Definition VERIFIED : VerificationCheck := MkCheck Verified None.
Definition NOT_CHECKED : VerificationCheck := MkCheck NotChecked None.
Definition UNAVAILABLE : VerificationCheck := MkCheck Unavailable None.

Definition failed (c : VerificationCheck) : bool := bool_decide (status c = Failed).
End VerificationCheck.

Record ConsensusAnchor := MkConsensusAnchor {
  anchor_finality : Finality;
  execution_block_hash : BlockHash;
  anchor_beacon_slot : Z;
  anchor_beacon_block_root : array 32;
}.

Record VerificationReport := MkVerification {
  header_hash : VerificationCheck;
  parent_continuity : VerificationCheck;
  check_transactions_root : VerificationCheck;
  check_receipts_root : VerificationCheck;
  check_withdrawals_root : VerificationCheck;
  dataset_checksum : VerificationCheck;
  consensus_anchor : option ConsensusAnchor;
}.

#[export] Instance ObjectIdentity_eq_dec : EqDecision ObjectIdentity.
Proof. solve_decision. Defined.
#[export] Instance Provenance_eq_dec : EqDecision Provenance.
Proof. solve_decision. Defined.
#[export] Instance VerificationCheck_eq_dec : EqDecision VerificationCheck.
Proof. solve_decision. Defined.
#[export] Instance ConsensusAnchor_eq_dec : EqDecision ConsensusAnchor.
Proof. solve_decision. Defined.
#[export] Instance VerificationReport_eq_dec : EqDecision VerificationReport.
Proof. solve_decision. Defined.

Module VerificationReport.
Import VerificationCheck.

Definition default : VerificationReport :=
  MkVerification NOT_CHECKED NOT_CHECKED NOT_CHECKED NOT_CHECKED NOT_CHECKED NOT_CHECKED None.

Definition has_failures (r : VerificationReport) : bool :=
  existsb failed
    [header_hash r; parent_continuity r; check_transactions_root r;
     check_receipts_root r; check_withdrawals_root r; dataset_checksum r].

Definition checked_count (r : VerificationReport) : nat :=
  length (List.filter (λ check, bool_decide (status check ∈ [Verified; Failed]))
    [header_hash r; parent_continuity r; check_transactions_root r;
     check_receipts_root r; check_withdrawals_root r; dataset_checksum r]).

Lemma checked_count_le r : (checked_count r ≤ 6)%nat.
Proof. unfold checked_count. etrans; [apply filter_length_le|]. done. Qed.

Lemma default_unchecked : has_failures default = false ∧ checked_count default = 0%nat.
Proof. done. Qed.
End VerificationReport.
