(* ===== verification/Uint256.v ===== *)
(** * Unsigned 256-bit integers

    Models [crates/wasm-guest/src/u256.rs]: a 256-bit integer as its 32
    big-endian bytes, with byte-wise carries and borrows, the decimal printer
    that divides four 64-bit limbs by [10^19], and the digit-wise parser.
    Every operation is compared with the arithmetic of [Z]. *)
From Stdlib Require Import ZArith Lia Strings.Byte.
From stdpp Require Import gmap strings list list_numbers.
From S2P Require Import Prelude Bytes Chain Material Provenance.

(** ** The integer *)

Module U256.

Definition U256 : Type := array 32.

Definition ZERO : U256 := array_fill 32 x00.
Definition MAX : U256 := array_fill 32 xff.

(** [value.to_be_bytes()] into the last 16 bytes. *)
Definition from_u128 (value : Z) : U256 :=
  (replicate 16 x00 ++ be_bytes 16 value) ↾
    eq_trans (length_app _ _) (f_equal2 Nat.add (length_replicate 16 x00) (length_be_bytes 16 value)).

Definition is_zero (a : U256) : bool := bool_decide (a = ZERO).

(** The derived [Ord]. *)
Definition ltb (a b : U256) : bool :=
  match bytes_cmp (bytes_of a) (bytes_of b) with Lt => true | _ => false end.

(** The loop [for index in (0..32).rev()] that writes the low byte of a
    [u16] [total] and carries its high byte. *)
Fixpoint add_bytes (a b : list byte) : list byte * Z :=
  match a, b with
  | x :: a, y :: b =>
      let '(sum, carry) := add_bytes a b in
      let total := byte_Z x + byte_Z y + carry in
      (byte_of_Z total :: sum, Z.shiftr total 8)
  | _, _ => ([], 0)
  end.

(** The loop of [checked_sub], on [i16]. *)
Fixpoint sub_bytes (a b : list byte) : list byte * Z :=
  match a, b with
  | x :: a, y :: b =>
      let '(difference, borrow) := sub_bytes a b in
      let value := byte_Z x - byte_Z y - borrow in
      let borrow := if value <? 0 then 1 else 0 in
      let value := if value <? 0 then value + 256 else value in
      (byte_of_Z (if (0 <=? value) && (value <=? u8_max) then value else 0) :: difference, borrow)
  | _, _ => ([], 0)
  end.

(** The loop of [shift_in_digit]. *)
Fixpoint digit_bytes (a : list byte) (digit : Z) : list byte * Z :=
  match a with
  | x :: a =>
      let '(product, carry) := digit_bytes a digit in
      let total := byte_Z x * 10 + carry in
      (byte_of_Z total :: product, Z.shiftr total 8)
  | [] => ([], digit)
  end.

Lemma length_add_bytes a b : length a = length b → length (add_bytes a b).1 = length a.
Proof.
  revert b; induction a as [|x a IH]; intros [|y b]; cbn; try done. intros [= Hlen].
  specialize (IH b Hlen). destruct (add_bytes a b). cbn in *. by rewrite IH.
Qed.

Lemma length_sub_bytes a b : length a = length b → length (sub_bytes a b).1 = length a.
Proof.
  revert b; induction a as [|x a IH]; intros [|y b]; cbn; try done. intros [= Hlen].
  specialize (IH b Hlen). destruct (sub_bytes a b). cbn in *. by rewrite IH.
Qed.

Lemma length_digit_bytes a digit : length (digit_bytes a digit).1 = length a.
Proof. induction a as [|x a IH]; cbn; [done|]. destruct (digit_bytes a digit). cbn in *. by rewrite IH. Qed.

(** Two arrays have the same length. *)
Lemma same_length {n} (a b : array n) : length (bytes_of a) = length (bytes_of b).
Proof. by rewrite !length_bytes_of. Qed.

Definition sum_array (a b : U256) : U256 :=
  (add_bytes (bytes_of a) (bytes_of b)).1 ↾
    eq_trans (length_add_bytes _ _ (same_length a b)) (length_bytes_of a).
Definition difference_array (a b : U256) : U256 :=
  (sub_bytes (bytes_of a) (bytes_of b)).1 ↾
    eq_trans (length_sub_bytes _ _ (same_length a b)) (length_bytes_of a).
Definition product_array (a : U256) (digit : Z) : U256 :=
  (digit_bytes (bytes_of a) digit).1 ↾ eq_trans (length_digit_bytes _ _) (length_bytes_of a).

Definition checked_add (a b : U256) : option U256 :=
  if (add_bytes (bytes_of a) (bytes_of b)).2 =? 0 then Some (sum_array a b) else None.

Definition saturating_add (a b : U256) : U256 := default MAX (checked_add a b).

Definition checked_sub (a b : U256) : option U256 :=
  if ltb a b then None else Some (difference_array a b).

Definition shift_in_digit (a : U256) (digit : Z) : option U256 :=
  if (digit_bytes (bytes_of a) digit).2 =? 0 then Some (product_array a digit) else None.

(** ** Decimal text *)

(** How Rust prints an unsigned integer below [10^39]: its digits from the
    first that is not zero, and at least one. [{:019}] pads it with zeros. *)
Fixpoint digits (n : nat) (z : Z) : list byte :=
  match n with
  | O => []
  | S n => byte_of_Z (48 + z / 10 ^ Z.of_nat n mod 10) :: digits n z
  end.

Fixpoint strip (l : list byte) : list byte :=
  match l with
  | b :: rest =>
      match rest with
      | [] => l
      | _ => if bool_decide (b = "0"%byte) then strip rest else l
      end
  | [] => []
  end.

Definition decimal (z : Z) : list byte := strip (digits 39 z).
Definition decimal_padded (width : nat) (z : Z) : list byte :=
  replicate (width - length (decimal z)) "0"%byte ++ decimal z.

Definition CHUNK : Z := 10000000000000000000.

(** [for limb in &mut limbs]: divide in place, from the highest limb. *)
Fixpoint divide_limbs (remainder : Z) (limbs : list Z) : list Z * Z :=
  match limbs with
  | [] => ([], remainder)
  | limb :: limbs =>
      let current := Z.lor (Z.shiftl remainder 64) limb in
      let quotient := if current / CHUNK <=? u64_max then current / CHUNK else u64_max in
      let '(rest, remainder) := divide_limbs (current mod CHUNK) limbs in
      (quotient :: rest, remainder)
  end.

(** The printer's loop: one division per pass, until the limbs are zero. *)
Fixpoint chunks (fuel : nat) (limbs : list Z) : option (list Z) :=
  match fuel with
  | O => None
  | S fuel =>
      let '(limbs, remainder) := divide_limbs 0 limbs in
      if bool_decide (limbs = [0; 0; 0; 0]) then Some [remainder]
      else cons remainder <$> chunks fuel limbs
  end.

(** [self.0.as_chunks::<8>().0] as [u64]s. *)
Definition limbs_of (a : U256) : list Z :=
  (λ i, be_val (take 8 (drop (8 * i) (bytes_of a)))) <$> [0; 1; 2; 3]%nat.

Definition print_chunks (chunks : list Z) : list byte :=
  match rev chunks with
  | [] => decimal 0
  | first :: rest => decimal first ++ mjoin (decimal_padded 19 <$> rest)
  end.

(** [Display::fmt]; five passes are enough ([fmt_total]). *)
Definition fmt (a : U256) : option string :=
  String.string_of_list_byte ∘ print_chunks <$> chunks 5 (limbs_of a).

Definition is_ascii_digit (b : byte) : bool := (48 <=? byte_Z b) && (byte_Z b <=? 57).

(** [FromStr::from_str]. *)
Definition from_str (text : string) : result string U256 :=
  let bytes := string_bytes text in
  if bool_decide (bytes = []) || negb (forallb is_ascii_digit bytes)
  then Err ("`" +:+ text +:+ "` is not an unsigned decimal integer")
  else fold_result (λ value digit,
         ok_or (shift_in_digit value (byte_Z digit - 48)) ("`" +:+ text +:+ "` does not fit 256 bits"))
       ZERO bytes.

End U256.

Module U256Facts.
Import U256.

(** The value of an integer. *)
Definition val (a : U256) : Z := be_val (bytes_of a).
Definition top : Z := 2 ^ 256.
#[local] Arguments val : simpl never.
#[local] Arguments top : simpl never.

Lemma top_pow : top = 256 ^ Z.of_nat 32.
Proof. reflexivity. Qed.

Lemma val_range a : 0 ≤ val a < top.
Proof. rewrite top_pow, <-(length_bytes_of a) at 1. apply be_val_range. Qed.

Lemma val_inj a b : val a = val b → a = b.
Proof. intros H. apply bytes_of_inj, be_val_inj; [by rewrite !length_bytes_of|done]. Qed.

Lemma low_byte z : Z.shiftr z 8 = z / 256.
Proof. by rewrite Z.shiftr_div_pow2. Qed.

(** The three loops, on lists of equal length. *)
Lemma add_bytes_val a b : length a = length b →
  be_val a + be_val b = (add_bytes a b).2 * 256 ^ Z.of_nat (length a) + be_val (add_bytes a b).1
  ∧ 0 ≤ (add_bytes a b).2.
Proof.
  revert b; induction a as [|x a IH]; intros [|y b]; cbn [add_bytes be_val length]; try done.
  intros [= Hlen]. specialize (IH b Hlen). pose proof (length_add_bytes a b Hlen) as Hs.
  destruct (add_bytes a b) as [sum carry]. cbn [fst snd be_val] in *. destruct IH as [IH Hc].
  rewrite low_byte, byte_Z_of_Z, Hs, <-Hlen, pow256_succ.
  pose proof (byte_Z_range x). pose proof (byte_Z_range y).
  split; [|apply Z.div_pos; lia]. set (total := byte_Z x + byte_Z y + carry).
  pose proof (Z.div_mod total 256 ltac:(lia)). subst total. nia.
Qed.

Lemma sub_bytes_val a b : length a = length b →
  be_val a - be_val b = be_val (sub_bytes a b).1 - (sub_bytes a b).2 * 256 ^ Z.of_nat (length a)
  ∧ 0 ≤ (sub_bytes a b).2 ≤ 1.
Proof.
  revert b; induction a as [|x a IH]; intros [|y b]; cbn [sub_bytes be_val length]; try done.
  intros [= Hlen]. specialize (IH b Hlen). pose proof (length_sub_bytes a b Hlen) as Hs.
  destruct (sub_bytes a b) as [diff borrow]. cbn [fst snd be_val] in *. destruct IH as [IH Hb].
  rewrite Hs, <-Hlen, pow256_succ, byte_Z_of_Z.
  pose proof (byte_Z_range x). pose proof (byte_Z_range y). unfold u8_max.
  destruct (Z.ltb_spec (byte_Z x - byte_Z y - borrow) 0).
  all: rewrite (proj2 (andb_true_iff _ _)) by (split; apply Z.leb_le; lia).
  all: rewrite Z.mod_small by lia; split; nia.
Qed.

Lemma digit_bytes_val a digit : 0 ≤ digit →
  10 * be_val a + digit
  = (digit_bytes a digit).2 * 256 ^ Z.of_nat (length a) + be_val (digit_bytes a digit).1
  ∧ 0 ≤ (digit_bytes a digit).2.
Proof.
  intros Hd. induction a as [|x a IH]; cbn [digit_bytes be_val length]; [cbn; lia|].
  pose proof (length_digit_bytes a digit) as Hs.
  destruct (digit_bytes a digit) as [product carry]. cbn [fst snd be_val] in *. destruct IH as [IH Hc].
  rewrite low_byte, byte_Z_of_Z, Hs, pow256_succ. pose proof (byte_Z_range x).
  split; [|apply Z.div_pos; lia]. set (total := byte_Z x * 10 + carry).
  pose proof (Z.div_mod total 256 ltac:(lia)). subst total. nia.
Qed.

Lemma carry_free carry low n total : 0 ≤ carry → 0 ≤ low < n → total = carry * n + low →
  (carry = 0 ↔ total < n).
Proof. nia. Qed.

Lemma checked_add_val a b :
  val <$> checked_add a b = if val a + val b <? top then Some (val a + val b) else None.
Proof.
  destruct (add_bytes_val (bytes_of a) (bytes_of b) (same_length a b)) as [Hv Hc].
  pose proof (val_range (sum_array a b)) as Hr. rewrite length_bytes_of in Hv. fold (val a) (val b) in Hv.
  unfold checked_add. change (be_val _.1) with (val (sum_array a b)) in Hv. rewrite <-top_pow in Hv.
  pose proof (carry_free _ _ _ _ Hc Hr Hv) as Hiff.
  destruct (Z.eqb_spec (add_bytes (bytes_of a) (bytes_of b)).2 0) as [Hz|Hz].
  - rewrite (proj2 (Z.ltb_lt _ _)) by tauto. cbn. f_equal. lia.
  - rewrite (proj2 (Z.ltb_ge _ _)) by (apply Z.nlt_ge; tauto). done.
Qed.

Lemma val_max : val MAX = top - 1.
Proof. reflexivity. Qed.

Lemma saturating_add_val a b : val (saturating_add a b) = Z.min (val a + val b) (top - 1).
Proof.
  unfold saturating_add. pose proof (checked_add_val a b) as H. pose proof val_max.
  destruct (checked_add a b), (Z.ltb_spec (val a + val b) top); cbn in *; simplify_eq; lia.
Qed.

Lemma ltb_val a b : ltb a b = (val a <? val b).
Proof.
  unfold ltb, Z.ltb, val. rewrite bytes_cmp_be by apply same_length. by destruct (_ ?= _).
Qed.

Lemma checked_sub_val a b :
  val <$> checked_sub a b = if val a <? val b then None else Some (val a - val b).
Proof.
  unfold checked_sub. rewrite ltb_val. destruct (Z.ltb_spec (val a) (val b)) as [|Hle]; [done|].
  destruct (sub_bytes_val (bytes_of a) (bytes_of b) (same_length a b)) as [Hv Hb].
  pose proof (val_range (difference_array a b)) as Hr. rewrite length_bytes_of in Hv.
  fold (val a) (val b) in Hv. change (be_val _.1) with (val (difference_array a b)) in Hv.
  rewrite <-top_pow in Hv. pose proof (val_range a). pose proof (val_range b).
  change (Some (val (difference_array a b)) = Some (val a - val b)). f_equal.
  assert ((sub_bytes (bytes_of a) (bytes_of b)).2 = 0 ∨ (sub_bytes (bytes_of a) (bytes_of b)).2 = 1)
    as [Hz|Hz] by lia; rewrite Hz in Hv; lia.
Qed.

Lemma shift_in_digit_val a digit : 0 ≤ digit →
  val <$> shift_in_digit a digit = if 10 * val a + digit <? top then Some (10 * val a + digit) else None.
Proof.
  intros Hd. destruct (digit_bytes_val (bytes_of a) digit Hd) as [Hv Hc].
  pose proof (val_range (product_array a digit)) as Hr. rewrite length_bytes_of in Hv. fold (val a) in Hv.
  unfold shift_in_digit. change (be_val _.1) with (val (product_array a digit)) in Hv. rewrite <-top_pow in Hv.
  pose proof (carry_free _ _ _ _ Hc Hr Hv) as Hiff.
  destruct (Z.eqb_spec (digit_bytes (bytes_of a) digit).2 0) as [Hz|Hz].
  - rewrite (proj2 (Z.ltb_lt _ _)) by tauto. cbn. f_equal. lia.
  - rewrite (proj2 (Z.ltb_ge _ _)) by (apply Z.nlt_ge; tauto). done.
Qed.

(** ** Decimal text *)

(** The number a digit text stands for, continued from [v]. *)
Definition text_val (v : Z) (l : list byte) : Z := foldl (λ v b, 10 * v + (byte_Z b - 48)) v l.

Lemma text_val_app v l k : text_val v (l ++ k) = text_val (text_val v l) k.
Proof. apply foldl_app. Qed.

Lemma text_val_from v l : text_val v l = v * 10 ^ Z.of_nat (length l) + text_val 0 l.
Proof.
  revert v; induction l as [|b l IH]; intros v; cbn [text_val foldl length]; [lia|].
  fold (text_val (10 * v + (byte_Z b - 48)) l) (text_val (10 * 0 + (byte_Z b - 48)) l).
  rewrite (IH (10 * v + _)), (IH (10 * 0 + _)), Nat2Z.inj_succ, Z.pow_succ_r by lia. ring.
Qed.

Lemma text_val_range l : forallb is_ascii_digit l = true → 0 ≤ text_val 0 l < 10 ^ Z.of_nat (length l).
Proof.
  induction l as [|b l IH]; [done|]. cbn [forallb]. intros [Hb Hl]%andb_true_iff.
  specialize (IH Hl). unfold is_ascii_digit in Hb. apply andb_true_iff in Hb as [?%Z.leb_le ?%Z.leb_le].
  change (text_val 0 (b :: l)) with (text_val (10 * 0 + (byte_Z b - 48)) l).
  rewrite text_val_from. cbn [length]. rewrite Nat2Z.inj_succ, Z.pow_succ_r by lia. nia.
Qed.

Lemma text_val_mono v l : forallb is_ascii_digit l = true → 0 ≤ v → v ≤ text_val v l.
Proof.
  intros Hl Hv. rewrite text_val_from. pose proof (text_val_range l Hl).
  assert (0 < 10 ^ Z.of_nat (length l)) by (apply Z.pow_pos_nonneg; lia). nia.
Qed.

(** The parser's fold reads the number, or fails where it no longer fits. *)
Lemma parse_fold l (e : string) a : forallb is_ascii_digit l = true →
  val <$> fold_result (λ value digit, ok_or (shift_in_digit value (byte_Z digit - 48)) e) a l
  = if text_val (val a) l <? top then Ok (text_val (val a) l) else Err e.
Proof.
  revert a; induction l as [|b l IH]; intros a; cbn [forallb fold_result].
  - intros _. cbn. by rewrite (proj2 (Z.ltb_lt _ _)) by apply val_range.
  - intros [Hb Hl]%andb_true_iff. unfold is_ascii_digit in Hb. apply andb_true_iff in Hb as [Hb%Z.leb_le _].
    pose proof (val_range a). pose proof (shift_in_digit_val a (byte_Z b - 48) ltac:(lia)) as Hs.
    change (text_val (val a) (b :: l)) with (text_val (10 * val a + (byte_Z b - 48)) l).
    pose proof (text_val_mono (10 * val a + (byte_Z b - 48)) l Hl ltac:(lia)) as Hm.
    destruct (shift_in_digit a (byte_Z b - 48)) as [a'|], (Z.ltb_spec (10 * val a + (byte_Z b - 48)) top);
      cbn in Hs; simplify_eq; cbn [ok_or mbind result_bind].
    + rewrite <-Hs. by apply IH.
    + by rewrite (proj2 (Z.ltb_ge _ _)) by lia.
Qed.

(** Digits: [digits n z] writes [z] modulo [10^n]. *)
Lemma length_digits n z : length (digits n z) = n.
Proof. induction n; cbn; congruence. Qed.

Lemma digits_ascii n z : forallb is_ascii_digit (digits n z) = true.
Proof.
  induction n as [|n IH]; [done|]. cbn [digits forallb]. rewrite IH, andb_true_r.
  unfold is_ascii_digit. rewrite byte_Z_of_Z.
  pose proof (Z.mod_pos_bound (z / 10 ^ Z.of_nat n) 10 ltac:(lia)). rewrite Z.mod_small by lia.
  apply andb_true_iff. split; apply Z.leb_le; lia.
Qed.

Lemma text_val_digits n z v : text_val v (digits n z) = v * 10 ^ Z.of_nat n + z mod 10 ^ Z.of_nat n.
Proof.
  revert v; induction n as [|n IH]; intros v; [cbn; rewrite Z.mod_1_r; lia|].
  cbn [digits]. change (text_val v (?b :: ?l)) with (text_val (10 * v + (byte_Z b - 48)) l).
  rewrite IH, byte_Z_of_Z.
  pose proof (Z.mod_pos_bound (z / 10 ^ Z.of_nat n) 10 ltac:(lia)). rewrite (Z.mod_small (48 + _)) by lia.
  assert (0 < 10 ^ Z.of_nat n) by (apply Z.pow_pos_nonneg; lia).
  rewrite Nat2Z.inj_succ, Z.pow_succ_r, (Z.mul_comm 10 (10 ^ _)), (Z.rem_mul_r z) by lia. ring.
Qed.

Lemma text_val_zero l : text_val 0 ("0"%byte :: l) = text_val 0 l.
Proof. reflexivity. Qed.

Lemma strip_cons b c l :
  strip (b :: c :: l) = if bool_decide (b = "0"%byte) then strip (c :: l) else b :: c :: l.
Proof. reflexivity. Qed.

Lemma strip_spec l : ∃ k, l = replicate k "0"%byte ++ strip l.
Proof.
  induction l as [|b [|c l] IH]; [by exists 0%nat|by exists 0%nat|].
  rewrite strip_cons. case_bool_decide as Hb; [|by exists 0%nat].
  destruct IH as [k Hk]. exists (S k). rewrite Hb. cbn [replicate app]. f_equal. exact Hk.
Qed.

Lemma strip_head l : l ≠ [] → ∃ b r, strip l = b :: r ∧ (b = "0"%byte → r = []).
Proof.
  induction l as [|b [|c l] IH]; intros Hl; [done|by exists b, []|].
  rewrite strip_cons. case_bool_decide as Hb; [by apply IH|]. eexists _, _. split; [done|]. by intros ?%Hb.
Qed.

Lemma text_val_zeros k l : text_val 0 (replicate k "0"%byte ++ l) = text_val 0 l.
Proof. induction k as [|k IH]; [done|]. exact IH. Qed.

Lemma text_val_strip l : text_val 0 (strip l) = text_val 0 l.
Proof. destruct (strip_spec l) as [k Hk]. rewrite Hk at 2. by rewrite text_val_zeros. Qed.

Lemma strip_ascii l : forallb is_ascii_digit l = true → forallb is_ascii_digit (strip l) = true.
Proof. destruct (strip_spec l) as [k Hk]. rewrite Hk at 1. rewrite forallb_app. by intros [_ ?]%andb_true_iff. Qed.

Lemma text_val_decimal z : 0 ≤ z < 10 ^ 39 → text_val 0 (decimal z) = z.
Proof. intros Hz. unfold decimal. rewrite text_val_strip, text_val_digits. apply Z.mod_small, Hz. Qed.

Lemma decimal_ascii z : forallb is_ascii_digit (decimal z) = true.
Proof. apply strip_ascii, digits_ascii. Qed.

(** A digit string is determined by its length and its value. *)
Lemma text_val_inj l k : length l = length k → forallb is_ascii_digit l = true →
  forallb is_ascii_digit k = true → text_val 0 l = text_val 0 k → l = k.
Proof.
  revert k; induction l as [|b l IH]; intros [|c k]; cbn [length forallb]; try done.
  intros [= Hlen] [Hb Hl]%andb_true_iff [Hc Hk]%andb_true_iff Hv.
  change (text_val 0 (b :: l)) with (text_val (10 * 0 + (byte_Z b - 48)) l) in Hv.
  change (text_val 0 (c :: k)) with (text_val (10 * 0 + (byte_Z c - 48)) k) in Hv.
  rewrite text_val_from, (text_val_from _ k), Hlen in Hv.
  pose proof (text_val_range l Hl) as Hrl. pose proof (text_val_range k Hk) as Hrk. rewrite Hlen in Hrl.
  assert (byte_Z b = byte_Z c) as Hbc by nia.
  rewrite (inj byte_Z _ _ Hbc) in *. f_equal. apply IH; [done..|]. lia.
Qed.

(** A text without superfluous zeros. *)
Definition canonical (l : list byte) : Prop :=
  forallb is_ascii_digit l = true ∧ ∃ b r, l = b :: r ∧ (b = "0"%byte → r = []).

Lemma canonical_length l : canonical l →
  l = ["0"%byte] ∨ 10 ^ (Z.of_nat (length l) - 1) ≤ text_val 0 l.
Proof.
  intros (Hd & b & r & -> & Hz). cbn [forallb length] in *. apply andb_true_iff in Hd as [Hb Hr].
  destruct (decide (b = "0"%byte)) as [->|Hne]; [left; by rewrite Hz|right].
  change (text_val 0 (b :: r)) with (text_val (10 * 0 + (byte_Z b - 48)) r). rewrite text_val_from.
  pose proof (text_val_range r Hr). unfold is_ascii_digit in Hb.
  apply andb_true_iff in Hb as [?%Z.leb_le _].
  assert (byte_Z b ≠ 48) by (intros E; apply Hne, (inj byte_Z), E).
  replace (Z.of_nat (S (length r)) - 1) with (Z.of_nat (length r)) by lia. nia.
Qed.

Lemma canonical_shorter l k : canonical l → canonical k → text_val 0 l = text_val 0 k →
  (length l ≤ length k)%nat.
Proof.
  intros Hl Hk Hv. destruct (canonical_length l Hl) as [->|Hlow].
  - destruct Hk as (_ & b & r & -> & _). cbn. lia.
  - pose proof (text_val_range k (proj1 Hk)) as Hr. apply Nat.nlt_ge. intros Hlt.
    assert (10 ^ Z.of_nat (length k) ≤ 10 ^ (Z.of_nat (length l) - 1))
      by (apply Z.pow_le_mono_r; lia). lia.
Qed.

Lemma canonical_inj l k : canonical l → canonical k → text_val 0 l = text_val 0 k → l = k.
Proof.
  intros Hl Hk Hv. apply text_val_inj; [|apply Hl|apply Hk|done].
  apply Nat.le_antisymm; by apply canonical_shorter.
Qed.

Lemma decimal_canonical z : canonical (decimal z).
Proof. split; [apply decimal_ascii|]. by apply strip_head. Qed.

Lemma decimal_short n z : (n < 39)%nat → 0 ≤ z < 10 ^ Z.of_nat (S n) → decimal z = strip (digits (S n) z).
Proof.
  intros Hn Hz. apply canonical_inj; [apply decimal_canonical| |].
  - split; [apply strip_ascii, digits_ascii|]. by apply strip_head.
  - assert (10 ^ Z.of_nat (S n) ≤ 10 ^ 39) by (apply Z.pow_le_mono_r; lia).
    rewrite text_val_decimal, text_val_strip, text_val_digits by lia. by rewrite Z.mod_small.
Qed.

(** A chunk is printed as its nineteen digits. *)
Lemma decimal_padded_digits z : 0 ≤ z < CHUNK → decimal_padded 19 z = digits 19 z.
Proof.
  intros Hz. unfold decimal_padded. rewrite (decimal_short 18) by (done || lia).
  destruct (strip_spec (digits 19 z)) as [k Hk]. rewrite Hk at 3. f_equal. f_equal.
  apply (f_equal length) in Hk. rewrite length_app, length_replicate, length_digits in Hk. lia.
Qed.

(** ** The printer *)

(** Limbs from the highest, chunks from the lowest. *)
Fixpoint limbs_val (l : list Z) : Z :=
  match l with [] => 0 | x :: l => x * 2 ^ (64 * Z.of_nat (length l)) + limbs_val l end.
Fixpoint chunks_val (l : list Z) : Z :=
  match l with [] => 0 | c :: l => c + CHUNK * chunks_val l end.

Definition is_limb (x : Z) : Prop := 0 ≤ x < 2 ^ 64.
Definition is_chunk (c : Z) : Prop := 0 ≤ c < CHUNK.

Lemma limbs_val_nonneg l : Forall is_limb l → 0 ≤ limbs_val l.
Proof.
  induction 1 as [|x l Hx Hl IH]; cbn [limbs_val]; [lia|].
  assert (0 < 2 ^ (64 * Z.of_nat (length l))) by (apply Z.pow_pos_nonneg; lia). unfold is_limb in Hx. nia.
Qed.

Lemma limbs_val_zero l : Forall is_limb l → limbs_val l = 0 → l = replicate (length l) 0.
Proof.
  induction 1 as [|x l Hx Hl IH]; cbn [limbs_val length replicate]; [done|].
  pose proof (limbs_val_nonneg l Hl). unfold is_limb in Hx.
  assert (0 < 2 ^ (64 * Z.of_nat (length l))) by (apply Z.pow_pos_nonneg; lia).
  intros Hz. assert (x = 0) as -> by nia. f_equal. apply IH. lia.
Qed.

Lemma lor_shiftl r x n : 0 ≤ n → 0 ≤ x < 2 ^ n → Z.lor (Z.shiftl r n) x = r * 2 ^ n + x.
Proof.
  intros Hn Hx. rewrite <-Z.shiftl_mul_pow2 by lia. symmetry. apply Z.add_nocarry_lor.
  apply Z.bits_inj'. intros i Hi. rewrite Z.land_spec, Z.bits_0.
  destruct (Z.lt_ge_cases i n) as [Hlt|Hge].
  - by rewrite Z.shiftl_spec_low.
  - rewrite <-(Z.mod_small x (2 ^ n)), Z.mod_pow2_bits_high by lia. apply andb_false_r.
Qed.

Lemma divide_limbs_val r limbs : is_chunk r → Forall is_limb limbs →
  r * 2 ^ (64 * Z.of_nat (length limbs)) + limbs_val limbs
  = limbs_val (divide_limbs r limbs).1 * CHUNK + (divide_limbs r limbs).2
  ∧ Forall is_limb (divide_limbs r limbs).1 ∧ is_chunk (divide_limbs r limbs).2
  ∧ length (divide_limbs r limbs).1 = length limbs.
Proof.
  intros Hr Hl. revert r Hr. induction Hl as [|x l Hx Hl IH]; intros r Hr; cbn [divide_limbs limbs_val length].
  { cbn. repeat split; [lia|done|apply Hr..]. }
  unfold is_limb, is_chunk in Hx, Hr.
  rewrite lor_shiftl by lia. set (current := r * 2 ^ 64 + x).
  pose proof (Z.div_mod current CHUNK ltac:(done)) as Hdm.
  pose proof (Z.mod_pos_bound current CHUNK ltac:(done)) as Hm.
  assert (0 ≤ current / CHUNK < 2 ^ 64) as Hq.
  { split; [apply Z.div_pos; [subst current; nia|done]|]. apply Z.div_lt_upper_bound; [done|]. subst current. lia. }
  rewrite (proj2 (Z.leb_le _ _)) by (unfold u64_max; lia).
  destruct (IH (current mod CHUNK) Hm) as (Hv & Hf & Hc & Hlen).
  destruct (divide_limbs (current mod CHUNK) l) as [rest r']. cbn [fst snd limbs_val length] in *.
  rewrite Hlen. split_and!; [|by constructor|apply Hc|done].
  replace (64 * Z.of_nat (S (length l))) with (64 + 64 * Z.of_nat (length l)) by lia.
  rewrite Z.pow_add_r by lia. subst current. nia.
Qed.

Lemma chunks_step fuel limbs :
  chunks (S fuel) limbs =
    if bool_decide ((divide_limbs 0 limbs).1 = [0; 0; 0; 0]) then Some [(divide_limbs 0 limbs).2]
    else cons (divide_limbs 0 limbs).2 <$> chunks fuel (divide_limbs 0 limbs).1.
Proof. cbn [chunks]. by destruct (divide_limbs 0 limbs). Qed.

Lemma chunks_spec fuel limbs : length limbs = 4%nat → Forall is_limb limbs →
  limbs_val limbs < CHUNK ^ Z.of_nat (S fuel) →
  ∃ cs, chunks (S fuel) limbs = Some cs ∧ Forall is_chunk cs ∧ chunks_val cs = limbs_val limbs
    ∧ ∃ init top, cs = init ++ [top] ∧ (top = 0 → init = []).
Proof.
  revert limbs. induction fuel as [|fuel IH]; intros limbs Hlen Hl Hlt.
  all: destruct (divide_limbs_val 0 limbs ltac:(done) Hl) as (Hv & Hf & Hc & Hlen').
  all: pose proof (limbs_val_nonneg _ Hf) as Hnn; rewrite chunks_step.
  all: destruct (divide_limbs 0 limbs) as [limbs' r]; cbn [fst snd] in *; unfold is_chunk in Hc.
  - assert (limbs_val limbs' = 0) as Hz by (change (CHUNK ^ Z.of_nat 1) with CHUNK in Hlt; nia).
    apply limbs_val_zero in Hz; [|done]. rewrite Hlen', Hlen in Hz. subst limbs'. exists [r].
    split; [done|]. split; [by apply Forall_singleton|].
    split; [cbn in Hv |- *; lia|]. by exists [], r.
  - case_bool_decide as Hstop.
    { exists [r]. split; [done|]. split; [by apply Forall_singleton|].
      rewrite Hstop in Hv. split; [cbn in Hv |- *; lia|]. by exists [], r. }
    destruct (IH limbs') as (cs & -> & Hcs & Hcv & init & t & -> & Ht); [lia|done|..].
    { rewrite (Nat2Z.inj_succ (S fuel)), Z.pow_succ_r in Hlt by lia. nia. }
    exists (r :: init ++ [t]). split; [done|]. split; [by constructor|].
    split; [cbn [chunks_val]; lia|]. exists (r :: init), t. split; [done|].
    intros ->. destruct Hstop. specialize (Ht eq_refl) as ->.
    rewrite (limbs_val_zero limbs'), Hlen', Hlen; [done|done|]. cbn in Hcv. lia.
Qed.

Lemma limbs_of_val a : limbs_val (limbs_of a) = val a ∧ Forall is_limb (limbs_of a) ∧ length (limbs_of a) = 4%nat.
Proof.
  unfold limbs_of, val. pose proof (length_bytes_of a) as Hlen. revert Hlen. generalize (bytes_of a). intros l Hlen.
  split; [|split; [|done]].
  - assert (l = take 8 l ++ take 8 (drop 8 l) ++ take 8 (drop 16 l) ++ take 8 (drop 24 l)) as Hsplit.
    { rewrite (take_ge (drop 24 l)) by (rewrite length_drop; lia).
      replace (drop 24 l) with (drop 8 (drop 16 l)) by (by rewrite drop_drop). rewrite take_drop.
      replace (drop 16 l) with (drop 8 (drop 8 l)) by (by rewrite drop_drop). by rewrite !take_drop. }
    transitivity (be_val (take 8 l ++ take 8 (drop 8 l) ++ take 8 (drop 16 l) ++ take 8 (drop 24 l)));
      [|by rewrite <-Hsplit].
    rewrite !be_val_app, !length_app, !length_take, !length_drop, Hlen.
    cbn [fmap list_fmap Nat.mul Nat.add]. rewrite drop_0.
    generalize (be_val (take 8 l)), (be_val (take 8 (drop 8 l))), (be_val (take 8 (drop 16 l))),
      (be_val (take 8 (drop 24 l))). intros w x y z. cbn -[Z.mul]. lia.
  - apply Forall_fmap, Forall_forall. intros i _. unfold compose.
    pose proof (be_val_range (take 8 (drop (8 * i) l))) as Hr. unfold is_limb.
    assert (256 ^ Z.of_nat (length (take 8 (drop (8 * i) l))) ≤ 256 ^ 8); [|lia].
    apply Z.pow_le_mono_r; [lia|]. rewrite length_take. lia.
Qed.

Lemma text_val_chunks v cs : Forall is_chunk cs → 0 ≤ v →
  text_val v (mjoin (decimal_padded 19 <$> rev cs)) = v * CHUNK ^ Z.of_nat (length cs) + chunks_val cs.
Proof.
  intros Hcs. revert v. induction Hcs as [|c cs Hc Hcs IH]; intros v Hv; [cbn; lia|].
  cbn [rev chunks_val length]. rewrite fmap_app, join_app, text_val_app, IH by done. cbn [fmap list_fmap mjoin list_join].
  rewrite app_nil_r, decimal_padded_digits, text_val_digits by done.
  change (10 ^ Z.of_nat 19) with CHUNK. rewrite Z.mod_small by done.
  rewrite Nat2Z.inj_succ, Z.pow_succ_r by lia. ring.
Qed.

Lemma zeros_ascii k : forallb is_ascii_digit (replicate k "0"%byte) = true.
Proof. by induction k. Qed.

Lemma join_ascii cs : forallb is_ascii_digit (mjoin (decimal_padded 19 <$> cs)) = true.
Proof.
  induction cs as [|c cs IH]; [done|]. change (mjoin _) with (decimal_padded 19 c ++ mjoin (decimal_padded 19 <$> cs)).
  rewrite forallb_app, IH, andb_true_r. unfold decimal_padded. rewrite forallb_app, decimal_ascii, andb_true_r.
  apply zeros_ascii.
Qed.

Lemma chunk_small c : is_chunk c → 0 ≤ c < 10 ^ 39.
Proof. intros [? Hc]. split; [done|]. eapply Z.lt_le_trans; [apply Hc|]. vm_compute. discriminate. Qed.

(** Printed chunks are the canonical text of their value. *)
Lemma print_chunks_spec init t : Forall is_chunk (init ++ [t]) → (t = 0 → init = []) →
  canonical (print_chunks (init ++ [t]))
  ∧ text_val 0 (print_chunks (init ++ [t])) = chunks_val (init ++ [t]).
Proof.
  intros [Hi Ht]%Forall_app Hz. apply Forall_inv in Ht. unfold print_chunks. rewrite rev_app_distr. cbn [rev app].
  pose proof (chunk_small _ Ht). split.
  - split; [by rewrite forallb_app, decimal_ascii, join_ascii|].
    destruct (decide (t = 0)) as [->|Hne]; [rewrite Hz by done; by eexists _, _|].
    destruct (proj2 (decimal_canonical t)) as (b & r & Hd & Hb). rewrite Hd. eexists b, _. split; [done|].
    intros ->. specialize (Hb eq_refl) as ->. pose proof (text_val_decimal t ltac:(done)) as Hv.
    rewrite Hd in Hv. by destruct Hne.
  - rewrite text_val_app, text_val_decimal, text_val_chunks by (done || apply Ht).
    clear. induction init as [|c init IH]; cbn [app chunks_val length]; [cbn; lia|].
    rewrite Nat2Z.inj_succ, Z.pow_succ_r by lia. lia.
Qed.

Lemma fmt_spec a : ∃ l, fmt a = Some (String.string_of_list_byte l) ∧ canonical l ∧ text_val 0 l = val a.
Proof.
  destruct (limbs_of_val a) as (Hv & Hl & Hlen). pose proof (val_range a).
  destruct (chunks_spec 4 _ Hlen Hl) as (cs & Hcs & Hc & Hcv & init & t & -> & Ht).
  { rewrite Hv. assert (top < CHUNK ^ Z.of_nat 5) by reflexivity. lia. }
  destruct (print_chunks_spec init t Hc Ht) as [Hcan Htv]. exists (print_chunks (init ++ [t])).
  split; [unfold fmt; by rewrite Hcs|]. split; [done|]. by rewrite Htv, Hcv.
Qed.

Lemma string_bytes_of l : string_bytes (String.string_of_list_byte l) = l.
Proof. apply String.list_byte_of_string_of_list_byte. Qed.

(** The parser accepts the digit strings whose number fits. *)
Lemma from_str_val text a :
  from_str text = Ok a ↔ string_bytes text ≠ [] ∧ forallb is_ascii_digit (string_bytes text) = true
    ∧ text_val 0 (string_bytes text) = val a.
Proof.
  unfold from_str. case_bool_decide as Hn; [naive_solver|].
  destruct (forallb is_ascii_digit (string_bytes text)) eqn:Hd; cbn [orb negb]; [|naive_solver].
  pose proof (parse_fold _ ("`" +:+ text +:+ "` does not fit 256 bits") ZERO Hd) as Hp.
  change (val ZERO) with 0 in Hp. pose proof (val_range a). revert Hp.
  destruct (fold_result _ ZERO (string_bytes text)) as [a'|], (Z.ltb_spec (text_val 0 (string_bytes text)) top);
    cbn; intros Hp; simplify_eq.
  - split; [intros [= ->]; done|]. intros (_ & _ & Hv). f_equal. apply val_inj. congruence.
  - split; [done|]. intros (_ & _ & Hv). lia.
Qed.

End U256Facts.

Import U256 U256Facts.

(** Addition, saturating addition, subtraction and the order of 256-bit
    integers, computed byte by byte with carries and borrows, are those of
    the integers they stand for: an addition gives [None] exactly when the sum
    does not fit 256 bits (saturating addition then gives the maximum), a
    subtraction exactly when the second number is larger. *)
Theorem arithmetic_exact a b :
  val <$> checked_add a b = (if val a + val b <? 2 ^ 256 then Some (val a + val b) else None)
  ∧ val (saturating_add a b) = Z.min (val a + val b) (2 ^ 256 - 1)
  ∧ val <$> checked_sub a b = (if val a <? val b then None else Some (val a - val b))
  ∧ ltb a b = (val a <? val b)
  ∧ 0 ≤ val a < 2 ^ 256.
Proof.
  split_and!; [apply checked_add_val|apply saturating_add_val|apply checked_sub_val|apply ltb_val
    |apply val_range|apply val_range].
Qed.

(** C32: Every 256-bit integer prints (five divisions are always enough), the
    parser reads the text back as the same integer, and no other text without
    superfluous zeros is read as it. *)
Theorem decimal_round_trip a :
  ∃ text, fmt a = Some text ∧ canonical (string_bytes text) ∧ from_str text = Ok a
    ∧ ∀ other, canonical (string_bytes other) → from_str other = Ok a → other = text.
Proof.
  destruct (fmt_spec a) as (l & Hf & Hc & Hv). exists (String.string_of_list_byte l).
  rewrite string_bytes_of. split_and!; [done|done| |].
  - apply from_str_val. rewrite string_bytes_of. destruct Hc as (Hd & b & r & -> & _). done.
  - intros other Ho (_ & _ & Hov)%from_str_val.
    rewrite <-(canonical_inj _ _ Ho Hc ltac:(congruence)). symmetry.
    apply String.string_of_list_byte_of_string.
Qed.
