(* ===== verification/Frame.v ===== *)
(** * Normalized block material

    Models [crates/primitives/src/frame.rs]: the envelopes, [BlockFrame], its
    capability report, the field promises of [group_violation], the shape
    check and the saturating heap estimate. *)
From Stdlib Require Import ZArith Lia Strings.Byte.
From stdpp Require Import gmap strings list list_numbers.
From S2P Require Import Prelude Bytes Chain Capability Material Provenance.

(** ** Log identity fields *)

Inductive LogField := LogTransactionHash.

Definition log_field_bit (f : LogField) : Z := match f with LogTransactionHash => 1 end.

Abbreviation LogFieldSet := Z.

Module LogFieldSet.
Definition NONE : LogFieldSet := 0.
Definition ALL : LogFieldSet := log_field_bit LogTransactionHash.
Definition of_field (f : LogField) : LogFieldSet := log_field_bit f.
Definition with_field (s : LogFieldSet) (f : LogField) : LogFieldSet := Z.lor s (log_field_bit f).
Definition contains (s : LogFieldSet) (f : LogField) : bool :=
  negb (Z.land s (log_field_bit f) =? 0).
Definition contains_all (s required : LogFieldSet) : bool := Z.land s required =? required.
Definition union (s t : LogFieldSet) : LogFieldSet := Z.lor s t.

(** [Deserialize] refuses bits that name no field ([u8] complement). *)
Definition of_bits (bits : Z) : option LogFieldSet :=
  if Z.land bits (Z.lxor u8_max ALL) =? 0 then Some bits else None.
End LogFieldSet.

(** ** Envelopes *)

Record HeaderEnvelope := MkHeader {
  rlp : option (list byte);
  transactions_root : option BlockHash;
  receipts_root : option BlockHash;
  withdrawals_root : option BlockHash;
  header_gas_limit : option Z;
  header_gas_used : option Z;
  base_fee_per_gas : option Quantity;
  header_blob_gas_used : option Z;
  excess_blob_gas : option Z;
  header_size_bytes : option Z;
  transaction_count : option Z;
  consensus_size_bytes : option Z;
}.

Record TransactionEnvelope := MkTransaction {
  tx_hash : TransactionHash;
  tx_type : Z;
  tx_index : Z;
  tx_encoded : option (list byte);
  tx_from : option Address;
  tx_to : option Address;
  tx_nonce : option Z;
  tx_gas_limit : option Z;
  tx_value : option Quantity;
  tx_input : option (list byte);
  max_fee_per_gas : option Quantity;
  max_priority_fee_per_gas : option Quantity;
  max_fee_per_blob_gas : option Quantity;
  blob_versioned_hashes : list BlockHash;
  tx_size_bytes : option Z;
}.

Record Log := MkLog {
  log_address : Address;
  log_topics : list (array 32);
  log_data : list byte;
  log_transaction_hash : option TransactionHash;
  log_transaction_index : Z;
  log_index : Z;
}.

Record ReceiptEnvelope := MkReceipt {
  receipt_transaction_hash : TransactionHash;
  receipt_transaction_type : Z;
  receipt_transaction_index : Z;
  receipt_encoded : option (list byte);
  success : option bool;
  receipt_gas_used : option Z;
  effective_gas_price : option Quantity;
  receipt_blob_gas_used : option Z;
  blob_gas_price : option Quantity;
  receipt_logs : list Log;
}.

Record Withdrawal := MkWithdrawal {
  withdrawal_index : Z;
  validator_index : Z;
  withdrawal_address : Address;
  amount_gwei : Z;
}.

Record BlobSidecar := MkSidecar {
  sidecar_transaction_hash : TransactionHash;
  sidecar_index : Z;
  versioned_hash : BlockHash;
  blob : list byte;
  commitment : list byte;
  proof : list byte;
}.

Record Trace := MkTrace {
  trace_transaction_hash : TransactionHash;
  trace_schema : string;
  trace_encoded : list byte;
}.

Record StateDiff := MkStateDiff {
  diff_address : Address;
  diff_schema : string;
  diff_encoded : list byte;
}.

Record BlockFrame := MkFrame {
  frame_chain_id : ChainId;
  frame_block : BlockRef;
  frame_finality : Finality;
  frame_header : Material HeaderEnvelope;
  frame_transactions : Material (list TransactionEnvelope);
  frame_receipts : Material (list ReceiptEnvelope);
  frame_logs : Material (list Log);
  frame_withdrawals : Material (list Withdrawal);
  frame_blob_sidecars : Material (list BlobSidecar);
  frame_traces : Material (list Trace);
  frame_state_diffs : Material (list StateDiff);
  frame_provenance : list Provenance;
  frame_verification : VerificationReport;
}.

(** [Option::is_none]. *)
Definition is_none {A} (o : option A) : bool :=
  match o with None => true | Some _ => false end.

(** [Option::is_some_and]. *)
Definition is_some_and {A} (o : option A) (f : A → bool) : bool :=
  match o with Some a => f a | None => false end.

(** [Option::is_none_or]. *)
Definition is_none_or {A} (o : option A) (f : A → bool) : bool :=
  match o with None => true | Some a => f a end.

Definition add_material {A} (m : Material A) (c : Capability)
    (acc : CapabilitySet * CapabilitySet) : CapabilitySet * CapabilitySet :=
  let '(present, complete) := acc in
  (if Material.is_present m then CapabilitySet.with_cap present c else present,
   if Material.is_complete m then CapabilitySet.with_cap complete c else complete).

Definition receipts_match (transactions : list TransactionEnvelope)
    (receipts : list ReceiptEnvelope) : bool :=
  (length transactions =? length receipts)%nat
  && forallb (λ '(transaction, receipt),
       bool_decide (receipt_transaction_hash receipt = tx_hash transaction)
       && (receipt_transaction_index receipt =? tx_index transaction)
       && (receipt_transaction_type receipt =? tx_type transaction))
       (zip transactions receipts).

Module BlockFrame.

Definition capabilities (f : BlockFrame) : FrameCapabilityReport :=
  let acc := (CapabilitySet.NONE, CapabilitySet.NONE) in
  let acc := add_material (frame_header f) Header acc in
  let acc := add_material (frame_transactions f) Transactions acc in
  let acc := add_material (frame_receipts f) Receipts acc in
  let acc := add_material (frame_logs f) Logs acc in
  let acc := add_material (frame_withdrawals f) Withdrawals acc in
  let acc := add_material (frame_blob_sidecars f) BlobSidecars acc in
  let acc := add_material (frame_traces f) Traces acc in
  let acc := add_material (frame_state_diffs f) StateDiffs acc in
  let '(present, complete) := acc in
  match consensus_anchor (frame_verification f) with
  | Some _ =>
      MkReport (CapabilitySet.with_cap present ConsensusFinality)
        (CapabilitySet.with_cap complete ConsensusFinality)
  | None => MkReport present complete
  end.

(** The first violation, checked group by group with early return. *)
Definition group_violation (f : BlockFrame) (groups : CapabilitySet) : option string :=
  let header := Material.as_present (frame_header f) in
  let transactions := default [] (Material.as_present (frame_transactions f)) in
  let receipts := Material.as_present (frame_receipts f) in
  let has c := CapabilitySet.contains groups c in
  if has Header
     && is_some_and header (λ h, is_none (header_gas_limit h) || is_none (header_gas_used h))
  then Some "header lacks gas limit or gas used"
  else if has Body
     && existsb (λ t, is_none (tx_nonce t) || is_none (tx_gas_limit t) || is_none (tx_value t))
          transactions
  then Some "transactions lack body fields"
  else if has Body && is_some_and header (λ h, is_none (transaction_count h))
  then Some "header lacks the transaction count"
  else if has Calldata && existsb (λ t, is_none (tx_input t)) transactions
  then Some "transactions lack calldata"
  else if has Senders && existsb (λ t, is_none (tx_from t)) transactions
  then Some "transactions lack senders"
  else if has BlobFields
     && existsb (λ t, (tx_type t =? 3)
          && (bool_decide (blob_versioned_hashes t = []) || is_none (max_fee_per_blob_gas t)))
          transactions
  then Some "blob transactions lack blob fields"
  else if has BlobFields
     && is_some_and receipts (λ rs,
          existsb (λ r, (receipt_transaction_type r =? 3) && is_none (receipt_blob_gas_used r)) rs)
  then Some "blob receipts lack blob gas used"
  else if has ReceiptOutcome
     && is_some_and receipts (λ rs,
          existsb (λ r, is_none (success r) || is_none (receipt_gas_used r)
            || is_none (effective_gas_price r)) rs)
  then Some "receipts lack outcome fields"
  else if has ReceiptOutcome
     && is_some_and receipts (λ rs, Material.is_present (frame_transactions f)
          && negb (receipts_match transactions rs))
  then Some "receipts do not match the transactions one to one"
  else if has BlockSize && is_some_and header (λ h, is_none (header_size_bytes h))
  then Some "header lacks the block size"
  else if has BlockSize && is_some_and header (λ h, is_none (transaction_count h))
  then Some "header lacks the transaction count"
  else None.

Definition validate_shape (f : BlockFrame) : result string () :=
  if frame_chain_id f =? 0 then Err "chain ID must be greater than zero"
  else if match Material.as_complete (frame_transactions f),
                Material.as_complete (frame_receipts f) with
          | Some transactions, Some receipts =>
              negb (length transactions =? length receipts)%nat
          | _, _ => false
          end
  then Err "complete transaction and receipt counts differ"
  else if VerificationReport.has_failures (frame_verification f)
  then Err "verification report contains a failed check"
  else if is_some_and (consensus_anchor (frame_verification f))
            (λ anchor, bool_decide (execution_block_hash anchor ≠ ref_hash (frame_block f)))
  then Err "consensus anchor refers to another execution block"
  else Ok ().

End BlockFrame.

(** ** Heap estimate

    [std::mem::size_of] of the element types is the compiler's layout, a
    parameter. *)
Record Layout := MkLayout {
  size_TransactionEnvelope : Z;
  size_ReceiptEnvelope : Z;
  size_Log : Z;
  size_Withdrawal : Z;
  size_BlobSidecar : Z;
  size_Trace : Z;
  size_StateDiff : Z;
}.

(** Sizes are those of a machine: non-negative. *)
Definition layout_ok (y : Layout) : Prop :=
  0 ≤ size_TransactionEnvelope y ∧ 0 ≤ size_ReceiptEnvelope y ∧ 0 ≤ size_Log y ∧
  0 ≤ size_Withdrawal y ∧ 0 ≤ size_BlobSidecar y ∧ 0 ≤ size_Trace y ∧ 0 ≤ size_StateDiff y.

(** [u64::try_from(length).unwrap_or(u64::MAX)]. *)
Definition dynamic_bytes (length : nat) : Z := Z.min u64_max (Z.of_nat length).

(** [size] is [size_of::<T>()]. *)
Definition vector_elements (size : Z) (length : nat) : Z :=
  sat_mul (dynamic_bytes length) (Z.min u64_max size).

Definition opt_bytes (o : option (list byte)) : Z :=
  match o with Some value => dynamic_bytes (length value) | None => 0 end.

Definition logs_heap_bytes (y : Layout) (logs : list Log) : Z :=
  sat_add (vector_elements (size_Log y) (length logs))
    (fold_left (λ total log,
       sat_add (sat_add total (vector_elements 32 (length (log_topics log))))
         (dynamic_bytes (length (log_data log)))) logs 0).

Definition map_or {A B} (d : B) (f : A → B) (o : option A) : B :=
  match o with Some a => f a | None => d end.

Definition estimated_heap_bytes (y : Layout) (f : BlockFrame) : Z :=
  let header := map_or 0 (λ h, opt_bytes (rlp h)) (Material.as_present (frame_header f)) in
  let transactions := map_or 0 (λ values,
    sat_add (vector_elements (size_TransactionEnvelope y) (length values))
      (fold_left (λ total transaction,
         sat_add (sat_add (sat_add total (opt_bytes (tx_encoded transaction)))
           (opt_bytes (tx_input transaction)))
           (vector_elements 32 (length (blob_versioned_hashes transaction)))) values 0))
    (Material.as_present (frame_transactions f)) in
  let receipts := map_or 0 (λ values,
    sat_add (vector_elements (size_ReceiptEnvelope y) (length values))
      (fold_left (λ total receipt,
         sat_add (sat_add total (opt_bytes (receipt_encoded receipt)))
           (logs_heap_bytes y (receipt_logs receipt))) values 0))
    (Material.as_present (frame_receipts f)) in
  let logs := map_or 0 (logs_heap_bytes y) (Material.as_present (frame_logs f)) in
  let withdrawals := map_or 0 (λ values,
    vector_elements (size_Withdrawal y) (length values))
    (Material.as_present (frame_withdrawals f)) in
  let sidecars := map_or 0 (λ values,
    sat_add (vector_elements (size_BlobSidecar y) (length values))
      (fold_left (λ total sidecar,
         sat_add (sat_add (sat_add total (dynamic_bytes (length (blob sidecar))))
           (dynamic_bytes (length (commitment sidecar))))
           (dynamic_bytes (length (proof sidecar)))) values 0))
    (Material.as_present (frame_blob_sidecars f)) in
  let traces := map_or 0 (λ values,
    sat_add (vector_elements (size_Trace y) (length values))
      (fold_left (λ total trace,
         sat_add (sat_add total (dynamic_bytes (String.length (trace_schema trace))))
           (dynamic_bytes (length (trace_encoded trace)))) values 0))
    (Material.as_present (frame_traces f)) in
  let state_diffs := map_or 0 (λ values,
    sat_add (vector_elements (size_StateDiff y) (length values))
      (fold_left (λ total diff,
         sat_add (sat_add total (dynamic_bytes (String.length (diff_schema diff))))
           (dynamic_bytes (length (diff_encoded diff)))) values 0))
    (Material.as_present (frame_state_diffs f)) in
  sat_add (sat_add (sat_add (sat_add (sat_add (sat_add (sat_add
    header transactions) receipts) logs) withdrawals) sidecars) traces) state_diffs.

(** *** The exact size it saturates *)

Definition exact_opt (o : option (list byte)) : Z :=
  match o with Some value => Z.of_nat (length value) | None => 0 end.

Definition exact_vec {A} (size : Z) (w : A → Z) (l : list A) : Z :=
  Z.of_nat (length l) * size + Z_sum (w <$> l).

Definition exact_logs (y : Layout) : list Log → Z :=
  exact_vec (size_Log y)
    (λ log, Z.of_nat (length (log_topics log)) * 32 + Z.of_nat (length (log_data log))).

Definition exact_tx (t : TransactionEnvelope) : Z :=
  exact_opt (tx_encoded t) + exact_opt (tx_input t)
    + Z.of_nat (length (blob_versioned_hashes t)) * 32.

Definition exact_receipt (y : Layout) (r : ReceiptEnvelope) : Z :=
  exact_opt (receipt_encoded r) + exact_logs y (receipt_logs r).

Definition exact_sidecar (s : BlobSidecar) : Z :=
  Z.of_nat (length (blob s)) + Z.of_nat (length (commitment s)) + Z.of_nat (length (proof s)).

Definition exact_trace (t : Trace) : Z :=
  Z.of_nat (String.length (trace_schema t)) + Z.of_nat (length (trace_encoded t)).

Definition exact_diff (d : StateDiff) : Z :=
  Z.of_nat (String.length (diff_schema d)) + Z.of_nat (length (diff_encoded d)).

Definition exact_present {A} (w : A → Z) (m : Material A) : Z :=
  map_or 0 w (Material.as_present m).

Definition exact_heap_bytes (y : Layout) (f : BlockFrame) : Z :=
  exact_present (λ h, exact_opt (rlp h)) (frame_header f)
  + exact_present (exact_vec (size_TransactionEnvelope y) exact_tx) (frame_transactions f)
  + exact_present (exact_vec (size_ReceiptEnvelope y) (exact_receipt y)) (frame_receipts f)
  + exact_present (exact_logs y) (frame_logs f)
  + exact_present (exact_vec (size_Withdrawal y) (λ _, 0)) (frame_withdrawals f)
  + exact_present (exact_vec (size_BlobSidecar y) exact_sidecar) (frame_blob_sidecars f)
  + exact_present (exact_vec (size_Trace y) exact_trace) (frame_traces f)
  + exact_present (exact_vec (size_StateDiff y) exact_diff) (frame_state_diffs f).

Lemma exact_opt_nonneg o : 0 ≤ exact_opt o.
Proof. destruct o; cbn; lia. Qed.

Lemma exact_vec_nonneg {A} size (w : A → Z) l :
  0 ≤ size → (∀ x, 0 ≤ w x) → 0 ≤ exact_vec size w l.
Proof.
  intros Hs Hw. unfold exact_vec. assert (0 ≤ Z_sum (w <$> l)); [|nia].
  apply Z_sum_nonneg, Forall_fmap, Forall_true. intros x. apply Hw.
Qed.

Lemma exact_present_nonneg {A} (w : A → Z) m : (∀ x, 0 ≤ w x) → 0 ≤ exact_present w m.
Proof. intros Hw. destruct m; cbn; auto with lia. Qed.

Lemma opt_bytes_saturate o : opt_bytes o = saturate (exact_opt o).
Proof. by destruct o. Qed.

Lemma vector_elements_saturate size n :
  0 ≤ size → vector_elements size n = saturate (Z.of_nat n * size).
Proof. intros. unfold vector_elements. apply (sat_mul_saturate (Z.of_nat n) size); lia. Qed.

(** A counted vector of saturating weights saturates its exact size. *)
Lemma vec_saturate {A} size (step : Z → A → Z) (w : A → Z) l :
  (∀ t x, 0 ≤ t → step (saturate t) x = saturate (t + w x)) →
  (∀ x, 0 ≤ w x) → 0 ≤ size →
  sat_add (vector_elements size (length l)) (fold_left step l 0) = saturate (exact_vec size w l).
Proof.
  intros Hstep Hw Hs. change (fold_left step l 0) with (fold_left step l (saturate 0)).
  rewrite (saturate_fold step w) by (done || lia).
  rewrite vector_elements_saturate, sat_add_saturate by
    (try apply Z.add_nonneg_nonneg; try apply Z_sum_nonneg, Forall_fmap, Forall_true; auto; nia).
  done.
Qed.

Lemma present_saturate {A} (g w : A → Z) m :
  (∀ x, g x = saturate (w x)) → map_or 0 g (Material.as_present m) = saturate (exact_present w m).
Proof. intros Hg. by destruct m; cbn. Qed.

Lemma exact_logs_nonneg y l : 0 ≤ size_Log y → 0 ≤ exact_logs y l.
Proof. intros. apply exact_vec_nonneg; [done|lia]. Qed.

(** Side conditions of the saturation lemmas. *)
Ltac nonneg :=
  intros; repeat first
    [ progress intros | progress cbv beta | done | lia
    | lazymatch goal with
      | |- 0 ≤ exact_opt _ => apply exact_opt_nonneg
      | |- 0 ≤ exact_present _ _ => apply exact_present_nonneg
      | |- 0 ≤ exact_logs _ _ => apply exact_logs_nonneg
      | |- 0 ≤ exact_vec _ _ _ => apply exact_vec_nonneg
      | |- 0 ≤ exact_tx _ => unfold exact_tx
      | |- 0 ≤ exact_receipt _ _ => unfold exact_receipt
      | |- 0 ≤ exact_sidecar _ => unfold exact_sidecar
      | |- 0 ≤ exact_trace _ => unfold exact_trace
      | |- 0 ≤ exact_diff _ => unfold exact_diff
      | |- 0 ≤ _ + _ => apply Z.add_nonneg_nonneg
      end ].

(** One saturating step of a fold. *)
Ltac heap_step :=
  intros; unfold exact_tx, exact_sidecar, exact_trace, exact_diff;
  rewrite ?opt_bytes_saturate, ?vector_elements_saturate by lia;
  repeat match goal with
  | |- context [dynamic_bytes ?n] => change (dynamic_bytes n) with (saturate (Z.of_nat n))
  end;
  rewrite !sat_add_saturate by nonneg; f_equal; lia.

Lemma logs_saturate y l : 0 ≤ size_Log y → logs_heap_bytes y l = saturate (exact_logs y l).
Proof. intros. apply vec_saturate; [heap_step|nonneg|done]. Qed.

Lemma receipts_saturate y l :
  0 ≤ size_Log y → 0 ≤ size_ReceiptEnvelope y →
  sat_add (vector_elements (size_ReceiptEnvelope y) (length l))
    (fold_left (λ total receipt,
       sat_add (sat_add total (opt_bytes (receipt_encoded receipt)))
         (logs_heap_bytes y (receipt_logs receipt))) l 0)
  = saturate (exact_vec (size_ReceiptEnvelope y) (exact_receipt y) l).
Proof.
  intros. apply vec_saturate; [|nonneg|done]. intros t r Ht. unfold exact_receipt.
  rewrite opt_bytes_saturate, logs_saturate, !sat_add_saturate by nonneg. f_equal. lia.
Qed.

Lemma unweighted_saturate {A} size (l : list A) :
  0 ≤ size → vector_elements size (length l) = saturate (exact_vec size (λ _, 0) l).
Proof.
  intros. rewrite vector_elements_saturate by done. unfold exact_vec.
  assert (Z_sum ((λ _, 0) <$> l) = 0) as ->; [by induction l|]. f_equal. lia.
Qed.

(** The heap estimate never overflows and is never wrong below its cap:
    it is the exact byte count of the present material's dynamic parts,
    saturated at [u64::MAX]. *)
Theorem heap_estimate_exact y f (Hy : layout_ok y) :
  estimated_heap_bytes y f = Z.min u64_max (exact_heap_bytes y f).
Proof.
  destruct Hy as (Ht & Hr & Hl & Hw & Hs & Htr & Hd).
  unfold estimated_heap_bytes, exact_heap_bytes. cbn zeta.
  rewrite (present_saturate _ _ (frame_header f) (λ h, opt_bytes_saturate (rlp h))).
  rewrite (present_saturate _ (exact_vec (size_TransactionEnvelope y) exact_tx))
    by (intros; apply vec_saturate; [heap_step|nonneg|done]).
  rewrite (present_saturate _ (exact_vec (size_ReceiptEnvelope y) (exact_receipt y)))
    by (intros; by apply receipts_saturate).
  rewrite (present_saturate _ (exact_logs y)) by (intros; by apply logs_saturate).
  rewrite (present_saturate _ (exact_vec (size_Withdrawal y) (λ _, 0)))
    by (intros; by apply unweighted_saturate).
  rewrite (present_saturate _ (exact_vec (size_BlobSidecar y) exact_sidecar))
    by (intros; apply vec_saturate; [heap_step|nonneg|done]).
  rewrite (present_saturate _ (exact_vec (size_Trace y) exact_trace))
    by (intros; apply vec_saturate; [heap_step|nonneg|done]).
  rewrite (present_saturate _ (exact_vec (size_StateDiff y) exact_diff))
    by (intros; apply vec_saturate; [heap_step|nonneg|done]).
  rewrite !sat_add_saturate
    by nonneg.
  done.
Qed.

(** A frame with one header of 7 RLP bytes and one withdrawal. *)
Definition sample_frame : BlockFrame :=
  MkFrame 1 (MkBlockRef 9 (array_fill 32 x09) (array_fill 32 x08) 100) Attested
    (Complete (MkHeader (Some (replicate 7 x00)) None None None (Some 30) (Some 21) None None
       None (Some 600) (Some 0) None))
    (Missing NotRequested) (Missing NotRequested) (Missing NotRequested)
    (Complete [MkWithdrawal 0 1 (array_fill 20 x05) 3])
    (Missing NotRequested) (Missing NotRequested) (Missing NotRequested) []
    VerificationReport.default.

(** The witness of [heap_estimate_exact]. *)
Lemma heap_estimate_exact_witness :
  let y := MkLayout 500 200 150 48 120 64 68 in
  estimated_heap_bytes y sample_frame = 55.
Proof.
  cbn zeta. rewrite (heap_estimate_exact _ sample_frame); [vm_compute; reflexivity|].
  unfold layout_ok; cbn; lia.
Defined.

(** ** What the capability report says *)

Lemma contains_add_present {A} (m : Material A) c acc d :
  CapabilitySet.contains (add_material m c acc).1 d =
    CapabilitySet.contains acc.1 d || (Material.is_present m && bool_decide (d = c)).
Proof.
  destruct acc as [p k]; cbn. destruct (Material.is_present m); cbn;
    by rewrite ?CapabilitySet.contains_with, ?orb_false_r.
Qed.

Lemma contains_add_complete {A} (m : Material A) c acc d :
  CapabilitySet.contains (add_material m c acc).2 d =
    CapabilitySet.contains acc.2 d || (Material.is_complete m && bool_decide (d = c)).
Proof.
  destruct acc as [p k]; cbn. destruct (Material.is_complete m); cbn;
    by rewrite ?CapabilitySet.contains_with, ?orb_false_r.
Qed.

(** The component a capability names, tested by [p] on its material. *)
Definition component (p : ∀ A, Material A → bool) (f : BlockFrame) (c : Capability) : bool :=
  match c with
  | Header => p _ (frame_header f)
  | Transactions => p _ (frame_transactions f)
  | Receipts => p _ (frame_receipts f)
  | Logs => p _ (frame_logs f)
  | Withdrawals => p _ (frame_withdrawals f)
  | BlobSidecars => p _ (frame_blob_sidecars f)
  | Traces => p _ (frame_traces f)
  | StateDiffs => p _ (frame_state_diffs f)
  | ConsensusFinality => negb (is_none (consensus_anchor (frame_verification f)))
  | _ => false
  end.

Lemma capabilities_accumulated f :
  ∃ acc,
    BlockFrame.capabilities f =
      (if is_none (consensus_anchor (frame_verification f)) then MkReport acc.1 acc.2
       else MkReport (CapabilitySet.with_cap acc.1 ConsensusFinality)
              (CapabilitySet.with_cap acc.2 ConsensusFinality)) ∧
    acc = add_material (frame_state_diffs f) StateDiffs
      (add_material (frame_traces f) Traces
      (add_material (frame_blob_sidecars f) BlobSidecars
      (add_material (frame_withdrawals f) Withdrawals
      (add_material (frame_logs f) Logs
      (add_material (frame_receipts f) Receipts
      (add_material (frame_transactions f) Transactions
      (add_material (frame_header f) Header (CapabilitySet.NONE, CapabilitySet.NONE)))))))).
Proof.
  eexists; split; [|reflexivity]. unfold BlockFrame.capabilities. cbn zeta.
  set (acc := add_material (frame_state_diffs f) _ _). destruct acc as [p k].
  by destruct (consensus_anchor _).
Qed.

(** The report is exact: a capability is reported present, respectively
      complete, exactly when the frame holds that component's material,
      respectively holds all of it; so complete implies present. *)
Theorem capabilities_exact f c :
  CapabilitySet.contains (present (BlockFrame.capabilities f)) c
    = component (@Material.is_present) f c ∧
  CapabilitySet.contains (complete (BlockFrame.capabilities f)) c
    = component (@Material.is_complete) f c ∧
  (component (@Material.is_complete) f c = true → component (@Material.is_present) f c = true).
Proof.
  destruct (capabilities_accumulated f) as (acc & -> & ->). split_and!.
  - destruct (is_none _) eqn:Hn; cbn [present];
      rewrite ?CapabilitySet.contains_with, !contains_add_present, CapabilitySet.contains_NONE;
      destruct c; cbn; rewrite ?Hn, ?andb_true_r, ?andb_false_r, ?orb_false_r; done.
  - destruct (is_none _) eqn:Hn; cbn [complete];
      rewrite ?CapabilitySet.contains_with, !contains_add_complete, CapabilitySet.contains_NONE;
      destruct c; cbn; rewrite ?Hn, ?andb_true_r, ?andb_false_r, ?orb_false_r; done.
  - destruct c; cbn; try done; by match goal with |- context [Material.is_complete ?m] => destruct m end.
Qed.

(** ** What a group promises *)

Definition header_of (f : BlockFrame) : option HeaderEnvelope :=
  Material.as_present (frame_header f).
Definition transactions_of (f : BlockFrame) : list TransactionEnvelope :=
  default [] (Material.as_present (frame_transactions f)).
Definition receipts_of (f : BlockFrame) : option (list ReceiptEnvelope) :=
  Material.as_present (frame_receipts f).

(** The fields a capability's documentation guarantees on the material that
    is present. *)
Definition promises (f : BlockFrame) (c : Capability) : Prop :=
  match c with
  | Header => ∀ h, header_of f = Some h →
      is_Some (header_gas_limit h) ∧ is_Some (header_gas_used h)
  | Body =>
      (∀ t, t ∈ transactions_of f →
        is_Some (tx_nonce t) ∧ is_Some (tx_gas_limit t) ∧ is_Some (tx_value t)) ∧
      (∀ h, header_of f = Some h → is_Some (transaction_count h))
  | Calldata => ∀ t, t ∈ transactions_of f → is_Some (tx_input t)
  | Senders => ∀ t, t ∈ transactions_of f → is_Some (tx_from t)
  | BlobFields =>
      (∀ t, t ∈ transactions_of f → tx_type t = 3 →
        blob_versioned_hashes t ≠ [] ∧ is_Some (max_fee_per_blob_gas t)) ∧
      (∀ rs r, receipts_of f = Some rs → r ∈ rs → receipt_transaction_type r = 3 →
        is_Some (receipt_blob_gas_used r))
  | ReceiptOutcome => ∀ rs, receipts_of f = Some rs →
      (∀ r, r ∈ rs → is_Some (success r) ∧ is_Some (receipt_gas_used r) ∧
        is_Some (effective_gas_price r)) ∧
      (Material.is_present (frame_transactions f) = true →
        Forall2 (λ t r, receipt_transaction_hash r = tx_hash t ∧
          receipt_transaction_index r = tx_index t ∧
          receipt_transaction_type r = tx_type t) (transactions_of f) rs)
  | BlockSize => ∀ h, header_of f = Some h →
      is_Some (header_size_bytes h) ∧ is_Some (transaction_count h)
  | _ => True
  end.

Lemma is_none_false {A} (o : option A) : is_none o = false ↔ is_Some o.
Proof. destruct o; cbn; [naive_solver|]. split; [done|by intros []]. Qed.

Lemma existsb_false {A} (g : A → bool) l : existsb g l = false ↔ ∀ x, x ∈ l → g x = false.
Proof.
  rewrite <-not_true_iff_false, existsb_spec. setoid_rewrite <-not_true_iff_false. naive_solver.
Qed.

Lemma is_some_and_false {A} (o : option A) g :
  is_some_and o g = false ↔ ∀ a, o = Some a → g a = false.
Proof. destruct o; naive_solver. Qed.

Lemma receipts_match_spec ts rs :
  receipts_match ts rs = true ↔
  Forall2 (λ t r, receipt_transaction_hash r = tx_hash t ∧
    receipt_transaction_index r = tx_index t ∧ receipt_transaction_type r = tx_type t) ts rs.
Proof.
  unfold receipts_match. revert rs; induction ts as [|t ts IH]; intros [|r rs]; cbn.
  - split; [constructor|done].
  - split; [done|inversion 1].
  - split; [done|inversion 1].
  - rewrite Forall2_cons, <-IH, !andb_true_iff, bool_decide_eq_true, !Z.eqb_eq. tauto.
Qed.

Lemma impl_false (b c : bool) : (b && c = false) ↔ (b = true → c = false).
Proof. destruct b, c; naive_solver. Qed.

Lemma if_Some_None {A} (b : bool) (x : A) k :
  (if b then Some x else k) = None ↔ b = false ∧ k = None.
Proof. destruct b; naive_solver. Qed.

Lemma promise_header f :
  is_some_and (header_of f) (λ h, is_none (header_gas_limit h) || is_none (header_gas_used h))
    = false ↔ promises f Header.
Proof.
  rewrite is_some_and_false. cbn. do 2 (apply forall_proper; intros ?).
  by rewrite orb_false_iff, !is_none_false.
Qed.

Lemma promise_body f :
  existsb (λ t, is_none (tx_nonce t) || is_none (tx_gas_limit t) || is_none (tx_value t))
    (transactions_of f) = false ∧
  is_some_and (header_of f) (λ h, is_none (transaction_count h)) = false ↔ promises f Body.
Proof.
  rewrite is_some_and_false, existsb_false. cbn. f_equiv; do 2 (apply forall_proper; intros ?);
    rewrite ?orb_false_iff, ?is_none_false; tauto.
Qed.

Lemma promise_calldata f :
  existsb (λ t, is_none (tx_input t)) (transactions_of f) = false ↔ promises f Calldata.
Proof.
  rewrite existsb_false. cbn. do 2 (apply forall_proper; intros ?). by rewrite is_none_false.
Qed.

Lemma promise_senders f :
  existsb (λ t, is_none (tx_from t)) (transactions_of f) = false ↔ promises f Senders.
Proof.
  rewrite existsb_false. cbn. do 2 (apply forall_proper; intros ?). by rewrite is_none_false.
Qed.

Lemma promise_blobs f :
  existsb (λ t, (tx_type t =? 3)
    && (bool_decide (blob_versioned_hashes t = []) || is_none (max_fee_per_blob_gas t)))
    (transactions_of f) = false ∧
  is_some_and (receipts_of f) (λ rs,
    existsb (λ r, (receipt_transaction_type r =? 3) && is_none (receipt_blob_gas_used r)) rs)
    = false ↔ promises f BlobFields.
Proof.
  rewrite is_some_and_false, existsb_false. cbn. f_equiv.
  - do 2 (apply forall_proper; intros ?).
    by rewrite impl_false, Z.eqb_eq, orb_false_iff, bool_decide_eq_false, is_none_false.
  - split.
    + intros H rs r Hrs Hr Hty. specialize (H rs Hrs). rewrite existsb_false in H.
      specialize (H r Hr). rewrite impl_false, Z.eqb_eq, is_none_false in H. auto.
    + intros H rs Hrs. rewrite existsb_false. intros r Hr.
      rewrite impl_false, Z.eqb_eq, is_none_false. eauto.
Qed.

Lemma promise_outcome f :
  is_some_and (receipts_of f) (λ rs,
    existsb (λ r, is_none (success r) || is_none (receipt_gas_used r)
      || is_none (effective_gas_price r)) rs) = false ∧
  is_some_and (receipts_of f) (λ rs, Material.is_present (frame_transactions f)
    && negb (receipts_match (transactions_of f) rs)) = false ↔ promises f ReceiptOutcome.
Proof.
  rewrite !is_some_and_false. cbn. destruct (receipts_of f) as [rs|]; [|naive_solver].
  assert (∀ P : _ → Prop, (∀ a, Some rs = Some a → P a) ↔ P rs) as Hsome by naive_solver.
  rewrite !Hsome, impl_false, negb_false_iff, receipts_match_spec, existsb_false.
  f_equiv. do 2 (apply forall_proper; intros ?). rewrite !orb_false_iff, !is_none_false. tauto.
Qed.

Lemma promise_size f :
  is_some_and (header_of f) (λ h, is_none (header_size_bytes h)) = false ∧
  is_some_and (header_of f) (λ h, is_none (transaction_count h)) = false ↔ promises f BlockSize.
Proof.
  rewrite !is_some_and_false. setoid_rewrite is_none_false. cbn. naive_solver.
Qed.

(** [group_violation] enforces the documented promises and nothing else:
    it passes a frame exactly when every requested group's fields are filled
    on the material that is present. *)
Lemma group_violation_None f groups :
  BlockFrame.group_violation f groups = None ↔
  ∀ c, CapabilitySet.contains groups c = true → promises f c.
Proof.
  unfold BlockFrame.group_violation. fold (header_of f) (transactions_of f) (receipts_of f).
  cbn zeta. rewrite !if_Some_None, !impl_false.
  pose proof (promise_header f). pose proof (promise_body f). pose proof (promise_calldata f).
  pose proof (promise_senders f). pose proof (promise_blobs f). pose proof (promise_outcome f).
  pose proof (promise_size f). split.
  - intros Hg c Hc. destruct c; try exact I; tauto.
  - intros Hg. pose proof (Hg Header). pose proof (Hg Body). pose proof (Hg Calldata).
    pose proof (Hg Senders). pose proof (Hg BlobFields). pose proof (Hg ReceiptOutcome).
    pose proof (Hg BlockSize). clear Hg. tauto.
Qed.
