(* ===== verification/SourceContract.v ===== *)
(** * Source requests, plans and budgets

    Models the pure part of [crates/source-api/src/contract.rs]: requests and
    their effective filter, finality models, descriptors, chunks, plans and
    their validation, budgets, and the attested-head publisher. *)
From Stdlib Require Import ZArith Lia Strings.Byte.
From stdpp Require Import gmap strings list list_numbers.
From S2P Require Import Prelude Bytes Chain Capability Material Provenance Frame.

(** [Duration], in nanoseconds. *)
Abbreviation Duration := Z.

Record FieldProjection := MkFieldProjection {
  header_fields : list string;
  transaction_fields : list string;
  receipt_fields : list string;
  proj_log_fields : list string;
}.

Record FilterSet := MkFilterSet {
  filter_scope_of : FilterScope;
  filter_senders : list Address;
  filter_recipients : list Address;
}.

Inductive VerificationPolicy := CompleteCryptographic | PolicyTrustedDataset | BestEffort.

Record DataRequest := MkDataRequest {
  request_chain_id : ChainId;
  request_range : BlockRange;
  required : CapabilitySet;
  request_log_fields : LogFieldSet;
  request_allow_filtered : bool;
  request_projection : FieldProjection;
  filters : FilterSet;
  request_minimum_finality : Finality;
  verification_policy : VerificationPolicy;
}.

Definition effective_scope (fs : FilterSet) : FilterScope :=
  let scope := filter_scope_of fs in
  MkFilterScope (block_range scope) (addresses scope) (topics scope)
    (transaction_hashes scope) (transaction_types scope)
    (if bool_decide (senders scope = []) then filter_senders fs else senders scope)
    (if bool_decide (recipients scope = []) then filter_recipients fs else recipients scope).

Definition filter_scope (r : DataRequest) : option FilterScope :=
  if request_allow_filtered r then
    let scope := effective_scope (filters r) in
    if bool_decide (scope ≠ scope_default) then Some scope else None
  else None.

Inductive FinalityModel := ModelNone | ModelAttested | ModelFinalized.

Definition supports (m : FinalityModel) (level : Finality) : bool :=
  match m with
  | ModelNone => false
  | ModelAttested => negb (bool_decide (level = Finalized))
  | ModelFinalized => true
  end.

Inductive Partitioning :=
  | PartNone
  | FixedBlockSpan (blocks : Z)
  | DatasetObjects
  | SourceDefined (name : string).

Record SourceDescriptor := MkSourceDescriptor {
  desc_id : SourceId;
  desc_kind : SourceKind;
  desc_chain_id : ChainId;
  desc_range : option BlockRange;
  desc_capabilities : CapabilitySet;
  complete_capabilities : CapabilitySet;
  desc_trust : TrustModel;
  desc_finality : FinalityModel;
  partitioning : Partitioning;
  expected_lag : Duration;
  desc_schema_version : string;
  priority : Z;
}.

Record SourceChunk := MkSourceChunk {
  chunk_source_id : SourceId;
  chunk_range : BlockRange;
  partition : list byte;
  chunk_schema_version : string;
  expected_parent : option BlockHash;
  chunk_estimated_bytes : option Z;
}.

(** The diagnostic [physical_plan] is left out of the plan: nothing reads it
    to decide. *)
Record SourcePlan := MkSourcePlan {
  plan_source_id : SourceId;
  plan_request : DataRequest;
  chunks : list SourceChunk;
  plan_estimated_bytes : option Z;
  estimated_lag : Duration;
  supplied : CapabilitySet;
  plan_complete : CapabilitySet;
  plan_trust : TrustModel;
  plan_schema_version : string;
}.

(** The errors these functions return. *)
Inductive SourceError :=
  | SchemaDrift (expected actual : string)
  | InvalidBudget
  | InvalidPlan (detail : string).

#[export] Instance SourceError_eq_dec : EqDecision SourceError.
Proof. solve_decision. Defined.

(** One iteration of the loop over the chunks; the state is [next]. *)
Definition validate_chunk (plan : SourcePlan) (next : Z) (chunk : SourceChunk)
    : result SourceError Z :=
  if bool_decide (chunk_source_id chunk ≠ plan_source_id plan)
  then Err (InvalidPlan "chunk belongs to a different source")
  else if bool_decide (chunk_schema_version chunk ≠ plan_schema_version plan)
  then Err (SchemaDrift (plan_schema_version plan) (chunk_schema_version chunk))
  else if negb (range_start (chunk_range chunk) =? next)
          || (range_end (request_range (plan_request plan)) <? range_end (chunk_range chunk))
  then Err (InvalidPlan "chunks are not an exact ordered cover")
  else Ok (sat_add (range_end (chunk_range chunk)) 1).

Definition validate_plan (plan : SourcePlan) : result SourceError () :=
  if bool_decide (chunks plan = []) then Err (InvalidPlan "plan contains no chunks")
  else
    let range := request_range (plan_request plan) in
    next ← fold_result (validate_chunk plan) (range_start range) (chunks plan);
    if negb (next =? sat_add (range_end range) 1)
    then Err (InvalidPlan "chunks do not cover the complete request")
    else Ok ().

Record SourceBudget := MkSourceBudget {
  max_input_bytes : Z;
  max_frame_bytes : Z;
  max_frames : Z;
  max_buffered_frames : Z;
  max_in_flight_requests : Z;
  temporary_disk_bytes : Z;
  max_resident_bytes : Z;
}.

Definition validate_budget (b : SourceBudget) : result SourceError SourceBudget :=
  if (max_input_bytes b =? 0) || (max_frame_bytes b =? 0) || (max_frames b =? 0)
     || (max_buffered_frames b =? 0) || (max_in_flight_requests b =? 0)
     || (max_resident_bytes b =? 0)
  then Err InvalidBudget
  else Ok b.

(** [HistorySource::minimum_efficient_blocks], the default method. *)
Definition minimum_efficient_blocks (d : SourceDescriptor) : option Z :=
  match partitioning d with
  | FixedBlockSpan blocks => if negb (blocks =? 0) then Some blocks else None
  | _ => None
  end.

(** [HistorySource::slice_chunk], the default method. *)
Definition slice_chunk (chunk : SourceChunk) (range : BlockRange)
    : result SourceError SourceChunk :=
  if (range_start range <? range_start (chunk_range chunk))
     || (range_end (chunk_range chunk) <? range_end range)
  then Err (InvalidPlan "coalesced subrange exceeds its planned source chunk")
  else Ok (MkSourceChunk (chunk_source_id chunk) range (partition chunk)
    (chunk_schema_version chunk)
    (if negb (range_start range =? range_start (chunk_range chunk)) then None
     else expected_parent chunk)
    None).

(** ** The attested-head channel *)

Record AttestedHead := MkAttestedHead {
  head_beacon_slot : Z;
  head_beacon_block_root : array 32;
  head_block_number : BlockNumber;
  head_block_hash : BlockHash;
}.

(** [AttestedHeadPublisher::publish] on the watch channel's value: the new
    value and whether it was published. *)
Definition publish (latest : option AttestedHead) (head : AttestedHead)
    : option AttestedHead * bool :=
  if is_some_and latest (λ l, head_beacon_slot head <=? head_beacon_slot l)
  then (latest, false)
  else (Some head, true).

(** ** Plans are exact covers *)


(** The blocks of a list of chunks, in order. *)
Definition chunk_blocks (cs : list SourceChunk) : list BlockNumber :=
  cs ≫= (λ c, BlockRange.iter (chunk_range c)).

(** The chunk names the plan's source and schema. *)
Definition chunk_of_plan (plan : SourcePlan) (c : SourceChunk) : Prop :=
  chunk_source_id c = plan_source_id plan ∧ chunk_schema_version c = plan_schema_version plan.

Lemma validate_chunk_Ok plan next c stop :
  validate_chunk plan next c = Ok stop ↔
  chunk_of_plan plan c ∧ range_start (chunk_range c) = next ∧
  range_end (chunk_range c) ≤ range_end (request_range (plan_request plan)) ∧
  stop = sat_add (range_end (chunk_range c)) 1.
Proof.
  unfold validate_chunk, chunk_of_plan.
  destruct (bool_decide_reflect (chunk_source_id c ≠ plan_source_id plan)); [naive_solver|].
  destruct (bool_decide_reflect (chunk_schema_version c ≠ plan_schema_version plan)); [naive_solver|].
  destruct (Z.eqb_spec (range_start (chunk_range c)) next),
    (Z.ltb_spec (range_end (request_range (plan_request plan))) (range_end (chunk_range c)));
    cbn; split; try naive_solver lia.
  intros [= <-]. split_and!; try done; by apply dec_stable.
Qed.

Lemma seqZ_app_split s e n (He : s ≤ e + 1) (Hn : 0 ≤ n) :
  seqZ s (e - s + 1 + n) = seqZ s (e - s + 1) ++ seqZ (e + 1) n.
Proof. rewrite seqZ_app by lia. by replace (s + (e - s + 1)) with (e + 1) by lia. Qed.

Lemma seqZ_app_iff s m n (Hm : 0 ≤ m) l :
  seqZ s m ++ l = seqZ s n → 0 ≤ n → m ≤ n ∧ l = seqZ (s + m) (n - m).
Proof.
  intros Heq Hn. assert (m ≤ n) as Hle.
  { apply (f_equal length) in Heq. rewrite length_app, !length_seqZ in Heq. lia. }
  split; [done|]. replace n with (m + (n - m)) in Heq by lia.
  rewrite seqZ_app in Heq by lia. by apply app_inv_head in Heq.
Qed.

(** The loop over the chunks accepts exactly the lists whose blocks are the
    consecutive ones from [next] on. *)
Lemma validate_chunks_spec plan cs next stop
    (Hend : range_end (request_range (plan_request plan)) < u64_max) :
  Forall (λ c, BlockRange.valid (chunk_range c)) cs → next ≤ stop →
  stop ≤ range_end (request_range (plan_request plan)) + 1 →
  fold_result (validate_chunk plan) next cs = Ok stop ↔
  Forall (chunk_of_plan plan) cs ∧ chunk_blocks cs = seqZ next (stop - next).
Proof.
  intros Hv. revert next. induction Hv as [|c cs (Hs & He & Hle) Hv IH]; intros next Hns Hse; cbn.
  - split.
    + intros [= ->]. rewrite Z.sub_diag. done.
    + intros [_ Hnil]. f_equal. symmetry in Hnil. apply (f_equal length) in Hnil.
      rewrite length_seqZ in Hnil. cbn in Hnil. lia.
  - rewrite result_bind_Ok, Forall_cons. unfold BlockRange.iter at 1. split.
    + intros (next' & (Hc & <- & Hce & ->)%validate_chunk_Ok & Hf).
      replace (sat_add _ _) with (range_end (chunk_range c) + 1) in Hf by uints.
      assert (range_end (chunk_range c) + 1 ≤ stop) as Hge.
      { clear -Hf Hv Hend. revert Hf. generalize (range_end (chunk_range c) + 1).
        induction Hv as [|d cs (? & ? & ?) Hv IH]; intros z; cbn; [naive_solver lia|].
        intros (y & (_ & <- & ? & ->)%validate_chunk_Ok & Hy)%result_bind_Ok.
        apply IH in Hy. uints. }
      apply IH in Hf as [Hall Hb]; [|lia..]. split; [done|].
      change (cs ≫= _) with (chunk_blocks cs). rewrite Hb.
      rewrite <-seqZ_app_split by lia. by f_equal; lia.
    + intros [[Hc Hcs] Heq].
      assert (range_start (chunk_range c) = next) as Hn.
      { rewrite (seqZ_cons (range_start _)) in Heq by lia.
        destruct (decide (0 < stop - next)).
        - rewrite (seqZ_cons next) in Heq by lia. by injection Heq.
        - by rewrite (seqZ_nil next) in Heq by lia. }
      rewrite <-Hn in Heq. apply seqZ_app_iff in Heq as [Hm Heq]; [|lia..].
      exists (range_end (chunk_range c) + 1). split.
      * apply validate_chunk_Ok. split_and!; [done..|lia|uints].
      * apply IH; [lia..|]. split; [done|]. etrans; [exact Heq|]. by f_equal; lia.
Qed.

(** C33: below the last representable block, plan validation accepts exactly
    the nonempty plans whose chunks all name the plan's source and schema and
    whose blocks, concatenated in order, are the requested blocks: no gap,
    no overlap, no reordering, nothing outside the request. *)
Theorem validate_plan_exact plan
    (Hreq : BlockRange.valid (request_range (plan_request plan)))
    (Hend : range_end (request_range (plan_request plan)) < u64_max)
    (Hcs : Forall (λ c, BlockRange.valid (chunk_range c)) (chunks plan)) :
  validate_plan plan = Ok () ↔
  Forall (chunk_of_plan plan) (chunks plan) ∧
  chunk_blocks (chunks plan) = BlockRange.iter (request_range (plan_request plan)).
Proof.
  destruct Hreq as (Hs & He & Hle). unfold validate_plan, BlockRange.iter.
  set (r := request_range (plan_request plan)) in *.
  replace (sat_add (range_end r) 1) with (range_end r + 1) by uints.
  replace (range_end r - range_start r + 1) with (range_end r + 1 - range_start r) by lia.
  rewrite <-(validate_chunks_spec plan _ _ (range_end r + 1)) by (done || lia || (unfold r; lia)).
  destruct (bool_decide_reflect (chunks plan = [])) as [->|Hne]; cbn.
  { split; [done|]. intros [=]. lia. }
  rewrite result_bind_Ok. split.
  - intros (next & Hf & Hn). destruct (Z.eqb_spec next (range_end r + 1)) as [->|]; done.
  - intros Hf. eexists. split; [done|]. by rewrite Z.eqb_refl.
Qed.

(** A plan over the [Synthetic] source for the witnesses. *)
Definition sample_request (r : BlockRange) : DataRequest :=
  MkDataRequest 1 r CapabilitySet.NONE 0 false (MkFieldProjection [] [] [] [])
    (MkFilterSet scope_default [] []) Unattested BestEffort.
Definition sample_chunk (r : BlockRange) : SourceChunk :=
  MkSourceChunk (MkSourceId "s") r [] "1" None None.
Definition sample_plan (r : BlockRange) (cs : list BlockRange) : SourcePlan :=
  MkSourcePlan (MkSourceId "s") (sample_request r) (sample_chunk <$> cs) None 0
    CapabilitySet.NONE CapabilitySet.NONE Untrusted "1".

Lemma validate_plan_exact_witness :
  chunk_blocks (chunks (sample_plan (MkBlockRange 4 9) [MkBlockRange 4 6; MkBlockRange 7 9]))
  = [4; 5; 6; 7; 8; 9].
Proof.
  apply (validate_plan_exact (sample_plan (MkBlockRange 4 9) [MkBlockRange 4 6; MkBlockRange 7 9])).
  - unfold BlockRange.valid; cbn; uints.
  - cbn; uints.
  - repeat constructor; cbn; uints.
  - vm_compute. reflexivity.
Defined.

(** At the last representable block the saturated cursor no longer
    distinguishes "covered" from "one short": validation accepts a plan for
    [2^64-2 ..= 2^64-1] whose chunks stop at [2^64-2], and one that delivers
    the last block twice. *)
Theorem validate_plan_edge :
  let last := MkBlockRange u64_max u64_max in
  let range := MkBlockRange (u64_max - 1) u64_max in
  let short := sample_plan range [MkBlockRange (u64_max - 1) (u64_max - 1)] in
  let twice := sample_plan range [range; last] in
  validate_plan short = Ok () ∧ (u64_max ∉ chunk_blocks (chunks short)) ∧
  validate_plan twice = Ok () ∧ ¬ NoDup (chunk_blocks (chunks twice)).
Proof.
  split_and!; [reflexivity| |reflexivity|].
  - vm_compute. intros [Heq|[]%elem_of_nil]%elem_of_cons. done.
  - intros Hnd. vm_compute in Hnd. apply NoDup_cons in Hnd as [_ Hnd].
    apply NoDup_cons in Hnd as [Hnd _]. apply Hnd. set_solver.
Qed.

(** ** Slices of a chunk *)

Lemma slice_chunk_Ok c r s :
  slice_chunk c r = Ok s ↔
  range_start (chunk_range c) ≤ range_start r ∧ range_end r ≤ range_end (chunk_range c) ∧
  s = MkSourceChunk (chunk_source_id c) r (partition c) (chunk_schema_version c)
        (if range_start r =? range_start (chunk_range c) then expected_parent c else None) None.
Proof.
  unfold slice_chunk.
  destruct (Z.ltb_spec (range_start r) (range_start (chunk_range c))),
    (Z.ltb_spec (range_end (chunk_range c)) (range_end r)); cbn; try naive_solver lia.
  destruct (range_start r =? range_start (chunk_range c)); naive_solver lia.
Qed.

(** Slicing a chunk yields exactly the requested blocks, all of them the
    chunk's; it keeps the parent commitment only where the slice starts at the
    chunk's first block, so a commitment is never moved to another block; and
    slicing a slice is slicing the chunk once. *)
Theorem slice_chunk_sound c r s (Hs : slice_chunk c r = Ok s) :
  chunk_range s = r ∧
  (∀ b, b ∈ BlockRange.iter (chunk_range s) → b ∈ BlockRange.iter (chunk_range c)) ∧
  (∀ h, expected_parent s = Some h →
     expected_parent c = Some h ∧ range_start (chunk_range s) = range_start (chunk_range c)) ∧
  (∀ r' s', slice_chunk s r' = Ok s' → slice_chunk c r' = Ok s').
Proof.
  apply slice_chunk_Ok in Hs as (Hl & Hr & ->). cbn. split_and!; [done|..].
  - intros b. rewrite !BlockRange.elem_of_iter. lia.
  - intros h. destruct (Z.eqb_spec (range_start r) (range_start (chunk_range c))); naive_solver.
  - intros r' s' (Hl' & Hr' & ->)%slice_chunk_Ok. apply slice_chunk_Ok. cbn in *.
    split_and!; [lia|lia|]. f_equal.
    destruct (Z.eqb_spec (range_start r') (range_start r)),
      (Z.eqb_spec (range_start r) (range_start (chunk_range c))),
      (Z.eqb_spec (range_start r') (range_start (chunk_range c))); done || lia.
Qed.

Lemma slice_chunk_sound_witness :
  chunk_range (sample_chunk (MkBlockRange 5 6)) = MkBlockRange 5 6.
Proof.
  apply (slice_chunk_sound (sample_chunk (MkBlockRange 4 9)) (MkBlockRange 5 6)). reflexivity.
Defined.

(** ** Published heads only move forward *)

(** The channel after a sequence of heads. *)
Definition publish_all (latest : option AttestedHead) (heads : list AttestedHead)
    : option AttestedHead :=
  fold_left (λ l h, (publish l h).1) heads latest.

(** Whatever heads arrive, and in whatever order, the channel holds the
    first head that reached the highest slot seen: it is one of the heads
    offered, no offered slot exceeds it, and no earlier offer had its slot. *)
Theorem publish_latest heads (Hne : heads ≠ []) :
  ∃ before h after, heads = before ++ h :: after ∧
    publish_all None heads = Some h ∧
    (∀ h', h' ∈ before → head_beacon_slot h' < head_beacon_slot h) ∧
    (∀ h', h' ∈ after → head_beacon_slot h' ≤ head_beacon_slot h).
Proof.
  unfold publish_all. induction heads as [|x heads IH] using rev_ind; [done|].
  rewrite fold_left_app. cbn. destruct (decide (heads = [])) as [->|Hh].
  { exists [], x, []. cbn. split_and!; [done..| |]; by intros ? ?%elem_of_nil. }
  destruct (IH Hh) as (before & h & after & -> & -> & Hb & Ha). unfold publish; cbn.
  destruct (Z.leb_spec (head_beacon_slot x) (head_beacon_slot h)); cbn.
  - exists before, h, (after ++ [x]). rewrite <-app_assoc. split_and!; [done..|].
    intros h'. rewrite elem_of_app, list_elem_of_singleton. naive_solver lia.
  - exists (before ++ h :: after), x, []. split_and!; [done..| |by intros ? ?%elem_of_nil].
    intros h'. rewrite elem_of_app, elem_of_cons. intros [?%Hb|[->|?%Ha]]; lia.
Qed.

Lemma publish_latest_witness :
  ∃ before h after,
    [MkAttestedHead 3 hash_zero 7 hash_zero; MkAttestedHead 2 hash_zero 6 hash_zero]
      = before ++ h :: after ∧
    publish_all None [MkAttestedHead 3 hash_zero 7 hash_zero; MkAttestedHead 2 hash_zero 6 hash_zero]
      = Some h ∧
    (∀ h', h' ∈ before → head_beacon_slot h' < head_beacon_slot h) ∧
    (∀ h', h' ∈ after → head_beacon_slot h' ≤ head_beacon_slot h).
Proof. apply publish_latest. discriminate. Defined.
