(* ===== verification/Planner.v ===== *)
(** * Source selection and coverage gaps

    Models [crates/source-api/src/planner.rs]. *)
From Stdlib Require Import ZArith Lia Strings.Byte.
From stdpp Require Import gmap strings list list_numbers sorting.
From S2P Require Import Prelude Bytes Chain Capability Provenance Frame SourceContract.

Record SelectionPolicy := MkSelectionPolicy {
  minimum_trust : TrustModel;
  prefer_complete : bool;
}.

Definition policy_default : SelectionPolicy := MkSelectionPolicy TrustedDataset true.

Inductive PlanError :=
  | NoViableSource (rejected : list (SourceId * string)).

(** [required_trust] of [rejection_reason]. *)
Definition required_trust (v : VerificationPolicy) : TrustModel :=
  match v with
  | CompleteCryptographic => ProtocolVerified
  | PolicyTrustedDataset => TrustedDataset
  | BestEffort => Untrusted
  end.

(** The [supplied] set of [rejection_reason]. *)
Definition supplied_by (source : SourceDescriptor) (request : DataRequest) : CapabilitySet :=
  CapabilitySet.with_derivable
    (if request_allow_filtered request then desc_capabilities source
     else complete_capabilities source).

Definition rejection_reason (source : SourceDescriptor) (request : DataRequest)
    (policy : SelectionPolicy) : option string :=
  if negb (desc_chain_id source =? request_chain_id request) then Some "wrong chain"
  else if is_some_and (desc_range source) (λ range,
            (range_start (request_range request) <? range_start range)
            || (range_end range <? range_end (request_range request)))
  then Some "range is not fully covered"
  else if negb (CapabilitySet.contains_all (supplied_by source request) (required request))
  then Some ("missing capabilities 0x" +:+
         hex4 (Z.land (required request) (Z.lxor u16_max (supplied_by source request))))
  else if negb (supports (desc_finality source) (request_minimum_finality request))
  then Some "minimum finality is unavailable"
  else if trust_ltb (desc_trust source) (required_trust (verification_policy request))
          || trust_ltb (desc_trust source) (minimum_trust policy)
  then Some "trust policy is not met"
  else None.

(** The derived [Ord] of [SourceId]: the bytes of its text. *)
Definition source_id_cmp (a b : SourceId) : comparison :=
  string_cmp (source_id a) (source_id b).

Definition complete_for (request : DataRequest) (s : SourceDescriptor) : bool :=
  CapabilitySet.contains_all (CapabilitySet.with_derivable (complete_capabilities s))
    (required request).

Definition compare_sources (request : DataRequest) (policy : SelectionPolicy)
    (left right : SourceDescriptor) : comparison :=
  then_with
    (if prefer_complete policy
     then bool_cmp (complete_for request right) (complete_for request left)
     else Eq)
    (then_with
      (then_with (priority left ?= priority right) (expected_lag left ?= expected_lag right))
      (source_id_cmp (desc_id left) (desc_id right))).

(** The loop's two accumulators. *)
Definition viable_sources (sources : list SourceDescriptor) request policy
    : list SourceDescriptor :=
  List.filter (λ s, is_none (rejection_reason s request policy)) sources.
Definition rejected_sources (sources : list SourceDescriptor) request policy
    : list (SourceId * string) :=
  omap (λ s, (λ reason, (desc_id s, reason)) <$> rejection_reason s request policy) sources.

Definition select_source (sources : list SourceDescriptor) (request : DataRequest)
    (policy : SelectionPolicy) : result PlanError SourceDescriptor :=
  let viable := viable_sources sources request policy in
  let rejected := rejected_sources sources request policy in
  ok_or (head (sort_by (cmp_leb (compare_sources request policy)) viable))
    (NoViableSource rejected).

(** ** What is not covered yet *)

(** The code after the loop. *)
Definition gaps_finish (requested : BlockRange) (next : Z) (gaps : list BlockRange)
    : list BlockRange :=
  if next <=? range_end requested then
    match BlockRange.new next (range_end requested) with
    | Ok gap => gaps ++ [gap]
    | Err _ => gaps
    end
  else gaps.

(** The loop over the sorted ranges, from its state [next], [gaps]. *)
Fixpoint gaps_loop (requested : BlockRange) (ranges : list BlockRange) (next : Z)
    (gaps : list BlockRange) : list BlockRange :=
  match ranges with
  | [] => gaps_finish requested next gaps
  | range :: ranges =>
      let start := Z.max (range_start range) (range_start requested) in
      let stop := Z.min (range_end range) (range_end requested) in
      let gaps :=
        if next <? start then
          match BlockRange.new next (start - 1) with
          | Ok gap => gaps ++ [gap]
          | Err _ => gaps
          end
        else gaps in
      match checked_add stop 1 with
      | None => gaps
      | Some after =>
          let next := Z.max next after in
          if range_end requested <? next then gaps_finish requested next gaps
          else gaps_loop requested ranges next gaps
      end
  end.

Definition coverage_gaps (requested : BlockRange) (covered : list BlockRange)
    : list BlockRange :=
  let ranges := List.filter (λ range,
    (range_start requested <=? range_end range)
    && (range_start range <=? range_end requested)) covered in
  let ranges := sort_by (λ a b, range_start a <=? range_start b) ranges in
  gaps_loop requested ranges (range_start requested) [].

(** ** Selection *)

(** What the request asks of a source. *)
Record viable (source : SourceDescriptor) (request : DataRequest) (policy : SelectionPolicy)
    : Prop := MkViable {
  viable_chain : desc_chain_id source = request_chain_id request;
  viable_range : ∀ range, desc_range source = Some range → ∀ b,
    BlockRange.contains (request_range request) b = true → BlockRange.contains range b = true;
  viable_capabilities : ∀ c, CapabilitySet.contains (required request) c = true →
    CapabilitySet.contains (supplied_by source request) c = true;
  viable_finality : supports (desc_finality source) (request_minimum_finality request) = true;
  viable_trust : trust_level (required_trust (verification_policy request))
                   ≤ trust_level (desc_trust source) ∧
                 trust_level (minimum_trust policy) ≤ trust_level (desc_trust source);
}.

Lemma range_within_spec r q : BlockRange.valid q →
  (range_start q <? range_start r) || (range_end r <? range_end q) = false ↔
  ∀ b, BlockRange.contains q b = true → BlockRange.contains r b = true.
Proof.
  intros (? & ? & Hq). rewrite orb_false_iff, !Z.ltb_ge. setoid_rewrite BlockRange.contains_spec.
  split; [intros; lia|]. intros Hall.
  pose proof (Hall (range_start q)). pose proof (Hall (range_end q)). lia.
Qed.

(** [rejection_reason] finds no reason exactly for the sources that meet
    every requirement: same chain, every requested block advertised, every
    required capability supplied or derived, the finality level supported and
    both trust floors met. *)
Theorem rejection_reason_None source request policy
    (Hr : BlockRange.valid (request_range request)) (Hc : is_u16 (required request)) :
  rejection_reason source request policy = None ↔ viable source request policy.
Proof.
  unfold rejection_reason.
  destruct (Z.eqb_spec (desc_chain_id source) (request_chain_id request)); cbn;
    [|split; [done|by intros []]].
  destruct (is_some_and _ _) eqn:Hrange.
  { split; [done|]. intros Hv. destruct (desc_range source) as [r|] eqn:Hd; [|done].
    cbn in Hrange. pose proof (viable_range _ _ _ Hv r Hd) as H.
    apply range_within_spec in H; [congruence|done]. }
  destruct (CapabilitySet.contains_all _ _) eqn:Hcaps; cbn.
  2: { split; [done|]. intros Hv. pose proof (viable_capabilities _ _ _ Hv) as H.
       apply CapabilitySet.cap_contains_all_spec in H; [congruence|done]. }
  destruct (supports _ _) eqn:Hfin; cbn; [|split; [done|intros Hv; by rewrite (viable_finality _ _ _ Hv) in Hfin]].
  unfold trust_ltb. rewrite if_Some_None, orb_false_iff, !Z.ltb_ge.
  split; [intros ((H1 & H2) & _)|intros Hv; split; [exact (viable_trust _ _ _ Hv)|done]].
  split; try done.
  - intros r Hd. rewrite Hd in Hrange. by apply range_within_spec.
  - by apply CapabilitySet.cap_contains_all_spec.
Qed.

#[export] Instance source_id_comparator : Comparator source_id_cmp.
Proof. apply (on_comparator source_id string_cmp), _. Qed.

#[export] Instance const_eq_comparator {A} : Comparator (λ _ _ : A, Eq).
Proof. split; [done|]. congruence. Qed.

#[export] Instance compare_sources_comparator request policy :
  Comparator (compare_sources request policy).
Proof.
  unfold compare_sources. apply then_comparator.
  - destruct (prefer_complete policy); [|apply _].
    apply (on_comparator (complete_for request) (λ a b, bool_cmp b a)).
    apply (flip_comparator bool_cmp), (on_comparator Z.b2z Z.compare), _.
  - apply then_comparator; [apply then_comparator|].
    + apply (on_comparator priority Z.compare), _.
    + apply (on_comparator expected_lag Z.compare), _.
    + apply (on_comparator desc_id source_id_cmp), _.
Qed.

Lemma elem_of_viable s sources request policy :
  s ∈ viable_sources sources request policy ↔
  s ∈ sources ∧ rejection_reason s request policy = None.
Proof.
  unfold viable_sources. rewrite list_elem_of_In, filter_In, <-list_elem_of_In.
  unfold is_none. destruct (rejection_reason s request policy); naive_solver.
Qed.

(** [select_source] either returns the first, in the order given, of the
    best viable sources under [compare_sources], or fails with one reason for
    each source, and then every source has one. *)
Theorem select_source_best sources request policy :
  match select_source sources request policy with
  | Ok s => s ∈ sources ∧ rejection_reason s request policy = None ∧
      (∀ t, t ∈ sources → rejection_reason t request policy = None →
         compare_sources request policy s t ≠ Gt) ∧
      (∃ before after, viable_sources sources request policy = before ++ s :: after ∧
         ∀ t, t ∈ before → compare_sources request policy s t = Lt)
  | Err (NoViableSource rejected) =>
      rejected.*1 = desc_id <$> sources ∧
      (∀ t, t ∈ sources → ∃ reason, rejection_reason t request policy = Some reason ∧
         (desc_id t, reason) ∈ rejected)
  end.
Proof.
  unfold select_source. destruct (head _) as [s|] eqn:Hh; cbn.
  - apply sort_by_head in Hh as (before & after & Heq & Hb & Hall);
      [|apply cmp_leb_total; apply _|apply cmp_leb_trans; apply _].
    assert (s ∈ viable_sources sources request policy) as [Hs Hv]%elem_of_viable
      by (rewrite Heq; set_solver).
    split_and!; [done..| |].
    + intros t Ht Hvt. apply (cmp_leb_spec (compare_sources request policy)), Hall.
      by apply elem_of_viable.
    + exists before, after. split; [done|]. intros t Ht%Hb. by apply cmp_leb_false in Ht; [|apply _].
  - assert (viable_sources sources request policy = []) as Hnil.
    { destruct (sort_by _ _) eqn:Hs in Hh; [|done]. apply Permutation_nil.
      rewrite <-Hs. apply sort_by_perm. }
    assert (∀ t, t ∈ sources → ∃ reason, rejection_reason t request policy = Some reason) as Hr.
    { intros t Ht. destruct (rejection_reason t request policy) eqn:Hn; [eauto|].
      assert (t ∈ viable_sources sources request policy) as Hin by (by apply elem_of_viable).
      rewrite Hnil in Hin. by apply elem_of_nil in Hin. }
    unfold rejected_sources. split.
    + clear Hh Hnil. induction sources as [|t sources IH]; [done|].
      destruct (Hr t) as [reason Heq]; [set_solver|]. cbn. rewrite Heq. cbn. f_equal.
      apply IH. set_solver.
    + intros t Ht. destruct (Hr t Ht) as [reason Heq]. exists reason. split; [done|].
      apply list_elem_of_omap. exists t. split; [done|]. by rewrite Heq.
Qed.

(** ** Gaps *)

(** Ranges that are nonempty, ascending from [lo], and never adjacent. *)
Fixpoint separated (lo : Z) (gaps : list BlockRange) : Prop :=
  match gaps with
  | [] => True
  | g :: gaps => lo ≤ range_start g ≤ range_end g ∧ separated (range_end g + 2) gaps
  end.

Lemma separated_weaken lo lo' gaps : lo' ≤ lo → separated lo gaps → separated lo' gaps.
Proof. destruct gaps; cbn; [done|]. intros ? [? ?]. split; [lia|done]. Qed.

Definition in_ranges (rs : list BlockRange) (b : BlockNumber) : Prop :=
  Exists (λ r, BlockRange.contains r b = true) rs.

#[export] Instance in_ranges_dec rs b : Decision (in_ranges rs b).
Proof. unfold in_ranges. apply _. Defined.

Lemma in_ranges_elem rs b : in_ranges rs b ↔ ∃ r, r ∈ rs ∧ BlockRange.contains r b = true.
Proof. unfold in_ranges. by rewrite Exists_exists. Qed.

Lemma in_ranges_cons r rs b :
  in_ranges (r :: rs) b ↔ range_start r ≤ b ≤ range_end r ∨ in_ranges rs b.
Proof.
  unfold in_ranges. by rewrite Exists_cons, BlockRange.contains_spec.
Qed.

Lemma in_ranges_nil b : in_ranges [] b ↔ False.
Proof. unfold in_ranges. by rewrite Exists_nil. Qed.

Lemma gaps_loop_app requested ranges next gaps :
  gaps_loop requested ranges next gaps = gaps ++ gaps_loop requested ranges next [].
Proof.
  assert (∀ n g, gaps_finish requested n g = g ++ gaps_finish requested n []) as Hf.
  { intros n g. unfold gaps_finish. destruct (n <=? _), (BlockRange.new n (range_end requested)); cbn;
      by rewrite ?app_nil_r. }
  revert next gaps; induction ranges as [|r ranges IH]; intros next gaps; cbn; [apply Hf|].
  set (g1 := if next <? _ then _ else gaps). set (g2 := if next <? _ then _ else []).
  assert (g1 = gaps ++ g2) as ->.
  { unfold g1, g2. destruct (next <? _); [|by rewrite app_nil_r].
    destruct (BlockRange.new next _); cbn; by rewrite ?app_nil_r. }
  destruct (checked_add _ _) as [after|]; [|done].
  destruct (range_end requested <? _); [by rewrite Hf, (Hf _ g2), app_assoc|].
  by rewrite IH, (IH _ g2), app_assoc.
Qed.

Lemma gaps_finish_spec requested next :
  separated next (gaps_finish requested next []) ∧
  ∀ b, in_ranges (gaps_finish requested next []) b ↔ next ≤ b ≤ range_end requested.
Proof.
  unfold gaps_finish, BlockRange.new. destruct (Z.leb_spec next (range_end requested)); cbn.
  - split; [lia|]. intros b. rewrite in_ranges_cons, in_ranges_nil. cbn. tauto.
  - split; [done|]. intros b. rewrite in_ranges_nil. lia.
Qed.

(** A range met by the loop overlaps the request. *)
Definition overlaps (requested r : BlockRange) : Prop :=
  BlockRange.valid r ∧ range_start requested ≤ range_end r ∧ range_start r ≤ range_end requested.

(** The gap before [r] when the cursor is at [next]. *)
Definition gap_before (requested r : BlockRange) (next : Z) : list BlockRange :=
  if next <? Z.max (range_start r) (range_start requested)
  then [MkBlockRange next (Z.max (range_start r) (range_start requested) - 1)] else [].

(** One iteration: the gap before [r], then what the other ranges leave. *)
Lemma gap_step requested r ranges next rest :
  let stop := Z.min (range_end r) (range_end requested) in
  BlockRange.valid requested → overlaps requested r → range_start requested ≤ next →
  (∀ b, b < range_start r → ¬ in_ranges ranges b) →
  separated (Z.max next (stop + 1)) rest →
  (∀ b, in_ranges rest b ↔
     Z.max next (stop + 1) ≤ b ≤ range_end requested ∧ ¬ in_ranges ranges b) →
  separated next (gap_before requested r next ++ rest) ∧
  ∀ b, in_ranges (gap_before requested r next ++ rest) b ↔
    next ≤ b ≤ range_end requested ∧ ¬ in_ranges (r :: ranges) b.
Proof.
  cbn zeta. set (stop := Z.min _ _). intros (? & ? & ?) ((? & ? & ?) & ? & ?) Hn Hlow Hsep Hb.
  unfold gap_before. set (start := Z.max _ _).
  assert (start ≤ stop) as Hss by (unfold start, stop; lia).
  destruct (Z.ltb_spec next start) as [Hlt|Hge]; cbn [app].
  - split; [cbn; split; [lia|]; eapply separated_weaken; [|exact Hsep]; lia|].
    intros b. rewrite !in_ranges_cons, Hb. cbn [range_start range_end].
    destruct (decide (in_ranges ranges b)) as [Hb'|Hb'].
    + assert (range_start r ≤ b) by (apply Z.le_ngt; intros Hlt'; by apply (Hlow b)).
      unfold start, stop in *. split; [intros [?|[_ Hnot]]; [lia|done]|].
      intros [_ Hnot]. destruct Hnot. by right.
    + unfold start, stop in *. split; [intros Hcase; split; [lia|]; intros [?|?]; [lia|done]|].
      intros [? Hnot]. assert (¬ (range_start r ≤ b ≤ range_end r)) by tauto.
      destruct (Z.lt_ge_cases b (range_start r)); [left; lia|right; split; [lia|done]].
  - split; [eapply separated_weaken; [|exact Hsep]; lia|].
    intros b. rewrite Hb, !in_ranges_cons. unfold start, stop in *. split.
    + intros [? Hnot]. split; [lia|]. intros [?|?]; [lia|done].
    + intros [? Hnot]. assert (¬ (range_start r ≤ b ≤ range_end r)) by tauto.
      split; [lia|tauto].
Qed.

Lemma gaps_loop_spec requested ranges next :
  BlockRange.valid requested →
  Forall (overlaps requested) ranges →
  StronglySorted (λ a b, (range_start a <=? range_start b) = true) ranges →
  range_start requested ≤ next →
  separated next (gaps_loop requested ranges next []) ∧
  ∀ b, in_ranges (gaps_loop requested ranges next []) b ↔
       next ≤ b ≤ range_end requested ∧ ¬ in_ranges ranges b.
Proof.
  intros Hq Hall. revert next.
  induction Hall as [|r ranges Ho Hall IH]; intros next Hsorted Hnext.
  { cbn. destruct (gaps_finish_spec requested next) as [? Hb]. split; [done|].
    intros b. rewrite Hb, in_ranges_nil. tauto. }
  inversion_clear Hsorted as [|? ? Hsorted' Hmin].
  assert (∀ b, b < range_start r → ¬ in_ranges ranges b) as Hlow.
  { intros b Hb (s & Hin & Hc%BlockRange.contains_spec)%in_ranges_elem.
    rewrite Forall_forall in Hmin. specialize (Hmin s Hin). lia. }
  cbn [gaps_loop]. set (stop := Z.min (range_end r) (range_end requested)).
  replace (if next <? _ then _ else []) with (gap_before requested r next).
  2: { unfold gap_before, BlockRange.new. destruct (Z.ltb_spec next
         (Z.max (range_start r) (range_start requested))) as [Hlt|]; [|done].
       rewrite (proj2 (Z.leb_le _ _)) by lia. done. }
  pose proof Hq as (_ & Hu & _). pose proof (gap_step requested r ranges next) as Hstep.
  destruct (checked_add stop 1) as [after|] eqn:Hafter.
  2: { apply checked_add_None in Hafter. rewrite <-(app_nil_r (gap_before _ _ _)).
       apply Hstep; [done..|]. intros b. rewrite in_ranges_nil. unfold stop in *. uints. }
  apply checked_add_Some in Hafter as [-> _].
  destruct (Z.ltb_spec (range_end requested) (Z.max next (stop + 1))) as [Hd|Hd].
  - replace (gaps_finish _ _ _) with (gap_before requested r next ++ [])
      by (unfold gaps_finish; rewrite (proj2 (Z.leb_gt _ _)) by lia; by rewrite app_nil_r).
    apply Hstep; [done..|]. intros b. rewrite in_ranges_nil. unfold stop in *. lia.
  - rewrite gaps_loop_app. destruct (IH (Z.max next (stop + 1)) Hsorted') as [Hsep Hb]; [lia|].
    by apply Hstep.
Qed.

(** C36: [coverage_gaps] is the exact complement of the coverage inside the
    request, in canonical form: a block is in a gap exactly when it was
    requested and no covered range holds it, and the gaps are nonempty,
    ascending, disjoint and never adjacent. It holds for unsorted and
    overlapping coverage, up to the last representable block. *)
Theorem coverage_gaps_complement requested covered
    (Hr : BlockRange.valid requested) (Hc : Forall BlockRange.valid covered) :
  separated (range_start requested) (coverage_gaps requested covered) ∧
  ∀ b, in_ranges (coverage_gaps requested covered) b ↔
       BlockRange.contains requested b = true ∧ ¬ in_ranges covered b.
Proof.
  unfold coverage_gaps. set (rs := List.filter _ covered).
  assert (∀ r, r ∈ sort_by (λ a b, range_start a <=? range_start b) rs ↔
    r ∈ covered ∧ range_start requested ≤ range_end r ∧ range_start r ≤ range_end requested) as Hrs.
  { intros r. rewrite elem_of_sort_by. unfold rs.
    rewrite list_elem_of_In, filter_In, <-list_elem_of_In, andb_true_iff, !Z.leb_le. done. }
  destruct (gaps_loop_spec requested (sort_by (λ a b, range_start a <=? range_start b) rs)
    (range_start requested)) as [Hsep Hb].
  - done.
  - apply Forall_forall. intros r (Hin & ? & ?)%Hrs. split; [|done].
    by rewrite Forall_forall in Hc; apply Hc.
  - apply sort_by_sorted; lia.
  - done.
  - split; [done|]. intros b. rewrite Hb, BlockRange.contains_spec. split.
    + intros [Hbr Hn]. split; [done|]. intros (r & Hin & Hrb)%in_ranges_elem. apply Hn.
      apply in_ranges_elem. exists r. split; [|done]. apply Hrs. apply BlockRange.contains_spec in Hrb. split; [done|lia].
    + intros [Hbr Hn]. split; [done|]. intros (r & [Hin _]%Hrs & Hrb)%in_ranges_elem.
      apply Hn, in_ranges_elem. by exists r.
Qed.

Lemma coverage_gaps_complement_witness :
  coverage_gaps (MkBlockRange 10 20) [MkBlockRange 18 30; MkBlockRange 9 12; MkBlockRange 12 15]
    = [MkBlockRange 16 17] ∧
  separated 10
    (coverage_gaps (MkBlockRange 10 20) [MkBlockRange 18 30; MkBlockRange 9 12; MkBlockRange 12 15]).
Proof.
  split; [reflexivity|].
  apply (coverage_gaps_complement (MkBlockRange 10 20)
    [MkBlockRange 18 30; MkBlockRange 9 12; MkBlockRange 12 15]).
  - unfold BlockRange.valid; cbn; uints.
  - repeat constructor; cbn; uints.
Defined.

(** A finalized source for the witnesses. *)
Definition sample_source (id : string) (p : Z) (caps : CapabilitySet) : SourceDescriptor :=
  MkSourceDescriptor (MkSourceId id) Synthetic 1 (Some (MkBlockRange 1 100)) caps caps
    TrustedDataset ModelFinalized PartNone 0 "1" p.

Lemma rejection_reason_None_witness :
  viable (sample_source "a" 1 CapabilitySet.ALL) (sample_request (MkBlockRange 10 20))
    policy_default.
Proof.
  apply (rejection_reason_None (sample_source "a" 1 CapabilitySet.ALL)
    (sample_request (MkBlockRange 10 20)) policy_default).
  - unfold BlockRange.valid; cbn; uints.
  - cbn. unfold CapabilitySet.NONE. uints.
  - reflexivity.
Defined.

(** Both sources are viable; the lower [priority] wins whatever the order. *)
Example select_source_priority :
  select_source [sample_source "b" 2 0; sample_source "a" 1 0]
    (sample_request (MkBlockRange 10 20)) policy_default = Ok (sample_source "a" 1 0).
Proof. reflexivity. Qed.
