(* ===== verification/Durable.v ===== *)
(** * Durable envelopes and opaque cursors

    Models [crates/primitives/src/durable.rs] and
    [crates/primitives/src/cursor.rs]. The serializer (postcard), the digest
    (BLAKE3) and the text codec (hex) are third-party code: they are classes
    here, whose laws are the documented ones. *)
From Stdlib Require Import ZArith Lia Strings.Byte.
From stdpp Require Import gmap strings list list_numbers.
From S2P Require Import Prelude Bytes Chain Provenance.

(** [postcard::to_allocvec] and [postcard::from_bytes] at one type, with the
    error type of the crate. *)
Class Postcard (PE A : Type) := {
  to_allocvec : A → result PE (list byte);
  from_bytes : list byte → result PE A;
}.

(** A value that serializes deserializes to itself. *)
Class PostcardLaws PE A `{!Postcard PE A} : Prop := {
  from_to v payload : to_allocvec v = Ok payload → from_bytes payload = Ok v;
}.

(** [blake3::hash]. *)
Class Blake3 := blake3_hash : list byte → array 32.

(** [hex::encode] and [hex::decode]. *)
Class Hex (HE : Type) := {
  hex_encode : list byte → string;
  hex_decode : string → result HE (list byte);
}.
Class HexLaws HE `{!Hex HE} : Prop := {
  hex_decode_encode l : hex_decode (hex_encode l) = Ok l;
}.

Definition MAGIC : list byte := string_bytes "IDXN".
Definition ENVELOPE_VERSION : Z := 1.
Definition HEADER_LEN : nat := 16.
Definition CHECKSUM_LEN : nat := 32.
Definition BLOCK_FRAME_SCHEMA_VERSION : Z := 1.

Inductive DurableKind :=
  | DurableBlockRef | DurableBlockFrame | DurableProcessorCursor | DurableChangeCursor
  | DurableSourceCursor | ProcessorDelta | ProcessorArtifactExport.

#[export] Instance DurableKind_eq_dec : EqDecision DurableKind.
Proof. solve_decision. Defined.

(** The [repr(u16)] discriminant. *)
Definition kind_code (k : DurableKind) : Z :=
  match k with
  | DurableBlockRef => 1 | DurableBlockFrame => 2 | DurableProcessorCursor => 10
  | DurableChangeCursor => 11 | DurableSourceCursor => 12 | ProcessorDelta => 20
  | ProcessorArtifactExport => 21
  end.

Inductive DurableError (PE : Type) :=
  | Truncated
  | BadMagic
  | EnvelopeVersion (version : Z)
  | KindMismatch (expected actual : Z)
  | SchemaVersion (expected actual : Z)
  | Reserved
  | LengthMismatch (declared actual : Z)
  | Checksum
  | Oversized
  | EncodeError (e : PE)
  | DecodeError (e : PE).
Arguments Truncated {PE}.
Arguments BadMagic {PE}.
Arguments EnvelopeVersion {PE}.
Arguments KindMismatch {PE}.
Arguments SchemaVersion {PE}.
Arguments Reserved {PE}.
Arguments LengthMismatch {PE}.
Arguments Checksum {PE}.
Arguments Oversized {PE}.
Arguments EncodeError {PE}.
Arguments DecodeError {PE}.

(** [bytes[i..i + n]] for an in-range slice. *)
Definition slice (i n : nat) (l : list byte) : list byte := take n (drop i l).

Lemma slice_app i n j l : (i + n = j)%nat → slice i n l ++ drop j l = drop i l.
Proof. intros <-. unfold slice. rewrite <-drop_drop. apply take_drop. Qed.

Module Durable.
Section durable.
Context {PE A : Type} `{!Postcard PE A} `{!Blake3}.

(** The sixteen header bytes [encode] writes. *)
Definition header (kind : DurableKind) (schema_version payload_len : Z) : list byte :=
  MAGIC ++ be_bytes 2 ENVELOPE_VERSION ++ be_bytes 2 (kind_code kind)
  ++ be_bytes 2 schema_version ++ be_bytes 2 0 ++ be_bytes 4 payload_len.

Definition encode (kind : DurableKind) (schema_version : Z) (value : A)
    : result (DurableError PE) (list byte) :=
  payload ← map_err EncodeError (to_allocvec value);
  payload_len ← (if Z.of_nat (length payload) <=? u32_max
                 then Ok (Z.of_nat (length payload)) else Err Oversized);
  let output := header kind schema_version payload_len ++ payload in
  Ok (output ++ bytes_of (blake3_hash output)).

Definition decode (expected_kind : DurableKind) (expected_schema_version : Z)
    (bytes : list byte) : result (DurableError PE) A :=
  if (length bytes <? HEADER_LEN + CHECKSUM_LEN)%nat then Err Truncated
  else if bool_decide (take 4 bytes ≠ MAGIC) then Err BadMagic
  else
    let envelope_version := be_val (slice 4 2 bytes) in
    if negb (envelope_version =? ENVELOPE_VERSION) then Err (EnvelopeVersion envelope_version)
    else
      let kind := be_val (slice 6 2 bytes) in
      if negb (kind =? kind_code expected_kind)
      then Err (KindMismatch (kind_code expected_kind) kind)
      else
        let schema_version := be_val (slice 8 2 bytes) in
        if negb (schema_version =? expected_schema_version)
        then Err (SchemaVersion expected_schema_version schema_version)
        else if bool_decide (slice 10 2 bytes ≠ [x00; x00]) then Err Reserved
        else
          let payload_len := be_val (slice 12 4 bytes) in
          expected_len ← ok_or
            (checked_add (Z.of_nat HEADER_LEN) payload_len
               ≫= λ length, checked_add length (Z.of_nat CHECKSUM_LEN)) Oversized;
          if negb (Z.of_nat (length bytes) =? expected_len)
          then Err (LengthMismatch payload_len
                 (sat_sub (Z.of_nat (length bytes)) (Z.of_nat (HEADER_LEN + CHECKSUM_LEN))))
          else
            let checksum_start := (HEADER_LEN + Z.to_nat payload_len)%nat in
            let expected_checksum := blake3_hash (take checksum_start bytes) in
            if bool_decide (drop checksum_start bytes ≠ bytes_of expected_checksum)
            then Err Checksum
            else map_err DecodeError
                   (from_bytes (slice HEADER_LEN (Z.to_nat payload_len) bytes)).

(** The record [encode] writes for a serialized payload. *)
Definition envelope (kind : DurableKind) (schema_version : Z) (payload : list byte)
    : list byte :=
  let output := header kind schema_version (Z.of_nat (length payload)) ++ payload in
  output ++ bytes_of (blake3_hash output).

Lemma kind_code_u16 k : is_u16 (kind_code k).
Proof. destruct k; cbn; uints. Qed.

Lemma kind_code_inj j k : kind_code j = kind_code k → j = k.
Proof. by destruct j, k. Qed.

Lemma length_header k s n : length (header k s n) = HEADER_LEN.
Proof. unfold header. rewrite !length_app, !length_be_bytes. done. Qed.

Lemma encode_Ok k s v bytes :
  encode k s v = Ok bytes ↔
  ∃ payload, to_allocvec v = Ok payload ∧ Z.of_nat (length payload) ≤ u32_max ∧
    bytes = envelope k s payload.
Proof.
  unfold encode. rewrite result_bind_Ok. split.
  - intros (payload & Hp & (n & Hn & [= <-])%result_bind_Ok).
    destruct (to_allocvec v) as [p|] eqn:Hv; [|done]. injection Hp as ->.
    exists payload. destruct (Z.leb_spec (Z.of_nat (length payload)) u32_max); [|done].
    injection Hn as <-. done.
  - intros (payload & Hv & Hl & ->). exists payload. rewrite Hv. split; [done|].
    rewrite (proj2 (Z.leb_le _ _)) by done. done.
Qed.

(** The checks left once the sixteen header bytes have been matched. *)
Definition decode_body (payload_len : Z) (bytes : list byte) : result (DurableError PE) A :=
  expected_len ← ok_or
    (checked_add (Z.of_nat HEADER_LEN) payload_len
       ≫= λ length, checked_add length (Z.of_nat CHECKSUM_LEN)) Oversized;
  if negb (Z.of_nat (length bytes) =? expected_len)
  then Err (LengthMismatch payload_len
         (sat_sub (Z.of_nat (length bytes)) (Z.of_nat (HEADER_LEN + CHECKSUM_LEN))))
  else
    let checksum_start := (HEADER_LEN + Z.to_nat payload_len)%nat in
    if bool_decide (drop checksum_start bytes ≠ bytes_of (blake3_hash (take checksum_start bytes)))
    then Err Checksum
    else map_err DecodeError (from_bytes (slice HEADER_LEN (Z.to_nat payload_len) bytes)).

Lemma decode_on_header k' s' k s n rest :
  is_u16 s → is_u32 n → (CHECKSUM_LEN ≤ length rest)%nat →
  decode k' s' (header k s n ++ rest) =
    if negb (kind_code k =? kind_code k') then Err (KindMismatch (kind_code k') (kind_code k))
    else if negb (s =? s') then Err (SchemaVersion s' s)
    else decode_body n (header k s n ++ rest).
Proof.
  intros Hs Hn Hr. unfold decode.
  rewrite (proj2 (Nat.ltb_ge _ _)) by (rewrite length_app, length_header; lia).
  change (take 4 (header k s n ++ rest)) with MAGIC.
  rewrite bool_decide_eq_false_2 by (by intros []).
  change (slice 4 2 (header k s n ++ rest)) with (be_bytes 2 ENVELOPE_VERSION).
  change (slice 6 2 (header k s n ++ rest)) with (be_bytes 2 (kind_code k)).
  change (slice 8 2 (header k s n ++ rest)) with (be_bytes 2 s).
  change (slice 10 2 (header k s n ++ rest)) with [x00; x00].
  change (slice 12 4 (header k s n ++ rest)) with (be_bytes 4 n).
  rewrite !be_val_bytes_small by
    (first [apply u16_be_range, kind_code_u16 | apply u16_be_range, Hs
           | apply u32_be_range, Hn | apply u16_be_range; unfold ENVELOPE_VERSION; uints]).
  rewrite bool_decide_eq_false_2 by (by intros []). reflexivity.
Qed.

(** Records that pass the header checks start with the header. *)
Lemma decode_Ok_header k s v bytes :
  decode k s bytes = Ok v →
  ∃ n rest, bytes = header k s n ++ rest ∧ is_u16 s ∧ is_u32 n ∧ (CHECKSUM_LEN ≤ length rest)%nat.
Proof.
  unfold decode. destruct (Nat.ltb_spec (length bytes) (HEADER_LEN + CHECKSUM_LEN)) as [|Hlen]; [done|].
  destruct (bool_decide_reflect (take 4 bytes ≠ MAGIC)) as [|Hmagic]; [done|].
  destruct (Z.eqb_spec (be_val (slice 4 2 bytes)) ENVELOPE_VERSION) as [Hv|]; [|done].
  destruct (Z.eqb_spec (be_val (slice 6 2 bytes)) (kind_code k)) as [Hk|]; [|done].
  destruct (Z.eqb_spec (be_val (slice 8 2 bytes)) s) as [Hs|]; [|done].
  destruct (bool_decide_reflect (slice 10 2 bytes ≠ [x00; x00])) as [|Hz]; [done|]. cbn [negb].
  intros _. apply dec_stable in Hmagic, Hz.
  assert (∀ i n, (i + n ≤ 16)%nat → length (slice i n bytes) = n) as Hsl.
  { intros i n Hin. unfold slice. rewrite length_take, length_drop.
    unfold HEADER_LEN, CHECKSUM_LEN in Hlen. lia. }
  assert (∀ i n, (i + n ≤ 16)%nat → be_bytes n (be_val (slice i n bytes)) = slice i n bytes) as Hbe.
  { intros i n Hin. rewrite <-(Hsl i n) at 1 by done. apply be_bytes_val. }
  assert (∀ i n, (i + n ≤ 16)%nat → 0 ≤ be_val (slice i n bytes) < 256 ^ Z.of_nat n) as Hr.
  { intros i n Hin. rewrite <-(Hsl i n) at 3 by done. apply be_val_range. }
  exists (be_val (slice 12 4 bytes)), (drop 16 bytes). split_and!.
  - unfold header. rewrite <-Hmagic, <-Hv, <-Hk, <-Hs, (Hbe 12%nat 4%nat), !Hbe by lia.
    change (be_bytes 2 0) with [x00; x00]. rewrite <-Hz, <-!app_assoc.
    rewrite !slice_app, take_drop by done. done.
  - rewrite <-Hs. specialize (Hr 8%nat 2%nat ltac:(lia)).
    change (256 ^ Z.of_nat 2) with 65536 in Hr. uints.
  - specialize (Hr 12%nat 4%nat ltac:(lia)).
    change (256 ^ Z.of_nat 4) with 4294967296 in Hr. uints.
  - rewrite length_drop. unfold HEADER_LEN in Hlen. lia.
Qed.

Lemma decode_body_Ok k s n rest v (Hn : is_u32 n) :
  decode_body n (header k s n ++ rest) = Ok v ↔
  ∃ payload, Z.of_nat (length payload) = n ∧
    rest = payload ++ bytes_of (blake3_hash (header k s n ++ payload)) ∧
    from_bytes payload = Ok v.
Proof.
  unfold decode_body, checked_add.
  rewrite (proj2 (Z.leb_le (Z.of_nat HEADER_LEN + n) _)) by (unfold HEADER_LEN; uints).
  cbn [mbind option_bind].
  rewrite (proj2 (Z.leb_le _ _)) by (unfold HEADER_LEN, CHECKSUM_LEN; uints).
  cbn [ok_or mbind result_bind].
  rewrite !length_app, length_header.
  set (m := Z.to_nat n). assert (n = Z.of_nat m) as Hm by (unfold m; uints).
  assert (∀ l, take (HEADER_LEN + m) (header k s n ++ l) = header k s n ++ take m l) as Htake.
  { intros l. rewrite <-(length_header k s n). apply take_app_add. }
  assert (∀ l, drop (HEADER_LEN + m) (header k s n ++ l) = drop m l) as Hdrop.
  { intros l. rewrite <-(length_header k s n). apply drop_app_add. }
  assert (∀ l, slice HEADER_LEN m (header k s n ++ l) = take m l) as Hslice.
  { intros l. unfold slice. rewrite <-(length_header k s n), drop_app_length. done. }
  rewrite Htake, Hdrop, Hslice. clearbody m. split.
  - destruct (Z.eqb_spec (Z.of_nat (HEADER_LEN + length rest))
      (Z.of_nat HEADER_LEN + n + Z.of_nat CHECKSUM_LEN)) as [Hl|]; [|done]. cbn [negb].
    case_bool_decide as Hd; [done|].
    intros Hf. exists (take m rest). split_and!.
    + rewrite length_take. lia.
    + by rewrite <-Hd, take_drop.
    + by destruct (from_bytes (take m rest)); [injection Hf as ->|].
  - intros (payload & Hl & -> & Hf). assert (m = length payload) as -> by lia.
    rewrite take_app_length, drop_app_length, length_app, length_bytes_of.
    rewrite (proj2 (Z.eqb_eq _ _)) by (unfold HEADER_LEN, CHECKSUM_LEN; lia). cbn [negb].
    rewrite bool_decide_eq_false_2 by (by intros []). by rewrite Hf.
Qed.

Lemma decode_envelope k s payload v :
  is_u16 s → Z.of_nat (length payload) ≤ u32_max → from_bytes payload = Ok v →
  decode k s (envelope k s payload) = Ok v.
Proof.
  intros Hs Hl Hf. unfold envelope. rewrite <-app_assoc.
  assert (is_u32 (Z.of_nat (length payload))) as Hn by uints.
  rewrite decode_on_header, !Z.eqb_refl; [|done..|].
  2: { rewrite length_app, length_bytes_of. unfold CHECKSUM_LEN. lia. }
  apply decode_body_Ok; [done|]. by exists payload.
Qed.

(** [decode] accepts exactly the envelopes: a record decodes to [v] under
    a kind and a schema version if and only if it is, byte for byte, the
    header for that kind, version and payload length, then the payload, then
    the digest of both, and the payload deserializes to [v]. Nothing
    truncated, extended, re-labelled or corrupted is accepted. *)
Theorem decode_exact k s bytes v :
  decode k s bytes = Ok v ↔
  ∃ payload, is_u16 s ∧ Z.of_nat (length payload) ≤ u32_max ∧
    bytes = envelope k s payload ∧ from_bytes payload = Ok v.
Proof.
  split.
  - intros Hd. destruct (decode_Ok_header _ _ _ _ Hd) as (n & rest & -> & Hs & Hn & Hr).
    rewrite decode_on_header, !Z.eqb_refl in Hd by done. cbn [negb] in Hd.
    apply (decode_body_Ok k s n rest v Hn) in Hd as (payload & Hl & -> & Hf).
    exists payload. split_and!; [done|uints| |done].
    unfold envelope. rewrite Hl. by rewrite app_assoc.
  - intros (payload & Hs & Hl & -> & Hf). by apply decode_envelope.
Qed.

(** An envelope read under any kind and schema version. *)
Lemma decode_relabelled k s payload (Hs : is_u16 s)
    (Hl : Z.of_nat (length payload) ≤ u32_max) k' s' :
  decode k' s' (envelope k s payload) =
    if negb (kind_code k =? kind_code k') then Err (KindMismatch (kind_code k') (kind_code k))
    else if negb (s =? s') then Err (SchemaVersion s' s)
    else decode_body (Z.of_nat (length payload)) (envelope k s payload).
Proof.
  unfold envelope. rewrite <-!app_assoc. apply decode_on_header; [done|uints|].
  rewrite length_app, length_bytes_of. unfold CHECKSUM_LEN. lia.
Qed.

(** A record is readable only as what it was written as: decoding what
    [encode] wrote returns the value under the same kind and schema version,
    reports the kinds when they differ, and reports the versions when only
    they differ. *)
Theorem decode_encode `{!PostcardLaws PE A} k s v bytes
    (Hs : is_u16 s) (He : encode k s v = Ok bytes) :
  decode k s bytes = Ok v ∧
  (∀ k' s', k' ≠ k → decode k' s' bytes = Err (KindMismatch (kind_code k') (kind_code k))) ∧
  (∀ s', s' ≠ s → decode k s' bytes = Err (SchemaVersion s' s)).
Proof.
  apply encode_Ok in He as (payload & Hp & Hl & ->).
  pose proof (decode_relabelled k s payload Hs Hl) as Hd.
  split_and!.
  - apply decode_envelope; [done..|]. by apply from_to.
  - intros k' s' Hk. rewrite Hd. destruct (Z.eqb_spec (kind_code k) (kind_code k')) as [Heq|]; [|done].
    by apply kind_code_inj in Heq.
  - intros s' Hs'. rewrite Hd, Z.eqb_refl. by destruct (Z.eqb_spec s s').
Qed.
End durable.

(** Byte strings serialized as themselves, with a constant digest: one
    instance of the interfaces. *)
Definition raw_postcard : Postcard string (list byte) := {| to_allocvec := Ok; from_bytes := Ok |}.
Definition zero_blake3 : Blake3 := λ _, array_fill 32 x00.

Lemma raw_postcard_laws : @PostcardLaws string (list byte) raw_postcard.
Proof. constructor. intros v payload H. cbn in *. congruence. Qed.

Lemma decode_encode_witness :
  let _ := raw_postcard in let _ := zero_blake3 in
  let bytes := @envelope zero_blake3 ProcessorDelta 3 [x01; x02] in
  decode ProcessorDelta 3 bytes = Ok [x01; x02] ∧
  decode ProcessorDelta 4 bytes = Err (SchemaVersion 4 3).
Proof.
  cbn zeta.
  destruct (@decode_encode string (list byte) raw_postcard zero_blake3 raw_postcard_laws
    ProcessorDelta 3 [x01; x02] (@envelope zero_blake3 ProcessorDelta 3 [x01; x02]))
    as (H1 & _ & H2).
  - uints.
  - vm_compute. reflexivity.
  - split; [exact H1|]. apply H2. discriminate.
Defined.

End Durable.

(** ** Opaque cursors *)

Inductive CursorKind := CursorProcessor | CursorChange | CursorSource.

#[export] Instance CursorKind_eq_dec : EqDecision CursorKind.
Proof. solve_decision. Defined.

Definition cursor_durable (k : CursorKind) : DurableKind :=
  match k with
  | CursorProcessor => DurableProcessorCursor
  | CursorChange => DurableChangeCursor
  | CursorSource => DurableSourceCursor
  end.

Definition CURSOR_SCHEMA_VERSION : Z := 1.

Record ProcessorCursor := MkProcessorCursor {
  cursor_processor_id : string;
  cursor_processor_version : string;
  cursor_chain_id : ChainId;
  cursor_block_number : BlockNumber;
  cursor_block_hash : BlockHash;
  cursor_finality : Finality;
  cursor_sequence : Z;
}.

#[export] Instance ProcessorCursor_eq_dec : EqDecision ProcessorCursor.
Proof. solve_decision. Defined.

Record ChangeCursor := MkChangeCursor {
  change_chain_id : ChainId;
  change_processor_id : string;
  change_sequence : Z;
}.

Record SourceCursor := MkSourceCursor {
  source_cursor_id : SourceId;
  source_chain_id : ChainId;
  source_block_number : BlockNumber;
  source_block_hash : BlockHash;
  source_position : list byte;
}.

Inductive CursorError (HE PE : Type) :=
  | CursorText (e : HE)
  | CursorDurable (e : DurableError PE).
Arguments CursorText {HE PE}.
Arguments CursorDurable {HE PE}.

Record OpaqueCursor := MkOpaque { expose : string }.

Module OpaqueCursor.
Section opaque.
Context {PE HE A : Type} `{!Postcard PE A} `{!Blake3} `{!Hex HE}.

Definition encode (kind : CursorKind) (value : A) : result (CursorError HE PE) OpaqueCursor :=
  bytes ← map_err CursorDurable
    (Durable.encode (cursor_durable kind) CURSOR_SCHEMA_VERSION value);
  Ok (MkOpaque (hex_encode bytes)).

Definition decode (c : OpaqueCursor) (kind : CursorKind) : result (CursorError HE PE) A :=
  bytes ← map_err CursorText (hex_decode (expose c));
  map_err CursorDurable (Durable.decode (cursor_durable kind) CURSOR_SCHEMA_VERSION bytes).

Definition parse (value : string) : result (CursorError HE PE) OpaqueCursor :=
  _ ← map_err CursorText (hex_decode value);
  Ok (MkOpaque value).

(** A cursor handed to a client and parsed back decodes to the same value
    at its own endpoint and to a kind mismatch at every other one. *)
Theorem cursor_kind_bound `{!PostcardLaws PE A} `{!HexLaws HE} k v c
    (He : encode k v = Ok c) :
  parse (expose c) = Ok c ∧ decode c k = Ok v ∧
  (∀ k', k' ≠ k → decode c k' = Err (CursorDurable
     (KindMismatch (kind_code (cursor_durable k')) (kind_code (cursor_durable k))))).
Proof.
  unfold encode in He. apply result_bind_Ok in He as (bytes & He & [= <-]).
  destruct (Durable.encode _ _ v) as [b|] eqn:Hb; [|done]. injection He as ->.
  assert (is_u16 CURSOR_SCHEMA_VERSION) as Hs by (unfold CURSOR_SCHEMA_VERSION; uints).
  apply Durable.encode_Ok in Hb as (payload & Hp & Hl & ->).
  unfold parse, decode. cbn [expose]. rewrite hex_decode_encode.
  cbn [map_err mbind result_bind]. split_and!; [done| |].
  - rewrite (Durable.decode_envelope _ _ _ v); [done..|]. by apply from_to.
  - intros k' Hne. rewrite Durable.decode_relabelled by done. by destruct k', k.
Qed.
End opaque.

(** The byte string itself as the text: one instance of [Hex]. *)
Definition raw_hex : Hex string := {|
  hex_encode := String.string_of_list_byte;
  hex_decode := λ s, Ok (String.list_byte_of_string s);
|}.

Lemma raw_hex_laws : @HexLaws string raw_hex.
Proof. constructor. intros l. apply (f_equal Ok), String.list_byte_of_string_of_list_byte. Qed.

Lemma cursor_kind_bound_witness :
  let _ := Durable.raw_postcard in let _ := Durable.zero_blake3 in let _ := raw_hex in
  let c := MkOpaque (String.string_of_list_byte
    (Durable.envelope DurableChangeCursor CURSOR_SCHEMA_VERSION [x07])) in
  decode c CursorChange = Ok [x07] ∧
  decode c CursorSource = Err (CursorDurable (KindMismatch 12 11)).
Proof.
  cbn zeta.
  destruct (@cursor_kind_bound string string (list byte) Durable.raw_postcard
    Durable.zero_blake3 raw_hex Durable.raw_postcard_laws raw_hex_laws CursorChange [x07]
    (MkOpaque (String.string_of_list_byte
      (@Durable.envelope Durable.zero_blake3 DurableChangeCursor CURSOR_SCHEMA_VERSION [x07]))))
    as (_ & H1 & H2).
  - vm_compute. reflexivity.
  - split; [exact H1|]. apply (H2 CursorSource). discriminate.
Defined.
End OpaqueCursor.
