(* ===== verification/Descriptor.v ===== *)
(** * Processor identity, requirements and policies

    Models [crates/processor-api/src/descriptor.rs]: the identifiers, the
    policies and their validation, the data requirement a frame is checked
    against before it is mapped, and the descriptor with the compatibility
    decoding of its wire form. [semver::Version] is third-party and enters
    only through its text, which is what the descriptor carries here;
    [hex::encode] is the class of [Durable]. *)
From Stdlib Require Import ZArith Lia Strings.Byte Strings.Ascii.
From stdpp Require Import gmap strings list list_numbers.
From S2P Require Import Prelude Bytes Chain Capability Material Provenance Frame Durable.

(** ** Identifiers *)

Record ProcessorId := MkProcessorId { processor_id : string }.
Record ProcessorInstanceId := MkInstanceId { instance_id : string }.

#[export] Instance ProcessorId_eq_dec : EqDecision ProcessorId.
Proof. solve_decision. Defined.
#[export] Instance ProcessorInstanceId_eq_dec : EqDecision ProcessorInstanceId.
Proof. solve_decision. Defined.

Module ProcessorId.
Definition new (value : string) : result string ProcessorId :=
  if bool_decide (value = "") || (64 <? String.length value)%nat
     || negb (forallb (λ byte, is_ascii_alphanumeric byte || is_portable_punct byte)
                (string_bytes value))
  then Err value
  else Ok (MkProcessorId value).
End ProcessorId.

(** [b'-' | b'_' | b'.' | b'@' | b':']. *)
Definition is_instance_punct (b : byte) : bool :=
  bool_decide (b ∈ string_bytes "-_.@:").

Module ProcessorInstanceId.
Definition new (value : string) : result string ProcessorInstanceId :=
  if bool_decide (value = "") || (192 <? String.length value)%nat
     || String.prefix ":" value || bool_decide (value ∈ ["."; ".."])
     || negb (forallb (λ byte, is_ascii_alphanumeric byte || is_instance_punct byte)
                (string_bytes value))
  then Err value
  else Ok (MkInstanceId value).

Definition legacy `{!Hex HE} (id : ProcessorId) (version : string) (config_hash : BlockHash)
    : result string ProcessorInstanceId :=
  new (processor_id id +:+ "@" +:+ version +:+ ":" +:+ hex_encode (bytes_of config_hash)).
End ProcessorInstanceId.

(** ** Policies *)

Inductive StartPoint :=
  | Genesis
  | StartBlock (block : BlockNumber)
  | ProcessorCheckpoint (name : string).

Inductive ReductionMode := BlockLocal | OrderedState.

#[export] Instance ReductionMode_eq_dec : EqDecision ReductionMode.
Proof. solve_decision. Defined.

Inductive PublicationPolicy :=
  PublishUnattested | PublishAttested | PublishFinalized | JobResult.

#[export] Instance PublicationPolicy_eq_dec : EqDecision PublicationPolicy.
Proof. solve_decision. Defined.

Module PublicationPolicy.
Definition first_level (p : PublicationPolicy) : Finality :=
  match p with
  | PublishUnattested => Unattested
  | PublishAttested => Attested
  | PublishFinalized | JobResult => Finalized
  end.

Definition publishes_unfinalized (p : PublicationPolicy) : bool :=
  match p with PublishUnattested | PublishAttested => true | _ => false end.
End PublicationPolicy.

Inductive RetentionPolicy := FullOutputHistory | LatestState | FinalizedHistory.

Inductive StatePolicyMode := Ephemeral | StateDurable | Checkpointed.

Record StatePolicy := MkStatePolicy { state_mode : StatePolicyMode }.

Inductive OutputPolicyMode := OutputNone | OutputLatest | OutputWindowed | OutputFull.

#[export] Instance OutputPolicyMode_eq_dec : EqDecision OutputPolicyMode.
Proof. solve_decision. Defined.

Record OutputWindow := MkOutputWindow {
  window_max_blocks : option Z;
  window_max_age_seconds : option Z;
  window_max_rows : option Z;
  window_max_bytes : option Z;
}.

(** [into_iter().flatten()] of an array of options. *)
Definition flatten_options (l : list (option Z)) : list Z := omap id l.

Module OutputWindow.
Definition values (w : OutputWindow) : list (option Z) :=
  [window_max_blocks w; window_max_age_seconds w; window_max_rows w; window_max_bytes w].

Definition validate (w : OutputWindow) : result string () :=
  if existsb (λ value, value =? 0) (flatten_options (values w))
  then Err "output window limits must be greater than zero"
  else if negb (length (flatten_options (values w)) =? 1)%nat
  then Err "output window must declare exactly one block, age, row, or byte limit"
  else Ok ().
End OutputWindow.

Record OutputPolicy := MkOutputPolicy {
  output_mode : OutputPolicyMode;
  output_window : option OutputWindow;
  finalized_only : bool;
}.

Definition output_default : OutputPolicy := MkOutputPolicy OutputFull None false.

Inductive ArtifactPolicyMode := ArtifactNone | ArtifactWindowed | ArtifactFull.

#[export] Instance ArtifactPolicyMode_eq_dec : EqDecision ArtifactPolicyMode.
Proof. solve_decision. Defined.

Record ArtifactWindow := MkArtifactWindow {
  artifact_max_blocks : option Z;
  artifact_max_age_seconds : option Z;
  artifact_max_bytes : option Z;
}.

Module ArtifactWindow.
Definition values (w : ArtifactWindow) : list (option Z) :=
  [artifact_max_blocks w; artifact_max_age_seconds w; artifact_max_bytes w].

Definition validate (w : ArtifactWindow) : result string () :=
  if existsb (λ value, value =? 0) (flatten_options (values w))
  then Err "artifact window limits must be greater than zero"
  else if negb (length (flatten_options (values w)) =? 1)%nat
  then Err "artifact window must declare exactly one block, age, or byte limit"
  else Ok ().
End ArtifactWindow.

Record ArtifactPolicy := MkArtifactPolicy {
  artifact_mode : ArtifactPolicyMode;
  artifact_window : option ArtifactWindow;
}.

Inductive DeliveryPolicyMode :=
  DeliveryNone | DeliveryBestEffort | DeliveryWindow | UntilAcknowledged.

#[export] Instance DeliveryPolicyMode_eq_dec : EqDecision DeliveryPolicyMode.
Proof. solve_decision. Defined.

Inductive DeliveryLimitAction := LimitPause | LimitFail | ExpireAndReset.

#[export] Instance DeliveryLimitAction_eq_dec : EqDecision DeliveryLimitAction.
Proof. solve_decision. Defined.

Inductive DeliveryOrdering := Canonical | BlockVersionedIdempotent.

#[export] Instance DeliveryOrdering_eq_dec : EqDecision DeliveryOrdering.
Proof. solve_decision. Defined.

(** [Duration::from_hours(100 * 365 * 24)], in seconds. *)
Definition MAXIMUM_CONSUMER_LEASE_TTL : Z := 100 * 365 * 24 * 3600.

Record DurableConsumerPolicy := MkConsumerPolicy {
  consumer_id : string;
  consumer_required : bool;
  lease_ttl_seconds : Z;
}.

Record DeliveryPruningPolicy := MkPruningPolicy {
  interval_seconds : Z;
  minimum_batch_blocks : Z;
  minimum_batch_changes : Z;
  maximum_delete_changes : Z;
  retain_finalized_blocks : Z;
  retain_acknowledged_seconds : Z;
}.

Definition pruning_default : DeliveryPruningPolicy :=
  MkPruningPolicy 30 64 10000 10000 256 (60 * 60).

Record DeliveryPolicy := MkDeliveryPolicy {
  delivery_mode : DeliveryPolicyMode;
  delivery_max_bytes : Z;
  delivery_max_age_seconds : Z;
  on_limit : DeliveryLimitAction;
  pruning : DeliveryPruningPolicy;
  consumers : list DurableConsumerPolicy;
}.

Definition delivery_default : DeliveryPolicy :=
  MkDeliveryPolicy DeliveryWindow (Z.shiftl 1 30) (24 * 60 * 60) LimitPause pruning_default [].

Inductive CheckpointPolicyMode := CheckpointNone | Automatic.

#[export] Instance CheckpointPolicyMode_eq_dec : EqDecision CheckpointPolicyMode.
Proof. solve_decision. Defined.

Record CheckpointPolicy := MkCheckpointPolicy {
  checkpoint_mode : CheckpointPolicyMode;
  keep : Z;
}.

Definition checkpoint_default : CheckpointPolicy := MkCheckpointPolicy Automatic 3.

Inductive UndoPolicyMode := UndoNone | Unfinalized.

Record UndoPolicy := MkUndoPolicy {
  undo_mode : UndoPolicyMode;
  safety_blocks : Z;
}.

Definition undo_default : UndoPolicy := MkUndoPolicy Unfinalized 256.

Record LifecyclePolicies := MkLifecycle {
  lifecycle_state : StatePolicy;
  lifecycle_artifacts : ArtifactPolicy;
  lifecycle_output : OutputPolicy;
  lifecycle_delivery : DeliveryPolicy;
  lifecycle_checkpoint : CheckpointPolicy;
  lifecycle_undo : UndoPolicy;
}.

#[export] Instance StatePolicyMode_eq_dec : EqDecision StatePolicyMode.
Proof. solve_decision. Defined.
#[export] Instance StatePolicy_eq_dec : EqDecision StatePolicy.
Proof. solve_decision. Defined.
#[export] Instance OutputWindow_eq_dec : EqDecision OutputWindow.
Proof. solve_decision. Defined.
#[export] Instance OutputPolicy_eq_dec : EqDecision OutputPolicy.
Proof. solve_decision. Defined.
#[export] Instance ArtifactWindow_eq_dec : EqDecision ArtifactWindow.
Proof. solve_decision. Defined.
#[export] Instance ArtifactPolicy_eq_dec : EqDecision ArtifactPolicy.
Proof. solve_decision. Defined.
#[export] Instance DurableConsumerPolicy_eq_dec : EqDecision DurableConsumerPolicy.
Proof. solve_decision. Defined.
#[export] Instance DeliveryPruningPolicy_eq_dec : EqDecision DeliveryPruningPolicy.
Proof. solve_decision. Defined.
#[export] Instance DeliveryPolicy_eq_dec : EqDecision DeliveryPolicy.
Proof. solve_decision. Defined.
#[export] Instance CheckpointPolicy_eq_dec : EqDecision CheckpointPolicy.
Proof. solve_decision. Defined.
#[export] Instance UndoPolicyMode_eq_dec : EqDecision UndoPolicyMode.
Proof. solve_decision. Defined.
#[export] Instance UndoPolicy_eq_dec : EqDecision UndoPolicy.
Proof. solve_decision. Defined.
#[export] Instance LifecyclePolicies_eq_dec : EqDecision LifecyclePolicies.
Proof. solve_decision. Defined.

Definition lifecycle_default : LifecyclePolicies :=
  MkLifecycle (MkStatePolicy StateDurable) (MkArtifactPolicy ArtifactNone None) output_default
    delivery_default checkpoint_default undo_default.

Module LifecyclePolicies.

Definition from_legacy (retention : RetentionPolicy) : LifecyclePolicies :=
  let output := match retention with
    | FullOutputHistory => output_default
    | LatestState => MkOutputPolicy OutputLatest None false
    | FinalizedHistory => MkOutputPolicy OutputFull None true
    end in
  MkLifecycle (lifecycle_state lifecycle_default) (lifecycle_artifacts lifecycle_default)
    output (lifecycle_delivery lifecycle_default) (lifecycle_checkpoint lifecycle_default)
    (lifecycle_undo lifecycle_default).

(** The two window checks. *)
Definition validate_windows (p : LifecyclePolicies) : result string () :=
  _ ← match artifact_mode (lifecycle_artifacts p), artifact_window (lifecycle_artifacts p) with
      | ArtifactWindowed, Some window => ArtifactWindow.validate window
      | ArtifactWindowed, None => Err "windowed artifacts require an artifact window"
      | _, Some _ => Err "an artifact window is valid only in window mode"
      | _, None => Ok ()
      end;
  match output_mode (lifecycle_output p), output_window (lifecycle_output p) with
  | OutputWindowed, Some window => OutputWindow.validate window
  | OutputWindowed, None => Err "windowed output requires an output window"
  | _, Some _ => Err "an output window is valid only in window mode"
  | _, None => Ok ()
  end.

Definition delivery_enabled (p : LifecyclePolicies) : bool :=
  negb (bool_decide (delivery_mode (lifecycle_delivery p) = DeliveryNone)).

(** One iteration over the consumers; the state is [consumer_ids]. *)
Definition validate_consumer (p : LifecyclePolicies) (consumer_ids : gset string)
    (consumer : DurableConsumerPolicy) : result string (gset string) :=
  if bool_decide (consumer_id consumer = "") || (128 <? String.length (consumer_id consumer))%nat
     || negb (forallb (λ byte, is_ascii_alphanumeric byte || is_portable_punct byte)
                (string_bytes (consumer_id consumer)))
     || bool_decide (consumer_id consumer ∈ consumer_ids)
  then Err "delivery consumers need unique portable IDs"
  else if (lease_ttl_seconds consumer =? 0)
          || (MAXIMUM_CONSUMER_LEASE_TTL <? lease_ttl_seconds consumer)
  then Err "delivery consumer lease TTLs must be non-zero and at most 100 years"
  else if consumer_required consumer
          && negb (bool_decide (delivery_mode (lifecycle_delivery p) = UntilAcknowledged))
  then Err "required consumers need until_acknowledged delivery"
  else Ok ({[consumer_id consumer]} ∪ consumer_ids).

Definition validate_delivery (p : LifecyclePolicies) : result string () :=
  let delivery := lifecycle_delivery p in
  let pruning := pruning delivery in
  if delivery_enabled p && ((delivery_max_bytes delivery =? 0)
                            || (delivery_max_age_seconds delivery =? 0))
  then Err "delivery byte and age limits must be greater than zero"
  else if delivery_enabled p
          && ((interval_seconds pruning =? 0) || (minimum_batch_blocks pruning =? 0)
              || (minimum_batch_changes pruning =? 0) || (maximum_delete_changes pruning =? 0))
  then Err "delivery pruning batch limits and interval must be greater than zero"
  else if negb (delivery_enabled p) && negb (bool_decide (consumers delivery = []))
  then Err "delivery consumers require delivery to be enabled"
  else
    _ ← fold_result (validate_consumer p) ∅ (consumers delivery);
    if bool_decide (delivery_mode delivery = UntilAcknowledged)
       && negb (existsb consumer_required (consumers delivery))
    then Err "until_acknowledged delivery requires a required durable consumer"
    else Ok ().

(** The checks after delivery. *)
Definition validate_undo_state (p : LifecyclePolicies) (publication : PublicationPolicy)
    : result string () :=
  if PublicationPolicy.publishes_unfinalized publication
     && match undo_mode (lifecycle_undo p) with UndoNone => true | _ => false end
  then Err "unattested and attested publication require an unfinalized undo policy"
  else if match checkpoint_mode (lifecycle_checkpoint p) with Automatic => true | _ => false end
          && (keep (lifecycle_checkpoint p) =? 0)
  then Err "automatic checkpoints must retain at least one checkpoint"
  else match state_mode (lifecycle_state p), checkpoint_mode (lifecycle_checkpoint p) with
  | Ephemeral, _ =>
      Err "ephemeral processor state is not implemented; use durable or checkpointed state"
  | Checkpointed, CheckpointNone => Err "checkpointed processor state requires automatic checkpoints"
  | _, _ => Ok ()
  end.

Definition validate (p : LifecyclePolicies) (publication : PublicationPolicy)
    : result string () :=
  _ ← validate_windows p;
  _ ← validate_delivery p;
  validate_undo_state p publication.

End LifecyclePolicies.

(** ** Requirements on a frame *)

Record DataRequirement := MkRequirement {
  capabilities : CapabilitySet;
  log_fields : LogFieldSet;
  allow_filtered : bool;
  filter : FilterScope;
  minimum_finality : Finality;
}.

#[export] Instance DataRequirement_eq_dec : EqDecision DataRequirement.
Proof. solve_decision. Defined.

(** The predicate and completeness claim of filtered material. *)
Definition filter_claim {A} (m : Material A) : option (FilterScope * Completeness) :=
  match m with
  | Filtered _ scope completeness => Some (scope, completeness)
  | Complete _ | Missing _ => None
  end.

Module DataRequirement.

(** The [components] array of [validate_filtered_material]. *)
Definition components (f : BlockFrame) : list (Capability * option (FilterScope * Completeness)) :=
  [(Header, filter_claim (frame_header f));
   (Transactions, filter_claim (frame_transactions f));
   (Receipts, filter_claim (frame_receipts f));
   (Logs, filter_claim (frame_logs f));
   (Withdrawals, filter_claim (frame_withdrawals f));
   (BlobSidecars, filter_claim (frame_blob_sidecars f));
   (Traces, filter_claim (frame_traces f));
   (StateDiffs, filter_claim (frame_state_diffs f))].

(** One iteration of the loop over the components. *)
Definition validate_component (r : DataRequirement) (f : BlockFrame) (_ : ())
    (c : Capability * option (FilterScope * Completeness)) : result string () :=
  let '(capability, claim) := c in
  match claim with
  | None => Ok ()
  | Some (scope, completeness) =>
      let supplies := CapabilitySet.with_derivable (CapabilitySet.of_cap capability) in
      if CapabilitySet.intersection supplies (capabilities r) =? CapabilitySet.NONE then Ok ()
      else if bool_decide (completeness = Partial)
      then Err "filtered frame material is only a partial projection"
      else if negb (FilterScope.covers_at scope (filter r) (ref_number (frame_block f)))
      then Err "filtered frame material does not cover the requirement filter"
      else Ok ()
  end.

Definition validate_filtered_material (r : DataRequirement) (f : BlockFrame) : result string () :=
  fold_result (validate_component r f) () (components f).

Definition logs_omit_hash (logs : list Log) : bool :=
  existsb (λ log, is_none (log_transaction_hash log)) logs.

Definition validate_frame (r : DataRequirement) (f : BlockFrame) : result string () :=
  if negb (Finality.satisfies (frame_finality f) (minimum_finality r))
  then Err "frame does not meet minimum finality"
  else if negb (Report.satisfies (BlockFrame.capabilities f) (capabilities r) (allow_filtered r))
  then Err "frame does not meet capability completeness"
  else
    _ ← (if allow_filtered r then validate_filtered_material r f else Ok ());
    if VerificationReport.has_failures (frame_verification f)
    then Err "frame contains failed verification"
    else if LogFieldSet.contains (log_fields r) LogTransactionHash
            && (is_some_and (Material.as_present (frame_logs f)) logs_omit_hash
                || is_some_and (Material.as_present (frame_receipts f))
                     (existsb (λ receipt, logs_omit_hash (receipt_logs receipt))))
    then Err "frame logs omit a required transaction hash"
    else match BlockFrame.group_violation f (CapabilitySet.with_derivable (capabilities r)) with
    | Some reason => Err reason
    | None => Ok ()
    end.

End DataRequirement.

(** ** The descriptor *)

Record ProcessorSchemas := MkSchemas {
  delta_version : Z;
  entity_schema : string;
  change_schema : string;
}.

Record ProcessorDescriptor := MkDescriptor {
  descriptor_id : ProcessorId;
  descriptor_instance : ProcessorInstanceId;
  descriptor_version : string;
  code_hash : BlockHash;
  config_hash : BlockHash;
  descriptor_start : StartPoint;
  requirements : list DataRequirement;
  descriptor_mode : ReductionMode;
  delivery_ordering : DeliveryOrdering;
  publication : PublicationPolicy;
  lifecycle : LifecyclePolicies;
  schemas : ProcessorSchemas;
}.

#[export] Instance StartPoint_eq_dec : EqDecision StartPoint.
Proof. solve_decision. Defined.
#[export] Instance ProcessorSchemas_eq_dec : EqDecision ProcessorSchemas.
Proof. solve_decision. Defined.
#[export] Instance ProcessorDescriptor_eq_dec : EqDecision ProcessorDescriptor.
Proof. solve_decision. Defined.

Record DescriptorWire := MkDescriptorWire {
  wire_id : ProcessorId;
  wire_instance : option ProcessorInstanceId;
  wire_version : string;
  wire_code_hash : BlockHash;
  wire_config_hash : BlockHash;
  wire_start : StartPoint;
  wire_requirements : list DataRequirement;
  wire_mode : ReductionMode;
  wire_delivery_ordering : DeliveryOrdering;
  wire_publication : PublicationPolicy;
  wire_lifecycle : option LifecyclePolicies;
  wire_retention : option RetentionPolicy;
  wire_schemas : ProcessorSchemas;
}.

Module ProcessorDescriptor.

Definition validate (d : ProcessorDescriptor) : result string () :=
  if bool_decide (length (requirements d) = 0%nat)
  then Err "processor must declare at least one data requirement"
  else if delta_version (schemas d) =? 0
  then Err "delta schema version must be greater than zero"
  else if bool_decide (entity_schema (schemas d) = "") || bool_decide (change_schema (schemas d) = "")
  then Err "processor entity and change schemas must not be empty"
  else if existsb (λ requirement,
            negb (log_fields requirement =? LogFieldSet.NONE)
            && negb (CapabilitySet.contains
                       (CapabilitySet.with_derivable (capabilities requirement)) Logs))
          (requirements d)
  then Err "optional log fields require logs or receipt material"
  else if bool_decide (delivery_ordering d = BlockVersionedIdempotent)
          && negb (bool_decide (descriptor_mode d = BlockLocal))
  then Err "block-versioned delivery requires a block-local processor"
  else LifecyclePolicies.validate (lifecycle d) (publication d).

(** [Deserialize], from the decoded wire form. *)
Definition of_wire `{!Hex HE} (wire : DescriptorWire) : result string ProcessorDescriptor :=
  instance ← match wire_instance wire with
             | Some instance => Ok instance
             | None => ProcessorInstanceId.legacy (wire_id wire) (wire_version wire)
                         (wire_config_hash wire)
             end;
  let lifecycle := default
    (LifecyclePolicies.from_legacy (default FullOutputHistory (wire_retention wire)))
    (wire_lifecycle wire) in
  Ok (MkDescriptor (wire_id wire) instance (wire_version wire) (wire_code_hash wire)
    (wire_config_hash wire) (wire_start wire) (wire_requirements wire) (wire_mode wire)
    (wire_delivery_ordering wire) (wire_publication wire) lifecycle (wire_schemas wire)).

End ProcessorDescriptor.

(** ** What an accepted frame guarantees *)

Lemma intersection_NONE s t : is_u16 s → is_u16 t →
  (CapabilitySet.intersection s t =? CapabilitySet.NONE) = false ↔
  ∃ c, CapabilitySet.contains s c = true ∧ CapabilitySet.contains t c = true.
Proof.
  intros Hs Ht. rewrite Z.eqb_neq. split.
  - intros Hne. destruct (existsb (λ c, CapabilitySet.contains s c && CapabilitySet.contains t c)
      CapabilitySet.VALUES) eqn:He.
    + apply existsb_spec in He as (c & _ & [??]%andb_true_iff). eauto.
    + destruct Hne. apply CapabilitySet.contains_ext.
      * unfold CapabilitySet.intersection. apply CapabilitySet.u16_iff. split.
        -- apply Z.land_nonneg. left. by destruct Hs.
        -- intros i Hi. by rewrite Z.land_spec, (CapabilitySet.testbit_u16 s).
      * unfold CapabilitySet.NONE. uints.
      * intros c. rewrite CapabilitySet.contains_NONE, CapabilitySet.contains_intersection.
        pose proof (proj1 (existsb_false _ _) He c (CapabilitySet.elem_of_VALUES c)). done.
  - intros (c & Hcs & Hct) H0. assert (CapabilitySet.contains (CapabilitySet.intersection s t) c = true)
      as Hc by (by rewrite CapabilitySet.contains_intersection, Hcs, Hct).
    by rewrite H0, CapabilitySet.contains_NONE in Hc.
Qed.

(** The capabilities a component supplies, itself included. *)
Definition component_supplies (c d : Capability) : bool :=
  CapabilitySet.contains (CapabilitySet.with_derivable (CapabilitySet.of_cap c)) d.

(** A filtered component [c] of the frame with its claim. *)
Definition filtered_as (f : BlockFrame) (c : Capability) (scope : FilterScope)
    (completeness : Completeness) : Prop :=
  (c, Some (scope, completeness)) ∈ DataRequirement.components f.

Definition every_log (f : BlockFrame) (P : Log → Prop) : Prop :=
  (∀ logs log, Material.as_present (frame_logs f) = Some logs → log ∈ logs → P log) ∧
  (∀ rs r log, Material.as_present (frame_receipts f) = Some rs → r ∈ rs →
     log ∈ receipt_logs r → P log).

Lemma validate_filtered_material_Ok r f (Hr : is_u16 (capabilities r)) :
  DataRequirement.validate_filtered_material r f = Ok () ↔
  ∀ c d scope completeness, filtered_as f c scope completeness →
    component_supplies c d = true → CapabilitySet.contains (capabilities r) d = true →
    completeness ≠ Partial ∧
    FilterScope.covers_at scope (filter r) (ref_number (frame_block f)) = true.
Proof.
  unfold DataRequirement.validate_filtered_material. rewrite fold_result_unit.
  unfold filtered_as, component_supplies.
  assert (∀ c, is_u16 (CapabilitySet.with_derivable (CapabilitySet.of_cap c))) as Hu.
  { intros c. apply CapabilitySet.u16_with_derivable. destruct c; vm_compute; split; discriminate. }
  split.
  - intros Hall c d scope k Hin Hs Hd. specialize (Hall _ Hin). cbn in Hall.
    rewrite (proj2 (intersection_NONE _ _ (Hu c) Hr)) in Hall by eauto.
    destruct (bool_decide_reflect (k = Partial)); [done|].
    by destruct (FilterScope.covers_at _ _ _).
  - intros Hall [c [[scope k]|]] Hin; [|done]. cbn.
    destruct (_ =? _) eqn:Hi; [done|].
    apply intersection_NONE in Hi as (d & Hs & Hd); [|done..].
    destruct (Hall c d scope k Hin Hs Hd) as [Hk ->].
    by rewrite bool_decide_eq_false_2.
Qed.

Lemma logs_omit_hash_false logs :
  DataRequirement.logs_omit_hash logs = false ↔
  ∀ log, log ∈ logs → is_Some (log_transaction_hash log).
Proof.
  unfold DataRequirement.logs_omit_hash. rewrite existsb_false.
  by setoid_rewrite is_none_false.
Qed.

Lemma hash_check_false f :
  (is_some_and (Material.as_present (frame_logs f)) DataRequirement.logs_omit_hash
   || is_some_and (Material.as_present (frame_receipts f))
        (existsb (λ receipt, DataRequirement.logs_omit_hash (receipt_logs receipt)))) = false ↔
  every_log f (λ log, is_Some (log_transaction_hash log)).
Proof.
  rewrite orb_false_iff, !is_some_and_false. unfold every_log.
  setoid_rewrite logs_omit_hash_false. setoid_rewrite existsb_false.
  setoid_rewrite logs_omit_hash_false. naive_solver.
Qed.

Lemma validate_frame_accepts r f (Hr : is_u16 (capabilities r)) :
  DataRequirement.validate_frame r f = Ok () ↔
  Finality.satisfies (frame_finality f) (minimum_finality r) = true ∧
  (∀ c, CapabilitySet.contains (capabilities r) c = true →
     Report.supplies (if allow_filtered r then present (BlockFrame.capabilities f)
                      else complete (BlockFrame.capabilities f)) c = true) ∧
  (allow_filtered r = true → ∀ c d scope completeness,
     filtered_as f c scope completeness → component_supplies c d = true →
     CapabilitySet.contains (capabilities r) d = true →
     completeness ≠ Partial ∧
     FilterScope.covers_at scope (filter r) (ref_number (frame_block f)) = true) ∧
  VerificationReport.has_failures (frame_verification f) = false ∧
  (LogFieldSet.contains (log_fields r) LogTransactionHash = true →
     every_log f (λ log, is_Some (log_transaction_hash log))) ∧
  (∀ c, CapabilitySet.contains (CapabilitySet.with_derivable (capabilities r)) c = true →
     promises f c).
Proof.
  unfold DataRequirement.validate_frame.
  rewrite <-Report.satisfies_spec, <-group_violation_None by done.
  rewrite <-validate_filtered_material_Ok, <-hash_check_false by done.
  rewrite !if_Err_Ok, bind_unit_Ok, !if_Err_Ok, !negb_false_iff, impl_false.
  assert ((if allow_filtered r then DataRequirement.validate_filtered_material r f else Ok ()) = Ok ()
    ↔ (allow_filtered r = true → DataRequirement.validate_filtered_material r f = Ok ())) as ->
    by (destruct (allow_filtered r); naive_solver).
  assert (∀ o : option string, match o with Some reason => Err reason | None => Ok () end = Ok ()
    ↔ o = None) as -> by (intros []; naive_solver).
  tauto.
Qed.

(** [validate_frame] accepts a frame exactly when it is final enough,
    every required capability is supplied by material as complete as the
    requirement asks, every filtered component that can supply one claims
    the whole predicate and covers the required filter at this block, no
    verification failed, required log hashes are there, and every required
    or derivable group keeps its field promises. *)
Theorem validate_frame_Ok r f (Hr : is_u16 (capabilities r)) :
  DataRequirement.validate_frame r f = Ok () ↔
  Finality.satisfies (frame_finality f) (minimum_finality r) = true ∧
  (∀ c, CapabilitySet.contains (capabilities r) c = true →
     Report.supplies (if allow_filtered r then present (BlockFrame.capabilities f)
                      else complete (BlockFrame.capabilities f)) c = true) ∧
  (allow_filtered r = true → ∀ c d scope completeness,
     filtered_as f c scope completeness → component_supplies c d = true →
     CapabilitySet.contains (capabilities r) d = true →
     completeness ≠ Partial ∧
     FilterScope.covers_at scope (filter r) (ref_number (frame_block f)) = true) ∧
  VerificationReport.has_failures (frame_verification f) = false ∧
  (LogFieldSet.contains (log_fields r) LogTransactionHash = true →
     every_log f (λ log, is_Some (log_transaction_hash log))) ∧
  (∀ c, CapabilitySet.contains (CapabilitySet.with_derivable (capabilities r)) c = true →
     promises f c).
Proof. by apply validate_frame_accepts. Qed.

(** What a frame holds of a capability's own component, and whether it is
    whole; consensus finality is held with its anchor. *)
Definition held_as {A} (m : Material A) : option bool :=
  match m with Complete _ => Some true | Filtered _ _ _ => Some false | Missing _ => None end.
Definition component_held (f : BlockFrame) (c : Capability) : option bool :=
  match c with
  | Header => held_as (frame_header f)
  | Transactions => held_as (frame_transactions f)
  | Receipts => held_as (frame_receipts f)
  | Logs => held_as (frame_logs f)
  | Withdrawals => held_as (frame_withdrawals f)
  | BlobSidecars => held_as (frame_blob_sidecars f)
  | Traces => held_as (frame_traces f)
  | StateDiffs => held_as (frame_state_diffs f)
  | ConsensusFinality => match consensus_anchor (frame_verification f) with Some _ => Some true | None => None end
  | _ => None
  end.

Lemma contains_added {A} (m : Material A) c acc d :
  CapabilitySet.contains (add_material m c acc).1 d
    = CapabilitySet.contains acc.1 d || bool_decide (is_Some (held_as m)) && bool_decide (d = c)
  ∧ CapabilitySet.contains (add_material m c acc).2 d
    = CapabilitySet.contains acc.2 d || bool_decide (held_as m = Some true) && bool_decide (d = c).
Proof.
  destruct acc as [present complete], m; cbn; rewrite ?CapabilitySet.contains_with, ?orb_false_r; by split.
Qed.

Lemma frame_capabilities f c :
  CapabilitySet.contains (present (BlockFrame.capabilities f)) c = bool_decide (is_Some (component_held f c))
  ∧ CapabilitySet.contains (complete (BlockFrame.capabilities f)) c = bool_decide (component_held f c = Some true).
Proof.
  unfold BlockFrame.capabilities. cbv zeta.
  match goal with |- context [let '(_, _) := ?acc in _] => set (all := acc) end.
  assert (CapabilitySet.contains all.1 c
      = bool_decide (is_Some (component_held f c)) && negb (bool_decide (c = ConsensusFinality))
    ∧ CapabilitySet.contains all.2 c
      = bool_decide (component_held f c = Some true) && negb (bool_decide (c = ConsensusFinality))) as [Hp Hc].
  { unfold all. rewrite !(proj1 (contains_added _ _ _ _)), !(proj2 (contains_added _ _ _ _)).
    cbn [fst snd]. rewrite !CapabilitySet.contains_NONE.
    by destruct c; cbn [component_held]; rewrite ?andb_false_r, ?andb_true_r, ?orb_false_r. }
  clearbody all. destruct all as [present complete].
  cbn [fst snd] in Hp, Hc. destruct (consensus_anchor (frame_verification f)) eqn:Hanchor; cbn;
    rewrite ?CapabilitySet.contains_with, Hp, Hc; destruct c; cbn [component_held]; rewrite ?Hanchor, ?andb_true_r, ?orb_false_r;
    by split.
Qed.

(** A component can serve a capability. *)
Definition serves (c d : Capability) : Prop := component_supplies c d = true ∨ c = Header ∧ d = BlockSize.

Lemma supplies_serves components d :
  Report.supplies components d = true → ∃ c, CapabilitySet.contains components c = true ∧ serves c d.
Proof.
  unfold Report.supplies, serves, component_supplies. rewrite !orb_true_iff, !andb_true_iff, bool_decide_eq_true.
  setoid_rewrite CapabilitySet.contains_with_derivable. setoid_rewrite CapabilitySet.contains_of.
  intros [[[Hd|[Ht Hd]]|[Hr Hd]]|[Hh ->]].
  - exists d. split; [done|]. left. by rewrite bool_decide_eq_true_2.
  - exists Transactions. split; [done|]. left. rewrite Hd. cbn. by rewrite ?orb_true_r.
  - exists Receipts. split; [done|]. left. rewrite Hd. cbn. by rewrite ?orb_true_r.
  - exists Header. split; [done|]. by right.
Qed.

Lemma held_as_filtered {A} (m : Material A) :
  held_as m = Some false → ∃ scope completeness, filter_claim m = Some (scope, completeness).
Proof. destruct m as [|v scope completeness|]; try done. intros _. by exists scope, completeness. Qed.

Lemma held_filtered f c : component_held f c = Some false → ∃ scope completeness, filtered_as f c scope completeness.
Proof.
  unfold filtered_as, DataRequirement.components. destruct c; cbn [component_held]; try done;
    try (intros (scope & completeness & ->)%held_as_filtered; exists scope, completeness;
         apply list_elem_of_In; cbn [In]; tauto).
  by destruct (consensus_anchor (frame_verification f)).
Qed.

(** C37: nothing a processor requires can be missing from the material it is
    given. An accepted frame holds, for every required capability, a
    component that serves it: whole, or filtered where the requirement
    allows filtered material. And where it does, no filtered component that
    can supply a required capability is a partial projection, and whatever
    item at the frame's block the required filter selects is selected by the
    component's scope. *)
Theorem accepted_frame_selects r f d
    (Hr : is_u16 (capabilities r)) (Hok : DataRequirement.validate_frame r f = Ok ())
    (Hrequired : CapabilitySet.contains (capabilities r) d = true) :
  (∃ c, serves c d ∧ (component_held f c = Some true
     ∨ allow_filtered r = true ∧ ∃ scope completeness, filtered_as f c scope completeness))
  ∧ (allow_filtered r = true → ∀ c scope completeness, filtered_as f c scope completeness →
      component_supplies c d = true →
      completeness ≠ Partial
      ∧ ∀ i, item_block i = ref_number (frame_block f) → matches (filter r) i = true → matches scope i = true).
Proof.
  apply validate_frame_accepts in Hok as (_ & Hsupplies & Hfiltered & _); [|done]. split.
  - apply Hsupplies in Hrequired as (c & Hc & Hserves)%supplies_serves. exists c. split; [done|].
    destruct (allow_filtered r); [rewrite (proj1 (frame_capabilities f c)) in Hc|rewrite (proj2 (frame_capabilities f c)) in Hc];
      apply bool_decide_eq_true in Hc; [|by left].
    destruct Hc as [[] Hc]; [by left|right]. split; [done|]. by apply held_filtered.
  - intros Hallow c scope completeness Hclaim Hcan. destruct (Hfiltered Hallow _ _ _ _ Hclaim Hcan Hrequired) as [Hwhole Hcover].
    split; [done|]. intros i Hblock. rewrite <-Hblock in Hcover. by eapply Covers.covers_at_matches.
Qed.

(** A frame whose logs were filtered by one address, and a requirement for
    that address. *)
Definition filtered_frame : BlockFrame :=
  MkFrame 1 (MkBlockRef 5 hash_zero hash_zero 0) Finalized (Missing NotRequested)
    (Missing NotRequested) (Missing NotRequested)
    (Filtered [] (MkFilterScope None [array_fill 20 x07] [] [] [] [] []) VerifiedPredicate)
    (Missing NotRequested) (Missing NotRequested) (Missing NotRequested) (Missing NotRequested)
    [] VerificationReport.default.
Definition address_requirement : DataRequirement :=
  MkRequirement (CapabilitySet.of_cap Logs) LogFieldSet.NONE true
    (MkFilterScope None [array_fill 20 x07] [] [] [] [] []) Unattested.

Lemma validate_frame_Ok_witness :
  DataRequirement.validate_frame address_requirement filtered_frame = Ok () ∧
  FilterScope.covers_at (filter address_requirement) (filter address_requirement) 5 = true.
Proof.
  assert (DataRequirement.validate_frame address_requirement filtered_frame = Ok ()) as Hok
    by (vm_compute; reflexivity).
  split; [exact Hok|].
  apply (validate_frame_Ok address_requirement filtered_frame) in Hok
    as (_ & _ & Hfilter & _); [|vm_compute; split; discriminate].
  apply (Hfilter eq_refl Logs Logs _ VerifiedPredicate); [|reflexivity..].
  unfold filtered_as. apply list_elem_of_In. vm_compute. right. right. right. left. reflexivity.
Defined.

Lemma accepted_frame_selects_witness :
  matches (MkFilterScope None [array_fill 20 x07] [] [] [] [] [])
    (MkItem 5 2 None hash_zero None (array_fill 20 x07) []) = true.
Proof.
  destruct (accepted_frame_selects address_requirement filtered_frame Logs) as [_ Hselects].
  - vm_compute. split; discriminate.
  - vm_compute. reflexivity.
  - reflexivity.
  - destruct (Hselects eq_refl Logs (filter address_requirement) VerifiedPredicate) as [_ Hmatches];
      [unfold filtered_as; apply list_elem_of_In; vm_compute; right; right; right; left; reflexivity|reflexivity|].
    apply Hmatches; [reflexivity|vm_compute; reflexivity].
Defined.

(** ** What a valid policy set promises *)

(** Exactly one limit, and it is positive. *)
Definition one_limit (values : list (option Z)) : Prop :=
  ∃ v, flatten_options values = [v] ∧ v ≠ 0.

Definition portable (limit : nat) (s : string) : Prop :=
  (0 < String.length s ≤ limit)%nat ∧
  ∀ b, b ∈ string_bytes s → is_ascii_alphanumeric b = true ∨ is_portable_punct b = true.

Record consumer_ok (p : LifecyclePolicies) (c : DurableConsumerPolicy) : Prop := MkConsumerOk {
  consumer_portable : portable 128 (consumer_id c);
  consumer_ttl : lease_ttl_seconds c ≠ 0 ∧ lease_ttl_seconds c ≤ MAXIMUM_CONSUMER_LEASE_TTL;
  consumer_mode : consumer_required c = true →
    delivery_mode (lifecycle_delivery p) = UntilAcknowledged;
}.

Record lifecycle_ok (p : LifecyclePolicies) (publication : PublicationPolicy) : Prop := MkLifecycleOk {
  artifact_window_ok : artifact_mode (lifecycle_artifacts p) = ArtifactWindowed →
    ∃ w, artifact_window (lifecycle_artifacts p) = Some w ∧ one_limit (ArtifactWindow.values w);
  artifact_window_only : artifact_mode (lifecycle_artifacts p) ≠ ArtifactWindowed →
    artifact_window (lifecycle_artifacts p) = None;
  output_window_ok : output_mode (lifecycle_output p) = OutputWindowed →
    ∃ w, output_window (lifecycle_output p) = Some w ∧ one_limit (OutputWindow.values w);
  output_window_only : output_mode (lifecycle_output p) ≠ OutputWindowed →
    output_window (lifecycle_output p) = None;
  delivery_limits : delivery_mode (lifecycle_delivery p) ≠ DeliveryNone →
    let d := lifecycle_delivery p in
    delivery_max_bytes d ≠ 0 ∧ delivery_max_age_seconds d ≠ 0 ∧
    interval_seconds (pruning d) ≠ 0 ∧ minimum_batch_blocks (pruning d) ≠ 0 ∧
    minimum_batch_changes (pruning d) ≠ 0 ∧ maximum_delete_changes (pruning d) ≠ 0;
  delivery_none : delivery_mode (lifecycle_delivery p) = DeliveryNone →
    consumers (lifecycle_delivery p) = [];
  consumers_ok : Forall (consumer_ok p) (consumers (lifecycle_delivery p));
  consumers_unique : NoDup (consumer_id <$> consumers (lifecycle_delivery p));
  acknowledged_required : delivery_mode (lifecycle_delivery p) = UntilAcknowledged →
    ∃ c, c ∈ consumers (lifecycle_delivery p) ∧ consumer_required c = true;
  undo_kept : PublicationPolicy.publishes_unfinalized publication = true →
    undo_mode (lifecycle_undo p) = Unfinalized;
  checkpoints_kept : checkpoint_mode (lifecycle_checkpoint p) = Automatic →
    keep (lifecycle_checkpoint p) ≠ 0;
  state_kept : state_mode (lifecycle_state p) ≠ Ephemeral;
  state_checkpointed : state_mode (lifecycle_state p) = Checkpointed →
    checkpoint_mode (lifecycle_checkpoint p) = Automatic;
}.

Lemma one_limit_spec (values : list (option Z)) (e1 e2 : string) :
  (if existsb (λ value, value =? 0) (flatten_options values) then Err e1
   else if negb (length (flatten_options values) =? 1)%nat then Err e2 else Ok ()) = Ok () ↔
  one_limit values.
Proof.
  unfold one_limit. destruct (flatten_options values) as [|v [|w l]]; cbn.
  - split; [done|]. by intros (? & ? & _).
  - destruct (Z.eqb_spec v 0); cbn; split; naive_solver.
  - destruct (_ || _); split; try done; by intros (? & ? & _).
Qed.

Lemma portable_spec limit s :
  bool_decide (s = "") || (limit <? String.length s)%nat
  || negb (forallb (λ byte, is_ascii_alphanumeric byte || is_portable_punct byte)
             (string_bytes s)) = false ↔ portable limit s.
Proof.
  unfold portable. rewrite !orb_false_iff, negb_false_iff, forallb_spec, Nat.ltb_ge.
  rewrite bool_decide_eq_false.
  assert (s ≠ "" ↔ (0 < String.length s)%nat) as -> by (destruct s; cbn; split; (done || lia)).
  apply and_iff_compat_l, forall_proper. intros b.
  by rewrite (orb_true_iff (is_ascii_alphanumeric b)).
Qed.

Lemma validate_consumer_Ok p ids c ids' :
  LifecyclePolicies.validate_consumer p ids c = Ok ids' ↔
  consumer_ok p c ∧ (consumer_id c ∉ ids) ∧ ids' = {[consumer_id c]} ∪ ids.
Proof.
  unfold LifecyclePolicies.validate_consumer.
  rewrite !if_Err_Ok, orb_false_iff, portable_spec, bool_decide_eq_false, orb_false_iff,
    Z.eqb_neq, Z.ltb_ge, impl_false, negb_false_iff, bool_decide_eq_true.
  split; [intros ((? & ?) & (? & ?) & ? & [= <-])|intros ([? [? ?] ?] & ? & ->)]; done.
Qed.

Lemma validate_consumers_Ok p cs ids ids' :
  fold_result (LifecyclePolicies.validate_consumer p) ids cs = Ok ids' ↔
  Forall (consumer_ok p) cs ∧ NoDup (consumer_id <$> cs) ∧
  (∀ c, c ∈ cs → consumer_id c ∉ ids) ∧ ids' = list_to_set (consumer_id <$> cs) ∪ ids.
Proof.
  revert ids; induction cs as [|c cs IH]; intros ids; cbn.
  { rewrite union_empty_l_L. split; [|by intros (_ & _ & _ & ->)].
    intros Heq. assert (ids' = ids) as -> by congruence.
    split_and!; [constructor|constructor|set_solver|done]. }
  rewrite result_bind_Ok, Forall_cons, NoDup_cons. setoid_rewrite validate_consumer_Ok.
  setoid_rewrite elem_of_cons. split.
  - intros (ids1 & (Hc & Hn & ->) & (Hall & Hnd & Hd & ->)%IH).
    split_and!; [done|done| |done| |by rewrite union_assoc_L, (union_comm_L (list_to_set _))].
    + rewrite list_elem_of_fmap. intros (d & Heq & Hin). specialize (Hd d Hin). set_solver.
    + intros d [->|Hin]; [done|]. specialize (Hd d Hin). set_solver.
  - intros ([Hc Hall] & [Hn Hnd] & Hd & ->). exists ({[consumer_id c]} ∪ ids).
    split; [split_and!; [done|by apply Hd; left|done]|]. apply IH.
    split_and!; [done..| |by rewrite union_assoc_L, (union_comm_L (list_to_set _))].
    intros d Hin. rewrite not_elem_of_union, not_elem_of_singleton. split; [|by apply Hd; right].
    intros Heq. apply Hn. rewrite <-Heq. by apply list_elem_of_fmap_2.
Qed.

Lemma validate_windows_Ok p :
  LifecyclePolicies.validate_windows p = Ok () ↔
  (artifact_mode (lifecycle_artifacts p) = ArtifactWindowed →
    ∃ w, artifact_window (lifecycle_artifacts p) = Some w ∧ one_limit (ArtifactWindow.values w)) ∧
  (artifact_mode (lifecycle_artifacts p) ≠ ArtifactWindowed →
    artifact_window (lifecycle_artifacts p) = None) ∧
  (output_mode (lifecycle_output p) = OutputWindowed →
    ∃ w, output_window (lifecycle_output p) = Some w ∧ one_limit (OutputWindow.values w)) ∧
  (output_mode (lifecycle_output p) ≠ OutputWindowed →
    output_window (lifecycle_output p) = None).
Proof.
  unfold LifecyclePolicies.validate_windows. rewrite bind_unit_Ok.
  pose proof (λ w, one_limit_spec (ArtifactWindow.values w)) as Ha.
  pose proof (λ w, one_limit_spec (OutputWindow.values w)) as Ho.
  unfold ArtifactWindow.validate, OutputWindow.validate.
  destruct (artifact_mode _), (artifact_window _), (output_mode _), (output_window _);
    rewrite ?Ha, ?Ho; naive_solver.
Qed.

Lemma validate_delivery_Ok p :
  let d := lifecycle_delivery p in
  LifecyclePolicies.validate_delivery p = Ok () ↔
  (delivery_mode d ≠ DeliveryNone →
    delivery_max_bytes d ≠ 0 ∧ delivery_max_age_seconds d ≠ 0 ∧
    interval_seconds (pruning d) ≠ 0 ∧ minimum_batch_blocks (pruning d) ≠ 0 ∧
    minimum_batch_changes (pruning d) ≠ 0 ∧ maximum_delete_changes (pruning d) ≠ 0) ∧
  (delivery_mode d = DeliveryNone → consumers d = []) ∧
  Forall (consumer_ok p) (consumers d) ∧ NoDup (consumer_id <$> consumers d) ∧
  (delivery_mode d = UntilAcknowledged →
    ∃ c, c ∈ consumers d ∧ consumer_required c = true).
Proof.
  cbn zeta. unfold LifecyclePolicies.validate_delivery, LifecyclePolicies.delivery_enabled.
  set (d := lifecycle_delivery p). cbn zeta.
  rewrite !if_Err_Ok, result_bind_Ok, !impl_false, !orb_false_iff, !Z.eqb_neq,
    !negb_true_iff, !negb_false_iff, !bool_decide_eq_false, !bool_decide_eq_true.
  assert ((if bool_decide (delivery_mode d = UntilAcknowledged)
              && negb (existsb consumer_required (consumers d))
           then Err "until_acknowledged delivery requires a required durable consumer"
           else Ok ()) = Ok () ↔
    (delivery_mode d = UntilAcknowledged → ∃ c, c ∈ consumers d ∧ consumer_required c = true)) as Hreq.
  { rewrite if_Err_Ok, impl_false, bool_decide_eq_true, negb_false_iff, existsb_spec. naive_solver. }
  setoid_rewrite Hreq. setoid_rewrite validate_consumers_Ok. split.
  - intros (H1 & H2 & H3 & ids & (Hc & Hn & _ & _) & Hr). split_and!; tauto.
  - intros (H1 & H2 & Hc & Hn & Hr). split_and!; [tauto..|].
    eexists. split_and!; [done|done|set_solver|done|done].
Qed.

(** A policy set is accepted exactly when it is unambiguous and lossless:
    windows exist exactly where their mode needs them, with one positive
    limit; delivery limits are positive; consumers are portable, unique,
    bounded, and required only under acknowledged delivery, which in turn has
    a required one; publication of unfinalized blocks keeps undo; automatic
    checkpoints keep one; and no mode promises what the store does not do. *)
Lemma lifecycle_validate_Ok p publication :
  LifecyclePolicies.validate p publication = Ok () ↔ lifecycle_ok p publication.
Proof.
  unfold LifecyclePolicies.validate. rewrite !bind_unit_Ok.
  rewrite validate_windows_Ok, validate_delivery_Ok. cbn zeta.
  assert (LifecyclePolicies.validate_undo_state p publication = Ok () ↔
    (PublicationPolicy.publishes_unfinalized publication = true →
      undo_mode (lifecycle_undo p) = Unfinalized) ∧
    (checkpoint_mode (lifecycle_checkpoint p) = Automatic → keep (lifecycle_checkpoint p) ≠ 0) ∧
    state_mode (lifecycle_state p) ≠ Ephemeral ∧
    (state_mode (lifecycle_state p) = Checkpointed →
      checkpoint_mode (lifecycle_checkpoint p) = Automatic)) as ->.
  { unfold LifecyclePolicies.validate_undo_state.
    rewrite !if_Err_Ok, !impl_false, Z.eqb_neq.
    destruct (undo_mode _), (checkpoint_mode _), (state_mode _); naive_solver. }
  split; [intros ((? & ? & ? & ?) & (? & ? & ? & ? & ?) & ? & ? & ? & ?); by split|].
  intros []. by split_and!.
Qed.

(** A descriptor is accepted exactly when it declares a requirement, a
    delta schema version and both schema names; asks for log fields only where
    a requirement has log or receipt material; keeps block-versioned delivery
    to block-local processors; and its policies are unambiguous and lossless:
    windows exist exactly where their mode needs them, with one positive
    limit; delivery limits are positive; consumers are portable, unique and
    bounded, and required only under acknowledged delivery, which in turn has
    a required one; publication of unfinalized blocks keeps undo. *)
Theorem descriptor_validate_Ok d :
  ProcessorDescriptor.validate d = Ok () ↔
  requirements d ≠ [] ∧ delta_version (schemas d) ≠ 0 ∧
  entity_schema (schemas d) ≠ "" ∧ change_schema (schemas d) ≠ "" ∧
  (∀ r, r ∈ requirements d → log_fields r ≠ LogFieldSet.NONE →
     ∃ c, c ∈ [Logs; Receipts] ∧ CapabilitySet.contains (capabilities r) c = true) ∧
  (delivery_ordering d = BlockVersionedIdempotent → descriptor_mode d = BlockLocal) ∧
  lifecycle_ok (lifecycle d) (publication d).
Proof.
  unfold ProcessorDescriptor.validate.
  rewrite !if_Err_Ok, lifecycle_validate_Ok, orb_false_iff, impl_false, Z.eqb_neq,
    !bool_decide_eq_false, bool_decide_eq_true, negb_false_iff, bool_decide_eq_true, existsb_false.
  assert (length (requirements d) ≠ 0%nat ↔ requirements d ≠ []) as ->
    by (destruct (requirements d); cbn; split; done).
  assert ((∀ r, r ∈ requirements d →
    negb (log_fields r =? LogFieldSet.NONE) && negb (CapabilitySet.contains
      (CapabilitySet.with_derivable (capabilities r)) Logs) = false) ↔
    (∀ r, r ∈ requirements d → log_fields r ≠ LogFieldSet.NONE →
      ∃ c, c ∈ [Logs; Receipts] ∧ CapabilitySet.contains (capabilities r) c = true)) as ->; [|tauto].
  apply forall_proper; intros r. apply forall_proper; intros _.
  rewrite impl_false, negb_true_iff, negb_false_iff, Z.eqb_neq,
    CapabilitySet.contains_with_derivable.
  apply forall_proper; intros _. cbn. rewrite andb_false_r, orb_false_r, andb_true_r, orb_true_iff.
  split; [intros [?|?]; eexists; (split; [|eassumption]); set_solver|].
  intros (c & Hc & ?). apply elem_of_cons in Hc as [-> | ->%list_elem_of_singleton]; auto.
Qed.

(** ** Legacy instance identifiers *)

Definition is_instance_byte (b : byte) : bool := is_ascii_alphanumeric b || is_instance_punct b.

(** The bytes of a semver text: alphanumerics, hyphens and dots, and the plus
    sign of build metadata. *)
Definition semver_text (v : string) : Prop :=
  ∀ b, b ∈ string_bytes v → is_ascii_alphanumeric b = true ∨ b ∈ string_bytes "-.+".

(** The 64 lowercase digits [hex::encode] writes for 32 bytes. *)
Definition hex_of_hash `{!Hex HE} : Prop := ∀ h : BlockHash,
  String.length (hex_encode (bytes_of h)) = 64%nat ∧
  ∀ b, b ∈ string_bytes (hex_encode (bytes_of h)) → is_ascii_alphanumeric b = true.

Lemma string_bytes_app s t : string_bytes (s +:+ t) = string_bytes s ++ string_bytes t.
Proof.
  unfold string_bytes, String.list_byte_of_string. rewrite <-map_app. f_equal.
  induction s as [|a s IH]; [done|]. exact (f_equal (cons a) IH).
Qed.

Lemma string_length_app s t : String.length (s +:+ t) = (String.length s + String.length t)%nat.
Proof. by rewrite <-!string_bytes_length, string_bytes_app, length_app. Qed.

Lemma instance_new_Ok value i :
  ProcessorInstanceId.new value = Ok i ↔
  i = MkInstanceId value ∧ (0 < String.length value ≤ 192)%nat ∧
  String.prefix ":" value = false ∧ (value ∉ ["."; ".."]) ∧
  ∀ b, b ∈ string_bytes value → is_instance_byte b = true.
Proof.
  unfold ProcessorInstanceId.new. rewrite if_Err_Ok, !orb_false_iff, !bool_decide_eq_false,
    negb_false_iff, forallb_spec, Nat.ltb_ge.
  assert (value ≠ "" ↔ (0 < String.length value)%nat) as -> by (destruct value; cbn; split; (done || lia)).
  unfold is_instance_byte. split; [intros (? & [= <-])|]; intuition congruence.
Qed.

Lemma portable_instance_bytes limit s b :
  portable limit s → b ∈ string_bytes s → is_instance_byte b = true.
Proof.
  intros [_ Hall] Hb. unfold is_instance_byte. rewrite orb_true_iff.
  destruct (Hall b Hb) as [?|Hp]; [by left|right].
  unfold is_portable_punct, is_instance_punct in *. rewrite bool_decide_eq_true in *.
  revert Hp. change (string_bytes "-_.@:") with (string_bytes "-_." ++ [x40; x3a]). set_solver.
Qed.

Lemma portable_no_colon limit s t : portable limit s → String.prefix ":" (s +:+ t) = false.
Proof.
  intros [Hlen Hall]. destruct s as [|a s]; [cbn in Hlen; lia|].
  change (String.prefix ":" (String a s +:+ t)) with
    (if ascii_dec ":" a then String.prefix "" (s +:+ t) else false).
  destruct (ascii_dec ":" a) as [<-|]; [|done]. exfalso.
  destruct (Hall x3a) as [H|H]; [by left|discriminate H..].
Qed.

(** The instance key derived for descriptors written before explicit
    instance ids is accepted exactly when the version carries no build
    metadata and id and version have at most 126 bytes together, as its
    documentation says, and it is the text [id@version:hash]. *)
Theorem legacy_Ok `{!Hex HE} id version h
    (Hhex : hex_of_hash) (Hid : portable 64 (processor_id id)) (Hv : semver_text version) :
  (is_ok (ProcessorInstanceId.legacy id version h) = true ↔
    (x2b ∉ string_bytes version) ∧
    (String.length (processor_id id) + String.length version ≤ 126)%nat) ∧
  (∀ i, ProcessorInstanceId.legacy id version h = Ok i →
    instance_id i = processor_id id +:+ "@" +:+ version +:+ ":" +:+ hex_encode (bytes_of h)).
Proof.
  unfold ProcessorInstanceId.legacy. set (value := processor_id id +:+ _).
  destruct (Hhex h) as [Hhl Hhb].
  assert (String.length value =
    (String.length (processor_id id) + String.length version + 66)%nat) as Hlen.
  { unfold value. rewrite !string_length_app, Hhl. cbn [String.length]. lia. }
  assert (∀ b, b ∈ string_bytes value ↔ b ∈ string_bytes (processor_id id) ∨ b = x40 ∨
    b ∈ string_bytes version ∨ b = x3a ∨ b ∈ string_bytes (hex_encode (bytes_of h))) as Hb.
  { intros b. unfold value. rewrite !string_bytes_app, !elem_of_app.
    change (string_bytes "@") with [x40]. change (string_bytes ":") with [x3a].
    rewrite !list_elem_of_singleton. done. }
  split; [|by intros i [-> _]%instance_new_Ok].
  assert (is_ok (ProcessorInstanceId.new value) = true ↔
    ProcessorInstanceId.new value = Ok (MkInstanceId value)) as ->.
  { destruct (ProcessorInstanceId.new value) as [i|] eqn:Hn; [|split; intros; discriminate].
    by apply instance_new_Ok in Hn as [-> _]. }
  rewrite instance_new_Ok, Hlen. split.
  - intros (_ & Hl & _ & _ & Hall). split; [|lia]. intros Hplus.
    specialize (Hall x2b). rewrite Hb in Hall. discriminate Hall. tauto.
  - intros [Hplus Hl]. split_and!; [done|lia|lia|by eapply portable_no_colon| |].
    + intros Hin. assert (String.length value ≤ 2)%nat; [|lia].
      apply elem_of_cons in Hin as [-> | ->%list_elem_of_singleton]; cbn; lia.
    + intros b [Hi|[->|[Hi|[->|Hi]]]]%Hb; [by eapply portable_instance_bytes|done| |done|].
      * unfold is_instance_byte. rewrite orb_true_iff. destruct (Hv b Hi) as [?|Hp]; [by left|right].
        unfold is_instance_punct. rewrite bool_decide_eq_true.
        change (string_bytes "-_.@:") with [x2d; x5f; x2e; x40; x3a].
        change (string_bytes "-.+") with [x2d; x2e; x2b] in Hp. set_solver.
      * unfold is_instance_byte. by rewrite Hhb.
Qed.

(** 64 zeros for any hash: one instance of [Hex]. *)
Definition zeros_hex : Hex string := {|
  hex_encode := λ _, "0000000000000000000000000000000000000000000000000000000000000000";
  hex_decode := λ _, Err "";
|}.

Lemma legacy_Ok_witness :
  is_ok (@ProcessorInstanceId.legacy string zeros_hex (MkProcessorId "erc20") "1.0.0" hash_zero) = true.
Proof.
  apply (@legacy_Ok string zeros_hex (MkProcessorId "erc20") "1.0.0" hash_zero).
  - intros h. split; [reflexivity|]. intros b Hb.
    assert (b = x30) as ->; [|reflexivity].
    apply (list_elem_of_In (string_bytes _)) in Hb. vm_compute in Hb. repeat destruct Hb as [<-|Hb]; done.
  - split; [vm_compute; lia|]. intros b Hb. left. revert b Hb.
    apply Forall_forall. vm_compute. repeat constructor.
  - intros b Hb. revert b Hb. apply Forall_forall. vm_compute string_bytes.
    repeat (constructor; [first [left; reflexivity | right; apply list_elem_of_In; vm_compute; tauto]|]).
    constructor.
  - split; [|vm_compute; lia]. intros Hb. apply list_elem_of_In in Hb. vm_compute in Hb.
    repeat destruct Hb as [Hb|Hb]; discriminate || done.
Defined.

(** A descriptor for the witnesses. *)
Definition sample_descriptor : ProcessorDescriptor :=
  MkDescriptor (MkProcessorId "erc20") (MkInstanceId "erc20") "1.0.0" hash_zero hash_zero Genesis
    [address_requirement] BlockLocal Canonical PublishAttested lifecycle_default
    (MkSchemas 1 "e" "c").

Example sample_descriptor_valid : ProcessorDescriptor.validate sample_descriptor = Ok ().
Proof. vm_compute. reflexivity. Qed.
