(* ===== verification/Delta.v ===== *)
(** * Encoded deltas and domain changes

    Models [crates/processor-api/src/contract.rs]: the checksummed output of
    the map stage, and the changes a reducer emits. The traits of the file are
    the interface [Overlay] implements. *)
From Stdlib Require Import ZArith Lia Strings.Byte.
From stdpp Require Import gmap strings list list_numbers.
From S2P Require Import Prelude Bytes Chain Capability Provenance Frame Durable Descriptor.

Inductive ProcessorError :=
  | InputError (detail : string)
  | DeltaContract
  | DeltaChecksum
  | DeltaPayload (detail : string)
  | DurableProcessorError (detail : string)
  | CursorMismatch
  | StateError (detail : string)
  | InvariantError (detail : string).

#[export] Instance ProcessorError_eq_dec : EqDecision ProcessorError.
Proof. solve_decision. Defined.

Inductive ChangeOperation := Upsert | Delete.

#[export] Instance ChangeOperation_eq_dec : EqDecision ChangeOperation.
Proof. solve_decision. Defined.

Record DomainChange := MkChange {
  change_kind : string;
  change_key : list byte;
  change_operation : ChangeOperation;
  change_payload : list byte;
}.

#[export] Instance DomainChange_eq_dec : EqDecision DomainChange.
Proof. solve_decision. Defined.

#[export] Instance BlockRef_eq_dec : EqDecision BlockRef.
Proof. solve_decision. Defined.

Record EncodedDelta := MkDelta {
  delta_processor_id : ProcessorId;
  delta_processor_version : string;
  delta_config_hash : BlockHash;
  delta_schema_version : Z;
  delta_chain_id : ChainId;
  delta_block : BlockRef;
  delta_payload : list byte;
  delta_checksum : BlockHash;
}.

#[export] Instance EncodedDelta_eq_dec : EqDecision EncodedDelta.
Proof. solve_decision. Defined.

(** [hash_bytes]: the bytes it feeds the hasher. *)
Definition hash_bytes (bytes : list byte) : list byte :=
  be_bytes 8 (Z.min u64_max (Z.of_nat (length bytes))) ++ bytes.

Module EncodedDelta.

(** The bytes [calculate_checksum] feeds the hasher, in order. *)
Definition preimage (d : EncodedDelta) : list byte :=
  hash_bytes (string_bytes (processor_id (delta_processor_id d)))
  ++ hash_bytes (string_bytes (delta_processor_version d))
  ++ bytes_of (delta_config_hash d)
  ++ be_bytes 2 (delta_schema_version d)
  ++ be_bytes 8 (delta_chain_id d)
  ++ be_bytes 8 (ref_number (delta_block d))
  ++ bytes_of (ref_hash (delta_block d))
  ++ bytes_of (ref_parent_hash (delta_block d))
  ++ be_bytes 8 (ref_timestamp (delta_block d))
  ++ hash_bytes (delta_payload d).

Section delta.
Context `{!Blake3} {PE : Type} `{!Postcard PE EncodedDelta} (show : DurableError PE → string).

Definition calculate_checksum (d : EncodedDelta) : BlockHash := blake3_hash (preimage d).

Definition with_checksum (d : EncodedDelta) (checksum : BlockHash) : EncodedDelta :=
  MkDelta (delta_processor_id d) (delta_processor_version d) (delta_config_hash d)
    (delta_schema_version d) (delta_chain_id d) (delta_block d) (delta_payload d) checksum.

Definition new (descriptor : ProcessorDescriptor) (chain_id : ChainId) (block : BlockRef)
    (payload : list byte) : EncodedDelta :=
  let delta := MkDelta (descriptor_id descriptor) (descriptor_version descriptor)
    (config_hash descriptor) (delta_version (schemas descriptor)) chain_id block payload
    hash_zero in
  with_checksum delta (calculate_checksum delta).

Definition validate (d : EncodedDelta) (descriptor : ProcessorDescriptor)
    : result ProcessorError () :=
  if negb (bool_decide (delta_processor_id d = descriptor_id descriptor))
     || negb (bool_decide (delta_processor_version d = descriptor_version descriptor))
     || negb (bool_decide (delta_config_hash d = config_hash descriptor))
     || negb (delta_schema_version d =? delta_version (schemas descriptor))
  then Err DeltaContract
  else if negb (bool_decide (delta_checksum d = calculate_checksum d)) then Err DeltaChecksum
  else Ok ().

Definition encode_durable (d : EncodedDelta) : result ProcessorError (list byte) :=
  map_err (λ error, DurableProcessorError (show error))
    (Durable.encode ProcessorDelta (delta_schema_version d) d).

Definition decode_durable (descriptor : ProcessorDescriptor) (bytes : list byte)
    : result ProcessorError EncodedDelta :=
  delta ← map_err (λ error, DurableProcessorError (show error))
    (Durable.decode ProcessorDelta (delta_version (schemas descriptor)) bytes);
  _ ← validate delta descriptor;
  Ok delta.

Lemma validate_Ok d descriptor :
  validate d descriptor = Ok () ↔
  delta_processor_id d = descriptor_id descriptor ∧
  delta_processor_version d = descriptor_version descriptor ∧
  delta_config_hash d = config_hash descriptor ∧
  delta_schema_version d = delta_version (schemas descriptor) ∧
  delta_checksum d = calculate_checksum d.
Proof.
  unfold validate. rewrite !if_Err_Ok, !orb_false_iff, !negb_false_iff, !bool_decide_eq_true,
    Z.eqb_eq. tauto.
Qed.

(** [validate] and [decode_durable] accept what [new] builds for the same
    descriptor. *)
Lemma validate_new descriptor chain_id block payload :
  validate (new descriptor chain_id block payload) descriptor = Ok ().
Proof. by apply validate_Ok. Qed.
End delta.

(** The ranges the Rust types fix. *)
Definition wf (d : EncodedDelta) : Prop :=
  is_u16 (delta_schema_version d) ∧ is_u64 (delta_chain_id d) ∧
  is_u64 (ref_number (delta_block d)) ∧ is_u64 (ref_timestamp (delta_block d)) ∧
  is_u64 (Z.of_nat (length (delta_payload d))) ∧
  is_u64 (Z.of_nat (String.length (processor_id (delta_processor_id d)))) ∧
  is_u64 (Z.of_nat (String.length (delta_processor_version d))).

Lemma be_bytes_inj n y z :
  0 ≤ y < 256 ^ Z.of_nat n → 0 ≤ z < 256 ^ Z.of_nat n → be_bytes n y = be_bytes n z → y = z.
Proof.
  intros Hy Hz Heq. by rewrite <-(be_val_bytes_small n y), <-(be_val_bytes_small n z), Heq.
Qed.

Lemma u64_bytes_inj y z : is_u64 y → is_u64 z → be_bytes 8 y = be_bytes 8 z → y = z.
Proof. intros. apply (be_bytes_inj 8); auto using u64_be_range. Qed.

(** Fixed-width parts and length-prefixed parts can be read back. *)
Lemma be_app_inj n y z (l k : list byte) :
  0 ≤ y < 256 ^ Z.of_nat n → 0 ≤ z < 256 ^ Z.of_nat n →
  be_bytes n y ++ l = be_bytes n z ++ k → y = z ∧ l = k.
Proof.
  intros Hy Hz [Hb ->]%app_inj_1; [|by rewrite !length_be_bytes]. eauto using be_bytes_inj.
Qed.

Lemma array_app_inj {n} (a b : array n) (l k : list byte) :
  bytes_of a ++ l = bytes_of b ++ k → a = b ∧ l = k.
Proof.
  intros [Hb ->]%app_inj_1; [|by rewrite !length_bytes_of]. by apply bytes_of_inj in Hb.
Qed.

Lemma hash_bytes_app_inj (x y l k : list byte) :
  is_u64 (Z.of_nat (length x)) → is_u64 (Z.of_nat (length y)) →
  hash_bytes x ++ l = hash_bytes y ++ k → x = y ∧ l = k.
Proof.
  unfold hash_bytes. rewrite <-!app_assoc. intros Hx Hy Heq.
  rewrite !Z.min_r in Heq by uints.
  apply be_app_inj in Heq as [Hl Heq]; [|by apply u64_be_range..].
  apply app_inj_1 in Heq as [-> ->]; [done|lia].
Qed.

(** The checksum commits to the whole delta: two deltas are hashed from
    the same bytes only if they agree in every field but the checksum itself,
    so no part can be moved across a field boundary; and a delta is valid for
    a descriptor exactly when it carries that descriptor's identity and the
    digest of those bytes. *)
Theorem preimage_injective d e (Hd : wf d) (He : wf e) (Heq : preimage d = preimage e) :
  with_checksum d (delta_checksum e) = e.
Proof.
  destruct d as [[id] v c s ch [n h p t] pl cs], e as [[id'] v' c' s' ch' [n' h' p' t'] pl' cs'].
  destruct Hd as (Hs & Hch & Hn & Ht & Hpl & Hid & Hv), He as (Hs' & Hch' & Hn' & Ht' & Hpl' & Hid' & Hv').
  unfold preimage in Heq. cbn in *. rewrite <-string_bytes_length in Hid, Hid', Hv, Hv'.
  apply hash_bytes_app_inj in Heq as [->%string_bytes_inj Heq]; [|done..].
  apply hash_bytes_app_inj in Heq as [->%string_bytes_inj Heq]; [|done..].
  apply array_app_inj in Heq as [-> Heq].
  apply (be_app_inj 2) in Heq as [-> Heq]; [|by apply u16_be_range..].
  apply (be_app_inj 8) in Heq as [-> Heq]; [|by apply u64_be_range..].
  apply (be_app_inj 8) in Heq as [-> Heq]; [|by apply u64_be_range..].
  apply array_app_inj in Heq as [-> Heq]. apply array_app_inj in Heq as [-> Heq].
  apply (be_app_inj 8) in Heq as [-> Heq]; [|by apply u64_be_range..].
  assert (hash_bytes pl ++ [] = hash_bytes pl' ++ []) as Hpay by (rewrite !app_nil_r; exact Heq).
  by apply hash_bytes_app_inj in Hpay as [-> _].
Qed.

Lemma preimage_injective_witness :
  let d := @new Durable.zero_blake3 sample_descriptor 1 (MkBlockRef 7 hash_zero hash_zero 9) [x01] in
  with_checksum d hash_zero = d.
Proof.
  cbn zeta. apply (preimage_injective
    (@new Durable.zero_blake3 sample_descriptor 1 (MkBlockRef 7 hash_zero hash_zero 9) [x01])
    (@new Durable.zero_blake3 sample_descriptor 1 (MkBlockRef 7 hash_zero hash_zero 9) [x01])).
  - vm_compute. repeat split; discriminate.
  - vm_compute. repeat split; discriminate.
  - reflexivity.
Defined.

(** A stored delta reads back as itself under its own descriptor, and
    every delta that reads back belongs to the descriptor asked for and
    carries the digest of its contents. *)
Theorem delta_durable_roundtrip `{!Blake3} {PE} `{!Postcard PE EncodedDelta}
    `{!PostcardLaws PE EncodedDelta} (show : DurableError PE → string) descriptor
    (Hschema : is_u16 (delta_version (schemas descriptor))) :
  (∀ d bytes, validate d descriptor = Ok () → encode_durable show d = Ok bytes →
     decode_durable show descriptor bytes = Ok d) ∧
  (∀ d bytes, decode_durable show descriptor bytes = Ok d →
     validate d descriptor = Ok () ∧ delta_checksum d = calculate_checksum d).
Proof.
  split.
  - intros d bytes Hv He. pose proof (proj1 (validate_Ok _ _) Hv) as (_ & _ & _ & Hs & _).
    unfold encode_durable in He. destruct (Durable.encode _ _ d) as [b|] eqn:Hb; [|done].
    injection He as ->. unfold decode_durable. apply Durable.encode_Ok in Hb as (payload & Hp & Hl & ->).
    rewrite Hs. assert (Durable.decode ProcessorDelta (delta_version (schemas descriptor))
      (Durable.envelope ProcessorDelta (delta_version (schemas descriptor)) payload) = Ok d) as ->.
    { apply Durable.decode_envelope; [done..|]. by apply from_to. }
    cbn. by rewrite Hv.
  - intros d bytes (d' & _ & [Hv [= ->]]%bind_unit_Ok)%result_bind_Ok. split; [done|].
    by apply validate_Ok in Hv as (_ & _ & _ & _ & ?).
Qed.

(** A serializer of one delta: one instance of [Postcard]. *)
Definition sample_delta : EncodedDelta :=
  @new Durable.zero_blake3 sample_descriptor 1 (MkBlockRef 7 hash_zero hash_zero 9) [x01].
Definition one_postcard : Postcard string EncodedDelta := {|
  to_allocvec := λ d, if decide (d = sample_delta) then Ok [x01] else Err "unknown";
  from_bytes := λ _, Ok sample_delta;
|}.

Lemma one_postcard_laws : @PostcardLaws string EncodedDelta one_postcard.
Proof. constructor. intros v payload. cbn. destruct (decide _) as [->|]; done. Qed.

Lemma delta_durable_roundtrip_witness :
  let _ := Durable.zero_blake3 in let _ := one_postcard in
  decode_durable (λ _, "") sample_descriptor (Durable.envelope ProcessorDelta 1 [x01])
    = Ok sample_delta.
Proof.
  cbn zeta.
  destruct (@delta_durable_roundtrip Durable.zero_blake3 string one_postcard one_postcard_laws
    (λ _, "") sample_descriptor) as [H _]; [vm_compute; split; discriminate|].
  apply H; vm_compute; reflexivity.
Defined.

End EncodedDelta.
