(* ===== verification/Rows.v ===== *)
(** * Processor rows and their mutations

    Models the tables of one processor instance in
    [crates/store-sqlite/src/lib.rs] that a reducer writes ([entities],
    [output_entity_meta], [entity_indexes], [processor_state]), the mutations
    a block leaves ([Mutation], [UndoRecord], [UndoMetadata]), and the
    statements that run them forward and backward ([apply_mutations],
    [entity_meta_images], [restore_entity_metadata]).

    Every statement of these functions binds the instance, so a table is the
    map of that instance's rows by the rest of the primary key. The foreign
    key of [output_entity_meta] on [entities] is [ON DELETE CASCADE] and the
    connection enables foreign keys: deleting an entity deletes its
    metadata. *)
From Stdlib Require Import ZArith Lia Strings.Byte.
From stdpp Require Import gmap strings list list_numbers fin_maps.
From S2P Require Import Prelude Bytes Chain Capability Provenance Frame Durable Descriptor Delta.

(** ** Errors and conversions *)

Inductive ConsumerState := ConsumerActive | ConsumerResetRequired | ConsumerRevoked.
#[export] Instance ConsumerState_eq_dec : EqDecision ConsumerState.
Proof. solve_decision. Defined.

Inductive StoreError :=
  | InvalidConfig (detail : string)
  | Sqlx (detail : string)
  | Encoding (detail : string)
  | Numeric (field : string)
  | StoreInvariant (detail : string)
  | StoreProcessor (error : ProcessorError)
  | ConflictingApply (block : BlockNumber)
  | CanonicalConflict (block : BlockNumber) (stored incoming : BlockHash)
  | FinalizedUndo (block : BlockNumber)
  | UndoNotFound (block : BlockNumber)
  | FinalizedCoverageConflict (instance : string) (block : BlockNumber) (finalized covered : BlockHash)
  | AttestedCoverageConflict (instance : string) (block : BlockNumber) (attested covered : BlockHash)
  | ConflictingArtifact (block : BlockNumber)
  | ArtifactStorageLimit (scope : string) (limit_bytes projected_bytes : Z)
  | DeliveryLimit (instance : string) (action : DeliveryLimitAction) (scope : string)
      (limit_bytes projected_bytes incoming_bytes : Z)
  | PhysicalStorageLimit (limit_bytes projected_bytes : Z)
  | DeliveryItemTooLarge (instance : string) (observed_bytes maximum_bytes observed_work_blocks : Z)
      (maximum_work_blocks : option Z)
  | ProcessorPaused (instance : string) (current_bytes resume_below_bytes : Z)
  | ProcessorFailed (instance : string)
  | StoreCursor (detail : string)
  | SavepointChecksum
  | SavepointContract
  | JsonError (detail : string)
  | RecoveryCheckpointNotFound (instance : string) (checkpoint_id : Z)
  | CheckpointRestoreBoundary (checkpoint : BlockNumber) (current : option BlockNumber)
  | ProcessorIdentity (instance : string)
  | ConsumerExists (instance consumer_id : string)
  | ConsumerNotFound (instance consumer_id : string)
  | ConsumerInactive (consumer_id : string) (state : ConsumerState)
  | ConsumerSessionActive (consumer_id : string) (expires_at_unix_ms : Z)
  | ConsumerSessionLost (consumer_id : string) (generation : Z)
  | ChangeCursorExpired (earliest latest : Z)
  | ConsumerMustReset (earliest_available latest_available : option Z)
  | AcknowledgementBackwards (sequence acknowledged : Z)
  | AcknowledgementBeyondHead (sequence head : Z)
  | AcknowledgementBeyondDelivered (sequence delivered : Z)
  | AcknowledgementNotBoundary (sequence : Z)
  | AcknowledgementMidBlock (sequence : Z) (block : BlockNumber).

#[export] Instance StoreError_eq_dec : EqDecision StoreError.
Proof. solve_decision. Defined.

Definition u64_i64 (value : Z) (field : string) : result StoreError Z :=
  if value <=? i64_max then Ok value else Err (Numeric field).

Definition usize_i64 (value : nat) (field : string) : result StoreError Z :=
  if Z.of_nat value <=? i64_max then Ok (Z.of_nat value) else Err (Numeric field).

(** ** Keys *)

Record EntityKey := MkEntityKey { key_collection : string; key_bytes : list byte }.
Record StateKey := MkStateKey { key_namespace : string; state_key_bytes : list byte }.
Record IndexKey := MkIndexKey {
  key_index : string;
  index_key_bytes : list byte;
  index_entity_key : list byte;
}.

#[export] Instance EntityKey_eq_dec : EqDecision EntityKey.
Proof. solve_decision. Defined.
#[export] Instance StateKey_eq_dec : EqDecision StateKey.
Proof. solve_decision. Defined.
#[export] Instance IndexKey_eq_dec : EqDecision IndexKey.
Proof. solve_decision. Defined.
#[export] Program Instance EntityKey_countable : Countable EntityKey :=
  inj_countable' (λ k, (key_collection k, key_bytes k)) (λ p, MkEntityKey p.1 p.2) _.
Next Obligation. by intros []. Qed.
#[export] Program Instance StateKey_countable : Countable StateKey :=
  inj_countable' (λ k, (key_namespace k, state_key_bytes k)) (λ p, MkStateKey p.1 p.2) _.
Next Obligation. by intros []. Qed.
#[export] Program Instance IndexKey_countable : Countable IndexKey :=
  inj_countable' (λ k, (key_index k, index_key_bytes k, index_entity_key k))
    (λ p, MkIndexKey p.1.1 p.1.2 p.2) _.
Next Obligation. by intros []. Qed.

(** The derived [Ord] of the keys: field by field. *)
Definition entity_key_cmp (x y : EntityKey) : comparison :=
  then_with (string_cmp (key_collection x) (key_collection y))
    (bytes_cmp (key_bytes x) (key_bytes y)).
Definition state_key_cmp (x y : StateKey) : comparison :=
  then_with (string_cmp (key_namespace x) (key_namespace y))
    (bytes_cmp (state_key_bytes x) (state_key_bytes y)).
Definition index_key_cmp (x y : IndexKey) : comparison :=
  then_with (string_cmp (key_index x) (key_index y))
    (then_with (bytes_cmp (index_key_bytes x) (index_key_bytes y))
      (bytes_cmp (index_entity_key x) (index_entity_key y))).

#[export] Instance entity_key_comparator : Comparator entity_key_cmp.
Proof.
  apply then_comparator.
  - apply (on_comparator key_collection string_cmp), _.
  - apply (on_comparator key_bytes bytes_cmp), _.
Qed.
#[export] Instance entity_key_eq_comparator : EqComparator entity_key_cmp.
Proof.
  apply then_eq_comparator. intros [c k] [c' k']; cbn.
  by intros ->%(cmp_eq (cmp:=string_cmp)) ->%bytes_cmp_eq.
Qed.
#[export] Instance state_key_comparator : Comparator state_key_cmp.
Proof.
  apply then_comparator.
  - apply (on_comparator key_namespace string_cmp), _.
  - apply (on_comparator state_key_bytes bytes_cmp), _.
Qed.
#[export] Instance state_key_eq_comparator : EqComparator state_key_cmp.
Proof.
  apply then_eq_comparator. intros [c k] [c' k']; cbn.
  by intros ->%(cmp_eq (cmp:=string_cmp)) ->%bytes_cmp_eq.
Qed.
#[export] Instance index_key_comparator : Comparator index_key_cmp.
Proof.
  apply then_comparator; [|apply then_comparator].
  - apply (on_comparator key_index string_cmp), _.
  - apply (on_comparator index_key_bytes bytes_cmp), _.
  - apply (on_comparator index_entity_key bytes_cmp), _.
Qed.
#[export] Instance index_key_eq_comparator : EqComparator index_key_cmp.
Proof.
  apply then_eq_comparator. intros [c k e] [c' k' e']; cbn.
  intros ->%(cmp_eq (cmp:=string_cmp)).
  destruct (bytes_cmp k k') eqn:Hk; [|done..]. apply bytes_cmp_eq in Hk as ->.
  by intros ->%bytes_cmp_eq.
Qed.

(** ** Rows *)

(** One [output_entity_meta] row, its key aside. *)
Record EntityMeta := MkEntityMeta {
  meta_block_number : Z;
  meta_block_timestamp : Z;
  meta_finality : Finality;
  written_at_unix_ms : Z;
  value_bytes : Z;
}.

#[export] Instance EntityMeta_eq_dec : EqDecision EntityMeta.
Proof. solve_decision. Defined.

Record Tables := MkTables {
  entities : gmap EntityKey (list byte);
  output_entity_meta : gmap EntityKey EntityMeta;
  entity_indexes : gset IndexKey;
  processor_state : gmap StateKey (list byte);
}.

Definition with_entities (t : Tables) e m : Tables :=
  MkTables e m (entity_indexes t) (processor_state t).
Definition with_indexes (t : Tables) i : Tables :=
  MkTables (entities t) (output_entity_meta t) i (processor_state t).
Definition with_state (t : Tables) s : Tables :=
  MkTables (entities t) (output_entity_meta t) (entity_indexes t) s.

(** ** Mutations *)

Inductive Mutation :=
  | MutEntity (collection : string) (key : list byte) (before after : option (list byte))
  | MutIndex (index : string) (index_key entity_key : list byte) (before after : bool)
  | MutState (namespace : string) (key : list byte) (before after : option (list byte)).

#[export] Instance Mutation_eq_dec : EqDecision Mutation.
Proof. solve_decision. Defined.

(** One [output_entity_meta] row as it was before a block changed it. *)
Record EntityMetaImage := MkImage {
  image_collection : string;
  image_key : list byte;
  image_meta : EntityMeta;
}.

#[export] Instance EntityMetaImage_eq_dec : EqDecision EntityMetaImage.
Proof. solve_decision. Defined.

Record UndoRecord := MkUndo {
  undo_mutations : list Mutation;
  inverse_changes : list DomainChange;
  prior_cursor : option ProcessorCursor;
  undo_block : BlockRef;
  undo_finality : Finality;
}.

Record UndoMetadata := MkUndoMetadata { undo_entities : list EntityMetaImage }.

Record MutationBatch := MkBatch {
  mutations : list Mutation;
  changes : list DomainChange;
}.

(** [descriptor.lifecycle.output.mode] is not [None]. *)
Definition retains_processor_output (d : ProcessorDescriptor) : bool :=
  negb (bool_decide (output_mode (lifecycle_output (lifecycle d)) = OutputNone)).

Section apply.
(** [now_i64()], read while a mutation's metadata is written. *)
Context (now : Mutation → result StoreError Z).

(** One iteration of [apply_mutations]. *)
Definition apply_mutation (inverse retain_output : bool) (block : BlockRef) (finality : Finality)
    (t : Tables) (mutation : Mutation) : result StoreError Tables :=
  match mutation with
  | MutEntity collection key before after =>
      if negb retain_output then Ok t
      else
        let k := MkEntityKey collection key in
        match (if inverse then before else after) with
        | Some value =>
            number ← u64_i64 (ref_number block) "output block number";
            timestamp ← u64_i64 (ref_timestamp block) "output block timestamp";
            written ← now mutation;
            bytes ← usize_i64 (length value) "output value bytes";
            Ok (with_entities t (<[k := value]> (entities t))
              (<[k := MkEntityMeta number timestamp finality written bytes]>
                 (output_entity_meta t)))
        | None =>
            Ok (with_entities t (delete k (entities t)) (delete k (output_entity_meta t)))
        end
  | MutIndex index index_key entity_key before after =>
      if negb retain_output then Ok t
      else
        let k := MkIndexKey index index_key entity_key in
        if (if inverse then before else after)
        then Ok (with_indexes t ({[k]} ∪ entity_indexes t))
        else Ok (with_indexes t (entity_indexes t ∖ {[k]}))
  | MutState namespace key before after =>
      let k := MkStateKey namespace key in
      match (if inverse then before else after) with
      | Some value => Ok (with_state t (<[k := value]> (processor_state t)))
      | None => Ok (with_state t (delete k (processor_state t)))
      end
  end.

Definition apply_mutations (t : Tables) (mutations : list Mutation)
    (inverse retain_output : bool) (block : BlockRef) (finality : Finality)
    : result StoreError Tables :=
  fold_result (apply_mutation inverse retain_output block finality) t
    (if inverse then rev mutations else mutations).
End apply.

(** The images of the existing entities a block changes. *)
Definition entity_meta_image (t : Tables) (mutation : Mutation) : option EntityMetaImage :=
  match mutation with
  | MutEntity collection key (Some _) _ =>
      MkImage collection key <$> output_entity_meta t !! MkEntityKey collection key
  | _ => None
  end.
Definition entity_meta_images (t : Tables) (mutations : list Mutation) : list EntityMetaImage :=
  omap (entity_meta_image t) mutations.

(** [Ord] on [Finality] follows its levels. *)
Definition finality_max (a b : Finality) : Finality :=
  if Finality.satisfies a b then a else b.

(** The level a before-image is restored at; [coverage] reads
    [processor_coverage] at a height. *)
Definition restored_finality (coverage : BlockNumber → option Finality)
    (finalized_through : option BlockNumber) (image : EntityMetaImage) : Finality :=
  if is_some_and finalized_through (λ through, meta_block_number (image_meta image) <=? through)
  then Finalized
  else match coverage (meta_block_number (image_meta image)) with
  | Some covered => finality_max covered (meta_finality (image_meta image))
  | None => meta_finality (image_meta image)
  end.

(** One iteration of [restore_entity_metadata]: the update touches an
    existing row only. *)
Definition restore_image coverage finalized_through (t : Tables) (image : EntityMetaImage)
    : result StoreError Tables :=
  let finality := restored_finality coverage finalized_through image in
  let k := MkEntityKey (image_collection image) (image_key image) in
  number ← u64_i64 (meta_block_number (image_meta image)) "output block number";
  timestamp ← u64_i64 (meta_block_timestamp (image_meta image)) "output block timestamp";
  bytes ← u64_i64 (value_bytes (image_meta image)) "output value bytes";
  Ok (with_entities t (entities t)
    (alter (λ _, MkEntityMeta number timestamp finality
       (written_at_unix_ms (image_meta image)) bytes) k (output_entity_meta t))).

Definition restore_entity_metadata coverage finalized_through (t : Tables)
    (images : list EntityMetaImage) : result StoreError Tables :=
  fold_result (restore_image coverage finalized_through) t images.

(** ** What a mutation does to the rows *)

(** The rows a reducer owns, without the output metadata. *)
Definition core (t : Tables) : gmap EntityKey (list byte) * gset IndexKey * gmap StateKey (list byte) :=
  (entities t, entity_indexes t, processor_state t).

Definition set_key {K V} `{Countable K} (k : K) (o : option V) (m : gmap K V) : gmap K V :=
  partial_alter (λ _, o) k m.
Definition set_member (k : IndexKey) (b : bool) (s : gset IndexKey) : gset IndexKey :=
  if b then {[k]} ∪ s else s ∖ {[k]}.

Lemma lookup_set_key {K V} `{Countable K} (k k' : K) (o : option V) m :
  set_key k o m !! k' = if decide (k' = k) then o else m !! k'.
Proof.
  unfold set_key. destruct (decide (k' = k)) as [->|]; [apply lookup_partial_alter_eq|].
  by apply lookup_partial_alter_ne.
Qed.

Lemma set_key_undo {K V} `{Countable K} (k : K) (o : option V) m :
  set_key k (m !! k) (set_key k o m) = m.
Proof.
  apply map_eq. intros k'. rewrite !lookup_set_key. by destruct (decide (k' = k)) as [->|].
Qed.

Lemma set_member_undo k b s : set_member k (bool_decide (k ∈ s)) (set_member k b s) = s.
Proof.
  unfold set_member. apply set_eq. intros k'.
  destruct (bool_decide_reflect (k ∈ s)), b, (decide (k' = k)) as [->|]; set_solver.
Qed.

(** One mutation on the rows, in the given direction. *)
Definition core_step (inverse retain_output : bool) c (mutation : Mutation) :=
  let '(e, i, s) := c in
  match mutation with
  | MutEntity collection key before after =>
      if negb retain_output then c
      else (set_key (MkEntityKey collection key) (if inverse then before else after) e, i, s)
  | MutIndex index index_key entity_key before after =>
      if negb retain_output then c
      else (e, set_member (MkIndexKey index index_key entity_key) (if inverse then before else after) i, s)
  | MutState namespace key before after =>
      (e, i, set_key (MkStateKey namespace key) (if inverse then before else after) s)
  end.

(** The stored preimage is what the rows hold. *)
Definition preimage_matches (retain_output : bool)
    (c : gmap EntityKey (list byte) * gset IndexKey * gmap StateKey (list byte))
    (mutation : Mutation) : Prop :=
  let '(e, i, s) := c in
  match mutation with
  | MutEntity collection key before _ =>
      retain_output = true → e !! MkEntityKey collection key = before
  | MutIndex index index_key entity_key before _ =>
      retain_output = true → bool_decide (MkIndexKey index index_key entity_key ∈ i) = before
  | MutState namespace key before _ => s !! MkStateKey namespace key = before
  end.

(** Every preimage is right at its place in the sequence. *)
Fixpoint consistent (retain_output : bool) c (ms : list Mutation) : Prop :=
  match ms with
  | [] => True
  | m :: ms =>
      preimage_matches retain_output c m ∧ consistent retain_output (core_step false retain_output c m) ms
  end.

Lemma consistent_app retain c ms1 ms2 :
  consistent retain c (ms1 ++ ms2) ↔
  consistent retain c ms1 ∧ consistent retain (fold_left (core_step false retain) ms1 c) ms2.
Proof. revert c; induction ms1 as [|m ms1 IH]; intros c; cbn; [tauto|]. rewrite IH. tauto. Qed.

Lemma core_step_undo retain c m :
  preimage_matches retain c m → core_step true retain (core_step false retain c m) m = c.
Proof.
  destruct c as [[e i] s], m, retain; cbn; intros Hm; try specialize (Hm eq_refl);
    try subst; rewrite ?set_key_undo, ?set_member_undo; done.
Qed.

(** Running the mutations backward undoes them. *)
Lemma core_undo retain c ms :
  consistent retain c ms →
  fold_left (core_step true retain) (rev ms) (fold_left (core_step false retain) ms c) = c.
Proof.
  revert c; induction ms as [|m ms IH]; intros c; cbn; [done|]. intros [Hm Hms].
  rewrite fold_left_app, IH by done. by apply core_step_undo.
Qed.

Section apply_facts.
Context (now : Mutation → result StoreError Z).

Lemma apply_mutation_core inverse retain b f t m t' :
  apply_mutation now inverse retain b f t m = Ok t' →
  core t' = core_step inverse retain (core t) m.
Proof.
  unfold apply_mutation, core. destruct m as [c k before after|x k e before after|n k before after].
  - destruct retain; cbn; [|by intros [= <-]].
    destruct (if inverse then before else after) as [v|]; [|by intros [= <-]].
    intros Heq. invert_ok. done.
  - destruct retain; cbn; [|by intros [= <-]]. by destruct (if inverse then before else after); intros [= <-].
  - cbn. by destruct (if inverse then before else after); intros [= <-].
Qed.

Lemma apply_fold_core inverse retain b f t ms t' :
  fold_result (apply_mutation now inverse retain b f) t ms = Ok t' →
  core t' = fold_left (core_step inverse retain) ms (core t).
Proof.
  revert t; induction ms as [|m ms IH]; intros t; cbn; [by intros [= <-]|].
  intros (t1 & H1 & H2)%result_bind_Ok. rewrite (IH t1) by done. f_equal.
  by apply apply_mutation_core in H1.
Qed.

(** Values and block coordinates SQLite can hold, and a clock that reads. *)
Definition value_fits (o : option (list byte)) : Prop :=
  ∀ v, o = Some v → Z.of_nat (length v) ≤ i64_max.
Definition mutation_fits (m : Mutation) : Prop :=
  match m with MutEntity _ _ before after => value_fits before ∧ value_fits after | _ => True end.
Definition block_fits (b : BlockRef) : Prop :=
  ref_number b ≤ i64_max ∧ ref_timestamp b ≤ i64_max.

Lemma u64_i64_fits v field : v ≤ i64_max → u64_i64 v field = Ok v.
Proof. intros. unfold u64_i64. by rewrite (proj2 (Z.leb_le _ _)). Qed.

Lemma usize_i64_fits v field : Z.of_nat v ≤ i64_max → usize_i64 v field = Ok (Z.of_nat v).
Proof. intros. unfold usize_i64. by rewrite (proj2 (Z.leb_le _ _)). Qed.

Lemma apply_mutation_total inverse retain b f t m :
  block_fits b → mutation_fits m → is_ok (now m) = true →
  ∃ t', apply_mutation now inverse retain b f t m = Ok t'.
Proof.
  intros [Hn Ht] Hm Hnow. unfold apply_mutation.
  destruct m as [c k before after|x k e before after|n k before after].
  - destruct retain; [|by eexists]. cbn in *. destruct Hm as [Hb Ha].
    assert (value_fits (if inverse then before else after)) as Hv by by destruct inverse.
    destruct (if inverse then before else after) as [v|]; [|by eexists].
    rewrite !u64_i64_fits, usize_i64_fits by auto. destruct (now _); [by eexists|done].
  - destruct retain, (if inverse then before else after); by eexists.
  - by destruct (if inverse then before else after); eexists.
Qed.

Lemma apply_fold_total inverse retain b f t ms :
  block_fits b → Forall mutation_fits ms → (∀ m, is_ok (now m) = true) →
  ∃ t', fold_result (apply_mutation now inverse retain b f) t ms = Ok t'.
Proof.
  intros Hb Hms Hnow. revert t; induction Hms as [|m ms Hm Hms IH]; intros t; cbn; [by eexists|].
  destruct (apply_mutation_total inverse retain b f t m) as [t1 ->]; [done..|].
  cbn. apply IH.
Qed.

(** *** Metadata *)

Definition mutation_entity (m : Mutation) : option EntityKey :=
  match m with MutEntity c k _ _ => Some (MkEntityKey c k) | _ => None end.
Definition entity_keys (ms : list Mutation) : list EntityKey := omap mutation_entity ms.

Lemma apply_mutation_meta inverse b f t m t' :
  apply_mutation now inverse true b f t m = Ok t' →
  (∀ k, mutation_entity m ≠ Some k → output_entity_meta t' !! k = output_entity_meta t !! k) ∧
  (∀ c k before after, m = MutEntity c k before after →
     is_Some (output_entity_meta t' !! MkEntityKey c k) ↔
     is_Some (if inverse then before else after)).
Proof.
  unfold apply_mutation. cbn [negb].
  destruct m as [c k before after|x k e before after|n k before after].
  - intros Heq. split.
    + intros k' Hk'. cbn in Hk'. assert (MkEntityKey c k ≠ k') by congruence.
      destruct (if inverse then before else after); invert_ok; cbn;
        [by rewrite lookup_insert_ne|by rewrite lookup_delete_ne].
    + intros c' k' before' after' [= -> -> -> ->].
      destruct (if inverse then before' else after'); invert_ok; cbn.
      * rewrite lookup_insert_eq. by split; eexists.
      * rewrite lookup_delete_eq. by split; intros [? ?].
  - destruct (if inverse then before else after); intros [= <-]; done.
  - destruct (if inverse then before else after); intros [= <-]; done.
Qed.

Lemma apply_fold_meta inverse b f t ms t' :
  fold_result (apply_mutation now inverse true b f) t ms = Ok t' → NoDup (entity_keys ms) →
  (∀ k, k ∉ entity_keys ms → output_entity_meta t' !! k = output_entity_meta t !! k) ∧
  (∀ c k before after, MutEntity c k before after ∈ ms →
     is_Some (output_entity_meta t' !! MkEntityKey c k) ↔
     is_Some (if inverse then before else after)).
Proof.
  revert t; induction ms as [|m ms IH]; intros t; cbn.
  { intros [= <-] _. split; [done|]. intros. by apply elem_of_nil in H. }
  intros (t1 & H1 & H2)%result_bind_Ok Hnd.
  pose proof (apply_mutation_meta _ _ _ _ _ _ H1) as [Hne Heq].
  assert (NoDup (entity_keys ms)) as Hnd'.
  { revert Hnd. unfold entity_keys. cbn. destruct (mutation_entity m); [|done]. by intros [_ ?]%NoDup_cons. }
  destruct (IH _ H2 Hnd') as [Hne' Heq']. split.
  - intros k Hk. rewrite Hne', Hne; [done|..].
    + intros Hm. apply Hk. cbn. rewrite Hm. by left.
    + intros Hin. apply Hk. cbn. destruct (mutation_entity m); [by right|done].
  - intros c k before after [<-|Hin]%elem_of_cons; [|by apply Heq'].
    rewrite Hne'; [by apply Heq|]. revert Hnd. cbn. by intros [? _]%NoDup_cons.
Qed.
End apply_facts.

(** ** Restoring metadata *)

Definition image_entity (im : EntityMetaImage) : EntityKey :=
  MkEntityKey (image_collection im) (image_key im).

Definition meta_fits (m : EntityMeta) : Prop :=
  meta_block_number m ≤ i64_max ∧ meta_block_timestamp m ≤ i64_max ∧ value_bytes m ≤ i64_max.

(** The metadata a before-image is restored as: its level may have risen. *)
Definition raise_meta coverage finalized_through (im : EntityMetaImage) : EntityMeta :=
  let m := image_meta im in
  MkEntityMeta (meta_block_number m) (meta_block_timestamp m)
    (restored_finality coverage finalized_through im) (written_at_unix_ms m) (value_bytes m).

Lemma restore_image_fits coverage finalized_through t im :
  meta_fits (image_meta im) →
  restore_image coverage finalized_through t im =
    Ok (with_entities t (entities t) (alter (λ _, raise_meta coverage finalized_through im)
      (image_entity im) (output_entity_meta t))).
Proof. intros (? & ? & ?). unfold restore_image. by rewrite !u64_i64_fits. Qed.

Lemma restore_fold coverage finalized_through t images :
  Forall (λ im, meta_fits (image_meta im)) images → NoDup (image_entity <$> images) →
  ∃ t', restore_entity_metadata coverage finalized_through t images = Ok t' ∧
    core t' = core t ∧
    (∀ k, k ∉ image_entity <$> images → output_entity_meta t' !! k = output_entity_meta t !! k) ∧
    (∀ im, im ∈ images → output_entity_meta t' !! image_entity im =
       (λ _, raise_meta coverage finalized_through im) <$> output_entity_meta t !! image_entity im).
Proof.
  unfold restore_entity_metadata. intros Hf. revert t.
  induction Hf as [|im images Him Hf IH]; intros t Hnd; cbn [fold_result].
  { exists t. split_and!; [done..|]. by intros im ?%elem_of_nil. }
  apply NoDup_cons in Hnd as [Hn Hnd]. rewrite restore_image_fits by done.
  cbn [mbind result_bind].
  edestruct IH as (t' & -> & Hc & Hout & Hin); [done|]. exists t'. split_and!; [done|done|..].
  - intros k Hk. cbn in Hk. rewrite not_elem_of_cons in Hk. destruct Hk as [Hk1 Hk2].
    rewrite Hout by done. by apply lookup_alter_ne.
  - intros im' [->|Him']%elem_of_cons.
    + rewrite Hout by done. apply lookup_alter_eq.
    + rewrite Hin by done. cbn. rewrite lookup_alter_ne; [done|].
      intros Heq. apply Hn. rewrite Heq. by apply (list_elem_of_fmap_2 image_entity).
Qed.

(** Every entity has metadata, as the store writes both together and the
    foreign key removes both together. *)
Definition metadata_total (t : Tables) : Prop :=
  ∀ k, is_Some (output_entity_meta t !! k) ↔ is_Some (entities t !! k).
Definition metadata_fits (t : Tables) : Prop :=
  ∀ k m, output_entity_meta t !! k = Some m → meta_fits m.

Lemma elem_of_images t ms im :
  im ∈ entity_meta_images t ms ↔
  ∃ v after m, im = MkImage (image_collection im) (image_key im) m ∧
    MutEntity (image_collection im) (image_key im) (Some v) after ∈ ms ∧
    output_entity_meta t !! image_entity im = Some m.
Proof.
  unfold entity_meta_images. rewrite list_elem_of_omap. split.
  - intros (mut & Hin & Him). destruct mut as [c k [v|] after| |]; try done. cbn in Him.
    destruct (output_entity_meta t !! _) as [m|] eqn:Hm; [|done]. injection Him as <-.
    exists v, after, m. done.
  - intros (v & after & m & Him & Hin & Hm). eexists. split; [exact Hin|]. cbn.
    unfold image_entity in Hm. rewrite Hm, Him at 1. by rewrite Him.
Qed.

Lemma images_NoDup t ms : NoDup (entity_keys ms) → NoDup (image_entity <$> entity_meta_images t ms).
Proof.
  induction ms as [|m ms IH]; [constructor|]. unfold entity_keys, entity_meta_images. cbn.
  destruct m as [c k before after| |]; cbn; [|exact IH..].
  intros [Hn Hnd]%NoDup_cons. destruct before as [v|]; [|by apply IH]. cbn.
  destruct (output_entity_meta t !! _); [|by apply IH]. cbn. constructor; [|by apply IH].
  rewrite list_elem_of_fmap. intros (im & Heq & (v' & a' & m' & _ & Hin & _)%elem_of_images).
  apply Hn. unfold image_entity in Heq at 1. cbn in Heq. rewrite Heq.
  apply list_elem_of_omap. eexists. split; [exact Hin|]. done.
Qed.

(** The preimage of a key mutated once is what the rows held at first. *)
Lemma consistent_before e i s ms c k before after :
  consistent true (e, i, s) ms → NoDup (entity_keys ms) →
  MutEntity c k before after ∈ ms → e !! MkEntityKey c k = before.
Proof.
  revert e i s; induction ms as [|m ms IH]; intros e i s; [by intros _ _ ?%elem_of_nil|].
  intros [Hm Hms] Hnd Hin. destruct m as [c' k' before' after'|x xk xe b' a'|n nk b' a'].
  - unfold entity_keys in Hnd. cbn in Hnd, Hms. apply NoDup_cons in Hnd as [Hn Hnd].
    apply elem_of_cons in Hin as [Heq|Hin]; [injection Heq as -> -> -> ->; by apply Hm|].
    rewrite <-(IH _ _ _ Hms Hnd Hin), lookup_set_key. rewrite decide_False; [done|].
    intros Heq. apply Hn. rewrite <-Heq. apply list_elem_of_omap.
    eexists; split; [exact Hin|done].
  - apply elem_of_cons in Hin as [|Hin]; [done|]. exact (IH _ _ _ Hms Hnd Hin).
  - apply elem_of_cons in Hin as [|Hin]; [done|]. exact (IH _ _ _ Hms Hnd Hin).
Qed.

Lemma entity_keys_rev ms : entity_keys (rev ms) ≡ₚ entity_keys ms.
Proof. unfold entity_keys. by rewrite <-(Permutation_rev ms). Qed.

(** ** Undo *)

(** What is recorded for the undo of a block: its mutations with right
    preimages, and no entity twice. *)
Definition recorded (retain_output : bool) (t : Tables) (ms : list Mutation) : Prop :=
  consistent retain_output (core t) ms ∧ NoDup (entity_keys ms) ∧ Forall mutation_fits ms.

Lemma apply_fold_meta_none now inverse b f t ms t' :
  fold_result (apply_mutation now inverse false b f) t ms = Ok t' →
  output_entity_meta t' = output_entity_meta t.
Proof.
  revert t; induction ms as [|m ms IH]; intros t; cbn; [by intros [= <-]|].
  intros (t1 & H1 & ->%IH)%result_bind_Ok.
  destruct m; cbn in H1; [by injection H1 as <-..|].
  by destruct (if inverse then before else after); injection H1 as <-.
Qed.

(** Metadata through an apply, its reversal and the restored images. *)
Lemma metadata_round_trip now now' t ms block finality coverage finalized_through
    applied reverted restored :
  recorded true t ms → metadata_total t →
  fold_result (apply_mutation now false true block finality) t ms = Ok applied →
  fold_result (apply_mutation now' true true block finality) applied (rev ms) = Ok reverted →
  (∀ k, k ∉ image_entity <$> entity_meta_images t ms →
     output_entity_meta restored !! k = output_entity_meta reverted !! k) →
  (∀ im, im ∈ entity_meta_images t ms → output_entity_meta restored !! image_entity im =
     (λ _, raise_meta coverage finalized_through im) <$> output_entity_meta reverted !! image_entity im) →
  ∀ k, output_entity_meta restored !! k = output_entity_meta t !! k ∨
    ∃ im, im ∈ entity_meta_images t ms ∧ image_entity im = k ∧
      output_entity_meta t !! k = Some (image_meta im) ∧
      output_entity_meta restored !! k = Some (raise_meta coverage finalized_through im).
Proof.
  intros (Hcons & Hnd & _) Htotal Ha Hr Hout Hin k.
  assert (NoDup (entity_keys (rev ms))) as Hnd' by by rewrite entity_keys_rev.
  apply apply_fold_meta in Ha as [Ha _]; [|done].
  apply apply_fold_meta in Hr as [Hr1 Hr2]; [|done]. cbn in Hr2.
  assert (∀ im, im ∈ entity_meta_images t ms → image_entity im = k → is_Some (entities t !! k)) as Himk.
  { intros im (v & after & m & _ & Hm & _)%elem_of_images <-.
    unfold image_entity. rewrite (consistent_before _ _ _ _ _ _ _ _ Hcons Hnd Hm). by eexists. }
  destruct (decide (k ∈ entity_keys ms)) as [Hk|Hk].
  2: { left. rewrite Hout, Hr1, Ha; [done|done|by rewrite entity_keys_rev|].
       rewrite list_elem_of_fmap. intros (im & -> & (v & after & m & _ & Hm & _)%elem_of_images).
       apply Hk, list_elem_of_omap. eexists; split; [exact Hm|done]. }
  apply list_elem_of_omap in Hk as (mut & Hmut & Hkey).
  destruct mut as [c kb before after| |]; try done. injection Hkey as <-.
  pose proof (consistent_before _ _ _ _ _ _ _ _ Hcons Hnd Hmut) as Hbefore.
  assert (MutEntity c kb before after ∈ rev ms) as Hmut' by by rewrite <-(Permutation_rev ms).
  specialize (Hr2 _ _ _ _ Hmut'). specialize (Htotal (MkEntityKey c kb)).
  rewrite Hbefore in Htotal. destruct before as [v|].
  - destruct (proj2 Htotal) as [m Hm]; [by eexists|]. right.
    assert (MkImage c kb m ∈ entity_meta_images t ms) as Him
      by (apply elem_of_images; by exists v, after, m).
    exists (MkImage c kb m). split_and!; [done|done|done|].
    destruct (proj2 Hr2) as [m' Hm']; [by eexists|].
    pose proof (Hin _ Him) as Hres. unfold image_entity in Hres. cbn in Hres. by rewrite Hres, Hm'.
  - left. assert (output_entity_meta t !! MkEntityKey c kb = None) as ->.
    { apply eq_None_not_Some. intros Hs. apply Htotal in Hs as [? ?]. done. }
    rewrite Hout. { apply eq_None_not_Some. intros Hs. apply Hr2 in Hs as [? ?]. done. }
    rewrite list_elem_of_fmap. intros (im & Heq & Him).
    destruct (Himk im Him (eq_sym Heq)) as [v Hv]. change (entities t !! _) with (entities t !! MkEntityKey c kb) in *. congruence.
Qed.

(** Applying what is recorded, running it backward and restoring the images
    leaves the rows of before. *)
Lemma recorded_undo_restores now now' retain_output t ms block finality coverage finalized_through
    (Hrec : recorded retain_output t ms) (Hblock : block_fits block)
    (Htotal : metadata_total t) (Hfits : metadata_fits t)
    (Hnow : ∀ m, is_ok (now m) = true) (Hnow' : ∀ m, is_ok (now' m) = true) :
  let images := if retain_output then entity_meta_images t ms else [] in
  ∃ applied reverted restored,
    apply_mutations now t ms false retain_output block finality = Ok applied ∧
    apply_mutations now' applied ms true retain_output block finality = Ok reverted ∧
    restore_entity_metadata coverage finalized_through reverted images = Ok restored ∧
    core restored = core t ∧
    (∀ k, output_entity_meta restored !! k = output_entity_meta t !! k ∨
      ∃ im, im ∈ images ∧ image_entity im = k ∧
        output_entity_meta t !! k = Some (image_meta im) ∧
        output_entity_meta restored !! k = Some (raise_meta coverage finalized_through im)).
Proof.
  destruct Hrec as (Hcons & Hnd & Hms). cbn zeta. set (images := if retain_output then _ else _).
  destruct (apply_fold_total now false retain_output block finality t ms) as [applied Ha]; [done..|].
  destruct (apply_fold_total now' true retain_output block finality applied (rev ms)) as [reverted Hr];
    [done|by rewrite <-(Permutation_rev ms)|done|].
  assert (Forall (λ im, meta_fits (image_meta im)) images) as Himf.
  { unfold images. destruct retain_output; [|constructor]. apply Forall_forall.
    intros im (v & a & m & Heq & _ & Hm)%elem_of_images. rewrite Heq. by eapply Hfits. }
  assert (NoDup (image_entity <$> images)) as Himn.
  { unfold images. destruct retain_output; [by apply images_NoDup|constructor]. }
  destruct (restore_fold coverage finalized_through reverted images Himf Himn)
    as (restored & Hres & Hcore & Hout & Hin).
  exists applied, reverted, restored. split_and!; [exact Ha|exact Hr|exact Hres|..].
  - rewrite Hcore. apply apply_fold_core in Ha, Hr. rewrite Hr, Ha. by apply core_undo.
  - intros k. unfold images in *. destruct retain_output.
    2: { left. rewrite Hout by apply not_elem_of_nil.
         rewrite (apply_fold_meta_none now' true _ _ _ _ _ Hr).
         by rewrite (apply_fold_meta_none now false _ _ _ _ _ Ha). }
    by eapply metadata_round_trip.
Qed.

(** Undo restores. Take any rows, and the mutations recorded for a
    block over them. Applying the block succeeds, and then running the
    mutations backward and restoring the metadata images captured before the
    block succeeds too and leaves the very rows of before the block:
    entities, index entries and working state are the same, no metadata row
    is added or lost, every untouched one is the same, and a touched one is
    the same but for the level its own block has reached meanwhile. *)
Theorem undo_restores now now' retain_output t ms block finality coverage finalized_through
    (Hrec : recorded retain_output t ms) (Hblock : block_fits block)
    (Htotal : metadata_total t) (Hfits : metadata_fits t)
    (Hnow : ∀ m, is_ok (now m) = true) (Hnow' : ∀ m, is_ok (now' m) = true) :
  let images := if retain_output then entity_meta_images t ms else [] in
  ∃ applied reverted restored,
    apply_mutations now t ms false retain_output block finality = Ok applied ∧
    apply_mutations now' applied ms true retain_output block finality = Ok reverted ∧
    restore_entity_metadata coverage finalized_through reverted images = Ok restored ∧
    core restored = core t ∧
    (∀ k, output_entity_meta restored !! k = output_entity_meta t !! k ∨
      ∃ im, im ∈ images ∧ image_entity im = k ∧
        output_entity_meta t !! k = Some (image_meta im) ∧
        output_entity_meta restored !! k = Some (raise_meta coverage finalized_through im)).
Proof. by apply recorded_undo_restores. Qed.

(** One stored entity; a block overwrites it, creates a second one with an
    index entry, and writes a state key. *)
Definition sample_meta : EntityMeta := MkEntityMeta 5 50 Finalized 500 1.
Definition sample_tables : Tables :=
  MkTables {[MkEntityKey "c" [x01] := [x0a]]} {[MkEntityKey "c" [x01] := sample_meta]} ∅ ∅.
Definition sample_mutations : list Mutation :=
  [MutEntity "c" [x01] (Some [x0a]) (Some [x0b]); MutEntity "c" [x02] None (Some [x0c]);
   MutIndex "i" [x07] [x02] false true; MutState "n" [x03] None (Some [x0d])].

Lemma undo_restores_witness :
  let t := sample_tables in
  let block := MkBlockRef 6 hash_zero hash_zero 60 in
  ∃ applied reverted restored,
    apply_mutations (λ _, Ok 600) t sample_mutations false true block Attested = Ok applied ∧
    apply_mutations (λ _, Ok 700) applied sample_mutations true true block Attested = Ok reverted ∧
    restore_entity_metadata (λ _, None) None reverted (entity_meta_images t sample_mutations)
      = Ok restored ∧
    core restored = core t.
Proof.
  cbn zeta.
  destruct (undo_restores (λ _, Ok 600) (λ _, Ok 700) true sample_tables sample_mutations
    (MkBlockRef 6 hash_zero hash_zero 60) Attested (λ _, None) None)
    as (applied & reverted & restored & H1 & H2 & H3 & H4 & _).
  - split_and!.
    + cbn. split_and!; intros; reflexivity || exact I.
    + apply (bool_decide_unpack (NoDup (entity_keys sample_mutations))). vm_compute. exact I.
    + repeat constructor; intros v [= <-]; cbn; uints.
  - split; cbn; uints.
  - intros k. cbn. destruct (decide (k = MkEntityKey "c" [x01])) as [->|Hne].
    + rewrite !lookup_singleton_eq. split; intros _; eexists; reflexivity.
    + rewrite !lookup_singleton_ne by congruence. split; intros [? ?]; discriminate.
  - intros k m Hm. unfold sample_tables in Hm. cbn [output_entity_meta] in Hm.
    apply lookup_singleton_Some in Hm as [_ <-]. cbv. split_and!; discriminate.
  - reflexivity.
  - reflexivity.
  - exists applied, reverted, restored. exact (conj H1 (conj H2 (conj H3 H4))).
Defined.
