(* ===== verification/Scan.v ===== *)
(** * Merged prefix scans

    Models [prefix_upper_bound] and [ReducerOverlay::scan_merged_prefix] of
    [crates/store-sqlite/src/lib.rs]: a page-by-page read of committed rows
    under a prefix, merged with the uncommitted writes of a reducer. The rows
    of one scope are a finite map; a query's [ORDER BY key LIMIT page] is
    [map_entries] in byte order, cut to the page. *)
From Stdlib Require Import ZArith Lia Strings.Byte.
From stdpp Require Import gmap strings list list_numbers fin_maps sorting.
From S2P Require Import Prelude Bytes.

(** ** Prefixes as key ranges *)

(** The loop of [prefix_upper_bound], from the index below [n] downward. *)
Fixpoint upper_bound_below (n : nat) (output : list byte) : option (list byte) :=
  match n with
  | O => None
  | S index =>
      match output !! index with
      | Some b =>
          if negb (byte_Z b =? u8_max)
          then Some (take index output ++ [byte_of_Z (Z.min u8_max (byte_Z b + 1))])
          else upper_bound_below index output
      | None => None
      end
  end.

Definition prefix_upper_bound (prefix : list byte) : option (list byte) :=
  upper_bound_below (length prefix) prefix.

(** [key >= lower], and [key < upper] where there is an upper bound. *)
Definition in_range (lower : list byte) (upper : option (list byte)) (key : list byte) : Prop :=
  bytes_le lower key ∧ match upper with Some u => bytes_lt key u | None => True end.

#[export] Instance in_range_dec lower upper key : Decision (in_range lower upper key).
Proof. unfold in_range. destruct upper; apply _. Defined.

(** ** Pages *)

Section scan.
Context (committed : gmap (list byte) (list byte)).

(** One page of committed rows. *)
Definition page (lower : list byte) (upper : option (list byte)) (limit : nat)
    : list (list byte * list byte) :=
  take limit (List.filter (λ row, bool_decide (in_range lower upper row.1))
    (map_entries bytes_le committed)).

(** The loop over one page's rows: those the overlay does not hide. *)
Definition merge_page (overlay : gmap (list byte) (option (list byte)))
    (merged : gmap (list byte) (list byte)) (rows : list (list byte * list byte))
    : gmap (list byte) (list byte) :=
  fold_left (λ merged row,
    if bool_decide (is_Some (overlay !! row.1)) then merged else <[row.1 := row.2]> merged)
    rows merged.

(** [overlay.range(..=last)] counted over the values that are kept. *)
Definition visible_writes (overlay : gmap (list byte) (option (list byte))) (last : list byte) : nat :=
  length (List.filter (λ e, bool_decide (bytes_le e.1 last) && bool_decide (is_Some e.2))
    (map_entries bytes_le overlay)).

(** The page loop; it returns [read_through] and what was merged. *)
Fixpoint scan_loop (fuel : nat) (upper : option (list byte)) (limit : nat)
    (overlay : gmap (list byte) (option (list byte))) (lower : list byte)
    (merged : gmap (list byte) (list byte))
    : option (option (list byte) * gmap (list byte) (list byte)) :=
  match fuel with
  | O => None
  | S fuel =>
      let rows := page lower upper limit in
      let exhausted := (length rows <? limit)%nat in
      let merged := merge_page overlay merged rows in
      match last rows with
      | Some row =>
          if exhausted then Some (None, merged)
          else
            let visible := (size merged + visible_writes overlay row.1)%nat in
            if (limit <=? visible)%nat then Some (Some row.1, merged)
            else scan_loop fuel upper limit overlay (row.1 ++ [x00]) merged
      | None => Some (None, merged)
      end
  end.

(** The overlay's surviving writes, up to the last key read. *)
Definition merge_overlay (overlay : gmap (list byte) (option (list byte)))
    (read_through : option (list byte)) (merged : gmap (list byte) (list byte))
    : gmap (list byte) (list byte) :=
  fold_left (λ merged e,
    match e.2 with
    | Some value =>
        if match read_through with Some through => bool_decide (bytes_le e.1 through) | None => true end
        then <[e.1 := value]> merged else merged
    | None => merged
    end) (map_entries bytes_le overlay) merged.

(** Each round but the last consumes a row, so the number of rows bounds the
    rounds. *)
Definition scan_merged_prefix (prefix : list byte) (limit : nat)
    (overlay : gmap (list byte) (option (list byte))) : option (list (list byte * list byte)) :=
  '(read_through, merged) ← scan_loop (S (size committed)) (prefix_upper_bound prefix) limit
     overlay prefix ∅;
  Some (take limit (map_entries bytes_le (merge_overlay overlay read_through merged))).

End scan.

(** ** The specification *)

(** The committed rows with the overlay's writes on top. *)
Definition patched (committed : gmap (list byte) (list byte))
    (overlay : gmap (list byte) (option (list byte))) : gmap (list byte) (list byte) :=
  merge (λ o c, match o with Some written => written | None => c end) overlay committed.

(** The first [limit] entries under a prefix, in key order. *)
Definition prefix_entries (m : gmap (list byte) (list byte)) (prefix : list byte) (limit : nat)
    : list (list byte * list byte) :=
  take limit (List.filter (λ e, bool_decide (prefix `prefix_of` e.1)) (map_entries bytes_le m)).

Example scan_hides_deleted :
  scan_merged_prefix {[ [x01; x01] := [x0a]; [x01; x02] := [x0b]; [x01; x03] := [x0c]; [x02] := [x0d] ]}
    [x01] 2 {[ [x01; x01] := None; [x01; x04] := Some [x0e] ]}
  = Some [([x01; x02], [x0b]); ([x01; x03], [x0c])].
Proof. vm_compute. reflexivity. Qed.

(** ** Key ranges are prefixes *)

Lemma upper_bound_below_cons n b p :
  upper_bound_below (S n) (b :: p) =
    match upper_bound_below n p with
    | Some u => Some (b :: u)
    | None =>
        if bool_decide (n ≤ length p)%nat && negb (byte_Z b =? u8_max)
        then Some [byte_of_Z (Z.min u8_max (byte_Z b + 1))] else None
    end.
Proof.
  induction n as [|n IH]; [cbn; by destruct (byte_Z b =? u8_max)|].
  cbn [upper_bound_below]. change ((b :: p) !! S n) with (p !! n).
  destruct (p !! n) as [c|] eqn:Hc.
  - destruct (negb (byte_Z c =? u8_max)); [done|]. cbn [upper_bound_below] in IH. rewrite IH.
    apply lookup_lt_Some in Hc. rewrite !bool_decide_eq_true_2 by lia. done.
  - apply lookup_ge_None in Hc. rewrite bool_decide_eq_false_2 by lia. done.
Qed.

Lemma prefix_upper_bound_cons b p :
  prefix_upper_bound (b :: p) =
    match prefix_upper_bound p with
    | Some u => Some (b :: u)
    | None => if negb (byte_Z b =? u8_max) then Some [byte_of_Z (byte_Z b + 1)] else None
    end.
Proof.
  unfold prefix_upper_bound. cbn [length]. rewrite upper_bound_below_cons.
  rewrite bool_decide_eq_true_2 by done. cbn [andb].
  pose proof (byte_Z_range b). destruct (Z.eqb_spec (byte_Z b) u8_max); [done|].
  rewrite Z.min_r by (unfold u8_max in *; lia). done.
Qed.

(** The range of a scan is exactly the keys under the prefix. *)
Lemma prefix_range prefix key :
  in_range prefix (prefix_upper_bound prefix) key ↔ prefix `prefix_of` key.
Proof.
  revert key; induction prefix as [|b p IH]; intros key.
  { split; [intros _; apply prefix_nil|]. intros _. unfold in_range, bytes_le. by destruct key. }
  rewrite prefix_upper_bound_cons. destruct key as [|c k].
  { split; [intros [H _]; by destruct H|]. by intros ?%prefix_nil_inv. }
  specialize (IH k). pose proof (byte_Z_range b). pose proof (byte_Z_range c).
  assert (b :: p `prefix_of` c :: k ↔ b = c ∧ p `prefix_of` k) as ->.
  { split; [intros Hp; split; [by eapply prefix_cons_inv_1|by eapply prefix_cons_inv_2]|].
    intros [-> Hp]. by apply prefix_cons. }
  rewrite <-IH. unfold in_range, bytes_le, bytes_lt. cbn [bytes_cmp].
  destruct (Z.compare_spec (byte_Z b) (byte_Z c)) as [Heq|Hlt|Hgt].
  - apply (inj byte_Z) in Heq as ->. destruct (prefix_upper_bound p) as [u|].
    + cbn [bytes_cmp]. rewrite Z.compare_refl. naive_solver.
    + destruct (Z.eqb_spec (byte_Z c) u8_max) as [|Hne]; cbn [negb]; [naive_solver|].
      cbn [bytes_cmp]. rewrite byte_Z_of_Z, Z.mod_small by (unfold u8_max in *; lia).
      rewrite (proj2 (Z.compare_lt_iff _ _)) by lia. naive_solver.
  - split; [intros [_ Hu]|intros [-> _]; lia]. exfalso.
    destruct (prefix_upper_bound p) as [u|].
    + cbn [bytes_cmp] in Hu. by rewrite (proj2 (Z.compare_gt_iff _ _)) in Hu by lia.
    + destruct (Z.eqb_spec (byte_Z b) u8_max) as [Hm|Hne]; [unfold u8_max in *; lia|].
      cbn [negb bytes_cmp] in Hu. rewrite byte_Z_of_Z, Z.mod_small in Hu by (unfold u8_max in *; lia).
      destruct (Z.compare_spec (byte_Z c) (byte_Z b + 1)); [by destruct k|lia|done].
  - split; [by intros [[] _]|intros [-> _]; lia].
Qed.

(** The smallest key after [l]. *)
Lemma bytes_lt_successor k l : bytes_lt k (l ++ [x00]) ↔ bytes_le k l.
Proof.
  unfold bytes_lt, bytes_le. revert l; induction k as [|a k IH]; intros [|b l]; cbn; try done.
  - pose proof (byte_Z_range a). change (byte_Z x00) with 0.
    destruct (Z.compare_spec (byte_Z a) 0); [destruct k; cbn; naive_solver|lia|naive_solver].
  - destruct (byte_Z a ?= byte_Z b); [apply IH|done|naive_solver].
Qed.

Lemma bytes_le_lt k l : bytes_le k l ↔ ¬ bytes_lt l k.
Proof.
  unfold bytes_le, bytes_lt. rewrite (bytes_cmp_antisym k l). by destruct (bytes_cmp k l).
Qed.

(** ** The loop *)

Section scan_facts.
Context (committed : gmap (list byte) (list byte)) (overlay : gmap (list byte) (option (list byte))).
Context (prefix : list byte) (limit : nat) (Hlimit : (0 < limit)%nat).
Let upper := prefix_upper_bound prefix.

Lemma elem_of_filter_entries (P : list byte * list byte → bool) k v :
  (k, v) ∈ List.filter P (map_entries bytes_le committed) ↔ committed !! k = Some v ∧ P (k, v) = true.
Proof. by rewrite list_elem_of_In, filter_In, <-list_elem_of_In, elem_of_map_entries. Qed.

(** A page holds the rows of the range up to its last key, or all of them. *)
Lemma elem_of_page lower k v :
  (k, v) ∈ page committed lower upper limit ↔
  committed !! k = Some v ∧ in_range lower upper k ∧
  (length (page committed lower upper limit) < limit ∨
   ∃ row, last (page committed lower upper limit) = Some row ∧ bytes_le k row.1)%nat.
Proof.
  unfold page. set (l := List.filter _ _).
  assert (StronglySorted (entry_le bytes_le) l) as Hsorted
    by (apply (filter_sorted bytes_le), (map_entries_sorted bytes_le)).
  assert (NoDup l.*1) as Hnd by (apply filter_NoDup_keys, map_entries_NoDup).
  assert ((k, v) ∈ l ↔ committed !! k = Some v ∧ in_range lower upper k) as Hl.
  { unfold l. by rewrite elem_of_filter_entries, bool_decide_eq_true. }
  rewrite <-Logic.and_assoc, <-Hl. destruct (decide (length (take limit l) < limit)%nat) as [Hlt|Hge].
  - assert (take limit l = l) as Heq by (apply take_ge; rewrite length_take in Hlt; lia). rewrite Heq in *. tauto.
  - destruct (last (take limit l)) as [row|] eqn:Hlast.
    + rewrite (elem_of_take_last bytes_le limit l row) by done. unfold entry_le. naive_solver.
    + apply last_None in Hlast. rewrite Hlast in Hge. cbn in Hge. lia.
Qed.

Lemma lookup_merge_page merged rows k :
  NoDup rows.*1 →
  merge_page overlay merged rows !! k =
    match overlay !! k with
    | Some _ => merged !! k
    | None => match (list_to_map rows : gmap (list byte) (list byte)) !! k with Some v => Some v | None => merged !! k end
    end.
Proof.
  unfold merge_page. revert merged. induction rows as [|[k' v'] rows IH]; intros merged Hnd; cbn.
  { by destruct (overlay !! k). }
  cbn in Hnd. apply NoDup_cons in Hnd as [Hn Hnd]. rewrite IH by done.
  assert (k = k' → list_to_map (M:=gmap _ (list byte)) rows !! k = None) as Hnone.
  { intros ->. by apply not_elem_of_list_to_map. }
  destruct (decide (k = k')) as [->|Hne].
  - rewrite Hnone, lookup_insert_eq by done.
    destruct (overlay !! k') as [w|] eqn:Ho.
    + by rewrite bool_decide_eq_true_2 by by eexists.
    + rewrite bool_decide_eq_false_2 by by intros [? ?]. by rewrite lookup_insert_eq.
  - rewrite lookup_insert_ne by done. destruct (bool_decide _); [done|].
    destruct (overlay !! k), ((list_to_map rows : gmap _ (list byte)) !! k); by rewrite ?lookup_insert_ne.
Qed.

(** What has been merged when the next page starts at [lower]. *)
Definition merged_below (P : list byte → Prop) (merged : gmap (list byte) (list byte)) : Prop :=
  ∀ k v, merged !! k = Some v ↔
    committed !! k = Some v ∧ in_range prefix upper k ∧ overlay !! k = None ∧ P k.

Lemma page_NoDup lower : NoDup (page committed lower upper limit).*1.
Proof.
  unfold page. set (l := List.filter _ _).
  assert (NoDup l.*1) as Hnd by (apply filter_NoDup_keys, map_entries_NoDup).
  rewrite <-(take_drop limit l), fmap_app in Hnd. by apply NoDup_app in Hnd as [? _].
Qed.

Lemma merge_page_spec lower merged (P : list byte → Prop) :
  bytes_le prefix lower → merged_below (λ k, bytes_lt k lower) merged →
  (∀ k v, (k, v) ∈ page committed lower upper limit ↔
     committed !! k = Some v ∧ in_range lower upper k ∧ P k) →
  (∀ k, bytes_lt k lower → P k) →
  merged_below P (merge_page overlay merged (page committed lower upper limit)).
Proof.
  intros Hlower Hm Hp HP k v. rewrite lookup_merge_page by apply page_NoDup.
  pose proof (page_NoDup lower) as Hnd. specialize (Hm k v).
  destruct (overlay !! k) as [w|] eqn:Ho; [rewrite Hm; naive_solver|].
  assert (in_range lower upper k ↔ in_range prefix upper k ∧ ¬ bytes_lt k lower) as Hrange.
  { unfold in_range. rewrite <-(bytes_le_lt lower k). split; [|tauto].
    intros [? ?]. split_and!; [|done|done]. by transitivity lower. }
  destruct (list_to_map _ !! k) as [w|] eqn:Hw.
  - apply elem_of_list_to_map in Hw; [|done]. apply Hp in Hw as (Hc & Hr & HPk).
    apply Hrange in Hr as [Hr Hlt]. split; [intros [= ->]; done|]. intros (Hc' & _). congruence.
  - apply not_elem_of_list_to_map in Hw. rewrite Hm. split.
    + intros (? & ? & ? & Hlt). split_and!; auto.
    + intros (Hc & Hr & _ & HPk). split_and!; [done..|].
      destruct (decide (bytes_lt k lower)) as [|Hnlt]; [done|]. destruct Hw.
      apply (list_elem_of_fmap_2' fst) with (k, v); [|done]. apply Hp. split_and!; [done| |done].
      by apply Hrange.
Qed.

(** The rows not read yet, which bound the rounds that are left. *)
Definition rows_left (lower : list byte) : nat :=
  length (List.filter (λ row, bool_decide (in_range lower upper row.1)) (map_entries bytes_le committed)).

Lemma bytes_lt_le k l : bytes_lt k l → bytes_le k l.
Proof. unfold bytes_lt, bytes_le. by intros ->. Qed.

Lemma bytes_le_succ l : bytes_le l (l ++ [x00]).
Proof. by apply bytes_lt_le, bytes_lt_successor. Qed.

Lemma page_last lower row :
  last (page committed lower upper limit) = Some row →
  committed !! row.1 = Some row.2 ∧ in_range lower upper row.1.
Proof.
  intros Hlast. apply last_Some_elem_of in Hlast. destruct row as [k v].
  apply elem_of_page in Hlast as (? & ? & _). done.
Qed.

Lemma rows_left_decrease lower row :
  last (page committed lower upper limit) = Some row →
  (rows_left (row.1 ++ [x00]) < rows_left lower)%nat.
Proof.
  intros [Hc Hr]%page_last. unfold rows_left.
  apply (length_filter_lt _ _ _ row).
  - intros y. rewrite !bool_decide_eq_true. unfold in_range. intros [Hle Hu]. split; [|done].
    destruct Hr as [Hl _]. transitivity row.1; [done|]. transitivity (row.1 ++ [x00]); [|done].
    apply bytes_le_succ.
  - destruct row as [k v]. by apply elem_of_map_entries.
  - by rewrite bool_decide_eq_true.
  - rewrite bool_decide_eq_false. intros [Hle _]. apply bytes_le_lt in Hle. apply Hle.
    by apply bytes_lt_successor.
Qed.

Lemma merged_below_ext P Q merged :
  (∀ k, P k ↔ Q k) → merged_below P merged → merged_below Q merged.
Proof. intros HPQ Hm k v. by rewrite (Hm k v), HPQ. Qed.

(** Enough fuel gives the result, and the result has every row before the
    last key read, and enough of them. *)
Lemma scan_loop_spec fuel lower merged :
  bytes_le prefix lower → merged_below (λ k, bytes_lt k lower) merged →
  (rows_left lower < fuel)%nat →
  ∃ read_through merged',
    scan_loop committed fuel upper limit overlay lower merged = Some (read_through, merged') ∧
    match read_through with
    | None => merged_below (λ _, True) merged'
    | Some through => merged_below (λ k, bytes_le k through) merged' ∧
        (limit ≤ size merged' + visible_writes overlay through)%nat
    end.
Proof.
  revert lower merged; induction fuel as [|fuel IH]; intros lower merged Hlower Hm Hfuel; [lia|].
  cbn [scan_loop]. set (rows := page committed lower upper limit).
  assert ((length rows < limit)%nat → merged_below (λ _, True) (merge_page overlay merged rows)) as Hall.
  { intros Hlen. eapply merge_page_spec; [done|done| |done].
    intros k v. rewrite elem_of_page. unfold rows in Hlen. tauto. }
  destruct (last rows) as [row|] eqn:Hlast.
  2: { eexists _, _. split; [done|]. apply last_None in Hlast. apply Hall. rewrite Hlast. done. }
  destruct (Nat.ltb_spec (length rows) limit) as [Hlt|Hlen].
  { eexists _, _. split; [done|]. by apply Hall. }
  assert (merged_below (λ k, bytes_le k row.1) (merge_page overlay merged rows)) as Hm'.
  { eapply merge_page_spec; [done|done| |].
    - intros k v. rewrite elem_of_page. fold rows. rewrite Hlast.
      split; [|naive_solver]. intros (? & ? & [?|(row' & [= <-] & ?)]); [lia|done].
    - intros k Hk. apply page_last in Hlast as [_ [Hr _]].
      transitivity lower; [by apply bytes_lt_le|done]. }
  destruct (Nat.leb_spec limit (size (merge_page overlay merged rows) + visible_writes overlay row.1)).
  { eexists _, _. split; [done|]. done. }
  apply IH.
  - apply page_last in Hlast as [_ [Hr _]]. transitivity row.1; [by transitivity lower|apply bytes_le_succ].
  - eapply merged_below_ext; [|exact Hm']. intros k. by rewrite bytes_lt_successor.
  - pose proof (rows_left_decrease lower row Hlast). lia.
Qed.
End scan_facts.

(** ** The merge *)

Definition reaches (read_through : option (list byte)) (k : list byte) : bool :=
  match read_through with Some through => bool_decide (bytes_le k through) | None => true end.

Definition merge_write (read_through : option (list byte)) (merged : gmap (list byte) (list byte))
    (e : list byte * option (list byte)) : gmap (list byte) (list byte) :=
  match e.2 with
  | Some value => if reaches read_through e.1 then <[e.1 := value]> merged else merged
  | None => merged
  end.

Lemma merge_overlay_fold overlay read_through merged :
  merge_overlay overlay read_through merged =
    fold_left (merge_write read_through) (map_entries bytes_le overlay) merged.
Proof. reflexivity. Qed.

Lemma lookup_merge_writes read_through l merged k :
  NoDup l.*1 →
  fold_left (merge_write read_through) l merged !! k =
    match (list_to_map l : gmap (list byte) (option (list byte))) !! k with
    | Some (Some v) => if reaches read_through k then Some v else merged !! k
    | _ => merged !! k
    end.
Proof.
  revert merged; induction l as [|[k' w] l IH]; intros merged Hnd; [done|]. cbn in Hnd |- *.
  apply NoDup_cons in Hnd as [Hn Hnd]. rewrite IH by done.
  destruct (decide (k = k')) as [->|Hne].
  - rewrite lookup_insert_eq, (not_elem_of_list_to_map_1 l k') by done.
    unfold merge_write; cbn. destruct w as [v|]; [|done].
    destruct (reaches _ _); [by rewrite lookup_insert_eq|done].
  - rewrite lookup_insert_ne by done. assert (merge_write read_through merged (k', w) !! k = merged !! k) as ->; [|done].
    unfold merge_write; cbn. destruct w as [v|]; [|done].
    destruct (reaches _ k'); [by rewrite lookup_insert_ne|done].
Qed.

Lemma lookup_merge_overlay overlay read_through merged k :
  merge_overlay overlay read_through merged !! k =
    match overlay !! k with
    | Some (Some v) => if reaches read_through k then Some v else merged !! k
    | _ => merged !! k
    end.
Proof.
  rewrite merge_overlay_fold, lookup_merge_writes by apply map_entries_NoDup.
  by rewrite list_to_map_entries.
Qed.

Lemma size_merge_writes through l merged :
  NoDup l.*1 → (∀ e, e ∈ l → merged !! e.1 = None) →
  size (fold_left (merge_write (Some through)) l merged) =
    (size merged + length (List.filter
      (λ e, bool_decide (bytes_le e.1 through) && bool_decide (is_Some e.2)) l))%nat.
Proof.
  revert merged; induction l as [|[k w] l IH]; intros merged Hnd Hnone; cbn; [lia|].
  cbn in Hnd. apply NoDup_cons in Hnd as [Hn Hnd].
  assert (merged !! k = None) as Hk by (apply (Hnone (k, w)); by left).
  rewrite IH; [|done|].
  - unfold merge_write, reaches. cbn. destruct w as [v|]; cbn.
    + destruct (bool_decide (bytes_le k through)); cbn; [|done].
      rewrite map_size_insert_None by done. lia.
    + by rewrite andb_false_r.
  - intros e He. assert (k ≠ e.1) as Hne.
    { intros ->. apply Hn. by apply list_elem_of_fmap_2. }
    assert (merged !! e.1 = None) as Hm by (apply Hnone; by right).
    unfold merge_write. cbn. destruct w as [v|]; [|done].
    destruct (bool_decide _); [by rewrite lookup_insert_ne|done].
Qed.

Lemma lookup_patched committed overlay k :
  patched committed overlay !! k =
    match overlay !! k with Some w => w | None => committed !! k end.
Proof.
  unfold patched. rewrite lookup_merge. unfold diag_None.
  by destruct (overlay !! k), (committed !! k).
Qed.

Lemma scan_merged_prefix_correct committed overlay prefix limit
    (Hlimit : (0 < limit)%nat)
    (Hoverlay : ∀ k, is_Some (overlay !! k) → prefix `prefix_of` k) :
  scan_merged_prefix committed prefix limit overlay =
    Some (prefix_entries (patched committed overlay) prefix limit).
Proof.
  unfold scan_merged_prefix.
  destruct (scan_loop_spec committed overlay prefix limit Hlimit (S (size committed)) prefix ∅)
    as (read_through & merged & Hloop & Hspec).
  - done.
  - intros k v. rewrite lookup_empty. split; [done|]. intros (_ & [Hle _] & _ & Hlt).
    by apply bytes_le_lt in Hle.
  - unfold rows_left. rewrite <-(length_map_entries bytes_le).
    apply Nat.lt_succ_r, filter_length_le.
  - rewrite Hloop. cbn [mbind option_bind]. f_equal. unfold prefix_entries.
    set (M := merge_overlay overlay read_through merged).
    assert (∀ k v, M !! k = Some v ↔ patched committed overlay !! k = Some v ∧
      bool_decide (prefix `prefix_of` k) && reaches read_through k = true) as HM.
    { intros k v. unfold M. rewrite lookup_merge_overlay, lookup_patched, andb_true_iff, bool_decide_eq_true.
      assert (merged !! k = Some v ↔ committed !! k = Some v ∧ prefix `prefix_of` k ∧
        overlay !! k = None ∧ reaches read_through k = true) as Hmerged.
      { destruct read_through as [through|]; [destruct Hspec as [Hspec _]|];
          rewrite (Hspec k v), prefix_range; cbn; rewrite ?bool_decide_eq_true; naive_solver. }
      pose proof (Hoverlay k) as Hk.
      destruct (overlay !! k) as [[w|]|]; [destruct (reaches read_through k)|..]; naive_solver. }
    rewrite (map_entries_filter bytes_le (λ e, bool_decide (prefix `prefix_of` e.1)
      && reaches read_through e.1) (patched committed overlay) M) by exact HM.
    destruct read_through as [through|]; cbn [reaches].
    2: { f_equal. apply filter_ext. intros e. apply andb_true_r. }
    rewrite filter_andb. set (F := List.filter (λ e, bool_decide (prefix `prefix_of` e.1)) _).
    rewrite (filter_split bytes_le (λ e, bool_decide (bytes_le e.1 through)) F) at 2.
    + rewrite take_app_le; [done|]. unfold F. rewrite <-filter_andb.
      rewrite <-(map_entries_filter bytes_le _ (patched committed overlay) M) by exact HM.
      rewrite length_map_entries. unfold M. destruct Hspec as [Hmerged Hvisible].
      rewrite merge_overlay_fold, size_merge_writes; [exact Hvisible|apply map_entries_NoDup|].
      intros [k w] Hin%elem_of_map_entries. cbn. apply eq_None_not_Some. intros [v Hv].
      apply Hmerged in Hv as (_ & _ & Hnone & _). congruence.
    + apply (filter_sorted bytes_le), (map_entries_sorted bytes_le).
    + intros x y Hxy. rewrite !bool_decide_eq_true. by transitivity y.1.
Qed.

(** C30: a scan reads through the overlay. Whatever rows are committed and
    whatever a reducer has written or deleted under the prefix, the paged
    scan terminates (each round but the last consumes a committed row) and
    returns exactly the first [limit] entries, in key order, of the committed
    rows with the writes on top: deleted rows never take a place, and no
    write is returned before a committed key it follows has been read. *)
Theorem scan_merged_prefix_spec committed overlay prefix limit
    (Hlimit : (0 < limit)%nat)
    (Hoverlay : ∀ k, is_Some (overlay !! k) → prefix `prefix_of` k) :
  scan_merged_prefix committed prefix limit overlay =
    Some (prefix_entries (patched committed overlay) prefix limit).
Proof. by apply scan_merged_prefix_correct. Qed.

Lemma scan_merged_prefix_spec_witness :
  scan_merged_prefix {[ [x01; x01] := [x0a]; [x01; x02] := [x0b]; [x02] := [x0c] ]} [x01] 2
    {[ [x01; x01] := None ]} =
  Some (prefix_entries (patched {[ [x01; x01] := [x0a]; [x01; x02] := [x0b]; [x02] := [x0c] ]}
    {[ [x01; x01] := None ]}) [x01] 2).
Proof.
  apply (scan_merged_prefix_spec {[ [x01; x01] := [x0a]; [x01; x02] := [x0b]; [x02] := [x0c] ]}
    {[ [x01; x01] := None ]} [x01] 2).
  - lia.
  - intros k [w Hw]. apply lookup_singleton_Some in Hw as [<- _]. by exists [x01].
Defined.
