(* ===== verification/Overlay.v ===== *)
(** * The reducer overlay

    Models [ReducerTransaction] of [crates/processor-api/src/contract.rs], the
    only surface a reducer writes through, as a class, and its implementation
    [ReducerOverlay] of [crates/store-sqlite/src/lib.rs] as an instance: rows
    are read on first use, kept with their preimage, and turned into mutations
    when the block is done. The other instance writes straight to the rows;
    it is the specification.

    A database read of the overlay returns the rows [t]; its I/O errors are
    not modelled. *)
From Stdlib Require Import ZArith Lia Strings.Byte.
From stdpp Require Import gmap strings list list_numbers fin_maps sorting.
From S2P Require Import Prelude Bytes Chain Capability Provenance Frame Durable Descriptor Delta Rows Scan.

(** ** The interface *)

Class ReducerTransaction (S : Type) := {
  state_get : string → list byte → S → option (list byte) * S;
  state_put : string → list byte → list byte → S → S;
  state_delete : string → list byte → S → S;
  state_scan_prefix : string → list byte → N → S →
    result ProcessorError (list (list byte * list byte)) * S;
  get : string → list byte → S → option (list byte) * S;
  put : string → list byte → list byte → S → S;
  remove : string → list byte → S → S;
  index_put : string → list byte → list byte → S → S;
  index_delete : string → list byte → list byte → S → S;
  scan_prefix : string → list byte → N → S →
    result ProcessorError (list (list byte * list byte)) * S;
  emit : DomainChange → S → S;
}.

(** ** Rows of one scope *)

(** The rows whose key [sel] maps into a scope, by their key in it. *)
Definition project {K V} `{Countable K} (sel : K → option (list byte)) (m : gmap K V)
    : gmap (list byte) V :=
  list_to_map (omap (λ e, (λ b, (b, e.2)) <$> sel e.1) (map_to_list m)).

Definition in_collection (collection : string) (k : EntityKey) : option (list byte) :=
  if bool_decide (key_collection k = collection) then Some (key_bytes k) else None.
Definition in_namespace (namespace : string) (k : StateKey) : option (list byte) :=
  if bool_decide (key_namespace k = namespace) then Some (state_key_bytes k) else None.

(** The [starts_with] filter on the overlay's keys. *)
Definition with_prefix {K} (prefix : list byte) (sel : K → option (list byte)) (k : K)
    : option (list byte) :=
  b ← sel k; if bool_decide (prefix `prefix_of` b) then Some b else None.

(** ** The overlay *)

Record OverlayValue (A : Type) := MkOverlayValue { ov_before : A; ov_after : A }.
Arguments MkOverlayValue {A}.
Arguments ov_before {A}.
Arguments ov_after {A}.

Record ReducerOverlay := MkOverlay {
  ov_state : gmap StateKey (OverlayValue (option (list byte)));
  ov_entities : gmap EntityKey (OverlayValue (option (list byte)));
  ov_indexes : gmap IndexKey (OverlayValue bool);
  ov_changes : list DomainChange;
  window_dependent : bool;
}.

Definition overlay_new : ReducerOverlay := MkOverlay ∅ ∅ ∅ [] false.

(** Keep a row already read; otherwise its value is both images. *)
Definition load {K A} `{Countable K} (k : K) (value : A) (m : gmap K (OverlayValue A))
    : gmap K (OverlayValue A) :=
  match m !! k with Some _ => m | None => <[k := MkOverlayValue value value]> m end.

(** [get_mut(key).expect(..).after = value]. *)
Definition set_after {K A} `{Countable K} (k : K) (value : A) (m : gmap K (OverlayValue A))
    : gmap K (OverlayValue A) :=
  alter (λ v, MkOverlayValue (ov_before v) value) k m.

Definition with_ov_state (o : ReducerOverlay) m : ReducerOverlay :=
  MkOverlay m (ov_entities o) (ov_indexes o) (ov_changes o) (window_dependent o).
Definition with_ov_entities (o : ReducerOverlay) m (dependent : bool) : ReducerOverlay :=
  MkOverlay (ov_state o) m (ov_indexes o) (ov_changes o) dependent.
Definition with_ov_indexes (o : ReducerOverlay) m (dependent : bool) : ReducerOverlay :=
  MkOverlay (ov_state o) (ov_entities o) m (ov_changes o) dependent.

Module ReducerOverlay.
Section overlay.
Context (t : Tables).

Definition load_state (namespace : string) (key : list byte) (o : ReducerOverlay) : ReducerOverlay :=
  let k := MkStateKey namespace key in
  with_ov_state o (load k (processor_state t !! k) (ov_state o)).

Definition load_entity (collection : string) (key : list byte) (o : ReducerOverlay) : ReducerOverlay :=
  let k := MkEntityKey collection key in
  with_ov_entities o (load k (entities t !! k) (ov_entities o)) (window_dependent o).

Definition load_index (index : string) (index_key entity_key : list byte) (o : ReducerOverlay)
    : ReducerOverlay :=
  let k := MkIndexKey index index_key entity_key in
  with_ov_indexes o (load k (bool_decide (k ∈ entity_indexes t)) (ov_indexes o)) (window_dependent o).

Definition state_get namespace key (o : ReducerOverlay) : option (list byte) * ReducerOverlay :=
  let o := load_state namespace key o in
  (ov_state o !! MkStateKey namespace key ≫= ov_after, o).

Definition state_put namespace key value (o : ReducerOverlay) : ReducerOverlay :=
  let o := load_state namespace key o in
  with_ov_state o (set_after (MkStateKey namespace key) (Some value) (ov_state o)).

Definition state_delete namespace key (o : ReducerOverlay) : ReducerOverlay :=
  let o := load_state namespace key o in
  with_ov_state o (set_after (MkStateKey namespace key) None (ov_state o)).

(** [None] stands for rounds left over, which there never are. *)
Definition scan_rows committed prefix limit overlay
    : result ProcessorError (list (list byte * list byte)) :=
  Ok (default [] (scan_merged_prefix committed prefix (N.to_nat limit) overlay)).

Definition state_scan_prefix namespace prefix limit (o : ReducerOverlay)
    : result ProcessorError (list (list byte * list byte)) * ReducerOverlay :=
  if (limit =? 0)%N || (10000 <? limit)%N
  then (Err (StateError "scan limit must be in 1..=10000"), o)
  else
    let overlay := ov_after <$> project (with_prefix prefix (in_namespace namespace)) (ov_state o) in
    (scan_rows (project (in_namespace namespace) (processor_state t)) prefix limit overlay, o).

Definition get collection key (o : ReducerOverlay) : option (list byte) * ReducerOverlay :=
  let o := load_entity collection key (with_ov_entities o (ov_entities o) true) in
  (ov_entities o !! MkEntityKey collection key ≫= ov_after, o).

Definition put collection key value (o : ReducerOverlay) : ReducerOverlay :=
  let o := load_entity collection key o in
  let k := MkEntityKey collection key in
  let unchanged := bool_decide ((ov_entities o !! k ≫= ov_after) = Some value) in
  with_ov_entities o (set_after k (Some value) (ov_entities o)) (window_dependent o || unchanged).

Definition remove collection key (o : ReducerOverlay) : ReducerOverlay :=
  let o := load_entity collection key o in
  with_ov_entities o (set_after (MkEntityKey collection key) None (ov_entities o)) (window_dependent o).

Definition index_put index index_key entity_key (o : ReducerOverlay) : ReducerOverlay :=
  let o := load_index index index_key entity_key o in
  let k := MkIndexKey index index_key entity_key in
  let present := match ov_indexes o !! k with Some v => ov_after v | None => false end in
  with_ov_indexes o (set_after k true (ov_indexes o)) (window_dependent o || present).

Definition index_delete index index_key entity_key (o : ReducerOverlay) : ReducerOverlay :=
  let o := load_index index index_key entity_key o in
  with_ov_indexes o (set_after (MkIndexKey index index_key entity_key) false (ov_indexes o))
    (window_dependent o).

Definition scan_prefix collection prefix limit (o : ReducerOverlay)
    : result ProcessorError (list (list byte * list byte)) * ReducerOverlay :=
  if (limit =? 0)%N || (10000 <? limit)%N
  then (Err (StateError "scan limit must be in 1..=10000"), o)
  else
    let o := with_ov_entities o (ov_entities o) true in
    let overlay := ov_after <$> project (with_prefix prefix (in_collection collection)) (ov_entities o) in
    (scan_rows (project (in_collection collection) (entities t)) prefix limit overlay, o).

Definition emit (change : DomainChange) (o : ReducerOverlay) : ReducerOverlay :=
  MkOverlay (ov_state o) (ov_entities o) (ov_indexes o) (ov_changes o ++ [change]) (window_dependent o).

End overlay.

(** The mutations of the changed rows, in the order of the [BTreeMap]s. *)
Definition changed {A} `{EqDecision A} (v : OverlayValue A) : bool :=
  negb (bool_decide (ov_before v = ov_after v)).

Definition entity_mutation (e : EntityKey * OverlayValue (option (list byte))) : option Mutation :=
  if changed e.2
  then Some (MutEntity (key_collection e.1) (key_bytes e.1) (ov_before e.2) (ov_after e.2)) else None.
Definition index_mutation (e : IndexKey * OverlayValue bool) : option Mutation :=
  if changed e.2
  then Some (MutIndex (key_index e.1) (index_key_bytes e.1) (index_entity_key e.1)
    (ov_before e.2) (ov_after e.2)) else None.
Definition state_mutation (e : StateKey * OverlayValue (option (list byte))) : option Mutation :=
  if changed e.2
  then Some (MutState (key_namespace e.1) (state_key_bytes e.1) (ov_before e.2) (ov_after e.2)) else None.

Definition into_batch (o : ReducerOverlay) : MutationBatch :=
  MkBatch
    (omap entity_mutation (map_entries (cmp_le entity_key_cmp) (ov_entities o))
     ++ omap index_mutation (map_entries (cmp_le index_key_cmp) (ov_indexes o))
     ++ omap state_mutation (map_entries (cmp_le state_key_cmp) (ov_state o)))
    (ov_changes o).

(** [before.clone_from(&after)] on the changed values. *)
Definition rebase {A} `{EqDecision A} (v : OverlayValue A) : OverlayValue A :=
  if changed v then MkOverlayValue (ov_after v) (ov_after v) else v.

Definition take_batch (o : ReducerOverlay) : MutationBatch * ReducerOverlay :=
  (into_batch o,
   MkOverlay (rebase <$> ov_state o) (rebase <$> ov_entities o) (rebase <$> ov_indexes o) []
     (window_dependent o)).

End ReducerOverlay.

Definition overlay_transaction (t : Tables) : ReducerTransaction ReducerOverlay := {|
  state_get := ReducerOverlay.state_get t;
  state_put := ReducerOverlay.state_put t;
  state_delete := ReducerOverlay.state_delete t;
  state_scan_prefix := ReducerOverlay.state_scan_prefix t;
  get := ReducerOverlay.get t;
  put := ReducerOverlay.put t;
  remove := ReducerOverlay.remove t;
  index_put := ReducerOverlay.index_put t;
  index_delete := ReducerOverlay.index_delete t;
  scan_prefix := ReducerOverlay.scan_prefix t;
  emit := ReducerOverlay.emit;
|}.

(** ** The specification: writing straight to the rows *)

Record View := MkView {
  view_entities : gmap EntityKey (list byte);
  view_indexes : gset IndexKey;
  view_state : gmap StateKey (list byte);
  view_changes : list DomainChange;
}.

Definition view_core (v : View) := (view_entities v, view_indexes v, view_state v).
Definition view_of (t : Tables) : View := MkView (entities t) (entity_indexes t) (processor_state t) [].

Definition direct_scan (rows : gmap (list byte) (list byte)) prefix limit
    : result ProcessorError (list (list byte * list byte)) :=
  if (limit =? 0)%N || (10000 <? limit)%N
  then Err (StateError "scan limit must be in 1..=10000")
  else Ok (prefix_entries rows prefix (N.to_nat limit)).

#[export] Instance direct_transaction : ReducerTransaction View := {|
  state_get n k v := (view_state v !! MkStateKey n k, v);
  state_put n k value v := MkView (view_entities v) (view_indexes v)
    (set_key (MkStateKey n k) (Some value) (view_state v)) (view_changes v);
  state_delete n k v := MkView (view_entities v) (view_indexes v)
    (set_key (MkStateKey n k) None (view_state v)) (view_changes v);
  state_scan_prefix n prefix limit v :=
    (direct_scan (project (in_namespace n) (view_state v)) prefix limit, v);
  get c k v := (view_entities v !! MkEntityKey c k, v);
  put c k value v := MkView (set_key (MkEntityKey c k) (Some value) (view_entities v))
    (view_indexes v) (view_state v) (view_changes v);
  remove c k v := MkView (set_key (MkEntityKey c k) None (view_entities v))
    (view_indexes v) (view_state v) (view_changes v);
  index_put x k e v := MkView (view_entities v) (set_member (MkIndexKey x k e) true (view_indexes v))
    (view_state v) (view_changes v);
  index_delete x k e v := MkView (view_entities v) (set_member (MkIndexKey x k e) false (view_indexes v))
    (view_state v) (view_changes v);
  scan_prefix c prefix limit v :=
    (direct_scan (project (in_collection c) (view_entities v)) prefix limit, v);
  emit change v := MkView (view_entities v) (view_indexes v) (view_state v) (view_changes v ++ [change]);
|}.

(** ** Reducers *)

(** A reducer sees its transaction only through these calls; it continues on
    what a call returned. *)
Inductive Reducer (A : Type) :=
  | Done (a : A)
  | StateGet (namespace : string) (key : list byte) (next : option (list byte) → Reducer A)
  | StatePut (namespace : string) (key value : list byte) (next : Reducer A)
  | StateDelete (namespace : string) (key : list byte) (next : Reducer A)
  | StateScan (namespace : string) (prefix : list byte) (limit : N)
      (next : result ProcessorError (list (list byte * list byte)) → Reducer A)
  | Get (collection : string) (key : list byte) (next : option (list byte) → Reducer A)
  | Put (collection : string) (key value : list byte) (next : Reducer A)
  | Remove (collection : string) (key : list byte) (next : Reducer A)
  | IndexPut (index : string) (index_key entity_key : list byte) (next : Reducer A)
  | IndexDelete (index : string) (index_key entity_key : list byte) (next : Reducer A)
  | Scan (collection : string) (prefix : list byte) (limit : N)
      (next : result ProcessorError (list (list byte * list byte)) → Reducer A)
  | Emit (change : DomainChange) (next : Reducer A).
Arguments Done {A}.
Arguments StateGet {A}.
Arguments StatePut {A}.
Arguments StateDelete {A}.
Arguments StateScan {A}.
Arguments Get {A}.
Arguments Put {A}.
Arguments Remove {A}.
Arguments IndexPut {A}.
Arguments IndexDelete {A}.
Arguments Scan {A}.
Arguments Emit {A}.

Fixpoint run {S A} `{!ReducerTransaction S} (p : Reducer A) (s : S) : A * S :=
  match p with
  | Done a => (a, s)
  | StateGet n k next => let '(r, s) := state_get n k s in run (next r) s
  | StatePut n k v next => run next (state_put n k v s)
  | StateDelete n k next => run next (state_delete n k s)
  | StateScan n prefix limit next => let '(r, s) := state_scan_prefix n prefix limit s in run (next r) s
  | Get c k next => let '(r, s) := get c k s in run (next r) s
  | Put c k v next => run next (put c k v s)
  | Remove c k next => run next (remove c k s)
  | IndexPut x k e next => run next (index_put x k e s)
  | IndexDelete x k e next => run next (index_delete x k e s)
  | Scan c prefix limit next => let '(r, s) := scan_prefix c prefix limit s in run (next r) s
  | Emit change next => run next (emit change s)
  end.

(** ** The overlay refines the rows *)

(** The rows with the overlay's writes on top. *)
Definition patch {K V} `{Countable K} (m : gmap K (OverlayValue (option V))) (base : gmap K V)
    : gmap K V :=
  merge (λ o b, match o with Some w => ov_after w | None => b end) m base.
Definition patch_set (m : gmap IndexKey (OverlayValue bool)) (base : gset IndexKey) : gset IndexKey :=
  dom (base.filter (λ e : IndexKey * OverlayValue bool, ov_after e.2 = true) m) ∪ (base ∖ dom m).

Definition view (t : Tables) (o : ReducerOverlay) : View :=
  MkView (patch (ov_entities o) (entities t)) (patch_set (ov_indexes o) (entity_indexes t))
    (patch (ov_state o) (processor_state t)) (ov_changes o).

#[local] Arguments patch : simpl never.
#[local] Arguments load : simpl never.
#[local] Arguments set_after : simpl never.
#[local] Arguments patch_set : simpl never.

Lemma lookup_patch {K V} `{Countable K} (m : gmap K (OverlayValue (option V))) base k :
  patch m base !! k = match m !! k with Some w => ov_after w | None => base !! k end.
Proof. unfold patch. rewrite lookup_merge. unfold diag_None. by destruct (m !! k), (base !! k). Qed.

Lemma elem_of_patch_set m base k :
  k ∈ patch_set m base ↔ match m !! k with Some w => ov_after w = true | None => k ∈ base end.
Proof.
  unfold patch_set. rewrite elem_of_union, elem_of_difference, !elem_of_dom.
  assert (is_Some (base.filter (λ e : IndexKey * OverlayValue bool, ov_after e.2 = true) m !! k) ↔
    ∃ w, m !! k = Some w ∧ ov_after w = true) as ->.
  { unfold is_Some. by setoid_rewrite map_lookup_filter_Some. }
  destruct (m !! k) as [w|] eqn:Hm; split.
  - intros [(w' & [= <-] & ?)|[_ []]]; eauto.
  - intros ?. left. eauto.
  - intros [(w' & ? & _)|[? _]]; done.
  - intros ?. right. split; [done|]. by intros [? ?].
Qed.

Lemma lookup_load {K A} `{Countable K} (k k' : K) (value : A) m :
  load k value m !! k' = match m !! k' with
    | Some w => Some w | None => if decide (k' = k) then Some (MkOverlayValue value value) else None end.
Proof.
  unfold load. destruct (m !! k) as [w|] eqn:Hk.
  - destruct (decide (k' = k)) as [->|]; [by rewrite Hk|by destruct (m !! k')].
  - destruct (decide (k' = k)) as [->|]; [by rewrite lookup_insert_eq, Hk|].
    rewrite lookup_insert_ne by done. by destruct (m !! k').
Qed.

Lemma patch_load {K V} `{Countable K} (k : K) m (base : gmap K V) :
  patch (load k (base !! k) m) base = patch m base.
Proof.
  apply map_eq. intros k'. rewrite !lookup_patch, lookup_load.
  destruct (m !! k'); [done|]. by destruct (decide (k' = k)) as [->|].
Qed.

Lemma patch_set_after {K V} `{Countable K} (k : K) (value : option V) m base :
  patch (set_after k value (load k (base !! k) m)) base = set_key k value (patch m base).
Proof.
  apply map_eq. intros k'. rewrite lookup_set_key, !lookup_patch. unfold set_after.
  destruct (decide (k' = k)) as [->|Hne].
  - rewrite lookup_alter_eq, lookup_load. destruct (m !! k); [done|]. by rewrite decide_True.
  - rewrite lookup_alter_ne, lookup_load by done. rewrite decide_False by done. by destruct (m !! k').
Qed.

Lemma patch_set_load k m base :
  patch_set (load k (bool_decide (k ∈ base)) m) base = patch_set m base.
Proof.
  apply set_eq. intros k'. rewrite !elem_of_patch_set, lookup_load.
  destruct (m !! k'); [done|]. destruct (decide (k' = k)) as [->|]; [|done].
  cbn. by rewrite bool_decide_eq_true.
Qed.

Lemma patch_set_set_after k value m base :
  patch_set (set_after k value (load k (bool_decide (k ∈ base)) m)) base =
    set_member k value (patch_set m base).
Proof.
  apply set_eq. intros k'. rewrite elem_of_patch_set. unfold set_after, set_member.
  destruct (decide (k' = k)) as [->|Hne].
  - rewrite lookup_alter_eq, lookup_load. rewrite decide_True by done.
    destruct (m !! k), value; cbn; set_solver.
  - rewrite lookup_alter_ne, lookup_load by done. rewrite decide_False by done.
    pose proof (elem_of_patch_set m base k') as Hk'.
    destruct (m !! k'), value; cbn; set_solver.
Qed.

(** *** Scopes *)

Section project.
Context {K V : Type} `{Countable K} (sel : K → option (list byte)) (mk : list byte → K).
Context (P : list byte → Prop) `{!∀ b, Decision (P b)}.
Context (Hsel : ∀ k b, sel k = Some b ↔ k = mk b ∧ P b) (Hmk : Inj (=) (=) mk).

Lemma elem_of_project_list (l : list (K * V)) b v :
  (b, v) ∈ omap (λ e, (λ b, (b, e.2)) <$> sel e.1) l ↔ (mk b, v) ∈ l ∧ P b.
Proof.
  rewrite list_elem_of_omap. split.
  - intros ([k w] & Hin & Hs). cbn in Hs. destruct (sel k) as [b'|] eqn:Hb; [|done].
    cbn in Hs. injection Hs as -> ->. apply Hsel in Hb as [-> HP]. done.
  - intros [Hin HP]. exists (mk b, v). split; [done|]. cbn.
    by rewrite (proj2 (Hsel (mk b) b)).
Qed.

Lemma project_list_NoDup (l : list (K * V)) :
  NoDup l.*1 → NoDup (omap (λ e, (λ b, (b, e.2)) <$> sel e.1) l).*1.
Proof.
  induction l as [|[k v] l IH]; cbn; [constructor|]. intros [Hk Hl]%NoDup_cons.
  destruct (sel k) as [b|] eqn:Hb; cbn; [|by apply IH]. constructor; [|by apply IH].
  intros ([b' w] & Heq & [Hin _]%elem_of_project_list)%list_elem_of_fmap. cbn in Heq. subst b'.
  apply Hsel in Hb as [-> _]. apply Hk. by apply (list_elem_of_fmap_2' fst) with (mk b, w).
Qed.

Lemma lookup_project (m : gmap K V) b :
  project sel m !! b = if decide (P b) then m !! mk b else None.
Proof.
  apply option_eq. intros v. unfold project.
  rewrite <-elem_of_list_to_map by (apply project_list_NoDup, NoDup_fst_map_to_list).
  rewrite elem_of_project_list, elem_of_map_to_list. destruct (decide (P b)); naive_solver.
Qed.
End project.

Lemma in_collection_Some c k b : in_collection c k = Some b ↔ k = MkEntityKey c b ∧ True.
Proof. unfold in_collection. destruct k as [c' k']; cbn. case_bool_decide; naive_solver. Qed.
Lemma in_namespace_Some n k b : in_namespace n k = Some b ↔ k = MkStateKey n b ∧ True.
Proof. unfold in_namespace. destruct k as [c' k']; cbn. case_bool_decide; naive_solver. Qed.

Lemma with_prefix_Some {K} (sel : K → option (list byte)) mk prefix k b :
  (∀ k b, sel k = Some b ↔ k = mk b ∧ True) →
  with_prefix prefix sel k = Some b ↔ k = mk b ∧ prefix `prefix_of` b.
Proof.
  intros Hsel. unfold with_prefix. specialize (Hsel k). destruct (sel k) as [b'|]; cbn.
  - case_bool_decide; naive_solver.
  - naive_solver.
Qed.

#[export] Instance entity_key_inj c : Inj (=) (=) (MkEntityKey c).
Proof. by intros ?? [=]. Qed.
#[export] Instance state_key_inj n : Inj (=) (=) (MkStateKey n).
Proof. by intros ?? [=]. Qed.

Lemma prefix_entries_ext m1 m2 prefix limit :
  (∀ k, prefix `prefix_of` k → m1 !! k = m2 !! k) →
  prefix_entries m1 prefix limit = prefix_entries m2 prefix limit.
Proof.
  intros Heq. unfold prefix_entries. f_equal.
  set (m := base.filter (λ e : list byte * list byte, prefix `prefix_of` e.1) m1).
  assert (∀ k v, m !! k = Some v ↔ m1 !! k = Some v ∧ bool_decide (prefix `prefix_of` k) = true) as H1.
  { intros k v. unfold m. by rewrite map_lookup_filter_Some, bool_decide_eq_true. }
  rewrite <-(map_entries_filter bytes_le _ m1 m) by exact H1.
  apply (map_entries_filter bytes_le). intros k v. rewrite H1. cbn. rewrite bool_decide_eq_true.
  split; intros [Hm Hp]; rewrite Heq in * by done; done.
Qed.

(** A merged scan of one scope is a scan of the scope of the patched rows. *)
Lemma scan_rows_patched {K} `{Countable K} (sel : K → option (list byte)) mk
    (m : gmap K (OverlayValue (option (list byte)))) (base : gmap K (list byte)) prefix limit :
  (∀ k b, sel k = Some b ↔ k = mk b ∧ True) → Inj (=) (=) mk → limit ≠ 0%N →
  ReducerOverlay.scan_rows (project sel base) prefix limit
    (ov_after <$> project (with_prefix prefix sel) m) =
  Ok (prefix_entries (project sel (patch m base)) prefix (N.to_nat limit)).
Proof.
  intros Hsel Hmk Hlimit. unfold ReducerOverlay.scan_rows.
  assert (∀ b, (ov_after <$> project (with_prefix prefix sel) m) !! b =
    if decide (prefix `prefix_of` b) then ov_after <$> m !! mk b else None) as Hov.
  { intros b. rewrite lookup_fmap.
    rewrite (lookup_project _ mk (λ b, prefix `prefix_of` b));
      [|intros; by apply with_prefix_Some].
    by destruct (decide (prefix `prefix_of` b)). }
  rewrite scan_merged_prefix_correct; [|lia|].
  2: { intros b. rewrite Hov. destruct (decide _); [done|]. by intros [? ?]. }
  cbn. f_equal. apply prefix_entries_ext. intros b Hb.
  rewrite lookup_patched, Hov, decide_True by done.
  rewrite !(lookup_project sel mk (λ _, True)) by done. rewrite !decide_True by done.
  rewrite lookup_patch. by destruct (m !! mk b).
Qed.

(** *** Simulation *)

Lemma lookup_load_after {K V} `{Countable K} (k : K) m (base : gmap K V) :
  load k (base !! k) m !! k ≫= ov_after = patch m base !! k.
Proof. rewrite lookup_load, lookup_patch, decide_True by done. by destruct (m !! k). Qed.

(** The preimages are the rows [row] of before the block; a row not read
    yet still reads from [base]. *)
Definition preimages_of {K A} `{Countable K} (base row : K → A) (m : gmap K (OverlayValue A)) : Prop :=
  ∀ k, match m !! k with Some v => ov_before v | None => base k end = row k.

Lemma preimages_load {K A} `{Countable K} (base row : K → A) k m :
  preimages_of base row m → preimages_of base row (load k (base k) m).
Proof.
  intros Hm k'. specialize (Hm k'). rewrite lookup_load. destruct (m !! k') as [w|]; [done|].
  by destruct (decide (k' = k)) as [->|].
Qed.

Lemma preimages_set_after {K A} `{Countable K} (base row : K → A) k value m :
  preimages_of base row m → preimages_of base row (set_after k value m).
Proof.
  intros Hm k'. specialize (Hm k'). unfold set_after. destruct (decide (k' = k)) as [->|].
  - rewrite lookup_alter_eq. by destruct (m !! k).
  - by rewrite lookup_alter_ne.
Qed.

(** The rows a block starts from are [c]; the stored ones are [t]'s. *)
Record loaded (t : Tables) (c : gmap EntityKey (list byte) * gset IndexKey * gmap StateKey (list byte))
    (o : ReducerOverlay) : Prop := MkLoaded {
  loaded_entities : preimages_of (λ k, entities t !! k) (λ k, c.1.1 !! k) (ov_entities o);
  loaded_indexes : preimages_of (λ k, bool_decide (k ∈ entity_indexes t))
    (λ k, bool_decide (k ∈ c.1.2)) (ov_indexes o);
  loaded_state : preimages_of (λ k, processor_state t !! k) (λ k, c.2 !! k) (ov_state o);
}.

Lemma loaded_iff t c o :
  loaded t c o ↔ preimages_of (λ k, entities t !! k) (λ k, c.1.1 !! k) (ov_entities o) ∧
    preimages_of (λ k, bool_decide (k ∈ entity_indexes t)) (λ k, bool_decide (k ∈ c.1.2)) (ov_indexes o) ∧
    preimages_of (λ k, processor_state t !! k) (λ k, c.2 !! k) (ov_state o).
Proof. split; [intros []|intros (? & ? & ?)]; by repeat split. Qed.

Definition simulates (t : Tables) c (o : ReducerOverlay) (v : View) : Prop :=
  loaded t c o ∧ view t o = v.

Section simulation.
Context (t : Tables) (c0 : gmap EntityKey (list byte) * gset IndexKey * gmap StateKey (list byte)).
#[local] Instance current_transaction : ReducerTransaction ReducerOverlay := overlay_transaction t.

Ltac simulate :=
  unfold simulates; rewrite !loaded_iff; intros [(He & Hi & Hs) <-]; unfold view; cbn;
  rewrite ?patch_set_after, ?patch_load, ?patch_set_set_after, ?patch_set_load, ?lookup_load_after;
  repeat split; try reflexivity; try assumption;
  first [apply (preimages_load (λ k, entities t !! k))
        |apply (preimages_load (λ k, bool_decide (k ∈ entity_indexes t)))
        |apply (preimages_load (λ k, processor_state t !! k))
        |apply preimages_set_after; apply (preimages_load (λ k, entities t !! k))
        |apply preimages_set_after; apply (preimages_load (λ k, bool_decide (k ∈ entity_indexes t)))
        |apply preimages_set_after; apply (preimages_load (λ k, processor_state t !! k))];
  assumption.

Lemma sim_state_get o v n k : simulates t c0 o v →
  (state_get n k o).1 = (state_get n k v).1 ∧ simulates t c0 (state_get n k o).2 (state_get n k v).2.
Proof. simulate. Qed.
Lemma sim_state_put o v n k x : simulates t c0 o v → simulates t c0 (state_put n k x o) (state_put n k x v).
Proof. simulate. Qed.
Lemma sim_state_delete o v n k : simulates t c0 o v → simulates t c0 (state_delete n k o) (state_delete n k v).
Proof. simulate. Qed.
Lemma sim_get o v c k : simulates t c0 o v →
  (get c k o).1 = (get c k v).1 ∧ simulates t c0 (get c k o).2 (get c k v).2.
Proof. simulate. Qed.
Lemma sim_put o v c k x : simulates t c0 o v → simulates t c0 (put c k x o) (put c k x v).
Proof. simulate. Qed.
Lemma sim_remove o v c k : simulates t c0 o v → simulates t c0 (remove c k o) (remove c k v).
Proof. simulate. Qed.
Lemma sim_index_put o v x k e : simulates t c0 o v → simulates t c0 (index_put x k e o) (index_put x k e v).
Proof. simulate. Qed.
Lemma sim_index_delete o v x k e : simulates t c0 o v → simulates t c0 (index_delete x k e o) (index_delete x k e v).
Proof. simulate. Qed.
Lemma sim_emit o v change : simulates t c0 o v → simulates t c0 (emit change o) (emit change v).
Proof. simulate. Qed.

Lemma sim_scan o v c prefix limit : simulates t c0 o v →
  (scan_prefix c prefix limit o).1 = (scan_prefix c prefix limit v).1 ∧
  simulates t c0 (scan_prefix c prefix limit o).2 (scan_prefix c prefix limit v).2.
Proof.
  intros [[He Hi Hs] <-]. cbn. unfold ReducerOverlay.scan_prefix, direct_scan.
  destruct (N.eqb_spec limit 0); [by repeat split|]. cbn [orb].
  destruct (10000 <? limit)%N; [by repeat split|]. cbn [fst snd]. split; [|by repeat split].
  apply (scan_rows_patched (in_collection c) (MkEntityKey c)); [apply in_collection_Some|apply _|done].
Qed.

Lemma sim_state_scan o v n prefix limit : simulates t c0 o v →
  (state_scan_prefix n prefix limit o).1 = (state_scan_prefix n prefix limit v).1 ∧
  simulates t c0 (state_scan_prefix n prefix limit o).2 (state_scan_prefix n prefix limit v).2.
Proof.
  intros [[He Hi Hs] <-]. cbn. unfold ReducerOverlay.state_scan_prefix, direct_scan.
  destruct (N.eqb_spec limit 0); [by repeat split|]. cbn [orb].
  destruct (10000 <? limit)%N; [by repeat split|]. cbn [fst snd]. split; [|by repeat split].
  apply (scan_rows_patched (in_namespace n) (MkStateKey n)); [apply in_namespace_Some|apply _|done].
Qed.

(** Whatever a reducer does, both transactions answer it alike. *)
Lemma sim_run {A} (p : Reducer A) o v : simulates t c0 o v →
  (run p o).1 = (run p v).1 ∧ simulates t c0 (run p o).2 (run p v).2.
Proof.
  revert o v.
  induction p as [a|n k next IH|n k x next IH|n k next IH|n pre limit next IH|c k next IH
    |c k x next IH|c k next IH|x k e next IH|x k e next IH|c pre limit next IH|change next IH];
    intros o v Hsim; cbn [run].
  - done.
  - destruct (sim_state_get o v n k Hsim) as [He Hs].
    destruct (state_get n k o), (state_get n k v). cbn in He, Hs. subst. auto.
  - by apply IH, sim_state_put.
  - by apply IH, sim_state_delete.
  - destruct (sim_state_scan o v n pre limit Hsim) as [He Hs].
    destruct (state_scan_prefix n pre limit o), (state_scan_prefix n pre limit v).
    cbn in He, Hs. subst. auto.
  - destruct (sim_get o v c k Hsim) as [He Hs].
    destruct (get c k o), (get c k v). cbn in He, Hs. subst. auto.
  - by apply IH, sim_put.
  - by apply IH, sim_remove.
  - by apply IH, sim_index_put.
  - by apply IH, sim_index_delete.
  - destruct (sim_scan o v c pre limit Hsim) as [He Hs].
    destruct (scan_prefix c pre limit o), (scan_prefix c pre limit v).
    cbn in He, Hs. subst. auto.
  - by apply IH, sim_emit.
Qed.
End simulation.

(** ** The batch *)

(** The row a mutation writes. *)
Inductive Row := RowEntity (k : EntityKey) | RowIndex (k : IndexKey) | RowState (k : StateKey).

Definition mutation_row (m : Mutation) : Row :=
  match m with
  | MutEntity c k _ _ => RowEntity (MkEntityKey c k)
  | MutIndex x k e _ _ => RowIndex (MkIndexKey x k e)
  | MutState n k _ _ => RowState (MkStateKey n k)
  end.

Lemma preimage_matches_step retain c m m' :
  mutation_row m ≠ mutation_row m' → preimage_matches retain c m' →
  preimage_matches retain (core_step false retain c m) m'.
Proof.
  destruct c as [[e i] s]. intros Hne Hm.
  destruct m, m'; cbn in *; destruct retain; cbn; try done; intros;
    rewrite ?lookup_set_key, ?decide_False by congruence; auto.
  rewrite <-(Hm eq_refl). apply bool_decide_ext. unfold set_member. destruct after; set_solver.
Qed.

(** Mutations of distinct rows with the first rows' preimages are
    consistent in any order. *)
Lemma consistent_distinct retain c ms :
  NoDup (mutation_row <$> ms) → Forall (preimage_matches retain c) ms → consistent retain c ms.
Proof.
  revert c; induction ms as [|m ms IH]; intros c Hnd Hall; cbn; [done|].
  cbn in Hnd. apply NoDup_cons in Hnd as [Hn Hnd]. apply Forall_cons in Hall as [Hm Hall].
  split; [done|]. apply IH; [done|]. rewrite Forall_forall in *. intros m' Hin.
  apply preimage_matches_step; [|by apply Hall]. intros Heq. apply Hn. rewrite Heq.
  by apply list_elem_of_fmap_2.
Qed.

Section batch_rows.
Context {K A : Type} (f : K * OverlayValue A → option Mutation) (g : K → Row).
Context (Hf : ∀ e m, f e = Some m → mutation_row m = g e.1) (Hg : Inj (=) (=) g).

Lemma batch_row_of (l : list (K * OverlayValue A)) x : x ∈ mutation_row <$> omap f l → ∃ k, x = g k.
Proof.
  intros (m & -> & (e & _ & He)%list_elem_of_omap)%list_elem_of_fmap. eauto.
Qed.

Lemma batch_rows_NoDup (l : list (K * OverlayValue A)) : NoDup l.*1 → NoDup (mutation_row <$> omap f l).
Proof.
  induction l as [|e l IH]; cbn; [constructor|]. intros [Hn Hnd]%NoDup_cons.
  destruct (f e) as [m|] eqn:He; cbn; [|by apply IH]. constructor; [|by apply IH].
  intros (m' & Heq & (e' & Hin & He')%list_elem_of_omap)%list_elem_of_fmap.
  rewrite (Hf _ _ He), (Hf _ _ He') in Heq. apply Hg in Heq. apply Hn. rewrite Heq.
  by apply list_elem_of_fmap_2.
Qed.
End batch_rows.

Lemma changed_false {A} `{EqDecision A} (v : OverlayValue A) :
  ReducerOverlay.changed v = false → ov_after v = ov_before v.
Proof. unfold ReducerOverlay.changed. by case_bool_decide. Qed.

Lemma entity_mutation_Some e m :
  ReducerOverlay.entity_mutation e = Some m ↔ ReducerOverlay.changed e.2 = true ∧
    m = MutEntity (key_collection e.1) (key_bytes e.1) (ov_before e.2) (ov_after e.2).
Proof. unfold ReducerOverlay.entity_mutation. destruct (ReducerOverlay.changed _); naive_solver. Qed.
Lemma index_mutation_Some e m :
  ReducerOverlay.index_mutation e = Some m ↔ ReducerOverlay.changed e.2 = true ∧
    m = MutIndex (key_index e.1) (index_key_bytes e.1) (index_entity_key e.1) (ov_before e.2) (ov_after e.2).
Proof. unfold ReducerOverlay.index_mutation. destruct (ReducerOverlay.changed _); naive_solver. Qed.
Lemma state_mutation_Some e m :
  ReducerOverlay.state_mutation e = Some m ↔ ReducerOverlay.changed e.2 = true ∧
    m = MutState (key_namespace e.1) (state_key_bytes e.1) (ov_before e.2) (ov_after e.2).
Proof. unfold ReducerOverlay.state_mutation. destruct (ReducerOverlay.changed _); naive_solver. Qed.

Lemma batch_distinct o : NoDup (mutation_row <$> mutations (ReducerOverlay.into_batch o)).
Proof.
  unfold ReducerOverlay.into_batch. cbn [mutations]. rewrite !fmap_app.
  assert (∀ e m, ReducerOverlay.entity_mutation e = Some m → mutation_row m = RowEntity e.1) as He
    by (intros [[] ?] m [_ ->]%entity_mutation_Some; done).
  assert (∀ e m, ReducerOverlay.index_mutation e = Some m → mutation_row m = RowIndex e.1) as Hi
    by (intros [[] ?] m [_ ->]%index_mutation_Some; done).
  assert (∀ e m, ReducerOverlay.state_mutation e = Some m → mutation_row m = RowState e.1) as Hs
    by (intros [[] ?] m [_ ->]%state_mutation_Some; done).
  apply NoDup_app. split_and!.
  - apply (batch_rows_NoDup _ RowEntity); [done|by intros ?? [=]|apply (map_entries_NoDup _)].
  - intros x Hx [Hx'|Hx']%elem_of_app.
    + apply (batch_row_of _ RowEntity) in Hx as [? ->]; [|done].
      apply (batch_row_of _ RowIndex) in Hx' as [? ?]; done.
    + apply (batch_row_of _ RowEntity) in Hx as [? ->]; [|done].
      apply (batch_row_of _ RowState) in Hx' as [? ?]; done.
  - apply NoDup_app. split_and!.
    + apply (batch_rows_NoDup _ RowIndex); [done|by intros ?? [=]|apply (map_entries_NoDup _)].
    + intros x Hx Hx'. apply (batch_row_of _ RowIndex) in Hx as [? ->]; [|done].
      apply (batch_row_of _ RowState) in Hx' as [? ?]; done.
    + apply (batch_rows_NoDup _ RowState); [done|by intros ?? [=]|apply (map_entries_NoDup _)].
Qed.

Lemma batch_preimages t c o : loaded t c o →
  Forall (preimage_matches true c) (mutations (ReducerOverlay.into_batch o)).
Proof.
  destruct c as [[e i] s]. intros [He Hi Hs]. unfold ReducerOverlay.into_batch. cbn [mutations].
  apply Forall_app; split; [|apply Forall_app; split]; apply Forall_forall; intros m;
    rewrite list_elem_of_omap; intros ([k v] & Hin%elem_of_map_entries & Hm).
  - apply entity_mutation_Some in Hm as [_ ->]. specialize (He k). rewrite Hin in He. destruct k. by intros _.
  - apply index_mutation_Some in Hm as [_ ->]. specialize (Hi k). rewrite Hin in Hi. destruct k. by intros _.
  - apply state_mutation_Some in Hm as [_ ->]. specialize (Hs k). rewrite Hin in Hs. by destruct k.
Qed.

Lemma keys_NoDup ms : NoDup (mutation_row <$> ms) → NoDup (entity_keys ms).
Proof.
  unfold entity_keys. induction ms as [|m ms IH]; [constructor|]. cbn.
  intros [Hn Hnd]%NoDup_cons. destruct m as [c k b a| |]; cbn; [|exact (IH Hnd)..].
  constructor; [|exact (IH Hnd)]. intros (m & Hin & Hm)%list_elem_of_omap. apply Hn.
  apply list_elem_of_fmap. exists m. split; [|done]. destruct m; cbn in *; congruence.
Qed.

Lemma batch_entity_keys o : NoDup (entity_keys (mutations (ReducerOverlay.into_batch o))).
Proof. apply keys_NoDup, batch_distinct. Qed.

(** *** The rows after a batch *)

(** A row's value; an index entry carries none. *)
Definition presence (b : bool) : option (list byte) := if b then Some [] else None.

Definition row_value (c : gmap EntityKey (list byte) * gset IndexKey * gmap StateKey (list byte))
    (r : Row) : option (list byte) :=
  let '(e, i, s) := c in
  match r with
  | RowEntity k => e !! k
  | RowIndex k => presence (bool_decide (k ∈ i))
  | RowState k => s !! k
  end.

Definition mutation_after (m : Mutation) : option (list byte) :=
  match m with
  | MutEntity _ _ _ after | MutState _ _ _ after => after
  | MutIndex _ _ _ _ after => presence after
  end.

#[export] Instance Row_eq_dec : EqDecision Row.
Proof. solve_decision. Defined.

Lemma row_value_ext c c' : (∀ r, row_value c r = row_value c' r) → c = c'.
Proof.
  destruct c as [[e i] s], c' as [[e' i'] s']. intros Heq.
  assert (e = e') as -> by (apply map_eq; intros k; apply (Heq (RowEntity k))).
  assert (s = s') as -> by (apply map_eq; intros k; apply (Heq (RowState k))).
  assert (i = i') as ->; [|done]. apply set_eq. intros k. specialize (Heq (RowIndex k)). cbn in Heq.
  by repeat case_bool_decide.
Qed.

Lemma row_value_step c m r :
  row_value (core_step false true c m) r =
    if decide (r = mutation_row m) then mutation_after m else row_value c r.
Proof.
  destruct c as [[e i] s], m as [cl k b a|x k ek b a|n k b a], r as [k'|k'|k']; cbn; try done.
  - rewrite lookup_set_key. by destruct (decide _), (decide _); try congruence.
  - unfold set_member. destruct (decide (RowIndex _ = _)) as [[= ->]|Hne].
    + destruct a; case_bool_decide; set_solver.
    + assert (k' ≠ MkIndexKey x k ek) by congruence.
      erewrite bool_decide_ext; [reflexivity|]. destruct a; set_solver.
  - rewrite lookup_set_key. by destruct (decide _), (decide _); try congruence.
Qed.

(** Mutations of distinct rows leave each row at its own after-image. *)
Lemma row_value_fold c ms :
  NoDup (mutation_row <$> ms) →
  (∀ m, m ∈ ms → row_value (fold_left (core_step false true) ms c) (mutation_row m) = mutation_after m) ∧
  (∀ r, r ∉ mutation_row <$> ms → row_value (fold_left (core_step false true) ms c) r = row_value c r).
Proof.
  revert c; induction ms as [|m ms IH]; intros c Hnd; cbn.
  { split; [by intros m ?%elem_of_nil|done]. }
  cbn in Hnd. apply NoDup_cons in Hnd as [Hn Hnd].
  destruct (IH (core_step false true c m) Hnd) as [Hin Hout]. split.
  - intros m' [->|Hm']%elem_of_cons; [|by apply Hin].
    rewrite Hout by done. rewrite row_value_step. by destruct (decide _).
  - intros r [Hr Hrs]%not_elem_of_cons. rewrite Hout by done. rewrite row_value_step. by destruct (decide _).
Qed.

(** The overlay's value of a row, if it has read it. *)
Definition overlay_row (o : ReducerOverlay) (r : Row) : option (OverlayValue (option (list byte))) :=
  match r with
  | RowEntity k => ov_entities o !! k
  | RowIndex k => (λ v, MkOverlayValue (presence (ov_before v)) (presence (ov_after v))) <$> ov_indexes o !! k
  | RowState k => ov_state o !! k
  end.

Lemma row_value_view t o r :
  row_value (view_core (view t o)) r =
    match overlay_row o r with Some w => ov_after w | None => row_value (core t) r end.
Proof.
  destruct r as [k|k|k]; cbn; rewrite ?lookup_patch; [done| |done].
  pose proof (elem_of_patch_set (ov_indexes o) (entity_indexes t) k) as Hk.
  destruct (ov_indexes o !! k) as [[b []]|]; cbn in *; case_bool_decide; try done; try tauto.
  - destruct Hk. intuition congruence.
  - by rewrite bool_decide_true by tauto.
  - by rewrite bool_decide_false by tauto.
Qed.

Lemma elem_of_batch o m :
  m ∈ mutations (ReducerOverlay.into_batch o) →
  ∃ w, overlay_row o (mutation_row m) = Some w ∧ ov_after w = mutation_after m.
Proof.
  unfold ReducerOverlay.into_batch. cbn [mutations]. rewrite !elem_of_app, !list_elem_of_omap.
  intros [([[] v] & Hin%elem_of_map_entries & Hm)|[([[] v] & Hin%elem_of_map_entries & Hm)
    |([[] v] & Hin%elem_of_map_entries & Hm)]].
  - apply entity_mutation_Some in Hm as [_ ->]. cbn. eauto.
  - apply index_mutation_Some in Hm as [_ ->]. cbn in *. rewrite Hin. cbn. eauto.
  - apply state_mutation_Some in Hm as [_ ->]. cbn. eauto.
Qed.

Lemma loaded_row t c o r : loaded t c o →
  match overlay_row o r with Some w => ov_before w | None => row_value (core t) r end = row_value c r.
Proof.
  destruct c as [[e i] s]. intros [He Hi Hs]. destruct r as [k|k|k]; cbn; [apply He| |apply Hs].
  specialize (Hi k). cbn in Hi. by destruct (ov_indexes o !! k); cbn; rewrite <-Hi.
Qed.

(** A changed row is in the batch. *)
Lemma changed_in_batch o r w :
  overlay_row o r = Some w →
  r ∈ mutation_row <$> mutations (ReducerOverlay.into_batch o) ∨ ov_after w = ov_before w.
Proof.
  intros Hw. unfold ReducerOverlay.into_batch. cbn [mutations]. rewrite !fmap_app, !elem_of_app.
  destruct r as [k|k|k]; cbn in Hw.
  - destruct (ReducerOverlay.changed w) eqn:Hc; [|right; by apply changed_false].
    left; left. apply list_elem_of_fmap.
    exists (MutEntity (key_collection k) (key_bytes k) (ov_before w) (ov_after w)).
    split; [by destruct k|]. apply list_elem_of_omap. exists (k, w).
    split; [by apply elem_of_map_entries|by apply entity_mutation_Some].
  - destruct (ov_indexes o !! k) as [v|] eqn:Hv; [|done]. cbn in Hw. injection Hw as <-.
    destruct (ReducerOverlay.changed v) eqn:Hc; [|right; cbn; by rewrite changed_false].
    left; right; left. apply list_elem_of_fmap.
    exists (MutIndex (key_index k) (index_key_bytes k) (index_entity_key k) (ov_before v) (ov_after v)).
    split; [by destruct k|]. apply list_elem_of_omap. exists (k, v).
    split; [by apply elem_of_map_entries|by apply index_mutation_Some].
  - destruct (ReducerOverlay.changed w) eqn:Hc; [|right; by apply changed_false].
    left; right; right. apply list_elem_of_fmap.
    exists (MutState (key_namespace k) (state_key_bytes k) (ov_before w) (ov_after w)).
    split; [by destruct k|]. apply list_elem_of_omap. exists (k, w).
    split; [by apply elem_of_map_entries|by apply state_mutation_Some].
Qed.

(** The batch takes the rows to the overlay's view of them. *)
Lemma batch_reaches_view t c o : loaded t c o →
  fold_left (core_step false true) (mutations (ReducerOverlay.into_batch o)) c =
  view_core (view t o).
Proof.
  intros Hl. apply row_value_ext. intros r. rewrite row_value_view.
  pose proof (loaded_row t c o r Hl) as Hrow.
  destruct (row_value_fold c _ (batch_distinct o)) as [Hin Hout].
  destruct (decide (r ∈ mutation_row <$> mutations (ReducerOverlay.into_batch o))) as [Hr|Hr].
  - apply list_elem_of_fmap in Hr as (m & -> & Hm). rewrite Hin by done.
    by apply elem_of_batch in Hm as (w & -> & ->).
  - rewrite Hout by done. destruct (overlay_row o r) as [w|] eqn:Hw; [|done].
    destruct (changed_in_batch o r w Hw) as [|Ha]; [done|]. congruence.
Qed.

(** *** Blocks in a row *)

Lemma rebase_eq {A} `{EqDecision A} (v : OverlayValue A) :
  ReducerOverlay.rebase v = MkOverlayValue (ov_after v) (ov_after v).
Proof.
  unfold ReducerOverlay.rebase. destruct (ReducerOverlay.changed v) eqn:Hc; [done|].
  rewrite (changed_false v Hc) at 1 2. destruct v. cbn. f_equal. by apply changed_false in Hc.
Qed.

Lemma preimages_rebase {K V} `{Countable K, EqDecision V} m (base : gmap K V) :
  preimages_of (λ k, base !! k) (λ k, patch m base !! k) (ReducerOverlay.rebase <$> m).
Proof.
  intros k. rewrite lookup_fmap, lookup_patch. destruct (m !! k); cbn; [|done]. by rewrite rebase_eq.
Qed.

Lemma patch_rebase {K V} `{Countable K, EqDecision V} m (base : gmap K V) :
  patch (ReducerOverlay.rebase <$> m) base = patch m base.
Proof.
  apply map_eq. intros k. rewrite !lookup_patch, lookup_fmap. destruct (m !! k); cbn; [|done].
  by rewrite rebase_eq.
Qed.

(** After [take_batch] the next block starts from the rows it leaves, though
    none is stored yet. *)
Lemma take_batch_simulates t o :
  let o' := (ReducerOverlay.take_batch o).2 in
  let v := view t o in
  simulates t (view_core v) o' (MkView (view_entities v) (view_indexes v) (view_state v) []).
Proof.
  cbn. split.
  - apply loaded_iff. cbn. split_and!; [apply preimages_rebase| |apply preimages_rebase].
    intros k. rewrite lookup_fmap. pose proof (elem_of_patch_set (ov_indexes o) (entity_indexes t) k) as Hk.
    destruct (ov_indexes o !! k) as [w|]; cbn.
    + rewrite rebase_eq. cbn. destruct (ov_after w); case_bool_decide; intuition congruence.
    + by apply bool_decide_ext.
  - unfold view. cbn. rewrite !patch_rebase. f_equal. apply set_eq. intros k.
    rewrite !elem_of_patch_set, lookup_fmap. destruct (ov_indexes o !! k); cbn; [|done].
    by rewrite rebase_eq.
Qed.

(** ** Reducing blocks *)

(** [Processor::reduce] of a block: what it returns is an error or the changes
    it says it emitted. *)
Definition Reduction := Reducer (result ProcessorError (list DomainChange)).

(** What [apply_with_origin_to_stream] does with one block's reducer. *)
Definition checked_reduce (t : Tables) (p : Reduction) (o : ReducerOverlay)
    : result StoreError ReducerOverlay :=
  let '(returned, o) := run (ReducerTransaction0 := overlay_transaction t) p o in
  match returned with
  | Err error => Err (StoreProcessor error)
  | Ok returned =>
      if bool_decide (returned = ov_changes o) then Ok o
      else Err (StoreInvariant "processor returned changes that differ from emitted changes")
  end.

Definition reduce_block (t : Tables) (p : Reduction) : result StoreError MutationBatch :=
  ReducerOverlay.into_batch <$> checked_reduce t p overlay_new.

(** The entities and index entries an output-none block wrote stay invisible
    to the next block. *)
Definition forget_output (retain_output : bool) (o : ReducerOverlay) : ReducerOverlay :=
  if retain_output then o else MkOverlay (ov_state o) ∅ ∅ (ov_changes o) (window_dependent o).

(** The reduction loop of the historical microbatch: every block runs over
    the rows stored before the first. *)
Fixpoint reduce_blocks (t : Tables) (retain_output : bool) (ps : list Reduction) (o : ReducerOverlay)
    : result StoreError (list MutationBatch * ReducerOverlay) :=
  match ps with
  | [] => Ok ([], o)
  | p :: ps =>
      o ← checked_reduce t p o;
      let '(batch, o) := ReducerOverlay.take_batch o in
      '(batches, o) ← reduce_blocks t retain_output ps (forget_output retain_output o);
      Ok (batch :: batches, o)
  end.

(** The specification: each block runs straight on the rows the blocks before
    it left, and leaves its own. *)
Definition checked_direct (p : Reduction) (v : View) : result StoreError View :=
  let '(returned, v) := run p v in
  match returned with
  | Err error => Err (StoreProcessor error)
  | Ok returned =>
      if bool_decide (returned = view_changes v) then Ok v
      else Err (StoreInvariant "processor returned changes that differ from emitted changes")
  end.

Definition next_view (t : Tables) (retain_output : bool) (v : View) : View :=
  if retain_output then MkView (view_entities v) (view_indexes v) (view_state v) []
  else MkView (entities t) (entity_indexes t) (view_state v) [].

Fixpoint direct_blocks (t : Tables) (retain_output : bool) (ps : list Reduction) (v : View)
    : result StoreError (list View * View) :=
  match ps with
  | [] => Ok ([], v)
  | p :: ps =>
      v ← checked_direct p v;
      '(vs, v') ← direct_blocks t retain_output ps (next_view t retain_output v);
      Ok (v :: vs, v')
  end.

(** A batch takes the rows [c] of before a block to the rows [v] of after it. *)
Definition batch_of (c : gmap EntityKey (list byte) * gset IndexKey * gmap StateKey (list byte))
    (v : View) (batch : MutationBatch) : Prop :=
  changes batch = view_changes v ∧
  consistent true c (mutations batch) ∧ NoDup (entity_keys (mutations batch)) ∧
  fold_left (core_step false true) (mutations batch) c = view_core v.

(** Each batch belongs to its block. *)
Fixpoint batches_of (t : Tables) (retain_output : bool)
    (c : gmap EntityKey (list byte) * gset IndexKey * gmap StateKey (list byte))
    (vs : list View) (batches : list MutationBatch) : Prop :=
  match vs, batches with
  | [], [] => True
  | v :: vs, batch :: batches =>
      batch_of c v batch ∧ batches_of t retain_output (view_core (next_view t retain_output v)) vs batches
  | _, _ => False
  end.

Lemma sim_checked t c p o v : simulates t c o v →
  match checked_reduce t p o, checked_direct p v with
  | Ok o', Ok v' => simulates t c o' v'
  | Err e, Err e' => e = e'
  | _, _ => False
  end.
Proof.
  intros Hsim. destruct (sim_run t c p o v Hsim) as [Ha Hs]. unfold checked_reduce, checked_direct.
  destruct (run _ o) as [r o'], (run _ v) as [r' v']. cbn in Ha, Hs. subst r'.
  destruct r as [returned|e]; [|done]. pose proof Hs as [_ <-]. cbn [view view_changes].
  by case_bool_decide.
Qed.

Lemma simulates_batch t c o v : simulates t c o v → batch_of c v (ReducerOverlay.into_batch o).
Proof.
  intros [Hl <-]. split_and!; [done| |apply batch_entity_keys|by apply batch_reaches_view].
  apply consistent_distinct; [apply batch_distinct|by eapply batch_preimages].
Qed.

Lemma simulates_new t : simulates t (core t) overlay_new (view_of t).
Proof.
  split; [apply loaded_iff; by repeat split|]. unfold view, view_of. cbn. f_equal.
  - apply map_eq. intros k. by rewrite lookup_patch, lookup_empty.
  - apply set_eq. intros k. by rewrite elem_of_patch_set, lookup_empty.
  - apply map_eq. intros k. by rewrite lookup_patch, lookup_empty.
Qed.

Lemma patch_empty {K V} `{Countable K} (base : gmap K V) : patch ∅ base = base.
Proof. apply map_eq. intros k. by rewrite lookup_patch, lookup_empty. Qed.
Lemma patch_set_empty base : patch_set ∅ base = base.
Proof. apply set_eq. intros k. by rewrite elem_of_patch_set, lookup_empty. Qed.

Lemma simulates_next t c o v retain_output : simulates t c o v →
  simulates t (view_core (next_view t retain_output v))
    (forget_output retain_output (ReducerOverlay.take_batch o).2) (next_view t retain_output v).
Proof.
  intros [_ <-]. pose proof (take_batch_simulates t o) as Hs. cbn zeta in Hs.
  destruct retain_output; [exact Hs|]. destruct Hs as [[_ _ Hs] Hv].
  unfold view in Hv. injection Hv as _ _ Hv. cbn in Hv. split.
  - split; [by intros k|by intros k|exact Hs].
  - unfold view. cbn in *. by rewrite patch_empty, patch_set_empty, patch_rebase.
Qed.

Lemma reduce_blocks_simulates t retain_output ps c o v : simulates t c o v →
  match reduce_blocks t retain_output ps o, direct_blocks t retain_output ps v with
  | Ok (batches, _), Ok (vs, _) => batches_of t retain_output c vs batches
  | Err e, Err e' => e = e'
  | _, _ => False
  end.
Proof.
  revert c o v; induction ps as [|p ps IH]; intros c o v Hsim; cbn [reduce_blocks direct_blocks]; [done|].
  pose proof (sim_checked t c p o v Hsim) as Hp.
  destruct (checked_reduce t p o) as [o1|e], (checked_direct p v) as [v1|e']; cbn; try done.
  pose proof (IH _ _ _ (simulates_next t c o1 v1 retain_output Hp)) as Hps.
  unfold ReducerOverlay.take_batch in Hps. cbn [snd] in Hps.
  destruct (reduce_blocks _ _ ps _) as [[batches o2]|], (direct_blocks _ _ ps _) as [[vs v2]|]; cbn in *;
    try done.
  split; [|exact Hps]. by apply (simulates_batch t).
Qed.

(** C25: the overlay refines the rows. Whatever reads, scans, writes and
    emits a block's reducer makes through the overlay, it is answered as if
    it wrote straight to the stored rows: it succeeds or fails alike. Its
    batch then carries exactly the emitted changes and mutations with right
    preimages, no entity twice, and committing the batch succeeds and leaves
    the very rows the direct run leaves. *)
Theorem overlay_refines t (p : Reduction) now block finality
    (Hblock : block_fits block) (Hnow : ∀ m, is_ok (now m) = true) :
  match reduce_block t p, checked_direct p (view_of t) with
  | Ok batch, Ok v =>
      changes batch = view_changes v ∧
      consistent true (core t) (mutations batch) ∧ NoDup (entity_keys (mutations batch)) ∧
      (Forall mutation_fits (mutations batch) →
       ∃ t', apply_mutations now t (mutations batch) false true block finality = Ok t' ∧
         core t' = view_core v)
  | Err e, Err e' => e = e'
  | _, _ => False
  end.
Proof.
  pose proof (sim_checked t (core t) p overlay_new (view_of t) (simulates_new t)) as Hsim.
  unfold reduce_block. destruct (checked_reduce _ _ _) as [o|], (checked_direct _ _) as [v|]; cbn; try done.
  destruct (simulates_batch t _ o v Hsim) as (Hc & Hcons & Hnd & Hfold).
  split_and!; [done..|]. intros Hfits.
  destruct (apply_fold_total now false true block finality t _ Hblock Hfits Hnow) as [t' Ht'].
  exists t'. split; [exact Ht'|]. apply apply_fold_core in Ht'. by rewrite Ht'.
Qed.

(** C26: a microbatch is its blocks. Reducing finalized blocks one after the
    other over one overlay, with nothing stored in between, fails when the
    blocks reduced one by one on the rows fail, and with the same error;
    otherwise the n-th batch takes the rows the first n-1 batches left to the
    rows the n-th block leaves, with the n-th block's changes and right
    preimages. *)
Theorem microbatch_sequential t retain_output (ps : list Reduction) :
  match reduce_blocks t retain_output ps overlay_new, direct_blocks t retain_output ps (view_of t) with
  | Ok (batches, _), Ok (vs, _) => batches_of t retain_output (core t) vs batches
  | Err e, Err e' => e = e'
  | _, _ => False
  end.
Proof. apply (reduce_blocks_simulates t retain_output ps), simulates_new. Qed.

(** ** Window-dependent reducers *)

(** The overlays' writes agree; their preimages may not. *)
Definition after_images {K A} `{Countable K} (m : gmap K (OverlayValue A)) : gmap K A := ov_after <$> m.

#[local] Arguments after_images : simpl never.

Record same_writes (o o' : ReducerOverlay) : Prop := MkSame {
  same_state : ov_state o = ov_state o';
  same_changes : ov_changes o = ov_changes o';
  same_entities : after_images (ov_entities o) = after_images (ov_entities o');
  same_indexes : after_images (ov_indexes o) = after_images (ov_indexes o');
}.

Lemma after_images_set {K A} `{Countable K} (k : K) (value x : A) m :
  after_images (set_after k value (load k x m)) = <[k := value]> (after_images m).
Proof.
  apply map_eq. intros k'. unfold after_images, set_after. rewrite lookup_fmap.
  destruct (decide (k' = k)) as [->|Hne].
  - rewrite lookup_alter_eq, lookup_load, lookup_insert_eq.
    destruct (m !! k); [done|]. by destruct (decide _).
  - rewrite lookup_alter_ne, lookup_insert_ne, lookup_load, lookup_fmap by done.
    destruct (m !! k'); [done|]. by destruct (decide _).
Qed.

Section window.
Context (t t' : Tables) (Hstate : processor_state t = processor_state t').
#[local] Abbreviation run_on t := (run (ReducerTransaction0 := overlay_transaction t)).

Lemma window_dependent_run {A} (p : Reducer A) o :
  window_dependent o = true → window_dependent (run_on t p o).2 = true.
Proof.
  revert o.
  induction p; intros o Ho; cbn; try (apply H; cbn; done); try (apply IHp; cbn; by rewrite ?Ho); [done|..].
  - unfold ReducerOverlay.state_scan_prefix. by destruct (_ || _); apply H.
  - unfold ReducerOverlay.scan_prefix. destruct (_ || _); by apply H.
Qed.

Lemma same_writes_run {A} (p : Reducer A) o o' :
  same_writes o o' → window_dependent (run_on t p o).2 = false →
  (run_on t p o).1 = (run_on t' p o').1 ∧ same_writes (run_on t p o).2 (run_on t' p o').2.
Proof.
  revert o o'.
  induction p as [a|n k next IH|n k x next IH|n k next IH|n pre limit next IH|c k next IH
    |c k x next IH|c k next IH|x k e next IH|x k e next IH|c pre limit next IH|change next IH];
    intros o o' Hsame Hwin; pose proof Hsame as [Hs Hc He Hi].
  - done.
  - cbn in *. unfold ReducerOverlay.load_state in *. cbn in *. rewrite <-Hs, <-Hstate.
    apply IH; [by split|exact Hwin].
  - apply IH; [|exact Hwin]. split; cbn; [by rewrite <-Hs, <-Hstate|done..].
  - apply IH; [|exact Hwin]. split; cbn; [by rewrite <-Hs, <-Hstate|done..].
  - cbn in *. unfold ReducerOverlay.state_scan_prefix in *. rewrite <-Hs, <-Hstate.
    destruct (_ || _); by apply IH.
  - cbn in Hwin. by rewrite window_dependent_run in Hwin.
  - apply IH; [|exact Hwin]. split; cbn; [done..|by rewrite !after_images_set, He|done].
  - apply IH; [|exact Hwin]. split; cbn; [done..|by rewrite !after_images_set, He|done].
  - apply IH; [|exact Hwin]. split; cbn; [done..|by rewrite !after_images_set, Hi].
  - apply IH; [|exact Hwin]. split; cbn; [done..|by rewrite !after_images_set, Hi].
  - cbn in *. unfold ReducerOverlay.scan_prefix in *.
    destruct (_ || _); [by apply IH|]. by rewrite window_dependent_run in Hwin.
  - apply IH; [|exact Hwin]. split; cbn; [done|by rewrite Hc|done..].
Qed.
End window.

(** What [window_dependent] promises. Take a reducer whose run leaves the
    flag clear, and the same rows with any output pruned (or any other output
    at all): the reducer is answered the same, emits the same changes, leaves
    the same working state with the same preimages, and writes the same
    values to the same entities and index entries; only their preimages can
    differ. *)
Theorem window_independent t t' (p : Reduction)
    (Hstate : processor_state t = processor_state t') :
  let '(a, o) := run (ReducerTransaction0 := overlay_transaction t) p overlay_new in
  let '(a', o') := run (ReducerTransaction0 := overlay_transaction t') p overlay_new in
  window_dependent o = false →
  a = a' ∧ ov_changes o = ov_changes o' ∧ ov_state o = ov_state o' ∧
  after_images (ov_entities o) = after_images (ov_entities o') ∧
  after_images (ov_indexes o) = after_images (ov_indexes o').
Proof.
  pose proof (same_writes_run t t' Hstate p overlay_new overlay_new) as Hrun.
  destruct (run p overlay_new) as [a o], (run (ReducerTransaction0 := overlay_transaction t') p _) as [a' o'].
  intros Hwin. destruct Hrun as [Ha [Hs Hc He Hi]]; [by split|exact Hwin|]. by split_and!.
Qed.

(** A reducer that writes an entity and then its first value again. *)
Definition rewrite_twice : Reduction :=
  Put "c" [x01] [x0b] (Put "c" [x01] [x0a] (Done (Ok []))).

Lemma window_independent_witness :
  let p := Put "c" [x02] [x0b] (IndexPut "i" [x07] [x02] (Done (Ok []))) : Reduction in
  let o := (run (ReducerTransaction0 := overlay_transaction sample_tables) p overlay_new).2 in
  let o' := (run (ReducerTransaction0 := overlay_transaction (MkTables ∅ ∅ ∅ ∅)) p overlay_new).2 in
  window_dependent o = false ∧
  after_images (ov_entities o) = after_images (ov_entities o').
Proof.
  cbn zeta. split; [vm_compute; reflexivity|].
  refine (proj1 (proj2 (proj2 (proj2 (window_independent sample_tables (MkTables ∅ ∅ ∅ ∅)
    (Put "c" [x02] [x0b] (IndexPut "i" [x07] [x02] (Done (Ok [])))) eq_refl _))))).
  vm_compute. reflexivity.
Defined.

(** The preimages do matter. A block that writes an entity twice and ends on
    the value it had is not window-dependent, though it leaves no mutation
    over the stored rows and leaves one over the pruned rows. *)
Lemma rewritten_entity_missed :
  let o := (run (ReducerTransaction0 := overlay_transaction sample_tables) rewrite_twice overlay_new).2 in
  let pruned := MkTables ∅ ∅ ∅ ∅ in
  window_dependent o = false ∧
  mutations (ReducerOverlay.into_batch o) = [] ∧
  reduce_block pruned rewrite_twice =
    Ok (MkBatch [MutEntity "c" [x01] None (Some [x0a])] []).
Proof. vm_compute. split_and!; reflexivity. Qed.

Lemma overlay_refines_witness :
  let block := MkBlockRef 6 hash_zero hash_zero 60 in
  reduce_block sample_tables (Put "c" [x02] [x0b] (Done (Ok []))) =
    Ok (MkBatch [MutEntity "c" [x02] None (Some [x0b])] []) ∧
  ∃ t', apply_mutations (λ _, Ok 600) sample_tables [MutEntity "c" [x02] None (Some [x0b])]
          false true block Attested = Ok t' ∧
        entities t' = <[MkEntityKey "c" [x02] := [x0b]]> (entities sample_tables).
Proof.
  cbn zeta. assert (reduce_block sample_tables (Put "c" [x02] [x0b] (Done (Ok []))) =
    Ok (MkBatch [MutEntity "c" [x02] None (Some [x0b])] [])) as Heq by (vm_compute; reflexivity).
  split; [exact Heq|].
  pose proof (overlay_refines sample_tables (Put "c" [x02] [x0b] (Done (Ok []))) (λ _, Ok 600)
    (MkBlockRef 6 hash_zero hash_zero 60) Attested) as H.
  rewrite Heq in H. destruct H as (_ & _ & _ & H); [split; cbn; uints|done|].
  destruct H as (t' & Ha & Hc); [repeat constructor; intros v [= <-]; cbn; uints|].
  exists t'. split; [exact Ha|]. apply (f_equal (λ c, c.1.1)) in Hc. exact Hc.
Defined.
