(* ===== verification/Processing.v ===== *)
(** * What the processors share

    The reducer monad over [Overlay.Reducer], the integers and the hash that
    the processors take from [alloy_primitives] with their documented laws,
    the conversions of [crates/primitives/src/alloy.rs], and an instance of
    that arithmetic: the 256-bit integers of [Uint256] with a product and a
    quotient. *)
From Stdlib Require Import ZArith Lia Strings.Byte.
From stdpp Require Import gmap strings list list_numbers.
From S2P Require Import Prelude Bytes Chain Material Provenance Frame Durable Descriptor Delta Rows Scan Overlay Uint256.

(** ** Reducers that can fail *)

(** [Result<A, ProcessorError>] of an [async fn] over the transaction. *)
Definition Reduce (A : Type) : Type := Reducer (result ProcessorError A).

Fixpoint bind_reducer {A B} (p : Reducer (result ProcessorError A)) (f : A → Reduce B) : Reduce B :=
  match p with
  | Done (Ok a) => f a
  | Done (Err e) => Done (Err e)
  | StateGet n k next => StateGet n k (λ r, bind_reducer (next r) f)
  | StatePut n k v next => StatePut n k v (bind_reducer next f)
  | StateDelete n k next => StateDelete n k (bind_reducer next f)
  | StateScan n prefix limit next => StateScan n prefix limit (λ r, bind_reducer (next r) f)
  | Get c k next => Get c k (λ r, bind_reducer (next r) f)
  | Put c k v next => Put c k v (bind_reducer next f)
  | Remove c k next => Remove c k (bind_reducer next f)
  | IndexPut x k e next => IndexPut x k e (bind_reducer next f)
  | IndexDelete x k e next => IndexDelete x k e (bind_reducer next f)
  | Scan c prefix limit next => Scan c prefix limit (λ r, bind_reducer (next r) f)
  | Emit change next => Emit change (bind_reducer next f)
  end.

#[export] Instance reduce_ret : MRet Reduce := λ A a, Done (Ok a).
#[export] Instance reduce_bind : MBind Reduce := λ A B f p, bind_reducer p f.

(** Code that does not call the transaction, and its calls. *)
Definition pure {A} (c : result ProcessorError A) : Reduce A := Done c.
Definition do_state_get (namespace : string) (key : list byte) : Reduce (option (list byte)) :=
  StateGet namespace key (λ r, Done (Ok r)).
Definition do_state_put (namespace : string) (key value : list byte) : Reduce () :=
  StatePut namespace key value (Done (Ok ())).
Definition do_put (collection : string) (key value : list byte) : Reduce () :=
  Put collection key value (Done (Ok ())).
Definition do_index_put (index : string) (index_key entity_key : list byte) : Reduce () :=
  IndexPut index index_key entity_key (Done (Ok ())).
Definition do_emit (change : DomainChange) : Reduce () := Emit change (Done (Ok ())).

(** [for item in items]. *)
Fixpoint reduce_each {A B} (f : B → A → Reduce B) (b : B) (l : list A) : Reduce B :=
  match l with
  | [] => mret b
  | a :: l => b ← f b a; reduce_each f b l
  end.

Section run.
Context {S : Type} `{!ReducerTransaction S}.

Lemma run_bind {A B} (p : Reduce A) (f : A → Reduce B) (s : S) :
  run (p ≫= f) s =
    match run p s with (Ok a, s') => run (f a) s' | (Err e, s') => (Err e, s') end.
Proof.
  unfold mbind, reduce_bind. revert s.
  induction p as [[a|e]|? ? ? IH|? ? ? ? IH|? ? ? IH|? ? ? ? IH|? ? ? IH|? ? ? ? IH|? ? ? IH|? ? ? ? IH
    |? ? ? ? IH|? ? ? ? IH|? ? IH]; intros s; cbn; try done; try apply IH.
  all: match goal with |- context [let '(_, _) := ?c in _] => destruct c end; apply IH.
Qed.

Lemma run_pure {A} (c : result ProcessorError A) (s : S) : run (pure c) s = (c, s).
Proof. reflexivity. Qed.

Lemma run_each {A B} (f : B → A → Reduce B) (b : B) (a : A) l (s : S) :
  run (reduce_each f b (a :: l)) s =
    match run (f b a) s with
    | (Ok b', s') => run (reduce_each f b' l) s'
    | (Err e, s') => (Err e, s')
    end.
Proof. apply run_bind. Qed.

(** A loop that never touches the transaction. *)
Lemma run_each_pure {A B} (f : B → A → Reduce B) (g : B → A → result ProcessorError B) b l (s : S) :
  (∀ b a, run (f b a) s = (g b a, s)) → run (reduce_each f b l) s = (fold_result g b l, s).
Proof.
  intros Hf. revert b; induction l as [|a l IH]; intros b; [done|].
  rewrite run_each, Hf. cbn. destruct (g b a); [apply IH|done].
Qed.
End run.

(** [{reason:?}] of a [MissingReason]. *)
Definition missing_debug (reason : MissingReason) : string :=
  match reason with
  | NotRequested => "NotRequested"
  | Unsupported => "Unsupported"
  | NotAvailable => "NotAvailable"
  | TemporarilyUnavailable => "TemporarilyUnavailable"
  | Pruned => "Pruned"
  end.

(** [Vec::dedup]: equal neighbours are one. *)
Fixpoint dedup {A} `{EqDecision A} (l : list A) : list A :=
  match l with
  | x :: rest => match rest with
                 | y :: _ => if bool_decide (x = y) then dedup rest else x :: dedup rest
                 | [] => [x]
                 end
  | [] => []
  end.

Lemma elem_of_dedup {A} `{EqDecision A} (l : list A) x : x ∈ dedup l ↔ x ∈ l.
Proof.
  induction l as [|y [|z l] IH]; [done|done|]. cbn [dedup] in *.
  case_bool_decide; subst; set_solver.
Qed.

(** ** Third-party integers and hashes *)

(** [alloy_primitives::keccak256], and the text of an error. *)
Class Keccak256 := keccak256 : list byte → array 32.
Class Display (A : Type) := to_string : A → string.

(** A value that always serializes: postcard refuses only sequences of
    unknown length, which the entities do not have. *)
Class PostcardTotal PE A `{!Postcard PE A} : Prop := {
  encodes (v : A) : ∃ payload, to_allocvec (PE:=PE) v = Ok payload;
}.

(** What the processors use of [alloy_primitives::U256]. *)
Class Alloy := {
  alloy : Type;
  alloy_zero : alloy;
  alloy_from_u64 : Z → alloy;
  from_be_bytes : array 32 → alloy;
  to_be_bytes : alloy → array 32;
  alloy_add : alloy → alloy → option alloy;
  alloy_sub : alloy → alloy → option alloy;
  alloy_mul : alloy → alloy → option alloy;
  alloy_div : alloy → alloy → alloy;
  alloy_gtb : alloy → alloy → bool;
}.

(** Its documentation: 256-bit unsigned integers, checked operations that are
    [None] when the result does not fit. *)
Class AlloyLaws `{!Alloy} := {
  alloy_val : alloy → Z;
  alloy_range a : 0 ≤ alloy_val a < 2 ^ 256;
  alloy_inj a b : alloy_val a = alloy_val b → a = b;
  alloy_zero_val : alloy_val alloy_zero = 0;
  alloy_u64_val z : is_u64 z → alloy_val (alloy_from_u64 z) = z;
  from_be_bytes_val q : alloy_val (from_be_bytes q) = be_val (bytes_of q);
  to_be_bytes_val a : be_val (bytes_of (to_be_bytes a)) = alloy_val a;
  alloy_add_val a b : alloy_val <$> alloy_add a b =
    if alloy_val a + alloy_val b <? 2 ^ 256 then Some (alloy_val a + alloy_val b) else None;
  alloy_sub_val a b : alloy_val <$> alloy_sub a b =
    if alloy_val a <? alloy_val b then None else Some (alloy_val a - alloy_val b);
  alloy_mul_val a b : alloy_val <$> alloy_mul a b =
    if alloy_val a * alloy_val b <? 2 ^ 256 then Some (alloy_val a * alloy_val b) else None;
  alloy_div_val a b : alloy_val b ≠ 0 → alloy_val (alloy_div a b) = alloy_val a / alloy_val b;
  alloy_gtb_val a b : alloy_gtb a b = (alloy_val b <? alloy_val a);
}.

(** [From<U256> for Quantity] and back. *)
Definition quantity_of `{!Alloy} (value : alloy) : Quantity := to_be_bytes value.
Definition quantity_to_u256 `{!Alloy} (value : Quantity) : alloy := from_be_bytes value.

Section laws.
Context `{AlloyLaws}.

Lemma quantity_round_trip a : quantity_to_u256 (quantity_of a) = a.
Proof. apply alloy_inj. unfold quantity_to_u256. by rewrite from_be_bytes_val, to_be_bytes_val. Qed.

Lemma alloy_add_Some a b c :
  alloy_add a b = Some c ↔ alloy_val c = alloy_val a + alloy_val b.
Proof.
  pose proof (alloy_add_val a b) as Hv. pose proof (alloy_range c) as Hc.
  destruct (alloy_add a b) as [d|], (Z.ltb_spec (alloy_val a + alloy_val b) (2 ^ 256)); cbn in Hv; simplify_eq.
  - rewrite <-Hv. split; [naive_solver|]. intros Hcd. f_equal. by apply alloy_inj.
  - split; [done|]. lia.
Qed.

Lemma alloy_sub_Some a b c :
  alloy_sub a b = Some c ↔ alloy_val c = alloy_val a - alloy_val b.
Proof.
  pose proof (alloy_sub_val a b) as Hv. pose proof (alloy_range c) as Hc.
  destruct (alloy_sub a b) as [d|], (Z.ltb_spec (alloy_val a) (alloy_val b)); cbn in Hv; simplify_eq.
  - rewrite <-Hv. split; [naive_solver|]. intros Hcd. f_equal. by apply alloy_inj.
  - split; [done|]. lia.
Qed.

Lemma alloy_mul_Some a b c :
  alloy_mul a b = Some c ↔ alloy_val c = alloy_val a * alloy_val b.
Proof.
  pose proof (alloy_mul_val a b) as Hv. pose proof (alloy_range c) as Hc.
  destruct (alloy_mul a b) as [d|], (Z.ltb_spec (alloy_val a * alloy_val b) (2 ^ 256)); cbn in Hv; simplify_eq.
  - rewrite <-Hv. split; [naive_solver|]. intros Hcd. f_equal. by apply alloy_inj.
  - split; [done|]. lia.
Qed.
End laws.

(** ** The laws can be had *)

Definition word_of (z : Z) : array 32 := be_bytes 32 z ↾ length_be_bytes 32 z.

Definition word_alloy : Alloy := {|
  alloy := array 32;
  alloy_zero := U256.ZERO;
  alloy_from_u64 z := U256.from_u128 z;
  from_be_bytes q := q;
  to_be_bytes a := a;
  alloy_add := U256.checked_add;
  alloy_sub := U256.checked_sub;
  alloy_mul a b :=
    if be_val (bytes_of a) * be_val (bytes_of b) <? 2 ^ 256
    then Some (word_of (be_val (bytes_of a) * be_val (bytes_of b))) else None;
  alloy_div a b := word_of (be_val (bytes_of a) / be_val (bytes_of b));
  alloy_gtb a b := be_val (bytes_of b) <? be_val (bytes_of a);
|}.

Lemma word_of_val z : 0 ≤ z < 2 ^ 256 → be_val (bytes_of (word_of z)) = z.
Proof. intros. by apply be_val_bytes_small. Qed.

Lemma word_alloy_laws : @AlloyLaws word_alloy.
Proof.
  refine {| alloy_val := U256Facts.val : @alloy word_alloy → Z |}.
  - apply U256Facts.val_range.
  - apply U256Facts.val_inj.
  - done.
  - intros z Hz. change (be_val (replicate 16 x00 ++ be_bytes 16 z) = z).
    rewrite be_val_app. change (be_val (replicate 16 x00)) with 0. rewrite be_val_bytes_small; [lia|].
    assert (u64_max < 256 ^ Z.of_nat 16) by reflexivity. uints.
  - done.
  - done.
  - apply U256Facts.checked_add_val.
  - apply U256Facts.checked_sub_val.
  - intros a b. cbn [alloy_mul word_alloy]. fold (U256Facts.val a) (U256Facts.val b).
    pose proof (U256Facts.val_range a). pose proof (U256Facts.val_range b).
    destruct (Z.ltb_spec (U256Facts.val a * U256Facts.val b) (2 ^ 256)); [|done].
    change (Some (be_val (bytes_of (word_of (U256Facts.val a * U256Facts.val b)))) = Some (U256Facts.val a * U256Facts.val b)).
    rewrite word_of_val; [done|]. split; [apply Z.mul_nonneg_nonneg; lia|done].
  - intros a b Hb. unfold U256Facts.val in *. cbn [alloy_div word_alloy].
    pose proof (U256Facts.val_range a) as Ha. pose proof (U256Facts.val_range b).
    unfold U256Facts.val in *. rewrite word_of_val; [done|].
    split; [apply Z.div_pos; lia|]. apply Z.div_lt_upper_bound; [lia|]. unfold U256Facts.top in *. nia.
  - done.
Defined.
