(* ===== verification/Fees.v ===== *)
(** * Blob fees and blob schedules

    Models [crates/processor-blobs/src/math.rs] and [schedule.rs]: the
    Taylor expansion of EIP-4844 in checked 256-bit arithmetic, the reserve
    price of EIP-7918, and the fork schedule with its lookups. The expansion
    is a [while] loop and carries fuel; [EXPANSION_STEPS] is enough for every
    input ([fake_exponential_ends]). *)
From Stdlib Require Import ZArith Lia Strings.Byte.
From stdpp Require Import gmap strings list list_numbers sorting.
From S2P Require Import Prelude Bytes Chain Material Provenance Frame Durable Descriptor Delta Rows Scan Overlay Uint256 Processing.

Definition BLOB_GAS_PER_BLOB : Z := 131072.
Definition MIN_BLOB_BASE_FEE : Z := 1.
Definition BLOB_BASE_COST : Z := 8192.

(** ** Fee arithmetic *)

Section fees.
Context `{!Alloy}.

Definition fee_overflow : ProcessorError := InvariantError "blob fee overflow".

(** The loop; [None] when the fuel is used up. *)
Fixpoint expand (fuel : nat) (numerator denominator output numerator_accumulator iteration : alloy)
    : option (result ProcessorError alloy) :=
  match fuel with
  | O => None
  | S fuel =>
      if alloy_gtb numerator_accumulator alloy_zero then
        match
          output ← ok_or (alloy_add output numerator_accumulator) fee_overflow;
          divisor ← ok_or (alloy_mul denominator iteration) fee_overflow;
          product ← ok_or (alloy_mul numerator_accumulator numerator) fee_overflow;
          iteration ← ok_or (alloy_add iteration (alloy_from_u64 1)) fee_overflow;
          Ok (output, alloy_div product divisor, iteration)
        with
        | Err e => Some (Err e)
        | Ok (output, numerator_accumulator, iteration) =>
            expand fuel numerator denominator output numerator_accumulator iteration
        end
      else Some (Ok (alloy_div output denominator))
  end.

Definition EXPANSION_STEPS : nat := 1300.

Definition fake_exponential `{!EqDecision alloy} (factor numerator denominator : alloy)
    : option (result ProcessorError alloy) :=
  if bool_decide (denominator = alloy_zero)
  then Some (Err (InvariantError "blob fee denominator is zero"))
  else
    match ok_or (alloy_mul factor denominator) fee_overflow with
    | Err e => Some (Err e)
    | Ok numerator_accumulator =>
        expand EXPANSION_STEPS numerator denominator alloy_zero numerator_accumulator (alloy_from_u64 1)
    end.

Definition get_blob_base_fee `{!EqDecision alloy} (excess_blob_gas update_fraction : Z)
    : option (result ProcessorError alloy) :=
  fake_exponential (alloy_from_u64 MIN_BLOB_BASE_FEE) (alloy_from_u64 excess_blob_gas)
    (alloy_from_u64 update_fraction).

Definition calculate_eip7918_floor (execution_base_fee : alloy) : result ProcessorError alloy :=
  match alloy_mul execution_base_fee (alloy_from_u64 BLOB_BASE_COST) with
  | Some value => Ok (alloy_div value (alloy_from_u64 BLOB_GAS_PER_BLOB))
  | None => Err (InvariantError "reserve fee overflow")
  end.

Definition checked_mul (left right : alloy) : result ProcessorError alloy :=
  ok_or (alloy_mul left right) (InvariantError "wei multiplication overflow").

End fees.

(** ** Schedules *)

Record BlobFork := MkBlobFork {
  fork_name : string;
  activation_block : Z;
  activation_timestamp : Z;
  fork_id : string;
  target_blobs_per_block : Z;
  max_blobs_per_block : Z;
  base_fee_update_fraction : Z;
  eip7918 : bool;
}.

Record BlobParameters := MkBlobParameters {
  parameters_target : Z;
  parameters_max : Z;
  target_blob_gas : Z;
  max_blob_gas : Z;
  parameters_update_fraction : Z;
  parameters_eip7918 : bool;
}.

Record BlobSchedule := MkBlobSchedule {
  schedule_chain_id : Z;
  schedule_network : string;
  forks : list BlobFork;
}.

Module BlobSchedule.

Definition mainnet : BlobSchedule := MkBlobSchedule 1 "mainnet" [
  MkBlobFork "dencun" 19426589 1710338135 "9f3d2254" 3 6 3338477 false;
  MkBlobFork "pectra" 22431084 1746612311 "c376cf8b" 6 9 5007716 false;
  MkBlobFork "fusaka" 23935694 1764798551 "5167e2a6" 6 9 5007716 true;
  MkBlobFork "bpo1" 23975778 1765290071 "cba2a1c0" 10 15 8346193 true;
  MkBlobFork "bpo2" 24179383 1767747671 "07c9462e" 14 21 11684671 true].

Definition is_lower_hex (b : byte) : bool :=
  ((48 <=? byte_Z b) && (byte_Z b <=? 57)) || ((97 <=? byte_Z b) && (byte_Z b <=? 102)).

(** The refusals of one fork, given those before it. *)
Definition refuses_fork (previous_block previous_timestamp : option Z) (fork : BlobFork) : bool :=
  bool_decide (fork_name fork = "")
  || (activation_block fork =? 0)
  || (activation_timestamp fork =? 0)
  || negb (String.length (fork_id fork) =? 8)%nat
  || negb (forallb is_lower_hex (string_bytes (fork_id fork)))
  || (target_blobs_per_block fork =? 0)
  || (max_blobs_per_block fork <? target_blobs_per_block fork)
  || (base_fee_update_fraction fork =? 0)
  || is_some_and previous_block (λ block, activation_block fork <=? block)
  || is_some_and previous_timestamp (λ timestamp, activation_timestamp fork <=? timestamp).

(** One iteration; the state is the previous activation. *)
Definition validate_fork (previous : option Z * option Z) (fork : BlobFork)
    : result string (option Z * option Z) :=
  if refuses_fork previous.1 previous.2 fork
  then Err "blob forks must be valid and strictly ordered"
  else Ok (Some (activation_block fork), Some (activation_timestamp fork)).

Definition validate (s : BlobSchedule) : result string () :=
  if (schedule_chain_id s =? 0) || bool_decide (schedule_network s = "")
     || bool_decide (length (forks s) = 0%nat)
  then Err "schedule identity and forks are required"
  else
    _ ← fold_result validate_fork (None, None) (forks s);
    Ok ().

Definition first_block (s : BlobSchedule) : Z :=
  match forks s with [] => 0 | fork :: _ => activation_block fork end.

(** [forks.iter().rev().find(..)]. *)
Definition fork_at_block (s : BlobSchedule) (block_number : Z) : option BlobFork :=
  List.find (λ fork, activation_block fork <=? block_number) (rev (forks s)).
Definition fork_at_timestamp (s : BlobSchedule) (timestamp : Z) : option BlobFork :=
  List.find (λ fork, activation_timestamp fork <=? timestamp) (rev (forks s)).

Definition parameters_at_timestamp (s : BlobSchedule) (timestamp : Z) : option BlobParameters :=
  (λ fork, MkBlobParameters (target_blobs_per_block fork) (max_blobs_per_block fork)
     (sat_mul (target_blobs_per_block fork) BLOB_GAS_PER_BLOB)
     (sat_mul (max_blobs_per_block fork) BLOB_GAS_PER_BLOB)
     (base_fee_update_fraction fork) (eip7918 fork))
  <$> fork_at_timestamp s timestamp.

End BlobSchedule.

(** ** The expansion ends *)

Section expansion.
Context `{AlloyLaws, !EqDecision alloy}.
Implicit Types n d o a i : alloy.

Abbreviation val := alloy_val.

(** A step of the loop that goes on. *)
Lemma expand_step fuel n d o a i r : 0 < val d → 0 < val i →
  expand (S fuel) n d o a i = r → (∀ e, r ≠ Some (Err e)) → 0 < val a →
  ∃ o' a' i', expand fuel n d o' a' i' = r ∧ val o' = val o + val a
    ∧ val a' = val a * val n / (val d * val i) ∧ val i' = val i + 1
    ∧ val a * val n < 2 ^ 256 ∧ val d * val i < 2 ^ 256.
Proof.
  intros Hd Hi Hr Herr Ha. cbn [expand] in Hr. rewrite alloy_gtb_val, alloy_zero_val in Hr.
  rewrite (proj2 (Z.ltb_lt _ _)) in Hr by done.
  destruct (alloy_add o a) as [o'|] eqn:Ho; [|by destruct (Herr fee_overflow)].
  destruct (alloy_mul d i) as [div|] eqn:Hdiv; [|by destruct (Herr fee_overflow)].
  destruct (alloy_mul a n) as [p|] eqn:Hp; [|by destruct (Herr fee_overflow)].
  destruct (alloy_add i (alloy_from_u64 1)) as [i'|] eqn:Hi'; [|by destruct (Herr fee_overflow)].
  apply alloy_add_Some in Ho, Hi'. apply alloy_mul_Some in Hdiv, Hp.
  rewrite alloy_u64_val in Hi' by done. pose proof (alloy_range div). pose proof (alloy_range p).
  exists o', (alloy_div p div), i'. split_and!; [exact Hr|done| |done|lia|lia].
  rewrite alloy_div_val by nia. by rewrite Hp, Hdiv.
Qed.

Lemma expand_zero fuel n d o a i : val a = 0 → expand (S fuel) n d o a i = Some (Ok (alloy_div o d)).
Proof. intros Ha. cbn [expand]. by rewrite alloy_gtb_val, alloy_zero_val, Ha. Qed.

(** Out of fuel, one step in. *)
Lemma expand_None fuel n d o a i : 0 < val d → 0 < val i → expand (S fuel) n d o a i = None →
  ∃ o' a' i', expand fuel n d o' a' i' = None ∧ 0 < val a
    ∧ val a' = val a * val n / (val d * val i) ∧ val i' = val i + 1.
Proof.
  intros Hd Hi Hnone. pose proof (alloy_range a).
  destruct (decide (val a = 0)) as [Hz|Hz]; [by rewrite expand_zero in Hnone|].
  destruct (expand_step fuel n d o a i _ Hd Hi Hnone ltac:(done) ltac:(lia)) as (o' & a' & i' & ? & _ & ? & ? & _).
  exists o', a', i'. split_and!; [done|lia|done|done].
Qed.

(** Where the next term is at most half of this one, as many steps as the
    term has bits are left. *)
Lemma halving_ends fuel k n d o a i : 0 < val d → 0 < val i → 2 * val n ≤ val d * val i →
  val a < 2 ^ Z.of_nat k → (k < fuel)%nat → expand fuel n d o a i ≠ None.
Proof.
  intros Hd. revert k o a i. induction fuel as [|fuel IH]; intros k o a i Hi Hhalf Ha Hk; [lia|].
  intros Hnone. destruct (expand_None _ _ _ _ _ _ Hd Hi Hnone) as (o' & a' & i' & Hnone' & Hpos & Ha' & Hi').
  destruct k as [|k]; [cbn in Ha; lia|]. rewrite Nat2Z.inj_succ, Z.pow_succ_r in Ha by lia.
  pose proof (alloy_range n). apply (IH k o' a' i'); [lia|nia| |lia|done].
  rewrite Ha'. apply Z.div_lt_upper_bound; [nia|]. nia.
Qed.

(** Where the next term is at least twice this one, the terms leave 256 bits
    after as many steps as they have bits left. *)
Lemma doubling_ends fuel k n d o a i : 0 < val d → 0 < val i →
  2 * (val d * (val i + Z.of_nat k)) ≤ val n → 2 ^ 256 ≤ val a * 2 ^ Z.of_nat k →
  (k < fuel)%nat → expand fuel n d o a i ≠ None.
Proof.
  intros Hd. revert k o a i. induction fuel as [|fuel IH]; intros k o a i Hi Hdouble Ha Hk; [lia|].
  intros Hnone. destruct (expand_None _ _ _ _ _ _ Hd Hi Hnone) as (o' & a' & i' & Hnone' & Hpos & Ha' & Hi').
  pose proof (alloy_range a). destruct k as [|k]; [cbn in Ha; lia|].
  rewrite Nat2Z.inj_succ, Z.pow_succ_r in Ha by lia.
  apply (IH k o' a' i'); [lia|rewrite Hi'; nia| |lia|done].
  assert (2 * val a ≤ val a') by (rewrite Ha'; apply Z.div_le_lower_bound; nia).
  assert (0 < 2 ^ Z.of_nat k) by (apply Z.pow_pos_nonneg; lia). nia.
Qed.

Lemma steps_end n d k fuel z : 0 < val d →
  (∀ o a i, val i = z + Z.of_nat k → expand fuel n d o a i ≠ None) →
  ∀ o a i, 0 < val i → val i = z → expand (k + fuel) n d o a i ≠ None.
Proof.
  intros Hd. revert z. induction k as [|k IH]; intros z Hend o a i Hpos Hi; [apply Hend; lia|].
  intros Hnone. destruct (expand_None _ _ _ _ _ _ Hd Hpos Hnone) as (o' & a' & i' & Hnone' & _ & _ & Hi').
  apply (IH (z + 1)) in Hnone'; [done| |lia|lia]. intros ??? ?. apply Hend. lia.
Qed.

Lemma expand_ends n d o a i : 0 < val d → val i = 1 → expand EXPANSION_STEPS n d o a i ≠ None.
Proof.
  intros Hd Hi. pose proof (alloy_range a).
  destruct (decide (2 * (val d * 257) ≤ val n)) as [Hbig|Hsmall].
  - destruct (decide (val a = 0)) as [Hz|Hz]; [by setoid_rewrite (expand_zero 1299)|].
    apply (doubling_ends _ 256); [done|lia|rewrite Hi; lia| |unfold EXPANSION_STEPS; lia].
    change (Z.of_nat 256) with 256. nia.
  - change EXPANSION_STEPS with (1028 + 272)%nat. apply (steps_end _ _ _ _ 1); [done| |lia|done].
    intros o' a' i' Hi'. apply (halving_ends _ 256); [done|lia|nia| |lia]. apply alloy_range.
Qed.

(** ** The expansion in unbounded integers *)

(** The sum of the terms and the largest number met on the way. *)
Fixpoint taylor (fuel : nat) (n d o a i : Z) : option (Z * Z) :=
  match fuel with
  | O => None
  | S fuel =>
      if 0 <? a then
        '(sum, largest) ← taylor fuel n d (o + a) (a * n / (d * i)) (i + 1);
        Some (sum, Z.max largest (Z.max (Z.max (o + a) (a * n)) (Z.max (d * i) (i + 1))))
      else Some (o, 0)
  end.

Lemma expand_Ok fuel n d o a i v : 0 < val d → 0 < val i →
  expand fuel n d o a i = Some (Ok v) ↔
  ∃ sum largest, taylor fuel (val n) (val d) (val o) (val a) (val i) = Some (sum, largest)
    ∧ largest < 2 ^ 256 ∧ val v = sum / val d.
Proof.
  intros Hd. revert o a i. induction fuel as [|fuel IH]; intros o a i Hi; [cbn; naive_solver|].
  pose proof (alloy_range a) as Har. destruct (decide (val a = 0)) as [Hz|Hz].
  - rewrite expand_zero by done. cbn [taylor]. rewrite Hz. cbn. split.
    + intros [= <-]. exists (val o), 0. rewrite alloy_div_val by lia. done.
    + intros (sum & largest & [= <- <-] & _ & Hv). f_equal. f_equal. apply alloy_inj.
      by rewrite alloy_div_val, Hv by lia.
  - cbn [taylor]. rewrite (proj2 (Z.ltb_lt _ _)) by lia. split.
    + intros Hr. destruct (expand_step _ _ _ _ _ _ _ Hd Hi Hr ltac:(done) ltac:(lia))
        as (o' & a' & i' & Hr' & Ho' & Ha' & Hi' & Hp & Hdi).
      apply IH in Hr' as (sum & largest & Ht & Hl & Hv); [|lia]. rewrite Ho', Ha', Hi' in Ht.
      pose proof (alloy_range o'). pose proof (alloy_range i').
      rewrite Ht. eexists _, _. split; [done|]. split; [lia|done].
    + intros (sum & largest & Ht & Hl & Hv). apply bind_Some in Ht as ([sum' largest'] & Ht & [= -> <-]).
      cbn [expand]. rewrite alloy_gtb_val, alloy_zero_val, (proj2 (Z.ltb_lt _ _)) by lia.
      assert (∃ x, alloy_add o a = Some x ∧ val x = val o + val a) as (x & -> & Hx).
      { pose proof (alloy_add_val o a) as Hx. rewrite (proj2 (Z.ltb_lt _ _)) in Hx by lia.
        destruct (alloy_add o a); naive_solver. }
      assert (∃ x, alloy_mul d i = Some x ∧ val x = val d * val i) as (y & -> & Hy).
      { pose proof (alloy_mul_val d i) as Hy. rewrite (proj2 (Z.ltb_lt _ _)) in Hy by lia.
        destruct (alloy_mul d i); naive_solver. }
      assert (∃ x, alloy_mul a n = Some x ∧ val x = val a * val n) as (z & -> & Hz').
      { pose proof (alloy_mul_val a n) as Hz'. rewrite (proj2 (Z.ltb_lt _ _)) in Hz' by lia.
        destruct (alloy_mul a n); naive_solver. }
      assert (∃ x, alloy_add i (alloy_from_u64 1) = Some x ∧ val x = val i + 1) as (w & -> & Hw).
      { pose proof (alloy_add_val i (alloy_from_u64 1)) as Hw. rewrite alloy_u64_val in Hw by done.
        rewrite (proj2 (Z.ltb_lt _ _)) in Hw by lia. destruct (alloy_add i _); naive_solver. }
      cbn [ok_or mbind result_bind]. apply IH; [lia|]. exists sum, largest'.
      rewrite Hx, Hw, alloy_div_val, Hz', Hy by nia. split; [done|]. split; [lia|done].
Qed.

(** The sum grows along the way. *)
Lemma taylor_grows fuel (n d o a i sum largest : Z) : 0 ≤ n → 0 < d → 0 < i → 0 ≤ a →
  taylor fuel n d o a i = Some (sum, largest) → o + a ≤ sum ∧ 0 ≤ largest.
Proof.
  intros Hn Hd. revert o a i sum largest. induction fuel as [|fuel IH]; intros o a i sum largest Hi Ha; [done|].
  cbn [taylor]. destruct (Z.ltb_spec 0 a).
  - intros ([sum' largest'] & Ht & [= -> <-])%bind_Some. apply IH in Ht as [Hs Hl]; [|lia|apply Z.div_pos; nia].
    assert (0 ≤ a * n / (d * i)) by (apply Z.div_pos; nia). lia.
  - intros [= <- <-]. lia.
Qed.

(** The sum is itself one of the numbers met. *)
Lemma taylor_sum fuel (n d o a i sum largest : Z) :
  taylor fuel n d o a i = Some (sum, largest) → sum ≤ Z.max o largest.
Proof.
  revert o a i sum largest. induction fuel as [|fuel IH]; intros o a i sum largest; [done|].
  cbn [taylor]. destruct (Z.ltb_spec 0 a).
  - intros ([sum' largest'] & Ht & [= -> <-])%bind_Some. apply IH in Ht. lia.
  - intros [= <- <-]. lia.
Qed.

(** A smaller exponent gives smaller terms, numbers and sums. *)
Lemma taylor_mono fuel (n n' d o o' a a' i sum largest : Z) : 0 ≤ n ≤ n' → 0 < d → 0 < i →
  o ≤ o' → 0 ≤ a ≤ a' → taylor fuel n' d o' a' i = Some (sum, largest) →
  ∃ sum' largest', taylor fuel n d o a i = Some (sum', largest') ∧ sum' ≤ sum ∧ largest' ≤ largest.
Proof.
  intros Hn Hd. revert o o' a a' i sum largest.
  induction fuel as [|fuel IH]; intros o o' a a' i sum largest Hi Ho Ha; [done|]. intros Ht'.
  destruct (taylor_grows _ n' _ _ _ _ _ _ ltac:(lia) Hd Hi (Z.le_trans _ _ _ (proj1 Ha) (proj2 Ha)) Ht') as [Hg Hg'].
  cbn [taylor] in Ht' |- *. destruct (Z.ltb_spec 0 a) as [Hpos|]; [|eexists _, _; split; [done|lia]].
  rewrite (proj2 (Z.ltb_lt _ _)) in Ht' by lia.
  apply bind_Some in Ht' as ([s l] & Ht' & [= -> <-]).
  assert (0 ≤ a * n ≤ a' * n') by nia.
  destruct (IH (o + a) (o' + a') (a * n / (d * i)) (a' * n' / (d * i)) (i + 1) sum l) as (s' & l' & -> & Hs & Hl);
    [lia|lia| |done|].
  { split; [apply Z.div_pos; nia|]. apply Z.div_le_mono; nia. }
  eexists _, _. split; [done|]. lia.
Qed.

End expansion.

(** ** Lookups in a schedule *)

Module ScheduleFacts.
Import BlobSchedule.

(** What [validate] asks of each fork and of each pair. *)
Definition well_formed (fork : BlobFork) : Prop :=
  0 < target_blobs_per_block fork ≤ max_blobs_per_block fork ∧ 0 < base_fee_update_fraction fork.
Definition before (f g : BlobFork) : Prop :=
  activation_block f < activation_block g ∧ activation_timestamp f < activation_timestamp g.

(** The widths of a fork's numbers. *)
Definition sized (fork : BlobFork) : Prop :=
  is_u32 (target_blobs_per_block fork) ∧ is_u32 (max_blobs_per_block fork) ∧
  is_u64 (base_fee_update_fraction fork).

Lemma refuses_fork_false pb pt fork : sized fork → refuses_fork pb pt fork = false →
  well_formed fork ∧ (∀ b, pb = Some b → b < activation_block fork)
  ∧ (∀ t, pt = Some t → t < activation_timestamp fork).
Proof.
  unfold refuses_fork, sized, well_formed. rewrite !orb_false_iff. intros Hs Hr.
  destruct Hr as [[[[[[[[[_ _] _] _] _] Ht%Z.eqb_neq] Hm%Z.ltb_ge] Hf%Z.eqb_neq] Hb] Hts].
  split; [uints|]. split.
  - intros b ->. cbn in Hb. by apply Z.leb_gt in Hb.
  - intros t ->. cbn in Hts. by apply Z.leb_gt in Hts.
Qed.

Lemma validate_forks l previous last : Forall sized l →
  fold_result validate_fork previous l = Ok last →
  Forall well_formed l ∧ StronglySorted before l
  ∧ Forall (λ f, (∀ b, previous.1 = Some b → b < activation_block f)
                 ∧ (∀ t, previous.2 = Some t → t < activation_timestamp f)) l.
Proof.
  intros Hs. revert previous. induction Hs as [|f l Hf Hl IH]; intros previous; [by repeat constructor|].
  cbn [fold_result]. intros (state & Hstep & Hrest)%result_bind_Ok. unfold validate_fork in Hstep.
  apply if_Err_Ok in Hstep as [(Hw & Hb & Ht)%refuses_fork_false [= <-]]; [|done].
  apply IH in Hrest as (Hws & Hsorted & Hafter). cbn [fst snd] in *.
  assert (Forall (before f) l) as Hbefore.
  { eapply Forall_impl; [exact Hafter|]. intros g [Hgb Hgt]. split; [by apply Hgb|by apply Hgt]. }
  split_and!; constructor; [done..|by split|].
  eapply Forall_impl; [exact Hbefore|]. intros g [Hgb Hgt]. split.
  - intros b Hpb. specialize (Hb b Hpb). lia.
  - intros t Hpt. specialize (Ht t Hpt). lia.
Qed.

(** The last element at or before a bound, in a list sorted by a key. *)
Lemma find_rev_sorted {A} (R : relation A) (key : A → Z) l t : (∀ f g, R f g → key f < key g) →
  StronglySorted R l →
  match List.find (λ f, key f <=? t) (rev l) with
  | Some f => f ∈ l ∧ key f ≤ t ∧ ∀ g, g ∈ l → key g ≤ t → key g ≤ key f
  | None => ∀ g, g ∈ l → t < key g
  end.
Proof.
  intros HR. induction l as [|x l IH] using rev_ind; intros Hsorted.
  { cbn. intros g Hg. by apply not_elem_of_nil in Hg. }
  apply StronglySorted_app in Hsorted as (Hlast & Hsorted & _). specialize (IH Hsorted).
  rewrite rev_app_distr. cbn. destruct (Z.leb_spec (key x) t) as [Hle|Hgt].
  - split; [set_solver|]. split; [done|]. intros g [Hg| ->%list_elem_of_singleton]%elem_of_app _; [|done].
    apply Z.lt_le_incl, HR, Hlast; [done|set_solver].
  - destruct (List.find _ (rev l)) as [f|].
    + destruct IH as (Hin & Hf & Hmax). split; [set_solver|]. split; [done|].
      intros g [Hg| ->%list_elem_of_singleton]%elem_of_app Hgt'; [by apply Hmax|lia].
    + intros g [Hg| ->%list_elem_of_singleton]%elem_of_app; [by apply IH|done].
Qed.

End ScheduleFacts.

Section theorems.
Context `{AlloyLaws, !EqDecision alloy}.
#[local] Opaque EXPANSION_STEPS.

Lemma val_one : alloy_val (alloy_from_u64 1) = 1.
Proof. by apply alloy_u64_val. Qed.

Lemma zero_iff a : a = alloy_zero ↔ alloy_val a = 0.
Proof. split; [intros ->; apply alloy_zero_val|]. intros Ha. apply alloy_inj. by rewrite alloy_zero_val. Qed.

Lemma fake_exponential_Ok factor numerator denominator v :
  fake_exponential factor numerator denominator = Some (Ok v) ↔
  0 < alloy_val denominator ∧ alloy_val factor * alloy_val denominator < 2 ^ 256 ∧
  ∃ sum largest,
    taylor EXPANSION_STEPS (alloy_val numerator) (alloy_val denominator) 0
      (alloy_val factor * alloy_val denominator) 1 = Some (sum, largest)
    ∧ largest < 2 ^ 256 ∧ alloy_val v = sum / alloy_val denominator.
Proof.
  unfold fake_exponential. pose proof (alloy_range denominator).
  case_bool_decide as Hz; [apply zero_iff in Hz; split; [discriminate|intros [? _]; lia]|].
  assert (0 < alloy_val denominator) as Hpos by (assert (alloy_val denominator ≠ 0) by (by rewrite <-zero_iff); lia).
  destruct (alloy_mul factor denominator) as [a|] eqn:Ha; cbn [ok_or].
  - apply alloy_mul_Some in Ha as Hval. pose proof (alloy_range a).
    rewrite expand_Ok by (done || by rewrite val_one). rewrite alloy_zero_val, val_one, Hval.
    split; [intros Hr; split_and!; [done|lia|done]|by intros (_ & _ & Hr)].
  - pose proof (alloy_mul_val factor denominator) as Hv. rewrite Ha in Hv. cbn in Hv.
    destruct (Z.ltb_spec (alloy_val factor * alloy_val denominator) (2 ^ 256)); [done|].
    split; [done|]. intros (_ & Hlt & _). lia.
Qed.

Lemma fake_exponential_total factor numerator denominator :
  ∃ r, fake_exponential factor numerator denominator = Some r.
Proof.
  unfold fake_exponential. pose proof (alloy_range denominator).
  case_bool_decide as Hz; [by eexists|]. rewrite zero_iff in Hz.
  destruct (alloy_mul factor denominator) as [a|]; cbn [ok_or]; [|by eexists].
  destruct (expand _ _ _ _ _ _) as [r|] eqn:He; [by exists r|].
  apply expand_ends in He; [done|lia|apply val_one].
Qed.

Lemma base_fee_mono excess excess' fraction v : 0 ≤ excess ≤ excess' → is_u64 excess' → is_u64 fraction →
  get_blob_base_fee excess' fraction = Some (Ok v) →
  ∃ u, get_blob_base_fee excess fraction = Some (Ok u) ∧ 1 ≤ alloy_val u ≤ alloy_val v.
Proof.
  intros He He' Hf. unfold get_blob_base_fee. setoid_rewrite fake_exponential_Ok.
  unfold MIN_BLOB_BASE_FEE. rewrite val_one, !alloy_u64_val by uints.
  intros (Hpos & Hprod & sum & largest & Ht & Hl & Hv).
  destruct (taylor_mono EXPANSION_STEPS excess excess' fraction 0 0 (1 * fraction) (1 * fraction) 1 sum largest)
    as (s & l & Hs & Hle & Hle'); [exact He|exact Hpos|lia|lia|lia|exact Ht|].
  pose proof Hs as Hg. apply taylor_grows in Hg as [Hg _]; [|lia..].
  assert (0 ≤ s / fraction < 2 ^ 256) as Hr.
  { pose proof (alloy_range v). split; [apply Z.div_pos; lia|].
    apply Z.le_lt_trans with (sum / fraction); [by apply Z.div_le_mono|]. lia. }
  exists (quantity_to_u256 (word_of (s / fraction))).
  assert (alloy_val (quantity_to_u256 (word_of (s / fraction))) = s / fraction) as Hval.
  { unfold quantity_to_u256. rewrite from_be_bytes_val. by apply word_of_val. }
  split; [split; [exact Hpos|split; [exact Hprod|exists s, l; split; [exact Hs|split; [lia|exact Hval]]]]|].
  rewrite Hval, Hv. split; [apply Z.div_le_lower_bound; lia|by apply Z.div_le_mono].
Qed.

(** C28: The expansion of EIP-4844 ends on every input, within 1,300 steps
    whatever the exponent, and gives a value exactly when the denominator is
    not zero and no number the unbounded expansion meets exceeds 256 bits; the
    value is then the unbounded expansion's. Otherwise it is an error: no
    number ever wraps. *)
Theorem fake_exponential_ends factor numerator denominator :
  ∃ r, fake_exponential factor numerator denominator = Some r ∧
  ∀ v, r = Ok v ↔
    0 < alloy_val denominator ∧ alloy_val factor * alloy_val denominator < 2 ^ 256 ∧
    ∃ sum largest,
      taylor EXPANSION_STEPS (alloy_val numerator) (alloy_val denominator) 0
        (alloy_val factor * alloy_val denominator) 1 = Some (sum, largest)
      ∧ largest < 2 ^ 256 ∧ alloy_val v = sum / alloy_val denominator.
Proof.
  destruct (fake_exponential_total factor numerator denominator) as [r Hr]. exists r. split; [done|].
  intros v. rewrite <-fake_exponential_Ok, Hr. naive_solver.
Qed.

(** Whether a fee exists, by computation on the unbounded expansion. *)
Definition computable (excess fraction : Z) : bool :=
  match taylor EXPANSION_STEPS excess fraction 0 fraction 1 with
  | Some (sum, largest) => largest <? 2 ^ 256
  | None => false
  end.

Lemma computable_spec excess fraction : is_u64 excess → is_u64 fraction → 0 < fraction →
  (computable excess fraction = true ↔ ∃ v, get_blob_base_fee excess fraction = Some (Ok v)).
Proof.
  intros He Hf Hpos. unfold get_blob_base_fee. setoid_rewrite fake_exponential_Ok.
  unfold MIN_BLOB_BASE_FEE. rewrite val_one, !alloy_u64_val by done. rewrite Z.mul_1_l. unfold computable.
  assert (fraction < 2 ^ 256) as Hsmall by uints.
  destruct (taylor EXPANSION_STEPS excess fraction 0 fraction 1) as [[sum largest]|] eqn:Ht; [|naive_solver].
  split; [intros Hl%Z.ltb_lt|intros (v & _ & _ & ? & ? & [= <- <-] & Hl & _); by apply Z.ltb_lt].
  pose proof Ht as Hg. apply taylor_grows in Hg as [Hg _]; [|apply He|lia..].
  pose proof (taylor_sum _ _ _ _ _ _ _ _ Ht) as Hs.
  assert (0 ≤ sum / fraction < 2 ^ 256) as Hr.
  { split; [apply Z.div_pos; lia|]. apply Z.div_lt_upper_bound; [lia|]. nia. }
  exists (quantity_to_u256 (word_of (sum / fraction))). split; [lia|]. split; [lia|].
  exists sum, largest. split; [done|]. split; [done|].
  unfold quantity_to_u256. rewrite from_be_bytes_val. by apply word_of_val.
Qed.

(** The blob base fee grows with the excess blob gas and is at least one
    wei: where it exists for an excess it exists for every smaller one, and is
    no larger there. On every fork of the mainnet schedule, which passes its
    validation, it exists for any excess up to forty update fractions, a fee
    of 0.2 ether per unit of blob gas. *)
Theorem blob_fee_grows fork excess fraction v
    (Hsmall : is_u64 excess) (Hfraction : is_u64 fraction)
    (Hfee : get_blob_base_fee excess fraction = Some (Ok v)) (Hfork : fork ∈ forks BlobSchedule.mainnet) :
  (∀ smaller, 0 ≤ smaller ≤ excess →
   ∃ u, get_blob_base_fee smaller fraction = Some (Ok u) ∧ 1 ≤ alloy_val u ≤ alloy_val v)
  ∧ BlobSchedule.validate BlobSchedule.mainnet = Ok ()
  ∧ ∀ excess, 0 ≤ excess ≤ 40 * base_fee_update_fraction fork →
    ∃ u, get_blob_base_fee excess (base_fee_update_fraction fork) = Some (Ok u) ∧ 1 ≤ alloy_val u.
Proof.
  split; [intros smaller Hs; by apply (base_fee_mono _ excess)|]. split; [by vm_compute|].
  clear dependent excess. set (f := base_fee_update_fraction fork).
  assert (0 < f ∧ is_u64 (40 * f) ∧ computable (40 * f) f = true) as (Hpos & Hmax & Hlow).
  { subst f. revert fork Hfork. apply Forall_forall. repeat constructor; vm_compute; congruence. }
  assert (is_u64 f) as Hf by uints. apply computable_spec in Hlow as [w Hw]; [|done..].
  intros excess He. destruct (base_fee_mono excess _ _ _ He Hmax Hf Hw) as (u & Hu & H1).
  exists u. split; [done|lia].
Qed.

(** A schedule that passes its validation has one answer at any time and
    block: the latest fork that is active, or none before the first; its
    target and maximum are whole numbers of blobs, the target positive and
    not above the maximum, and its update fraction is never zero, so a fee can
    always be asked for. *)
Theorem schedule_lookup s timestamp block
    (Hsized : Forall ScheduleFacts.sized (forks s)) (Hvalid : BlobSchedule.validate s = Ok ()) :
  match BlobSchedule.fork_at_timestamp s timestamp with
  | Some fork => fork ∈ forks s ∧ activation_timestamp fork ≤ timestamp
      ∧ (∀ other, other ∈ forks s → activation_timestamp other ≤ timestamp →
         activation_timestamp other ≤ activation_timestamp fork)
  | None => ∀ fork, fork ∈ forks s → timestamp < activation_timestamp fork
  end
  ∧ match BlobSchedule.fork_at_block s block with
    | Some fork => fork ∈ forks s ∧ activation_block fork ≤ block
        ∧ (∀ other, other ∈ forks s → activation_block other ≤ block →
           activation_block other ≤ activation_block fork)
    | None => ∀ fork, fork ∈ forks s → block < activation_block fork
    end
  ∧ ∀ p, BlobSchedule.parameters_at_timestamp s timestamp = Some p →
      0 < parameters_target p ≤ parameters_max p ∧ 0 < parameters_update_fraction p
      ∧ target_blob_gas p = parameters_target p * BLOB_GAS_PER_BLOB
      ∧ max_blob_gas p = parameters_max p * BLOB_GAS_PER_BLOB.
Proof.
  unfold BlobSchedule.validate in Hvalid. apply if_Err_Ok in Hvalid as [_ Hvalid].
  apply result_bind_Ok in Hvalid as (last & Hv & _).
  destruct (ScheduleFacts.validate_forks _ _ _ Hsized Hv) as (Hw & Hsorted & _).
  pose proof (ScheduleFacts.find_rev_sorted _ activation_timestamp _ timestamp (λ f g H, proj2 H) Hsorted) as Ht.
  split; [exact Ht|]. split; [exact (ScheduleFacts.find_rev_sorted _ activation_block _ block (λ f g H, proj1 H) Hsorted)|].
  unfold BlobSchedule.parameters_at_timestamp, BlobSchedule.fork_at_timestamp.
  intros p (fork & Hfind & ->)%fmap_Some. rewrite Hfind in Ht. destruct Ht as (Hin & _).
  rewrite Forall_forall in Hw, Hsized. destruct (Hw _ Hin) as [Htm Hf]. destruct (Hsized _ Hin) as (Hst & Hsm & _).
  cbn. split_and!; [lia|lia|lia| |].
  all: unfold BLOB_GAS_PER_BLOB; uints.
Qed.

End theorems.

(** ** Concrete schedules and fees *)

#[local] Existing Instance word_alloy.
#[local] Existing Instance word_alloy_laws.
#[local] Instance word_eq_dec : EqDecision (@alloy word_alloy) := array_eq_dec 32.

Definition dencun : BlobFork :=
  MkBlobFork "dencun" 19426589 1710338135 "9f3d2254" 3 6 3338477 false.

Lemma blob_fee_grows_witness :
  get_blob_base_fee 10000000 3338477 = Some (Ok (word_of 19)) ∧
  ∃ u, get_blob_base_fee 0 3338477 = Some (Ok u) ∧ 1 ≤ alloy_val u ≤ 19.
Proof.
  assert (get_blob_base_fee 10000000 3338477 = Some (Ok (word_of 19))) as Hfee by (vm_compute; reflexivity).
  split; [exact Hfee|].
  destruct (@blob_fee_grows word_alloy word_alloy_laws word_eq_dec dencun 10000000 3338477 (word_of 19)) as (Hsmaller & _).
  - clear; uints.
  - clear; uints.
  - exact Hfee.
  - left.
  - destruct (Hsmaller 0) as (u & Hu & Hle); [lia|]. exists u. split; [exact Hu|]. exact Hle.
Defined.

Lemma mainnet_sized : Forall ScheduleFacts.sized (forks BlobSchedule.mainnet).
Proof. repeat constructor; vm_compute; congruence. Qed.

Lemma schedule_lookup_witness :
  BlobSchedule.fork_at_timestamp BlobSchedule.mainnet 1710338135 = Some dencun ∧
  activation_timestamp dencun ≤ 1710338135.
Proof.
  split; [by vm_compute|].
  apply (schedule_lookup BlobSchedule.mainnet 1710338135 19426589 mainnet_sized); by vm_compute.
Defined.
