(* ===== verification/Blobs.v ===== *)
(** * The blobs processor

    Models [crates/processor-blobs/src/processor.rs] and [model.rs]: the
    block-local delta of a frame ([derive]) with its fee accounting, the
    delta's finality variants, and the reducer that stores the block, its
    blob transactions and their index entries. Fees and schedules are in
    [Fees]. *)
From Stdlib Require Import ZArith Lia Strings.Byte.
From stdpp Require Import gmap strings list list_numbers fin_maps sorting pretty.
From S2P Require Import Prelude Bytes Chain Capability Material Provenance Frame Durable Descriptor Delta Rows Scan Overlay Uint256 Processing Fees.

Definition BLOCK_COLLECTION : string := "blobs.blocks".
Definition TRANSACTION_COLLECTION : string := "blobs.transactions".
Definition TRANSACTION_BLOCK_INDEX : string := "blobs.transactions.by_block".
Definition TRANSFORM_VERSION : Z := 4.

Record BlobsBlockEntity := MkBlobsBlock {
  block_network : string;
  block_number : Z;
  block_hash : BlockHash;
  block_parent_hash : BlockHash;
  block_timestamp : Z;
  block_finality : Finality;
  size_bytes : Z;
  blob_count : Z;
  blob_gas_used : Z;
  block_excess_blob_gas : Z;
  blob_base_fee : Quantity;
  execution_base_fee : Quantity;
  block_gas_used : Z;
  block_gas_limit : Z;
  execution_burn : Quantity;
  blob_burn : option Quantity;
  reserve_fee : option Quantity;
  block_transaction_count : Z;
  block_target_blobs : Z;
  block_max_blobs : Z;
  transform_version : Z;
}.

Record BlobTransactionEntity := MkBlobTransaction {
  transaction_network : string;
  transaction_block_number : Z;
  transaction_block_hash : BlockHash;
  transaction_hash : TransactionHash;
  transaction_index : Z;
  sender : Address;
  recipient : Address;
  versioned_hashes : list BlockHash;
  transaction_blob_count : Z;
  total_burn : Quantity;
  transaction_execution_burn : Quantity;
  transaction_blob_burn : Quantity;
}.

Record BlobsDelta := MkBlobsDelta {
  delta_block_entity : BlobsBlockEntity;
  delta_transactions : list BlobTransactionEntity;
}.

Record BlobsProcessor := MkBlobsProcessor {
  blobs_descriptor : ProcessorDescriptor;
  blobs_schedule : BlobSchedule;
}.

(** ** Material and fields *)

Definition accepted_material {A} (material : Material A) (label : string) : result ProcessorError A :=
  match material with
  | Complete value | Filtered value _ (VerifiedPredicate | DatasetDeclared) => Ok value
  | Filtered _ _ Partial => Err (InputError (label +:+ " projection is only partial"))
  | Missing reason => Err (InputError (label +:+ " material is missing: " +:+ missing_debug reason))
  end.

Definition validate_transaction_projection (transactions : Material (list TransactionEnvelope))
    : result ProcessorError () :=
  match transactions with
  | Filtered _ scope _ =>
      if bool_decide (transaction_types scope = [3]) then Ok ()
      else Err (InputError "filtered transactions must declare exactly type 3")
  | _ => Ok ()
  end.

Definition required {A} (value : option A) (field : string) : result ProcessorError A :=
  ok_or value (InputError (field +:+ " is required")).

(** [output.insert(..).is_some()]. *)
Definition receipt_map (receipts : list ReceiptEnvelope)
    : result ProcessorError (gmap TransactionHash ReceiptEnvelope) :=
  fold_result (λ output receipt,
    match output !! receipt_transaction_hash receipt with
    | Some _ => Err (InvariantError "duplicate projected receipt")
    | None => Ok (<[receipt_transaction_hash receipt := receipt]> output)
    end) ∅ receipts.

(** [u32::try_from]. *)
Definition u32_try_from (z : Z) : option Z := if z <=? u32_max then Some z else None.

(** The identity checks both processors make before they reduce. *)
Definition validate_delta_cursor `{!Blake3} (descriptor : ProcessorDescriptor) (cursor : ProcessorCursor)
    (delta : EncodedDelta) : result ProcessorError () :=
  _ ← EncodedDelta.validate delta descriptor;
  if negb (bool_decide (cursor_processor_id cursor = processor_id (descriptor_id descriptor)))
     || negb (bool_decide (cursor_processor_version cursor = descriptor_version descriptor))
     || negb (cursor_chain_id cursor =? delta_chain_id delta)
     || negb (cursor_block_number cursor =? ref_number (delta_block delta))
     || negb (bool_decide (cursor_block_hash cursor = ref_hash (delta_block delta)))
  then Err CursorMismatch
  else Ok ().

Section blobs.
Context `{!Alloy, !EqDecision alloy, !Hex HE, !Blake3}.
Context {PE : Type} `{!Display PE, !Postcard PE BlobsDelta, !Postcard PE BlobsBlockEntity,
  !Postcard PE BlobTransactionEntity, !Postcard PE BlobSchedule}.

(** ** Construction *)

Definition blobs_requirement : DataRequirement :=
  MkRequirement
    (CapabilitySet.with_cap (CapabilitySet.with_cap (CapabilitySet.with_cap (CapabilitySet.with_cap
      (CapabilitySet.with_cap (CapabilitySet.of_cap Header) Body) Senders) BlobFields) BlockSize) ReceiptOutcome)
    LogFieldSet.NONE true (MkFilterScope None [] [] [] [3] [] []) Unattested.

Definition new_at (schedule : BlobSchedule) (start : BlockNumber) : result ProcessorError BlobsProcessor :=
  _ ← map_err InputError (BlobSchedule.validate schedule);
  if start <? BlobSchedule.first_block schedule
  then Err (InputError ("blob processor start " +:+ pretty start +:+ " predates activation "
                        +:+ pretty (BlobSchedule.first_block schedule)))
  else
    encoded_schedule ← map_err (InputError ∘ to_string) (to_allocvec (PE:=PE) schedule);
    let config_hash := blake3_hash encoded_schedule in
    let code_hash := blake3_hash (string_bytes "leani/blobs-processor/1.6.0") in
    id ← map_err InputError (ProcessorId.new "blobs-money");
    let version := "1.6.0" in
    instance ← map_err InputError (ProcessorInstanceId.legacy id version config_hash);
    Ok (MkBlobsProcessor
      (MkDescriptor id instance version code_hash config_hash (StartBlock start) [blobs_requirement]
        BlockLocal BlockVersionedIdempotent PublishAttested
        (LifecyclePolicies.from_legacy FullOutputHistory)
        (MkSchemas 3 "blobs.entity.v4" "blobs.block-bundle.v1"))
      schedule).

Definition new (schedule : BlobSchedule) : result ProcessorError BlobsProcessor :=
  new_at schedule (BlobSchedule.first_block schedule).

Definition with_contract (p : BlobsProcessor) (instance : ProcessorInstanceId)
    (publication : PublicationPolicy) (lifecycle : LifecyclePolicies) : BlobsProcessor :=
  let d := blobs_descriptor p in
  MkBlobsProcessor
    (MkDescriptor (descriptor_id d) instance (descriptor_version d) (code_hash d) (config_hash d)
      (descriptor_start d) (requirements d) (descriptor_mode d) (delivery_ordering d) publication lifecycle
      (schemas d))
    (blobs_schedule p).

(** ** Deriving the delta of a frame *)

Definition map_transaction (frame : BlockFrame) (transaction : TransactionEnvelope) (receipt : ReceiptEnvelope)
    (blob_base_fee execution_base_fee : alloy) (network : string) : result ProcessorError BlobTransactionEntity :=
  if negb (bool_decide (tx_hash transaction = receipt_transaction_hash receipt))
     || negb (tx_index transaction =? receipt_transaction_index receipt)
     || negb (receipt_transaction_type receipt =? 3)
  then Err (InvariantError "transaction/receipt identity mismatch")
  else
    sender ← required (tx_from transaction) "transaction.from";
    to ← required (tx_to transaction) "transaction.to";
    blob_count ← ok_or (u32_try_from (Z.of_nat (length (blob_versioned_hashes transaction))))
      (InvariantError "transaction blob count overflows u32");
    if blob_count =? 0
    then Err (InvariantError "type-3 transaction has no blob hashes")
    else
      let expected_blob_gas := sat_mul blob_count BLOB_GAS_PER_BLOB in
      if is_some_and (receipt_blob_gas_used receipt) (λ actual, negb (actual =? expected_blob_gas))
      then Err (InvariantError "transaction blob gas disagrees with hash count")
      else
        receipt_gas_used ← required (receipt_gas_used receipt) "receipt.gas_used";
        execution_burn ← checked_mul execution_base_fee (alloy_from_u64 receipt_gas_used);
        blob_burn ← checked_mul blob_base_fee (alloy_from_u64 expected_blob_gas);
        total_burn ← ok_or (alloy_add execution_burn blob_burn) (InvariantError "transaction burn overflow");
        Ok (MkBlobTransaction network (ref_number (frame_block frame)) (ref_hash (frame_block frame))
          (tx_hash transaction) (tx_index transaction) sender to (blob_versioned_hashes transaction) blob_count
          (quantity_of total_burn) (quantity_of execution_burn) (quantity_of blob_burn)).

(** [{}] of a fixed-bytes newtype. *)
Definition show_hash (hash : TransactionHash) : string := "0x" +:+ hex_encode (bytes_of hash).

(** One iteration over the type-3 transactions. *)
Definition derive_transaction (frame : BlockFrame) (receipts : gmap TransactionHash ReceiptEnvelope)
    (blob_base_fee execution_base_fee : alloy) (network : string)
    (state : Z * list BlobTransactionEntity) (transaction : TransactionEnvelope)
    : result ProcessorError (Z * list BlobTransactionEntity) :=
  let '(projected_blob_count, transaction_entities) := state in
  receipt ← ok_or (receipts !! tx_hash transaction)
    (InputError ("missing projected receipt for " +:+ show_hash (tx_hash transaction)));
  entity ← map_transaction frame transaction receipt blob_base_fee execution_base_fee network;
  projected_blob_count ← ok_or (u32_try_from (projected_blob_count + transaction_blob_count entity))
    (InvariantError "blob count overflow");
  Ok (projected_blob_count, transaction_entities ++ [entity]).

(** The fee, which always exists or is an error ([Fees.fake_exponential_ends]). *)
Definition blob_fee (excess_blob_gas update_fraction : Z) : result ProcessorError alloy :=
  default (Err fee_overflow) (get_blob_base_fee excess_blob_gas update_fraction).

(** [condition.then(..).transpose()?]. *)
Definition then_transpose {A} (condition : bool) (c : result ProcessorError A) : result ProcessorError (option A) :=
  if condition then Some <$> c else Ok None.

(** [requirements[0]] panics on an empty list; [new_at] builds one, and
    [with_contract] keeps it. *)
Definition derive (p : BlobsProcessor) (frame : BlockFrame) : result ProcessorError BlobsDelta :=
  requirement ← ok_or (head (requirements (blobs_descriptor p))) (InputError "index out of bounds");
  _ ← map_err InputError (DataRequirement.validate_frame requirement frame);
  let schedule := blobs_schedule p in
  if negb (frame_chain_id frame =? schedule_chain_id schedule)
  then Err (InputError ("blob schedule is for chain " +:+ pretty (schedule_chain_id schedule) +:+ ", received "
                        +:+ pretty (frame_chain_id frame)))
  else
    parameters ← ok_or (BlobSchedule.parameters_at_timestamp schedule (ref_timestamp (frame_block frame)))
      (InputError "block predates blob activation");
    header ← accepted_material (frame_header frame) "header";
    transactions ← accepted_material (frame_transactions frame) "transactions";
    receipts ← accepted_material (frame_receipts frame) "receipts";
    _ ← validate_transaction_projection (frame_transactions frame);
    gas_limit ← required (header_gas_limit header) "header.gas_limit";
    gas_used ← required (header_gas_used header) "header.gas_used";
    base_fee ← required (base_fee_per_gas header) "header.base_fee_per_gas";
    let execution_base_fee := quantity_to_u256 base_fee in
    blob_gas_used ← required (header_blob_gas_used header) "header.blob_gas_used";
    excess ← required (excess_blob_gas header) "header.excess_blob_gas";
    size_bytes ← required (header_size_bytes header) "header.size_bytes";
    transaction_count ← required (transaction_count header) "header.transaction_count";
    if negb (blob_gas_used mod BLOB_GAS_PER_BLOB =? 0)
    then Err (InvariantError "block blob gas is not a whole blob count")
    else
      blob_count ← ok_or (u32_try_from (blob_gas_used / BLOB_GAS_PER_BLOB))
        (InvariantError "blob count overflows u32");
      if parameters_max parameters <? blob_count
      then Err (InvariantError "block exceeds configured maximum blobs")
      else
        blob_base_fee ← blob_fee excess (parameters_update_fraction parameters);
        reserve_fee ← then_transpose (parameters_eip7918 parameters) (calculate_eip7918_floor execution_base_fee);
        execution_burn ← checked_mul execution_base_fee (alloy_from_u64 gas_used);
        blob_burn ← then_transpose (0 <? blob_gas_used)
          (checked_mul blob_base_fee (alloy_from_u64 blob_gas_used));
        receipts ← receipt_map receipts;
        '(projected_blob_count, transaction_entities) ←
          fold_result (derive_transaction frame receipts blob_base_fee execution_base_fee (schedule_network schedule))
            (0, []) (List.filter (λ transaction, tx_type transaction =? 3) transactions);
        if negb (projected_blob_count =? blob_count)
        then Err (InvariantError ("projected transactions contain " +:+ pretty projected_blob_count
               +:+ " blobs, header declares " +:+ pretty blob_count))
        else
          let transaction_entities :=
            sort_by (λ a b, cmp_leb bytes_cmp (bytes_of (transaction_hash a)) (bytes_of (transaction_hash b)))
              transaction_entities in
          Ok (MkBlobsDelta
            (MkBlobsBlock (schedule_network schedule) (ref_number (frame_block frame)) (ref_hash (frame_block frame))
              (ref_parent_hash (frame_block frame)) (ref_timestamp (frame_block frame)) (frame_finality frame)
              size_bytes blob_count blob_gas_used excess (quantity_of blob_base_fee)
              (quantity_of execution_base_fee) gas_used gas_limit (quantity_of execution_burn)
              (quantity_of <$> blob_burn) (quantity_of <$> reserve_fee) transaction_count
              (parameters_target parameters) (parameters_max parameters) TRANSFORM_VERSION)
            transaction_entities).

Definition blobs_map (p : BlobsProcessor) (frame : BlockFrame) : result ProcessorError EncodedDelta :=
  delta ← derive p frame;
  payload ← map_err (DeltaPayload ∘ to_string) (to_allocvec (PE:=PE) delta);
  Ok (EncodedDelta.new (blobs_descriptor p) (frame_chain_id frame) (frame_block frame) payload).

(** ** Finality variants *)

Definition with_finality (delta : BlobsDelta) (finality : Finality) : BlobsDelta :=
  let b := delta_block_entity delta in
  MkBlobsDelta
    (MkBlobsBlock (block_network b) (block_number b) (block_hash b) (block_parent_hash b) (block_timestamp b)
      finality (size_bytes b) (blob_count b) (blob_gas_used b) (block_excess_blob_gas b) (blob_base_fee b)
      (execution_base_fee b) (block_gas_used b) (block_gas_limit b) (execution_burn b) (blob_burn b)
      (reserve_fee b) (block_transaction_count b) (block_target_blobs b) (block_max_blobs b)
      (transform_version b))
    (delta_transactions delta).

Definition variant_checksum (p : BlobsProcessor) (delta : EncodedDelta) (decoded : BlobsDelta)
    (finality : Finality) : result ProcessorError BlockHash :=
  payload ← map_err (DeltaPayload ∘ to_string) (to_allocvec (PE:=PE) (with_finality decoded finality));
  Ok (delta_checksum (EncodedDelta.new (blobs_descriptor p) (delta_chain_id delta) (delta_block delta) payload)).

Definition finality_variant_checksums (p : BlobsProcessor) (delta : EncodedDelta)
    : result ProcessorError (list BlockHash) :=
  _ ← EncodedDelta.validate delta (blobs_descriptor p);
  decoded ← map_err (DeltaPayload ∘ to_string) (from_bytes (PE:=PE) (delta_payload delta));
  checksums ← fold_result (λ checksums finality,
      checksum ← variant_checksum p delta decoded finality; Ok (checksums ++ [checksum]))
    [] [Unattested; Attested; Finalized];
  (* [sort_unstable], [dedup] *)
  Ok (dedup (sort_by (λ a b, cmp_leb bytes_cmp (bytes_of a) (bytes_of b)) checksums)).

(** ** Reducing a delta *)

Definition put_transaction (block_key : list byte) (_ : ()) (entity : BlobTransactionEntity) : Reduce () :=
  let key := bytes_of (transaction_hash entity) in
  payload ← pure (map_err (StateError ∘ to_string) (to_allocvec (PE:=PE) entity));
  _ ← do_put TRANSACTION_COLLECTION key payload;
  do_index_put TRANSACTION_BLOCK_INDEX block_key key.

Definition blobs_reduce (p : BlobsProcessor) (cursor : ProcessorCursor) (delta : EncodedDelta) : Reduction :=
  _ ← pure (validate_delta_cursor (blobs_descriptor p) cursor delta);
  decoded ← pure (map_err (DeltaPayload ∘ to_string) (from_bytes (PE:=PE) (delta_payload delta)));
  if negb (block_number (delta_block_entity decoded) =? ref_number (delta_block delta))
     || negb (bool_decide (block_hash (delta_block_entity decoded) = ref_hash (delta_block delta)))
  then pure (Err DeltaContract)
  else
    let block_key := be_bytes 8 (block_number (delta_block_entity decoded)) in
    bundle_payload ← pure (map_err (StateError ∘ to_string) (to_allocvec (PE:=PE) decoded));
    block_payload ← pure (map_err (StateError ∘ to_string) (to_allocvec (PE:=PE) (delta_block_entity decoded)));
    _ ← do_put BLOCK_COLLECTION block_key block_payload;
    let changes := [MkChange "blobs.block" block_key Upsert bundle_payload] in
    _ ← reduce_each (put_transaction block_key) () (delta_transactions decoded);
    _ ← reduce_each (λ _ change, do_emit change) () changes;
    mret changes.

End blobs.

(** ** The accounts of a block *)

(** The wei a quantity stands for. *)
Definition wei (q : Quantity) : Z := be_val (bytes_of q).

(** The widths of the header and receipt fields the accounts multiply. *)
Definition gas_sized (frame : BlockFrame) : Prop :=
  ∀ header, Material.as_present (frame_header frame) = Some header →
  (∀ gas, header_gas_used header = Some gas → is_u64 gas) ∧
  (∀ gas, header_blob_gas_used header = Some gas → is_u64 gas).

(** The identity the cursor and the delta share. *)
Definition cursor_matches (d : ProcessorDescriptor) (cursor : ProcessorCursor) (delta : EncodedDelta) : Prop :=
  cursor_processor_id cursor = processor_id (descriptor_id d)
  ∧ cursor_processor_version cursor = descriptor_version d
  ∧ cursor_chain_id cursor = delta_chain_id delta
  ∧ cursor_block_number cursor = ref_number (delta_block delta)
  ∧ cursor_block_hash cursor = ref_hash (delta_block delta).

Section accounts.
Context `{AlloyLaws, !EqDecision alloy, !Hex HE, !Blake3}.
Context {PE : Type} `{!Display PE, !Postcard PE BlobsDelta, !Postcard PE BlobsBlockEntity,
  !Postcard PE BlobTransactionEntity, !Postcard PE BlobSchedule}.

Lemma wei_quantity a : wei (quantity_of a) = alloy_val a.
Proof. apply to_be_bytes_val. Qed.

Lemma wei_u256 q : alloy_val (quantity_to_u256 q) = wei q.
Proof. apply from_be_bytes_val. Qed.

Lemma checked_mul_Ok a b c : checked_mul a b = Ok c ↔ alloy_val c = alloy_val a * alloy_val b.
Proof. unfold checked_mul. rewrite <-alloy_mul_Some. destruct (alloy_mul a b); cbn; naive_solver. Qed.

Lemma ok_or_Ok {E A} (o : option A) (e : E) a : ok_or o e = Ok a ↔ o = Some a.
Proof. destruct o; cbn; naive_solver. Qed.

Lemma u32_try_from_Some z n : u32_try_from z = Some n ↔ n = z ∧ z ≤ u32_max.
Proof. unfold u32_try_from. destruct (Z.leb_spec z u32_max); naive_solver lia. Qed.

Lemma accepted_material_Ok {A} (m : Material A) label a :
  accepted_material m label = Ok a → Material.as_present m = Some a.
Proof. destruct m as [|? ? []|]; cbn; naive_solver. Qed.

(** What one transaction's entity says. *)
Record transaction_accounts (fee : alloy) (t : BlobTransactionEntity) : Prop := {
  counts_hashes : transaction_blob_count t = Z.of_nat (length (versioned_hashes t));
  counts_some : 0 < transaction_blob_count t ≤ u32_max;
  pays_blobs : wei (transaction_blob_burn t) = alloy_val fee * (transaction_blob_count t * BLOB_GAS_PER_BLOB);
  pays_total : wei (total_burn t) = wei (transaction_execution_burn t) + wei (transaction_blob_burn t);
}.

Lemma map_transaction_accounts frame transaction receipt fee base network t :
  map_transaction frame transaction receipt fee base network = Ok t →
  transaction_accounts fee t ∧ transaction_hash t = tx_hash transaction.
Proof.
  unfold map_transaction. intros [_ Hok]%if_Err_Ok.
  apply result_bind_Ok in Hok as (from & _ & Hok). apply result_bind_Ok in Hok as (to & _ & Hok).
  apply result_bind_Ok in Hok as (count & [-> Hcount]%ok_or_Ok%u32_try_from_Some & Hok).
  apply if_Err_Ok in Hok as [Hzero%Z.eqb_neq Hok]. apply if_Err_Ok in Hok as [_ Hok].
  apply result_bind_Ok in Hok as (used & _ & Hok).
  apply result_bind_Ok in Hok as (execution & _ & Hok).
  apply result_bind_Ok in Hok as (blobs & Hblobs%checked_mul_Ok & Hok).
  apply result_bind_Ok in Hok as (total & Htotal%ok_or_Ok%alloy_add_Some & [= <-]).
  split; [|done]. set (n := Z.of_nat _) in *.
  assert (0 ≤ n) by (subst n; lia).
  assert (sat_mul n BLOB_GAS_PER_BLOB = n * BLOB_GAS_PER_BLOB ∧ is_u64 (n * BLOB_GAS_PER_BLOB)) as [Hsat Hu]
    by (unfold BLOB_GAS_PER_BLOB; uints).
  rewrite Hsat, alloy_u64_val in Hblobs by done.
  split; cbn; rewrite ?wei_quantity; [done|lia|exact Hblobs|exact Htotal].
Qed.

(** The running count of the transaction loop. *)
Definition counted (fee : alloy) (state : Z * list BlobTransactionEntity) : Prop :=
  state.1 = Z_sum (transaction_blob_count <$> state.2) ∧ Forall (transaction_accounts fee) state.2.

Lemma derive_transaction_counted frame receipts fee base network state transaction state' :
  counted fee state →
  derive_transaction frame receipts fee base network state transaction = Ok state' →
  counted fee state'.
Proof.
  destruct state as [n l]. intros [Hn Hl]. unfold derive_transaction.
  intros (receipt & _ & Hok)%result_bind_Ok. apply result_bind_Ok in Hok as (t & Ht & Hok).
  apply result_bind_Ok in Hok as (m & [-> _]%ok_or_Ok%u32_try_from_Some & [= <-]).
  apply map_transaction_accounts in Ht as [Ht _]. split; cbn [fst snd] in *.
  - rewrite fmap_app, Z_sum_app, Hn. cbn. lia.
  - apply Forall_app. by split; [|apply Forall_singleton].
Qed.

Lemma Z_sum_cons x l : Z_sum (x :: l) = x + Z_sum l.
Proof. reflexivity. Qed.

Lemma blob_burns_sum fee l : Forall (transaction_accounts fee) l →
  Z_sum (wei ∘ transaction_blob_burn <$> l) =
  alloy_val fee * (Z_sum (transaction_blob_count <$> l) * BLOB_GAS_PER_BLOB).
Proof.
  induction 1 as [|t l Ht Hl IH]; [cbn; lia|]. rewrite !fmap_cons, !Z_sum_cons, IH. unfold compose at 1.
  rewrite (pays_blobs _ _ Ht). lia.
Qed.

(** The parts of a derived delta the accounts speak of. *)
Lemma derive_Ok p frame delta : derive p frame = Ok delta →
  ∃ header parameters base used fee n entities,
    block_number (delta_block_entity delta) = ref_number (frame_block frame)
    ∧ block_hash (delta_block_entity delta) = ref_hash (frame_block frame)
    ∧ Material.as_present (frame_header frame) = Some header
    ∧ base_fee_per_gas header = Some base ∧ header_gas_used header = Some used
    ∧ header_blob_gas_used header = Some (blob_gas_used (delta_block_entity delta))
    ∧ blob_gas_used (delta_block_entity delta) mod BLOB_GAS_PER_BLOB = 0
    ∧ blob_count (delta_block_entity delta) = blob_gas_used (delta_block_entity delta) / BLOB_GAS_PER_BLOB
    ∧ BlobSchedule.parameters_at_timestamp (blobs_schedule p) (ref_timestamp (frame_block frame)) = Some parameters
    ∧ blob_count (delta_block_entity delta) ≤ parameters_max parameters
    ∧ block_max_blobs (delta_block_entity delta) = parameters_max parameters
    ∧ get_blob_base_fee (block_excess_blob_gas (delta_block_entity delta)) (parameters_update_fraction parameters)
      = Some (Ok fee)
    ∧ blob_base_fee (delta_block_entity delta) = quantity_of fee
    ∧ checked_mul (quantity_to_u256 base) (alloy_from_u64 used)
      = Ok (quantity_to_u256 (execution_burn (delta_block_entity delta)))
    ∧ execution_base_fee (delta_block_entity delta) = quantity_of (quantity_to_u256 base)
    ∧ block_gas_used (delta_block_entity delta) = used
    ∧ then_transpose (0 <? blob_gas_used (delta_block_entity delta))
        (checked_mul fee (alloy_from_u64 (blob_gas_used (delta_block_entity delta))))
      = Ok (quantity_to_u256 <$> blob_burn (delta_block_entity delta))
    ∧ counted fee (n, entities) ∧ n = blob_count (delta_block_entity delta)
    ∧ delta_transactions delta =
      sort_by (λ a b, cmp_leb bytes_cmp (bytes_of (transaction_hash a)) (bytes_of (transaction_hash b))) entities.
Proof.
  unfold derive. intros Hok.
  apply result_bind_Ok in Hok as (requirement & _ & Hok). apply result_bind_Ok in Hok as ([] & _ & Hok).
  apply if_Err_Ok in Hok as [_ Hok].
  apply result_bind_Ok in Hok as (parameters & Hparameters%ok_or_Ok & Hok).
  apply result_bind_Ok in Hok as (header & Hheader%accepted_material_Ok & Hok).
  apply result_bind_Ok in Hok as (transactions & _ & Hok). apply result_bind_Ok in Hok as (receipts & _ & Hok).
  apply result_bind_Ok in Hok as ([] & _ & Hok). apply result_bind_Ok in Hok as (limit & _ & Hok).
  apply result_bind_Ok in Hok as (used & Hused%ok_or_Ok & Hok).
  apply result_bind_Ok in Hok as (base & Hbase%ok_or_Ok & Hok).
  apply result_bind_Ok in Hok as (blob_gas & Hgas%ok_or_Ok & Hok).
  apply result_bind_Ok in Hok as (excess & _ & Hok). apply result_bind_Ok in Hok as (size & _ & Hok).
  apply result_bind_Ok in Hok as (txs & _ & Hok).
  apply if_Err_Ok in Hok as [Hmod%negb_false_iff%Z.eqb_eq Hok].
  apply result_bind_Ok in Hok as (count & [-> _]%ok_or_Ok%u32_try_from_Some & Hok).
  apply if_Err_Ok in Hok as [Hmax%Z.ltb_ge Hok].
  apply result_bind_Ok in Hok as (fee & Hfee & Hok). apply result_bind_Ok in Hok as (reserve & _ & Hok).
  apply result_bind_Ok in Hok as (burn & Hburn & Hok).
  apply result_bind_Ok in Hok as (blobs & Hblobs & Hok).
  apply result_bind_Ok in Hok as (map & _ & Hok).
  apply result_bind_Ok in Hok as ([n entities] & Hloop & Hok).
  apply if_Err_Ok in Hok as [Hn%negb_false_iff%Z.eqb_eq [= <-]]. cbn.
  assert (get_blob_base_fee excess (parameters_update_fraction parameters) = Some (Ok fee)) as Hfee'.
  { revert Hfee. unfold blob_fee. destruct (get_blob_base_fee _ _) as [[]|]; cbn; congruence. }
  exists header, parameters, base, used, fee, n, entities.
  rewrite !quantity_round_trip. split_and!; try done.
  - rewrite Hblobs. f_equal. destruct blobs; cbn; [by rewrite quantity_round_trip|done].
  - refine (fold_result_invariant (counted fee) _ (0, []) _ (n, entities) _ _ Hloop); [|by split].
    intros state transaction state'. apply derive_transaction_counted.
Qed.

(** C29: The accounts of a derived block balance. The blobs of its
    transactions are the blobs of its header, at most the fork's maximum; its
    transactions' blob burns sum to the block's blob burn, which is the
    protocol fee times its blob gas and absent for a block without blobs; the
    execution burn is the base fee times the gas; every transaction counts its
    hashes, has at least one, and its total is its two burns. *)
Theorem derive_accounts p frame delta (Hsized : gas_sized frame) (Hok : derive p frame = Ok delta) :
  let b := delta_block_entity delta in
  let txs := delta_transactions delta in
  Z_sum (transaction_blob_count <$> txs) = blob_count b
  ∧ blob_gas_used b = blob_count b * BLOB_GAS_PER_BLOB
  ∧ blob_count b ≤ block_max_blobs b
  ∧ Z_sum (wei ∘ transaction_blob_burn <$> txs) = wei (blob_base_fee b) * blob_gas_used b
  ∧ wei <$> blob_burn b = (if 0 <? blob_gas_used b then Some (wei (blob_base_fee b) * blob_gas_used b) else None)
  ∧ wei (execution_burn b) = wei (execution_base_fee b) * block_gas_used b
  ∧ Forall (λ t, transaction_blob_count t = Z.of_nat (length (versioned_hashes t)) ∧ 0 < transaction_blob_count t
                 ∧ wei (total_burn t) = wei (transaction_execution_burn t) + wei (transaction_blob_burn t)) txs.
Proof.
  apply derive_Ok in Hok as (header & parameters & base & used & fee & n & entities & _ & _ & Hheader & _ & Hused & Hgas
    & Hmod & Hcount & _ & Hle & Hmax & _ & Hfee & Hexec & Hbase & Hgasused & Hburn & [Hn Hall] & Hncount & Hsort).
  cbn zeta. destruct (Hsized _ Hheader) as [Hsu Hsg]. specialize (Hsu _ Hused). specialize (Hsg _ Hgas).
  cbn [fst snd] in *. rewrite Hsort, Hmax, Hfee, Hbase, Hgasused, !wei_quantity.
  assert (∀ leb (f : BlobTransactionEntity → Z), Z_sum (f <$> sort_by leb entities) = Z_sum (f <$> entities)) as Hperm
    by (intros leb f; apply Z_sum_perm; by rewrite sort_by_perm).
  rewrite !Hperm, (blob_burns_sum fee), <-Hn, Hncount by done.
  assert (blob_gas_used (delta_block_entity delta)
          = blob_count (delta_block_entity delta) * BLOB_GAS_PER_BLOB) as Hwhole.
  { rewrite Hcount. pose proof (Z.div_mod (blob_gas_used (delta_block_entity delta)) BLOB_GAS_PER_BLOB ltac:(done)). lia. }
  split_and!; [done|done|lia|by rewrite <-Hwhole| | |].
  - revert Hburn. unfold then_transpose. destruct (0 <? blob_gas_used (delta_block_entity delta)).
    + destruct (checked_mul fee (alloy_from_u64 (blob_gas_used (delta_block_entity delta)))) as [c|] eqn:Hc; [|done].
      apply checked_mul_Ok in Hc.
      rewrite alloy_u64_val in Hc by done. destruct (blob_burn (delta_block_entity delta)) as [q|]; cbn;
        intros Hq; [|discriminate]. injection Hq as ->. by rewrite <-wei_u256, Hc.
    + by destruct (blob_burn (delta_block_entity delta)).
  - apply checked_mul_Ok in Hexec. rewrite alloy_u64_val, !wei_u256 in Hexec by done. by rewrite wei_u256.
  - apply Forall_forall. intros t Ht%elem_of_sort_by. rewrite Forall_forall in Hall.
    destruct (Hall t Ht) as [? [? _] _ ?]. done.
Qed.

(** ** Finality variants *)

(** A frame at another finality level. *)
Definition at_finality (frame : BlockFrame) (finality : Finality) : BlockFrame :=
  MkFrame (frame_chain_id frame) (frame_block frame) finality (frame_header frame) (frame_transactions frame)
    (frame_receipts frame) (frame_logs frame) (frame_withdrawals frame) (frame_blob_sidecars frame)
    (frame_traces frame) (frame_state_diffs frame) (frame_provenance frame) (frame_verification frame).

Lemma derive_at_finality p frame finality delta delta' :
  derive p frame = Ok delta → derive p (at_finality frame finality) = Ok delta' →
  delta' = with_finality delta finality.
Proof.
  unfold derive. cbn [at_finality frame_chain_id frame_block frame_finality frame_header frame_transactions
    frame_receipts]. intros Hok Hok'.
  change (derive_transaction (at_finality frame finality)) with (derive_transaction frame) in Hok'.
  repeat match goal with
  | H : (if ?b then Err _ else _) = Ok _, H' : (if ?b then Err _ else _) = Ok _ |- _ =>
      apply if_Err_Ok in H as [_ H], H' as [_ H']
  | H : (_ ≫= _) = Ok delta, H' : (_ ≫= _) = Ok delta' |- _ =>
      let x := fresh "x" in let y := fresh "y" in
      apply result_bind_Ok in H as (x & Hx & H), H' as (y & Hy & H');
      first [assert (x = y) as <- by congruence | destruct x as [], y as []]; clear Hx Hy
  end.
  match goal with x : (Z * list BlobTransactionEntity)%type |- _ => destruct x end.
  apply if_Err_Ok in Hok as [_ [= <-]], Hok' as [_ [= <-]]. done.
Qed.


Lemma with_finality_twice d f g : with_finality (with_finality d f) g = with_finality d g.
Proof. reflexivity. Qed.

Lemma map_err_Ok' {E F A} (f : E → F) (c : result E A) a : map_err f c = Ok a ↔ c = Ok a.
Proof. destruct c; cbn; naive_solver. Qed.

Lemma blobs_map_Ok p frame delta : blobs_map p frame = Ok delta ↔
  ∃ d payload, derive p frame = Ok d ∧ to_allocvec (PE:=PE) d = Ok payload
    ∧ delta = EncodedDelta.new (blobs_descriptor p) (frame_chain_id frame) (frame_block frame) payload.
Proof.
  unfold blobs_map. split.
  - intros (d & Hd & Hok)%result_bind_Ok. apply result_bind_Ok in Hok as (payload & Hp%map_err_Ok' & [= <-]). eauto.
  - intros (d & payload & -> & Hp & ->). cbn [mbind result_bind]. by rewrite Hp.
Qed.

Context `{!PostcardLaws PE BlobsDelta}.

(** The checksums depend on the block and the derived delta only. *)
Lemma variant_checksums_decoded p frame delta d payload :
  to_allocvec (PE:=PE) d = Ok payload →
  delta = EncodedDelta.new (blobs_descriptor p) (frame_chain_id frame) (frame_block frame) payload →
  finality_variant_checksums p delta =
    (checksums ← fold_result (λ checksums finality,
        checksum ← variant_checksum p delta d finality; Ok (checksums ++ [checksum]))
      [] [Unattested; Attested; Finalized];
    Ok (dedup (sort_by (λ a b, cmp_leb bytes_cmp (bytes_of a) (bytes_of b)) checksums))).
Proof.
  intros Hp ->. unfold finality_variant_checksums. rewrite EncodedDelta.validate_new. cbn [mbind result_bind].
  change (delta_payload _) with payload. by rewrite (from_to _ _ Hp).
Qed.

Lemma variant_listed p delta d finality checksum checksums :
  variant_checksum p delta d finality = Ok checksum →
  fold_result (λ checksums finality,
      checksum ← variant_checksum p delta d finality; Ok (checksums ++ [checksum]))
    [] [Unattested; Attested; Finalized] = Ok checksums → checksum ∈ checksums.
Proof.
  intros Hc. cbn. intros (c1 & (k1 & Hk1 & [= <-])%result_bind_Ok & Hok)%result_bind_Ok.
  apply result_bind_Ok in Hok as (c2 & (k2 & Hk2 & [= <-])%result_bind_Ok & Hok).
  apply result_bind_Ok in Hok as (c3 & (k3 & Hk3 & [= <-])%result_bind_Ok & [= <-]).
  assert (checksum = k1 ∨ checksum = k2 ∨ checksum = k3)
    by (destruct finality; [left|right; left|right; right]; congruence). set_solver.
Qed.

(** The same block, seen at another finality, has a delta that differs in
    the finality alone, and its checksum is among the variant checksums of the
    delta, which are the same for both: so a stored delta is recognized
    whatever the finality it is derived at again. *)
Theorem finality_variants p frame finality delta delta'
    (Hdelta : blobs_map p frame = Ok delta) (Hdelta' : blobs_map p (at_finality frame finality) = Ok delta') :
  finality_variant_checksums p delta' = finality_variant_checksums p delta
  ∧ ∀ checksums, finality_variant_checksums p delta = Ok checksums → delta_checksum delta' ∈ checksums.
Proof.
  apply blobs_map_Ok in Hdelta as (d & payload & Hd & Hp & Heq), Hdelta' as (d' & payload' & Hd' & Hp' & Heq').
  pose proof (derive_at_finality _ _ _ _ _ Hd Hd') as ->.
  rewrite (variant_checksums_decoded _ _ _ _ _ Hp Heq).
  rewrite (variant_checksums_decoded p (at_finality frame finality) _ _ _ Hp' Heq').
  rewrite Heq, Heq'. split; [done|].
  intros checksums (l & Hl & [= <-])%result_bind_Ok. rewrite elem_of_dedup, elem_of_sort_by.
  eapply variant_listed, Hl. unfold variant_checksum. rewrite Hp'. done.
Qed.

(** ** The stored rows *)

Definition block_row (d : BlobsDelta) : EntityKey :=
  MkEntityKey BLOCK_COLLECTION (be_bytes 8 (block_number (delta_block_entity d))).
Definition transaction_row (t : BlobTransactionEntity) : EntityKey :=
  MkEntityKey TRANSACTION_COLLECTION (bytes_of (transaction_hash t)).
Definition transaction_entry (block_key : list byte) (t : BlobTransactionEntity) : IndexKey :=
  MkIndexKey TRANSACTION_BLOCK_INDEX block_key (bytes_of (transaction_hash t)).

(** The rows after some transactions were put. *)
Record transactions_stored (block_key : list byte) (l : list BlobTransactionEntity) (v v' : View) : Prop := {
  stored_state : view_state v' = view_state v;
  stored_changes : view_changes v' = view_changes v;
  stored_rows t : t ∈ l → ∃ t' payload, t' ∈ l ∧ transaction_hash t' = transaction_hash t
    ∧ to_allocvec (PE:=PE) t' = Ok payload ∧ view_entities v' !! transaction_row t = Some payload;
  stored_entries t : t ∈ l → transaction_entry block_key t ∈ view_indexes v';
  other_rows k : (∀ t, t ∈ l → k ≠ transaction_row t) → view_entities v' !! k = view_entities v !! k;
  other_entries i : (∀ t, t ∈ l → i ≠ transaction_entry block_key t) →
    (i ∈ view_indexes v' ↔ i ∈ view_indexes v);
}.

Lemma put_transactions_run block_key l v r v' :
  run (reduce_each (put_transaction block_key) () l) v = (Ok r, v') → transactions_stored block_key l v v'.
Proof.
  revert v. induction l as [|t l IH]; intros v.
  { cbn. intros [= _ <-]. split; [done|done|set_solver|set_solver|done|done]. }
  rewrite run_each. unfold put_transaction at 1. rewrite run_bind, run_pure.
  destruct (map_err _ (to_allocvec t)) as [payload|] eqn:Hpayload; [|done]. apply map_err_Ok' in Hpayload.
  intros Hrest%IH. destruct Hrest as [Hs Hc Hr He Hor Hoe].
  cbn [view_state view_changes view_entities view_indexes] in *. split; [done|done| | | |].
  - intros t' [->|Ht']%elem_of_cons; [|destruct (Hr t' Ht') as (t'' & pl & ? & ? & ? & ?); exists t'', pl; set_solver].
    destruct (decide (Exists (λ t', transaction_hash t' = transaction_hash t) l)) as [Hdup|Hnew].
    + apply Exists_exists in Hdup as (t' & Ht' & Hh). destruct (Hr t' Ht') as (t'' & pl & ? & Hh' & ? & Hl).
      exists t'', pl. unfold transaction_row in *. rewrite Hh in Hl, Hh'. set_solver.
    + exists t, payload. split; [left|]. split; [done|]. split; [done|]. rewrite Hor.
      * apply lookup_insert_eq.
      * intros t' Ht' [= Hh%bytes_of_inj]. apply Hnew, Exists_exists. eauto.
  - intros t' [->|Ht']%elem_of_cons; [|by apply He].
    destruct (decide (Exists (λ t', transaction_hash t' = transaction_hash t) l)) as [Hdup|Hnew].
    + apply Exists_exists in Hdup as (t' & Ht' & Hh). specialize (He t' Ht'). unfold transaction_entry in *.
      by rewrite Hh in He.
    + apply Hoe; [|unfold transaction_entry; set_solver].
      intros t' Ht' [= Hh%bytes_of_inj]. apply Hnew, Exists_exists. eauto.
  - intros k Hk. rewrite Hor by (intros; apply Hk; set_solver).
    apply lookup_insert_ne. intros <-. by apply (Hk t); [left|].
  - intros i Hi. rewrite Hoe by (intros; apply Hi; set_solver).
    assert (i ≠ transaction_entry block_key t) by (apply Hi; left). unfold transaction_entry in *. set_solver.
Qed.

Context `{!PostcardLaws PE BlobsBlockEntity, !PostcardLaws PE BlobTransactionEntity}.
Context `{!PostcardTotal PE BlobsBlockEntity, !PostcardTotal PE BlobTransactionEntity}.

Lemma put_transactions_total block_key l v : ∃ v', run (reduce_each (put_transaction block_key) () l) v = (Ok (), v').
Proof.
  revert v. induction l as [|t l IH]; intros v; [by eexists|]. rewrite run_each. unfold put_transaction at 1.
  rewrite run_bind, run_pure. destruct (encodes (PE:=PE) t) as [payload ->]. apply IH.
Qed.

(** The cursor a delta is reduced under. *)
Lemma validate_delta_cursor_Ok d cursor frame payload :
  cursor_matches d cursor (EncodedDelta.new d (frame_chain_id frame) (frame_block frame) payload) →
  validate_delta_cursor d cursor (EncodedDelta.new d (frame_chain_id frame) (frame_block frame) payload) = Ok ().
Proof.
  intros (Hid & Hversion & Hchain & Hnumber & Hhash). unfold validate_delta_cursor.
  rewrite EncodedDelta.validate_new. cbn [mbind result_bind].
  rewrite !bool_decide_true, !(proj2 (Z.eqb_eq _ _)) by done. done.
Qed.

(** Mapping a frame and reducing the delta, on any rows, stores exactly
    what was derived: the block's row decodes to the derived block, every
    transaction's row to a derived transaction with that hash and it is
    indexed under the block, one change carries the whole delta, and no other
    row, index entry or state changes. *)
Theorem blobs_reduce_exact p frame delta cursor v
    (Hdelta : blobs_map p frame = Ok delta) (Hcursor : cursor_matches (blobs_descriptor p) cursor delta) :
  ∃ changes v' d payload row, run (blobs_reduce p cursor delta) v = (Ok changes, v')
  ∧ derive p frame = Ok d ∧ from_bytes (PE:=PE) payload = Ok d
  ∧ changes = [MkChange "blobs.block" (key_bytes (block_row d)) Upsert payload]
  ∧ view_changes v' = view_changes v ++ changes ∧ view_state v' = view_state v
  ∧ view_entities v' !! block_row d = Some row ∧ from_bytes (PE:=PE) row = Ok (delta_block_entity d)
  ∧ (∀ t, t ∈ delta_transactions d → ∃ t' row, t' ∈ delta_transactions d
       ∧ transaction_hash t' = transaction_hash t ∧ view_entities v' !! transaction_row t = Some row
       ∧ from_bytes (PE:=PE) row = Ok t' ∧ transaction_entry (key_bytes (block_row d)) t ∈ view_indexes v')
  ∧ (∀ k, k ≠ block_row d → (∀ t, t ∈ delta_transactions d → k ≠ transaction_row t) →
       view_entities v' !! k = view_entities v !! k)
  ∧ (∀ i, (∀ t, t ∈ delta_transactions d → i ≠ transaction_entry (key_bytes (block_row d)) t) →
       (i ∈ view_indexes v' ↔ i ∈ view_indexes v)).
Proof.
  apply blobs_map_Ok in Hdelta as (d & payload & Hd & Hp & ->).
  assert (block_number (delta_block_entity d) = ref_number (frame_block frame)
    ∧ block_hash (delta_block_entity d) = ref_hash (frame_block frame)) as [Hnumber Hhash].
  { destruct (derive_Ok _ _ _ Hd) as (? & ? & ? & ? & ? & ? & ? & ? & ? & _). done. }
  destruct (encodes (PE:=PE) (delta_block_entity d)) as [row Hrow]. set (block_key := key_bytes (block_row d)).
  set (v1 := put BLOCK_COLLECTION block_key row v : View).
  destruct (put_transactions_total block_key (delta_transactions d) v1) as [v2 Hloop].
  pose proof (put_transactions_run _ _ _ _ _ Hloop) as [Hs Hc Hr He Hor Hoe].
  eexists _, _, d, payload, row. split.
  { unfold blobs_reduce. rewrite run_bind, run_pure, validate_delta_cursor_Ok by done.
    rewrite run_bind, run_pure. change (delta_payload _) with payload. rewrite (from_to _ _ Hp). cbn [map_err].
    change (delta_block (EncodedDelta.new _ _ _ _)) with (frame_block frame).
    rewrite Hnumber, Hhash, Z.eqb_refl, bool_decide_true by done. cbn [negb orb].
    rewrite run_bind, run_pure, Hp. cbn [map_err]. rewrite run_bind, run_pure, Hrow. cbn [map_err].
    rewrite run_bind. cbn [do_put run]. rewrite run_bind. rewrite <-Hnumber.
    change (be_bytes 8 (block_number (delta_block_entity d))) with block_key. fold v1. rewrite Hloop. reflexivity. }
  cbn. split; [done|]. split; [by apply from_to|]. split; [done|].
  split; [by rewrite Hc|]. split; [by rewrite Hs|].
  split; [rewrite Hor by done; apply lookup_insert_eq|]. split; [by apply from_to|]. split_and!.
  - intros t Ht. destruct (Hr t Ht) as (t' & pl & ? & ? & ? & ?). exists t', pl.
    split_and!; [done|done|done|by apply from_to|by apply He].
  - intros k Hk Hkt. rewrite Hor by done. by apply lookup_insert_ne.
  - intros i Hi. by rewrite Hoe.
Qed.

End accounts.
