(* ===== verification/Erc20.v ===== *)
(** * The ERC-20 balance processor

    Models [crates/processor-erc20/src/lib.rs]: the watchlist processor, the
    mapping of a frame's logs to transfer events, and the reducer that keeps
    one ledger per watched pair of token and address, marks a pair incomplete
    where a transfer cannot be applied, and never writes it again. *)
From Stdlib Require Import ZArith Lia Strings.Byte.
From stdpp Require Import gmap strings list list_numbers fin_maps sorting pretty.
From S2P Require Import Prelude Bytes Chain Capability Material Provenance Frame Durable Descriptor Delta Rows Scan Overlay Uint256 Processing.

Definition BALANCE_COLLECTION : string := "erc20.balances".
Definition BALANCE_CHANGE_KIND : string := "erc20.balance".
Definition ZERO_ADDRESS : Address := array_fill 20 x00.
Definition ETH_TRANSFER_EMITTER : Address :=
  (replicate 19 xff ++ [xfe]) ↾ eq_refl.

Record Erc20BalanceConfig := MkErc20Config {
  config_start_block : BlockNumber;
  config_addresses : list Address;
  config_tokens : list Address;
  complete_from_start : bool;
}.

Record TokenBalanceEntity := MkTokenBalance {
  balance_token : Address;
  balance_address : Address;
  balance : Quantity;
  as_of_block : BlockNumber;
  balance_block_hash : BlockHash;
  balance_finality : Finality;
  coverage_from : BlockNumber;
  complete : bool;
  incomplete_from : option BlockNumber;
  method : string;
}.

Record TransferEvent := MkTransfer {
  event_token : Address;
  event_from : Address;
  event_to : Address;
  event_value : Quantity;
  event_log_index : Z;
}.

Record TransferDelta := MkTransferDelta {
  events : list TransferEvent;
  skipped_logs : Z;
}.

Record Erc20BalanceProcessor := MkErc20Processor {
  erc20_config : Erc20BalanceConfig;
  watched : gset Address;
  tokens : gset Address;
  erc20_descriptor : ProcessorDescriptor;
}.

(** The order of [(Address, Address)] in a [BTreeMap]. *)
Definition pair_cmp (x y : Address * Address) : comparison :=
  then_with (bytes_cmp (bytes_of x.1) (bytes_of y.1)) (bytes_cmp (bytes_of x.2) (bytes_of y.2)).

#[export] Instance pair_eq_comparator : EqComparator pair_cmp.
Proof.
  apply (then_eq_comparator (λ x y, bytes_cmp (bytes_of x.1) (bytes_of y.1))).
  intros [] [] H1%(cmp_eq (cmp:=bytes_cmp))%bytes_of_inj H2%(cmp_eq (cmp:=bytes_cmp))%bytes_of_inj.
  cbn in *. congruence.
Qed.
#[export] Instance pair_comparator : Comparator pair_cmp.
Proof. apply (then_comparator (λ x y, bytes_cmp (bytes_of x.1) (bytes_of y.1))); apply (on_comparator _ bytes_cmp _). Qed.

Section erc20.
Context `{!Alloy, !Hex HE, !Blake3, !Keccak256}.
Context {PE : Type} `{!Display PE, !Postcard PE TransferDelta, !Postcard PE TokenBalanceEntity,
  !Postcard PE Erc20BalanceConfig}.

Record PairLedger := MkLedger {
  ledger_balance : alloy;
  ledger_incomplete_from : option BlockNumber;
  frozen : bool;
}.

Definition ledger_new (stored : option TokenBalanceEntity) : PairLedger :=
  let incomplete_from := stored ≫= incomplete_from in
  MkLedger (match stored with Some entity => from_be_bytes (balance entity) | None => alloy_zero end)
    incomplete_from (match incomplete_from with Some _ => true | None => false end).

(** ** Construction *)

Definition transfer_topic : array 32 := keccak256 (string_bytes "Transfer(address,address,uint256)").

(** [sort] and [dedup] of a list of addresses. *)
Definition sorted_addresses (l : list Address) : list Address :=
  dedup (sort_by (λ a b, cmp_leb bytes_cmp (bytes_of a) (bytes_of b)) l).

Definition erc20_requirement (config : Erc20BalanceConfig) : DataRequirement :=
  MkRequirement (CapabilitySet.of_cap Logs) LogFieldSet.NONE true
    (MkFilterScope None (config_tokens config) [MkTopicFilter 0 [transfer_topic]] [] [] [] []) Unattested.

Definition erc20_new (config : Erc20BalanceConfig) : result ProcessorError Erc20BalanceProcessor :=
  let config := MkErc20Config (config_start_block config) (sorted_addresses (config_addresses config))
    (sorted_addresses (config_tokens config)) (complete_from_start config) in
  if bool_decide (length (config_addresses config) = 0%nat)
  then Err (InputError "ERC-20 watchlist must contain at least one address")
  else
    encoded ← map_err (InputError ∘ to_string) (to_allocvec (PE:=PE) config);
    id ← map_err InputError (ProcessorId.new "erc20-balances");
    let version := "1.1.0" in
    let config_hash := blake3_hash encoded in
    instance ← map_err InputError (ProcessorInstanceId.legacy id version config_hash);
    let descriptor := MkDescriptor id instance version
      (blake3_hash (string_bytes "leani/erc20-balances/1.1.0")) config_hash
      (StartBlock (config_start_block config)) [erc20_requirement config] OrderedState Canonical PublishAttested
      (LifecyclePolicies.from_legacy LatestState)
      (MkSchemas 2 "erc20.balance.entity.v2" "erc20.balance.change.v2") in
    _ ← map_err InputError (ProcessorDescriptor.validate descriptor);
    Ok (MkErc20Processor config (list_to_set (config_addresses config)) (list_to_set (config_tokens config))
      descriptor).

Definition with_contract (p : Erc20BalanceProcessor) (instance : ProcessorInstanceId)
    (publication : PublicationPolicy) (lifecycle : LifecyclePolicies) : Erc20BalanceProcessor :=
  let d := erc20_descriptor p in
  MkErc20Processor (erc20_config p) (watched p) (tokens p)
    (MkDescriptor (descriptor_id d) instance (descriptor_version d) (code_hash d) (config_hash d)
      (descriptor_start d) (requirements d) (descriptor_mode d) (delivery_ordering d) publication lifecycle
      (schemas d)).

(** ** Mapping a frame *)

Definition accepted_logs (logs : Material (list Log)) : result ProcessorError (list Log) :=
  match logs with
  | Complete logs | Filtered logs _ (VerifiedPredicate | DatasetDeclared) => Ok logs
  | Filtered _ _ Partial => Err (InputError "ERC-20 logs are only partially filtered")
  | Missing reason => Err (InputError ("ERC-20 logs are missing: " +:+ missing_debug reason))
  end.

Definition topic_address (topic : array 32) : option Address :=
  if existsb (λ byte, negb (bool_decide (byte = x00))) (take 12 (bytes_of topic)) then None
  else array_of 20 (drop 12 (bytes_of topic)).

Definition transfer_fields (log : Log) : option (Address * Address * Quantity) :=
  match log_topics log with
  | [_; from; to] =>
      from ← topic_address from;
      to ← topic_address to;
      value ← array_of 32 (log_data log);
      Some (from, to, value)
  | _ => None
  end.

(** A log the loop passes over without counting it. *)
Definition passes_over (p : Erc20BalanceProcessor) (log : Log) : bool :=
  let allowlisted := bool_decide (log_address log ∈ tokens p) in
  negb (bool_decide (head (log_topics log) = Some transfer_topic))
  || (negb (bool_decide (tokens p = ∅)) && negb allowlisted)
  || (bool_decide (log_address log = ETH_TRANSFER_EMITTER) && negb allowlisted).

(** One iteration over the logs; the state is [events] and [skipped_logs]. *)
Definition map_log (p : Erc20BalanceProcessor) (state : list TransferEvent * Z) (log : Log)
    : list TransferEvent * Z :=
  let '(events, skipped_logs) := state in
  if passes_over p log then state
  else match transfer_fields log with
  | None => (events, Z.min u32_max (skipped_logs + 1))
  | Some (from, to, value) =>
      if negb (bool_decide (from ∈ watched p)) && negb (bool_decide (to ∈ watched p)) then state
      else (events ++ [MkTransfer (log_address log) from to value (log_index log)], skipped_logs)
  end.

Definition transfers (p : Erc20BalanceProcessor) (logs : list Log) : TransferDelta :=
  let '(events, skipped_logs) := foldl (map_log p) ([], 0) logs in
  MkTransferDelta (sort_by (λ a b, event_log_index a <=? event_log_index b) events) skipped_logs.

(** [requirements[0]] panics on an empty list, which [erc20_new] never builds. *)
Definition erc20_map (p : Erc20BalanceProcessor) (block : BlockFrame) : result ProcessorError EncodedDelta :=
  requirement ← ok_or (head (requirements (erc20_descriptor p))) (InputError "index out of bounds");
  _ ← map_err InputError (DataRequirement.validate_frame requirement block);
  logs ← accepted_logs (frame_logs block);
  payload ← map_err (DeltaPayload ∘ to_string) (to_allocvec (PE:=PE) (transfers p logs));
  Ok (EncodedDelta.new (erc20_descriptor p) (frame_chain_id block) (frame_block block) payload).

(** ** Reducing a delta *)

Definition balance_key (token address : Address) : list byte := bytes_of token ++ bytes_of address.

Definition decode_balance (bytes : list byte) : result ProcessorError TokenBalanceEntity :=
  map_err (StateError ∘ to_string) (from_bytes (PE:=PE) bytes).

Definition validate_cursor (descriptor : ProcessorDescriptor) (cursor : ProcessorCursor) (delta : EncodedDelta)
    : result ProcessorError () :=
  _ ← EncodedDelta.validate delta descriptor;
  if negb (bool_decide (cursor_processor_id cursor = processor_id (descriptor_id descriptor)))
     || negb (bool_decide (cursor_processor_version cursor = descriptor_version descriptor))
     || negb (cursor_chain_id cursor =? delta_chain_id delta)
     || negb (cursor_block_number cursor =? ref_number (delta_block delta))
     || negb (bool_decide (cursor_block_hash cursor = ref_hash (delta_block delta)))
  then Err CursorMismatch
  else Ok ().

Definition update_balance (p : Erc20BalanceProcessor) (ledger : PairLedger) (token : Address)
    (block : BlockNumber) (balance : option alloy) (failure : string) : result ProcessorError PairLedger :=
  match ledger_incomplete_from ledger with
  | Some _ => Ok ledger
  | None =>
      match balance with
      | Some balance => Ok (MkLedger balance (ledger_incomplete_from ledger) (frozen ledger))
      | None =>
          if complete_from_start (erc20_config p) && bool_decide (token ∈ tokens p)
          then Err (StateError failure)
          else Ok (MkLedger (ledger_balance ledger) (Some block) (frozen ledger))
      end
  end.

Abbreviation Ledgers := (gmap (Address * Address) PairLedger).

(** The pairs a side of a transfer concerns. *)
Definition follows (p : Erc20BalanceProcessor) (address : Address) : bool :=
  negb (bool_decide (address = ZERO_ADDRESS)) && bool_decide (address ∈ watched p).

(** One iteration of the inner loop: load the pair's ledger. *)
Definition load_pair (p : Erc20BalanceProcessor) (token : Address) (ledgers : Ledgers) (address : Address)
    : Reduce Ledgers :=
  if negb (follows p address) || bool_decide (is_Some (ledgers !! (token, address)))
  then mret ledgers
  else
    bytes ← do_state_get BALANCE_COLLECTION (balance_key token address);
    stored ← pure (match bytes with
                   | Some bytes => Some <$> decode_balance bytes
                   | None => Ok None
                   end);
    mret (<[(token, address) := ledger_new stored]> ledgers).

(** One side of a transfer. *)
Definition side (p : Erc20BalanceProcessor) (cursor : ProcessorCursor) (token address : Address)
    (apply : alloy → option alloy) (unloaded failure : string) (ledgers : Ledgers) : result ProcessorError Ledgers :=
  if follows p address then
    ledger ← ok_or (ledgers !! (token, address)) (StateError unloaded);
    ledger ← update_balance p ledger token (cursor_block_number cursor) (apply (ledger_balance ledger)) failure;
    Ok (<[(token, address) := ledger]> ledgers)
  else Ok ledgers.

Definition UNDERFLOW : string :=
  "event-derived balance underflow; start block or token assumptions are incomplete".
Definition OVERFLOW : string := "event-derived balance overflow".

Definition reduce_event (p : Erc20BalanceProcessor) (cursor : ProcessorCursor) (ledgers : Ledgers)
    (event : TransferEvent) : Reduce Ledgers :=
  ledgers ← reduce_each (load_pair p (event_token event)) ledgers [event_from event; event_to event];
  let value := from_be_bytes (event_value event) in
  ledgers ← pure (side p cursor (event_token event) (event_from event)
    (λ balance, alloy_sub balance value) "sender balance was not loaded" UNDERFLOW ledgers);
  pure (side p cursor (event_token event) (event_to event)
    (λ balance, alloy_add balance value) "recipient balance was not loaded" OVERFLOW ledgers).

(** The entity a ledger is written as. *)
Definition entity_of (p : Erc20BalanceProcessor) (cursor : ProcessorCursor) (pair : Address * Address)
    (ledger : PairLedger) : TokenBalanceEntity :=
  MkTokenBalance pair.1 pair.2 (to_be_bytes (ledger_balance ledger)) (cursor_block_number cursor)
    (cursor_block_hash cursor) (cursor_finality cursor) (config_start_block (erc20_config p))
    (complete_from_start (erc20_config p) && match ledger_incomplete_from ledger with None => true | _ => false end)
    (ledger_incomplete_from ledger) "erc20_transfer_ledger".

(** One iteration of the writing loop. *)
Definition write_pair (p : Erc20BalanceProcessor) (cursor : ProcessorCursor) (changes : list DomainChange)
    (entry : (Address * Address) * PairLedger) : Reduce (list DomainChange) :=
  let '((token, address), ledger) := entry in
  if frozen ledger then mret changes
  else
    let key := balance_key token address in
    payload ← pure (map_err (StateError ∘ to_string)
      (to_allocvec (PE:=PE) (entity_of p cursor (token, address) ledger)));
    _ ← do_state_put BALANCE_COLLECTION key payload;
    _ ← do_put BALANCE_COLLECTION key payload;
    let change := MkChange BALANCE_CHANGE_KIND key Upsert payload in
    _ ← do_emit change;
    mret (changes ++ [change]).

Definition erc20_reduce (p : Erc20BalanceProcessor) (cursor : ProcessorCursor) (delta : EncodedDelta) : Reduction :=
  _ ← pure (validate_cursor (erc20_descriptor p) cursor delta);
  delta ← pure (map_err (DeltaPayload ∘ to_string) (from_bytes (PE:=PE) (delta_payload delta)));
  ledgers ← reduce_each (reduce_event p cursor) ∅ (events delta);
  reduce_each (write_pair p cursor) [] (map_entries (cmp_le pair_cmp) ledgers).

End erc20.

(** ** Accounts: what the ledgers mean *)

Record Account := MkAccount { amount : Z; broken_at : option BlockNumber }.

Definition no_account : Account := MkAccount 0 None.
Definition Accounts : Type := Address → Address → Account.

Definition set_account (accounts : Accounts) (token address : Address) (x : Account) : Accounts :=
  λ t a, if decide ((t, a) = (token, address)) then x else accounts t a.

(** The wei of a quantity. *)
Definition units (q : Quantity) : Z := be_val (bytes_of q).

(** A token whose transfers must all apply. *)
Definition strict (p : Erc20BalanceProcessor) (token : Address) : bool :=
  complete_from_start (erc20_config p) && bool_decide (token ∈ tokens p).

(** One side of a transfer: a followed account that is not broken moves, or
    breaks in this block, or the block fails. *)
Definition account_side (p : Erc20BalanceProcessor) (block : BlockNumber) (token address : Address)
    (apply : Z → option Z) (failure : string) (accounts : Accounts) : result string Accounts :=
  if follows p address then
    match broken_at (accounts token address) with
    | Some _ => Ok accounts
    | None =>
        match apply (amount (accounts token address)) with
        | Some z => Ok (set_account accounts token address (MkAccount z None))
        | None =>
            if strict p token then Err failure
            else Ok (set_account accounts token address (MkAccount (amount (accounts token address)) (Some block)))
        end
    end
  else Ok accounts.

Definition debit (value amount : Z) : option Z := if amount <? value then None else Some (amount - value).
Definition credit (value amount : Z) : option Z := if amount + value <? 2 ^ 256 then Some (amount + value) else None.

Definition account_event (p : Erc20BalanceProcessor) (block : BlockNumber) (accounts : Accounts)
    (event : TransferEvent) : result string Accounts :=
  accounts ← account_side p block (event_token event) (event_from event) (debit (units (event_value event)))
    UNDERFLOW accounts;
  account_side p block (event_token event) (event_to event) (credit (units (event_value event))) OVERFLOW accounts.

Definition account_block (p : Erc20BalanceProcessor) (block : BlockNumber) (accounts : Accounts)
    (events : list TransferEvent) : result string Accounts :=
  fold_result (account_event p block) accounts events.

(** ** The reducer keeps the accounts *)

Section refinement.
Context `{AlloyLaws, !Hex HE, !Blake3, !Keccak256}.
Context {PE : Type} `{!Display PE, !Postcard PE TransferDelta, !Postcard PE TokenBalanceEntity,
  !Postcard PE Erc20BalanceConfig}.
Context `{!PostcardLaws PE TokenBalanceEntity, !PostcardTotal PE TokenBalanceEntity}.
Context (p : Erc20BalanceProcessor) (cursor : ProcessorCursor).

Definition balance_row (token address : Address) : StateKey := MkStateKey BALANCE_COLLECTION (balance_key token address).

(** A stored row is the account's. *)
Definition row_keeps (row : option (list byte)) (x : Account) : Prop :=
  match row with
  | None => x = no_account
  | Some bytes => ∃ e, from_bytes (PE:=PE) bytes = Ok e ∧ units (balance e) = amount x ∧ incomplete_from e = broken_at x
  end.

Definition rows_keep (v : View) (accounts : Accounts) : Prop :=
  ∀ token address, follows p address = true →
  row_keeps (view_state v !! balance_row token address) (accounts token address).

Definition is_broken (x : Account) : bool := match broken_at x with Some _ => true | None => false end.

(** A loaded ledger is the account now, and knows whether the account was
    broken before the block. *)
Definition ledger_keeps (before now : Account) (ledger : PairLedger) : Prop :=
  alloy_val (ledger_balance ledger) = amount now ∧ ledger_incomplete_from ledger = broken_at now
  ∧ frozen ledger = is_broken before ∧ (is_broken before = true → now = before).

Definition ledgers_keep (before now : Accounts) (ledgers : gmap (Address * Address) PairLedger) : Prop :=
  ∀ token address,
  match ledgers !! (token, address) with
  | Some ledger => follows p address = true ∧ ledger_keeps (before token address) (now token address) ledger
  | None => now token address = before token address
  end.

Lemma run_state_get namespace key v :
  run (do_state_get namespace key) v = (Ok (view_state v !! MkStateKey namespace key), v).
Proof. reflexivity. Qed.

Lemma load_pair_run token address v before now ledgers :
  rows_keep v before → ledgers_keep before now ledgers →
  ∃ ledgers', run (load_pair p token ledgers address) v = (Ok ledgers', v)
    ∧ ledgers_keep before now ledgers' ∧ (follows p address = true → is_Some (ledgers' !! (token, address)))
    ∧ (∀ pair, is_Some (ledgers !! pair) → is_Some (ledgers' !! pair)).
Proof.
  intros Hrows Hkeep. unfold load_pair.
  destruct (follows p address) eqn:Hf; cbn [negb orb]; [|by exists ledgers].
  case_bool_decide as Hin; [by exists ledgers|].
  assert (ledgers !! (token, address) = None) as Hnone by (by apply eq_None_not_Some).
  rewrite run_bind, run_state_get. cbv beta iota. rewrite run_bind, run_pure.
  pose proof (Hrows token address Hf) as Hrow. pose proof (Hkeep token address) as Hnow. rewrite Hnone in Hnow.
  assert (∃ stored, match view_state v !! balance_row token address with
      | Some bytes => Some <$> decode_balance (PE:=PE) bytes | None => Ok None end = Ok stored
      ∧ ledger_keeps (before token address) (now token address) (ledger_new stored)) as (stored & Hstored & Hledger).
  { destruct (view_state v !! balance_row token address) as [bytes|]; cbn in Hrow.
    - destruct Hrow as (e & He & Hamount & Hbroken). exists (Some e). unfold decode_balance. rewrite He. split; [done|].
      unfold ledger_keeps, is_broken, ledger_new. cbn. by rewrite Hnow, <-Hbroken, from_be_bytes_val.
    - exists None. split; [done|]. unfold ledger_keeps, is_broken. cbn. rewrite Hnow, Hrow. cbn.
      by rewrite alloy_zero_val. }
  fold (balance_row token address). rewrite Hstored. exists (<[(token, address) := ledger_new stored]> ledgers).
  split; [done|]. split; [|split].
  - intros t a. destruct (decide ((t, a) = (token, address))) as [[= -> ->]|Hne].
    + by rewrite lookup_insert_eq.
    + rewrite lookup_insert_ne by congruence. apply Hkeep.
  - intros _. by rewrite lookup_insert_eq.
  - intros pair Hpair. destruct (decide (pair = (token, address))) as [->|]; [by rewrite lookup_insert_eq|].
    by rewrite lookup_insert_ne.
Qed.

Lemma ledgers_keep_set before now token address x ledger ledgers :
  ledgers_keep before now ledgers → follows p address = true →
  ledger_keeps (before token address) x ledger →
  ledgers_keep before (set_account now token address x) (<[(token, address) := ledger]> ledgers).
Proof.
  intros Hkeep Hf Hledger t a. unfold set_account. destruct (decide _) as [[= -> ->]|Hne].
  - by rewrite lookup_insert_eq.
  - rewrite lookup_insert_ne by congruence. apply Hkeep.
Qed.

Lemma side_keeps before now ledgers token address f g unloaded failure :
  (∀ x, alloy_val <$> f x = g (alloy_val x)) →
  ledgers_keep before now ledgers → (follows p address = true → is_Some (ledgers !! (token, address))) →
  match account_side p (cursor_block_number cursor) token address g failure now with
  | Ok now' => ∃ ledgers', side p cursor token address f unloaded failure ledgers = Ok ledgers'
      ∧ ledgers_keep before now' ledgers' ∧ (∀ pair, is_Some (ledgers !! pair) → is_Some (ledgers' !! pair))
  | Err m => side p cursor token address f unloaded failure ledgers = Err (StateError m)
  end.
Proof.
  intros Hfg Hkeep Hloaded. unfold account_side, side.
  destruct (follows p address) eqn:Hf; [|by exists ledgers].
  destruct (Hloaded eq_refl) as [ledger Hl]. pose proof (Hkeep token address) as Hledger.
  rewrite Hl in Hledger. destruct Hledger as (_ & Hamount & Hbroken & Hfrozen & Hstays).
  rewrite Hl. cbn [ok_or mbind result_bind]. unfold update_balance. rewrite Hbroken.
  assert (∀ x : PairLedger, ∀ pair, is_Some (ledgers !! pair) → is_Some (<[(token, address) := x]> ledgers !! pair)) as Hmono.
  { intros x pair Hpair. destruct (decide (pair = (token, address))) as [->|]; [by rewrite lookup_insert_eq|].
    by rewrite lookup_insert_ne. }
  destruct (broken_at (now token address)) as [b|] eqn:Hb; cbn [mbind result_bind].
  - exists (<[(token, address) := ledger]> ledgers). split; [done|]. split; [|apply Hmono]. by rewrite insert_id.
  - assert (is_broken (before token address) = false) as Hsound.
    { destruct (is_broken (before token address)) eqn:Hbefore; [|done]. specialize (Hstays eq_refl).
      unfold is_broken in Hbefore. by rewrite <-Hstays, Hb in Hbefore. }
    rewrite Hsound in Hfrozen. specialize (Hfg (ledger_balance ledger)). rewrite Hamount in Hfg. rewrite <-Hfg.
    destruct (f (ledger_balance ledger)) as [z|]; cbn [fmap option_fmap option_map mbind result_bind].
    + eexists. split; [done|]. split; [|apply Hmono]. apply ledgers_keep_set; [done|done|]. unfold ledger_keeps. rewrite Hsound. by split_and!.
    + fold (strict p token). destruct (strict p token); [done|]. cbn [mbind result_bind].
      eexists. split; [done|]. split; [|apply Hmono]. apply ledgers_keep_set; [done|done|]. unfold ledger_keeps. rewrite Hsound. by split_and!.
Qed.

Lemma debit_alloy (value : Quantity) x : alloy_val <$> alloy_sub x (from_be_bytes value) = debit (units value) (alloy_val x).
Proof. by rewrite alloy_sub_val, from_be_bytes_val. Qed.

Lemma credit_alloy (value : Quantity) x : alloy_val <$> alloy_add x (from_be_bytes value) = credit (units value) (alloy_val x).
Proof. by rewrite alloy_add_val, from_be_bytes_val. Qed.

Lemma reduce_event_run event v before now ledgers :
  rows_keep v before → ledgers_keep before now ledgers →
  match account_event p (cursor_block_number cursor) now event with
  | Ok now' => ∃ ledgers', run (reduce_event p cursor ledgers event) v = (Ok ledgers', v)
      ∧ ledgers_keep before now' ledgers'
  | Err m => run (reduce_event p cursor ledgers event) v = (Err (StateError m), v)
  end.
Proof.
  intros Hrows Hkeep. unfold reduce_event, account_event. rewrite run_bind, run_each.
  destruct (load_pair_run (event_token event) (event_from event) v before now ledgers Hrows Hkeep)
    as (l1 & Hl1 & Hkeep1 & Hfrom & _). rewrite Hl1, run_each.
  destruct (load_pair_run (event_token event) (event_to event) v before now l1 Hrows Hkeep1)
    as (l2 & Hl2 & Hkeep2 & Hto & Hmono). rewrite Hl2. cbn [reduce_each].
  change (run (mret l2) v) with (@Ok ProcessorError _ l2, v). cbv beta iota zeta. rewrite run_bind, run_pure.
  pose proof (side_keeps before now l2 (event_token event) (event_from event) _ _
    "sender balance was not loaded" UNDERFLOW (debit_alloy (event_value event)) Hkeep2) as Hside.
  destruct (account_side _ _ _ (event_from event) _ _ now) as [now1|m].
  - destruct Hside as (l3 & -> & Hkeep3 & Hmono3); [eauto|]. cbn [mbind result_bind]. rewrite run_pure.
    pose proof (side_keeps before now1 l3 (event_token event) (event_to event) _ _
      "recipient balance was not loaded" OVERFLOW (credit_alloy (event_value event)) Hkeep3) as Hside.
    destruct (account_side _ _ _ (event_to event) _ _ now1) as [now2|m].
    + destruct Hside as (l4 & -> & Hkeep4 & _); eauto.
    + by rewrite Hside; eauto.
  - by rewrite Hside; eauto.
Qed.

Lemma reduce_events_run events v before now ledgers :
  rows_keep v before → ledgers_keep before now ledgers →
  match account_block p (cursor_block_number cursor) now events with
  | Ok now' => ∃ ledgers', run (reduce_each (reduce_event p cursor) ledgers events) v = (Ok ledgers', v)
      ∧ ledgers_keep before now' ledgers'
  | Err m => run (reduce_each (reduce_event p cursor) ledgers events) v = (Err (StateError m), v)
  end.
Proof.
  intros Hrows. revert now ledgers. induction events as [|event events IH]; intros now ledgers Hkeep.
  { exists ledgers. done. }
  rewrite run_each. unfold account_block. cbn [fold_result].
  pose proof (reduce_event_run event v before now ledgers Hrows Hkeep) as Hevent.
  destruct (account_event _ _ now event) as [now1|m]; cbn [mbind result_bind].
  - destruct Hevent as (l1 & -> & Hkeep1). by apply IH.
  - by rewrite Hevent.
Qed.

(** The pairs whose account a transfer of the block moves, or tries to. *)
Definition concerns (events : list TransferEvent) (pair : Address * Address) : Prop :=
  follows p pair.2 = true ∧ ∃ event, event ∈ events ∧ event_token event = pair.1
    ∧ (event_from event = pair.2 ∨ event_to event = pair.2).

Lemma load_pair_dom token address ledgers ledgers' v v' pair :
  run (load_pair p token ledgers address) v = (Ok ledgers', v') →
  is_Some (ledgers' !! pair) ↔ is_Some (ledgers !! pair) ∨ follows p address = true ∧ pair = (token, address).
Proof.
  unfold load_pair. destruct (follows p address) eqn:Hf; cbn [negb orb]; [|intros [= <- _]; naive_solver].
  case_bool_decide as Hin; [intros [= <- _]; naive_solver|].
  rewrite run_bind, run_state_get. cbv beta iota. rewrite run_bind, run_pure.
  destruct (match view_state v !! _ with Some _ => _ | None => _ end) as [stored|]; [|done]. intros [= <- _].
  rewrite lookup_insert_is_Some'. naive_solver.
Qed.

Lemma side_dom token address f unloaded failure ledgers ledgers' pair :
  side p cursor token address f unloaded failure ledgers = Ok ledgers' →
  is_Some (ledgers' !! pair) ↔ is_Some (ledgers !! pair).
Proof.
  unfold side. destruct (follows p address); [|by intros [= <-]].
  intros (ledger & Hl & (ledger' & _ & [= <-])%result_bind_Ok)%result_bind_Ok.
  rewrite lookup_insert_is_Some'. destruct (ledgers !! (token, address)) eqn:Hold; [|done]. naive_solver.
Qed.

Lemma reduce_event_dom event ledgers ledgers' v v' pair :
  run (reduce_event p cursor ledgers event) v = (Ok ledgers', v') →
  is_Some (ledgers' !! pair) ↔ is_Some (ledgers !! pair) ∨ concerns [event] pair.
Proof.
  unfold reduce_event. rewrite run_bind, run_each.
  destruct (run (load_pair p _ ledgers _) v) as [[l1|] v1] eqn:Hl1; [|done]. rewrite run_each.
  destruct (run (load_pair p _ l1 _) v1) as [[l2|] v2] eqn:Hl2; [|done]. cbn [reduce_each].
  change (run (mret l2) v2) with (@Ok ProcessorError _ l2, v2). cbv beta iota zeta. rewrite run_bind, run_pure.
  destruct (side _ _ _ (event_from event) _ _ _ l2) as [l3|] eqn:Hl3; [|done]. rewrite run_pure.
  destruct (side _ _ _ (event_to event) _ _ _ l3) as [l4|] eqn:Hl4; [|done]. intros [= <- _].
  rewrite (side_dom _ _ _ _ _ _ _ _ Hl4), (side_dom _ _ _ _ _ _ _ _ Hl3), (load_pair_dom _ _ _ _ _ _ _ Hl2),
    (load_pair_dom _ _ _ _ _ _ _ Hl1). unfold concerns. destruct pair as [token address]. cbn.
  setoid_rewrite list_elem_of_singleton. naive_solver.
Qed.

(** The block's ledgers are those of the pairs it concerns. *)
Lemma reduce_events_dom events ledgers ledgers' v v' pair :
  run (reduce_each (reduce_event p cursor) ledgers events) v = (Ok ledgers', v') →
  is_Some (ledgers' !! pair) ↔ is_Some (ledgers !! pair) ∨ concerns events pair.
Proof.
  revert ledgers v. induction events as [|event events IH]; intros ledgers v.
  { intros [= <- _]. split; [by left|]. intros [?|(_ & event & ?%elem_of_nil & _)]; done. }
  rewrite run_each. destruct (run _ v) as [[l1|] v1] eqn:Hl1; [|done]. intros Hl2.
  rewrite (IH _ _ Hl2), (reduce_event_dom _ _ _ _ _ _ Hl1). unfold concerns.
  setoid_rewrite list_elem_of_singleton. setoid_rewrite elem_of_cons. naive_solver.
Qed.

(** ** Writing the ledgers *)

Lemma balance_key_inj token address token' address' :
  balance_key token address = balance_key token' address' → (token, address) = (token', address').
Proof.
  unfold balance_key. intros [Ht%bytes_of_inj Ha%bytes_of_inj]%app_inj_1; [congruence|].
  by rewrite !length_bytes_of.
Qed.

Definition balance_entity (token address : Address) : EntityKey :=
  MkEntityKey BALANCE_COLLECTION (balance_key token address).

(** A pair's two rows hold a payload, or are as they were. *)
Definition rows_hold (v : View) (pair : Address * Address) (payload : list byte) : Prop :=
  view_state v !! balance_row pair.1 pair.2 = Some payload
  ∧ view_entities v !! balance_entity pair.1 pair.2 = Some payload.
Definition rows_same (v v' : View) (pair : Address * Address) : Prop :=
  view_state v' !! balance_row pair.1 pair.2 = view_state v !! balance_row pair.1 pair.2
  ∧ view_entities v' !! balance_entity pair.1 pair.2 = view_entities v !! balance_entity pair.1 pair.2.

(** The change a written pair publishes. *)
Definition publishes (entry : (Address * Address) * PairLedger) (change : DomainChange) : Prop :=
  ∃ payload, to_allocvec (PE:=PE) (entity_of p cursor entry.1 entry.2) = Ok payload
  ∧ change = MkChange BALANCE_CHANGE_KIND (balance_key entry.1.1 entry.1.2) Upsert payload.

Definition unfrozen (entry : (Address * Address) * PairLedger) : bool := negb (frozen entry.2).

Record pairs_written (l : list ((Address * Address) * PairLedger)) (v v' : View) : Prop := {
  written_rows entry : entry ∈ l → frozen entry.2 = false →
    ∃ payload, to_allocvec (PE:=PE) (entity_of p cursor entry.1 entry.2) = Ok payload ∧ rows_hold v' entry.1 payload;
  unwritten_rows pair : (∀ ledger, (pair, ledger) ∈ l → frozen ledger = true) → rows_same v v' pair;
  written_changes : ∃ changes, Forall2 publishes (List.filter unfrozen l) changes
    ∧ view_changes v' = view_changes v ++ changes;
}.

Lemma write_pairs_run changes l v : NoDup l.*1 →
  ∃ emitted v', run (reduce_each (write_pair p cursor) changes l) v = (Ok (changes ++ emitted), v')
    ∧ pairs_written l v v' ∧ view_changes v' = view_changes v ++ emitted.
Proof.
  revert changes v. induction l as [|[[token address] ledger] l IH]; intros changes v Hnodup.
  { exists [], v. rewrite !app_nil_r. split; [done|]. split; [|done]. split.
    - intros entry Hin. by apply not_elem_of_nil in Hin.
    - done.
    - exists []. by rewrite app_nil_r. }
  apply NoDup_cons in Hnodup as [Hfresh Hnodup].
  assert (∀ ledger', ((token, address), ledger') ∉ l) as Hother
    by (intros ledger' Hin; apply Hfresh, list_elem_of_fmap; by exists ((token, address), ledger')).
  rewrite run_each. unfold write_pair at 1. destruct (frozen ledger) eqn:Hfrozen.
  - destruct (IH changes v Hnodup) as (emitted & v' & Hrun & [Hw Hu (new & Hnew & Hc)] & He).
    exists emitted, v'. split; [exact Hrun|]. split; [|done]. split.
    + intros entry [->|Hin]%elem_of_cons Hf; [cbn in Hf; congruence|by apply Hw].
    + intros pair Hpair. apply Hu. intros ledger' Hin. apply Hpair. by right.
    + exists new. cbn [List.filter]. unfold unfrozen at 1. cbn [snd]. rewrite Hfrozen. done.
  - rewrite run_bind, run_pure.
    destruct (encodes (PE:=PE) (entity_of p cursor (token, address) ledger)) as [payload Hpayload].
    rewrite Hpayload. cbn [map_err]. cbv beta iota.
    set (change := MkChange BALANCE_CHANGE_KIND (balance_key token address) Upsert payload).
    set (v1 := emit change (put BALANCE_COLLECTION (balance_key token address) payload
      (state_put BALANCE_COLLECTION (balance_key token address) payload v)) : View).
    change (run _ v) with (Ok (E:=ProcessorError) (changes ++ [change]), v1). cbv beta iota.
    destruct (IH (changes ++ [change]) v1 Hnodup) as (emitted & v' & Hrun & [Hw Hu (new & Hnew & Hc)] & He).
    exists (change :: emitted), v'. rewrite Hrun, <-app_assoc. split; [done|].
    assert (view_changes v1 = view_changes v ++ [change]) as Hv1 by done.
    assert (∀ k, view_state v1 !! k = if decide (k = balance_row token address) then Some payload else view_state v !! k)
      as Hvs by (intros k; apply lookup_set_key).
    assert (∀ k, view_entities v1 !! k = if decide (k = balance_entity token address) then Some payload else view_entities v !! k)
      as Hve by (intros k; apply lookup_set_key).
    split; [|by rewrite He, Hv1, <-app_assoc]. split.
    + intros entry [->|Hin]%elem_of_cons Hf; [|by apply Hw]. exists payload. split; [done|]. cbn [fst].
      destruct (Hu (token, address)) as [Hs Hen]; [intros ledger' Hin; by destruct (Hother ledger')|].
      unfold rows_hold. rewrite Hs, Hen. rewrite Hvs, Hve. by rewrite !decide_True.
    + intros pair Hpair. destruct (Hu pair) as [Hs Hen]; [intros ledger' Hin; apply Hpair; by right|].
      assert (balance_key token address ≠ balance_key pair.1 pair.2) as Hne.
      { intros Heq%balance_key_inj. destruct pair as [t a]. cbn in Heq. injection Heq as <- <-.
        specialize (Hpair ledger ltac:(left)). congruence. }
      unfold rows_same. rewrite Hs, Hen. rewrite Hvs, Hve, !decide_False by (intros [=]; congruence). done.
    + exists (change :: new). split; [|by rewrite Hc, Hv1, <-app_assoc]. cbn [List.filter]. unfold unfrozen at 1.
      cbn [snd]. rewrite Hfrozen. cbn [negb]. constructor; [by exists payload|done].
Qed.

(** The entity a written ledger decodes to. *)
Definition entity_keeps (pair : Address * Address) (payload : list byte) (x : Account) : Prop :=
  ∃ e, from_bytes (PE:=PE) payload = Ok e ∧ balance_token e = pair.1 ∧ balance_address e = pair.2
    ∧ units (balance e) = amount x ∧ incomplete_from e = broken_at x ∧ as_of_block e = cursor_block_number cursor.

Lemma entity_keeps_ledger before now pair ledger payload :
  ledger_keeps before now ledger → to_allocvec (PE:=PE) (entity_of p cursor pair ledger) = Ok payload →
  entity_keeps pair payload now.
Proof.
  intros (Ha & Hb & _) Hpayload. exists (entity_of p cursor pair ledger).
  split; [by apply from_to|]. split_and!; try done. rewrite <-Ha. apply to_be_bytes_val.
Qed.

Lemma written_keeps v v' before now ledgers :
  rows_keep v before → ledgers_keep before now ledgers →
  pairs_written (map_entries (cmp_le pair_cmp) ledgers) v v' → rows_keep v' now.
Proof.
  intros Hrows Hkeep [Hw Hu _] token address Hf. specialize (Hkeep token address).
  specialize (Hrows token address Hf).
  destruct (ledgers !! (token, address)) as [ledger|] eqn:Hl.
  - destruct Hkeep as (_ & Hk). destruct (frozen ledger) eqn:Hfrozen.
    + destruct (Hu (token, address)) as [Hs _].
      { intros ledger' Hin%elem_of_map_entries. congruence. }
      cbn in Hs. rewrite Hs. destruct Hk as (_ & _ & Hbroken & Hstays). rewrite Hfrozen in Hbroken.
      by rewrite Hstays.
    + destruct (Hw ((token, address), ledger)) as (payload & Hpayload & Hs & _); [by apply elem_of_map_entries|done|].
      destruct (entity_keeps_ledger _ _ _ _ _ Hk Hpayload) as (e & He & _ & _ & Ha & Hb & _).
      cbn in Hs. rewrite Hs. by exists e.
  - destruct (Hu (token, address)) as [Hs _].
    { intros ledger' Hin%elem_of_map_entries. congruence. }
    cbn in Hs. by rewrite Hs, Hkeep.
Qed.

(** A broken pair's rows never change. *)
Lemma written_broken v v' before now ledgers token address :
  ledgers_keep before now ledgers →
  pairs_written (map_entries (cmp_le pair_cmp) ledgers) v v' →
  is_broken (before token address) = true → rows_same v v' (token, address).
Proof.
  intros Hkeep [_ Hu _] Hbroken. apply Hu. intros ledger Hin%elem_of_map_entries.
  specialize (Hkeep token address). rewrite Hin in Hkeep. destruct Hkeep as (_ & _ & _ & -> & _). done.
Qed.

(** A change is the new row of its pair. *)
Definition publishes_row (v' : View) (now : Accounts) (pair : Address * Address) (change : DomainChange) : Prop :=
  ∃ payload, change = MkChange BALANCE_CHANGE_KIND (balance_key pair.1 pair.2) Upsert payload
    ∧ rows_hold v' pair payload ∧ entity_keeps pair payload (now pair.1 pair.2).

Lemma written_publishes v v' before now ledgers entry change :
  ledgers_keep before now ledgers →
  pairs_written (map_entries (cmp_le pair_cmp) ledgers) v v' →
  entry ∈ List.filter unfrozen (map_entries (cmp_le pair_cmp) ledgers) → publishes entry change →
  publishes_row v' now entry.1 change.
Proof.
  intros Hkeep [Hw _ _] [Hin Hf]%elem_of_filter_list (payload & Hpayload & ->).
  unfold unfrozen in Hf. apply negb_true_iff in Hf.
  destruct (Hw _ Hin Hf) as (payload' & Hpayload' & Hrows).
  assert (payload' = payload) as -> by congruence. exists payload. split; [done|]. split; [done|].
  destruct entry as [[t a] ledger]. apply elem_of_map_entries in Hin. specialize (Hkeep t a). rewrite Hin in Hkeep.
  destruct Hkeep as [_ Hk]. eapply entity_keeps_ledger; [exact Hk|exact Hpayload].
Qed.

(** What is written: the ledgers of the pairs that were not broken before,
    one change each in key order; no other row changes. *)
Lemma written_exact v v' before now ledgers changes :
  ledgers_keep before now ledgers →
  pairs_written (map_entries (cmp_le pair_cmp) ledgers) v v' → view_changes v' = view_changes v ++ changes →
  ∃ pairs, Forall2 (publishes_row v' now) pairs changes
    ∧ StronglySorted (cmp_le pair_cmp) pairs ∧ NoDup pairs
    ∧ (∀ pair, pair ∈ pairs ↔ is_Some (ledgers !! pair) ∧ is_broken (before pair.1 pair.2) = false)
    ∧ ∀ pair, pair ∉ pairs → rows_same v v' pair.
Proof.
  intros Hkeep Hwritten Hchanges. set (l := map_entries (cmp_le pair_cmp) ledgers) in *.
  assert (∀ pair, pair ∈ (List.filter unfrozen l).*1 ↔
    is_Some (ledgers !! pair) ∧ is_broken (before pair.1 pair.2) = false) as Hpairs.
  { intros [t a]. cbn. rewrite list_elem_of_fmap. specialize (Hkeep t a). split.
    - intros ([pair ledger] & Heq & [Hin%elem_of_map_entries Hf]%elem_of_filter_list).
      cbn in Heq. subst pair. rewrite Hin in Hkeep. destruct Hkeep as (_ & _ & _ & Hfrozen & _).
      unfold unfrozen in Hf. cbn in Hf. rewrite Hfrozen in Hf. by apply negb_true_iff in Hf.
    - intros [[ledger Hl] Hb]. exists ((t, a), ledger). split; [done|]. rewrite Hl in Hkeep.
      destruct Hkeep as (_ & _ & _ & Hfrozen & _). apply elem_of_filter_list. split; [by apply elem_of_map_entries|].
      unfold unfrozen. cbn. by rewrite Hfrozen, Hb. }
  exists (List.filter unfrozen l).*1. pose proof Hwritten as [_ Hu (changes' & Hall & Hc)].
  rewrite Hchanges in Hc. apply app_inv_head in Hc as <-. split; [|split; [|split; [|split]]].
  - apply Forall2_fmap_l. eapply Forall2_weaken; [exact Hall|]. intros entry change Hin Hp.
    by eapply written_publishes.
  - apply StronglySorted_map, StronglySorted_filter_list. exact (map_entries_sorted (cmp_le pair_cmp) ledgers).
  - apply NoDup_fmap_filter, map_entries_NoDup.
  - exact Hpairs.
  - intros pair Hpair. apply Hu. intros ledger Hin. destruct (frozen ledger) eqn:Hf; [done|]. exfalso. apply Hpair.
    apply list_elem_of_fmap. exists (pair, ledger). split; [done|]. apply elem_of_filter_list. split; [done|].
    unfold unfrozen. cbn. by rewrite Hf.
Qed.

End refinement.

(** ** What an account is worth *)

(** What a pair received and sent in a history of blocks and their events. *)
Definition received (token address : Address) (history : list (BlockNumber * TransferEvent)) : Z :=
  Z_sum ((λ x, if bool_decide (event_token x.2 = token) && bool_decide (event_to x.2 = address)
               then units (event_value x.2) else 0) <$> history).
Definition sent (token address : Address) (history : list (BlockNumber * TransferEvent)) : Z :=
  Z_sum ((λ x, if bool_decide (event_token x.2 = token) && bool_decide (event_from x.2 = address)
               then units (event_value x.2) else 0) <$> history).

Definition account_history (p : Erc20BalanceProcessor) (history : list (BlockNumber * TransferEvent))
    : result string Accounts :=
  fold_result (λ accounts x, account_event p x.1 accounts x.2) (λ _ _, no_account) history.

(** The transfer an account broke on: it sends more than there is, or
    brings more than fits. *)
Definition inapplicable (token address : Address) (event : TransferEvent) (amount : Z) : Prop :=
  event_token event = token ∧
  (event_from event = address ∧ amount < units (event_value event)
   ∨ event_to event = address ∧ 2 ^ 256 ≤ amount + units (event_value event)).

(** What an account says of its history. *)
Definition account_true (p : Erc20BalanceProcessor) (token address : Address)
    (history : list (BlockNumber * TransferEvent)) (x : Account) : Prop :=
  0 ≤ amount x < 2 ^ 256 ∧
  match broken_at x with
  | None => amount x = received token address history - sent token address history
  | Some block => strict p token = false ∧ ∃ before event after,
      history = before ++ (block, event) :: after ∧ inapplicable token address event (amount x)
      ∧ amount x = received token address before - sent token address before
  end.

Lemma units_nonneg q : 0 ≤ units q.
Proof. apply be_val_range. Qed.

Lemma received_snoc token address history x :
  received token address (history ++ [x]) = received token address history
    + (if bool_decide (event_token x.2 = token) && bool_decide (event_to x.2 = address)
       then units (event_value x.2) else 0).
Proof. unfold received. rewrite fmap_app, Z_sum_app. cbn. lia. Qed.

Lemma sent_snoc token address history x :
  sent token address (history ++ [x]) = sent token address history
    + (if bool_decide (event_token x.2 = token) && bool_decide (event_from x.2 = address)
       then units (event_value x.2) else 0).
Proof. unfold sent. rewrite fmap_app, Z_sum_app. cbn. lia. Qed.

(** One side leaves the other accounts alone. *)
Lemma account_side_other p block token address f failure accounts accounts' t a :
  account_side p block token address f failure accounts = Ok accounts' →
  (t, a) ≠ (token, address) → accounts' t a = accounts t a.
Proof.
  unfold account_side. intros Hok Hne. destruct (follows p address); [|congruence].
  destruct (broken_at _); [congruence|].
  destruct (f _); [|destruct (strict p token); [done|]]; injection Hok as <-; unfold set_account;
    by rewrite decide_False.
Qed.

(** What a side does to the account it names. *)
Definition account_effect (block : BlockNumber) (f : Z → option Z) (x : Account) : Account :=
  match broken_at x, f (amount x) with
  | Some _, _ => x
  | None, Some z => MkAccount z None
  | None, None => MkAccount (amount x) (Some block)
  end.

Lemma account_side_at p block token side_address f failure accounts accounts' address :
  account_side p block token side_address f failure accounts = Ok accounts' → follows p address = true →
  let x := accounts token address in
  accounts' token address = (if decide (side_address = address) then account_effect block f x else x)
  ∧ (side_address = address → broken_at x = None → f (amount x) = None → strict p token = false).
Proof.
  intros Hok Hf. cbn zeta. destruct (decide (side_address = address)) as [Heq|Hne]; [subst side_address|].
  2: { split; [|done]. apply (account_side_other _ _ _ _ _ _ _ _ _ _ Hok). congruence. }
  unfold account_side in Hok. rewrite Hf in Hok. unfold account_effect.
  destruct (broken_at _) eqn:Hb; [injection Hok as <-; split; [done|congruence]|].
  destruct (f _); [|destruct (strict p token); [done|]]; injection Hok as <-; unfold set_account;
    (split; [by rewrite decide_True|congruence]).
Qed.

Lemma account_true_later p token address history x y :
  account_true p token address history x → is_broken x = true →
  account_true p token address (history ++ [y]) x.
Proof.
  unfold is_broken. intros [Hr Hx] Hb. split; [done|]. destruct (broken_at x) as [b|]; [|done].
  destruct Hx as (Hs & before & ev & after & -> & Hrest).
  split; [done|]. exists before, ev, (after ++ [y]). by rewrite <-app_assoc.
Qed.

Lemma account_true_moves p token address history x block event z :
  account_true p token address history x → broken_at x = None → 0 ≤ z < 2 ^ 256 →
  event_token event = token →
  z = amount x + (if bool_decide (event_to event = address) then units (event_value event) else 0)
      - (if bool_decide (event_from event = address) then units (event_value event) else 0) →
  account_true p token address (history ++ [(block, event)]) (MkAccount z None).
Proof.
  intros [Hr Hx] Hb Hz Ht Heq. rewrite Hb in Hx. split; [done|]. cbn [broken_at amount].
  rewrite received_snoc, sent_snoc. cbn [snd]. rewrite (bool_decide_true (event_token event = token)) by done. cbn [andb].
  lia.
Qed.

Lemma account_true_breaks p token address history x block event :
  account_true p token address history x → broken_at x = None → strict p token = false →
  inapplicable token address event (amount x) →
  account_true p token address (history ++ [(block, event)]) (MkAccount (amount x) (Some block)).
Proof.
  intros [Hr Hx] Hb Hs Hi. rewrite Hb in Hx. split; [done|]. cbn [broken_at amount]. split; [done|].
  exists history, event, []. done.
Qed.

Lemma account_event_true p block event accounts accounts' token address history :
  account_event p block accounts event = Ok accounts' → follows p address = true →
  account_true p token address history (accounts token address) →
  account_true p token address (history ++ [(block, event)]) (accounts' token address).
Proof.
  unfold account_event. intros (mid & Hdebit & Hcredit)%result_bind_Ok Hf Htrue.
  pose proof (units_nonneg (event_value event)) as Hnn.
  destruct (decide (event_token event = token)) as [Ht|Ht].
  2: { assert (accounts' token address = accounts token address) as ->.
       { rewrite (account_side_other _ _ _ _ _ _ _ _ _ _ Hcredit) by congruence.
         apply (account_side_other _ _ _ _ _ _ _ _ _ _ Hdebit); congruence. }
       destruct (is_broken (accounts token address)) eqn:Hb; [by apply account_true_later|].
       destruct Htrue as [Hrange Hx]. split; [done|]. unfold is_broken in Hb.
       destruct (broken_at (accounts token address)); [done|].
       rewrite received_snoc, sent_snoc. cbn [snd]. rewrite bool_decide_false by done. cbn [andb]. lia. }
  rewrite Ht in Hdebit, Hcredit.
  destruct (account_side_at _ _ _ _ _ _ _ _ _ Hdebit Hf) as [Hmid Hstrict].
  destruct (account_side_at _ _ _ _ _ _ _ _ _ Hcredit Hf) as [-> Hstrict']. rewrite Hmid in Hstrict' |- *.
  clear Hmid Hdebit Hcredit. set (x := accounts token address) in *.
  destruct (broken_at x) as [b|] eqn:Hb.
  { assert (∀ f, account_effect block f x = x) as Heffect by (intros f; unfold account_effect; by rewrite Hb).
    rewrite Heffect. destruct (decide _), (decide _); rewrite ?Heffect;
      apply account_true_later; try done; unfold is_broken; by rewrite Hb. }
  pose proof Htrue as [Hrange _].
  destruct (decide (event_from event = address)) as [Hfrom|Hfrom].
  - unfold account_effect in Hstrict' |- *. rewrite Hb in Hstrict' |- *.
    destruct (debit _ (amount x)) as [z|] eqn:Hz; unfold debit in Hz;
      destruct (Z.ltb_spec (amount x) (units (event_value event))); try discriminate Hz; try injection Hz as <-.
    + cbn [broken_at amount]. destruct (decide (event_to event = address)) as [Hto|Hto].
      * unfold credit. rewrite (proj2 (Z.ltb_lt _ _)) by lia.
        eapply account_true_moves; [done..|lia|done|]. rewrite !bool_decide_true by done. lia.
      * eapply account_true_moves; [done..|lia|done|].
        rewrite bool_decide_false, bool_decide_true by done. lia.
    + destruct (decide (event_to event = address)); cbn [broken_at amount];
        (apply account_true_breaks; [done|done|by apply Hstrict|split; [done|by left]]).
  - destruct (decide (event_to event = address)) as [Hto|Hto].
    + unfold account_effect. rewrite Hb. destruct (credit _ (amount x)) as [z|] eqn:Hz; unfold credit in Hz;
        destruct (Z.ltb_spec (amount x + units (event_value event)) (2 ^ 256)); try discriminate Hz; try injection Hz as <-.
      * eapply account_true_moves; [done..|lia|done|].
        rewrite bool_decide_true, bool_decide_false by done. lia.
      * apply account_true_breaks; [done|done| |split; [done|by right]].
        by apply Hstrict'.
    + destruct x as [z o] eqn:Hx. cbn in Hb. subst o.
      eapply account_true_moves; [done..|]. cbn. rewrite !bool_decide_false by done. lia.
Qed.

Lemma account_history_true p history accounts token address :
  account_history p history = Ok accounts → follows p address = true →
  account_true p token address history (accounts token address).
Proof.
  unfold account_history. revert accounts. induction history as [|[block event] history IH] using rev_ind; intros accounts.
  - intros [= <-] _. split; [done|]. done.
  - rewrite fold_result_app. intros (mid & Hmid & Hstep)%result_bind_Ok Hf.
    apply result_bind_Ok in Hstep as (last & Hstep & [= <-]). by apply (account_event_true _ _ _ mid); auto.
Qed.

(** ** Theorems *)

Section theorems.
Context `{AlloyLaws, !Hex HE, !Blake3, !Keccak256}.
Context {PE : Type} `{!Display PE, !Postcard PE TransferDelta, !Postcard PE TokenBalanceEntity,
  !Postcard PE Erc20BalanceConfig}.
Context `{!PostcardLaws PE TokenBalanceEntity, !PostcardTotal PE TokenBalanceEntity}.
Context (p : Erc20BalanceProcessor).

Lemma ledgers_keep_empty before : ledgers_keep p before before ∅.
Proof. intros token address. by rewrite lookup_empty. Qed.

Lemma reduce_block cursor delta (d : TransferDelta) v accounts :
  validate_cursor (erc20_descriptor p) cursor delta = Ok () →
  from_bytes (PE:=PE) (delta_payload delta) = Ok d → rows_keep p v accounts →
  match account_block p (cursor_block_number cursor) accounts (events d) with
  | Err failure => run (erc20_reduce p cursor delta) v = (Err (StateError failure), v)
  | Ok accounts' => ∃ changes v', run (erc20_reduce p cursor delta) v = (Ok changes, v')
      ∧ rows_keep p v' accounts' ∧ view_changes v' = view_changes v ++ changes
      ∧ ∃ pairs, Forall2 (publishes_row cursor v' accounts') pairs changes
          ∧ StronglySorted (cmp_le pair_cmp) pairs ∧ NoDup pairs
          ∧ (∀ pair, pair ∈ pairs ↔ concerns p (events d) pair ∧ is_broken (accounts pair.1 pair.2) = false)
          ∧ ∀ pair, pair ∉ pairs → rows_same v v' pair
  end.
Proof.
  intros Hcursor Hd Hrows. pose proof (reduce_events_run p cursor (events d) v accounts accounts ∅ Hrows
    (ledgers_keep_empty _)) as Hevents.
  assert (run (erc20_reduce p cursor delta) v =
    match run (reduce_each (reduce_event p cursor) ∅ (events d)) v with
    | (Ok ledgers, s) => run (reduce_each (write_pair p cursor) [] (map_entries (cmp_le pair_cmp) ledgers)) s
    | (Err e, s) => (Err e, s)
    end) as Hreduce.
  { unfold erc20_reduce. rewrite run_bind, run_pure, Hcursor. rewrite run_bind, run_pure, Hd. cbn [map_err].
    by rewrite run_bind. }
  destruct (account_block _ _ accounts (events d)) as [accounts'|failure].
  - destruct Hevents as (ledgers & Hrun & Hkeep).
    destruct (write_pairs_run p cursor [] (map_entries (cmp_le pair_cmp) ledgers) v (map_entries_NoDup _ _))
      as (changes & v' & Hwrite & Hwritten & Hchanges).
    destruct (written_exact p cursor _ _ _ _ _ _ Hkeep Hwritten Hchanges)
      as (pairs & Hall & Hsorted & Hnodup & Hpairs & Hsame).
    exists changes, v'. split; [by rewrite Hreduce, Hrun|]. split; [by eapply written_keeps|]. split; [done|].
    exists pairs. do 3 (split; [done|]). split; [|done]. intros pair. rewrite Hpairs.
    pose proof (reduce_events_dom p cursor _ _ _ _ _ pair Hrun) as Hdom. rewrite lookup_empty in Hdom.
    rewrite Hdom. split; [intros [[[? [=]]|?] ?]|intros [? ?]]; tauto.
  - by rewrite Hreduce, Hevents.
Qed.

(** C21: The reducer is the ledger arithmetic on exact integers. Where every
    stored row is its pair's account, reducing a block's transfers fails,
    having written nothing, exactly when one breaks the account of an
    allowlisted token declared complete. Otherwise it leaves every followed
    pair's row at the account after the block. It writes exactly the pairs
    the block's transfers concern that were not broken before, and publishes
    the new row of each, once and in the order of token and address, and
    nothing else; every other pair's rows stay as they were. *)
Theorem erc20_reduce_exact cursor delta (d : TransferDelta) v accounts
    (Hcursor : validate_cursor (erc20_descriptor p) cursor delta = Ok ())
    (Hd : from_bytes (PE:=PE) (delta_payload delta) = Ok d) (Hrows : rows_keep p v accounts) :
  match account_block p (cursor_block_number cursor) accounts (events d) with
  | Err failure => run (erc20_reduce p cursor delta) v = (Err (StateError failure), v)
  | Ok accounts' => ∃ changes v', run (erc20_reduce p cursor delta) v = (Ok changes, v')
      ∧ rows_keep p v' accounts' ∧ view_changes v' = view_changes v ++ changes
      ∧ ∃ pairs, Forall2 (publishes_row cursor v' accounts') pairs changes
          ∧ StronglySorted (cmp_le pair_cmp) pairs ∧ NoDup pairs
          ∧ (∀ pair, pair ∈ pairs ↔ concerns p (events d) pair ∧ is_broken (accounts pair.1 pair.2) = false)
          ∧ ∀ pair, pair ∉ pairs → rows_same v v' pair
  end.
Proof. by apply reduce_block. Qed.

(** Blocks reduced one after the other; the events they carried. *)
Fixpoint reduce_blocks (blocks : list (ProcessorCursor * EncodedDelta)) (v : View) : result ProcessorError View :=
  match blocks with
  | [] => Ok v
  | (cursor, delta) :: blocks =>
      match run (erc20_reduce p cursor delta) v with
      | (Ok _, v') => reduce_blocks blocks v'
      | (Err e, _) => Err e
      end
  end.

Definition block_events (block : ProcessorCursor * EncodedDelta) : list (BlockNumber * TransferEvent) :=
  match from_bytes (PE:=PE) (A:=TransferDelta) (delta_payload block.2) with
  | Ok d => (λ event, (cursor_block_number block.1, event)) <$> events d
  | Err _ => []
  end.

Definition history (blocks : list (ProcessorCursor * EncodedDelta)) : list (BlockNumber * TransferEvent) :=
  mjoin (block_events <$> blocks).

Lemma fold_block block accounts l :
  fold_result (λ accounts x, account_event p x.1 accounts x.2) accounts ((λ event, (block, event)) <$> l)
  = account_block p block accounts l.
Proof.
  unfold account_block. revert accounts. induction l as [|event l IH]; intros accounts; [done|].
  cbn. destruct (account_event p block accounts event); [apply IH|done].
Qed.

Lemma reduce_blocks_keeps blocks v v' accounts :
  rows_keep p v accounts → reduce_blocks blocks v = Ok v' →
  ∃ accounts', fold_result (λ accounts x, account_event p x.1 accounts x.2) accounts (history blocks) = Ok accounts'
    ∧ rows_keep p v' accounts'.
Proof.
  revert v accounts. induction blocks as [|[cursor delta] blocks IH]; intros v accounts Hrows; cbn [reduce_blocks].
  { intros [= <-]. by exists accounts. }
  destruct (run (erc20_reduce p cursor delta) v) as [[changes|] v1] eqn:Hrun; [|done]. intros Hrest.
  assert (validate_cursor (erc20_descriptor p) cursor delta = Ok ()
    ∧ ∃ d : TransferDelta, from_bytes (PE:=PE) (delta_payload delta) = Ok d) as [Hcursor [d Hd]].
  { unfold erc20_reduce in Hrun. rewrite run_bind, run_pure in Hrun.
    destruct (validate_cursor _ cursor delta) as [[]|]; [|done]. rewrite run_bind, run_pure in Hrun.
    destruct (from_bytes (A:=TransferDelta) (delta_payload delta)) as [d|]; [|done]. split; [done|by exists d]. }
  pose proof (reduce_block cursor delta d v accounts Hcursor Hd Hrows) as Hblock.
  change (history ((cursor, delta) :: blocks)) with (block_events (cursor, delta) ++ history blocks).
  unfold block_events. cbn [fst snd]. rewrite Hd, fold_result_app, fold_block.
  destruct (account_block _ _ accounts (events d)) as [accounts1|failure]; [|congruence].
  destruct Hblock as (changes' & v2 & Hrun' & Hkeep & _). rewrite Hrun in Hrun'. injection Hrun' as <- <-.
  cbn [mbind result_bind]. by eapply IH.
Qed.

(** C5: Balances are right. After any sequence of blocks reduced from empty
    rows, a followed pair's stored balance is what the pair received less what
    it sent; or the pair is marked with the block of a transfer that cannot be
    applied to the balance derived before it, and the stored balance is that
    one, frozen: this never happens to an allowlisted token declared complete
    from the start. A pair without a row has sent what it received. *)
Theorem balances_exact blocks v v' token address
    (Hempty : ∀ token address, view_state v !! balance_row token address = None)
    (Hrun : reduce_blocks blocks v = Ok v') (Hfollows : follows p address = true) :
  match view_state v' !! balance_row token address with
  | None => received token address (history blocks) = sent token address (history blocks)
  | Some row => ∃ e, from_bytes (PE:=PE) row = Ok e ∧
      match incomplete_from e with
      | None => units (balance e) = received token address (history blocks) - sent token address (history blocks)
      | Some block => strict p token = false ∧ ∃ before event after,
          history blocks = before ++ (block, event) :: after
          ∧ inapplicable token address event (units (balance e))
          ∧ units (balance e) = received token address before - sent token address before
      end
  end.
Proof.
  assert (rows_keep p v (λ _ _, no_account)) as Hrows by (intros t a _; by rewrite Hempty).
  destruct (reduce_blocks_keeps _ _ _ _ Hrows Hrun) as (accounts & Hfold & Hkeep).
  destruct (account_history_true p _ accounts token address Hfold Hfollows) as [_ Htrue].
  specialize (Hkeep token address Hfollows). unfold row_keeps in Hkeep.
  destruct (view_state v' !! balance_row token address) as [row|].
  - destruct Hkeep as (e & He & Ha & Hb). exists e. split; [done|]. by rewrite Ha, Hb.
  - rewrite Hkeep in Htrue. cbn in Htrue. lia.
Qed.

End theorems.

(** ** What is mapped *)

Section mapping.
Context `{!Keccak256}.

(** An address as a log topic. *)
Definition address_topic (a : Address) : array 32 :=
  (replicate 12 x00 ++ bytes_of a) ↾
    eq_trans (length_app _ _) (f_equal2 Nat.add (length_replicate 12 x00) (length_bytes_of a)).

Lemma zeros_prefix l : existsb (λ byte, negb (bool_decide (byte = x00))) l = false → l = replicate (length l) x00.
Proof.
  induction l as [|b l IH]; [done|]. cbn [existsb length replicate].
  intros [Hb%negb_false_iff%bool_decide_eq_true Hl]%orb_false_iff. rewrite Hb. f_equal. by apply IH.
Qed.

Lemma topic_address_Some topic a : topic_address topic = Some a ↔ topic = address_topic a.
Proof.
  unfold topic_address. split.
  - destruct (existsb _ _) eqn:Hz; [done|]. apply zeros_prefix in Hz. intros Ha%array_of_Some.
    apply bytes_of_inj. change (bytes_of (address_topic a)) with (replicate 12 x00 ++ bytes_of a).
    rewrite <-(take_drop 12 (bytes_of topic)), Ha, Hz, length_take, length_bytes_of. done.
  - intros ->. change (bytes_of (address_topic a)) with (replicate 12 x00 ++ bytes_of a).
    rewrite take_app_length', drop_app_length' by done. cbn [existsb replicate]. cbn. by apply array_of_Some.
Qed.

Lemma transfer_fields_Some log from to value :
  transfer_fields log = Some (from, to, value) ↔
  (∃ signature, log_topics log = [signature; address_topic from; address_topic to]) ∧ log_data log = bytes_of value.
Proof.
  unfold transfer_fields. split.
  - destruct (log_topics log) as [|s [|f [|t []]]]; try done.
    intros (f' & ->%topic_address_Some & Hr)%bind_Some.
    apply bind_Some in Hr as (t' & ->%topic_address_Some & Hr).
    apply bind_Some in Hr as (v & Hv%array_of_Some & [= <- <- <-]). split; [by exists s|done].
  - intros [[s ->] Hd]. rewrite !(proj2 (topic_address_Some _ _) eq_refl). cbn.
    by rewrite (proj2 (array_of_Some _ value) Hd).
Qed.

(** The contracts whose transfers are read: the allowlisted ones, or without
    an allowlist all but the emitter of ether transfers. *)
Definition reads_token (p : Erc20BalanceProcessor) (token : Address) : Prop :=
  token ∈ tokens p ∨ (tokens p = ∅ ∧ token ≠ ETH_TRANSFER_EMITTER).

Lemma passes_over_false p log :
  passes_over p log = false ↔ head (log_topics log) = Some transfer_topic ∧ reads_token p (log_address log).
Proof.
  unfold passes_over, reads_token. rewrite !orb_false_iff, !andb_false_iff, !negb_false_iff, !bool_decide_eq_true,
    bool_decide_eq_false.
  destruct (decide (log_address log ∈ tokens p)) as [Hin|Hin]; [|naive_solver].
  split; [naive_solver|]. intros [Hh _]. split; [split; [done|by right]|by right].
Qed.

Definition log_event (p : Erc20BalanceProcessor) (log : Log) : option TransferEvent :=
  if passes_over p log then None
  else '(from, to, value) ← transfer_fields log;
       if negb (bool_decide (from ∈ watched p)) && negb (bool_decide (to ∈ watched p)) then None
       else Some (MkTransfer (log_address log) from to value (log_index log)).

Definition skips (p : Erc20BalanceProcessor) (log : Log) : bool :=
  negb (passes_over p log) && match transfer_fields log with None => true | Some _ => false end.

Lemma map_logs p logs state : 0 ≤ state.2 ≤ u32_max →
  foldl (map_log p) state logs =
    (state.1 ++ omap (log_event p) logs, Z.min u32_max (state.2 + Z.of_nat (length (List.filter (skips p) logs)))).
Proof.
  revert state. induction logs as [|log logs IH]; intros [events skipped] Hs; cbn [fst snd] in *.
  { cbn. rewrite app_nil_r. f_equal. lia. }
  cbn [foldl omap list_omap List.filter]. unfold map_log at 2, log_event at 1, skips at 1.
  destruct (passes_over p log); cbn [negb andb]; [by rewrite IH|].
  destruct (transfer_fields log) as [[[from to] value]|]; cbn [mbind option_bind].
  - destruct (negb (bool_decide (from ∈ watched p)) && negb (bool_decide (to ∈ watched p))); [by rewrite IH|].
    rewrite IH by done. cbn [fst snd]. by rewrite <-app_assoc.
  - rewrite IH by (cbn [snd]; uints). cbn [fst snd length]. f_equal. lia.
Qed.

(** A log is the canonical encoding of a transfer that is read: three topics
    under the transfer signature with zero-padded addresses, 32 bytes of
    data, a contract that is read and a watched side. *)
Definition canonical (log : Log) (from to : Address) (value : Quantity) : Prop :=
  log_topics log = [transfer_topic; address_topic from; address_topic to] ∧ log_data log = bytes_of value.
Definition reads (p : Erc20BalanceProcessor) (log : Log) (event : TransferEvent) : Prop :=
  log_address log = event_token event ∧ log_index log = event_log_index event
  ∧ canonical log (event_from event) (event_to event) (event_value event)
  ∧ reads_token p (event_token event) ∧ (event_from event ∈ watched p ∨ event_to event ∈ watched p).

(** It has the signature, of a contract that is read, but no such encoding. *)
Definition malformed (p : Erc20BalanceProcessor) (log : Log) : Prop :=
  head (log_topics log) = Some transfer_topic ∧ reads_token p (log_address log)
  ∧ ¬ ∃ from to value, canonical log from to value.

Lemma canonical_fields log from to value :
  canonical log from to value ↔ head (log_topics log) = Some transfer_topic ∧ transfer_fields log = Some (from, to, value).
Proof.
  unfold canonical. rewrite transfer_fields_Some. split.
  - intros [-> Hd]. split; [done|]. split; [by eexists|done].
  - intros [Hhead [[signature Ht] Hd]]. rewrite Ht in Hhead |- *. cbn in Hhead. split; [congruence|done].
Qed.

Lemma log_event_Some p log event : log_event p log = Some event ↔ reads p log event.
Proof.
  unfold log_event, reads. rewrite canonical_fields. destruct (passes_over p log) eqn:Hp.
  - split; [done|]. intros (Ha & _ & [Hhead _] & Hreads & _).
    enough (passes_over p log = false) by congruence. apply passes_over_false. by rewrite Ha.
  - apply passes_over_false in Hp as [Hhead Hreads].
    destruct (transfer_fields log) as [[[from to] value]|]; cbn; [|naive_solver].
    destruct (negb _ && negb _) eqn:Hw.
    + apply andb_true_iff in Hw as [Hfrom%negb_true_iff%bool_decide_eq_false Hto%negb_true_iff%bool_decide_eq_false].
      split; [done|]. intros (_ & _ & [_ [= -> -> ->]] & _ & [?|?]); done.
    + apply andb_false_iff in Hw. rewrite !negb_false_iff, !bool_decide_eq_true in Hw. split.
      * intros [= <-]. cbn. by split_and!.
      * intros (Ha & Hi & [_ [= -> -> ->]] & _). rewrite Ha, Hi. by destruct event.
Qed.

Lemma skips_true p log : skips p log = true ↔ malformed p log.
Proof.
  unfold skips, malformed. rewrite andb_true_iff, negb_true_iff, passes_over_false. setoid_rewrite canonical_fields.
  destruct (transfer_fields log) as [[[from to] value]|]; [|naive_solver].
  split; [by intros [_ ?]|]. intros (Hhead & _ & Hnone). destruct Hnone. by exists from, to, value.
Qed.

Lemma log_event_skips p log event : log_event p log = Some event → skips p log = false.
Proof.
  unfold log_event, skips. destruct (passes_over p log); [done|]. by destruct (transfer_fields log).
Qed.

(** C31: The delta of a block holds exactly the canonical transfers of the
    contracts that are read with a watched side, each log once, in the order
    of their log index. Of the logs left, exactly those of a read contract
    with the signature that are not canonical are counted, up to the largest
    32-bit count. *)
Theorem transfers_exact p logs :
  ∃ taken counted others, logs ≡ₚ taken ++ counted ++ others
  ∧ Forall2 (reads p) taken (events (transfers p logs))
  ∧ Forall (malformed p) counted ∧ skipped_logs (transfers p logs) = Z.min u32_max (Z.of_nat (length counted))
  ∧ Forall (λ log, ¬ malformed p log ∧ ¬ ∃ event, reads p log event) others
  ∧ StronglySorted (λ a b, event_log_index a ≤ event_log_index b) (events (transfers p logs)).
Proof.
  unfold transfers. rewrite map_logs by done. cbn [fst snd events skipped_logs app].
  set (leb := λ a b, event_log_index a <=? event_log_index b).
  destruct (omap_split (log_event p) logs) as (picked & rest & Hperm & Hpicked & Hrest).
  destruct (Permutation_Forall2 (P:=flip (λ log event, log_event p log = Some event))
    (symmetry (sort_by_perm leb (omap (log_event p) logs))) (proj2 (Forall2_flip _ _ _) Hpicked)) as (taken & Htaken & Hall).
  exists taken, (List.filter (skips p) rest), (List.filter (λ log, negb (skips p log)) rest).
  assert (List.filter (skips p) logs ≡ₚ List.filter (skips p) rest) as Hcounted.
  { rewrite Hperm, List.filter_app, filter_none; [done|]. intros log Hin.
    apply list_elem_of_lookup in Hin as [i Hi]. destruct (Forall2_lookup_l _ _ _ _ _ Hpicked Hi) as (event & _ & He).
    by eapply log_event_skips. }
  split; [by rewrite <-filter_partition, <-Htaken|]. split; [|split; [|split; [|split]]].
  - apply Forall2_flip in Hall. eapply Forall2_weaken; [exact Hall|]. intros log event _. apply log_event_Some.
  - apply Forall_forall. intros log [_ Hs]%elem_of_filter_list. by apply skips_true.
  - by rewrite Hcounted.
  - rewrite Forall_forall in Hrest |- *. intros log [Hin Hs%negb_true_iff]%elem_of_filter_list. split.
    + intros ?%skips_true. congruence.
    + intros (event & He%log_event_Some). by rewrite Hrest in He.
  - eapply StronglySorted_weaken; [|apply (sort_by_sorted leb)].
    + intros a b _ _. unfold leb. apply Z.leb_le.
    + intros a b. unfold leb. rewrite !Z.leb_le. lia.
    + intros a b c. unfold leb. rewrite !Z.leb_le. lia.
Qed.

End mapping.
