(* ===== verification/Inverse.v ===== *)
(** * Inverse changes

    Models [build_inverse_changes] of [crates/store-sqlite/src/lib.rs]: the
    changes a store publishes when it undoes a block, derived from the
    block's own changes and the preimages of its mutations, and what they do
    to a consumer. *)
From Stdlib Require Import ZArith Lia Strings.Byte.
From stdpp Require Import gmap strings list list_numbers fin_maps pretty.
From S2P Require Import Prelude Bytes Chain Capability Provenance Frame Durable Descriptor Delta Rows.

(** A mutation's key and images, as the function lists them. *)
Definition KeyImages : Type := list byte * option (list byte) * option (list byte).

Definition output_entities (ms : list Mutation) : list KeyImages :=
  omap (λ m, match m with MutEntity _ key before after => Some (key, before, after) | _ => None end) ms.
Definition working_state (ms : list Mutation) : list KeyImages :=
  omap (λ m, match m with MutState _ key before after => Some (key, before, after) | _ => None end) ms.

(** The closure [matching]. *)
Definition matching (change : DomainChange) (images : KeyImages) : bool :=
  let '(key, _, after) := images in
  bool_decide (key = change_key change) &&
  match change_operation change with
  | Upsert => bool_decide (after = Some (change_payload change))
  | Delete => negb (bool_decide (is_Some after))
  end.

Definition created (change : DomainChange) (images : KeyImages) : bool :=
  let '(key, before, after) := images in
  bool_decide (key = change_key change) && negb (bool_decide (is_Some before)) &&
  bool_decide (is_Some after).

(** Entities first, working state where no entity matches. *)
Definition matches (ms : list Mutation) (change : DomainChange) : list KeyImages :=
  let entities := List.filter (matching change) (output_entities ms) in
  match entities with [] => List.filter (matching change) (working_state ms) | _ => entities end.

Definition inverse_error (change : DomainChange) (count : nat) : StoreError :=
  StoreInvariant ("change " +:+ change_kind change +:+ " has " +:+ pretty count +:+
    " matching state mutations; expected one").

(** One iteration of the loop. *)
Definition invert_change (ms : list Mutation) (change : DomainChange) : result StoreError DomainChange :=
  let found := matches ms change in
  let created := List.filter (created change) (output_entities ms ++ working_state ms) in
  if (bool_decide (found = []) && bool_decide (change_operation change = Upsert) &&
      (length created =? 1)%nat)
  then Ok (MkChange (change_kind change) (change_key change) Delete [])
  else
    match found with
    | [(_, before, _)] =>
        Ok (MkChange (change_kind change) (change_key change)
          (if bool_decide (is_Some before) then Upsert else Delete) (default [] before))
    | _ => Err (inverse_error change (length found))
    end.

Definition build_inverse_changes (batch : MutationBatch) : result StoreError (list DomainChange) :=
  fold_result (λ output change, i ← invert_change (mutations batch) change; Ok (output ++ [i])) []
    (rev (changes batch)).

Example inverse_update :
  build_inverse_changes (MkBatch [MutEntity "c" [x01] (Some [x0a]) (Some [x0b])]
    [MkChange "e" [x01] Upsert [x0b]]) = Ok [MkChange "e" [x01] Upsert [x0a]].
Proof. reflexivity. Qed.
Example inverse_mismatch :
  build_inverse_changes (MkBatch [MutEntity "c" [x01] (Some [x0a]) (Some [x0b])]
    [MkChange "e" [x01] Delete []]) =
  Err (StoreInvariant "change e has 0 matching state mutations; expected one").
Proof. reflexivity. Qed.

(** ** What a consumer holds *)

(** The value a change gives its key. *)
Definition change_value (change : DomainChange) : option (list byte) :=
  match change_operation change with Upsert => Some (change_payload change) | Delete => None end.
Definition change_target (change : DomainChange) : string * list byte :=
  (change_kind change, change_key change).

(** A consumer keeps the latest value of every kind and key. *)
Definition deliver (v : gmap (string * list byte) (list byte)) (change : DomainChange)
    : gmap (string * list byte) (list byte) :=
  set_key (change_target change) (change_value change) v.

(** ** The preimage found *)

Lemma elem_of_output_entities ms key before after :
  (key, before, after) ∈ output_entities ms ↔ ∃ c, MutEntity c key before after ∈ ms.
Proof.
  unfold output_entities. rewrite list_elem_of_omap. split.
  - intros ([] & ? & ?); naive_solver.
  - intros [c ?]. by exists (MutEntity c key before after).
Qed.

Lemma matching_spec change key before after :
  matching change (key, before, after) = true ↔ key = change_key change ∧ after = change_value change.
Proof.
  unfold matching, change_value. rewrite andb_true_iff, bool_decide_eq_true.
  destruct (change_operation change); [by rewrite bool_decide_eq_true|].
  rewrite negb_true_iff, bool_decide_eq_false. by rewrite <-eq_None_not_Some.
Qed.

Lemma singleton_of_length {A} (l : list A) x : x ∈ l → length l = 1%nat → l = [x].
Proof. destruct l as [|y []]; try done. intros ->%list_elem_of_singleton _. done. Qed.

(** A change that carries an entity's after-image, when it is inverted, is
    inverted to the entity's preimage. *)
Lemma invert_exact ms change inverse c before :
  invert_change ms change = Ok inverse →
  MutEntity c (change_key change) before (change_value change) ∈ ms →
  change_target inverse = change_target change ∧ change_value inverse = before.
Proof.
  intros Hi Hin.
  assert ((change_key change, before, change_value change) ∈
    List.filter (matching change) (output_entities ms)) as Hf.
  { apply elem_of_filter_list. rewrite matching_spec, elem_of_output_entities. eauto. }
  unfold invert_change, matches in Hi.
  destruct (List.filter (matching change) (output_entities ms)) as [|y l]; [by apply elem_of_nil in Hf|].
  rewrite bool_decide_eq_false_2 in Hi by done. cbn [andb] in Hi.
  destruct l as [|z l]; [|by destruct y as [[]]]. apply list_elem_of_singleton in Hf as <-.
  injection Hi as <-. split; [done|]. unfold change_value. cbn. by destruct before.
Qed.

(** So is the change of a created entity whose key no other mutation of the
    batch has, whatever it carries. *)
Definition sole_key (ms : list Mutation) (key : list byte) : Prop :=
  length (List.filter (λ i : KeyImages, bool_decide (i.1.1 = key)) (output_entities ms ++ working_state ms)) = 1%nat.

Lemma sole_key_eq ms key i j :
  sole_key ms key → i ∈ output_entities ms ++ working_state ms →
  j ∈ output_entities ms ++ working_state ms → i.1.1 = key → j.1.1 = key → i = j.
Proof.
  unfold sole_key. intros Hl Hi Hj Hki Hkj. set (l := List.filter _ _) in Hl.
  assert (i ∈ l) as Hi' by (apply elem_of_filter_list; by rewrite bool_decide_eq_true).
  assert (j ∈ l) as Hj' by (apply elem_of_filter_list; by rewrite bool_decide_eq_true).
  rewrite (singleton_of_length l i Hi' Hl) in Hj'. by apply list_elem_of_singleton in Hj'.
Qed.

Lemma elem_of_matches ms change i :
  i ∈ matches ms change → i ∈ output_entities ms ++ working_state ms ∧ matching change i = true.
Proof.
  unfold matches. rewrite elem_of_app.
  destruct (List.filter (matching change) (output_entities ms)) as [|y l] eqn:Hl;
    [|rewrite <-Hl]; rewrite elem_of_filter_list; tauto.
Qed.

Lemma invert_created ms change inverse c after :
  invert_change ms change = Ok inverse → sole_key ms (change_key change) →
  MutEntity c (change_key change) None (Some after) ∈ ms →
  change_target inverse = change_target change ∧ change_value inverse = None.
Proof.
  intros Hi Hsole Hin.
  assert ((change_key change, None, Some after) ∈ output_entities ms ++ working_state ms) as Hm
    by (apply elem_of_app; left; apply elem_of_output_entities; eauto).
  unfold invert_change in Hi. destruct (_ && _ && _) in Hi; [by injection Hi as <-|].
  destruct (matches ms change) as [|[[k b] a] []] eqn:Hf; [done| |by destruct l].
  injection Hi as <-. split; [done|].
  assert ((k, b, a) ∈ matches ms change) as [Hm' Hk]%elem_of_matches by (rewrite Hf; by left).
  apply matching_spec in Hk as [-> _].
  pose proof (sole_key_eq _ _ _ _ Hsole Hm Hm' eq_refl eq_refl) as [= <- _]. done.
Qed.

(** What [ReducerTransaction::emit] asks of a change: it carries the key's
    value after the block, or belongs to an entity the block creates, whose
    key it alone writes. *)
Definition describes (collection : string → string) (ms : list Mutation) (change : DomainChange) : Prop :=
  (∃ before, MutEntity (collection (change_kind change)) (change_key change) before (change_value change) ∈ ms) ∨
  (∃ after, MutEntity (collection (change_kind change)) (change_key change) None (Some after) ∈ ms ∧
    sole_key ms (change_key change)).

(** An inverse is the entity's row of before the block. *)
Lemma invert_change_row collection t ms change inverse :
  consistent true (core t) ms → NoDup (entity_keys ms) →
  describes collection ms change → invert_change ms change = Ok inverse →
  change_target inverse = change_target change ∧
  change_value inverse = entities t !! MkEntityKey (collection (change_kind change)) (change_key change).
Proof.
  intros Hcons Hnd [[before Hin]|(after & Hin & Hsole)] Hi.
  - pose proof (consistent_before _ _ _ _ _ _ _ _ Hcons Hnd Hin) as ->. by eapply invert_exact.
  - pose proof (consistent_before _ _ _ _ _ _ _ _ Hcons Hnd Hin) as ->. by eapply invert_created.
Qed.

(** ** Delivery *)

#[local] Arguments deliver : simpl never.

Lemma deliver_fold_untouched (l : list DomainChange) (v : gmap (string * list byte) (list byte)) k :
  k ∉ change_target <$> l → fold_left deliver l v !! k = v !! k.
Proof.
  revert v; induction l as [|c l IH]; intros v; cbn; [done|]. rewrite not_elem_of_cons.
  intros [Hk Hl]. rewrite IH by done. unfold deliver. rewrite lookup_set_key. by rewrite decide_False.
Qed.

(** Changes that agree with [w] on their own keys. *)
Lemma deliver_fold_agrees (l : list DomainChange) (v w : gmap (string * list byte) (list byte)) k :
  Forall (λ c, change_value c = w !! change_target c) l →
  k ∈ change_target <$> l → fold_left deliver l v !! k = w !! k.
Proof.
  intros Hl. revert v; induction Hl as [|c l Hc Hl IH]; intros v; cbn; [by intros ?%elem_of_nil|].
  intros Hk. destruct (decide (k ∈ change_target <$> l)) as [|Hn]; [by apply IH|].
  apply elem_of_cons in Hk as [->|]; [|done]. rewrite deliver_fold_untouched by done.
  unfold deliver. rewrite lookup_set_key. by rewrite decide_True.
Qed.

(** The loop: one inverse per change, last change first. *)
Lemma inverse_loop ms l output out :
  fold_result (λ output change, i ← invert_change ms change; Ok (output ++ [i])) output l = Ok out →
  ∃ inv, out = output ++ inv ∧ Forall2 (λ c i, invert_change ms c = Ok i) l inv.
Proof.
  revert output; induction l as [|c l IH]; intros output; cbn.
  - intros [= <-]. exists []. by rewrite app_nil_r.
  - intros (output1 & (i & Hi & [= <-])%result_bind_Ok & (inv & -> & Hinv)%IH)%result_bind_Ok.
    exists (i :: inv). split; [by rewrite <-app_assoc|by constructor].
Qed.

Lemma build_inverse_changes_Ok batch inv :
  build_inverse_changes batch = Ok inv →
  Forall2 (λ c i, invert_change (mutations batch) c = Ok i) (rev (changes batch)) inv.
Proof. intros Hb. apply inverse_loop in Hb as (inv' & -> & Hinv). done. Qed.

(** C39: undo of what was delivered. A block's changes describe its entity
    mutations as the reducer contract asks, and a consumer holds, at the keys
    they name, the rows of before the block. If inverse changes are built,
    delivering the block's changes and then the inverse changes leaves the
    consumer with exactly what it held, whatever it has in between and
    however often a key is named. *)
Theorem inverse_changes_restore collection t batch inv v
    (Hcons : consistent true (core t) (mutations batch))
    (Hkeys : NoDup (entity_keys (mutations batch)))
    (Hdesc : Forall (describes collection (mutations batch)) (changes batch))
    (Hmirror : Forall (λ c, v !! change_target c =
       entities t !! MkEntityKey (collection (change_kind c)) (change_key c)) (changes batch))
    (Hbuild : build_inverse_changes batch = Ok inv) :
  fold_left deliver (changes batch ++ inv) v = v.
Proof.
  apply build_inverse_changes_Ok in Hbuild.
  assert (Forall2 (λ c i, change_target i = change_target c ∧ change_value i = v !! change_target c)
    (rev (changes batch)) inv) as Hinv.
  { apply Forall_rev in Hdesc, Hmirror. revert Hdesc Hmirror. clear -Hbuild Hcons Hkeys.
    induction Hbuild as [|c i l inv Hc Hl IH]; [constructor|].
    intros [Hd Hdesc]%Forall_cons [Hm Hmirror]%Forall_cons. constructor; [|by apply IH].
    rewrite Hm. by eapply invert_change_row. }
  assert (Forall (λ i, change_value i = v !! change_target i) inv) as Hagree.
  { clear -Hinv. induction Hinv as [|c i l inv [Ht Hv] Hl IH]; constructor; [by rewrite Ht|done]. }
  assert (∀ k, k ∈ change_target <$> inv ↔ k ∈ change_target <$> changes batch) as Htargets.
  { intros k. transitivity (k ∈ change_target <$> rev (changes batch));
      [|by rewrite <-(Permutation_rev (changes batch))].
    enough (change_target <$> inv = change_target <$> rev (changes batch)) as ->; [done|].
    clear -Hinv. induction Hinv as [|c i l inv [Ht Hv] Hl IH]; cbn; [done|]. by rewrite Ht, IH. }
  rewrite fold_left_app. apply map_eq. intros k.
  destruct (decide (k ∈ change_target <$> inv)) as [Hk|Hk]; [by apply deliver_fold_agrees|].
  rewrite deliver_fold_untouched by done. apply deliver_fold_untouched. by rewrite <-Htargets.
Qed.

Lemma inverse_changes_restore_witness :
  let change := MkChange "e" [x01] Upsert [x0b] in
  let v := {[ ("e"%string, [x01]) := [x0a]; ("f"%string, [x02]) := [x0c] ]} : gmap (string * list byte) (list byte) in
  build_inverse_changes (MkBatch [MutEntity "c" [x01] (Some [x0a]) (Some [x0b])] [change]) =
    Ok [MkChange "e" [x01] Upsert [x0a]] ∧
  fold_left deliver ([change] ++ [MkChange "e" [x01] Upsert [x0a]]) v = v.
Proof.
  cbn zeta. split; [reflexivity|].
  apply (inverse_changes_restore (λ _, "c"%string) sample_tables
    (MkBatch [MutEntity "c" [x01] (Some [x0a]) (Some [x0b])] [MkChange "e" [x01] Upsert [x0b]])).
  - cbn. split; [intros _; reflexivity|exact I].
  - apply (bool_decide_unpack (NoDup (entity_keys [MutEntity "c" [x01] (Some [x0a]) (Some [x0b])]))).
    vm_compute. exact I.
  - constructor; [|constructor]. left. exists (Some [x0a]). by left.
  - constructor; [|constructor]. vm_compute. reflexivity.
  - reflexivity.
Defined.
