(* ===== verification/Window.v ===== *)
(** * Output windows

    Models [prune_output_window] and [delete_pruned_output] of
    [crates/store-sqlite/src/lib.rs]: after a block is applied, finalized
    output that fell out of the processor's window is deleted, and what was
    deleted becomes part of the block's undo record. *)
From Stdlib Require Import ZArith Lia Strings.Byte.
From stdpp Require Import gmap strings list list_numbers fin_maps sorting.
From S2P Require Import Prelude Bytes Chain Capability Provenance Frame Durable Descriptor Delta Rows Scan Overlay.

(** Output rows one pass deletes at most. *)
Definition OUTPUT_PRUNE_BATCH : nat := N.to_nat 10000.

Record PrunedOutput := MkPruned {
  pruned_mutations : list Mutation;
  pruned_entities : list EntityMetaImage;
}.

(** ** Rows and their orders *)

Definition image_of (row : EntityKey * EntityMeta) : EntityMetaImage :=
  MkImage (key_collection row.1) (key_bytes row.1) row.2.

(** The rows of [output_entity_meta]. *)
Definition meta_rows (t : Tables) : list EntityMetaImage :=
  image_of <$> map_entries (cmp_le entity_key_cmp) (output_entity_meta t).

Definition im_number (im : EntityMetaImage) : Z := meta_block_number (image_meta im).
Definition im_written (im : EntityMetaImage) : Z := written_at_unix_ms (image_meta im).
Definition im_finalized (im : EntityMetaImage) : bool :=
  bool_decide (meta_finality (image_meta im) = Finalized).

(** [ORDER BY block_number, written_at_unix_ms, collection, entity_key]. *)
Definition age_cmp (x y : EntityMetaImage) : comparison :=
  then_with (im_number x ?= im_number y)
    (then_with (im_written x ?= im_written y)
      (then_with (string_cmp (image_collection x) (image_collection y))
        (bytes_cmp (image_key x) (image_key y)))).

(** [ORDER BY block_number, written_at_unix_ms, entity_key]. *)
Definition collection_age_cmp (x y : EntityMetaImage) : comparison :=
  then_with (im_number x ?= im_number y)
    (then_with (im_written x ?= im_written y) (bytes_cmp (image_key x) (image_key y))).

(** [ORDER BY collection, block_number]. *)
Definition collection_cmp (x y : EntityMetaImage) : comparison :=
  then_with (string_cmp (image_collection x) (image_collection y)) (im_number x ?= im_number y).

(** ** Candidates *)

Definition after_collection (after : string) (im : EntityMetaImage) : bool :=
  match string_cmp after (image_collection im) with Lt => true | _ => false end.

(** [OUTPUT_NEXT_COLLECTION]. *)
Definition next_collection (t : Tables) (after : string) : option (string * Z) :=
  (λ im, (image_collection im, im_number im)) <$>
    head (sort_by (cmp_leb collection_cmp) (List.filter (after_collection after) (meta_rows t))).

(** [OUTPUT_EXPIRED_ROWS]. *)
Definition expired_rows (t : Tables) (collection : string) (retained_from : Z) : list EntityMetaImage :=
  take OUTPUT_PRUNE_BATCH (sort_by (cmp_leb collection_age_cmp)
    (List.filter (λ im, bool_decide (image_collection im = collection) &&
       (im_number im <? retained_from) && im_finalized im) (meta_rows t))).

(** The loop over collections. Each round passes a collection, so the number
    of rows bounds the rounds. *)
Fixpoint expired_loop (fuel : nat) (t : Tables) (retained_from : Z) (after : string)
    (candidates : list EntityMetaImage) : result StoreError (list EntityMetaImage) :=
  match fuel with
  | O => Ok candidates
  | S fuel =>
      match next_collection t after with
      | None => Ok candidates
      | Some (collection, earliest) =>
          rows ← (if earliest <? retained_from
                  then _ ← u64_i64 retained_from "output window start";
                       Ok (expired_rows t collection retained_from)
                  else Ok []);
          expired_loop fuel t retained_from collection (candidates ++ rows)
      end
  end.

(** The rows of the other limits: the oldest finalized output. *)
Definition oldest_finalized (t : Tables) : list EntityMetaImage :=
  take OUTPUT_PRUNE_BATCH (sort_by (cmp_leb age_cmp) (List.filter im_finalized (meta_rows t))).

(** The loop of the byte limit. *)
Fixpoint take_bytes (excess : Z) (rows : list EntityMetaImage) : list EntityMetaImage :=
  match rows with
  | [] => []
  | row :: rows =>
      if excess =? 0 then []
      else row :: take_bytes (sat_sub excess (value_bytes (image_meta row))) rows
  end.

Section prune.
Context (now : result StoreError Z).

Definition block_candidates (t : Tables) (current_block : BlockRef) (max_blocks : Z)
    : result StoreError (list EntityMetaImage) :=
  let retained_from := sat_sub (sat_add (ref_number current_block) 1) max_blocks in
  candidates ← expired_loop (S (length (meta_rows t))) t retained_from EmptyString [];
  Ok (take OUTPUT_PRUNE_BATCH (sort_by (cmp_leb age_cmp) candidates)).

Definition window_candidates (t : Tables) (current_block : BlockRef) (window : OutputWindow)
    : result StoreError (list EntityMetaImage) :=
  match window_max_blocks window with
  | Some max_blocks => block_candidates t current_block max_blocks
  | None =>
      let rows := oldest_finalized t in
      match window_max_age_seconds window with
      | Some max_age_seconds =>
          now ← now;
          age ← u64_i64 (sat_mul max_age_seconds 1000) "output maximum age";
          let cutoff := Z.max i64_min (now - age) in
          Ok (List.filter (λ im, im_written im <? cutoff) rows)
      | None =>
          match window_max_rows window with
          | Some max_rows =>
              let excess := sat_sub (Z.of_nat (size (entities t))) max_rows in
              Ok (take (Z.to_nat (Z.min excess (Z.of_nat (length rows)))) rows)
          | None =>
              match window_max_bytes window with
              | Some max_bytes =>
                  let total := Z_sum ((λ im, value_bytes (image_meta im)) <$> meta_rows t) in
                  if i64_max <? total then Err (Sqlx "integer overflow")
                  else Ok (take_bytes (sat_sub total max_bytes) rows)
              | None => Ok []
              end
          end
      end
  end.

(** ** Deletion *)

(** One candidate: [DELETE .. RETURNING value]. *)
Definition delete_candidate (state : Tables * PrunedOutput) (im : EntityMetaImage)
    : Tables * PrunedOutput :=
  let '(t, pruned) := state in
  let k := MkEntityKey (image_collection im) (image_key im) in
  match entities t !! k with
  | Some value =>
      (with_entities t (delete k (entities t)) (delete k (output_entity_meta t)),
       MkPruned (pruned_mutations pruned ++
           [MutEntity (image_collection im) (image_key im) (Some value) None])
         (pruned_entities pruned ++ [im]))
  | None => (t, pruned)
  end.

(** Index entries whose entity key no entity has, in primary-key order. *)
Definition orphaned (t : Tables) : list IndexKey :=
  List.filter (λ i, forallb (λ e, negb (bool_decide (key_bytes e.1 = index_entity_key i)))
      (map_to_list (entities t)))
    (merge_sort (cmp_le index_key_cmp) (elements (entity_indexes t))).

Definition delete_pruned_output (t : Tables) (candidates : list EntityMetaImage)
    : Tables * PrunedOutput :=
  match candidates with
  | [] => (t, MkPruned [] [])
  | _ =>
      let '(t, pruned) := fold_left delete_candidate candidates (t, MkPruned [] []) in
      let orphans := orphaned t in
      (with_indexes t (entity_indexes t ∖ list_to_set orphans),
       MkPruned (pruned_mutations pruned ++
           ((λ i, MutIndex (key_index i) (index_key_bytes i) (index_entity_key i) true false) <$> orphans))
         (pruned_entities pruned))
  end.

Definition prune_output_window (d : ProcessorDescriptor) (t : Tables) (current_block : BlockRef)
    : result StoreError (Tables * PrunedOutput) :=
  match output_mode (lifecycle_output (lifecycle d)) with
  | OutputWindowed =>
      window ← ok_or (output_window (lifecycle_output (lifecycle d)))
        (StoreInvariant "window output policy is missing its bound");
      candidates ← window_candidates t current_block window;
      Ok (delete_pruned_output t candidates)
  | _ => Ok (t, MkPruned [] [])
  end.
End prune.

(** ** The rows *)

#[export] Instance age_comparator : Comparator age_cmp.
Proof.
  apply then_comparator; [|apply then_comparator; [|apply then_comparator]].
  - apply (on_comparator im_number Z.compare), _.
  - apply (on_comparator im_written Z.compare), _.
  - apply (on_comparator image_collection string_cmp), _.
  - apply (on_comparator image_key bytes_cmp), _.
Qed.
#[export] Instance collection_age_comparator : Comparator collection_age_cmp.
Proof.
  apply then_comparator; [|apply then_comparator].
  - apply (on_comparator im_number Z.compare), _.
  - apply (on_comparator im_written Z.compare), _.
  - apply (on_comparator image_key bytes_cmp), _.
Qed.
#[export] Instance collection_comparator : Comparator collection_cmp.
Proof.
  apply then_comparator.
  - apply (on_comparator image_collection string_cmp), _.
  - apply (on_comparator im_number Z.compare), _.
Qed.

Lemma elem_of_meta_rows t im :
  im ∈ meta_rows t ↔ output_entity_meta t !! image_entity im = Some (image_meta im).
Proof.
  unfold meta_rows. rewrite list_elem_of_fmap. split.
  - intros ([[c k] m] & -> & Hin%elem_of_map_entries). done.
  - intros Hm. exists (image_entity im, image_meta im). split; [by destruct im|].
    by apply elem_of_map_entries.
Qed.

Lemma meta_rows_NoDup t : NoDup (image_entity <$> meta_rows t).
Proof.
  unfold meta_rows. rewrite <-list_fmap_compose.
  rewrite (list_fmap_ext _ fst); [apply map_entries_NoDup|]. by intros _ [[c k] m] _.
Qed.

Lemma meta_rows_key t x y :
  x ∈ meta_rows t → y ∈ meta_rows t → image_entity x = image_entity y → x = y.
Proof.
  rewrite !elem_of_meta_rows. intros Hx Hy Heq. destruct x, y. unfold image_entity in *. cbn in *.
  congruence.
Qed.

(** Rows no order tells apart are one row. *)
Lemma age_le_antisym t x y :
  x ∈ meta_rows t → y ∈ meta_rows t →
  cmp_leb age_cmp x y = true → cmp_leb age_cmp y x = true → x = y.
Proof.
  intros Hx Hy Hxy Hyx. apply (meta_rows_key t); [done..|].
  unfold cmp_leb in *. rewrite (cmp_antisym (cmp:=age_cmp) x y) in Hyx.
  destruct (age_cmp x y) eqn:Heq; [|done..]. clear Hxy Hyx. unfold age_cmp in Heq.
  destruct (im_number x ?= im_number y); [|done..]. cbn in Heq.
  destruct (im_written x ?= im_written y); [|done..]. cbn in Heq.
  destruct (string_cmp (image_collection x) (image_collection y)) eqn:Hc; [|done..]. cbn in Heq.
  apply (cmp_eq (cmp:=string_cmp)) in Hc. apply bytes_cmp_eq in Heq.
  unfold image_entity. by rewrite Hc, Heq.
Qed.

(** Within a collection both orders are the same. *)
Lemma age_cmp_collection x y :
  image_collection x = image_collection y → age_cmp x y = collection_age_cmp x y.
Proof.
  intros Heq. unfold age_cmp, collection_age_cmp.
  assert (string_cmp (image_collection x) (image_collection y) = Eq) as ->; [|done].
  rewrite Heq. apply cmp_refl, _.
Qed.

Lemma after_collection_empty im : after_collection EmptyString im = negb (bool_decide (image_collection im = EmptyString)).
Proof.
  unfold after_collection. destruct (image_collection im) as [|c s]; [reflexivity|].
  unfold string_cmp. cbn. reflexivity.
Qed.

(** ** The block window *)

Definition expired (retained_from : Z) (im : EntityMetaImage) : bool :=
  (im_number im <? retained_from) && im_finalized im.

Definition expired_by_age (t : Tables) (retained_from : Z) : list EntityMetaImage :=
  sort_by (cmp_leb age_cmp) (List.filter (expired retained_from) (meta_rows t)).

Lemma elem_of_expired_by_age t from x :
  x ∈ expired_by_age t from ↔ x ∈ meta_rows t ∧ expired from x = true.
Proof. unfold expired_by_age. by rewrite elem_of_sort_by, elem_of_filter_list. Qed.

Lemma expired_by_age_sorted t from :
  StronglySorted (λ x y, cmp_leb age_cmp x y = true) (expired_by_age t from).
Proof. apply sort_by_sorted; [apply cmp_leb_total, _|apply cmp_leb_trans, _]. Qed.

Lemma rows_NoDup t (f : EntityMetaImage → bool) : NoDup (List.filter f (meta_rows t)).
Proof. apply NoDup_filter_list. by eapply NoDup_fmap_1, meta_rows_NoDup. Qed.

Lemma expired_by_age_NoDup t from : NoDup (expired_by_age t from).
Proof. unfold expired_by_age. rewrite sort_by_perm. apply rows_NoDup. Qed.

Lemma List_filter_perm {A} (f : A → bool) l1 l2 : l1 ≡ₚ l2 → List.filter f l1 ≡ₚ List.filter f l2.
Proof.
  induction 1 as [|x l1 l2 H IH|x y l|l1 l2 l3 H1 IH1 H2 IH2]; cbn; [done| | |by etransitivity].
  - destruct (f x); [by constructor|done].
  - destruct (f x), (f y); [constructor|done..].
Qed.

(** A collection's expired rows are the oldest of its share. *)
Lemma expired_rows_spec t c from :
  expired_rows t c from =
    take OUTPUT_PRUNE_BATCH (List.filter (λ im, bool_decide (image_collection im = c)) (expired_by_age t from)).
Proof.
  unfold expired_rows. f_equal.
  assert (∀ x y, x ∈ meta_rows t → y ∈ meta_rows t → image_collection x = c → image_collection y = c →
    cmp_leb collection_age_cmp x y = cmp_leb age_cmp x y) as Hcmp.
  { intros x y _ _ Hx Hy. unfold cmp_leb. by rewrite <-age_cmp_collection by congruence. }
  apply sort_by_unique; [apply cmp_leb_total, _|apply cmp_leb_trans, _|..].
  - intros x y [Hx Hxc]%elem_of_filter_list [Hy Hyc]%elem_of_filter_list.
    apply andb_true_iff in Hxc as [[Hxc _]%andb_true_iff _], Hyc as [[Hyc _]%andb_true_iff _].
    rewrite bool_decide_eq_true in Hxc, Hyc. rewrite !Hcmp by done. by apply (age_le_antisym t).
  - eapply StronglySorted_weaken; [|apply StronglySorted_filter_list, expired_by_age_sorted].
    intros x y [Hx Hxc]%elem_of_filter_list [Hy Hyc]%elem_of_filter_list.
    rewrite bool_decide_eq_true in Hxc, Hyc. apply elem_of_expired_by_age in Hx as [Hx _], Hy as [Hy _].
    by rewrite Hcmp.
  - unfold expired_by_age. rewrite (List_filter_perm _ _ _ (sort_by_perm _ _)), <-filter_andb.
    rewrite (filter_ext _ (λ x, expired from x && bool_decide (image_collection x = c))); [done|].
    intros x. unfold expired. by destruct (bool_decide _), (_ <? _), (im_finalized x).
Qed.

Lemma elem_of_expired_rows t c from x :
  x ∈ expired_rows t c from → x ∈ meta_rows t ∧ image_collection x = c ∧ expired from x = true.
Proof.
  rewrite expired_rows_spec. intros Hx%elem_of_take.
  destruct Hx as (i & Hx%list_elem_of_lookup_2 & _). apply elem_of_filter_list in Hx as [Hx Hc].
  apply elem_of_expired_by_age in Hx as [? ?]. rewrite bool_decide_eq_true in Hc. done.
Qed.

Lemma expired_rows_NoDup t c from : NoDup (expired_rows t c from).
Proof. rewrite expired_rows_spec. apply NoDup_take_list, NoDup_filter_list, expired_by_age_NoDup. Qed.

(** What [OUTPUT_NEXT_COLLECTION] finds. *)
Lemma next_collection_spec t after :
  match next_collection t after with
  | None => ∀ x, x ∈ meta_rows t → after_collection after x = false
  | Some (c, earliest) =>
      (∃ x, x ∈ meta_rows t ∧ image_collection x = c ∧ after_collection after x = true) ∧
      (∀ x, x ∈ meta_rows t → after_collection after x = true →
         string_cmp c (image_collection x) = Lt ∨ image_collection x = c ∧ earliest ≤ im_number x)
  end.
Proof.
  unfold next_collection. set (l := List.filter _ _).
  assert (∀ x, x ∈ meta_rows t → after_collection after x = true → x ∈ l) as Hl
    by (intros; by apply elem_of_filter_list).
  destruct (head (sort_by (cmp_leb collection_cmp) l)) as [im|] eqn:Hh; cbn.
  - apply sort_by_head in Hh as (before & rest & Hin & _ & Hle); [|apply cmp_leb_total, _|apply cmp_leb_trans, _].
    split.
    + exists im. assert (im ∈ l) as [? ?]%elem_of_filter_list; [|done].
      rewrite Hin. apply elem_of_app. right. by left.
    + intros x Hx Ha. specialize (Hle x (Hl x Hx Ha)). apply cmp_leb_spec in Hle.
      unfold collection_cmp in Hle.
      destruct (string_cmp (image_collection im) (image_collection x)) eqn:Hc; [|by left|done].
      right. apply (cmp_eq (cmp:=string_cmp)) in Hc. split; [done|]. cbn in Hle.
      unfold Z.le. done.
  - intros x Hx. destruct (after_collection after x) eqn:Ha; [|done]. specialize (Hl x Hx Ha).
    destruct (sort_by (cmp_leb collection_cmp) l) eqn:Hs; [|done].
    rewrite <-(elem_of_sort_by (cmp_leb collection_cmp)), Hs in Hl. by apply elem_of_nil in Hl.
Qed.

Lemma after_collection_trans after c x :
  string_cmp after c = Lt → string_cmp c (image_collection x) = Lt → after_collection after x = true.
Proof. intros H1 H2. unfold after_collection. by rewrite (cmp_trans (cmp:=string_cmp) _ c _ Lt). Qed.

Lemma expired_loop_spec t from fuel after acc :
  from ≤ i64_max → (length (List.filter (after_collection after) (meta_rows t)) < fuel)%nat →
  ∃ l, expired_loop fuel t from after acc = Ok (acc ++ l) ∧ NoDup l ∧
    ∀ x, x ∈ l ↔ after_collection after x = true ∧ x ∈ expired_rows t (image_collection x) from.
Proof.
  intros Hfrom. revert after acc; induction fuel as [|fuel IH]; intros after acc Hfuel; [lia|].
  cbn [expired_loop]. pose proof (next_collection_spec t after) as Hnext.
  destruct (next_collection t after) as [[c earliest]|].
  2: { exists []. rewrite app_nil_r. split_and!; [done|constructor|]. intros x. split; [by intros ?%elem_of_nil|].
       intros [Ha (Hx & _)%elem_of_expired_rows]. by rewrite Hnext in Ha. }
  destruct Hnext as [(im & Him & Hc & Ha) Hnext].
  assert (string_cmp after c = Lt) as Hac.
  { unfold after_collection in Ha. rewrite Hc in Ha. by destruct (string_cmp after c). }
  assert ((if earliest <? from then _ ← u64_i64 from "output window start"; Ok (expired_rows t c from)
    else Ok []) = Ok (expired_rows t c from)) as ->.
  { destruct (Z.ltb_spec earliest from); [by rewrite u64_i64_fits|]. f_equal. symmetry.
    apply elem_of_nil_inv. intros x (Hx & Hxc & He)%elem_of_expired_rows.
    assert (after_collection after x = true) as Hax by (unfold after_collection; by rewrite Hxc, Hac).
    destruct (Hnext x Hx Hax) as [Hlt|[_ Hle]].
    - rewrite Hxc, (cmp_refl string_cmp) in Hlt. done.
    - unfold expired in He. apply andb_true_iff in He as [He%Z.ltb_lt _]. lia. }
  cbn [mbind result_bind].
  destruct (IH c (acc ++ expired_rows t c from)) as (l & -> & Hnd & Hl).
  { pose proof (length_filter_lt (after_collection after) (after_collection c) (meta_rows t) im) as Hlt.
    enough (length (List.filter (after_collection c) (meta_rows t)) <
      length (List.filter (after_collection after) (meta_rows t)))%nat by lia.
    apply Hlt; [|done|done|].
    - intros y Hy. unfold after_collection in Hy. eapply after_collection_trans; [exact Hac|].
      by destruct (string_cmp c (image_collection y)).
    - unfold after_collection. by rewrite Hc, (cmp_refl string_cmp). }
  exists (expired_rows t c from ++ l). rewrite app_assoc. split_and!; [done|..].
  - apply NoDup_app. split_and!; [apply expired_rows_NoDup| |done].
    intros x (_ & Hxc & _)%elem_of_expired_rows [Hx _]%Hl. unfold after_collection in Hx.
    by rewrite Hxc, (cmp_refl string_cmp) in Hx.
  - intros x. rewrite elem_of_app, Hl. split.
    + intros [Hx|[Hx He]].
      * pose proof (elem_of_expired_rows _ _ _ _ Hx) as (_ & Hxc & _). rewrite Hxc. split; [|done].
        unfold after_collection. by rewrite Hxc, Hac.
      * split; [|done]. unfold after_collection in Hx. eapply after_collection_trans; [exact Hac|].
        by destruct (string_cmp c (image_collection x)).
    + intros [Hax He]. pose proof (elem_of_expired_rows _ _ _ _ He) as (Hx & _).
      destruct (Hnext x Hx Hax) as [Hlt|[Hxc _]].
      * right. split; [|done]. unfold after_collection. by rewrite Hlt.
      * left. by rewrite <-Hxc.
Qed.

(** The finalized rows below a block, oldest first; a collection without a
    name is never reached. *)
Definition out_of_window (t : Tables) (retained_from : Z) : list EntityMetaImage :=
  List.filter (λ im, negb (bool_decide (image_collection im = EmptyString)))
    (expired_by_age t retained_from).

Lemma expired_rows_out_of_window t c from :
  c ≠ EmptyString →
  expired_rows t c from =
    take OUTPUT_PRUNE_BATCH (List.filter (λ im, bool_decide (image_collection im = c)) (out_of_window t from)).
Proof.
  intros Hc. rewrite expired_rows_spec. unfold out_of_window. rewrite <-filter_andb. f_equal.
  apply filter_ext. intros x. case_bool_decide as Hx; [|by rewrite andb_false_r].
  rewrite bool_decide_eq_false_2 by congruence. done.
Qed.

Lemma block_candidates_spec t block max_blocks :
  let from := sat_sub (sat_add (ref_number block) 1) max_blocks in
  from ≤ i64_max →
  block_candidates t block max_blocks = Ok (take OUTPUT_PRUNE_BATCH (out_of_window t from)).
Proof.
  intros from Hfrom. unfold block_candidates. fold from.
  destruct (expired_loop_spec t from (S (length (meta_rows t))) EmptyString [] Hfrom) as (l & -> & Hnd & Hl).
  { pose proof (filter_length_le (after_collection EmptyString) (meta_rows t)). lia. }
  cbn [mbind result_bind app]. f_equal.
  assert (∀ x, x ∈ out_of_window t from → x ∈ meta_rows t) as Hrows.
  { intros x [Hx _]%elem_of_filter_list. by apply elem_of_expired_by_age in Hx as [? _]. }
  assert (NoDup (out_of_window t from)) as HndR by apply NoDup_filter_list, expired_by_age_NoDup.
  set (keep x := bool_decide (x ∈ take OUTPUT_PRUNE_BATCH
    (List.filter (λ im, bool_decide (image_collection im = image_collection x)) (out_of_window t from)))).
  assert (sort_by (cmp_leb age_cmp) l = List.filter keep (out_of_window t from)) as ->.
  2: { apply take_filter_keep. intros x Hx. unfold keep. rewrite bool_decide_eq_true.
       apply elem_of_take_filter; [done|]. by rewrite bool_decide_eq_true. }
  assert (∀ x, x ∈ l ↔ x ∈ List.filter keep (out_of_window t from)) as Hmem.
  { intros x. rewrite Hl, elem_of_filter_list. unfold keep. rewrite bool_decide_eq_true.
    rewrite after_collection_empty, negb_true_iff, bool_decide_eq_false. split.
    - intros [Hx He]. rewrite expired_rows_out_of_window in He by done. split; [|done].
      apply elem_of_take in He as (i & He%list_elem_of_lookup_2 & _).
      by apply elem_of_filter_list in He as [? _].
    - intros [Hx He]. assert (image_collection x ≠ EmptyString) as Hne.
      { apply elem_of_filter_list in Hx as [_ Hx]. by apply negb_true_iff, bool_decide_eq_false in Hx. }
      split; [done|]. by rewrite expired_rows_out_of_window. }
  apply sort_by_unique; [apply cmp_leb_total, _|apply cmp_leb_trans, _|..].
  - intros x y Hx Hy. apply (age_le_antisym t); apply Hrows.
    + apply Hmem, elem_of_filter_list in Hx. tauto.
    + apply Hmem, elem_of_filter_list in Hy. tauto.
  - apply StronglySorted_filter_list, StronglySorted_filter_list, expired_by_age_sorted.
  - apply NoDup_Permutation; [done|by apply NoDup_filter_list|done].
Qed.

(** ** What pruning deletes *)

(** A prune is its mutations. *)
Definition prune_step (t : Tables) (m : Mutation) : Tables :=
  match m with
  | MutEntity c k _ None =>
      with_entities t (delete (MkEntityKey c k) (entities t)) (delete (MkEntityKey c k) (output_entity_meta t))
  | MutIndex x k e _ false => with_indexes t (entity_indexes t ∖ {[MkIndexKey x k e]})
  | _ => t
  end.

Definition is_removal (m : Mutation) : Prop :=
  match m with
  | MutEntity _ _ (Some _) None | MutIndex _ _ _ true false => True
  | _ => False
  end.

Lemma apply_removals now block finality ms t :
  Forall is_removal ms →
  fold_result (apply_mutation now false true block finality) t ms = Ok (fold_left prune_step ms t).
Proof.
  intros Hms. revert t; induction Hms as [|m ms Hm Hms IH]; intros t; [done|]. cbn [fold_result fold_left].
  destruct m as [c k [v|] [a|]|x k e [] []|]; try done; cbn; apply IH.
Qed.

(** The removal of a candidate, and of an orphan. *)
Definition entity_removal (im : EntityMetaImage) (value : list byte) : Mutation :=
  MutEntity (image_collection im) (image_key im) (Some value) None.
Definition index_removal (i : IndexKey) : Mutation :=
  MutIndex (key_index i) (index_key_bytes i) (index_entity_key i) true false.

Definition present (t : Tables) (candidates : list EntityMetaImage) : list EntityMetaImage :=
  List.filter (λ im, bool_decide (is_Some (entities t !! image_entity im))) candidates.
Definition removals (t : Tables) (ims : list EntityMetaImage) : list Mutation :=
  (λ im, entity_removal im (default [] (entities t !! image_entity im))) <$> ims.

Lemma delete_candidates_spec t candidates acc :
  NoDup (image_entity <$> candidates) →
  fold_left delete_candidate candidates (t, acc) =
    (fold_left prune_step (removals t (present t candidates)) t,
     MkPruned (pruned_mutations acc ++ removals t (present t candidates))
       (pruned_entities acc ++ present t candidates)).
Proof.
  revert t acc; induction candidates as [|im candidates IH]; intros t acc Hnd; cbn [fold_left].
  { cbn. rewrite !app_nil_r. by destruct acc. }
  cbn in Hnd. apply NoDup_cons in Hnd as [Hn Hnd]. unfold delete_candidate at 2, present.
  cbn [List.filter].
  change (MkEntityKey (image_collection im) (image_key im)) with (image_entity im).
  destruct (entities t !! image_entity im) as [value|] eqn:Hv.
  - set (t1 := with_entities _ _ _). rewrite IH by done.
    assert (∀ im', im' ∈ candidates → entities t1 !! image_entity im' = entities t !! image_entity im') as Ht1.
    { intros im' Hin. cbn. apply lookup_delete_ne. intros Heq. apply Hn. rewrite Heq.
      by apply (list_elem_of_fmap_2 image_entity). }
    assert (present t1 candidates = present t candidates) as Heq.
    { apply filter_ext_in. intros x Hx%list_elem_of_In. by rewrite Ht1. }
    assert (removals t1 (present t candidates) = removals t (present t candidates)) as Hr.
    { apply Forall_fmap_ext_1, Forall_forall. intros x [Hx _]%elem_of_filter_list. by rewrite Ht1. }
    rewrite Heq, Hr, bool_decide_eq_true_2 by by eexists. fold (present t candidates).
    cbn. rewrite Hv, <-!app_assoc. done.
  - rewrite bool_decide_eq_false_2 by by intros []. by apply IH.
Qed.

Lemma prune_orphans t l :
  fold_left prune_step (index_removal <$> l) t = with_indexes t (entity_indexes t ∖ list_to_set l).
Proof.
  revert t; induction l as [|[x k e] l IH]; intros t; cbn.
  { destruct t. unfold with_indexes. cbn. f_equal. set_solver. }
  rewrite IH. unfold with_indexes. cbn. f_equal. set_solver.
Qed.

Lemma orphaned_NoDup t : NoDup (orphaned t).
Proof. unfold orphaned. apply NoDup_filter_list. rewrite merge_sort_Permutation. apply NoDup_elements. Qed.

Lemma elem_of_orphaned t i :
  i ∈ orphaned t → i ∈ entity_indexes t ∧
    ∀ c, entities t !! MkEntityKey c (index_entity_key i) = None.
Proof.
  unfold orphaned. rewrite elem_of_filter_list, merge_sort_Permutation, elem_of_elements.
  intros [Hi Ho]. split; [done|]. intros c. rewrite forallb_spec in Ho.
  destruct (entities t !! _) as [v|] eqn:Hv; [|done].
  specialize (Ho (MkEntityKey c (index_entity_key i), v)). rewrite elem_of_map_to_list in Ho.
  specialize (Ho Hv). cbn in Ho. by rewrite bool_decide_eq_true_2 in Ho.
Qed.

Lemma removals_indexes (f : EntityMetaImage → list byte) l t :
  entity_indexes (fold_left prune_step ((λ im, entity_removal im (f im)) <$> l) t) = entity_indexes t.
Proof. revert t; induction l as [|im l IH]; intros t; cbn; [done|]. by rewrite IH. Qed.

Lemma removals_keys t l : entity_keys (removals t l) = image_entity <$> l.
Proof. unfold entity_keys, removals. induction l as [|im l IH]; cbn; [done|]. by rewrite <-IH. Qed.

(** The deletion is its mutations; their preimages are right, no row comes
    twice, and the images are those of the entities deleted. *)
Lemma delete_pruned_output_spec t candidates :
  NoDup (image_entity <$> candidates) →
  let '(t', pruned) := delete_pruned_output t candidates in
  let ms := pruned_mutations pruned in
  Forall is_removal ms ∧ fold_left prune_step ms t = t' ∧
  NoDup (mutation_row <$> ms) ∧ Forall (preimage_matches true (core t)) ms ∧
  pruned_entities pruned = present t candidates ∧
  entity_keys ms = image_entity <$> present t candidates.
Proof.
  intros Hnd. unfold delete_pruned_output.
  destruct candidates as [|im candidates]; [cbn; repeat split; constructor|].
  revert Hnd. generalize (im :: candidates) as cs. intros cs Hnd.
  rewrite delete_candidates_spec by done. cbn [pruned_mutations pruned_entities app].
  set (t1 := fold_left prune_step _ t). set (rs := removals t (present t cs)).
  change (λ i, MutIndex _ _ _ true false) with index_removal.
  assert (NoDup (image_entity <$> present t cs)) as Hndp.
  { unfold present. clear -Hnd. induction cs as [|im cs IH]; cbn; [constructor|].
    apply NoDup_cons in Hnd as [Hn Hnd]. case_bool_decide; [|by apply IH]. cbn. constructor; [|by apply IH].
    intros (x & Heq & [Hx _]%elem_of_filter_list)%list_elem_of_fmap. apply Hn. rewrite Heq.
    by apply (list_elem_of_fmap_2 image_entity). }
  assert (mutation_row <$> rs = RowEntity <$> (image_entity <$> present t cs)) as Hrs.
  { unfold rs, removals. rewrite <-!list_fmap_compose. done. }
  assert (mutation_row <$> (index_removal <$> orphaned t1) = RowIndex <$> orphaned t1) as Hos.
  { rewrite <-list_fmap_compose. apply list_fmap_ext. by intros _ [] _. }
  assert (entity_indexes t1 = entity_indexes t) as Hidx.
  { apply removals_indexes. }
  split_and!.
  - apply Forall_app. split; apply Forall_forall; intros m (x & -> & _)%list_elem_of_fmap; done.
  - by rewrite fold_left_app, prune_orphans.
  - rewrite fmap_app, Hrs, Hos. apply NoDup_app. split_and!.
    + apply NoDup_fmap_2; [by intros ?? [=]|done].
    + by intros x (y & -> & _)%list_elem_of_fmap (z & [=] & _)%list_elem_of_fmap.
    + apply NoDup_fmap_2; [by intros ?? [=]|apply orphaned_NoDup].
  - apply Forall_app. split; apply Forall_forall.
    + intros m (x & -> & [_ Hx]%elem_of_filter_list)%list_elem_of_fmap _.
      rewrite bool_decide_eq_true in Hx. destruct Hx as [v Hv]. rewrite Hv. exact Hv.
    + intros m (i & -> & [Hi _]%elem_of_orphaned)%list_elem_of_fmap _.
      rewrite Hidx in Hi. destruct i. by apply bool_decide_eq_true_2.
  - done.
  - unfold entity_keys. rewrite omap_app.
    assert (omap mutation_entity (index_removal <$> orphaned t1) = []) as ->
      by (clear; induction (orphaned t1); done).
    rewrite app_nil_r. apply removals_keys.
Qed.

(** ** Candidates are finalized rows *)

Definition candidates_ok (t : Tables) (cs : list EntityMetaImage) : Prop :=
  NoDup (image_entity <$> cs) ∧ ∀ im, im ∈ cs → im ∈ meta_rows t ∧ im_finalized im = true.

Lemma candidates_of_rows t cs :
  NoDup cs → (∀ im, im ∈ cs → im ∈ meta_rows t ∧ im_finalized im = true) → candidates_ok t cs.
Proof.
  intros Hnd Hrows. split; [|done]. apply NoDup_fmap_2_strong; [|done].
  intros x y Hx Hy. apply (meta_rows_key t); by apply Hrows.
Qed.

Lemma candidates_part t cs cs' : candidates_ok t cs → cs' `sublist_of` cs → candidates_ok t cs'.
Proof.
  intros [Hnd Hrows] Hsub. apply candidates_of_rows.
  - eapply sublist_NoDup; [|exact Hsub]. by eapply NoDup_fmap_1.
  - intros im Him. by apply Hrows, (elem_of_sublist cs').
Qed.

Lemma filter_sublist {A} (f : A → bool) l : List.filter f l `sublist_of` l.
Proof. induction l as [|x l IH]; cbn; [done|]. destruct (f x); by constructor. Qed.

Lemma take_bytes_sublist excess l : take_bytes excess l `sublist_of` l.
Proof.
  revert excess; induction l as [|x l IH]; intros excess; cbn; [done|].
  destruct (excess =? 0); [apply sublist_nil_l|]. by constructor.
Qed.

Lemma oldest_finalized_ok t : candidates_ok t (oldest_finalized t).
Proof.
  unfold oldest_finalized. apply candidates_of_rows.
  - apply NoDup_take_list. rewrite sort_by_perm. apply rows_NoDup.
  - intros im (i & Him%list_elem_of_lookup_2 & _)%elem_of_take.
    by rewrite elem_of_sort_by, elem_of_filter_list in Him.
Qed.

Lemma expired_loop_overflow t from fuel after acc cs :
  i64_max < from → expired_loop fuel t from after acc = Ok cs → cs = acc.
Proof.
  intros Hfrom. revert after acc; induction fuel as [|fuel IH]; intros after acc; cbn; [by intros [= <-]|].
  destruct (next_collection t after) as [[c earliest]|]; [|by intros [= <-]].
  intros (rows & Hrows & Hl)%result_bind_Ok. destruct (earliest <? from).
  - unfold u64_i64 in Hrows. by destruct (Z.leb_spec from i64_max); [lia|].
  - injection Hrows as <-. rewrite app_nil_r in Hl. by apply IH in Hl.
Qed.

Lemma block_candidates_ok t block max_blocks cs :
  block_candidates t block max_blocks = Ok cs → candidates_ok t cs.
Proof.
  intros Hcs. set (from := sat_sub (sat_add (ref_number block) 1) max_blocks).
  destruct (Z.le_gt_cases from i64_max) as [Hle|Hgt].
  - rewrite block_candidates_spec in Hcs by done. injection Hcs as <-. apply candidates_of_rows.
    + apply NoDup_take_list, NoDup_filter_list, expired_by_age_NoDup.
    + intros im (i & [Him _]%list_elem_of_lookup_2%elem_of_filter_list & _)%elem_of_take.
      apply elem_of_expired_by_age in Him as [? [_ ?]%andb_true_iff]. done.
  - unfold block_candidates in Hcs. apply result_bind_Ok in Hcs as (l & Hl & [= <-]).
    apply expired_loop_overflow in Hl as ->; [|done]. cbn. rewrite take_nil.
    apply candidates_of_rows; [constructor|by intros ? ?%elem_of_nil].
Qed.

Lemma window_candidates_ok now t block window cs :
  window_candidates now t block window = Ok cs → candidates_ok t cs.
Proof.
  unfold window_candidates. destruct (window_max_blocks window); [apply block_candidates_ok|].
  pose proof (oldest_finalized_ok t) as Hrows.
  destruct (window_max_age_seconds window).
  { intros (n & _ & (age & _ & [= <-])%result_bind_Ok)%result_bind_Ok.
    eapply candidates_part; [done|apply filter_sublist]. }
  destruct (window_max_rows window).
  { intros [= <-]. eapply candidates_part; [done|apply sublist_take]. }
  destruct (window_max_bytes window).
  { destruct (_ <? _); [done|]. intros [= <-]. eapply candidates_part; [done|apply take_bytes_sublist]. }
  intros [= <-]. eapply candidates_part; [done|apply sublist_nil_l].
Qed.

(** ** Undo of a pruning block *)

Lemma apply_fold_finality now b f ms t t' k m :
  fold_result (apply_mutation now false true b f) t ms = Ok t' →
  output_entity_meta t' !! k = Some m →
  meta_finality m = f ∨ (k ∉ entity_keys ms) ∧ output_entity_meta t !! k = Some m.
Proof.
  revert t; induction ms as [|mut ms IH]; intros t; cbn [fold_result].
  { intros [= <-] Hm. right. split; [apply not_elem_of_nil|done]. }
  intros (t1 & H1 & H2)%result_bind_Ok Hm. destruct (IH _ H2 Hm) as [|[Hk Hm1]]; [by left|].
  destruct mut as [c kb before after|x xk e before after|n kb before after]; cbn in H1.
  - destruct after as [v|]; invert_ok; cbn in Hm1.
    + apply lookup_insert_Some in Hm1 as [[_ <-]|[Hne Hm1]]; [by left|]. right.
      split; [|done]. by apply not_elem_of_cons.
    + apply lookup_delete_Some in Hm1 as [Hne Hm1]. right. split; [|done]. by apply not_elem_of_cons.
  - right. split; [done|]. by destruct after; injection H1 as <-.
  - right. split; [done|]. by destruct after; injection H1 as <-.
Qed.

Definition values_fit (t : Tables) : Prop :=
  ∀ k v, entities t !! k = Some v → Z.of_nat (length v) ≤ i64_max.

Lemma entities_untouched ms c k :
  k ∉ entity_keys ms → (fold_left (core_step false true) ms c).1.1 !! k = c.1.1 !! k.
Proof.
  revert c; induction ms as [|m ms IH]; intros [[e i] s]; [done|]. unfold entity_keys. cbn.
  destruct m as [c k' b a| |]; cbn; [|intros Hk; by rewrite IH..].
  intros [Hne Hk]%not_elem_of_cons. rewrite IH by done. cbn. rewrite lookup_set_key.
  by rewrite decide_False.
Qed.

Lemma removal_images t ms :
  Forall is_removal ms →
  omap (entity_meta_image t) ms =
    omap (λ k, MkImage (key_collection k) (key_bytes k) <$> output_entity_meta t !! k) (entity_keys ms).
Proof.
  unfold entity_keys. induction 1 as [|m ms Hm Hms IH]; [done|]. cbn.
  destruct m as [c k [v|] [|]|x k e [] []|]; try done. cbn. by rewrite IH.
Qed.

(** What a pruned reversible block records can be undone like its own
    mutations: it is recorded over the rows of before the block, the pruned
    rows' images are theirs from before the block, and the deletion is the
    commit of its mutations. *)
Lemma pruned_recorded now t ms block finality applied cs :
  recorded true t ms → values_fit t → metadata_total t → finality ≠ Finalized →
  apply_mutations now t ms false true block finality = Ok applied → candidates_ok applied cs →
  let '(t2, pruned) := delete_pruned_output applied cs in
  recorded true t (ms ++ pruned_mutations pruned) ∧
  apply_mutations now t (ms ++ pruned_mutations pruned) false true block finality = Ok t2 ∧
  entity_meta_images t (ms ++ pruned_mutations pruned) = entity_meta_images t ms ++ pruned_entities pruned.
Proof.
  intros (Hcons & Hnd & Hms) Hvalues Htotal Hrev Happly [Hcsnd Hcs].
  pose proof (delete_pruned_output_spec applied cs Hcsnd) as Hspec.
  destruct (delete_pruned_output applied cs) as [t2 pruned]. cbn zeta in Hspec.
  destruct Hspec as (Hrem & Hfold & Hrows & Hpre & Hents & Hkeys).
  pose proof (apply_fold_core _ _ _ _ _ _ _ _ Happly) as Hcore.
  assert (∀ im, im ∈ present applied cs → (image_entity im ∉ entity_keys ms) ∧
    output_entity_meta t !! image_entity im = Some (image_meta im)) as Huntouched.
  { intros im [Him _]%elem_of_filter_list. destruct (Hcs im Him) as [Hrow Hfin].
    apply elem_of_meta_rows in Hrow. apply bool_decide_eq_true in Hfin.
    destruct (apply_fold_finality _ _ _ _ _ _ _ _ Happly Hrow) as [Hf|]; [|done]. congruence. }
  assert (fold_left (core_step false true) ms (core t) = core applied) as Hcore' by done.
  split; [split_and!|split].
  - apply consistent_app. split; [done|]. rewrite Hcore'. by apply consistent_distinct.
  - unfold entity_keys. rewrite omap_app. fold (entity_keys ms) (entity_keys (pruned_mutations pruned)).
    rewrite Hkeys. apply NoDup_app. split_and!; [done| |].
    + by intros k Hk (im & -> & [Hn _]%Huntouched)%list_elem_of_fmap.
    + rewrite <-Hkeys. by eapply keys_NoDup.
  - apply Forall_app. split; [done|]. apply Forall_forall. intros m Hm.
    rewrite Forall_forall in Hrem, Hpre. specialize (Hrem m Hm). specialize (Hpre m Hm).
    destruct m as [c k [v|] [|]|x k e [] []|]; try done. cbn in Hpre. split; [|by intros ? [=]].
    intros v' [= <-]. apply (Hvalues (MkEntityKey c k)). rewrite <-(Hpre eq_refl).
    assert (MkEntityKey c k ∈ entity_keys (pruned_mutations pruned)) as Hk
      by (apply list_elem_of_omap; by exists (MutEntity c k (Some v) None)).
    rewrite Hkeys in Hk. apply list_elem_of_fmap in Hk as (im & Heq & [Hn _]%Huntouched).
    rewrite <-Heq in Hn. change (entities applied) with (core applied).1.1. rewrite <-Hcore'.
    symmetry. by apply (entities_untouched ms (core t)).
  - unfold apply_mutations in *. rewrite fold_result_app, Happly. cbn [mbind result_bind].
    rewrite <-Hfold. by apply apply_removals.
  - unfold entity_meta_images. rewrite omap_app. f_equal. rewrite Hents.
    rewrite (removal_images t) by done. rewrite Hkeys. clear -Huntouched.
    induction (present applied cs) as [|im l IH]; [done|]. cbn.
    destruct (Huntouched im) as [_ Him]; [by left|]. rewrite Him. cbn. destruct im as [c k m].
    f_equal. apply IH. intros im' Hin. apply Huntouched. by right.
Qed.

(** Undo of a pruning block. A reversible block is applied and the
    output window pruned, as [apply_with_origin_to_stream] does, and the
    pruned rows' mutations and images are appended to its undo record.
    Undoing that record succeeds and brings back the very rows of before the
    block, the pruned ones included, with their metadata, but for the level
    their own blocks have reached meanwhile. *)
Theorem window_undo_restores now now_prune now' d t ms block finality coverage finalized_through
    applied pruned_tables pruned
    (Hrec : recorded (retains_processor_output d) t ms) (Hblock : block_fits block)
    (Htotal : metadata_total t) (Hfits : metadata_fits t) (Hvalues : values_fit t)
    (Hreversible : finality ≠ Finalized)
    (Hnow : ∀ m, is_ok (now m) = true) (Hnow' : ∀ m, is_ok (now' m) = true)
    (Happly : apply_mutations now t ms false (retains_processor_output d) block finality = Ok applied)
    (Hprune : prune_output_window now_prune d applied block = Ok (pruned_tables, pruned)) :
  let images := if retains_processor_output d
    then entity_meta_images t ms ++ pruned_entities pruned else [] in
  ∃ reverted restored,
    apply_mutations now' pruned_tables (ms ++ pruned_mutations pruned) true
      (retains_processor_output d) block finality = Ok reverted ∧
    restore_entity_metadata coverage finalized_through reverted images = Ok restored ∧
    core restored = core t ∧
    (∀ k, output_entity_meta restored !! k = output_entity_meta t !! k ∨
      ∃ im, im ∈ images ∧ image_entity im = k ∧
        output_entity_meta t !! k = Some (image_meta im) ∧
        output_entity_meta restored !! k = Some (raise_meta coverage finalized_through im)).
Proof.
  assert (recorded (retains_processor_output d) t (ms ++ pruned_mutations pruned) ∧
    apply_mutations now t (ms ++ pruned_mutations pruned) false (retains_processor_output d) block finality
      = Ok pruned_tables ∧
    (if retains_processor_output d then entity_meta_images t (ms ++ pruned_mutations pruned) else []) =
      (if retains_processor_output d then entity_meta_images t ms ++ pruned_entities pruned else []))
    as (Hrec' & Happly' & Himages).
  { unfold prune_output_window in Hprune.
    destruct (output_mode (lifecycle_output (lifecycle d))) eqn:Hmode;
      try (injection Hprune as <- <-; cbn; by rewrite !app_nil_r).
    assert (retains_processor_output d = true) as Hretain
      by (unfold retains_processor_output; by rewrite Hmode).
    rewrite Hretain in *. apply result_bind_Ok in Hprune as (window & _ & (cs & Hcs & [= Hdel])%result_bind_Ok).
    apply window_candidates_ok in Hcs.
    pose proof (pruned_recorded _ _ _ _ _ _ _ Hrec Hvalues Htotal Hreversible Happly Hcs) as Hspec.
    by rewrite Hdel in Hspec. }
  destruct (recorded_undo_restores now now' (retains_processor_output d) t _ block finality coverage
    finalized_through Hrec' Hblock Htotal Hfits Hnow Hnow')
    as (applied' & reverted & restored & H1 & H2 & H3 & H4 & H5).
  rewrite Happly' in H1. injection H1 as <-. rewrite Himages in *.
  exists reverted, restored. exact (conj H2 (conj H3 (conj H4 H5))).
Qed.

(** The block window drops the oldest. With a block limit, what one
    pass deletes is the first [OUTPUT_PRUNE_BATCH] of all finalized rows of
    blocks below the window, ordered by block, time, collection and key, as
    one sort of the whole table would give them, though every collection is
    searched on its own; collections without a name aside. *)
Theorem block_window_oldest t block max_blocks
    (Hstart : sat_sub (sat_add (ref_number block) 1) max_blocks ≤ i64_max) :
  block_candidates t block max_blocks =
    Ok (take OUTPUT_PRUNE_BATCH (sort_by (cmp_leb age_cmp)
      (List.filter (λ im, im_finalized im &&
           (im_number im <? sat_sub (sat_add (ref_number block) 1) max_blocks) &&
           negb (bool_decide (image_collection im = EmptyString)))
         (meta_rows t)))).
Proof.
  rewrite block_candidates_spec by done. do 2 f_equal. symmetry.
  apply sort_by_unique; [apply cmp_leb_total, _|apply cmp_leb_trans, _|..].
  - intros x y [Hx _]%elem_of_filter_list [Hy _]%elem_of_filter_list. by apply (age_le_antisym t).
  - apply StronglySorted_filter_list, expired_by_age_sorted.
  - unfold out_of_window, expired_by_age. rewrite (List_filter_perm _ _ _ (sort_by_perm _ _)), <-filter_andb.
    erewrite filter_ext; [reflexivity|]. intros x. unfold expired. cbn.
    by destruct (_ <? _), (im_finalized x).
Qed.

Definition window_tables : Tables :=
  MkTables {[MkEntityKey "c" [x01] := [x0a]; MkEntityKey "d" [x02] := [x0b]]}
    {[MkEntityKey "c" [x01] := MkEntityMeta 5 50 Finalized 500 1;
      MkEntityKey "d" [x02] := MkEntityMeta 4 40 Finalized 400 1]}
    {[MkIndexKey "i" [x07] [x02]]} ∅.
Definition window_descriptor : ProcessorDescriptor :=
  let d := sample_descriptor in
  MkDescriptor (descriptor_id d) (descriptor_instance d) (descriptor_version d) (code_hash d)
    (config_hash d) (descriptor_start d) (requirements d) (descriptor_mode d) (delivery_ordering d)
    (publication d)
    (MkLifecycle (lifecycle_state (lifecycle d)) (lifecycle_artifacts (lifecycle d))
       (MkOutputPolicy OutputWindowed (Some (MkOutputWindow (Some 10) None None None)) false)
       (lifecycle_delivery (lifecycle d)) (lifecycle_checkpoint (lifecycle d))
       (lifecycle_undo (lifecycle d)))
    (schemas d).

Lemma block_window_oldest_witness :
  block_candidates window_tables (MkBlockRef 14 hash_zero hash_zero 140) 10 =
    Ok [MkImage "d" [x02] (MkEntityMeta 4 40 Finalized 400 1)].
Proof.
  rewrite (block_window_oldest window_tables (MkBlockRef 14 hash_zero hash_zero 140) 10) by (vm_compute; discriminate).
  vm_compute. reflexivity.
Defined.

Lemma metadata_total_dom t : dom (output_entity_meta t) = dom (entities t) → metadata_total t.
Proof. intros Hd k. by rewrite <-!elem_of_dom, Hd. Qed.

#[export] Instance meta_fits_dec m : Decision (meta_fits m).
Proof. unfold meta_fits. apply _. Defined.

Lemma window_tables_sound :
  metadata_total window_tables ∧ metadata_fits window_tables ∧ values_fit window_tables.
Proof.
  split_and!.
  - apply metadata_total_dom.
    apply (bool_decide_unpack (dom (output_entity_meta window_tables) = dom (entities window_tables))).
    vm_compute. exact I.
  - apply (bool_decide_unpack (map_Forall (λ _ m, meta_fits m) (output_entity_meta window_tables))).
    vm_compute. exact I.
  - apply (bool_decide_unpack (map_Forall (λ _ v, Z.of_nat (length v) ≤ i64_max) (entities window_tables))).
    vm_compute. exact I.
Qed.

(** Block 14 adds an entity; the entity of block 4 and its index entry leave
    the window of ten blocks, and come back with the undo. *)
Definition window_block : BlockRef := MkBlockRef 14 hash_zero hash_zero 140.
Definition window_mutations : list Mutation := [MutEntity "c" [x03] None (Some [x0c])].
Definition window_removed : PrunedOutput :=
  MkPruned [MutEntity "d" [x02] (Some [x0b]) None; MutIndex "i" [x07] [x02] true false]
    [MkImage "d" [x02] (MkEntityMeta 4 40 Finalized 400 1)].
Definition window_applied : Tables :=
  MkTables (<[MkEntityKey "c" [x03] := [x0c]]> (entities window_tables))
    (<[MkEntityKey "c" [x03] := MkEntityMeta 14 140 Attested 600 1]> (output_entity_meta window_tables))
    (entity_indexes window_tables) ∅.
Definition window_left : Tables := fold_left prune_step (pruned_mutations window_removed) window_applied.

Lemma window_apply :
  apply_mutations (λ _, Ok 600) window_tables window_mutations false true window_block Attested = Ok window_applied.
Proof. reflexivity. Qed.

Lemma window_prune :
  prune_output_window (Ok 600) window_descriptor window_applied window_block = Ok (window_left, window_removed).
Proof. vm_compute. reflexivity. Qed.

Lemma window_undo_restores_witness :
  ∃ reverted restored,
    apply_mutations (λ _, Ok 700) window_left (window_mutations ++ pruned_mutations window_removed)
      true true window_block Attested = Ok reverted ∧
    restore_entity_metadata (λ _, None) None reverted
      (entity_meta_images window_tables window_mutations ++ pruned_entities window_removed) = Ok restored ∧
    core restored = core window_tables.
Proof.
  destruct window_tables_sound as (Htotal & Hfits & Hvalues).
  assert (recorded true window_tables window_mutations) as Hrec.
  { split_and!.
    + cbn. split_and!; intros; reflexivity || exact I.
    + apply (bool_decide_unpack (NoDup (entity_keys window_mutations))). vm_compute. exact I.
    + repeat constructor; intros v [= <-]; cbn; uints. }
  assert (block_fits window_block) as Hblock by (split; cbn; uints).
  destruct (window_undo_restores (λ _, Ok 600) (Ok 600) (λ _, Ok 700) window_descriptor window_tables
    window_mutations window_block Attested (λ _, None) None window_applied window_left window_removed
    Hrec Hblock Htotal Hfits Hvalues) as (reverted & restored & H1 & H2 & H3 & _);
    [discriminate|reflexivity|reflexivity|exact window_apply|exact window_prune|].
  exists reverted, restored. exact (conj H1 (conj H2 H3)).
Defined.
