(* ===== verification/Delivery.v ===== *)
(** * Delivery streams

    Models the change log of [crates/store-sqlite/src/lib.rs]: streams and
    their sequences, [append_changes], and the changes parked until their
    block reaches a processor's publication level
    ([release_deferred_changes]).

    A table is the list of its rows in primary-key order, or a map by primary
    key; a statement that breaks a uniqueness constraint fails. Values that
    rows keep as postcard bytes are kept as values. *)
From Stdlib Require Import ZArith Lia Strings.Byte.
From stdpp Require Import gmap strings list list_numbers fin_maps sorting.
From S2P Require Import Prelude Bytes Chain Capability Provenance Frame Durable Descriptor Delta Rows.

Inductive DeliveryOriginKind := OriginLive | OriginLiveRecovery | OriginHistoricalBackfill | OriginRecompute.
Record DeliveryOrigin := MkOrigin {
  origin_kind : DeliveryOriginKind;
  origin_id : string;
  publication_revision : Z;
}.

Definition origin_live (instance : string) : DeliveryOrigin := MkOrigin OriginLive instance 0.
Definition origin_live_recovery (instance : string) : DeliveryOrigin :=
  MkOrigin OriginLiveRecovery instance 0.

Inductive ChangeDirection := DirApply | DirUndo | DirFinalized | DirResetRequired.
Inductive DeliveryStreamKind := StreamCanonical | StreamLive | StreamBackfill.

#[export] Instance DeliveryOriginKind_eq_dec : EqDecision DeliveryOriginKind.
Proof. solve_decision. Defined.
#[export] Instance DeliveryOrigin_eq_dec : EqDecision DeliveryOrigin.
Proof. solve_decision. Defined.
#[export] Instance ChangeDirection_eq_dec : EqDecision ChangeDirection.
Proof. solve_decision. Defined.
#[export] Instance DeliveryStreamKind_eq_dec : EqDecision DeliveryStreamKind.
Proof. solve_decision. Defined.

(** ** Tables *)

(** A [delivery_streams] row. *)
Record Stream := MkStream {
  stream_instance : string;
  stream_kind : DeliveryStreamKind;
  next_sequence : Z;
  pruned_through_sequence : Z;
  live_bytes : Z;
}.

(** A [change_log] row. *)
Record ChangeRow := MkRow {
  row_sequence : Z;
  row_chain : Z;
  row_instance : string;
  row_stream : string;
  row_stream_sequence : Z;
  row_origin : DeliveryOrigin;
  row_block : BlockRef;
  row_finality : Finality;
  row_direction : ChangeDirection;
  row_change : DomainChange;
  row_created_at : Z;
}.

(** A [deferred_changes] row. *)
Record Deferred := MkDeferred {
  deferred_id : Z;
  deferred_instance : string;
  deferred_stream : string;
  deferred_chain : Z;
  deferred_number : Z;
  deferred_hash : BlockHash;
  deferred_block : BlockRef;
  deferred_origin : DeliveryOrigin;
  deferred_changes : list DomainChange;
  deferred_sinks : list string;
  deferred_bytes : Z;
}.

#[export] Instance ChangeRow_eq_dec : EqDecision ChangeRow.
Proof. solve_decision. Defined.
#[export] Instance Deferred_eq_dec : EqDecision Deferred.
Proof. solve_decision. Defined.

Record Delivery := MkDelivery {
  streams : gmap string Stream;
  change_log : list ChangeRow;
  last_rowid : Z;
  sink_outbox : list (string * Z);
  parked : list Deferred;
}.

Definition with_stream (s : Delivery) (id : string) (stream : Stream) : Delivery :=
  MkDelivery (<[id := stream]> (streams s)) (change_log s) (last_rowid s) (sink_outbox s) (parked s).
Definition with_parked (s : Delivery) (rows : list Deferred) : Delivery :=
  MkDelivery (streams s) (change_log s) (last_rowid s) (sink_outbox s) rows.

Definition is_backfill (stream : Stream) : bool := bool_decide (stream_kind stream = StreamBackfill).

Definition validate_delivery_stream (instance stream_id : string) (s : Delivery) : result StoreError () :=
  match streams s !! stream_id with
  | Some stream =>
      if bool_decide (stream_instance stream = instance) then Ok ()
      else Err (InvalidConfig ("delivery stream " +:+ stream_id +:+ " belongs to processor "
             +:+ stream_instance stream +:+ ", not " +:+ instance))
  | None => Err (InvalidConfig ("delivery stream " +:+ stream_id +:+ " does not exist"))
  end.

Definition delivery_stream_is_backfill (stream_id : string) (s : Delivery) : result StoreError bool :=
  stream ← ok_or (streams s !! stream_id) (Sqlx "no rows returned");
  Ok (is_backfill stream).

(** ** Appending *)

Definition change_bytes (change : DomainChange) : Z :=
  Z.of_nat (length (change_key change)) + Z.of_nat (length (change_payload change)).

Definition checked_u64 (value : Z) (field : string) : result StoreError Z :=
  if value <=? u64_max then Ok value else Err (Numeric field).
Definition checked_i64 (value : Z) (field : string) : result StoreError Z :=
  if value <=? i64_max then Ok value else Err (Numeric field).
Definition i64_u64 (value : Z) (field : string) : result StoreError Z :=
  if 0 <=? value then Ok value else Err (Numeric field).

(** An integer column that leaves its range fails the statement. *)
Definition column_add (a b : Z) (column : string) : result StoreError Z :=
  if a + b <=? i64_max then Ok (a + b)
  else Err (Sqlx ("cannot store REAL value in INTEGER column " +:+ column)).

(** The unique indexes of [change_log]. *)
Definition log_conflict (s : Delivery) (row : ChangeRow) : bool :=
  existsb (λ other,
    bool_decide (row_stream other = row_stream row) &&
    (bool_decide (row_stream_sequence other = row_stream_sequence row) ||
     bool_decide (change_kind (row_change other) = "system.backfill_complete"%string) &&
     bool_decide (change_kind (row_change row) = "system.backfill_complete"%string)))
    (change_log s).

(** [INSERT INTO change_log]; the rowid is [AUTOINCREMENT]. *)
Definition insert_row (s : Delivery) (row : Z → ChangeRow) : result StoreError (Delivery * Z) :=
  let rowid := last_rowid s + 1 in
  let row := row rowid in
  if log_conflict s row then Err (Sqlx "UNIQUE constraint failed: change_log")
  else Ok (MkDelivery (streams s) (change_log s ++ [row]) rowid (sink_outbox s) (parked s), rowid).

Definition insert_outbox (rowid : Z) (s : Delivery) (sink : string) : result StoreError Delivery :=
  if bool_decide ((sink, rowid) ∈ sink_outbox s)
  then Err (Sqlx "UNIQUE constraint failed: sink_outbox")
  else Ok (MkDelivery (streams s) (change_log s) (last_rowid s) (sink_outbox s ++ [(sink, rowid)]) (parked s)).

(** The locals of the loop. *)
Record Appending := MkAppending {
  appending_store : Delivery;
  appending_next : Z;
  appended_bytes : Z;
  appended_first : option Z;
  appended_last : option Z;
}.

Section append.
Context (instance stream_id : string) (origin : DeliveryOrigin) (chain_id : Z) (block : BlockRef)
  (finality : Finality) (direction : ChangeDirection) (sink_ids : list string) (now : Z).

(** One iteration of [append_changes]. *)
Definition append_change (a : Appending) (change : DomainChange) : result StoreError Appending :=
  bytes ← checked_u64 (change_bytes change) "appended delivery change bytes";
  appended ← checked_u64 (appended_bytes a + bytes) "appended delivery change bytes";
  chain ← u64_i64 chain_id "chain_id";
  revision ← u64_i64 (publication_revision origin) "publication revision";
  number ← u64_i64 (ref_number block) "block_number";
  timestamp ← u64_i64 (ref_timestamp block) "block_timestamp";
  '(s, rowid) ← insert_row (appending_store a) (λ rowid,
     MkRow rowid chain instance stream_id (appending_next a) origin block finality direction change now);
  sequence ← i64_u64 (appending_next a) "stream change sequence";
  next ← checked_i64 (appending_next a + 1) "next stream change sequence";
  s ← fold_result (insert_outbox rowid) s sink_ids;
  Ok (MkAppending s next appended
    (match appended_first a with Some first => Some first | None => Some sequence end)
    (Some sequence)).

Definition append_changes (s : Delivery) (changes : list DomainChange)
    : result StoreError (Delivery * (option Z * option Z)) :=
  stream ← ok_or (streams s !! stream_id) (Sqlx "no rows returned");
  a ← fold_result append_change (MkAppending s (next_sequence stream) 0 None None) changes;
  match changes with
  | [] => Ok (appending_store a, (appended_first a, appended_last a))
  | _ =>
      bytes ← u64_i64 (appended_bytes a) "appended delivery change bytes";
      bytes ← (if live_bytes stream + bytes <=? i64_max then Ok (live_bytes stream + bytes)
               else Err (Sqlx "cannot store REAL value in INTEGER column delivery_streams.live_bytes"));
      Ok (with_stream (appending_store a) stream_id
            (MkStream (stream_instance stream) (stream_kind stream) (appending_next a)
              (pruned_through_sequence stream) bytes),
          (appended_first a, appended_last a))
  end.
End append.

(** ** Parked changes *)

Definition DEFERRED_FLUSH_BATCH : nat := 256.

(** [ORDER BY block_number, id]. *)
Definition deferred_cmp (x y : Deferred) : comparison :=
  then_with (deferred_number x ?= deferred_number y) (deferred_id x ?= deferred_id y).

Definition due (instance : string) (through : Z) (row : Deferred) : bool :=
  bool_decide (deferred_instance row = instance) && (deferred_number row <=? through).

(** The instance's due rows in publication order. *)
Definition due_rows (instance : string) (through : Z) (s : Delivery) : list Deferred :=
  sort_by (cmp_leb deferred_cmp) (List.filter (due instance through) (parked s)).

Section release.
Context (instance : string) (through : Z) (finality : Finality) (now : Z).

(** Publish one row and delete it by its id. *)
Definition release_row (s : Delivery) (row : Deferred) : result StoreError Delivery :=
  '(s, _) ← append_changes instance (deferred_stream row) (deferred_origin row) (deferred_chain row)
     (deferred_block row) finality DirApply (deferred_sinks row) now s (deferred_changes row);
  Ok (with_parked s (List.filter (λ other, negb (deferred_id other =? deferred_id row)) (parked s))).

(** The batches; each full batch leaves fewer rows. *)
Fixpoint release_loop (fuel : nat) (released : bool) (s : Delivery) : result StoreError (Delivery * bool) :=
  match fuel with
  | O => Ok (s, released)
  | S fuel =>
      let rows := take DEFERRED_FLUSH_BATCH (due_rows instance through s) in
      match rows with
      | [] => Ok (s, released)
      | _ =>
          s ← fold_result release_row s rows;
          if (length rows <? DEFERRED_FLUSH_BATCH)%nat then Ok (s, true) else release_loop fuel true s
      end
  end.

Definition release_deferred_changes (s : Delivery) : result StoreError (Delivery * bool) :=
  _ ← u64_i64 through "block_number";
  release_loop (S (length (parked s))) false s.
End release.

(** ** Appending, in full *)

Lemma append_changes_parked instance stream origin chain block finality direction sinks now s changes s' r :
  append_changes instance stream origin chain block finality direction sinks now s changes = Ok (s', r) →
  parked s' = parked s.
Proof.
  unfold append_changes. intros (st & _ & (a & Ha & Hr)%result_bind_Ok)%result_bind_Ok.
  assert (parked (appending_store a) = parked s) as Hp.
  { refine (fold_result_invariant (λ a, parked (appending_store a) = parked s) _ _ _ _ _ _ Ha); [|reflexivity].
    clear. intros a change a' Hp Hstep. unfold append_change in Hstep.
    repeat match goal with H : (_ ≫= _) = Ok _ |- _ => apply result_bind_Ok in H as (? & ? & ?) end.
    repeat match goal with x : (_ * _)%type |- _ => destruct x end.
    repeat match goal with H : (_ ≫= _) = Ok _ |- _ => apply result_bind_Ok in H as (? & ? & ?) end.
    match goal with H : Ok _ = Ok a' |- _ => injection H as <- end. cbn.
    match goal with H : fold_result (insert_outbox _) ?d _ = Ok ?d' |- _ =>
      assert (parked d' = parked d) as ->;
      [refine (fold_result_invariant (λ s', parked s' = parked d) _ _ _ _ _ _ H); [|reflexivity]|] end.
    { intros d1 sink d2 Hd. unfold insert_outbox. destruct (bool_decide _); [done|]. by intros [= <-]. }
    match goal with H : insert_row _ _ = Ok _ |- _ => unfold insert_row in H; destruct (log_conflict _ _) in H;
      [done|injection H as <- _] end. done. }
  destruct changes; [by injection Hr as <- _|].
  apply result_bind_Ok in Hr as (? & _ & (? & _ & [= <- _])%result_bind_Ok). done.
Qed.

(** ** Release in block order *)

#[export] Instance deferred_comparator : Comparator deferred_cmp.
Proof.
  apply then_comparator.
  - apply (on_comparator deferred_number Z.compare), _.
  - apply (on_comparator deferred_id Z.compare), _.
Qed.

Definition parked_ok (s : Delivery) : Prop := NoDup (deferred_id <$> parked s).

Lemma parked_unique s x y :
  parked_ok s → x ∈ parked s → y ∈ parked s → deferred_id x = deferred_id y → x = y.
Proof.
  unfold parked_ok. induction (parked s) as [|z l IH]; [by intros _ ?%elem_of_nil|]. cbn.
  intros [Hn Hnd]%NoDup_cons [->|Hx]%elem_of_cons [->|Hy]%elem_of_cons Heq; [done|..|by apply IH].
  - destruct Hn. rewrite Heq. by apply list_elem_of_fmap_2.
  - destruct Hn. rewrite <-Heq. by apply list_elem_of_fmap_2.
Qed.

Lemma due_rows_sorted instance through s :
  StronglySorted (λ x y, cmp_leb deferred_cmp x y = true) (due_rows instance through s).
Proof. apply sort_by_sorted; [apply cmp_leb_total, _|apply cmp_leb_trans, _]. Qed.

Lemma elem_of_due_rows instance through s x :
  x ∈ due_rows instance through s ↔ x ∈ parked s ∧ due instance through x = true.
Proof. unfold due_rows. by rewrite elem_of_sort_by, elem_of_filter_list. Qed.

(** One parked row goes out before another: in an earlier block, or in the
    same one and parked earlier. *)
Definition goes_before (x y : Deferred) : Prop :=
  deferred_number x < deferred_number y
  ∨ deferred_number x = deferred_number y ∧ deferred_id x < deferred_id y.

Lemma deferred_cmp_le x y :
  cmp_leb deferred_cmp x y = true ↔ goes_before x y ∨ deferred_number x = deferred_number y ∧ deferred_id x = deferred_id y.
Proof.
  unfold cmp_leb, deferred_cmp, then_with, goes_before.
  destruct (Z.compare_spec (deferred_number x) (deferred_number y)),
    (Z.compare_spec (deferred_id x) (deferred_id y)); split; intros; try done; try lia.
Qed.

(** The due rows are the parked rows of the instance through the block, each
    once, and stand in that order. *)
Lemma due_rows_exact instance through s : parked_ok s →
  ∃ rest, parked s ≡ₚ due_rows instance through s ++ rest
    ∧ (∀ row, row ∈ due_rows instance through s → deferred_instance row = instance ∧ deferred_number row ≤ through)
    ∧ (∀ row, row ∈ rest → deferred_instance row = instance → through < deferred_number row)
    ∧ StronglySorted goes_before (due_rows instance through s).
Proof.
  intros Hok. exists (List.filter (λ row, negb (due instance through row)) (parked s)).
  assert (due_rows instance through s ≡ₚ List.filter (due instance through) (parked s)) as Hperm by apply sort_by_perm.
  split; [by rewrite Hperm; apply filter_partition|]. unfold due in *. split; [|split].
  - intros row [_ [Hinst%bool_decide_eq_true Hn%Z.leb_le]%andb_true_iff]%elem_of_due_rows. done.
  - intros row [_ Hdue]%elem_of_filter_list Hinst. rewrite bool_decide_true in Hdue by done.
    by apply negb_true_iff, Z.leb_gt in Hdue.
  - eapply StronglySorted_weaken; [|apply (StronglySorted_distinct _ _ (due_rows_sorted instance through s))].
    + intros x y [Hx _]%elem_of_due_rows [Hy _]%elem_of_due_rows [[Hle|[_ Hid]]%deferred_cmp_le Hne]; [done|].
      destruct Hne. by apply (parked_unique s).
    + rewrite Hperm. apply NoDup_filter_list. by eapply NoDup_fmap_1.
Qed.

Lemma due_rows_antisym instance through s x y :
  parked_ok s → x ∈ due_rows instance through s → y ∈ due_rows instance through s →
  cmp_leb deferred_cmp x y = true → cmp_leb deferred_cmp y x = true → x = y.
Proof.
  intros Hok [Hx _]%elem_of_due_rows [Hy _]%elem_of_due_rows Hxy Hyx. apply (parked_unique s); [done..|].
  unfold cmp_leb in *. rewrite (cmp_antisym (cmp:=deferred_cmp) x y) in Hyx.
  destruct (deferred_cmp x y) eqn:Heq; [|done..]. unfold deferred_cmp in Heq.
  destruct (deferred_number x ?= deferred_number y); [|done..]. by apply Z.compare_eq in Heq.
Qed.

Section release_facts.
Context (instance : string) (through : Z) (finality : Finality) (now : Z).
#[local] Abbreviation publish := (release_row instance finality now).

Lemma release_row_parked s row s' :
  publish s row = Ok s' →
  parked s' = List.filter (λ other, negb (deferred_id other =? deferred_id row)) (parked s).
Proof.
  unfold release_row. intros ([s1 r] & H1 & [= <-])%result_bind_Ok.
  apply append_changes_parked in H1. cbn. by rewrite H1.
Qed.

(** Publishing a row takes exactly it off the due rows. *)
Lemma release_row_due s row rows s' :
  parked_ok s → due_rows instance through s = row :: rows → publish s row = Ok s' →
  parked_ok s' ∧ due_rows instance through s' = rows.
Proof.
  intros Hok Hdue Hp%release_row_parked.
  assert (row ∈ due_rows instance through s) as Hrow by (rewrite Hdue; by left).
  assert (row ∉ rows) as Hnotin.
  { assert (NoDup (row :: rows)) as Hnd; [|by apply NoDup_cons in Hnd as [? _]].
    rewrite <-Hdue. unfold due_rows. rewrite sort_by_perm. apply NoDup_filter_list.
    by eapply NoDup_fmap_1. }
  assert (∀ x, x ∈ parked s → negb (deferred_id x =? deferred_id row) = true ↔ x ≠ row) as Hneg.
  { intros x Hx. rewrite negb_true_iff, Z.eqb_neq. split; [congruence|]. intros Hne Heq. apply Hne.
    apply elem_of_due_rows in Hrow as [Hrow _]. by apply (parked_unique s). }
  split.
  - unfold parked_ok. rewrite Hp. by apply NoDup_fmap_filter.
  - unfold due_rows at 1. apply sort_by_unique; [apply cmp_leb_total, _|apply cmp_leb_trans, _|..].
    + intros x y [Hx Hdx]%elem_of_filter_list [Hy Hdy]%elem_of_filter_list.
      rewrite Hp, elem_of_filter_list in Hx, Hy.
      apply (due_rows_antisym instance through s); [done|apply elem_of_due_rows; tauto..].
    + pose proof (due_rows_sorted instance through s) as Hs. rewrite Hdue in Hs.
      by apply StronglySorted_inv in Hs as [? _].
    + apply NoDup_Permutation.
      * rewrite Hp. do 2 apply NoDup_filter_list. by eapply NoDup_fmap_1.
      * assert (NoDup (row :: rows)) as Hnd; [|by apply NoDup_cons in Hnd as [_ ?]].
        rewrite <-Hdue. unfold due_rows. rewrite sort_by_perm. apply NoDup_filter_list.
        by eapply NoDup_fmap_1.
      * intros x. rewrite elem_of_filter_list, Hp, elem_of_filter_list.
        assert (x ∈ row :: rows ↔ x ∈ parked s ∧ due instance through x = true) as Hx
          by (rewrite <-Hdue; apply elem_of_due_rows).
        rewrite elem_of_cons in Hx. split.
        -- intros [[Hin Hid] Hd]. apply Hneg in Hid; [|done]. tauto.
        -- intros Hin. assert (x ∈ parked s ∧ due instance through x = true) as [? ?] by (apply Hx; by right).
           split_and!; [done| |done]. apply Hneg; [done|]. by intros ->.
Qed.

(** So a batch takes exactly its rows off. *)
Lemma release_batch s l rows s' :
  parked_ok s → due_rows instance through s = l ++ rows → fold_result publish s l = Ok s' →
  parked_ok s' ∧ due_rows instance through s' = rows.
Proof.
  revert s; induction l as [|row l IH]; intros s Hok Hdue; cbn; [by intros [= <-]|].
  intros (s1 & H1 & H2)%result_bind_Ok.
  destruct (release_row_due s row (l ++ rows) s1 Hok Hdue H1) as [Hok1 Hdue1]. eauto.
Qed.

Lemma release_loop_spec fuel released s :
  parked_ok s → (length (due_rows instance through s) < fuel)%nat →
  release_loop instance through finality now fuel released s =
    (s' ← fold_result publish s (due_rows instance through s);
     Ok (s', released || negb (bool_decide (due_rows instance through s = [])))).
Proof.
  revert released s; induction fuel as [|fuel IH]; intros released s Hok Hfuel; [lia|].
  cbn [release_loop]. set (rows := due_rows instance through s) in *.
  destruct (take DEFERRED_FLUSH_BATCH rows) as [|row batch] eqn:Htake.
  { assert (rows = []) as -> by (destruct rows; [done|by cbn in Htake]).
    cbn. by rewrite orb_false_r. }
  assert (fold_result publish s rows =
    (s' ← fold_result publish s (row :: batch); fold_result publish s' (drop DEFERRED_FLUSH_BATCH rows))) as ->.
  { by rewrite <-(take_drop DEFERRED_FLUSH_BATCH rows) at 1; rewrite fold_result_app, Htake. }
  destruct (fold_result publish s (row :: batch)) as [s1|e] eqn:Hf; cbn [mbind result_bind]; [|done].
  assert (due_rows instance through s = (row :: batch) ++ drop DEFERRED_FLUSH_BATCH rows) as Hdue
    by (rewrite <-Htake; symmetry; apply take_drop).
  destruct (release_batch _ _ _ _ Hok Hdue Hf) as [Hok1 Hdue1].
  assert (bool_decide (rows = []) = false) as ->.
  { apply bool_decide_eq_false_2. intros Heq. by rewrite Heq, take_nil in Htake. }
  rewrite orb_true_r. destruct (Nat.ltb_spec (length (row :: batch)) DEFERRED_FLUSH_BATCH) as [Hlt|Hge].
  - rewrite <-Htake, length_take in Hlt. rewrite drop_ge by lia. done.
  - rewrite IH; [|done|].
    + by rewrite Hdue1.
    + rewrite Hdue1, length_drop. assert (0 < DEFERRED_FLUSH_BATCH)%nat by (unfold DEFERRED_FLUSH_BATCH; lia).
      assert (0 < length rows)%nat by (destruct rows; cbn; [by rewrite take_nil in Htake|lia]). lia.
Qed.

(** Publishing rows takes off them and nothing else. *)
Lemma release_rows_rest s rows rest s' :
  parked_ok s → parked s ≡ₚ rows ++ rest → fold_result publish s rows = Ok s' → parked s' ≡ₚ rest.
Proof.
  revert s. induction rows as [|row rows IH]; intros s Hok Hperm; cbn; [by intros [= <-]|].
  intros (s1 & Hone%release_row_parked & Hrest)%result_bind_Ok.
  assert (parked s1 ≡ₚ rows ++ rest) as Hperm1.
  { rewrite Hone. unfold parked_ok in Hok. rewrite Hperm in Hok |- *. cbn in Hok |- *. rewrite Z.eqb_refl. cbn.
    apply NoDup_cons in Hok as [Hfresh _]. by rewrite (filter_all _ (rows ++ rest));
      [|intros x Hx; apply negb_true_iff, Z.eqb_neq; intros Heq; apply Hfresh; rewrite <-Heq; by apply list_elem_of_fmap_2]. }
  eapply IH; [|exact Hperm1|exact Hrest]. unfold parked_ok. rewrite Hone. by apply NoDup_fmap_filter.
Qed.

(** The batches are one release of the due rows. *)
Lemma release_deferred_eq s :
  parked_ok s → through ≤ i64_max →
  release_deferred_changes instance through finality now s =
    (s' ← fold_result publish s (due_rows instance through s);
     Ok (s', negb (bool_decide (due_rows instance through s = [])))).
Proof.
  intros Hok Hthrough. unfold release_deferred_changes. rewrite u64_i64_fits by done. cbn [mbind result_bind].
  rewrite release_loop_spec; [done|done|]. unfold due_rows. rewrite sort_by_perm.
  pose proof (filter_length_le (due instance through) (parked s)). lia.
Qed.

(** It takes the due rows off the parked ones, in one step. *)
Lemma release_deferred_perm s s' released :
  parked_ok s → through ≤ i64_max →
  release_deferred_changes instance through finality now s = Ok (s', released) →
  fold_result publish s (due_rows instance through s) = Ok s' ∧ parked s ≡ₚ due_rows instance through s ++ parked s'.
Proof.
  intros Hok Hthrough. rewrite release_deferred_eq by done. intros (s1 & Hfold & [= -> <-])%result_bind_Ok. split; [done|].
  destruct (due_rows_exact instance through s Hok) as (rest & Hperm & _).
  by rewrite Hperm, (release_rows_rest _ _ _ _ Hok Hperm Hfold) at 1.
Qed.
End release_facts.

(** ** What an append leaves *)

Section append_facts.
Context (instance stream_id : string) (origin : DeliveryOrigin) (chain_id : Z) (block : BlockRef)
  (finality : Finality) (direction : ChangeDirection) (sink_ids : list string) (now : Z).
#[local] Abbreviation step :=
  (append_change instance stream_id origin chain_id block finality direction sink_ids now).

(** The rows of the changes, from a rowid and a stream sequence on. *)
Fixpoint appended_rows (rowid sequence : Z) (changes : list DomainChange) : list ChangeRow :=
  match changes with
  | [] => []
  | change :: changes =>
      MkRow rowid chain_id instance stream_id sequence origin block finality direction change now
      :: appended_rows (rowid + 1) (sequence + 1) changes
  end.

Definition outbox_rows (rows : list ChangeRow) : list (string * Z) :=
  rows ≫= λ row, (λ sink, (sink, row_sequence row)) <$> sink_ids.

Lemma insert_outbox_Ok rowid s sinks s' :
  fold_result (insert_outbox rowid) s sinks = Ok s' →
  s' = MkDelivery (streams s) (change_log s) (last_rowid s)
         (sink_outbox s ++ ((λ sink, (sink, rowid)) <$> sinks)) (parked s).
Proof.
  revert s; induction sinks as [|sink sinks IH]; intros s; cbn.
  { intros [= <-]. rewrite app_nil_r. by destruct s. }
  intros (s1 & H1 & H2)%result_bind_Ok. apply IH in H2 as ->.
  unfold insert_outbox in H1. destruct (bool_decide _) in H1; [done|]. injection H1 as <-. cbn. by rewrite <-app_assoc.
Qed.

(** One iteration that succeeds. *)
Lemma append_change_Ok a change a' :
  step a change = Ok a' →
  let rowid := last_rowid (appending_store a) + 1 in
  let sequence := appending_next a in
  let row := MkRow rowid chain_id instance stream_id sequence origin block finality direction change now in
  let s := appending_store a in
  log_conflict s row = false ∧ 0 ≤ sequence ∧
  a' = MkAppending
    (MkDelivery (streams s) (change_log s ++ [row]) rowid (sink_outbox s ++ outbox_rows [row]) (parked s))
    (sequence + 1) (appended_bytes a + change_bytes change)
    (match appended_first a with Some first => Some first | None => Some sequence end) (Some sequence).
Proof.
  unfold append_change. cbn zeta.
  intros (bytes & Hb & H)%result_bind_Ok. apply result_bind_Ok in H as (total & Ht & H).
  apply result_bind_Ok in H as (chain & Hc & H). apply result_bind_Ok in H as (revision & Hr & H).
  apply result_bind_Ok in H as (number & Hn & H). apply result_bind_Ok in H as (timestamp & Hts & H).
  apply result_bind_Ok in H as ([s rowid] & Hs & H). apply result_bind_Ok in H as (sequence & Hq & H).
  apply result_bind_Ok in H as (next & Hx & H). apply result_bind_Ok in H as (s' & Ho & [= <-]).
  unfold checked_u64, checked_i64, i64_u64, u64_i64 in *.
  repeat match goal with H : (if ?b then _ else _) = Ok _ |- _ => destruct b eqn:?; [|done]; injection H as <- end.
  unfold insert_row in Hs. destruct (log_conflict _ _) eqn:Hconf; [done|]. injection Hs as <- <-.
  apply insert_outbox_Ok in Ho as ->. cbn in *. rewrite app_nil_r.
  split_and!; [done|by apply Z.leb_le|done].
Qed.

Lemma append_loop a changes a' :
  fold_result step a changes = Ok a' →
  let s := appending_store a in
  let rows := appended_rows (last_rowid s + 1) (appending_next a) changes in
  let n := Z.of_nat (length changes) in
  a' = MkAppending
    (MkDelivery (streams s) (change_log s ++ rows) (last_rowid s + n) (sink_outbox s ++ outbox_rows rows)
       (parked s))
    (appending_next a + n) (appended_bytes a + Z_sum (change_bytes <$> changes))
    (match appended_first a, changes with
     | None, _ :: _ => Some (appending_next a) | first, _ => first end)
    (match changes with [] => appended_last a | _ => Some (appending_next a + n - 1) end).
Proof.
  revert a; induction changes as [|change changes IH]; intros a; cbn zeta.
  - cbn. intros [= <-]. rewrite !app_nil_r, !Z.add_0_r. destruct a as [[] ? ? [] ?]; done.
  - cbn [fold_result]. intros (a1 & H1 & ->%IH)%result_bind_Ok.
    apply append_change_Ok in H1 as (_ & _ & ->). cbn zeta. cbn [appending_store appending_next appended_bytes
      appended_first appended_last streams change_log last_rowid sink_outbox parked appended_rows length].
    f_equal.
    + f_equal; [by rewrite <-app_assoc|lia|].
      unfold outbox_rows. cbn. by rewrite app_nil_r, <-app_assoc.
    + lia.
    + unfold Z_sum. cbn. lia.
    + by destruct (appended_first a), changes.
    + destruct changes; cbn [length]; f_equal; lia.
Qed.

(** A successful append, in full. *)
Lemma append_changes_Ok s changes s' first last stream :
  streams s !! stream_id = Some stream →
  append_changes instance stream_id origin chain_id block finality direction sink_ids now s changes
    = Ok (s', (first, last)) →
  let n := Z.of_nat (length changes) in
  let rows := appended_rows (last_rowid s + 1) (next_sequence stream) changes in
  s' = MkDelivery
    (<[stream_id := MkStream (stream_instance stream) (stream_kind stream) (next_sequence stream + n)
       (pruned_through_sequence stream) (live_bytes stream + Z_sum (change_bytes <$> changes))]> (streams s))
    (change_log s ++ rows) (last_rowid s + n) (sink_outbox s ++ outbox_rows rows) (parked s) ∧
  first = (match changes with [] => None | _ => Some (next_sequence stream) end) ∧
  last = (match changes with [] => None | _ => Some (next_sequence stream + n - 1) end).
Proof.
  intros Hst. unfold append_changes. rewrite Hst. cbn [ok_or mbind result_bind].
  intros (a & Ha & Hr)%result_bind_Ok. apply append_loop in Ha. cbn zeta in *. subst a.
  destruct changes as [|change changes].
  - cbn in Hr |- *. injection Hr as <- <- <-. rewrite !app_nil_r, !Z.add_0_r. split_and!; [|done..].
    rewrite insert_id; [by destruct s|]. rewrite Hst. by destruct stream.
  - apply result_bind_Ok in Hr as (bytes & Hb & Hr). apply result_bind_Ok in Hr as (total & Ht & Hr).
    cbn [appended_bytes appending_store appending_next appended_first appended_last] in *.
    injection Hr as <- <- <-. unfold u64_i64 in Hb. destruct (_ <=? _) in Hb; [|done]. injection Hb as <-.
    destruct (_ <=? _) in Ht; [|done]. injection Ht as <-. rewrite !Z.add_0_l in *. done.
Qed.
End append_facts.

(** ** Announcements *)

(** What a consumer is told by a row: stream, block, level, direction and
    change. *)
Definition Announcement : Type := string * BlockRef * Finality * ChangeDirection * DomainChange.
Definition announcement (row : ChangeRow) : Announcement :=
  (row_stream row, row_block row, row_finality row, row_direction row, row_change row).

Definition announce (stream : string) (block : BlockRef) (finality : Finality) (direction : ChangeDirection)
    (changes : list DomainChange) : list Announcement :=
  (λ c, (stream, block, finality, direction, c)) <$> changes.

(** The changes of parked rows, row by row. *)
Definition announce_parked (finality : Finality) (rows : list Deferred) : list Announcement :=
  rows ≫= λ row, announce (deferred_stream row) (deferred_block row) finality DirApply (deferred_changes row).

(** The log grows by rows that announce [added]. *)
Definition log_grows (s s' : Delivery) (added : list Announcement) : Prop :=
  ∃ rows, change_log s' = change_log s ++ rows ∧ announcement <$> rows = added.

Lemma log_grows_nil s : log_grows s s [].
Proof. exists []. by rewrite app_nil_r. Qed.

Lemma log_grows_app s1 s2 s3 a b : log_grows s1 s2 a → log_grows s2 s3 b → log_grows s1 s3 (a ++ b).
Proof. intros (r & Hr & <-) (q & Hq & <-). exists (r ++ q). by rewrite Hq, Hr, app_assoc, fmap_app. Qed.

Lemma append_changes_log instance stream origin chain block finality direction sinks now s changes s' r :
  append_changes instance stream origin chain block finality direction sinks now s changes = Ok (s', r) →
  log_grows s s' (announce stream block finality direction changes) ∧ parked s' = parked s.
Proof.
  intros Ha. destruct r as [first last].
  assert (∃ st, streams s !! stream = Some st) as [st Hst].
  { unfold append_changes in Ha. destruct (streams s !! stream); [by eexists|done]. }
  eapply append_changes_Ok in Ha as (-> & _ & _); [|exact Hst]. split; [|done].
  eexists. split; [done|]. generalize (last_rowid s + 1), (next_sequence st). unfold announce.
  induction changes as [|c changes IH]; intros rowid sequence; cbn; [done|]. by rewrite IH.
Qed.

Lemma release_rows_log instance finality now s rows s' :
  fold_result (release_row instance finality now) s rows = Ok s' → log_grows s s' (announce_parked finality rows).
Proof.
  revert s; induction rows as [|row rows IH]; intros s; cbn; [intros [= <-]; apply log_grows_nil|].
  intros (s1 & H1 & H2)%result_bind_Ok. unfold release_row in H1.
  apply result_bind_Ok in H1 as ([s2 r] & [Hlog _]%append_changes_log & [= <-]).
  eapply log_grows_app; [exact Hlog|]. by apply IH in H2.
Qed.

(** C35: parked changes go out in block order. Releasing an instance's
    parked changes through a block publishes every one of its rows at or
    below the block and no other, each row once, by block number and then by
    the order they were parked in; the batching of the reads changes nothing,
    not even which error stops it. It reports a release exactly when there
    was a row. What it adds to the change log is the changes of those rows,
    in that order, and what it leaves parked is the rows that were not due. *)
Theorem release_in_block_order instance through finality now s
    (Hparked : parked_ok s) (Hthrough : through ≤ i64_max) :
  ∃ rows rest, parked s ≡ₚ rows ++ rest
  ∧ (∀ row, row ∈ rows → deferred_instance row = instance ∧ deferred_number row ≤ through)
  ∧ (∀ row, row ∈ rest → deferred_instance row = instance → through < deferred_number row)
  ∧ StronglySorted goes_before rows
  ∧ release_deferred_changes instance through finality now s =
      (s' ← fold_result (release_row instance finality now) s rows; Ok (s', negb (bool_decide (rows = []))))
  ∧ ∀ s' released, release_deferred_changes instance through finality now s = Ok (s', released) →
      log_grows s s' (announce_parked finality rows) ∧ parked s' ≡ₚ rest.
Proof.
  intros. destruct (due_rows_exact instance through s Hparked) as (rest & Hperm & Hin & Hout & Hsorted).
  exists (due_rows instance through s), rest. do 4 (split; [done|]). split; [by apply release_deferred_eq|].
  intros s' released (Hfold & Hparked')%release_deferred_perm; [|done..]. split; [by eapply release_rows_log|].
  rewrite Hperm in Hparked'. by apply Permutation_app_inv_l in Hparked'.
Qed.

(** ** Streams without gaps *)

Definition stream_rows (s : Delivery) (id : string) : list ChangeRow :=
  List.filter (λ row, bool_decide (row_stream row = id)) (change_log s).

Definition stream_dense (s : Delivery) (id : string) (stream : Stream) : Prop :=
  0 ≤ pruned_through_sequence stream < next_sequence stream ∧
  row_stream_sequence <$> stream_rows s id =
    seqZ (pruned_through_sequence stream + 1) (next_sequence stream - pruned_through_sequence stream - 1) ∧
  live_bytes stream = Z_sum (change_bytes ∘ row_change <$> stream_rows s id).

Record delivery_ok (s : Delivery) : Prop := MkDeliveryOk {
  rowids_ascend : StronglySorted Z.lt (row_sequence <$> change_log s);
  rowids_bound : ∀ row, row ∈ change_log s → row_sequence row ≤ last_rowid s;
  rows_have_stream : ∀ row, row ∈ change_log s → is_Some (streams s !! row_stream row);
  streams_dense : map_Forall (stream_dense s) (streams s);
  outbox_refers : ∀ sink rowid, (sink, rowid) ∈ sink_outbox s →
    ∃ row, row ∈ change_log s ∧ row_sequence row = rowid;
}.

Section rows.
Context (instance stream_id : string) (origin : DeliveryOrigin) (chain_id : Z) (block : BlockRef)
  (finality : Finality) (direction : ChangeDirection) (now : Z).
#[local] Abbreviation rows :=
  (appended_rows instance stream_id origin chain_id block finality direction now).

Lemma appended_rowids rowid sequence changes :
  row_sequence <$> rows rowid sequence changes = seqZ rowid (Z.of_nat (length changes)).
Proof.
  revert rowid sequence; induction changes as [|c changes IH]; intros rowid sequence; [done|].
  cbn [appended_rows length]. rewrite seqZ_cons by lia. cbn. rewrite IH. do 2 f_equal; lia.
Qed.

Lemma appended_sequences rowid sequence changes :
  row_stream_sequence <$> rows rowid sequence changes = seqZ sequence (Z.of_nat (length changes)).
Proof.
  revert rowid sequence; induction changes as [|c changes IH]; intros rowid sequence; [done|].
  cbn [appended_rows length]. rewrite seqZ_cons by lia. cbn. rewrite IH. do 2 f_equal; lia.
Qed.

Lemma appended_changes rowid sequence changes : row_change <$> rows rowid sequence changes = changes.
Proof.
  revert rowid sequence; induction changes as [|c changes IH]; intros rowid sequence; [done|].
  cbn. by rewrite IH.
Qed.

Lemma appended_stream rowid sequence changes row :
  row ∈ rows rowid sequence changes → row_stream row = stream_id.
Proof.
  revert rowid sequence; induction changes as [|c changes IH]; intros rowid sequence; cbn;
    [by intros ?%elem_of_nil|]. intros [->|Hr]%elem_of_cons; [done|]. by eapply IH.
Qed.

Lemma appended_filter rowid sequence changes id :
  List.filter (λ row, bool_decide (row_stream row = id)) (rows rowid sequence changes) =
    if bool_decide (stream_id = id) then rows rowid sequence changes else [].
Proof.
  revert rowid sequence; induction changes as [|c changes IH]; intros rowid sequence; cbn.
  - by case_bool_decide.
  - rewrite IH. by case_bool_decide.
Qed.
End rows.

Lemma filter_list_app {A} (f : A → bool) l1 l2 : List.filter f (l1 ++ l2) = List.filter f l1 ++ List.filter f l2.
Proof. apply List.filter_app. Qed.

(** Appending keeps every stream without gaps. *)
Lemma append_changes_ok instance stream_id origin chain_id block finality direction sinks now s changes s' r :
  delivery_ok s →
  append_changes instance stream_id origin chain_id block finality direction sinks now s changes = Ok (s', r) →
  delivery_ok s'.
Proof.
  intros Hok Ha. destruct r as [first last].
  assert (∃ stream, streams s !! stream_id = Some stream) as [stream Hst].
  { unfold append_changes in Ha. destruct (streams s !! stream_id); [by eexists|done]. }
  eapply append_changes_Ok in Ha as (-> & _ & _); [|exact Hst].
  destruct Hok as [Hasc Hbound Hhave Hdense Hout]. split; cbn [change_log streams last_rowid sink_outbox].
  - rewrite fmap_app, appended_rowids. apply StronglySorted_app_2; [|done|apply StronglySorted_seqZ].
    intros x y (row & -> & Hrow)%list_elem_of_fmap Hy%elem_of_seqZ. specialize (Hbound row Hrow). lia.
  - intros row [Hrow|Hrow]%elem_of_app; [specialize (Hbound row Hrow); lia|].
    apply (list_elem_of_fmap_2 row_sequence) in Hrow. rewrite appended_rowids, elem_of_seqZ in Hrow. lia.
  - intros row [Hrow|Hrow%appended_stream]%elem_of_app.
    + destruct (decide (row_stream row = stream_id)) as [->|]; [by rewrite lookup_insert_eq|].
      rewrite lookup_insert_ne by done. by apply Hhave.
    + rewrite Hrow, lookup_insert_eq. by eexists.
  - intros id st. unfold stream_dense, stream_rows. cbn [change_log].
    rewrite filter_list_app, appended_filter.
    intros [[<- <-]|[Hne Hid]]%lookup_insert_Some.
    + rewrite bool_decide_eq_true_2 by done. destruct (Hdense _ _ Hst) as (Hb & Hseq & Hlive).
      cbn. split_and!; [lia|lia|..].
      * fold (stream_rows s stream_id). rewrite fmap_app, Hseq, appended_sequences.
        replace (next_sequence stream + Z.of_nat (length changes) - pruned_through_sequence stream - 1)
          with ((next_sequence stream - pruned_through_sequence stream - 1) + Z.of_nat (length changes)) by lia.
        rewrite seqZ_app by lia. do 2 f_equal; lia.
      * fold (stream_rows s stream_id). rewrite fmap_app, Z_sum_app, <-Hlive.
        by rewrite (list_fmap_compose row_change change_bytes), appended_changes.
    + rewrite bool_decide_eq_false_2 by congruence. rewrite app_nil_r. by apply (Hdense id).
  - intros sink rowid [Hin|Hin]%elem_of_app.
    + destruct (Hout sink rowid Hin) as (row & Hrow & Heq). exists row. split; [|done]. apply elem_of_app. by left.
    + unfold outbox_rows in Hin. apply list_elem_of_bind in Hin as (row & Hin & Hrow).
      apply list_elem_of_fmap in Hin as (sink' & [= -> ->] & _). exists row.
      split; [apply elem_of_app; by right|done].
Qed.

(** Coordinates and totals SQLite can hold, each sink named once, and no
    change posing as a stream's completion record. *)
Record admissible (s : Delivery) (stream : Stream) (chain_id : Z) (origin : DeliveryOrigin)
    (block : BlockRef) (sinks : list string) (changes : list DomainChange) : Prop := MkAdmissible {
  admissible_chain : chain_id ≤ i64_max;
  admissible_revision : publication_revision origin ≤ i64_max;
  admissible_block : block_fits block;
  admissible_sinks : NoDup sinks;
  admissible_kinds : ∀ c, c ∈ changes → change_kind c ≠ "system.backfill_complete"%string;
  admissible_bytes : live_bytes stream + Z_sum (change_bytes <$> changes) ≤ i64_max;
  admissible_count : next_sequence stream + Z.of_nat (length changes) ≤ i64_max;
}.

Lemma change_bytes_nonneg c : 0 ≤ change_bytes c.
Proof. unfold change_bytes. lia. Qed.

Lemma change_bytes_sum (changes : list DomainChange) : 0 ≤ Z_sum (change_bytes <$> changes).
Proof. apply Z_sum_nonneg, Forall_fmap, Forall_forall. intros c _. apply change_bytes_nonneg. Qed.

Lemma insert_outbox_total rowid s sinks :
  NoDup sinks → (∀ sink, sink ∈ sinks → (sink, rowid) ∉ sink_outbox s) →
  ∃ s', fold_result (insert_outbox rowid) s sinks = Ok s'.
Proof.
  revert s; induction sinks as [|sink sinks IH]; intros s Hnd Hnew; cbn; [by eexists|].
  apply NoDup_cons in Hnd as [Hn Hnd].
  assert (insert_outbox rowid s sink = Ok (MkDelivery (streams s) (change_log s) (last_rowid s)
    (sink_outbox s ++ [(sink, rowid)]) (parked s))) as ->.
  { unfold insert_outbox. rewrite bool_decide_eq_false_2; [done|]. apply Hnew. by left. }
  cbn. apply IH; [done|]. intros sink' Hin. cbn. rewrite not_elem_of_app, list_elem_of_singleton.
  split; [apply Hnew; by right|]. by intros [= ->].
Qed.

Section append_total.
Context (instance stream_id : string) (origin : DeliveryOrigin) (chain_id : Z) (block : BlockRef)
  (finality : Finality) (direction : ChangeDirection) (sink_ids : list string) (now : Z).
Context (Hchain : chain_id ≤ i64_max) (Hrevision : publication_revision origin ≤ i64_max).
Context (Hblock : block_fits block) (Hsinks : NoDup sink_ids).
#[local] Abbreviation step :=
  (append_change instance stream_id origin chain_id block finality direction sink_ids now).

(** The loop's locals while it cannot fail. *)
Record appending_ok (a : Appending) : Prop := MkAppendingOk {
  appending_next_ok : 0 ≤ appending_next a;
  appending_bytes_ok : 0 ≤ appended_bytes a;
  appending_rows_ok : ∀ row, row ∈ change_log (appending_store a) → row_stream row = stream_id →
    row_stream_sequence row < appending_next a;
  appending_outbox_ok : ∀ sink rowid, (sink, rowid) ∈ sink_outbox (appending_store a) →
    rowid ≤ last_rowid (appending_store a);
}.

Lemma append_change_total a change :
  appending_ok a → change_kind change ≠ "system.backfill_complete"%string →
  appended_bytes a + change_bytes change ≤ i64_max → appending_next a + 1 ≤ i64_max →
  ∃ a', step a change = Ok a' ∧ appending_ok a'.
Proof.
  intros [Hnext Hbytes Hrows Hout] Hkind Hsum Hlast. pose proof (change_bytes_nonneg change) as Hc.
  assert (i64_max < u64_max) by uints. destruct Hblock as [Hn Ht].
  set (row := MkRow (last_rowid (appending_store a) + 1) chain_id instance stream_id (appending_next a)
    origin block finality direction change now).
  assert (log_conflict (appending_store a) row = false) as Hconf.
  { apply existsb_false. intros other Hother. apply andb_false_iff.
    destruct (decide (row_stream other = stream_id)) as [Hs|Hs]; [right|left; by apply bool_decide_eq_false_2].
    apply orb_false_iff. split.
    - apply bool_decide_eq_false_2. cbn. specialize (Hrows other Hother Hs). lia.
    - apply andb_false_iff. right. by apply bool_decide_eq_false_2. }
  destruct (insert_outbox_total (last_rowid (appending_store a) + 1)
    (MkDelivery (streams (appending_store a)) (change_log (appending_store a) ++ [row])
       (last_rowid (appending_store a) + 1) (sink_outbox (appending_store a)) (parked (appending_store a)))
    sink_ids Hsinks) as [s' Hs'].
  { intros sink _ Hin. specialize (Hout _ _ Hin). lia. }
  assert (∃ a', step a change = Ok a') as [a' Ha'].
  { unfold append_change, checked_u64, checked_i64, i64_u64.
    repeat (first [rewrite (proj2 (Z.leb_le _ _)) by lia | rewrite u64_i64_fits by done
      | progress unfold insert_row | progress fold row | rewrite Hconf | rewrite Hs'];
      cbn [mbind result_bind]).
    by eexists. }
  exists a'. split; [done|]. apply append_change_Ok in Ha' as (_ & _ & ->). split; cbn [appending_next
    appended_bytes appending_store change_log sink_outbox last_rowid]; [lia|lia|..].
  - intros r [Hr | ->%list_elem_of_singleton]%elem_of_app Hrs; [specialize (Hrows r Hr Hrs); lia|cbn; lia].
  - intros sink rowid [Hin|Hin]%elem_of_app; [specialize (Hout _ _ Hin); lia|].
    unfold outbox_rows in Hin. apply list_elem_of_bind in Hin as (r & Hin & ->%list_elem_of_singleton).
    apply list_elem_of_fmap in Hin as (x & [= _ ->] & _). done.
Qed.

Lemma append_loop_total a changes :
  appending_ok a → (∀ c, c ∈ changes → change_kind c ≠ "system.backfill_complete"%string) →
  appended_bytes a + Z_sum (change_bytes <$> changes) ≤ i64_max →
  appending_next a + Z.of_nat (length changes) ≤ i64_max →
  ∃ a', fold_result step a changes = Ok a'.
Proof.
  revert a; induction changes as [|c changes IH]; intros a Hok Hkinds Hsum Hcount; cbn; [by eexists|].
  pose proof (change_bytes_sum changes). unfold Z_sum in Hsum. cbn in Hsum, Hcount.
  fold (Z_sum (change_bytes <$> changes)) in Hsum.
  destruct (append_change_total a c) as (a' & Ha' & Hok'); [done|apply Hkinds; by left|lia|lia|].
  rewrite Ha'. cbn [mbind result_bind]. apply append_change_Ok in Ha' as (_ & _ & Heq). cbn zeta in Heq.
  apply IH; [done|intros c' Hc'; apply Hkinds; by right|..]; rewrite Heq; cbn; lia.
Qed.
End append_total.

(** C34: appending is total and leaves no gap. On a store whose streams have
    no gaps, appending a block's changes within SQLite's ranges succeeds:
    the stream gets one record per change, in order, under the sequences
    right after its last one, first and last of which are returned; its
    retained bytes grow by the changes' bytes; every sink is owed every
    record; no other stream changes; and again no stream has a gap, a
    repeated sequence, or retained bytes other than its records'. *)
Theorem append_changes_dense instance stream_id origin chain_id block finality direction sinks now s changes stream
    (Hok : delivery_ok s) (Hstream : streams s !! stream_id = Some stream)
    (Hadm : admissible s stream chain_id origin block sinks changes) :
  let n := Z.of_nat (length changes) in
  let next := next_sequence stream in
  ∃ s', append_changes instance stream_id origin chain_id block finality direction sinks now s changes =
      Ok (s', if bool_decide (changes = []) then (None, None) else (Some next, Some (next + n - 1))) ∧
    delivery_ok s' ∧ parked s' = parked s ∧
    (∀ id, id ≠ stream_id → streams s' !! id = streams s !! id ∧ stream_rows s' id = stream_rows s id) ∧
    (∃ rows, stream_rows s' stream_id = stream_rows s stream_id ++ rows ∧
       row_change <$> rows = changes ∧ row_stream_sequence <$> rows = seqZ next n ∧
       sink_outbox s' = sink_outbox s ++ outbox_rows sinks rows) ∧
    live_bytes <$> streams s' !! stream_id =
      Some (live_bytes stream + Z_sum (change_bytes <$> changes)).
Proof.
  cbn zeta. destruct Hadm as [Hchain Hrev Hblock Hsinks Hkinds Hbytes Hcount].
  pose proof (streams_dense s Hok _ _ Hstream) as (Hpruned & Hseq & Hlive).
  assert (0 ≤ live_bytes stream) as Hlive0.
  { rewrite Hlive. apply Z_sum_nonneg, Forall_fmap, Forall_forall. intros r _. apply change_bytes_nonneg. }
  destruct (append_loop_total instance stream_id origin chain_id block finality direction sinks now
    Hchain Hrev Hblock Hsinks (MkAppending s (next_sequence stream) 0 None None) changes) as [a Ha].
  { split; cbn; [lia|lia|..].
    - intros row Hrow Hrs. assert (row_stream_sequence row ∈ row_stream_sequence <$> stream_rows s stream_id) as Hin.
      { apply list_elem_of_fmap_2. unfold stream_rows. apply elem_of_filter_list.
        by rewrite bool_decide_eq_true. }
      rewrite Hseq, elem_of_seqZ in Hin. lia.
    - intros sink rowid (row & Hrow & <-)%(outbox_refers s Hok). by apply rowids_bound. }
  { done. }
  { cbn. lia. }
  { done. }
  assert (∃ s' r, append_changes instance stream_id origin chain_id block finality direction sinks now s changes
    = Ok (s', r)) as (s' & [first last] & Happ).
  { unfold append_changes. rewrite Hstream. cbn [ok_or mbind result_bind]. rewrite Ha. cbn [mbind result_bind].
    destruct changes as [|c changes]; [by eexists _, _|]. apply append_loop in Ha as ->. cbn [appended_bytes].
    rewrite u64_i64_fits by lia. cbn [mbind result_bind]. rewrite (proj2 (Z.leb_le _ _)) by lia.
    by eexists _, _. }
  pose proof (append_changes_ok _ _ _ _ _ _ _ _ _ _ _ _ _ Hok Happ) as Hok'.
  pose proof (append_changes_Ok _ _ _ _ _ _ _ _ _ _ _ _ _ _ _ Hstream Happ) as (Hs' & Hf & Hl).
  exists s'. rewrite Happ. split_and!; [|done|by rewrite Hs'|..].
  - rewrite Hf, Hl. by destruct changes.
  - intros id Hne. rewrite Hs'. unfold stream_rows. cbn. rewrite lookup_insert_ne by done.
    rewrite filter_list_app, appended_filter, bool_decide_eq_false_2 by done. by rewrite app_nil_r.
  - eexists. rewrite Hs'. unfold stream_rows at 1. cbn. rewrite filter_list_app, appended_filter.
    rewrite bool_decide_eq_true_2 by done. split_and!; [done|apply appended_changes|apply appended_sequences|done].
  - rewrite Hs'. cbn [streams]. by rewrite lookup_insert_eq.
Qed.

(** ** Examples *)

Definition sample_change (k : byte) : DomainChange := MkChange "e" [k] Upsert [x0a; x0b].
Definition sample_parked (id number : Z) (k : byte) : Deferred :=
  MkDeferred id "p" "p:canonical" 1 number hash_zero (MkBlockRef number hash_zero hash_zero 0)
    (origin_live "p") [sample_change k] ["sink"%string] 3.
Definition sample_delivery : Delivery :=
  MkDelivery {[ "p:canonical"%string := MkStream "p" StreamCanonical 1 0 0 ]} [] 0 []
    [sample_parked 1 7 x07; sample_parked 2 5 x05; sample_parked 3 9 x09].

Lemma append_changes_dense_witness :
  ∃ s', append_changes "p" "p:canonical" (origin_live "p") 1 (MkBlockRef 4 hash_zero hash_zero 0) Attested
      DirApply ["sink"%string] 99 sample_delivery [sample_change x01; sample_change x02] = Ok (s', (Some 1, Some 2)) ∧
    delivery_ok s' ∧ live_bytes <$> streams s' !! "p:canonical"%string = Some 6.
Proof.
  destruct (append_changes_dense "p" "p:canonical" (origin_live "p") 1 (MkBlockRef 4 hash_zero hash_zero 0) Attested
    DirApply ["sink"%string] 99 sample_delivery [sample_change x01; sample_change x02]
    (MkStream "p" StreamCanonical 1 0 0)) as (s' & H1 & H2 & _ & _ & _ & H3).
  - split; [constructor|by intros ? ?%elem_of_nil|by intros ? ?%elem_of_nil| |by intros ? ? ?%elem_of_nil].
    intros id st Hst. unfold sample_delivery in Hst. cbn [streams] in Hst. apply lookup_singleton_Some in Hst as [<- <-].
    split_and!; [cbn; lia|cbn; lia|reflexivity|reflexivity].
  - reflexivity.
  - split; [uints|cbn; uints|split; cbn; uints|apply NoDup_singleton| |vm_compute; discriminate|cbn; uints].
    intros c [->|[->|[]%elem_of_nil]%elem_of_cons]%elem_of_cons; discriminate.
  - exists s'. exact (conj H1 (conj H2 H3)).
Defined.

Lemma release_in_block_order_witness :
  match release_deferred_changes "p" 7 Attested 99 sample_delivery with
  | Ok (s', released) =>
      released = true ∧ row_change <$> change_log s' = [sample_change x05; sample_change x07] ∧
      deferred_id <$> parked s' = [3]
  | Err _ => False
  end ∧
  ∃ rows rest, parked sample_delivery ≡ₚ rows ++ rest ∧ StronglySorted goes_before rows.
Proof.
  split; [vm_compute; split_and!; reflexivity|].
  destruct (release_in_block_order "p" 7 Attested 99 sample_delivery) as (rows & rest & Hperm & _ & _ & Hsorted & _);
    [|uints|by exists rows, rest].
  apply (bool_decide_unpack (NoDup (deferred_id <$> parked sample_delivery))). vm_compute. exact I.
Defined.
