(* ===== verification/Ranges.v ===== *)
(** * Block range sets

    Models the range arithmetic of [crates/store-sqlite/src/lib.rs] behind
    coverage, backfill subscriptions and coverage ownership:
    [normalize_ranges], [normalized_subscription_ranges],
    [merge_block_numbers] and [extend_shared_coverage_owner_range]. *)
From Stdlib Require Import ZArith Lia Strings.Byte.
From stdpp Require Import gmap strings list list_numbers fin_maps sorting pretty.
From S2P Require Import Prelude Bytes Chain Capability Material Provenance Frame SourceContract Planner Durable Descriptor Delta Rows.

(** [BlockRangeError]'s message. *)
Definition range_error_text (e : BlockRangeError) : string :=
  "invalid block range " +:+ pretty (error_start e) +:+ "..=" +:+ pretty (error_end e) +:+
  ": end precedes start".

(** The key [(start, end)]; equal keys are equal ranges, so that an unstable
    sort is as good as a stable one. *)
Definition range_cmp (x y : BlockRange) : comparison :=
  then_with (range_start x ?= range_start y) (range_end x ?= range_end y).

(** One iteration of the merging loop. *)
Definition normalize_step (normalized : list BlockRange) (range : BlockRange)
    : result StoreError (list BlockRange) :=
  match last normalized with
  | Some previous =>
      if range_start range <=? sat_add (range_end previous) 1
      then
        merged ← map_err (InvalidConfig ∘ range_error_text)
          (BlockRange.new (range_start previous) (Z.max (range_end previous) (range_end range)));
        Ok (removelast normalized ++ [merged])
      else Ok (normalized ++ [range])
  | None => Ok (normalized ++ [range])
  end.

Definition normalize_ranges (ranges : list BlockRange) : result StoreError (list BlockRange) :=
  fold_result normalize_step [] (sort_by (cmp_leb range_cmp) ranges).

(** [subscription.ranges] and [subscription.range]. *)
Definition normalized_subscription_ranges (ranges : list BlockRange) (range : BlockRange)
    : result StoreError (list BlockRange) :=
  normalized ← normalize_ranges (match ranges with [] => [range] | _ => ranges end);
  match head normalized, last normalized with
  | Some first, Some final =>
      bounding ← map_err (InvalidConfig ∘ range_error_text)
        (BlockRange.new (range_start first) (range_end final));
      if bool_decide (bounding ≠ range)
      then Err (InvalidConfig "backfill subscription bounding range does not match its range set")
      else Ok normalized
  | _, _ => Err (InvalidConfig "backfill subscription range set must not be empty")
  end.

(** The loop of [merge_block_numbers] after its first number. *)
Fixpoint merge_numbers (start stop : Z) (output : list BlockRange) (numbers : list Z)
    : result StoreError (list BlockRange) :=
  match numbers with
  | [] =>
      range ← map_err (StoreInvariant ∘ range_error_text) (BlockRange.new start stop);
      Ok (output ++ [range])
  | number :: numbers =>
      if number =? stop then merge_numbers start stop output numbers
      else if number =? sat_add stop 1 then merge_numbers start number output numbers
      else
        range ← map_err (StoreInvariant ∘ range_error_text) (BlockRange.new start stop);
        merge_numbers number number (output ++ [range]) numbers
  end.

Definition merge_block_numbers (numbers : list Z) : result StoreError (list BlockRange) :=
  match numbers with [] => Ok [] | start :: numbers => merge_numbers start start [] numbers end.

(** The rows of [finalized_coverage_owners] of the shared canonical owner of
    one instance: [to_block] by [from_block]. *)
Definition owner_rows (owners : gmap Z Z) : list BlockRange :=
  (λ e, MkBlockRange e.1 e.2) <$> map_entries Z.le owners.

Definition touches (start stop : Z) (row : BlockRange) : bool :=
  (range_start row <=? Z.min i64_max (stop + 1)) && (Z.max i64_min (start - 1) <=? range_end row).

Definition extend_shared_coverage_owner_range (owners : gmap Z Z) (range : BlockRange)
    : result StoreError (gmap Z Z) :=
  start ← u64_i64 (range_start range) "shared coverage owner start";
  stop ← u64_i64 (range_end range) "shared coverage owner end";
  let touching := List.filter (touches start stop) (owner_rows owners) in
  let merged_start := match touching with [] => start | row :: _ => Z.min start (range_start row) end in
  let merged_end := fold_left (λ merged row, Z.max merged (range_end row)) touching stop in
  let kept := foldr (λ row m, delete (range_start row) m) owners touching in
  let replaced :=
    if bool_decide (is_Some (kept !! merged_start))
    then Err (Sqlx "UNIQUE constraint failed: finalized_coverage_owners")
    else Ok (<[merged_start := merged_end]> kept) in
  match touching with
  | [row] =>
      if range_start row =? merged_start
      then Ok (if negb (range_end row =? merged_end) then <[range_start row := merged_end]> owners else owners)
      else replaced
  | _ => replaced
  end.

Example normalize_example :
  normalize_ranges [MkBlockRange 8 9; MkBlockRange 1 3; MkBlockRange 4 5] = Ok [MkBlockRange 1 5; MkBlockRange 8 9].
Proof. reflexivity. Qed.

(** ** Canonical lists *)

(** Valid ranges in order, with a hole before each. *)
Fixpoint canonical_from (lo : Z) (rs : list BlockRange) : Prop :=
  match rs with
  | [] => True
  | r :: rs => lo ≤ range_start r ≤ range_end r ∧ canonical_from (range_end r + 2) rs
  end.

Lemma canonical_weaken lo lo' rs : lo' ≤ lo → canonical_from lo rs → canonical_from lo' rs.
Proof. destruct rs; cbn; [done|]. intros. split; [lia|tauto]. Qed.

Lemma canonical_lower lo rs b : canonical_from lo rs → in_ranges rs b → lo ≤ b.
Proof.
  revert lo; induction rs as [|r rs IH]; intros lo; [by intros _ ?%in_ranges_nil|].
  cbn. intros [Hr Hrs]. rewrite in_ranges_cons. intros [|Hb]; [lia|]. specialize (IH _ Hrs Hb). lia.
Qed.

(** A set of blocks has one canonical list. *)
Lemma canonical_unique lo lo' rs rs' :
  canonical_from lo rs → canonical_from lo' rs' →
  (∀ b, in_ranges rs b ↔ in_ranges rs' b) → rs = rs'.
Proof.
  revert lo lo' rs'; induction rs as [|r rs IH]; intros lo lo' [|r' rs']; cbn [canonical_from].
  - done.
  - intros _ [Hr _] Hb. exfalso. apply (in_ranges_nil (range_start r')), Hb.
    apply in_ranges_cons. left. lia.
  - intros [Hr _] _ Hb. exfalso. apply (in_ranges_nil (range_start r)), Hb.
    apply in_ranges_cons. left. lia.
  - intros [Hr Hrs] [Hr' Hrs'] Hb. setoid_rewrite in_ranges_cons in Hb.
    assert (range_start r = range_start r') as Hstart.
    { pose proof (proj1 (Hb (range_start r)) ltac:(left; lia)) as H1.
      pose proof (proj2 (Hb (range_start r')) ltac:(left; lia)) as H2.
      destruct H1 as [|H1%(canonical_lower _ _ _ Hrs')], H2 as [|H2%(canonical_lower _ _ _ Hrs)]; lia. }
    assert (range_end r = range_end r') as Hend.
    { destruct (Z.lt_trichotomy (range_end r) (range_end r')) as [Hlt|[|Hlt]]; [|done|].
      - destruct (proj2 (Hb (range_end r + 1)) ltac:(left; lia)) as [|H%(canonical_lower _ _ _ Hrs)]; lia.
      - destruct (proj1 (Hb (range_end r' + 1)) ltac:(left; lia)) as [|H%(canonical_lower _ _ _ Hrs')]; lia. }
    assert (r = r') as <- by (destruct r, r'; cbn in *; congruence). f_equal.
    eapply IH; [exact Hrs|exact Hrs'|]. intros b. specialize (Hb b).
    split; intros H; [pose proof (canonical_lower _ _ _ Hrs H)|pose proof (canonical_lower _ _ _ Hrs' H)];
      destruct Hb as [Hb1 Hb2]; [destruct Hb1|destruct Hb2]; auto; lia.
Qed.

(** ** Normalizing *)

Definition range_ok (r : BlockRange) : Prop := 0 ≤ range_start r ≤ range_end r ∧ range_end r ≤ u64_max.

(** The loop with its last range apart. *)
Fixpoint merge_from (p : BlockRange) (rs : list BlockRange) : list BlockRange :=
  match rs with
  | [] => [p]
  | r :: rs =>
      if range_start r <=? sat_add (range_end p) 1
      then merge_from (MkBlockRange (range_start p) (Z.max (range_end p) (range_end r))) rs
      else p :: merge_from r rs
  end.

Lemma normalize_loop init p rs :
  range_ok p → Forall range_ok rs →
  fold_result normalize_step (init ++ [p]) rs = Ok (init ++ merge_from p rs).
Proof.
  intros Hp Hrs. revert init p Hp; induction Hrs as [|r rs Hr Hrs IH]; intros init p Hp; [done|].
  cbn [fold_result merge_from]. unfold normalize_step at 2. rewrite last_snoc.
  destruct (range_start r <=? _).
  - unfold BlockRange.new. unfold range_ok in *. rewrite (proj2 (Z.leb_le _ _)) by lia.
    cbn [map_err mbind result_bind]. rewrite removelast_last. apply IH. unfold range_ok. cbn. lia.
  - cbn [mbind result_bind]. rewrite (IH (init ++ [p]) r Hr). by rewrite <-app_assoc.
Qed.

Lemma merge_from_spec lo p rs :
  lo ≤ range_start p → range_ok p → Forall range_ok rs →
  Forall (λ r, range_start p ≤ range_start r) rs →
  StronglySorted (λ x y, cmp_leb range_cmp x y = true) rs →
  canonical_from lo (merge_from p rs) ∧ ∀ b, in_ranges (merge_from p rs) b ↔ in_ranges (p :: rs) b.
Proof.
  intros Hlo Hp Hrs. revert lo p Hlo Hp; induction Hrs as [|r rs Hr Hrs IH]; intros lo p Hlo Hp Hge Hsort; cbn [merge_from].
  { unfold range_ok in Hp. cbn. split; [split; [lia|done]|done]. }
  apply Forall_cons in Hge as [Hger Hge]. apply StronglySorted_inv in Hsort as [Hsort Hall].
  assert (Forall (λ x, range_start r ≤ range_start x) rs) as Hger'.
  { eapply Forall_impl; [exact Hall|]. cbn. intros x Hx. unfold cmp_leb, range_cmp in Hx.
    destruct (Z.compare_spec (range_start r) (range_start x)); cbn in Hx; [lia|lia|done]. }
  unfold range_ok in *. destruct (Z.leb_spec (range_start r) (sat_add (range_end p) 1)) as [Hle|Hgt].
  - assert (range_start r ≤ range_end p + 1) as Hle' by (unfold sat_add in Hle; lia).
    destruct (IH lo (MkBlockRange (range_start p) (Z.max (range_end p) (range_end r)))) as [Hc Hb];
      [cbn; lia|cbn; lia|done|done|]. split; [done|].
    intros b. rewrite Hb, !in_ranges_cons. cbn.
    assert (range_start p ≤ b ≤ Z.max (range_end p) (range_end r) ↔
      range_start p ≤ b ≤ range_end p ∨ range_start r ≤ b ≤ range_end r) as -> by lia. tauto.
  - assert (range_end p + 1 < range_start r) as Hgt' by (unfold sat_add in Hgt; lia).
    destruct (IH (range_end p + 2) r) as [Hc Hb]; [lia|done|done|done|].
    split; [cbn; split; [lia|done]|]. intros b. rewrite !in_ranges_cons, Hb, in_ranges_cons. tauto.
Qed.

Lemma in_ranges_perm rs rs' b : rs ≡ₚ rs' → in_ranges rs b ↔ in_ranges rs' b.
Proof. intros Hp. unfold in_ranges. by rewrite Hp. Qed.

#[export] Instance range_comparator : Comparator range_cmp.
Proof.
  apply then_comparator.
  - apply (on_comparator range_start Z.compare), _.
  - apply (on_comparator range_end Z.compare), _.
Qed.

Lemma normalize_ranges_spec rs :
  Forall range_ok rs →
  ∃ out, normalize_ranges rs = Ok out ∧ canonical_from 0 out ∧ (∀ b, in_ranges out b ↔ in_ranges rs b).
Proof.
  intros Hrs. unfold normalize_ranges. set (sorted := sort_by _ _).
  assert (Forall range_ok sorted) as Hok by (unfold sorted; by rewrite sort_by_perm).
  assert (StronglySorted (λ x y, cmp_leb range_cmp x y = true) sorted) as Hsort
    by (apply sort_by_sorted; [apply cmp_leb_total, _|apply cmp_leb_trans, _]).
  setoid_rewrite (in_ranges_perm rs sorted); [|symmetry; apply sort_by_perm].
  destruct sorted as [|p sorted]; [by exists []|].
  apply Forall_cons in Hok as [Hp Hok]. apply StronglySorted_inv in Hsort as [Hsort Hall].
  exists (merge_from p sorted). cbn [fold_result]. unfold normalize_step at 2. cbn.
  rewrite (normalize_loop [] p) by done. split; [done|]. apply merge_from_spec; [|done|done| |done].
  - unfold range_ok in Hp. lia.
  - eapply Forall_impl; [exact Hall|]. cbn. intros x Hx. unfold cmp_leb, range_cmp in Hx.
    destruct (Z.compare_spec (range_start p) (range_start x)); cbn in Hx; [lia|lia|done].
Qed.

(** ** Numbers to ranges *)

Lemma merge_numbers_spec start stop output numbers :
  start ≤ stop ≤ u64_max → Forall (λ n, n ≤ u64_max) numbers → StronglySorted Z.le (stop :: numbers) →
  ∃ l, merge_numbers start stop output numbers = Ok (output ++ l) ∧ canonical_from start l ∧
    ∀ b, in_ranges l b ↔ start ≤ b ≤ stop ∨ b ∈ numbers.
Proof.
  intros Hs Hn. revert start stop output Hs; induction Hn as [|n numbers Hn Hns IH];
    intros start stop output Hs [Hsort Hall]%StronglySorted_inv; cbn [merge_numbers].
  { unfold BlockRange.new. rewrite (proj2 (Z.leb_le _ _)) by lia. exists [MkBlockRange start stop].
    split; [done|]. split; [cbn; lia|]. intros b. rewrite in_ranges_cons, in_ranges_nil, elem_of_nil. cbn. tauto. }
  apply Forall_cons in Hall as [Hstop _].
  destruct (Z.eqb_spec n stop) as [->|Hne].
  - destruct (IH start stop output Hs Hsort) as (l & -> & Hc & Hb). exists l. split_and!; [done|done|].
    intros b. rewrite Hb, elem_of_cons. intuition lia.
  - assert (sat_add stop 1 = stop + 1) as -> by (unfold sat_add; lia).
    destruct (Z.eqb_spec n (stop + 1)) as [->|Hne'].
    + destruct (IH start (stop + 1) output ltac:(lia) Hsort) as (l & -> & Hc & Hb). exists l.
      split_and!; [done|done|]. intros b. rewrite Hb, elem_of_cons. intuition lia.
    + unfold BlockRange.new. rewrite (proj2 (Z.leb_le _ _)) by lia. cbn [map_err mbind result_bind].
      destruct (IH n n (output ++ [MkBlockRange start stop]) ltac:(lia) Hsort) as (l & -> & Hc & Hb).
      exists (MkBlockRange start stop :: l). split; [by rewrite <-app_assoc|]. split.
      * cbn. split; [lia|]. eapply canonical_weaken; [|exact Hc]. lia.
      * intros b. rewrite in_ranges_cons, Hb, elem_of_cons. cbn. intuition lia.
Qed.

(** ** Owned ranges *)

Definition owned (owners : gmap Z Z) (b : Z) : Prop := ∃ from to, owners !! from = Some to ∧ from ≤ b ≤ to.

(** Rows SQLite can hold, apart from each other. *)
Record owners_ok (owners : gmap Z Z) : Prop := MkOwnersOk {
  owners_valid from to : owners !! from = Some to → 0 ≤ from ≤ to ∧ to ≤ i64_max;
  owners_apart from to from' to' :
    owners !! from = Some to → owners !! from' = Some to' → from < from' → to + 2 ≤ from';
}.

Lemma elem_of_owner_rows owners row :
  row ∈ owner_rows owners ↔ owners !! range_start row = Some (range_end row).
Proof.
  unfold owner_rows. rewrite list_elem_of_fmap. split.
  - intros ([f t] & -> & Hin%elem_of_map_entries). done.
  - intros Hin. exists (range_start row, range_end row). split; [by destruct row|].
    by apply elem_of_map_entries.
Qed.

Lemma in_owner_rows owners b : in_ranges (owner_rows owners) b ↔ owned owners b.
Proof.
  rewrite in_ranges_elem. unfold owned. split.
  - intros (r & Hr%elem_of_owner_rows & Hb%BlockRange.contains_spec). by exists (range_start r), (range_end r).
  - intros (f & t & Hr & Hb). exists (MkBlockRange f t). by rewrite elem_of_owner_rows, BlockRange.contains_spec.
Qed.

Lemma owner_rows_sorted owners : StronglySorted (λ x y, range_start x < range_start y) (owner_rows owners).
Proof.
  unfold owner_rows. pose proof (map_entries_sorted Z.le owners) as Hs.
  pose proof (map_entries_NoDup Z.le owners) as Hnd.
  induction (map_entries Z.le owners) as [|[f t] l IH]; cbn in *; [constructor|].
  apply StronglySorted_inv in Hs as [Hs Hall]. apply NoDup_cons in Hnd as [Hn Hnd].
  constructor; [by apply IH|]. apply Forall_fmap. rewrite Forall_forall in *. intros [f' t'] Hin. cbn.
  specialize (Hall _ Hin). unfold entry_le in Hall. cbn in Hall.
  enough (f ≠ f') by lia. intros <-. apply Hn. by apply (list_elem_of_fmap_2' fst) with (f, t').
Qed.

Lemma owner_rows_canonical owners : owners_ok owners → canonical_from 0 (owner_rows owners).
Proof.
  intros [Hv Ha]. pose proof (owner_rows_sorted owners) as Hs.
  assert (∀ r, r ∈ owner_rows owners → owners !! range_start r = Some (range_end r)) as Hrows
    by (intros r; apply elem_of_owner_rows).
  assert (∀ r, r ∈ owner_rows owners → 0 ≤ range_start r) as Hlo by (intros r Hr%Hrows%Hv; lia).
  revert Hlo. generalize 0 as lo. induction Hs as [|r l Hs IH Hr]; intros lo Hlo; cbn; [done|].
  destruct (Hv _ _ (Hrows r ltac:(by left))) as [Hrv _].
  split; [specialize (Hlo r ltac:(by left)); lia|]. apply IH.
  - intros x Hx. apply Hrows. by right.
  - intros x Hx. rewrite Forall_forall in Hr.
    eapply Ha; [apply Hrows; by left|apply Hrows; by right|by apply Hr].
Qed.

Section extend.
Context (owners : gmap Z Z) (start stop : Z) (Hok : owners_ok owners) (Hrange : 0 ≤ start ≤ stop) (Hstop : stop ≤ i64_max).

#[local] Abbreviation touching := (List.filter (touches start stop) (owner_rows owners)).
#[local] Abbreviation merged_start := (match touching with [] => start | row :: _ => Z.min start (range_start row) end).
#[local] Abbreviation merged_end := (fold_left (λ merged row, Z.max merged (range_end row)) touching stop).
#[local] Abbreviation kept := (foldr (λ row m, delete (range_start row) m) owners touching).

Lemma elem_of_touching row :
  row ∈ touching ↔ owners !! range_start row = Some (range_end row) ∧
    range_start row ≤ stop + 1 ∧ start - 1 ≤ range_end row.
Proof.
  rewrite elem_of_filter_list, elem_of_owner_rows. unfold touches. rewrite andb_true_iff, !Z.leb_le.
  split; intros [Hrow Ht]; (split; [done|]); destruct (owners_valid _ Hok _ _ Hrow) as [? ?];
    unfold i64_max, i64_min in *; lia.
Qed.

Lemma lookup_foldr_delete (l : list BlockRange) (m : gmap Z Z) from :
  foldr (λ row m, delete (range_start row) m) m l !! from =
    if bool_decide (from ∈ range_start <$> l) then None else m !! from.
Proof.
  induction l as [|r l IH]; cbn; [by rewrite bool_decide_eq_false_2 by apply not_elem_of_nil|].
  destruct (decide (range_start r = from)) as [->|Hne].
  - rewrite lookup_delete_eq, bool_decide_eq_true_2; [done|by left].
  - rewrite lookup_delete_ne, IH by done. apply decide_ext || idtac.
    case_bool_decide as H1; case_bool_decide as H2; try done.
    + destruct H2. by right.
    + apply elem_of_cons in H2 as [->|]; done.
Qed.

Lemma lookup_kept from to :
  kept !! from = Some to ↔ owners !! from = Some to ∧ (stop + 1 < from ∨ to < start - 1).
Proof.
  rewrite lookup_foldr_delete. case_bool_decide as Hin.
  - split; [done|]. intros [Hf Hout].
    apply list_elem_of_fmap in Hin as (row & -> & (Hrow & Ht)%elem_of_touching).
    rewrite Hrow in Hf. injection Hf as <-. lia.
  - split; [|tauto]. intros Hf. split; [done|].
    destruct (Z.le_gt_cases from (stop + 1)), (Z.le_gt_cases (start - 1) to); [|lia..].
    destruct Hin. apply list_elem_of_fmap. exists (MkBlockRange from to). split; [done|].
    by apply elem_of_touching.
Qed.

Lemma merged_start_spec :
  merged_start ≤ start ∧ (∀ row, row ∈ touching → merged_start ≤ range_start row) ∧
  (merged_start = start ∨ ∃ row, row ∈ touching ∧ range_start row = merged_start).
Proof.
  pose proof (StronglySorted_filter_list _ (touches start stop) _ (owner_rows_sorted owners)) as Hs.
  destruct touching as [|row rows]; [split_and!; [lia|by intros ? ?%elem_of_nil|by left]|].
  apply StronglySorted_inv in Hs as [_ Hall]. rewrite Forall_forall in Hall. split_and!; [lia|..].
  - intros x [->|Hx]%elem_of_cons; [lia|]. specialize (Hall x Hx). lia.
  - destruct (Z.le_gt_cases start (range_start row)); [left; lia|]. right. exists row. split; [by left|lia].
Qed.

Lemma fold_max_spec (l : list BlockRange) z :
  let m := fold_left (λ merged row, Z.max merged (range_end row)) l z in
  z ≤ m ∧ (∀ row, row ∈ l → range_end row ≤ m) ∧ (m = z ∨ ∃ row, row ∈ l ∧ range_end row = m).
Proof.
  revert z; induction l as [|r l IH]; intros z; cbn.
  { split_and!; [lia|by intros ? ?%elem_of_nil|by left]. }
  destruct (IH (Z.max z (range_end r))) as (H1 & H2 & H3). split_and!; [lia|..].
  - intros row [->|Hr]%elem_of_cons; [lia|auto].
  - destruct H3 as [H3|(row & Hr & Heq)]; [|right; exists row; split; [by right|done]].
    destruct (Z.le_gt_cases (range_end r) z); [left; lia|]. right. exists r. split; [by left|lia].
Qed.

Lemma extended_ok : owners_ok (<[merged_start := merged_end]> kept).
Proof.
  destruct merged_start_spec as (Hs1 & Hs2 & Hs3). destruct (fold_max_spec touching stop) as (He1 & He2 & He3).
  generalize dependent merged_start. generalize dependent merged_end. intros me He1 He2 He3 ms Hs1 Hs2 Hs3.
  assert (0 ≤ ms) as Hms.
  { destruct Hs3 as [->|(row & (Hr & _)%elem_of_touching & <-)]; [lia|]. apply (owners_valid _ Hok) in Hr. lia. }
  assert (me ≤ i64_max) as Hme.
  { destruct He3 as [->|(row & (Hr & _)%elem_of_touching & <-)]; [lia|]. apply (owners_valid _ Hok) in Hr. lia. }
  assert (∀ f t, kept !! f = Some t → me + 2 ≤ f ∨ t + 2 ≤ ms) as Hkept.
  { intros f t (Hf & Hout)%lookup_kept. pose proof (owners_valid _ Hok _ _ Hf) as [Hft _]. destruct Hout as [Hout|Hout].
    - left. destruct He3 as [->|(row & (Hr & H1 & H2)%elem_of_touching & <-)]; [lia|].
      apply (owners_apart _ Hok _ _ _ _ Hr Hf). lia.
    - right. destruct Hs3 as [->|(row & (Hr & H1 & H2)%elem_of_touching & <-)]; [lia|].
      apply (owners_apart _ Hok _ _ _ _ Hf Hr). destruct (Z.lt_total f (range_start row)) as [|[Heq|Hlt]]; [done|..].
      + rewrite Heq, Hr in Hf. injection Hf as <-. lia.
      + pose proof (owners_apart _ Hok _ _ _ _ Hr Hf Hlt). lia. }
  split.
  - intros f t [[<- <-]|[_ Hf]]%lookup_insert_Some; [lia|]. apply lookup_kept in Hf as [Hf _].
    by apply (owners_valid _ Hok).
  - intros f t f' t' [[<- <-]|[_ Hf]]%lookup_insert_Some [[<- <-]|[_ Hf']]%lookup_insert_Some Hlt; [lia|..].
    + pose proof (Hkept _ _ Hf'). apply lookup_kept in Hf' as [Hf' _].
      pose proof (owners_valid _ Hok _ _ Hf'). lia.
    + pose proof (Hkept _ _ Hf). lia.
    + apply lookup_kept in Hf as [Hf _], Hf' as [Hf' _]. by apply (owners_apart _ Hok _ _ _ _ Hf Hf').
Qed.

Lemma kept_merged_start : kept !! merged_start = None.
Proof.
  destruct merged_start_spec as (Hs1 & Hs2 & Hs3).
  destruct (kept !! merged_start) as [t|] eqn:Hk; [|done]. exfalso. apply lookup_kept in Hk as [Hk Hout].
  pose proof (owners_valid _ Hok _ _ Hk) as [Hft _].
  destruct Hs3 as [Heq|(row & (Hr & H1 & H2)%elem_of_touching & Heq)]; [lia|].
  rewrite Heq, Hk in Hr. injection Hr as ->. lia.
Qed.

Lemma extended_owned b :
  owned (<[merged_start := merged_end]> kept) b ↔ start ≤ b ≤ stop ∨ owned owners b.
Proof.
  destruct merged_start_spec as (Hs1 & Hs2 & Hs3). destruct (fold_max_spec touching stop) as (He1 & He2 & He3).
  pose proof kept_merged_start as Hnone.
  generalize dependent merged_start. generalize dependent merged_end. intros me He1 He2 He3 ms Hs1 Hs2 Hs3 Hnone.
  split.
  - intros (f & t & [[<- <-]|[_ (Hf & _)%lookup_kept]]%lookup_insert_Some & Hb); [|right; by exists f, t].
    destruct (Z.lt_ge_cases b start) as [Hlt|Hge].
    + right. destruct Hs3 as [->|(row & (Hr & H1 & H2)%elem_of_touching & Heq)]; [lia|].
      exists (range_start row), (range_end row). split; [done|]. lia.
    + destruct (Z.le_gt_cases b stop); [left; lia|]. right.
      destruct He3 as [->|(row & (Hr & H1 & H2)%elem_of_touching & Heq)]; [lia|].
      exists (range_start row), (range_end row). split; [done|]. lia.
  - intros [Hb|(f & t & Hf & Hb)].
    + exists ms, me. rewrite lookup_insert_eq. split; [done|lia].
    + destruct (decide (MkBlockRange f t ∈ touching)) as [Hin|Hout].
      * exists ms, me. rewrite lookup_insert_eq. split; [done|].
        specialize (Hs2 _ Hin). specialize (He2 _ Hin). cbn in *. lia.
      * exists f, t. split; [|done]. assert (kept !! f = Some t) as Hk.
        { apply lookup_kept. split; [done|]. rewrite elem_of_touching in Hout. cbn in Hout.
          destruct (Z.le_gt_cases f (stop + 1)), (Z.le_gt_cases (start - 1) t); [|lia..]. by destruct Hout. }
        rewrite lookup_insert_ne; [done|]. intros ->. congruence.
Qed.
End extend.

(** The statements leave the rows of one insert. *)
Lemma extend_Ok owners range :
  owners_ok owners → range_ok range → range_end range ≤ i64_max →
  ∃ owners', extend_shared_coverage_owner_range owners range = Ok owners' ∧ owners_ok owners' ∧
    ∀ b, owned owners' b ↔ range_start range ≤ b ≤ range_end range ∨ owned owners b.
Proof.
  intros Hok [Hr Hru] Hend. unfold extend_shared_coverage_owner_range.
  rewrite !u64_i64_fits by lia. cbn [mbind result_bind]. cbn zeta.
  pose proof (extended_ok owners _ _ Hok Hr Hend) as Hok'.
  pose proof (extended_owned owners _ _ Hok Hr) as Howned.
  pose proof (kept_merged_start owners _ _ Hok Hr) as Hnone.
  pose proof (elem_of_touching owners _ _ Hok Hr) as Htouch.
  destruct (List.filter _ (owner_rows owners)) as [|row [|row' rows]] eqn:Ht.
  - eexists. rewrite Hnone, bool_decide_eq_false_2 by by intros []. done.
  - cbn [foldr fold_left] in *. destruct (proj1 (Htouch row) ltac:(by left)) as (Hrow & _).
    eexists. split; [|exact (conj Hok' Howned)]. destruct (Z.eqb_spec (range_start row) (range_start range `min` range_start row)) as [Heq|Hne].
    + f_equal. rewrite <-Heq. rewrite insert_delete_eq.
      destruct (Z.eqb_spec (range_end row) (range_end range `max` range_end row)) as [He|He]; [|done].
      cbn. rewrite <-He. by rewrite insert_id.
    + by rewrite Hnone, bool_decide_eq_false_2 by by intros [].
  - eexists. rewrite Hnone, bool_decide_eq_false_2 by by intros []. done.
Qed.

(** Range sets are kept canonical. Normalizing any list of block
    ranges succeeds and gives the one list of separated ranges, in order, of
    exactly their blocks, so that lists of the same blocks normalize alike;
    and turning sorted block numbers into ranges is normalizing them one by
    one. *)
Theorem normalize_ranges_canonical ranges (Hranges : Forall range_ok ranges) :
  (∃ out, normalize_ranges ranges = Ok out ∧ canonical_from 0 out ∧
    (∀ b, in_ranges out b ↔ in_ranges ranges b)) ∧
  (∀ other, Forall range_ok other → (∀ b, in_ranges other b ↔ in_ranges ranges b) →
    normalize_ranges other = normalize_ranges ranges) ∧
  (∀ numbers, StronglySorted Z.le numbers → Forall is_u64 numbers →
    merge_block_numbers numbers = normalize_ranges (BlockRange.single <$> numbers)).
Proof.
  destruct (normalize_ranges_spec ranges Hranges) as (out & Hout & Hc & Hb).
  split; [by exists out|]. split.
  - intros other Hok Hother. destruct (normalize_ranges_spec other Hok) as (out' & Hout' & Hc' & Hb').
    rewrite Hout, Hout'. f_equal. eapply canonical_unique; [exact Hc'|exact Hc|].
    intros b. by rewrite Hb', Hother, Hb.
  - intros numbers Hsort Hn.
    destruct (normalize_ranges_spec (BlockRange.single <$> numbers)) as (l & -> & Hl & Hlb).
    { apply Forall_fmap. eapply Forall_impl; [exact Hn|]. intros n Hn'. unfold range_ok. cbn. uints. }
    assert (∀ b, in_ranges (BlockRange.single <$> numbers) b ↔ b ∈ numbers) as Hsingle.
    { intros b. clear. induction numbers as [|n numbers IH]; cbn; [by rewrite in_ranges_nil, elem_of_nil|].
      rewrite in_ranges_cons, elem_of_cons, IH. cbn. intuition lia. }
    destruct numbers as [|n numbers].
    { cbn. f_equal. symmetry. eapply (canonical_unique 0 0); [exact Hl|done|]. intros b. by rewrite Hlb. }
    apply Forall_cons in Hn as [Hn Hns]. cbn [merge_block_numbers].
    destruct (merge_numbers_spec n n [] numbers) as (l' & -> & Hl' & Hlb'); [uints| |done|].
    { eapply Forall_impl; [exact Hns|]. uints. }
    cbn. f_equal. eapply canonical_unique; [exact Hl'|exact Hl|]. intros b.
    rewrite Hlb, Hsingle, Hlb', elem_of_cons. intuition lia.
Qed.

(** Coverage ownership. Extending the shared owner of canonical
    coverage by a range succeeds; its rows are then the normal form of the
    old rows and the range together, whatever rows the range overlaps or
    touches and by whichever statements they are merged. *)
Theorem extend_owner_normalizes owners range
    (Howners : owners_ok owners) (Hrange : range_ok range) (Hend : range_end range ≤ i64_max) :
  ∃ owners', extend_shared_coverage_owner_range owners range = Ok owners' ∧ owners_ok owners' ∧
    normalize_ranges (range :: owner_rows owners) = Ok (owner_rows owners').
Proof.
  destruct (extend_Ok owners range Howners Hrange Hend) as (owners' & Hext & Hok' & Howned).
  exists owners'. split_and!; [done|done|].
  destruct (normalize_ranges_spec (range :: owner_rows owners)) as (out & -> & Hc & Hb).
  { constructor; [done|]. apply Forall_forall. intros row Hrow%elem_of_owner_rows.
    destruct (owners_valid _ Howners _ _ Hrow). unfold range_ok. uints. }
  f_equal. eapply canonical_unique; [exact Hc|by apply owner_rows_canonical|].
  intros b. rewrite Hb, in_ranges_cons, !in_owner_rows, Howned. tauto.
Qed.

Lemma normalize_ranges_canonical_witness :
  merge_block_numbers [1; 2; 2; 5] = Ok [MkBlockRange 1 2; MkBlockRange 5 5] ∧
  normalize_ranges [MkBlockRange 4 6; MkBlockRange 1 3] = normalize_ranges [MkBlockRange 1 6].
Proof.
  assert (Forall range_ok [MkBlockRange 1 6]) as H1 by (repeat constructor; unfold range_ok; cbn; uints).
  destruct (normalize_ranges_canonical [MkBlockRange 1 6] H1) as (_ & Hother & Hnumbers).
  split.
  - rewrite Hnumbers; [reflexivity|repeat constructor; lia|repeat constructor; uints].
  - apply Hother; [repeat constructor; unfold range_ok; cbn; uints|].
    intros b. rewrite !in_ranges_cons, in_ranges_nil. cbn. lia.
Defined.

Lemma extend_owner_normalizes_witness :
  let owners := {[ 1 := 3; 8 := 9 ]} : gmap Z Z in
  ∃ owners', extend_shared_coverage_owner_range owners (MkBlockRange 4 7) = Ok owners' ∧
    normalize_ranges (MkBlockRange 4 7 :: owner_rows owners) = Ok (owner_rows owners') ∧
    normalize_ranges (MkBlockRange 4 7 :: owner_rows owners) = Ok [MkBlockRange 1 9].
Proof.
  cbn zeta. destruct (extend_owner_normalizes {[ 1 := 3; 8 := 9 ]} (MkBlockRange 4 7)) as (owners' & H1 & _ & H2).
  - split.
    + intros f t [[<- <-]|[_ [<- <-]%lookup_singleton_Some]]%lookup_insert_Some; uints.
    + intros f t f' t' [[<- <-]|[_ [<- <-]%lookup_singleton_Some]]%lookup_insert_Some
        [[<- <-]|[_ [<- <-]%lookup_singleton_Some]]%lookup_insert_Some; lia.
  - unfold range_ok. cbn. uints.
  - cbn. uints.
  - exists owners'. split; [exact H1|]. split; [exact H2|reflexivity].
Defined.
