(* ===== verification/Artifacts.v ===== *)
(** * Processor artifacts

    Models the artifact tables of one processor instance in
    [crates/store-sqlite/src/lib.rs]: finalized deltas retained for replay,
    with their owners, and the candidates staged until their block is final
    ([stage_or_retain_processor_artifact],
    [promote_processor_artifact_candidates_within_budget],
    [prune_processor_artifact_window]); and the totals the triggers of
    migrations 0018 and 0019 keep beside them, which the storage budget reads
    ([enforce_artifact_storage_capacity]).

    Artifacts moved to segments are only counted: [segments] holds what the
    totals take from a segment row. *)
From Stdlib Require Import ZArith Lia Strings.Byte.
From stdpp Require Import gmap strings list list_numbers fin_maps sorting pretty.
From S2P Require Import Prelude Bytes Chain Capability Provenance Frame Durable Descriptor Delta Rows Delivery.

Inductive ArtifactOwnerKind := OwnerProcessorInstance | OwnerProcessorJob | OperatorPin.

#[export] Instance ArtifactOwnerKind_eq_dec : EqDecision ArtifactOwnerKind.
Proof. solve_decision. Defined.
#[export] Instance ArtifactOwnerKind_countable : Countable ArtifactOwnerKind.
Proof.
  refine (inj_countable'
    (λ k, match k with OwnerProcessorInstance => 0%nat | OwnerProcessorJob => 1%nat | OperatorPin => 2%nat end)
    (λ n, match n with O => OwnerProcessorInstance | S O => OwnerProcessorJob | _ => OperatorPin end) _).
  by intros [].
Defined.

(** ** Tables *)

(** A delta's columns; [stored_at] is [retained_at_unix_ms] or
    [staged_at_unix_ms]. *)
Record StoredDelta := MkStoredDelta {
  stored_chain : Z;
  stored_block : BlockRef;
  stored_schema : Z;
  stored_checksum : BlockHash;
  stored_encoded : list byte;
  stored_at : Z;
}.

(** A [processor_artifacts] row. *)
Record ArtifactRow := MkArtifactRow { artifact_delta : StoredDelta; encoded_bytes : Z }.

(** What the totals count of a [processor_artifact_segments] row. *)
Record ArtifactSegment := MkSegment {
  segment_active : bool;
  segment_artifacts : Z;
  segment_logical_bytes : Z;
  segment_owned_blocks : Z;
}.

Record ArtifactTotals := MkTotals {
  retained_artifacts : Z;
  retained_bytes : Z;
  retained_owners : Z;
  pending_artifacts : Z;
  pending_bytes : Z;
}.

Record ArtifactStore := MkArtifactStore {
  artifacts : gmap Z ArtifactRow;
  artifact_owners : gmap (Z * (ArtifactOwnerKind * string)) Z;
  artifact_candidates : gmap (Z * BlockHash) StoredDelta;
  artifact_totals : ArtifactTotals;
  bulk_accounting : bool;
  segments : list ArtifactSegment;
}.

Definition no_artifacts : ArtifactStore := MkArtifactStore ∅ ∅ ∅ (MkTotals 0 0 0 0 0) false [].

(** ** The triggers *)

Definition totals_fields (t : ArtifactTotals) : list Z :=
  [retained_artifacts t; retained_bytes t; retained_owners t; pending_artifacts t; pending_bytes t].

(** The [CHECK] constraints and the integer type of [processor_artifact_totals]. *)
Definition check_totals (t : ArtifactTotals) : result StoreError ArtifactTotals :=
  if existsb (λ z, z <? 0) (totals_fields t)
  then Err (Sqlx "CHECK constraint failed: processor_artifact_totals")
  else if existsb (λ z, i64_max <? z) (totals_fields t)
  then Err (Sqlx "cannot store REAL value in INTEGER column processor_artifact_totals")
  else Ok t.

Definition add_retained (bulk : bool) (count bytes : Z) (t : ArtifactTotals)
    : result StoreError ArtifactTotals :=
  if bulk then Ok t
  else check_totals (MkTotals (retained_artifacts t + count) (retained_bytes t + bytes)
    (retained_owners t) (pending_artifacts t) (pending_bytes t)).

Definition add_owners (bulk : bool) (count : Z) (t : ArtifactTotals) : result StoreError ArtifactTotals :=
  if bulk then Ok t
  else check_totals (MkTotals (retained_artifacts t) (retained_bytes t) (retained_owners t + count)
    (pending_artifacts t) (pending_bytes t)).

Definition add_pending (count bytes : Z) (t : ArtifactTotals) : result StoreError ArtifactTotals :=
  check_totals (MkTotals (retained_artifacts t) (retained_bytes t) (retained_owners t)
    (pending_artifacts t + count) (pending_bytes t + bytes)).

(** ** Rows, one at a time *)

Definition insert_artifact_row (number : Z) (row : ArtifactRow) (s : ArtifactStore)
    : result StoreError ArtifactStore :=
  match artifacts s !! number with
  | Some _ => Ok s
  | None =>
      totals ← add_retained (bulk_accounting s) 1 (encoded_bytes row) (artifact_totals s);
      Ok (MkArtifactStore (<[number := row]> (artifacts s)) (artifact_owners s) (artifact_candidates s)
        totals (bulk_accounting s) (segments s))
  end.

Definition delete_artifact_row (s : ArtifactStore) (number : Z) : result StoreError ArtifactStore :=
  match artifacts s !! number with
  | Some row =>
      totals ← add_retained (bulk_accounting s) (-1) (- encoded_bytes row) (artifact_totals s);
      Ok (MkArtifactStore (delete number (artifacts s)) (artifact_owners s) (artifact_candidates s)
        totals (bulk_accounting s) (segments s))
  | None => Ok s
  end.

Definition insert_owner_row (key : Z * (ArtifactOwnerKind * string)) (created : Z) (s : ArtifactStore)
    : result StoreError ArtifactStore :=
  match artifact_owners s !! key with
  | Some _ => Ok s
  | None =>
      if bool_decide (artifacts s !! key.1 = None) then Err (Sqlx "FOREIGN KEY constraint failed")
      else
        totals ← add_owners (bulk_accounting s) 1 (artifact_totals s);
        Ok (MkArtifactStore (artifacts s) (<[key := created]> (artifact_owners s)) (artifact_candidates s)
          totals (bulk_accounting s) (segments s))
  end.

Definition delete_owner_row (s : ArtifactStore) (key : Z * (ArtifactOwnerKind * string))
    : result StoreError ArtifactStore :=
  match artifact_owners s !! key with
  | Some _ =>
      totals ← add_owners (bulk_accounting s) (-1) (artifact_totals s);
      Ok (MkArtifactStore (artifacts s) (delete key (artifact_owners s)) (artifact_candidates s)
        totals (bulk_accounting s) (segments s))
  | None => Ok s
  end.

Definition insert_candidate_row (key : Z * BlockHash) (row : StoredDelta) (s : ArtifactStore)
    : result StoreError ArtifactStore :=
  match artifact_candidates s !! key with
  | Some _ => Ok s
  | None =>
      totals ← add_pending 1 (Z.of_nat (length (stored_encoded row))) (artifact_totals s);
      Ok (MkArtifactStore (artifacts s) (artifact_owners s) (<[key := row]> (artifact_candidates s))
        totals (bulk_accounting s) (segments s))
  end.

Definition delete_candidate_row (s : ArtifactStore) (key : Z * BlockHash)
    : result StoreError ArtifactStore :=
  match artifact_candidates s !! key with
  | Some row =>
      totals ← add_pending (-1) (- Z.of_nat (length (stored_encoded row))) (artifact_totals s);
      Ok (MkArtifactStore (artifacts s) (artifact_owners s) (delete key (artifact_candidates s))
        totals (bulk_accounting s) (segments s))
  | None => Ok s
  end.

(** ** Operations *)

Definition validate_artifact_owner_id (value : string) : result StoreError () :=
  if bool_decide (value = EmptyString) || (192 <? String.length value)%nat
     || negb (forallb (λ byte, is_ascii_alphanumeric byte ||
          list_contains [x2d; x5f; x2e; x3a; x40]%byte byte) (string_bytes value))
  then Err (InvalidConfig "artifact owner IDs must be 1-192 portable characters")
  else Ok ().

Record ProcessorArtifact := MkProcessorArtifact {
  processor_artifact_delta : EncodedDelta;
  retained_at_unix_ms : Z;
  processor_artifact_bytes : Z;
}.

(** The limits of the node's artifact storage. *)
Record ArtifactStorageBudget := MkArtifactBudget {
  maximum_retained_bytes : Z;
  maximum_pending_bytes : Z;
}.

(** The two sums over every instance's totals row. *)
Definition enforce_artifact_storage_capacity (budget : ArtifactStorageBudget) (rows : list ArtifactTotals)
    : result StoreError () :=
  let retained := Z_sum (retained_bytes <$> rows) in
  let pending := Z_sum (pending_bytes <$> rows) in
  if (i64_max <? retained) || (i64_max <? pending) then Err (Sqlx "integer overflow")
  else if maximum_retained_bytes budget <? retained
  then Err (ArtifactStorageLimit "retained" (maximum_retained_bytes budget) retained)
  else if maximum_pending_bytes budget <? pending
  then Err (ArtifactStorageLimit "pending" (maximum_pending_bytes budget) pending)
  else Ok ().

Section operations.
Context `{!Blake3} {PE : Type} `{!Postcard PE EncodedDelta} (show : DurableError PE → string).
Context (descriptor : ProcessorDescriptor) (instance : string).

Definition validate_processor_artifact_row (row : StoredDelta) (delta : EncodedDelta)
    : result StoreError () :=
  chain ← i64_u64 (stored_chain row) "artifact chain ID";
  number ← i64_u64 (ref_number (stored_block row)) "artifact block number";
  timestamp ← i64_u64 (ref_timestamp (stored_block row)) "artifact block timestamp";
  schema ← i64_u64 (stored_schema row) "artifact delta schema version";
  schema ← (if schema <=? u16_max then Ok schema else Err (Numeric "artifact delta schema version"));
  if negb (delta_chain_id delta =? chain)
     || negb (ref_number (delta_block delta) =? number)
     || negb (bool_decide (ref_hash (delta_block delta) = ref_hash (stored_block row)))
     || negb (bool_decide (ref_parent_hash (delta_block delta) = ref_parent_hash (stored_block row)))
     || negb (ref_timestamp (delta_block delta) =? timestamp)
     || negb (delta_schema_version delta =? schema)
     || negb (bool_decide (delta_checksum delta = stored_checksum row))
  then Err (StoreInvariant ("processor artifact metadata disagrees with its encoded delta at block "
         +:+ pretty number))
  else Ok ().

Definition decode_processor_artifact (row : StoredDelta) : result StoreError ProcessorArtifact :=
  delta ← map_err StoreProcessor (EncodedDelta.decode_durable show descriptor (stored_encoded row));
  _ ← validate_processor_artifact_row row delta;
  at_ms ← i64_u64 (stored_at row) "artifact retention time";
  Ok (MkProcessorArtifact delta at_ms (Z.of_nat (length (stored_encoded row)))).

(** The columns a delta is stored in. *)
Definition stored_delta (delta : EncodedDelta) (encoded : list byte) (at_ms : Z) (what : string)
    : result StoreError StoredDelta :=
  chain ← u64_i64 (delta_chain_id delta) (what +:+ " chain ID");
  number ← u64_i64 (ref_number (delta_block delta)) (what +:+ " block number");
  timestamp ← u64_i64 (ref_timestamp (delta_block delta)) (what +:+ " block timestamp");
  Ok (MkStoredDelta chain (delta_block delta) (delta_schema_version delta) (delta_checksum delta)
    encoded at_ms).

Definition insert_processor_artifact (delta : EncodedDelta) (encoded : list byte) (at_ms : Z)
    (s : ArtifactStore) : result StoreError (ArtifactStore * bool) :=
  columns ← stored_delta delta encoded at_ms "artifact";
  bytes ← usize_i64 (length encoded) "artifact encoded bytes";
  let number := ref_number (delta_block delta) in
  let inserted := bool_decide (artifacts s !! number = None) in
  s ← insert_artifact_row number (MkArtifactRow columns bytes) s;
  row ← ok_or (artifacts s !! number) (Sqlx "no rows returned");
  stored ← decode_processor_artifact (artifact_delta row);
  same ← (if bool_decide (processor_artifact_delta stored = delta)
          then reencoded ← map_err StoreProcessor
                 (EncodedDelta.encode_durable show (processor_artifact_delta stored));
               Ok (bool_decide (reencoded = encoded))
          else Ok false);
  if negb same then Err (ConflictingArtifact number) else Ok (s, inserted).

Definition insert_artifact_owner (block : BlockNumber) (kind : ArtifactOwnerKind) (owner_id : string)
    (created : Z) (s : ArtifactStore) : result StoreError (ArtifactStore * bool) :=
  _ ← validate_artifact_owner_id owner_id;
  number ← u64_i64 block "artifact owner block";
  let inserted := bool_decide (artifact_owners s !! (number, (kind, owner_id)) = None) in
  s ← insert_owner_row (number, (kind, owner_id)) created s;
  Ok (s, inserted).

Definition stage_processor_artifact_candidate (delta : EncodedDelta) (encoded : list byte) (at_ms : Z)
    (s : ArtifactStore) : result StoreError ArtifactStore :=
  columns ← stored_delta delta encoded at_ms "artifact candidate";
  let key := (ref_number (delta_block delta), ref_hash (delta_block delta)) in
  s ← insert_candidate_row key columns s;
  row ← ok_or (artifact_candidates s !! key) (Sqlx "no rows returned");
  stored ← map_err StoreProcessor (EncodedDelta.decode_durable show descriptor (stored_encoded row));
  if bool_decide (stored ≠ delta) then Err (ConflictingArtifact (ref_number (delta_block delta)))
  else Ok s.

(** ** The window *)

Definition ARTIFACT_PRUNE_BATCH : nat := N.to_nat 10000.

(** [artifacts JOIN owners] on the instance's own claim, by block. *)
Definition owned_rows (s : ArtifactStore) : list (Z * ArtifactRow) :=
  List.filter (λ e, bool_decide
      (is_Some (artifact_owners s !! (e.1, (OwnerProcessorInstance, instance)))))
    (map_entries Z.le (artifacts s)).

Definition retained_cmp (x y : Z * ArtifactRow) : comparison :=
  then_with (stored_at (artifact_delta x.2) ?= stored_at (artifact_delta y.2)) (x.1 ?= y.1).

(** [length(encoded_delta)] *)
Definition row_length (e : Z * ArtifactRow) : Z :=
  Z.of_nat (length (stored_encoded (artifact_delta e.2))).

(** The loop over the oldest rows, until the excess is covered. *)
Fixpoint take_excess (excess : Z) (rows : list (Z * ArtifactRow)) : list Z :=
  match rows with
  | [] => []
  | row :: rows =>
      if excess =? 0 then [] else row.1 :: take_excess (sat_sub excess (row_length row)) rows
  end.

Definition artifact_window_candidates (now : result StoreError Z) (window : ArtifactWindow)
    (current_block : BlockRef) (s : ArtifactStore) : result StoreError (list Z) :=
  match artifact_max_blocks window with
  | Some max_blocks =>
      let retained_from := sat_sub (sat_add (ref_number current_block) 1) max_blocks in
      retained_from ← u64_i64 retained_from "artifact retained-from block";
      Ok (take ARTIFACT_PRUNE_BATCH (List.filter (λ number, number <? retained_from) (owned_rows s).*1))
  | None =>
      match artifact_max_age_seconds window with
      | Some max_age_seconds =>
          now ← now;
          age ← u64_i64 (sat_mul max_age_seconds 1000) "artifact maximum age";
          let cutoff := Z.max i64_min (now - age) in
          Ok (take ARTIFACT_PRUNE_BATCH (sort_by (cmp_leb retained_cmp)
            (List.filter (λ e, stored_at (artifact_delta e.2) <? cutoff) (owned_rows s))).*1)
      | None =>
          match artifact_max_bytes window with
          | Some max_bytes =>
              let total := Z_sum (row_length <$> owned_rows s) in
              if i64_max <? total then Err (Sqlx "integer overflow")
              else Ok (take_excess (sat_sub total max_bytes) (take ARTIFACT_PRUNE_BATCH (owned_rows s)))
          | None => Ok []
          end
      end
  end.

Definition unowned (s : ArtifactStore) : list Z :=
  List.filter (λ number, negb (existsb (λ owner, bool_decide (owner.1.1 = number))
      (map_to_list (artifact_owners s)))) (map_entries Z.le (artifacts s)).*1.

Definition prune_processor_artifact_window (now : result StoreError Z) (current_block : BlockRef)
    (s : ArtifactStore) : result StoreError (ArtifactStore * Z) :=
  match artifact_mode (lifecycle_artifacts (lifecycle descriptor)) with
  | ArtifactWindowed =>
      window ← ok_or (artifact_window (lifecycle_artifacts (lifecycle descriptor)))
        (StoreInvariant "window artifact policy is missing its bound");
      blocks ← artifact_window_candidates now window current_block s;
      s ← fold_result (λ s block, delete_owner_row s (block, (OwnerProcessorInstance, instance))) s blocks;
      let doomed := unowned s in
      s ← fold_result delete_artifact_row s doomed;
      Ok (s, Z.of_nat (length doomed))
  | _ => Ok (s, 0)
  end.

(** ** Staging and promotion *)

Definition stage_or_retain_processor_artifact (now : Z) (clock : result StoreError Z)
    (delta : EncodedDelta) (encoded : list byte) (finality : Finality) (s : ArtifactStore)
    : result StoreError ArtifactStore :=
  match artifact_mode (lifecycle_artifacts (lifecycle descriptor)) with
  | ArtifactNone => Ok s
  | _ =>
      if bool_decide (finality = Finalized)
      then
        '(s, _) ← insert_processor_artifact delta encoded now s;
        '(s, _) ← insert_artifact_owner (ref_number (delta_block delta)) OwnerProcessorInstance instance now s;
        s ← delete_candidate_row s (ref_number (delta_block delta), ref_hash (delta_block delta));
        '(s, _) ← prune_processor_artifact_window clock (delta_block delta) s;
        Ok s
      else stage_processor_artifact_candidate delta encoded now s
  end.

Definition candidate_cmp (x y : Z * BlockHash) : comparison :=
  then_with (x.1 ?= y.1) (bytes_cmp (bytes_of x.2) (bytes_of y.2)).

(** Candidates at or below a height, [ORDER BY block_number, block_hash]. *)
Definition due_candidates (through : Z) (s : ArtifactStore) : list ((Z * BlockHash) * StoredDelta) :=
  List.filter (λ e, e.1.1 <=? through) (sort_by (λ x y, cmp_leb candidate_cmp x.1 y.1)
    (map_to_list (artifact_candidates s))).

(** One iteration of the promotion loop. *)
Definition promote_candidate (s : ArtifactStore) (e : (Z * BlockHash) * StoredDelta)
    : result StoreError ArtifactStore :=
  artifact ← decode_processor_artifact e.2;
  let delta := processor_artifact_delta artifact in
  encoded ← map_err StoreProcessor (EncodedDelta.encode_durable show delta);
  at_ms ← u64_i64 (retained_at_unix_ms artifact) "artifact retention time";
  '(s, _) ← insert_processor_artifact delta encoded at_ms s;
  '(s, _) ← insert_artifact_owner (ref_number (delta_block delta)) OwnerProcessorInstance instance at_ms s;
  Ok s.

(** The newest artifact at or below a height. *)
Definition latest_artifact (through : Z) (s : ArtifactStore) : option (Z * ArtifactRow) :=
  last (List.filter (λ e, e.1 <=? through) (map_entries Z.le (artifacts s))).

Definition promote_processor_artifact_candidates (clock : result StoreError Z) (through : BlockNumber)
    (s : ArtifactStore) : result StoreError (ArtifactStore * Z) :=
  match artifact_mode (lifecycle_artifacts (lifecycle descriptor)) with
  | ArtifactNone => Ok (s, 0)
  | _ =>
      through ← u64_i64 through "artifact finalization height";
      let rows := due_candidates through s in
      s ← fold_result promote_candidate s rows;
      s ← fold_result delete_candidate_row s (due_candidates through s).*1;
      s ← match latest_artifact through s with
          | Some (number, row) =>
              number ← i64_u64 number "latest artifact block";
              timestamp ← i64_u64 (ref_timestamp (stored_block (artifact_delta row))) "latest artifact timestamp";
              '(s, _) ← prune_processor_artifact_window clock
                (MkBlockRef number (ref_hash (stored_block (artifact_delta row)))
                  (ref_parent_hash (stored_block (artifact_delta row))) timestamp) s;
              Ok s
          | None => Ok s
          end;
      Ok (s, Z.of_nat (length rows))
  end.

(** The savepoint: a full retained budget leaves the rows as they were. *)
Definition promote_processor_artifact_candidates_within_budget (clock : result StoreError Z)
    (budget : ArtifactStorageBudget) (others : list ArtifactTotals) (through : BlockNumber)
    (s : ArtifactStore) : result StoreError (ArtifactStore * option StoreError) :=
  match artifact_mode (lifecycle_artifacts (lifecycle descriptor)) with
  | ArtifactNone => Ok (s, None)
  | _ =>
      '(promoted, _) ← promote_processor_artifact_candidates clock through s;
      match enforce_artifact_storage_capacity budget (artifact_totals promoted :: others) with
      | Ok () => Ok (promoted, None)
      | Err (ArtifactStorageLimit scope limit projected) =>
          if bool_decide (scope = "pending"%string) then Ok (promoted, None)
          else Ok (s, Some (ArtifactStorageLimit scope limit projected))
      | Err e => Err e
      end
  end.
End operations.

(** ** Exact accounting *)

Definition active_sum (f : ArtifactSegment → Z) (l : list ArtifactSegment) : Z :=
  Z_sum (f <$> List.filter segment_active l).

#[local] Arguments active_sum : simpl never.
#[local] Arguments map_sum : simpl never.

(** What the totals should be: the rows counted. *)
Definition exact_totals (s : ArtifactStore) : ArtifactTotals :=
  MkTotals
    (map_sum (λ _, 1) (artifacts s) + active_sum segment_artifacts (segments s))
    (map_sum encoded_bytes (artifacts s) + active_sum segment_logical_bytes (segments s))
    (map_sum (λ _, 1) (artifact_owners s) + active_sum segment_owned_blocks (segments s))
    (map_sum (λ _, 1) (artifact_candidates s))
    (map_sum (λ row, Z.of_nat (length (stored_encoded row))) (artifact_candidates s)).

Record artifacts_ok (s : ArtifactStore) : Prop := MkArtifactsOk {
  totals_exact : artifact_totals s = exact_totals s;
  no_bulk : bulk_accounting s = false;
  owners_reference : ∀ k created, artifact_owners s !! k = Some created → is_Some (artifacts s !! k.1);
  artifact_key : ∀ number row, artifacts s !! number = Some row →
    number = ref_number (stored_block (artifact_delta row)) ∧
    encoded_bytes row = Z.of_nat (length (stored_encoded (artifact_delta row)));
  candidate_key : ∀ k row, artifact_candidates s !! k = Some row →
    k = (ref_number (stored_block row), ref_hash (stored_block row));
}.

Lemma check_totals_Ok t t' : check_totals t = Ok t' ↔ t' = t ∧ Forall (λ z, 0 ≤ z ≤ i64_max) (totals_fields t).
Proof.
  unfold check_totals. rewrite !if_Err_Ok.
  assert (∀ l : list Z, existsb (λ z, z <? 0) l = false ∧ existsb (λ z, i64_max <? z) l = false ↔
    Forall (λ z, 0 ≤ z ≤ i64_max) l) as Hl.
  { induction l as [|z l IH]; cbn; [split; [constructor|done]|].
    rewrite !orb_false_iff, Forall_cons, <-IH, Z.ltb_ge, Z.ltb_ge. intuition lia. }
  rewrite <-Hl. split; [intros (? & ? & [= <-])|intros (-> & ? & ?)]; done.
Qed.

(** The statements keep the accounting, and grow or shrink one table. *)
Lemma insert_artifact_row_ok number row s s' :
  artifacts_ok s → number = ref_number (stored_block (artifact_delta row)) →
  encoded_bytes row = Z.of_nat (length (stored_encoded (artifact_delta row))) →
  insert_artifact_row number row s = Ok s' →
  artifacts_ok s' ∧ artifacts s' = match artifacts s !! number with Some _ => artifacts s | None => <[number := row]> (artifacts s) end ∧
  artifact_owners s' = artifact_owners s ∧ artifact_candidates s' = artifact_candidates s.
Proof.
  intros [Ht Hb Ho Ha Hc] Hn Hl. unfold insert_artifact_row.
  destruct (artifacts s !! number) as [old|] eqn:Hold; [by intros [= <-]|].
  intros (t & Hadd & [= <-])%result_bind_Ok. rewrite Hb in Hadd. cbn in Hadd.
  apply check_totals_Ok in Hadd as [-> _]. split; [|done]. split; cbn; [|done|..|done].
  - rewrite Ht. unfold exact_totals. cbn. f_equal; rewrite map_sum_insert by done; cbn beta; lia.
  - intros k created Hk%Ho. destruct (decide (k.1 = number)) as [->|]; [by rewrite lookup_insert_eq|].
    by rewrite lookup_insert_ne.
  - intros n r [[<- <-]|[_ Hr]]%lookup_insert_Some; [done|by apply Ha].
Qed.

Lemma insert_owner_row_ok key created s s' :
  artifacts_ok s → insert_owner_row key created s = Ok s' →
  artifacts_ok s' ∧ artifacts s' = artifacts s ∧
  artifact_owners s' = match artifact_owners s !! key with Some _ => artifact_owners s
    | None => <[key := created]> (artifact_owners s) end ∧ artifact_candidates s' = artifact_candidates s.
Proof.
  intros [Ht Hb Ho Ha Hc]. unfold insert_owner_row.
  destruct (artifact_owners s !! key) as [old|] eqn:Hold; [by intros [= <-]|].
  intros [Hfk (t & Hadd & [= <-])%result_bind_Ok]%if_Err_Ok. apply bool_decide_eq_false in Hfk.
  rewrite Hb in Hadd. apply check_totals_Ok in Hadd as [-> _]. split; [|done]. split; cbn; [|done|..|done|done].
  - rewrite Ht. unfold exact_totals. cbn. f_equal. rewrite map_sum_insert by done. cbn beta. lia.
  - intros k c [[<- _]|[_ Hk]]%lookup_insert_Some; [by apply not_eq_None_Some|by eapply Ho].
Qed.

Lemma delete_owner_row_ok s key s' :
  artifacts_ok s → delete_owner_row s key = Ok s' →
  artifacts_ok s' ∧ artifacts s' = artifacts s ∧ artifact_owners s' = delete key (artifact_owners s) ∧
  artifact_candidates s' = artifact_candidates s.
Proof.
  intros [Ht Hb Ho Ha Hc]. unfold delete_owner_row.
  destruct (artifact_owners s !! key) as [old|] eqn:Hold;
    [|intros [= <-]; by rewrite delete_id by done].
  intros (t & Hadd & [= <-])%result_bind_Ok. rewrite Hb in Hadd. apply check_totals_Ok in Hadd as [-> _].
  split; [|done]. split; cbn; [|done|..|done|done].
  - rewrite Ht. unfold exact_totals. cbn. f_equal. rewrite (map_sum_delete _ _ _ _ Hold). cbn beta. lia.
  - intros k c [_ Hk]%lookup_delete_Some. by eapply Ho.
Qed.

Lemma delete_artifact_row_ok s number s' :
  artifacts_ok s → (∀ k, k.1 = number → artifact_owners s !! k = None) → delete_artifact_row s number = Ok s' →
  artifacts_ok s' ∧ artifacts s' = delete number (artifacts s) ∧ artifact_owners s' = artifact_owners s ∧
  artifact_candidates s' = artifact_candidates s.
Proof.
  intros [Ht Hb Ho Ha Hc] Hun. unfold delete_artifact_row.
  destruct (artifacts s !! number) as [old|] eqn:Hold;
    [|intros [= <-]; by rewrite delete_id by done].
  intros (t & Hadd & [= <-])%result_bind_Ok. rewrite Hb in Hadd. apply check_totals_Ok in Hadd as [-> _].
  split; [|done]. split; cbn; [|done|..|done].
  - rewrite Ht. unfold exact_totals. cbn. f_equal; rewrite (map_sum_delete _ _ _ _ Hold); cbn beta; lia.
  - intros k c Hk. rewrite lookup_delete_ne; [by eapply Ho|]. intros Heq. rewrite (Hun k) in Hk by done. done.
  - intros n r [_ Hr]%lookup_delete_Some. by apply Ha.
Qed.

Lemma insert_candidate_row_ok key row s s' :
  artifacts_ok s → key = (ref_number (stored_block row), ref_hash (stored_block row)) →
  insert_candidate_row key row s = Ok s' →
  artifacts_ok s' ∧ artifacts s' = artifacts s ∧ artifact_owners s' = artifact_owners s ∧
  artifact_candidates s' = match artifact_candidates s !! key with Some _ => artifact_candidates s
    | None => <[key := row]> (artifact_candidates s) end.
Proof.
  intros [Ht Hb Ho Ha Hc] Hkey. unfold insert_candidate_row.
  destruct (artifact_candidates s !! key) as [old|] eqn:Hold; [by intros [= <-]|].
  intros (t & [-> _]%check_totals_Ok & [= <-])%result_bind_Ok. split; [|done]. split; cbn; [|done..|].
  - rewrite Ht. unfold exact_totals. cbn. f_equal; rewrite map_sum_insert by done; cbn beta; lia.
  - intros k r [[<- <-]|[_ Hr]]%lookup_insert_Some; [done|by apply Hc].
Qed.

Lemma delete_candidate_row_ok s key s' :
  artifacts_ok s → delete_candidate_row s key = Ok s' →
  artifacts_ok s' ∧ artifacts s' = artifacts s ∧ artifact_owners s' = artifact_owners s ∧
  artifact_candidates s' = delete key (artifact_candidates s).
Proof.
  intros [Ht Hb Ho Ha Hc]. unfold delete_candidate_row.
  destruct (artifact_candidates s !! key) as [old|] eqn:Hold;
    [|intros [= <-]; by rewrite delete_id by done].
  intros (t & [-> _]%check_totals_Ok & [= <-])%result_bind_Ok. split; [|done]. split; cbn; [|done..|].
  - rewrite Ht. unfold exact_totals. cbn. f_equal; rewrite (map_sum_delete _ _ _ _ Hold); cbn beta; lia.
  - intros k r [_ Hr]%lookup_delete_Some. by apply Hc.
Qed.

Section facts.
Context `{!Blake3} {PE : Type} `{!Postcard PE EncodedDelta} (show : DurableError PE → string).
Context (descriptor : ProcessorDescriptor) (instance : string).

#[local] Abbreviation decode := (decode_processor_artifact show descriptor).

(** [s'] only adds artifacts and owners to [s]. *)
Record grows (s s' : ArtifactStore) : Prop := MkGrows {
  grows_ok : artifacts_ok s';
  grows_artifacts : artifacts s ⊆ artifacts s';
  grows_owners : artifact_owners s ⊆ artifact_owners s';
  grows_candidates : artifact_candidates s' = artifact_candidates s;
}.

Lemma insert_or_keep {K V} `{Countable K} (m m' : gmap K V) k v :
  m' = match m !! k with Some _ => m | None => <[k := v]> m end → m ⊆ m' ∧ is_Some (m' !! k).
Proof.
  intros ->. destruct (m !! k) eqn:Hk; [by rewrite Hk; split; [|eexists]|].
  split; [by apply insert_subseteq|]. rewrite lookup_insert_eq. by eexists.
Qed.

Lemma stored_delta_block delta encoded at_ms what columns :
  stored_delta delta encoded at_ms what = Ok columns →
  stored_block columns = delta_block delta ∧ stored_encoded columns = encoded.
Proof.
  unfold stored_delta. intros (? & _ & (? & _ & (? & _ & [= <-])%result_bind_Ok)%result_bind_Ok)%result_bind_Ok.
  done.
Qed.

(** The artifact of a delta is retained once this succeeds, whether it was
    there before or not. *)
Definition holds_artifact (s : ArtifactStore) (delta : EncodedDelta) : Prop :=
  ∃ row art, artifacts s !! ref_number (delta_block delta) = Some row ∧
    decode (artifact_delta row) = Ok art ∧ processor_artifact_delta art = delta.

Lemma insert_processor_artifact_ok delta encoded at_ms s s' inserted :
  artifacts_ok s →
  insert_processor_artifact show descriptor delta encoded at_ms s = Ok (s', inserted) →
  grows s s' ∧ holds_artifact s' delta ∧ artifact_owners s' = artifact_owners s.
Proof.
  intros Hok. unfold insert_processor_artifact.
  intros (columns & [Hblock Henc]%stored_delta_block & (bytes & Hbytes & Hrest)%result_bind_Ok)%result_bind_Ok.
  apply result_bind_Ok in Hrest as (s1 & Hins & (row & Hrow & Hrest)%result_bind_Ok).
  apply result_bind_Ok in Hrest as (art & Hart & (same & Hsame & Hrest)%result_bind_Ok).
  apply if_Err_Ok in Hrest as [Htrue [= <- <-]].
  unfold usize_i64 in Hbytes. destruct (_ <=? _) in Hbytes; [|done]. injection Hbytes as <-.
  apply insert_artifact_row_ok in Hins as (Hok1 & Hmap & Howners & Hcands); [|done|by cbn; rewrite Hblock|by cbn; rewrite Henc].
  apply insert_or_keep in Hmap as [Hsub _].
  split; [split; [done|done|by rewrite Howners|done]|]. split; [|done].
  exists row, art. unfold ok_or in Hrow. destruct (artifacts s1 !! _) eqn:Hlk; [|done]. injection Hrow as ->.
  split_and!; [done..|]. apply negb_false_iff in Htrue as ->.
  destruct (bool_decide_reflect (processor_artifact_delta art = delta)); [done|by injection Hsame].
Qed.

Lemma insert_artifact_owner_ok block kind owner_id created s s' inserted :
  artifacts_ok s → insert_artifact_owner block kind owner_id created s = Ok (s', inserted) →
  grows s s' ∧ artifacts s' = artifacts s ∧ is_Some (artifact_owners s' !! (block, (kind, owner_id))).
Proof.
  intros Hok. unfold insert_artifact_owner.
  intros [_ (number & Hnum & (s1 & Hins & [= -> _])%result_bind_Ok)%result_bind_Ok]%bind_unit_Ok.
  unfold u64_i64 in Hnum. destruct (_ <=? _) in Hnum; [|done]. injection Hnum as <-.
  apply insert_owner_row_ok in Hins as (Hok1 & Harts & Hmap & Hcands); [|done].
  apply insert_or_keep in Hmap as [Hsub Hin]. split; [split; [done|by rewrite Harts|done..]|done].
Qed.

Lemma grows_refl s : artifacts_ok s → grows s s.
Proof. by split. Qed.

Lemma grows_trans s1 s2 s3 : grows s1 s2 → grows s2 s3 → grows s1 s3.
Proof. intros [] []. split; [done|by etrans..|congruence]. Qed.

Lemma holds_artifact_grows s s' delta : grows s s' → holds_artifact s delta → holds_artifact s' delta.
Proof.
  intros [_ Hsub _ _] (row & art & Hrow & Hart). exists row, art. split; [|done].
  by eapply lookup_weaken.
Qed.

Lemma stage_candidate_ok delta encoded at_ms s s' :
  artifacts_ok s → stage_processor_artifact_candidate show descriptor delta encoded at_ms s = Ok s' →
  artifacts_ok s' ∧ artifacts s' = artifacts s ∧ artifact_owners s' = artifact_owners s ∧
  artifact_candidates s ⊆ artifact_candidates s' ∧
  ∃ row, artifact_candidates s' !! (ref_number (delta_block delta), ref_hash (delta_block delta)) = Some row ∧
    EncodedDelta.decode_durable show descriptor (stored_encoded row) = Ok delta.
Proof.
  intros Hok. unfold stage_processor_artifact_candidate.
  intros (columns & [Hblock _]%stored_delta_block & (s1 & Hins & Hrest)%result_bind_Ok)%result_bind_Ok.
  apply result_bind_Ok in Hrest as (row & Hrow & (stored & Hdec & Hrest)%result_bind_Ok).
  apply if_Err_Ok in Hrest as [Heq [= <-]]. apply bool_decide_eq_false, dec_stable in Heq as ->.
  apply insert_candidate_row_ok in Hins as (Hok1 & Ha & Ho & Hmap); [|done|by rewrite Hblock].
  apply insert_or_keep in Hmap as [Hsub _]. split_and!; [done..|].
  unfold ok_or in Hrow. destruct (artifact_candidates s1 !! _) eqn:Hlk; [|done]. injection Hrow as ->.
  exists row. split; [done|]. by destruct (EncodedDelta.decode_durable _ _ _) as [|] eqn:Hd; [injection Hdec as ->|].
Qed.

(** ** The window leaves what it does not claim *)

Lemma unowned_spec s number : number ∈ unowned s → ∀ k, k.1 = number → artifact_owners s !! k = None.
Proof.
  unfold unowned. rewrite elem_of_filter_list, negb_true_iff. intros [_ Hnone] k Hk.
  destruct (artifact_owners s !! k) as [created|] eqn:Hlk; [|done]. exfalso.
  apply not_false_iff_true in Hnone; [done|]. apply existsb_spec. exists (k, created).
  rewrite elem_of_map_to_list. split; [done|]. by apply bool_decide_eq_true.
Qed.

Lemma prune_window_ok now current s s' n :
  artifacts_ok s → prune_processor_artifact_window descriptor instance now current s = Ok (s', n) →
  artifacts_ok s' ∧ artifact_candidates s' = artifact_candidates s ∧
  (artifact_mode (lifecycle_artifacts (lifecycle descriptor)) ≠ ArtifactWindowed → s' = s).
Proof.
  intros Hok. unfold prune_processor_artifact_window.
  destruct (artifact_mode _); [by intros [= <- <-]| |by intros [= <- <-]].
  intros (window & _ & (blocks & _ & (s1 & H1 & (s2 & H2 & [= <- <-])%result_bind_Ok)%result_bind_Ok)%result_bind_Ok)%result_bind_Ok.
  split; [|split; [|done]].
  - set (P s0 := artifacts_ok s0 ∧ artifact_owners s0 = artifact_owners s1).
    enough (P s2) as [? _] by done.
    refine (fold_result_invariant_in P _ _ _ _ _ _ H2).
    + intros b number b' Hin [Hb Hobs] Hdel.
      apply delete_artifact_row_ok in Hdel as (? & _ & Ho & _); [split; [done|congruence]|done|].
      intros k Hk. rewrite Hobs. by eapply unowned_spec.
    + split; [|done]. refine (fold_result_invariant artifacts_ok _ _ _ _ _ Hok H1).
      intros b number b' Hb Hdel. by apply delete_owner_row_ok in Hdel as (? & _).
  - set (P s0 := artifact_candidates s0 = artifact_candidates s).
    assert (P s1) as Hs1.
    { refine (fold_result_invariant P _ _ _ _ _ _ H1); [|done]. unfold P.
      intros b number b' Hb Hdel. unfold delete_owner_row in Hdel.
      destruct (artifact_owners b !! _); [|by injection Hdel as <-].
      apply result_bind_Ok in Hdel as (? & _ & [= <-]). done. }
    refine (fold_result_invariant P _ _ _ _ _ Hs1 H2). unfold P.
    intros b number b' Hb Hdel. unfold delete_artifact_row in Hdel.
    destruct (artifacts b !! _); [|by injection Hdel as <-].
    apply result_bind_Ok in Hdel as (? & _ & [= <-]). done.
Qed.

Lemma stage_or_retain_ok now clock delta encoded finality s s' :
  artifacts_ok s →
  stage_or_retain_processor_artifact show descriptor instance now clock delta encoded finality s = Ok s' →
  artifacts_ok s'.
Proof.
  intros Hok. unfold stage_or_retain_processor_artifact. destruct (artifact_mode _); [by intros [= <-]|..].
  all: destruct (bool_decide _); [|by intros (? & _)%stage_candidate_ok].
  all: intros ([s1 b1] & H1 & Hrest)%result_bind_Ok.
  all: apply insert_processor_artifact_ok in H1 as ([H1 _ _ _] & _ & _); [|done].
  all: apply result_bind_Ok in Hrest as ([s2 b2] & H2 & (s3 & H3 & Hrest)%result_bind_Ok).
  all: apply insert_artifact_owner_ok in H2 as ([H2 _ _ _] & _ & _); [|done].
  all: apply delete_candidate_row_ok in H3 as (H3 & _); [|done].
  all: apply result_bind_Ok in Hrest as ([s4 n] & H4 & [= <-]).
  all: by apply prune_window_ok in H4 as (? & _).
Qed.

(** ** Promotion *)

(** Block [number] holds what the candidate row decodes to, claimed by the
    instance. *)
Definition promoted (s : ArtifactStore) (e : (Z * BlockHash) * StoredDelta) : Prop :=
  (∃ row art art', artifacts s !! e.1.1 = Some row ∧ decode (artifact_delta row) = Ok art ∧
     decode e.2 = Ok art' ∧ processor_artifact_delta art = processor_artifact_delta art') ∧
  is_Some (artifact_owners s !! (e.1.1, (OwnerProcessorInstance, instance))).

Lemma promoted_grows s s' e : grows s s' → promoted s e → promoted s' e.
Proof.
  intros [_ Ha Ho _] [(row & art & art' & Hrow & Hrest) Hown]. split.
  - exists row, art, art'. split; [by eapply lookup_weaken|done].
  - eapply lookup_weaken_is_Some; [exact Hown|done].
Qed.

Lemma decoded_number row art :
  decode row = Ok art → ref_number (delta_block (processor_artifact_delta art)) = ref_number (stored_block row).
Proof.
  unfold decode_processor_artifact.
  intros (delta & _ & [Hval (at_ms & _ & [= <-])%result_bind_Ok]%bind_unit_Ok)%result_bind_Ok. cbn.
  unfold validate_processor_artifact_row in Hval.
  apply result_bind_Ok in Hval as (chain & _ & (number & Hn & Hval)%result_bind_Ok).
  apply result_bind_Ok in Hval as (ts & _ & (v & _ & (w & _ & Hval)%result_bind_Ok)%result_bind_Ok).
  apply if_Err_Ok in Hval as [Hval _]. rewrite !orb_false_iff, !negb_false_iff in Hval.
  unfold i64_u64 in Hn. destruct (0 <=? _) in Hn; [|done]. injection Hn as <-. lia.
Qed.

Lemma promote_candidate_ok s e s' :
  artifacts_ok s → e.1.1 = ref_number (stored_block e.2) →
  promote_candidate show descriptor instance s e = Ok s' → grows s s' ∧ promoted s' e.
Proof.
  intros Hok Hkey. unfold promote_candidate.
  intros (art & Hart & (encoded & _ & (at_ms & _ & Hrest)%result_bind_Ok)%result_bind_Ok)%result_bind_Ok.
  apply result_bind_Ok in Hrest as ([s1 b1] & H1 & ([s2 b2] & H2 & [= <-])%result_bind_Ok).
  apply insert_processor_artifact_ok in H1 as (Hg1 & (row & art' & Hrow & Hart' & Heq) & _); [|done].
  apply insert_artifact_owner_ok in H2 as (Hg2 & Hsame & Hown); [|apply Hg1].
  split; [by eapply grows_trans|]. rewrite (decoded_number _ _ Hart), <-Hkey in Hrow, Hown.
  split; [|done]. exists row, art', art. by rewrite Hsame.
Qed.

Lemma elem_of_due_candidates through s k row :
  (k, row) ∈ due_candidates through s ↔ artifact_candidates s !! k = Some row ∧ k.1 ≤ through.
Proof. unfold due_candidates. by rewrite elem_of_filter_list, elem_of_sort_by, elem_of_map_to_list, Z.leb_le. Qed.

Lemma promote_loop rows s s' :
  artifacts_ok s → (∀ k row, (k, row) ∈ rows → k.1 = ref_number (stored_block row)) →
  fold_result (promote_candidate show descriptor instance) s rows = Ok s' →
  grows s s' ∧ Forall (promoted s') rows.
Proof.
  revert s. induction rows as [|e rows IH]; intros s Hok Hkeys; cbn.
  { intros [= <-]. split; [by apply grows_refl|constructor]. }
  intros (s1 & H1 & H2)%result_bind_Ok.
  apply promote_candidate_ok in H1 as [Hg1 Hp]; [|done|destruct e; apply Hkeys; by left].
  apply IH in H2 as [Hg2 Hps]; [|apply Hg1|intros; apply Hkeys; by right].
  split; [by eapply grows_trans|]. constructor; [|done]. by eapply promoted_grows.
Qed.

Lemma delete_candidates_ok keys s s' :
  artifacts_ok s → fold_result delete_candidate_row s keys = Ok s' →
  artifacts_ok s' ∧ artifacts s' = artifacts s ∧ artifact_owners s' = artifact_owners s ∧
  ∀ k, artifact_candidates s' !! k = if decide (k ∈ keys) then None else artifact_candidates s !! k.
Proof.
  revert s. induction keys as [|key keys IH]; intros s Hok; cbn; [by intros [= <-]|].
  intros (s1 & H1 & H2)%result_bind_Ok.
  apply delete_candidate_row_ok in H1 as (Hok1 & Ha1 & Ho1 & Hc1); [|done].
  apply IH in H2 as (Hok2 & Ha2 & Ho2 & Hc2); [|done]. split_and!; [done|congruence..|].
  intros k. rewrite Hc2, Hc1. destruct (decide (k ∈ keys)), (decide (k ∈ key :: keys)); [done|set_solver| |].
  - assert (k = key) as -> by set_solver. by rewrite lookup_delete_eq.
  - rewrite lookup_delete_ne; [done|set_solver].
Qed.

Lemma promote_candidates_ok clock through s s' n :
  artifacts_ok s → artifact_mode (lifecycle_artifacts (lifecycle descriptor)) ≠ ArtifactNone →
  promote_processor_artifact_candidates show descriptor instance clock through s = Ok (s', n) →
  artifacts_ok s' ∧
  (∀ k, artifact_candidates s' !! k = if k.1 <=? through then None else artifact_candidates s !! k) ∧
  (artifact_mode (lifecycle_artifacts (lifecycle descriptor)) = ArtifactFull →
   ∀ k row, artifact_candidates s !! k = Some row → k.1 ≤ through → promoted s' (k, row)).
Proof.
  intros Hok Hmode. unfold promote_processor_artifact_candidates.
  assert (∀ {X} (x y : X), match artifact_mode (lifecycle_artifacts (lifecycle descriptor)) with
    ArtifactNone => x | _ => y end = y) as -> by (by destruct (artifact_mode _)).
  intros (through' & Hthrough & (s1 & H1 & (s2 & H2 & (s3 & H3 & [= <- <-])%result_bind_Ok)%result_bind_Ok)%result_bind_Ok)%result_bind_Ok.
  unfold u64_i64 in Hthrough. destruct (_ <=? _) in Hthrough; [|done]. injection Hthrough as <-.
  apply promote_loop in H1 as [Hg Hps]; [|done|].
  2: { intros k row [Hk _]%elem_of_due_candidates. by apply (candidate_key _ Hok) in Hk as ->. }
  apply delete_candidates_ok in H2 as (Hok2 & Ha2 & Ho2 & Hc2); [|apply Hg].
  assert (artifacts_ok s3 ∧ artifact_candidates s3 = artifact_candidates s2 ∧
    (artifact_mode (lifecycle_artifacts (lifecycle descriptor)) ≠ ArtifactWindowed → s3 = s2)) as (Hok3 & Hc3 & Hs3).
  { destruct (latest_artifact _ _) as [[number row]|]; [|by injection H3 as <-].
    apply result_bind_Ok in H3 as (? & _ & (? & _ & ([s4 m] & Hprune & [= <-])%result_bind_Ok)%result_bind_Ok).
    by apply prune_window_ok in Hprune. }
  split_and!; [done|..].
  - intros k. rewrite Hc3, Hc2, (grows_candidates _ _ Hg).
    assert (k ∈ (due_candidates through s1).*1 ↔ ∃ row, artifact_candidates s !! k = Some row ∧ k.1 ≤ through) as Hin.
    { rewrite list_elem_of_fmap. split.
      - intros ([k' row] & -> & Hk%elem_of_due_candidates). rewrite (grows_candidates _ _ Hg) in Hk. by exists row.
      - intros (row & Hk). exists (k, row). split; [done|]. apply elem_of_due_candidates.
        by rewrite (grows_candidates _ _ Hg). }
    destruct (decide (k ∈ (due_candidates through s1).*1)) as [(row & _ & Hle)%Hin|Hnot]; [by destruct (Z.leb_spec k.1 through); [|lia]|].
    destruct (Z.leb_spec k.1 through); [|done]. destruct (artifact_candidates s !! k) eqn:Hk; [|done].
    destruct Hnot. apply Hin. by eexists.
  - intros Hfull k row Hk Hle. rewrite Hs3 by congruence.
    rewrite Forall_forall in Hps. specialize (Hps (k, row)). unfold promoted. rewrite Ha2, Ho2.
    apply Hps, elem_of_due_candidates. done.
Qed.

(** The totals the storage budget reads stay exact. Staging or retaining
    a delta, promoting candidates and pruning the window keep the counters
    that the triggers maintain equal to what the rows hold, keep every owner
    on an artifact that exists and every candidate under its own block; so
    the bytes a promotion is admitted on are the bytes that are stored. *)
Theorem artifacts_accounted s (Hok : artifacts_ok s) :
  (∀ now clock delta encoded finality s',
     stage_or_retain_processor_artifact show descriptor instance now clock delta encoded finality s = Ok s' →
     artifacts_ok s') ∧
  (∀ now current s' n,
     prune_processor_artifact_window descriptor instance now current s = Ok (s', n) → artifacts_ok s') ∧
  (∀ clock budget others through s' shortfall,
     promote_processor_artifact_candidates_within_budget show descriptor instance clock budget others through s
       = Ok (s', shortfall) → artifacts_ok s').
Proof.
  split_and!.
  - intros. by eapply stage_or_retain_ok.
  - by intros now current s' n (? & _)%prune_window_ok.
  - intros clock budget others through s' shortfall.
    unfold promote_processor_artifact_candidates_within_budget.
    destruct (artifact_mode _) eqn:Hmode; [by intros [= <- _]|..].
    all: intros ([s1 n] & (Hs1 & _)%promote_candidates_ok & Hrest)%result_bind_Ok; [|done|by rewrite Hmode].
    all: destruct (enforce_artifact_storage_capacity _ _) as [[]|[]]; try done; [by injection Hrest as <- _|].
    all: by destruct (bool_decide _); injection Hrest as <- _.
Qed.

(** Promotion stays within the retained budget or does nothing. When a
    height becomes final, either the candidates at or below it leave the
    staging table, in full retention each of them retained and claimed by its
    instance, and the artifacts of all instances fit the budget; or the rows
    are left exactly as they were and the shortfall is reported. *)
Theorem promotion_within_budget clock budget others through s s' shortfall
    (Hok : artifacts_ok s)
    (Hmode : artifact_mode (lifecycle_artifacts (lifecycle descriptor)) ≠ ArtifactNone)
    (Hpromote : promote_processor_artifact_candidates_within_budget show descriptor instance clock budget
       others through s = Ok (s', shortfall)) :
  match shortfall with
  | None =>
      Z_sum (retained_bytes <$> exact_totals s' :: others) ≤ maximum_retained_bytes budget ∧
      (∀ k, artifact_candidates s' !! k = if k.1 <=? through then None else artifact_candidates s !! k) ∧
      (artifact_mode (lifecycle_artifacts (lifecycle descriptor)) = ArtifactFull →
       ∀ k row, artifact_candidates s !! k = Some row → k.1 ≤ through → promoted s' (k, row))
  | Some e =>
      s' = s ∧ ∃ projected, e = ArtifactStorageLimit "retained" (maximum_retained_bytes budget) projected ∧
        maximum_retained_bytes budget < projected
  end.
Proof.
  unfold promote_processor_artifact_candidates_within_budget in Hpromote.
  assert (∀ {X} (x y : X), match artifact_mode (lifecycle_artifacts (lifecycle descriptor)) with
    ArtifactNone => x | _ => y end = y) as Hm by (by destruct (artifact_mode _)).
  rewrite Hm in Hpromote. clear Hm.
  apply result_bind_Ok in Hpromote as ([s1 n] & (Hok1 & Hc & Hp)%promote_candidates_ok & Hrest); [|done..].
  unfold enforce_artifact_storage_capacity in Hrest.
  set (retained := Z_sum (retained_bytes <$> artifact_totals s1 :: others)) in *.
  set (pending := Z_sum (pending_bytes <$> artifact_totals s1 :: others)) in *.
  destruct (_ || _); [done|].
  destruct (Z.ltb_spec (maximum_retained_bytes budget) retained) as [Hover|Hfit].
  - cbn in Hrest. injection Hrest as <- <-. split; [done|]. by eexists.
  - destruct (maximum_pending_bytes budget <? pending); cbn in Hrest; injection Hrest as <- <-;
      rewrite <-(totals_exact _ Hok1); done.
Qed.
End facts.

(** ** A staged delta *)

Lemma no_artifacts_ok : artifacts_ok no_artifacts.
Proof. split; [done..| | |]; cbn; intros; by rewrite lookup_empty in *. Qed.

Definition artifact_lifecycle (mode : ArtifactPolicyMode) : LifecyclePolicies :=
  MkLifecycle (MkStatePolicy StateDurable) (MkArtifactPolicy mode None) output_default
    delivery_default checkpoint_default undo_default.
Definition artifact_descriptor : ProcessorDescriptor :=
  MkDescriptor (descriptor_id sample_descriptor) (descriptor_instance sample_descriptor)
    (descriptor_version sample_descriptor) (code_hash sample_descriptor) (config_hash sample_descriptor)
    (descriptor_start sample_descriptor) (requirements sample_descriptor) (descriptor_mode sample_descriptor)
    (delivery_ordering sample_descriptor) (publication sample_descriptor) (artifact_lifecycle ArtifactFull)
    (schemas sample_descriptor).

Section sample.
#[local] Existing Instance Durable.zero_blake3.
#[local] Existing Instance EncodedDelta.one_postcard.
#[local] Abbreviation no_show := (λ _ : DurableError string, EmptyString).

Definition sample_encoded : list byte :=
  match EncodedDelta.encode_durable no_show EncodedDelta.sample_delta with Ok bytes => bytes | Err _ => [] end.
Definition staged : result StoreError ArtifactStore :=
  stage_or_retain_processor_artifact no_show artifact_descriptor "i" 5 (Ok 5) EncodedDelta.sample_delta
    sample_encoded Unattested no_artifacts.
Definition promoting (limit : Z) (s : ArtifactStore) : result StoreError (ArtifactStore * option StoreError) :=
  promote_processor_artifact_candidates_within_budget no_show artifact_descriptor "i" (Ok 5)
    (MkArtifactBudget limit 0) [] 7 s.

Lemma staged_Ok : is_ok staged = true.
Proof. vm_compute. reflexivity. Qed.

Lemma staged_promotes : ∃ s promoted kept e,
  staged = Ok s ∧ promoting 1000 s = Ok (promoted, None) ∧ promoting 10 s = Ok (kept, Some e).
Proof.
  pose proof staged_Ok as Hok. destruct staged as [s|] eqn:Hs; [clear Hok|discriminate].
  assert (match staged with
    | Ok s => match promoting 1000 s, promoting 10 s with Ok (_, None), Ok (_, Some _) => true | _, _ => false end
    | Err _ => false end = true) as H by (vm_compute; reflexivity).
  rewrite Hs in H. exists s. destruct (promoting 1000 s) as [[s1 [|]]|], (promoting 10 s) as [[s2 [|]]|]; try done.
  eexists _, _, _. split; [reflexivity|]. split; reflexivity.
Qed.

Lemma artifacts_accounted_witness : ∃ s, staged = Ok s ∧ artifacts_ok no_artifacts ∧ artifacts_ok s.
Proof.
  pose proof staged_Ok as Hok. destruct staged as [s|] eqn:Hs; [clear Hok|discriminate].
  exists s. split; [done|]. split; [exact no_artifacts_ok|].
  exact (proj1 (artifacts_accounted no_show artifact_descriptor "i" no_artifacts no_artifacts_ok) _ _ _ _ _ _ Hs).
Defined.

Lemma promotion_within_budget_witness : ∃ s kept e,
  staged = Ok s ∧ promoting 10 s = Ok (kept, Some e) ∧ kept = s ∧
  ∃ projected, e = ArtifactStorageLimit "retained" 10 projected ∧ 10 < projected.
Proof.
  destruct staged_promotes as (s & promoted & kept & e & Hs & _ & Hkept).
  assert (artifacts_ok s) as Hok.
  { unfold staged in Hs. by eapply stage_or_retain_ok; [apply no_artifacts_ok|exact Hs]. }
  exists s, kept, e. split; [done|]. split; [done|].
  exact (promotion_within_budget no_show artifact_descriptor "i" (Ok 5) (MkArtifactBudget 10 0) [] 7 s kept
    (Some e) Hok ltac:(discriminate) Hkept).
Defined.
End sample.
