(* ===== verification/Checkpoints.v ===== *)
(** * Recovery checkpoints

    Models the snapshots of a processor's working state in
    [crates/store-sqlite/src/lib.rs]: encoding one while its rows stream in
    ([encode_state_snapshot]), decoding it ([decode_state_snapshot]), taking
    checkpoints on their cadence and keeping the newest
    ([create_recovery_checkpoint], [insert_recovery_checkpoint]) and putting
    one back ([restore_recovery_checkpoint]).

    postcard and serde_json are parameters. *)
From Stdlib Require Import ZArith Lia Strings.Byte.
From stdpp Require Import gmap strings list list_numbers fin_maps sorting.
From S2P Require Import Prelude Bytes Chain Capability Provenance Frame Durable Descriptor Delta Rows Delivery.

Record StateSnapshotEntry := MkEntry {
  entry_namespace : string;
  entry_key : list byte;
  entry_value : list byte;
}.

Record StateSnapshotHeader := MkHeader {
  format_version : Z;
  header_instance : string;
  header_descriptor : BlockHash;
  header_cursor : ProcessorCursor;
}.

(** The fields before [entries] are the header's. *)
Record StateSnapshot := MkSnapshot {
  snapshot_header : StateSnapshotHeader;
  snapshot_entries : list StateSnapshotEntry;
}.

(** A [recovery_checkpoints] row of the instance. *)
Record Checkpoint := MkCheckpoint {
  checkpoint_id : Z;
  checkpoint_block : Z;
  checkpoint_hash : BlockHash;
  checkpoint_cursor : list byte;
  state_snapshot : list byte;
  state_checksum : BlockHash;
  checkpoint_created_at : Z;
}.

(** The instance's rows, and the last id of the [AUTOINCREMENT] column. *)
Record Checkpoints := MkCheckpoints {
  checkpoint_rows : list Checkpoint;
  last_checkpoint_id : Z;
}.

Definition AUTOMATIC_CHECKPOINT_INTERVAL_BLOCKS : Z := 1000.

(** [serde_json::to_vec]. *)
Class DescriptorJson := descriptor_json : ProcessorDescriptor → result string (list byte).

Definition with_lifecycle (d : ProcessorDescriptor) (l : LifecyclePolicies) : ProcessorDescriptor :=
  MkDescriptor (descriptor_id d) (descriptor_instance d) (descriptor_version d) (code_hash d)
    (config_hash d) (descriptor_start d) (requirements d) (descriptor_mode d) (delivery_ordering d)
    (publication d) l (schemas d).

Definition with_finality (c : ProcessorCursor) (f : Finality) : ProcessorCursor :=
  MkProcessorCursor (cursor_processor_id c) (cursor_processor_version c) (cursor_chain_id c)
    (cursor_block_number c) (cursor_block_hash c) f (cursor_sequence c).

(** [ORDER BY block_number DESC, checkpoint_id DESC]. *)
Definition newest_cmp (x y : Checkpoint) : comparison :=
  then_with (checkpoint_block y ?= checkpoint_block x) (checkpoint_id y ?= checkpoint_id x).

Section checkpoints.
Context `{!Blake3} `{!DescriptorJson} {PE : Type} (show : PE → string).
Context `{!Postcard PE ProcessorCursor} `{!Postcard PE StateSnapshotHeader} `{!Postcard PE N}
  `{!Postcard PE StateSnapshotEntry} `{!Postcard PE StateSnapshot}.

Definition full_descriptor_hash (d : ProcessorDescriptor) : result StoreError BlockHash :=
  encoded ← map_err JsonError (descriptor_json d);
  Ok (blake3_hash encoded).

Definition descriptor_hash (d : ProcessorDescriptor) : result StoreError BlockHash :=
  full_descriptor_hash (with_lifecycle d lifecycle_default).

(** [postcard::to_extend]. *)
Definition to_extend {A} `{!Postcard PE A} (value : A) (buffer : list byte) : result PE (list byte) :=
  bytes ← to_allocvec value; Ok (buffer ++ bytes).

Definition state_rows (state : gmap StateKey (list byte)) : list StateSnapshotEntry :=
  (λ e, MkEntry (key_namespace e.1) (state_key_bytes e.1) e.2) <$> map_entries (cmp_le state_key_cmp) state.

(** The loop over the rows. *)
Definition encode_row (acc : list byte * Z) (row : StateSnapshotEntry) : result StoreError (list byte * Z) :=
  encoded ← map_err (Encoding ∘ show) (to_extend row acc.1);
  Ok (encoded, Z.min i64_max (acc.2 + 1)).

Definition encode_state_snapshot (d : ProcessorDescriptor) (instance : string) (cursor : ProcessorCursor)
    (state : gmap StateKey (list byte)) : result StoreError (list byte * list byte * BlockHash) :=
  let expected := Z.of_nat (size state) in
  row_count ← i64_u64 expected "processor state rows";
  identity ← descriptor_hash d;
  encoded ← map_err (Encoding ∘ show)
    (header ← to_allocvec (MkHeader 1 instance identity cursor); to_extend (Z.to_N row_count) header);
  '(encoded, encoded_rows) ← fold_result encode_row (encoded, 0) (state_rows state);
  if negb (encoded_rows =? expected)
  then Err (StoreInvariant "processor state changed while its snapshot was encoded")
  else
    encoded_cursor ← map_err (Encoding ∘ show) (to_allocvec cursor);
    Ok (encoded_cursor, encoded, blake3_hash encoded).

Definition decode_state_snapshot (d : ProcessorDescriptor) (instance : string) (encoded : list byte)
    (expected_checksum : BlockHash) (aliases : list BlockHash) : result StoreError StateSnapshot :=
  if bool_decide (blake3_hash encoded ≠ expected_checksum) then Err SavepointChecksum
  else
    snapshot ← map_err (Encoding ∘ show) (from_bytes encoded);
    let header := snapshot_header snapshot in
    if negb (format_version header =? 1) || bool_decide (header_instance header ≠ instance)
    then Err SavepointContract
    else
      identity ← descriptor_hash d;
      foreign ← (if bool_decide (header_descriptor header ≠ identity)
        then full ← full_descriptor_hash d;
             Ok (bool_decide (header_descriptor header ≠ full)
                 && negb (list_contains aliases (header_descriptor header)))
        else Ok false);
      if foreign
         || bool_decide (cursor_processor_id (header_cursor header) ≠ processor_id (descriptor_id d))
         || bool_decide (cursor_processor_version (header_cursor header) ≠ descriptor_version d)
      then Err SavepointContract
      else Ok snapshot.

(** ** Taking checkpoints *)

(** Rows of the newest [keep] stay. *)
Definition prune_checkpoints (keep : Z) (rows : list Checkpoint) : list Checkpoint :=
  let kept := checkpoint_id <$> take (Z.to_nat keep) (sort_by (cmp_leb newest_cmp) rows) in
  List.filter (λ row, bool_decide (checkpoint_id row ∈ kept)) rows.

Definition insert_recovery_checkpoint (now : result StoreError Z) (d : ProcessorDescriptor)
    (instance : string) (cursor : ProcessorCursor) (keep : Z) (state : gmap StateKey (list byte))
    (s : Checkpoints) : result StoreError Checkpoints :=
  '(encoded_cursor, encoded_snapshot, checksum) ← encode_state_snapshot d instance cursor state;
  block ← u64_i64 (cursor_block_number cursor) "checkpoint block number";
  created ← now;
  let id := last_checkpoint_id s + 1 in
  let s :=
    if existsb (λ row, (checkpoint_block row =? block)
         && bool_decide (checkpoint_hash row = cursor_block_hash cursor)) (checkpoint_rows s)
    then s
    else MkCheckpoints (checkpoint_rows s ++
           [MkCheckpoint id block (cursor_block_hash cursor) encoded_cursor encoded_snapshot checksum created]) id in
  Ok (MkCheckpoints (prune_checkpoints keep (checkpoint_rows s)) (last_checkpoint_id s)).

(** [MAX(block_number)]. *)
Definition latest_checkpoint (s : Checkpoints) : option Z :=
  match checkpoint_block <$> checkpoint_rows s with
  | [] => None
  | block :: blocks => Some (foldl Z.max block blocks)
  end.

Definition create_recovery_checkpoint (now : result StoreError Z) (d : ProcessorDescriptor)
    (instance : string) (cursor : ProcessorCursor) (keep : Z) (state : gmap StateKey (list byte))
    (s : Checkpoints) : result StoreError Checkpoints :=
  match latest_checkpoint s with
  | Some latest =>
      latest ← i64_u64 latest "checkpoint block number";
      if cursor_block_number cursor <? sat_add latest AUTOMATIC_CHECKPOINT_INTERVAL_BLOCKS then Ok s
      else insert_recovery_checkpoint now d instance cursor keep state s
  | None => insert_recovery_checkpoint now d instance cursor keep state s
  end.

(** ** Putting one back *)

Definition insert_state_row (state : gmap StateKey (list byte)) (e : StateSnapshotEntry)
    : result StoreError (gmap StateKey (list byte)) :=
  let k := MkStateKey (entry_namespace e) (entry_key e) in
  match state !! k with
  | Some _ => Err (Sqlx "UNIQUE constraint failed: processor_state")
  | None => Ok (<[k := entry_value e]> state)
  end.

Definition restore_recovery_checkpoint (d : ProcessorDescriptor) (instance : string) (id : Z)
    (aliases : list BlockHash) (current : option ProcessorCursor) (s : Checkpoints)
    : result StoreError (gmap StateKey (list byte) * ProcessorCursor) :=
  number ← u64_i64 id "checkpoint ID";
  row ← ok_or (list_find (λ row, checkpoint_id row = number) (checkpoint_rows s))
    (RecoveryCheckpointNotFound instance id);
  snapshot ← decode_state_snapshot d instance (state_snapshot row.2) (state_checksum row.2) aliases;
  let taken := header_cursor (snapshot_header snapshot) in
  let boundary := Err (CheckpointRestoreBoundary (cursor_block_number taken)
    (cursor_block_number <$> current)) in
  match current with
  | Some cursor =>
      if Finality.satisfies (cursor_finality cursor) (cursor_finality taken)
         && bool_decide (cursor = with_finality taken (cursor_finality cursor))
      then
        state ← fold_result insert_state_row ∅ (snapshot_entries snapshot);
        Ok (state, cursor)
      else boundary
  | None => boundary
  end.
End checkpoints.

(** ** The streamed encoding *)

Section wire.
Context `{!Blake3} `{!DescriptorJson} {PE : Type} (show : PE → string).
Context `{!Postcard PE ProcessorCursor} `{!Postcard PE StateSnapshotHeader} `{!Postcard PE N}
  `{!Postcard PE StateSnapshotEntry} `{!Postcard PE (list StateSnapshotEntry)} `{!Postcard PE StateSnapshot}.

(** postcard writes a struct as its fields in order, and a sequence as its
    length followed by its elements. *)
Class SnapshotWire : Prop := {
  wire_fields s : to_allocvec s =
    (header ← to_allocvec (snapshot_header s);
     entries ← to_allocvec (snapshot_entries s);
     Ok (header ++ entries));
  wire_elements (l : list StateSnapshotEntry) : to_allocvec l =
    (count ← to_allocvec (N.of_nat (length l));
     items ← fold_result (λ acc e, to_extend e acc) [] l;
     Ok (count ++ items));
}.
Context `{!SnapshotWire} `{!PostcardLaws PE StateSnapshot}.

Lemma encode_rows_Ok prefix acc count rows encoded n :
  fold_result (encode_row show) (prefix ++ acc, count) rows = Ok (encoded, n) →
  ∃ items, fold_result (λ acc e, to_extend e acc) acc rows = Ok items ∧ encoded = prefix ++ items.
Proof.
  revert acc count. induction rows as [|row rows IH]; intros acc count; cbn.
  { intros [= <- _]. by exists acc. }
  intros ([b m] & E1 & E2)%result_bind_Ok. unfold encode_row, to_extend in E1. cbn in E1.
  apply result_bind_Ok in E1 as (e & He & [= <- <-]).
  unfold to_extend. destruct (to_allocvec row) as [bytes|] eqn:Hrow; [|done]. injection He as <-.
  rewrite <-app_assoc in E2. apply IH in E2 as (items & Hitems & ->). cbn. by exists items.
Qed.

Lemma encode_state_snapshot_Ok d instance cursor state encoded_cursor encoded checksum :
  encode_state_snapshot show d instance cursor state = Ok (encoded_cursor, encoded, checksum) →
  checksum = blake3_hash encoded ∧
  ∃ identity, descriptor_hash d = Ok identity ∧
    from_bytes encoded = Ok (MkSnapshot (MkHeader 1 instance identity cursor) (state_rows state)).
Proof.
  unfold encode_state_snapshot.
  intros (row_count & Hcount & (identity & Hid & (header & Hheader & Hrest)%result_bind_Ok)%result_bind_Ok)%result_bind_Ok.
  apply result_bind_Ok in Hrest as ([all rows] & Hrows & [_ Hrest]%if_Err_Ok).
  apply result_bind_Ok in Hrest as (c & _ & [= <- <- <-]). split; [done|].
  exists identity. split; [done|]. apply from_to. rewrite wire_fields, wire_elements. cbn [snapshot_header snapshot_entries].
  unfold to_extend in Hheader. destruct (to_allocvec (MkHeader _ _ _ _)) as [bytes|]; [|done]. cbn in *.
  unfold i64_u64 in Hcount. destruct (0 <=? _) in Hcount; [|done]. injection Hcount as <-.
  assert (length (state_rows state) = size state) as -> by (unfold state_rows; by rewrite length_fmap, length_map_entries).
  replace (N.of_nat (size state)) with (Z.to_N (Z.of_nat (size state))) by lia.
  destruct (to_allocvec (Z.to_N _)) as [count|]; [|done]. cbn in *. injection Hheader as <-.
  rewrite <-(app_nil_r (bytes ++ count)) in Hrows.
  apply encode_rows_Ok in Hrows as (items & -> & ->). cbn. by rewrite app_assoc.
Qed.

Lemma restore_rows_Ok state : fold_result insert_state_row ∅ (state_rows state) = Ok state.
Proof.
  assert (∀ l (m : gmap StateKey (list byte)), NoDup l.*1 → (∀ k, k ∈ l.*1 → m !! k = None) →
    fold_result insert_state_row m ((λ e, MkEntry (key_namespace e.1) (state_key_bytes e.1) e.2) <$> l)
      = Ok (list_to_map l ∪ m)) as Hfold.
  { induction l as [|[[n k] v] l IH]; intros m Hnd Hm; cbn; [by rewrite (left_id_L ∅ (∪))|].
    cbn in Hnd. apply NoDup_cons in Hnd as [Hnotin Hnd].
    assert (insert_state_row m (MkEntry n k v) = Ok (<[MkStateKey n k := v]> m)) as ->.
    { unfold insert_state_row. cbn [entry_namespace entry_key entry_value]. rewrite Hm; [done|by left]. }
    cbn [mbind result_bind]. rewrite IH; [|done|].
    - f_equal. rewrite <-insert_union_r, insert_union_l; [done|]. by apply not_elem_of_list_to_map_1.
    - intros k' Hk'. rewrite lookup_insert_ne by (intros <-; done). apply Hm. by right. }
  unfold state_rows. rewrite Hfold; [|apply map_entries_NoDup|intros; apply lookup_empty].
  by rewrite list_to_map_entries, (right_id_L ∅ (∪)).
Qed.

Lemma descriptor_hash_lifecycle d l : descriptor_hash (with_lifecycle d l) = descriptor_hash d.
Proof. done. Qed.

Lemma encoded_decodes d instance cursor state encoded_cursor encoded checksum l aliases :
  cursor_processor_id cursor = processor_id (descriptor_id d) →
  cursor_processor_version cursor = descriptor_version d →
  encode_state_snapshot show d instance cursor state = Ok (encoded_cursor, encoded, checksum) →
  ∃ identity, decode_state_snapshot show (with_lifecycle d l) instance encoded checksum aliases =
    Ok (MkSnapshot (MkHeader 1 instance identity cursor) (state_rows state)).
Proof.
  intros Hid Hversion (-> & identity & Hhash & Hdec)%encode_state_snapshot_Ok. exists identity.
  assert (∀ {A} `{EqDecision A} (x : A), bool_decide (x ≠ x) = false) as Hsame.
  { intros A EA x. apply bool_decide_eq_false_2. intros Hne. by apply Hne. }
  unfold decode_state_snapshot. rewrite Hsame, Hdec. cbn. rewrite Hsame, descriptor_hash_lifecycle, Hhash. cbn.
  by rewrite Hsame, Hid, Hversion, !Hsame.
Qed.

(** ** Retention *)

Record checkpoints_ok (s : Checkpoints) : Prop := MkCheckpointsOk {
  checkpoint_ids : ∀ row, row ∈ checkpoint_rows s → checkpoint_id row ≤ last_checkpoint_id s;
  checkpoint_blocks : ∀ row, row ∈ checkpoint_rows s → 0 ≤ checkpoint_block row ≤ i64_max;
  checkpoint_spaced : ∀ x y, x ∈ checkpoint_rows s → y ∈ checkpoint_rows s →
    checkpoint_id x ≠ checkpoint_id y →
    AUTOMATIC_CHECKPOINT_INTERVAL_BLOCKS ≤ Z.abs (checkpoint_block x - checkpoint_block y);
  checkpoint_ids_unique : NoDup (checkpoint_id <$> checkpoint_rows s);
}.

Lemma latest_checkpoint_spec s :
  match latest_checkpoint s with
  | Some latest => (∃ row, row ∈ checkpoint_rows s ∧ checkpoint_block row = latest) ∧
      ∀ row, row ∈ checkpoint_rows s → checkpoint_block row ≤ latest
  | None => checkpoint_rows s = []
  end.
Proof.
  unfold latest_checkpoint. destruct (checkpoint_rows s) as [|row rows]; cbn; [done|].
  assert (∀ l z, z ≤ foldl Z.max z l ∧ (∀ x, x ∈ l → x ≤ foldl Z.max z l) ∧
    (foldl Z.max z l = z ∨ foldl Z.max z l ∈ l)) as Hmax.
  { induction l as [|x l IH]; intros z; cbn; [split_and!; [lia|by intros ? ?%elem_of_nil|by left]|].
    destruct (IH (Z.max z x)) as (E1 & E2 & E3). split_and!; [lia|..].
    - intros y [->|Hy]%elem_of_cons; [lia|by apply E2].
    - destruct E3 as [->|E3]; [|by right; right]. destruct (Z.max_spec z x) as [[_ ->]|[_ ->]]; [right; left|by left]. }
  destruct (Hmax (checkpoint_block <$> rows) (checkpoint_block row)) as (E1 & E2 & E3). split.
  - destruct E3 as [->|(r & -> & Hr)%list_elem_of_fmap]; [exists row; split; [by left|done]|].
    exists r. split; [by right|done].
  - intros r [->|Hr]%elem_of_cons; [done|]. apply E2. by apply list_elem_of_fmap_2.
Qed.

#[export] Instance newest_comparator : Comparator newest_cmp.
Proof.
  apply then_comparator.
  - apply (flip_comparator (λ x y, checkpoint_block x ?= checkpoint_block y)), (on_comparator checkpoint_block Z.compare), _.
  - apply (flip_comparator (λ x y, checkpoint_id x ?= checkpoint_id y)), (on_comparator checkpoint_id Z.compare), _.
Qed.

Lemma prune_checkpoints_length keep rows :
  NoDup (checkpoint_id <$> rows) → (length (prune_checkpoints keep rows) ≤ Z.to_nat keep)%nat.
Proof.
  intros Hnd. unfold prune_checkpoints. set (kept := checkpoint_id <$> take _ _).
  assert (length kept ≤ Z.to_nat keep)%nat as <- by (unfold kept; rewrite length_fmap, length_take; lia).
  rewrite <-(length_fmap checkpoint_id (List.filter _ rows)). apply submseteq_length, NoDup_submseteq.
  - by apply NoDup_fmap_filter.
  - intros id (r & -> & [_ Hr%bool_decide_eq_true]%elem_of_filter_list)%list_elem_of_fmap. done.
Qed.

(** A row newer than all others is kept. *)
Lemma prune_keeps_newest keep rows row :
  1 ≤ keep → (∀ r, r ∈ rows → checkpoint_block r < checkpoint_block row) →
  row ∈ prune_checkpoints keep (rows ++ [row]).
Proof.
  intros Hkeep Hlt. unfold prune_checkpoints. apply elem_of_filter_list. split; [apply elem_of_app; right; by left|].
  apply bool_decide_eq_true.
  pose proof (sort_by_perm (cmp_leb newest_cmp) (rows ++ [row])) as Hperm.
  pose proof (sort_by_head (cmp_leb newest_cmp) (cmp_leb_total newest_cmp) (cmp_leb_trans newest_cmp) (rows ++ [row])) as Hhead.
  destruct (sort_by (cmp_leb newest_cmp) (rows ++ [row])) as [|h t] eqn:Hs.
  { apply Permutation_nil in Hperm. by destruct rows. }
  destruct (Hhead h eq_refl) as (before & after & Heq & _ & Hall).
  assert (h = row) as ->.
  { assert (row ∈ rows ++ [row]) as Hin by (apply elem_of_app; right; by left).
    apply Hall in Hin. unfold cmp_leb, newest_cmp in Hin.
    assert (h ∈ rows ++ [row]) as [Hh|Hh]%elem_of_app by (rewrite <-Hperm; by left); [|by apply list_elem_of_singleton in Hh].
    apply Hlt in Hh. rewrite (proj2 (Z.compare_gt_iff (checkpoint_block row) (checkpoint_block h))) in Hin by lia.
    done. }
  replace (Z.to_nat keep) with (S (Z.to_nat (keep - 1))) by lia. cbn. by left.
Qed.

Lemma elem_of_prune keep rows row : row ∈ prune_checkpoints keep rows → row ∈ rows.
Proof. unfold prune_checkpoints. by intros [? _]%elem_of_filter_list. Qed.

Lemma prune_ok keep rows last :
  checkpoints_ok (MkCheckpoints rows last) → checkpoints_ok (MkCheckpoints (prune_checkpoints keep rows) last).
Proof.
  intros [Hids Hblocks Hspaced Hnd]. split; cbn in *.
  - intros row Hrow%elem_of_prune. by apply Hids.
  - intros row Hrow%elem_of_prune. by apply Hblocks.
  - intros x y Hx%elem_of_prune Hy%elem_of_prune. by apply Hspaced.
  - by apply NoDup_fmap_filter.
Qed.

(** What an automatic checkpoint does when it is due. *)
Definition due_at (s : Checkpoints) (block : Z) : Prop :=
  ∀ row, row ∈ checkpoint_rows s → checkpoint_block row + AUTOMATIC_CHECKPOINT_INTERVAL_BLOCKS ≤ block.

Lemma create_checkpoint_cases now d instance cursor keep state s s' :
  checkpoints_ok s → cursor_block_number cursor ≤ u64_max →
  create_recovery_checkpoint show now d instance cursor keep state s = Ok s' →
  (s' = s ∧ ∃ row, row ∈ checkpoint_rows s ∧
     cursor_block_number cursor < checkpoint_block row + AUTOMATIC_CHECKPOINT_INTERVAL_BLOCKS) ∨
  (due_at s (cursor_block_number cursor) ∧
   insert_recovery_checkpoint show now d instance cursor keep state s = Ok s').
Proof.
  intros Hok Hmax. unfold create_recovery_checkpoint. pose proof (latest_checkpoint_spec s) as Hlatest.
  destruct (latest_checkpoint s) as [latest|].
  - destruct Hlatest as [(row & Hrow & <-) Hle]. pose proof (checkpoint_blocks _ Hok row Hrow) as Hrange.
    unfold i64_u64. rewrite (proj2 (Z.leb_le 0 _)) by lia. cbn [mbind result_bind]. unfold sat_add.
    assert (AUTOMATIC_CHECKPOINT_INTERVAL_BLOCKS = 1000) as Heq by done.
    destruct (Z.ltb_spec (cursor_block_number cursor)
      (u64_max `min` (checkpoint_block row + AUTOMATIC_CHECKPOINT_INTERVAL_BLOCKS))) as [Hlt|Hge].
    + intros [= <-]. left. split; [done|]. exists row. split; [done|lia].
    + intros Hins. right. split; [|done]. intros r Hr%Hle. uints.
  - intros Hins. right. split; [|done]. intros r. by rewrite Hlatest, elem_of_nil.
Qed.

Lemma insert_due_checkpoint now d instance cursor keep state s s' :
  checkpoints_ok s → due_at s (cursor_block_number cursor) → 0 ≤ cursor_block_number cursor →
  insert_recovery_checkpoint show now d instance cursor keep state s = Ok s' →
  ∃ row, checkpoint_id row = last_checkpoint_id s + 1 ∧ checkpoint_block row = cursor_block_number cursor ∧
    last_checkpoint_id s' = checkpoint_id row ∧
    checkpoint_rows s' = prune_checkpoints keep (checkpoint_rows s ++ [row]) ∧
    checkpoints_ok (MkCheckpoints (checkpoint_rows s ++ [row]) (checkpoint_id row)) ∧
    ∃ encoded_cursor, encode_state_snapshot show d instance cursor state =
      Ok (encoded_cursor, state_snapshot row, state_checksum row).
Proof.
  intros [Hids Hblocks Hspaced Hnd] Hdue Hpos. unfold insert_recovery_checkpoint.
  intros ([[encoded_cursor encoded] checksum] & Henc & (block & Hblock & (created & _ & Hrest)%result_bind_Ok)%result_bind_Ok)%result_bind_Ok.
  unfold u64_i64 in Hblock. destruct (Z.leb_spec (cursor_block_number cursor) i64_max) in Hblock; [|done].
  injection Hblock as <-.
  assert (AUTOMATIC_CHECKPOINT_INTERVAL_BLOCKS = 1000) as Hinterval by done.
  assert (existsb (λ row, (checkpoint_block row =? cursor_block_number cursor)
    && bool_decide (checkpoint_hash row = cursor_block_hash cursor)) (checkpoint_rows s) = false) as Hno.
  { apply not_true_iff_false. intros (r & Hr & Heq)%existsb_spec. specialize (Hdue r Hr).
    apply andb_true_iff in Heq as [Heq%Z.eqb_eq _]. lia. }
  rewrite Hno in Hrest. injection Hrest as <-. eexists (MkCheckpoint _ _ _ _ _ _ _). cbn. split_and!; [done..| |by eexists].
  split; cbn.
  - intros r [Hr%Hids|Hr]%elem_of_app; [cbn in *; lia|]. by apply list_elem_of_singleton in Hr as ->.
  - intros r [Hr%Hblocks|Hr]%elem_of_app; [done|]. by apply list_elem_of_singleton in Hr as ->.
  - intros x y [Hx|Hx]%elem_of_app [Hy|Hy]%elem_of_app; rewrite ?list_elem_of_singleton in *; subst; cbn.
    + by apply Hspaced.
    + specialize (Hdue x Hx). lia.
    + specialize (Hdue y Hy). lia.
    + done.
  - rewrite fmap_app. apply NoDup_app. split_and!; [done| |apply NoDup_singleton].
    intros id (r & -> & Hr%Hids)%list_elem_of_fmap Hin. apply list_elem_of_singleton in Hin. cbn in Hin. lia.
Qed.

(** Automatic checkpoints repair. A checkpoint is either not due, the
    newest being less than the interval below the cursor, and nothing changes;
    or it is taken, at most [keep] of the newest remain, still the interval
    apart, and putting it back later gives exactly the working state it was
    taken from: whatever the state has become, with the lifecycle policies
    edited in between, and with the cursor's block raised to a higher level. *)
Theorem checkpoint_restores now d instance cursor keep state s s'
    (Hok : checkpoints_ok s) (Hkeep : 1 ≤ keep)
    (Hblock : is_u64 (cursor_block_number cursor))
    (Hid : cursor_processor_id cursor = processor_id (descriptor_id d))
    (Hversion : cursor_processor_version cursor = descriptor_version d)
    (Hlast : last_checkpoint_id s < i64_max)
    (Hcreate : create_recovery_checkpoint show now d instance cursor keep state s = Ok s') :
  checkpoints_ok s' ∧
  ((s' = s ∧ ∃ row, row ∈ checkpoint_rows s ∧
      cursor_block_number cursor < checkpoint_block row + AUTOMATIC_CHECKPOINT_INTERVAL_BLOCKS) ∨
   ((length (checkpoint_rows s') ≤ Z.to_nat keep)%nat ∧
    ∀ lifecycle aliases level, Finality.satisfies level (cursor_finality cursor) = true →
      restore_recovery_checkpoint show (with_lifecycle d lifecycle) instance (last_checkpoint_id s') aliases
        (Some (with_finality cursor level)) s' = Ok (state, with_finality cursor level))).
Proof.
  apply create_checkpoint_cases in Hcreate as [[-> Hrow]|[Hdue Hins]]; [by split; [|left]| |done|uints].
  apply insert_due_checkpoint in Hins as (row & Hrid & Hrblock & Hlast' & Hrows & Hok' & ecursor & Henc); [|done..|uints].
  assert (s' = MkCheckpoints (prune_checkpoints keep (checkpoint_rows s ++ [row])) (checkpoint_id row)) as ->
    by (destruct s'; cbn in *; congruence).
  split; [by apply prune_ok|]. right. split; [apply prune_checkpoints_length, Hok'|].
  intros l aliases level Hlevel. unfold restore_recovery_checkpoint. cbn [last_checkpoint_id checkpoint_rows].
  unfold u64_i64. rewrite (proj2 (Z.leb_le _ _)) by lia. cbn [mbind result_bind].
  assert (row ∈ prune_checkpoints keep (checkpoint_rows s ++ [row])) as Hin.
  { apply prune_keeps_newest; [done|]. intros r Hr. specialize (Hdue r Hr). 
    assert (AUTOMATIC_CHECKPOINT_INTERVAL_BLOCKS = 1000) by done. lia. }
  destruct (list_find (λ r, checkpoint_id r = checkpoint_id row) _) as [[i r]|] eqn:Hfind; cbn.
  2: { apply list_find_None in Hfind. rewrite Forall_forall in Hfind. by destruct (Hfind row Hin). }
  apply list_find_Some in Hfind as (Hr%list_elem_of_lookup_2%elem_of_prune & Heq & _).
  assert (r = row) as ->.
  { apply elem_of_app in Hr as [Hr|Hr]; [|by apply list_elem_of_singleton in Hr].
    apply (checkpoint_ids _ Hok) in Hr. lia. }
  destruct (encoded_decodes _ _ _ _ _ _ _ l aliases Hid Hversion Henc) as [identity ->]. cbn.
  rewrite Hlevel, bool_decide_eq_true_2, restore_rows_Ok by by destruct cursor. done.
Qed.
End wire.

(** ** A state of one row *)

Module Sample.
Definition cursor : ProcessorCursor := MkProcessorCursor "erc20" "1.0.0" 1 9 hash_zero Unattested 9.
Definition entry : StateSnapshotEntry := MkEntry "n" [x01] [x02].
Definition state : gmap StateKey (list byte) := {[ MkStateKey "n" [x01] := [x02] ]}.
Definition header : StateSnapshotHeader := MkHeader 1 "i" hash_zero cursor.
Definition snapshot : StateSnapshot := MkSnapshot header [entry].

#[export] Instance header_eq_dec : EqDecision StateSnapshotHeader.
Proof. solve_decision. Defined.
#[export] Instance entry_eq_dec : EqDecision StateSnapshotEntry.
Proof. solve_decision. Defined.

(** Serializers of one value each. *)
Definition only {A} `{EqDecision A} (a : A) (bytes : list byte) (x : A) : result string (list byte) :=
  if decide (x = a) then Ok bytes else Err "unknown".

#[export] Instance json : DescriptorJson := λ _, Ok [].
#[export] Instance hash : Blake3 := Durable.zero_blake3.
#[export] Instance cursor_wire : Postcard string ProcessorCursor :=
  {| to_allocvec := λ _, Ok []; from_bytes := λ _, Err "unused" |}.
#[export] Instance header_wire : Postcard string StateSnapshotHeader :=
  {| to_allocvec := only header [x01]; from_bytes := λ _, Err "unused" |}.
#[export] Instance count_wire : Postcard string N :=
  {| to_allocvec := only 1%N [x02]; from_bytes := λ _, Err "unused" |}.
#[export] Instance entry_wire : Postcard string StateSnapshotEntry :=
  {| to_allocvec := only entry [x03]; from_bytes := λ _, Err "unused" |}.
#[export] Instance entries_wire : Postcard string (list StateSnapshotEntry) := {|
  to_allocvec := λ l, count ← to_allocvec (N.of_nat (length l));
    items ← fold_result (λ acc e, to_extend e acc) [] l; Ok (count ++ items);
  from_bytes := λ _, Err "unused" |}.
#[export] Instance snapshot_wire : Postcard string StateSnapshot := {|
  to_allocvec := λ s, header ← to_allocvec (snapshot_header s);
    entries ← to_allocvec (snapshot_entries s); Ok (header ++ entries);
  from_bytes := λ _, Ok snapshot |}.

Lemma only_Ok {A} `{EqDecision A} (a : A) bytes x payload : only a bytes x = Ok payload → x = a.
Proof. unfold only. by destruct (decide _). Qed.

#[export] Instance wire : SnapshotWire (PE:=string).
Proof. by split. Qed.

#[export] Instance laws : PostcardLaws string StateSnapshot.
Proof.
  split. intros [h l] payload. cbn. intros (b & Hh%only_Ok & (entries & He & _)%result_bind_Ok)%result_bind_Ok.
  subst h. apply result_bind_Ok in He as (c & Hc%only_Ok & (items & Hitems & _)%result_bind_Ok).
  destruct l as [|e [|? ?]]; [done| |cbn in Hc; lia]. cbn in Hitems. unfold to_extend in Hitems.
  apply result_bind_Ok in Hitems as (x & (y & Hy%only_Ok & _)%result_bind_Ok & _). by subst e.
Qed.
End Sample.
Import Sample.

Lemma no_checkpoints_ok : checkpoints_ok (MkCheckpoints [] 0).
Proof.
  split; cbn; [intros row Hrow; by apply elem_of_nil in Hrow..| |constructor].
  intros x y Hx. by apply elem_of_nil in Hx.
Qed.

Lemma checkpoint_restores_witness :
  let s := MkCheckpoints [] 0 in
  ∃ s', create_recovery_checkpoint (λ _, EmptyString) (Ok 5) sample_descriptor "i" Sample.cursor 3 Sample.state s = Ok s' ∧
    restore_recovery_checkpoint (λ _, EmptyString) sample_descriptor "i" (last_checkpoint_id s') []
      (Some (with_finality Sample.cursor Finalized)) s' = Ok (Sample.state, with_finality Sample.cursor Finalized).
Proof.
  cbn zeta.
  destruct (create_recovery_checkpoint (λ _, EmptyString) (Ok 5) sample_descriptor "i" Sample.cursor 3 Sample.state
    (MkCheckpoints [] 0)) as [s'|] eqn:Hcreate; [|by vm_compute in Hcreate].
  exists s'. split; [done|].
  destruct (checkpoint_restores (λ _, EmptyString) (Ok 5) sample_descriptor "i" Sample.cursor 3 Sample.state
    (MkCheckpoints [] 0) s') as [_ [[_ (row & Hrow & _)]|[_ Hrestore]]].
  - exact no_checkpoints_ok.
  - lia.
  - vm_compute. split; discriminate.
  - reflexivity.
  - reflexivity.
  - vm_compute. reflexivity.
  - exact Hcreate.
  - destruct (not_elem_of_nil _ Hrow).
  - exact (Hrestore lifecycle_default [] Finalized eq_refl).
Defined.
