(* ===== verification/Capacity.v ===== *)
(** * Delivery admission

    Models the backpressure of [crates/store-sqlite/src/lib.rs]: before a
    block is applied, [enforce_delivery_capacity] weighs the bytes it would
    add against its stream's limit, its backfill subscription and the
    node-wide budgets, and pauses, resumes or fails the processor's lane;
    [refuses_live_delivery] predicts that decision without writing.

    The statements of this file run outside the apply's transaction: what
    they write stays written when the apply is refused. File sizes are
    parameters. *)
From Stdlib Require Import ZArith Lia Strings.Byte.
From stdpp Require Import gmap strings list list_numbers fin_maps.
From S2P Require Import Prelude Bytes Chain Capability Provenance Frame Durable Descriptor Delta Rows Delivery.

(** ** Tables *)

Inductive ProcessorRunState := Running | Paused | Failed.
Inductive ConsumerRole := ConsumerRequired | ConsumerBestEffort.
Inductive BackfillSubscriptionMode := FillMissing | Recompute.
Inductive BackfillSubscriptionState :=
  | WaitingForConsumer | SubQueued | SubRunning | Backpressured
  | Draining | CompleteReclaimable | SubCancelled | SubFailed.

#[export] Instance ProcessorRunState_eq_dec : EqDecision ProcessorRunState.
Proof. solve_decision. Defined.
#[export] Instance ConsumerRole_eq_dec : EqDecision ConsumerRole.
Proof. solve_decision. Defined.
#[export] Instance BackfillSubscriptionState_eq_dec : EqDecision BackfillSubscriptionState.
Proof. solve_decision. Defined.

(** A [processor_runtime_state] row. *)
Record RunState := MkRunState {
  run_state : ProcessorRunState;
  run_reason : option string;
  run_updated_at : Z;
}.

(** A [durable_consumers] row, its keys aside. *)
Record Consumer := MkConsumer {
  consumer_role : ConsumerRole;
  consumer_state : ConsumerState;
  acknowledged_sequence : Z;
  delivered_sequence : Z;
  acknowledged_work_blocks : Z;
  lease_generation : Z;
  lease_ttl_ms : Z;
  lease_expires_at : Z;
  consumer_created_at : Z;
  consumer_updated_at : Z;
  consumer_credential : option (list byte);
}.

(** [UPDATE durable_consumers SET state = ?, updated_at_unix_ms = ?]. *)
Definition with_consumer_state (c : Consumer) (state : ConsumerState) (now : Z) : Consumer :=
  MkConsumer (consumer_role c) state (acknowledged_sequence c) (delivered_sequence c) (acknowledged_work_blocks c)
    (lease_generation c) (lease_ttl_ms c) (lease_expires_at c) (consumer_created_at c) now (consumer_credential c).

(** A [backfill_subscription_ranges] row. *)
Record SubscriptionRange := MkSubscriptionRange {
  sub_from_block : Z;
  sub_to_block : Z;
  sub_range_state : string;
  committed_blocks : Z;
}.

(** A [backfill_subscriptions] row with its ranges; the table is kept by
    [history_stream_id], which is unique. *)
Record Subscription := MkSubscription {
  subscription_id : string;
  subscription_mode : BackfillSubscriptionMode;
  subscription_revision : Z;
  subscription_state : BackfillSubscriptionState;
  effective_block_limit : Z;
  effective_byte_limit : Z;
  resume_below_ratio_millionths : Z;
  processed_work_blocks : Z;
  published_domain_changes : Z;
  subscription_updated_at : Z;
  subscription_ranges : list SubscriptionRange;
}.

Record Admission := MkAdmission {
  run_states : gmap string RunState;
  consumers : gmap (string * string) Consumer;
  subscriptions : gmap string Subscription;
}.

(** The configured limits, and the sizes of the database file and its WAL. *)
Record NodeLimits := MkNodeLimits {
  maximum_delivery_bytes : Z;
  maximum_history_bytes : Z;
  maximum_physical_bytes : Z;
}.

Definition default_delivery_stream_id (d : ProcessorDescriptor) : string :=
  instance_id (descriptor_instance d) +:+ ":" +:+
  match delivery_ordering d with Canonical => "canonical" | BlockVersionedIdempotent => "live" end.

(** ** Measures *)

(** [COALESCE(SUM(..), 0)] of an integer column. *)
Definition sql_sum (l : list Z) : result StoreError Z :=
  if i64_max <? Z_sum l then Err (Sqlx "integer overflow") else Ok (Z_sum l).

Definition checked_sum (a b : Z) (field : string) : result StoreError Z :=
  ok_or (checked_add a b) (Numeric field).

Definition stream_delivery_bytes (s : Delivery) (stream_id : string) : result StoreError Z :=
  stream ← ok_or (streams s !! stream_id) (Sqlx "no rows returned");
  current ← i64_u64 (live_bytes stream) "delivery stream bytes";
  deferred ← sql_sum (deferred_bytes <$>
    List.filter (λ row, bool_decide (deferred_stream row = stream_id)) (parked s));
  deferred ← i64_u64 deferred "deferred delivery bytes";
  checked_sum current deferred "retained delivery bytes".

Definition delivery_resume_mark (limit_bytes : Z) : Z := sat_mul limit_bytes 9 / 10.

Record NodeDeliveryBytes := MkNodeBytes {
  total_retained : Z;
  history_retained : Z;
  physical : Z;
}.

Definition node_delivery_bytes (database_bytes wal_bytes : result StoreError Z) (s : Delivery)
    : result StoreError NodeDeliveryBytes :=
  let rows := (map_to_list (streams s)).*2 in
  total ← sql_sum (live_bytes <$> rows);
  history ← sql_sum ((λ stream, if is_backfill stream then live_bytes stream else 0) <$> rows);
  total ← i64_u64 total "total retained delivery bytes";
  deferred ← sql_sum (deferred_bytes <$> parked s);
  deferred ← i64_u64 deferred "deferred delivery bytes";
  total ← checked_sum total deferred "total retained delivery bytes";
  history ← i64_u64 history "history retained delivery bytes";
  database ← database_bytes;
  wal ← wal_bytes;
  Ok (MkNodeBytes total history (sat_add database wal)).

Definition node_delivery_budget_failure (limits : NodeLimits) (retained : NodeDeliveryBytes)
    (incoming_bytes history_bytes : Z) : result StoreError (option (string * Z * Z)) :=
  projected_total ← checked_sum (total_retained retained) incoming_bytes
    "projected total retained delivery bytes";
  projected_history ← checked_sum (history_retained retained) history_bytes
    "projected history retained delivery bytes";
  projected_physical ← checked_sum (physical retained) incoming_bytes "projected physical store bytes";
  Ok (if maximum_history_bytes limits <? projected_history
      then Some ("node_history_retained"%string, maximum_history_bytes limits, projected_history)
      else if maximum_delivery_bytes limits <? projected_total
      then Some ("node_total_retained"%string, maximum_delivery_bytes limits, projected_total)
      else if maximum_physical_bytes limits <? projected_physical
      then Some ("node_physical"%string, maximum_physical_bytes limits, projected_physical)
      else None).

(** ** Admission *)

(** The columns the apply reads of its backfill subscription. *)
Record BackfillLimits := MkBackfillLimits {
  limit_state : BackfillSubscriptionState;
  limit_blocks : Z;
  limit_bytes : Z;
  limit_ratio : Z;
  limit_processed : Z;
  limit_acknowledged : Z;
}.

Definition required_active (stream_id : string) (e : (string * string) * Consumer) : bool :=
  bool_decide (e.1.1 = stream_id) && bool_decide (consumer_role e.2 = ConsumerRequired)
  && bool_decide (consumer_state e.2 = ConsumerActive).

(** [MIN(acknowledged_work_blocks)]. *)
Definition required_acknowledged (stream_id : string) (a : Admission) : option Z :=
  match acknowledged_work_blocks <$> (List.filter (required_active stream_id) (map_to_list (consumers a))).*2 with
  | [] => None
  | z :: zs => Some (foldl Z.min z zs)
  end.

Definition backfill_limits (stream_id : string) (a : Admission) : result StoreError (option BackfillLimits) :=
  match subscriptions a !! stream_id with
  | None => Ok None
  | Some sub =>
      blocks ← i64_u64 (effective_block_limit sub) "subscription block limit";
      bytes ← i64_u64 (effective_byte_limit sub) "subscription byte limit";
      ratio ← i64_u64 (resume_below_ratio_millionths sub) "subscription resume ratio";
      processed ← i64_u64 (processed_work_blocks sub) "subscription processed work blocks";
      acknowledged ← match required_acknowledged stream_id a with
                     | Some z => i64_u64 z "required acknowledged work blocks"
                     | None => Ok 0
                     end;
      Ok (Some (MkBackfillLimits (subscription_state sub) blocks bytes ratio processed acknowledged))
  end.

Definition set_processor_run_state (now : result StoreError Z) (instance : string)
    (state : ProcessorRunState) (reason : option string) : eff Admission StoreError () :=
  now ← lift now;
  modify (λ a, MkAdmission (alter (λ _, MkRunState state reason now) instance (run_states a))
    (consumers a) (subscriptions a)).

(** [ExpireAndReset]: the stream's required consumers must reset. *)
Definition expire_consumers (now : result StoreError Z) (stream_id : string) : eff Admission StoreError () :=
  now ← lift now;
  modify (λ a, MkAdmission (run_states a)
    (map_imap (λ k c, Some (if required_active stream_id (k, c)
       then with_consumer_state c ConsumerResetRequired now
       else c)) (consumers a)) (subscriptions a)).

Section enforce.
Context (limits : NodeLimits) (database_bytes wal_bytes : result StoreError Z) (now : result StoreError Z).
Context (descriptor : ProcessorDescriptor) (instance : string) (s : Delivery).

Definition blocks_within_limit (incoming_work_blocks : Z) (l : BackfillLimits) : bool :=
  sat_add (sat_sub (limit_processed l) (limit_acknowledged l)) incoming_work_blocks <=? limit_blocks l.

Definition below_resume_water (current : Z) (l : BackfillLimits) : bool :=
  if bool_decide (limit_state l ≠ Backpressured) then true
  else
    let byte_low_water := sat_mul (limit_bytes l) (limit_ratio l) / 1000000 in
    let block_low_water := sat_mul (limit_blocks l) (limit_ratio l) / 1000000 in
    (current <=? byte_low_water) && (sat_sub (limit_processed l) (limit_acknowledged l) <=? block_low_water).

Definition enforce_delivery_capacity (stream_id : string) (incoming_bytes incoming_work_blocks : Z)
    : eff Admission StoreError () :=
  stream ← lift (ok_or (streams s !! stream_id) (Sqlx "no rows returned"));
  let processor_scoped := negb (is_backfill stream) in
  a ← gets id;
  backfill ← lift (if is_backfill stream then backfill_limits stream_id a else Ok None);
  state ← lift (if processor_scoped
    then run_state <$> ok_or (run_states a !! instance) (Sqlx "no rows returned") else Ok Running);
  if bool_decide (state = Failed) then lift (Err (ProcessorFailed instance))
  else
    current ← lift (stream_delivery_bytes s stream_id);
    let max_bytes := delivery_max_bytes (lifecycle_delivery (lifecycle descriptor)) in
    let limit := match backfill with Some l => Z.min (limit_bytes l) max_bytes | None => max_bytes end in
    let indivisible_block_limit := limit_blocks <$> backfill in
    if (limit <? incoming_bytes)
       || is_some_and indivisible_block_limit (λ block_limit, block_limit <? incoming_work_blocks)
    then
      _ ← (if processor_scoped
           then set_processor_run_state now instance Failed (Some "single_block_exceeds_delivery_limit"%string)
           else lift (Ok ()));
      lift (Err (DeliveryItemTooLarge instance incoming_bytes limit incoming_work_blocks indivisible_block_limit))
    else
      let low_water := delivery_resume_mark limit in
      _ ← (if bool_decide (state = Paused)
           then if low_water <? current
                then lift (Err (ProcessorPaused instance current low_water))
                else set_processor_run_state now instance Running None
           else lift (Ok ()));
      projected ← lift (checked_sum current incoming_bytes "projected delivery bytes");
      retained ← lift (node_delivery_bytes database_bytes wal_bytes s);
      budget_failure ← lift (node_delivery_budget_failure limits retained incoming_bytes
        (if is_backfill stream then incoming_bytes else 0));
      if (projected <=? limit) && is_none_or backfill (blocks_within_limit incoming_work_blocks)
         && is_none_or backfill (below_resume_water current) && bool_decide (budget_failure = None)
      then lift (Ok ())
      else
        let action := on_limit (lifecycle_delivery (lifecycle descriptor)) in
        _ ← (if bool_decide (action = ExpireAndReset) then expire_consumers now stream_id else lift (Ok ()));
        _ ← (if processor_scoped
             then set_processor_run_state now instance
                    (if bool_decide (action = LimitFail) then Failed else Paused)
                    (Some "delivery_spool_hard_limit"%string)
             else lift (Ok ()));
        let '(scope, effective_limit, effective_projected) :=
          default ("stream"%string, limit, projected) budget_failure in
        lift (Err (DeliveryLimit instance action scope effective_limit effective_projected incoming_bytes)).

Definition refuses_live_delivery (a : Admission) (incoming_bytes : Z) : result StoreError bool :=
  let limit := delivery_max_bytes (lifecycle_delivery (lifecycle descriptor)) in
  if bool_decide (delivery_mode (lifecycle_delivery (lifecycle descriptor)) = DeliveryNone) then Ok false
  else
    state ← run_state <$> ok_or (run_states a !! instance) (Sqlx "no rows returned");
    if bool_decide (state = Failed) || (limit <? incoming_bytes) then Ok true
    else
      current ← stream_delivery_bytes s (default_delivery_stream_id descriptor);
      if bool_decide (state = Paused) && (delivery_resume_mark limit <? current) then Ok true
      else
        projected ← checked_sum current incoming_bytes "projected delivery bytes";
        if limit <? projected then Ok true
        else
          retained ← node_delivery_bytes database_bytes wal_bytes s;
          failure ← node_delivery_budget_failure limits retained incoming_bytes 0;
          Ok (negb (bool_decide (failure = None))).
End enforce.

(** ** Physical admission *)

(** What a mutation leaves in the rows, for the physical estimate. *)
Definition mutation_bytes (retain_output : bool) (m : Mutation) : Z :=
  let value_length (v : option (list byte)) := match v with Some v => Z.of_nat (length v) | None => 0 end in
  match m with
  | MutEntity collection key _ after =>
      if retain_output
      then sat_add (sat_add (Z.of_nat (String.length collection)) (Z.of_nat (length key))) (value_length after)
      else 0
  | MutIndex index index_key entity_key _ after =>
      if retain_output && after
      then sat_add (sat_add (Z.of_nat (String.length index)) (Z.of_nat (length index_key)))
             (Z.of_nat (length entity_key))
      else 0
  | MutState namespace key _ after =>
      sat_add (sat_add (Z.of_nat (String.length namespace)) (Z.of_nat (length key))) (value_length after)
  end.

Definition estimated_retained_mutation_bytes (mutations : list Mutation) (retain_output : bool)
    : result StoreError Z :=
  fold_result (λ total m, checked_sum total (mutation_bytes retain_output m)
    "retained mutation physical admission bytes") 0 mutations.

(** The sizes of the database file, its WAL and the artifact segments. *)
Record FileSizes := MkFileSizes { database_size : Z; wal_size : Z; segment_size : Z }.

Definition current_size (sizes : FileSizes) : Z :=
  sat_add (sat_add (database_size sizes) (wal_size sizes)) (segment_size sizes).

(** [measured] before, [reconciled] after the WAL checkpoint and the
    incremental vacuum. *)
Definition enforce_physical_store_capacity_with_limit (measured reconciled : result StoreError FileSizes)
    (incoming_bytes limit : Z) : result StoreError () :=
  if limit =? u64_max then Ok ()
  else
    sizes ← measured;
    projected ← checked_sum (current_size sizes) incoming_bytes "projected physical store bytes";
    if projected <=? limit then Ok ()
    else
      sizes ← reconciled;
      projected ← checked_sum (current_size sizes) incoming_bytes "projected physical store bytes";
      if projected <=? limit then Ok () else Err (PhysicalStorageLimit limit projected).

(** [reserve] is what the largest artifact segment may take. *)
Definition enforce_physical_store_capacity (maximum_physical reserve : Z)
    (measured reconciled : result StoreError FileSizes) (incoming_bytes : Z) : result StoreError () :=
  if maximum_physical =? u64_max then Ok ()
  else enforce_physical_store_capacity_with_limit measured reconciled incoming_bytes
         (sat_sub maximum_physical reserve).

(** ** The prediction *)

Section facts.
Context (limits : NodeLimits) (database_bytes wal_bytes : result StoreError Z) (now : result StoreError Z).
Context (descriptor : ProcessorDescriptor) (instance : string) (s : Delivery).

#[local] Abbreviation enforce :=
  (enforce_delivery_capacity limits database_bytes wal_bytes now descriptor instance s).
#[local] Abbreviation refuses :=
  (refuses_live_delivery limits database_bytes wal_bytes descriptor instance s).
#[local] Abbreviation max_bytes := (delivery_max_bytes (lifecycle_delivery (lifecycle descriptor))).

#[local] Arguments node_delivery_bytes : simpl never.
#[local] Arguments stream_delivery_bytes : simpl never.
#[local] Arguments node_delivery_budget_failure : simpl never.
#[local] Arguments delivery_resume_mark : simpl never.
#[local] Arguments checked_sum : simpl never.

(** What an admitted apply leaves of the lane: a paused one runs again. *)
Definition resumed (time : Z) (a : Admission) : Admission :=
  match run_states a !! instance with
  | Some (MkRunState Paused _ _) =>
      MkAdmission (alter (λ _, MkRunState Running None time) instance (run_states a)) (consumers a) (subscriptions a)
  | _ => a
  end.

(** The prediction is the decision. For a live or canonical stream,
    [refuses_live_delivery] answers exactly what the admission of the next
    apply decides on the same bytes: it says yes when that apply is refused,
    no when it is admitted, and fails when it fails. An admitted apply
    changes nothing but resuming a paused lane. *)
Theorem refuses_live_delivery_exact a incoming stream time
    (Hmode : delivery_mode (lifecycle_delivery (lifecycle descriptor)) ≠ DeliveryNone)
    (Hstream : streams s !! default_delivery_stream_id descriptor = Some stream)
    (Hlive : stream_kind stream ≠ StreamBackfill)
    (Hnow : now = Ok time) :
  let decision := enforce (default_delivery_stream_id descriptor) incoming 0 a in
  match refuses a incoming with
  | Ok true => ∃ e, decision.2 = Err e
  | Ok false => decision = (resumed time a, Ok ())
  | Err e => decision.2 = Err e
  end.
Proof.
  cbn zeta. unfold enforce_delivery_capacity, refuses_live_delivery, lift, gets, set_processor_run_state, resumed.
  assert (is_backfill stream = false) as Hkind by (by apply bool_decide_eq_false_2).
  rewrite (bool_decide_eq_false_2 _ Hmode), Hstream, Hnow. unfold mbind, eff_bind, result_bind. cbn [ok_or].
  rewrite Hkind. cbn.
  destruct (run_states a !! instance) as [[state reason updated]|]; cbn; [|done].
  destruct (bool_decide_reflect (state = Failed)) as [->|Hnf]; cbn; [by eexists|].
  destruct (stream_delivery_bytes s _) as [current|e] eqn:Hcurrent; cbn.
  2: { destruct (max_bytes <? incoming); cbn; [by eexists|done]. }
  rewrite orb_false_r. destruct (max_bytes <? incoming) eqn:Hitem; cbn; [by eexists|].
  assert (state = Paused ∨ state = Running) as [-> | ->] by (destruct state; naive_solver); cbn.
  1: change (bool_decide (Paused = Paused)) with true.
  2: change (bool_decide (Running = Paused)) with false.
  1: destruct (delivery_resume_mark max_bytes <? current) eqn:Hmark; cbn; [by eexists|].
  all: cbn; destruct (checked_sum current incoming _) as [projected|] eqn:Hp; cbn; [|done].
  all: destruct (node_delivery_bytes database_bytes wal_bytes s) as [retained|] eqn:Hr;
    [cbn|cbn; destruct (max_bytes <? projected); [by eexists|done]].
  all: destruct (node_delivery_budget_failure limits retained incoming 0) as [failure|] eqn:Hf;
    [cbn|cbn; destruct (max_bytes <? projected); [by eexists|done]].
  all: rewrite Z.ltb_antisym; destruct (projected <=? max_bytes); cbn.
  all: try (destruct (bool_decide_reflect (failure = None)) as [->|Hne]; cbn; [done|]).
  all: unfold expire_consumers, mbind, eff_bind, lift, modify.
  all: destruct (bool_decide (_ = ExpireAndReset)); cbn; destruct (default _ failure) as [[? ?] ?]; by eexists.
Qed.

(** ** What admission guarantees *)

Lemma checked_sum_Ok a b field c : checked_sum a b field = Ok c ↔ c = a + b ∧ a + b ≤ u64_max.
Proof.
  unfold checked_sum, ok_or. destruct (checked_add a b) eqn:H.
  - apply checked_add_Some in H as [-> H]. naive_solver.
  - apply checked_add_None in H. naive_solver lia.
Qed.

Lemma enforce_admits stream_id incoming work a a' :
  enforce stream_id incoming work a = (a', Ok ()) →
  ∃ current retained history,
    stream_delivery_bytes s stream_id = Ok current ∧ current + incoming ≤ max_bytes ∧
    node_delivery_bytes database_bytes wal_bytes s = Ok retained ∧
    node_delivery_budget_failure limits retained incoming history = Ok None.
Proof.
  unfold enforce_delivery_capacity. intros (a1 & stream & [-> Hst]%lift_Ok & H)%eff_bind_Ok.
  apply eff_bind_Ok in H as (a2 & b & _ & H). apply eff_bind_Ok in H as (a3 & backfill & [-> Hb]%lift_Ok & H).
  apply eff_bind_Ok in H as (a4 & state & [-> Hs]%lift_Ok & H).
  destruct (bool_decide (state = Failed)); [done|].
  apply eff_bind_Ok in H as (a5 & current & [-> Hc]%lift_Ok & H).
  destruct (_ || _) eqn:Hitem.
  { by apply eff_bind_Ok in H as (? & ? & _ & [_ ?]%lift_Ok). }
  apply eff_bind_Ok in H as (a6 & u & _ & H). apply eff_bind_Ok in H as (a7 & projected & [-> Hp]%lift_Ok & H).
  apply eff_bind_Ok in H as (a8 & retained & [-> Hr]%lift_Ok & H).
  apply eff_bind_Ok in H as (a9 & failure & [-> Hf]%lift_Ok & H).
  destruct (_ && _) eqn:Hall.
  - rewrite !andb_true_iff in Hall. destruct Hall as [[[Hfit _] _] Hnone]. apply bool_decide_eq_true in Hnone as ->.
    apply checked_sum_Ok in Hp as [-> _]. apply Z.leb_le in Hfit.
    eexists current, retained, _. split_and!; [done| |done|exact Hf]. destruct backfill; lia.
  - apply eff_bind_Ok in H as (? & ? & _ & H). apply eff_bind_Ok in H as (? & ? & _ & H).
    by destruct (default _ _) as [[? ?] ?].
Qed.

Lemma stream_delivery_bytes_Ok stream_id total :
  stream_delivery_bytes s stream_id = Ok total ↔
  ∃ stream, streams s !! stream_id = Some stream ∧
    let deferred := Z_sum (deferred_bytes <$> List.filter (λ row, bool_decide (deferred_stream row = stream_id)) (parked s)) in
    0 ≤ live_bytes stream ∧ 0 ≤ deferred ≤ i64_max ∧ total = live_bytes stream + deferred ∧ total ≤ u64_max.
Proof.
  unfold stream_delivery_bytes, sql_sum, i64_u64. destruct (streams s !! stream_id) as [stream|]; cbn; [|naive_solver].
  destruct (Z.leb_spec 0 (live_bytes stream)); cbn; [|naive_solver lia].
  destruct (Z.ltb_spec i64_max (Z_sum (deferred_bytes <$> List.filter (λ row, bool_decide (deferred_stream row = stream_id)) (parked s)))); cbn;
    [naive_solver lia|].
  destruct (Z.leb_spec 0 (Z_sum (deferred_bytes <$> List.filter (λ row, bool_decide (deferred_stream row = stream_id)) (parked s)))); cbn;
    [|naive_solver lia].
  rewrite checked_sum_Ok. naive_solver.
Qed.
End facts.

Section admitted.
Context (limits : NodeLimits) (database_bytes wal_bytes : result StoreError Z) (now : result StoreError Z).
Context (descriptor : ProcessorDescriptor) (instance : string) (s : Delivery).
#[local] Abbreviation enforce :=
  (enforce_delivery_capacity limits database_bytes wal_bytes now descriptor instance s).
#[local] Abbreviation max_bytes := (delivery_max_bytes (lifecycle_delivery (lifecycle descriptor))).

(** Admission keeps the limit. Once a block of [incoming] bytes is
    admitted to a stream, the stream's bytes stay within the processor's limit
    whichever way the block's changes are stored: appended to the change log,
    or parked until the block is final. *)
Theorem admitted_within_limit stream_id incoming work a a'
    (Hmax : max_bytes ≤ i64_max) (Hincoming : 0 ≤ incoming)
    (Hadmit : enforce stream_id incoming work a = (a', Ok ())) :
  ∃ current, stream_delivery_bytes s stream_id = Ok current ∧ current + incoming ≤ max_bytes ∧
  (∀ origin chain_id block finality direction sinks time changes s' r,
     append_changes instance stream_id origin chain_id block finality direction sinks time s changes = Ok (s', r) →
     Z_sum (change_bytes <$> changes) = incoming →
     stream_delivery_bytes s' stream_id = Ok (current + incoming)) ∧
  (∀ row, deferred_stream row = stream_id → deferred_bytes row = incoming →
     stream_delivery_bytes (with_parked s (parked s ++ [row])) stream_id = Ok (current + incoming)).
Proof.
  apply enforce_admits in Hadmit as (current & retained & history & Hcurrent & Hfit & _).
  exists current. split; [done|]. split; [done|]. pose proof Hcurrent as Hbytes.
  apply stream_delivery_bytes_Ok in Hbytes as (stream & Hstream & Hlive & Hdef & -> & Hu64).
  assert (i64_max ≤ u64_max) by (vm_compute; discriminate). split.
  - intros origin chain_id block finality direction sinks time changes s' [first last] Happend <-.
    eapply append_changes_Ok in Happend as (-> & _ & _); [|exact Hstream].
    apply stream_delivery_bytes_Ok. cbn [streams parked live_bytes]. rewrite lookup_insert_eq.
    eexists. split; [done|]. cbn [live_bytes]. split_and!; lia.
  - intros row Hrow Hbytes. apply stream_delivery_bytes_Ok. cbn [streams parked with_parked].
    exists stream. split; [done|]. cbn zeta.
    rewrite filter_list_app. cbn [List.filter]. rewrite bool_decide_eq_true_2 by done.
    rewrite fmap_app, Z_sum_app. cbn. rewrite Hbytes. split_and!; lia.
Qed.

(** A paused lane resumes. A lane paused at its limit refuses every
    block, writing nothing, while its stream holds more than nine tenths of
    the limit; once the stream is at or below that mark and no node budget is
    exceeded, the next block of at most a tenth of the limit is admitted and
    the lane runs again. *)
Theorem paused_lane_resumes stream_id incoming a stream reason updated time current retained
    (Hstream : streams s !! stream_id = Some stream) (Hlive : stream_kind stream ≠ StreamBackfill)
    (Hstate : run_states a !! instance = Some (MkRunState Paused reason updated))
    (Hcurrent : stream_delivery_bytes s stream_id = Ok current) (Hpos : 0 ≤ current)
    (Hnow : now = Ok time) (Hmax : 0 ≤ max_bytes ∧ max_bytes * 9 ≤ u64_max)
    (Hnode : node_delivery_bytes database_bytes wal_bytes s = Ok retained)
    (Hincoming : 0 ≤ incoming ≤ max_bytes / 10)
    (Hbudget : node_delivery_budget_failure limits retained incoming 0 = Ok None) :
  (max_bytes * 9 < current * 10 →
     enforce stream_id incoming 0 a = (a, Err (ProcessorPaused instance current (max_bytes * 9 / 10)))) ∧
  (current * 10 ≤ max_bytes * 9 →
     ∃ a', enforce stream_id incoming 0 a = (a', Ok ()) ∧
       run_states a' !! instance = Some (MkRunState Running None time)).
Proof.
  assert (is_backfill stream = false) as Hkind by (by apply bool_decide_eq_false_2).
  assert (delivery_resume_mark max_bytes = max_bytes * 9 / 10) as Hmark.
  { unfold delivery_resume_mark, sat_mul. rewrite Z.min_r; [done|apply Hmax]. }
  pose proof (Z.div_mod max_bytes 10 ltac:(done)) as Hten. pose proof (Z.mod_pos_bound max_bytes 10 ltac:(done)).
  pose proof (Z.div_mod (max_bytes * 9) 10 ltac:(done)) as Hninety.
  pose proof (Z.mod_pos_bound (max_bytes * 9) 10 ltac:(done)).
  assert (∀ resumes, (delivery_resume_mark max_bytes <? current) = resumes →
    enforce stream_id incoming 0 a = if resumes
      then (a, Err (ProcessorPaused instance current (max_bytes * 9 / 10)))
      else (MkAdmission (alter (λ _, MkRunState Running None time) instance (run_states a)) (consumers a) (subscriptions a), Ok ()))
    as Henforce.
  { intros resumes Hres. unfold enforce_delivery_capacity, lift, gets, set_processor_run_state.
    rewrite Hstream, Hnow. unfold mbind, eff_bind, result_bind. cbn [ok_or]. rewrite Hkind. cbn.
    rewrite Hstate. cbn. change (bool_decide (Paused = Failed)) with false. change (bool_decide (Paused = Paused)) with true.
    cbn. rewrite Hcurrent. cbn. rewrite orb_false_r, (proj2 (Z.ltb_ge max_bytes incoming)) by lia. cbn.
    rewrite Hres. destruct resumes; cbn; [by rewrite Hmark|]. rewrite Hmark in Hres. apply Z.ltb_ge in Hres.
    assert (current + incoming ≤ u64_max) as Hsum by lia.
    rewrite (proj2 (checked_sum_Ok current incoming _ _) (conj eq_refl Hsum)). cbn.
    rewrite Hnode. cbn. rewrite Hbudget. cbn. by rewrite (proj2 (Z.leb_le (current + incoming) max_bytes)) by lia. }
  split; intros Hc.
  - rewrite (Henforce true); [done|]. rewrite Hmark. apply Z.ltb_lt. lia.
  - rewrite (Henforce false); [|rewrite Hmark; apply Z.ltb_ge; lia]. eexists. split; [done|]. cbn.
    rewrite lookup_alter_eq, Hstate. done.
Qed.
End admitted.

(** ** A paused lane *)

Definition sample_delivery (live : Z) : Delivery :=
  MkDelivery {[ "erc20:canonical"%string := MkStream "erc20" StreamCanonical 1 0 live ]} [] 0 [] [].
Definition sample_limits : NodeLimits := MkNodeLimits i64_max i64_max i64_max.
Definition sample_admission (state : ProcessorRunState) : Admission :=
  MkAdmission {[ "erc20"%string := MkRunState state None 0 ]} ∅ ∅.

Lemma refuses_live_delivery_exact_witness :
  let s := sample_delivery 7 in
  let a := sample_admission Paused in
  refuses_live_delivery sample_limits (Ok 1) (Ok 1) sample_descriptor "erc20" s a 5 = Ok false ∧
  enforce_delivery_capacity sample_limits (Ok 1) (Ok 1) (Ok 9) sample_descriptor "erc20" s
    "erc20:canonical" 5 0 a = (resumed "erc20" 9 a, Ok ()).
Proof.
  cbn zeta.
  pose proof (refuses_live_delivery_exact sample_limits (Ok 1) (Ok 1) (Ok 9) sample_descriptor "erc20"
    (sample_delivery 7) (sample_admission Paused) 5 (MkStream "erc20" StreamCanonical 1 0 7) 9
    ltac:(discriminate) eq_refl ltac:(discriminate) eq_refl) as H.
  assert (refuses_live_delivery sample_limits (Ok 1) (Ok 1) sample_descriptor "erc20" (sample_delivery 7)
    (sample_admission Paused) 5 = Ok false) as Hr by (vm_compute; reflexivity).
  rewrite Hr in H. split; [reflexivity|exact H].
Defined.

Lemma admitted_within_limit_witness :
  ∃ a', enforce_delivery_capacity sample_limits (Ok 1) (Ok 1) (Ok 9) sample_descriptor "erc20" (sample_delivery 7)
      "erc20:canonical" 5 0 (sample_admission Running) = (a', Ok ()) ∧
    ∃ current, stream_delivery_bytes (sample_delivery 7) "erc20:canonical" = Ok current ∧
      current + 5 ≤ Z.shiftl 1 30.
Proof.
  destruct (enforce_delivery_capacity sample_limits (Ok 1) (Ok 1) (Ok 9) sample_descriptor "erc20" (sample_delivery 7)
      "erc20:canonical" 5 0 (sample_admission Running)) as [a' r] eqn:He.
  assert (r = Ok ()) as Hr by (apply (f_equal snd) in He; vm_compute in He; by rewrite <-He).
  rewrite Hr in He |- *. exists a'. split; [done|].
  destruct (admitted_within_limit sample_limits (Ok 1) (Ok 1) (Ok 9) sample_descriptor "erc20" (sample_delivery 7)
    "erc20:canonical" 5 0 (sample_admission Running) a' ltac:(vm_compute; discriminate) ltac:(lia) He)
    as (current & Hc & Hle & _).
  exists current. split; [exact Hc|exact Hle].
Defined.

Lemma paused_lane_resumes_witness :
  ∃ a', enforce_delivery_capacity sample_limits (Ok 1) (Ok 1) (Ok 9) sample_descriptor "erc20" (sample_delivery 7)
      "erc20:canonical" 5 0 (sample_admission Paused) = (a', Ok ()) ∧
    run_states a' !! "erc20"%string = Some (MkRunState Running None 9).
Proof.
  refine (proj2 (paused_lane_resumes sample_limits (Ok 1) (Ok 1) (Ok 9) sample_descriptor "erc20" (sample_delivery 7)
    "erc20:canonical" 5 (sample_admission Paused) (MkStream "erc20" StreamCanonical 1 0 7) None 0 9 7
    (MkNodeBytes 7 0 2) eq_refl ltac:(discriminate) eq_refl eq_refl ltac:(lia) eq_refl _ eq_refl _ eq_refl) _).
  - vm_compute. split; discriminate.
  - vm_compute. split; discriminate.
  - vm_compute. discriminate.
Defined.
