(* ===== verification/Registration.v ===== *)
(** * Registration

    Models [register_processor] and [replace_descriptor] of
    [crates/store-sqlite/src/lib.rs]: an instance key names one processor for
    good, only lifecycle policies may change under it, requirements may
    narrow, and the two live publication levels may be switched. What a
    processor with narrowed requirements reads is [narrows_accepts]; that its
    snapshots stay usable is [registration_keeps_snapshots].

    serde_json is a parameter; a stored descriptor is read back through
    [ProcessorDescriptor.of_wire]. *)
From Stdlib Require Import ZArith Lia Strings.Byte.
From stdpp Require Import gmap strings list list_numbers fin_maps sorting.
From S2P Require Import Prelude Bytes Chain Capability Material Provenance Frame Durable Descriptor Delta Rows Delivery Checkpoints Capacity.

(** The tables registration writes; [delivery_streams] is part of
    [Delivery] and [processor_runtime_state] of [Admission]. *)
Record Registry := MkRegistry {
  processor_instances : gmap string (list byte);
  identity_aliases : gmap (string * BlockHash) Z;
  registry_delivery : Delivery;
  registry_admission : Admission;
}.

Definition with_delivery (r : Registry) (s : Delivery) : Registry :=
  MkRegistry (processor_instances r) (identity_aliases r) s (registry_admission r).
Definition with_admission (r : Registry) (a : Admission) : Registry :=
  MkRegistry (processor_instances r) (identity_aliases r) (registry_delivery r) a.

Definition processor_instance (d : ProcessorDescriptor) : string := instance_id (descriptor_instance d).

(** ** Identity *)

Definition with_requirements (d : ProcessorDescriptor) (p : PublicationPolicy) (l : LifecyclePolicies)
    (rs : list DataRequirement) : ProcessorDescriptor :=
  MkDescriptor (descriptor_id d) (descriptor_instance d) (descriptor_version d) (code_hash d)
    (config_hash d) (descriptor_start d) rs (descriptor_mode d) (delivery_ordering d) p l (schemas d).

Definition with_capabilities (r : DataRequirement) (caps : CapabilitySet) : DataRequirement :=
  MkRequirement caps (log_fields r) (allow_filtered r) (filter r) (minimum_finality r).
Definition with_minimum (r : DataRequirement) (f : Finality) : DataRequirement :=
  MkRequirement (capabilities r) (log_fields r) (allow_filtered r) (filter r) f.

(** [Ord::min] on levels. *)
Definition finality_min (a b : Finality) : Finality :=
  if Finality.satisfies b a then a else b.

Definition narrowed (stored configured : DataRequirement) : bool :=
  CapabilitySet.contains_all (CapabilitySet.with_derivable (capabilities stored)) (capabilities configured)
  && bool_decide (with_capabilities stored (capabilities configured) = configured).

(** [zip(..).all(..)] on lists of one length. *)
Fixpoint all_pairs {A} (f : A → A → bool) (l k : list A) : bool :=
  match l, k with a :: l, b :: k => f a b && all_pairs f l k | _, _ => true end.

Definition requirements_narrow (stored configured : list DataRequirement) : bool :=
  (length stored =? length configured)%nat && all_pairs narrowed stored configured.

(** The minimum levels, lowered. *)
Fixpoint lower_minimums (stored configured : list DataRequirement) : list DataRequirement :=
  match stored, configured with
  | r :: stored, c :: configured =>
      with_minimum r (finality_min (minimum_finality r) (minimum_finality c)) ::
        lower_minimums stored configured
  | _, _ => stored
  end.

Definition same_processor_identity (stored configured : ProcessorDescriptor) : bool :=
  let publication' :=
    if PublicationPolicy.publishes_unfinalized (publication stored)
       && PublicationPolicy.publishes_unfinalized (publication configured)
    then publication configured else publication stored in
  let lowered :=
    if (length (requirements stored) =? length (requirements configured))%nat
    then lower_minimums (requirements stored) (requirements configured) else requirements stored in
  let requirements' :=
    if requirements_narrow lowered (requirements configured) then requirements configured else lowered in
  bool_decide (with_requirements stored publication' (lifecycle configured) requirements' = configured).

Definition default_delivery_stream_kind (d : ProcessorDescriptor) : DeliveryStreamKind :=
  match delivery_ordering d with
  | Canonical => StreamCanonical
  | BlockVersionedIdempotent => StreamLive
  end.

(** ** Registering *)

(** [serde_json::from_str] up to [DescriptorWire]. *)
Class DescriptorParse := wire_parse : list byte → result string DescriptorWire.

Record StoredRegistration := MkStored {
  identical : bool;
  runtime_state : bool;
  default_stream : bool;
}.

Definition is_current (stored : StoredRegistration) (d : ProcessorDescriptor) : bool :=
  identical stored && runtime_state stored
  && (default_stream stored
      || bool_decide (delivery_mode (lifecycle_delivery (lifecycle d)) = DeliveryNone)).

Section register.
Context `{!Blake3} `{!DescriptorJson} `{!DescriptorParse} {HE : Type} `{!Hex HE}.
Context (now : result StoreError Z).

Definition descriptor_parse (json : list byte) : result string ProcessorDescriptor :=
  wire ← wire_parse json; ProcessorDescriptor.of_wire wire.

Definition check_stored_identity (stored_json : list byte) (configured : ProcessorDescriptor)
    : result StoreError bool :=
  stored ← map_err JsonError (descriptor_parse stored_json);
  if bool_decide (stored = configured) then Ok true
  else if same_processor_identity stored configured then Ok false
  else Err (ProcessorIdentity (processor_instance configured)).

Definition stored_registration (d : ProcessorDescriptor) (r : Registry)
    : result StoreError (option StoredRegistration) :=
  _ ← map_err InvalidConfig (ProcessorDescriptor.validate d);
  match processor_instances r !! processor_instance d with
  | None => Ok None
  | Some stored =>
      same ← check_stored_identity stored d;
      Ok (Some (MkStored same
        (bool_decide (is_Some (run_states (registry_admission r) !! processor_instance d)))
        (bool_decide (is_Some (streams (registry_delivery r) !! default_delivery_stream_id d)))))
  end.

(** [ON CONFLICT DO NOTHING]. *)
Definition insert_new {K V} `{Countable K} (k : K) (v : V) (m : gmap K V) : gmap K V :=
  match m !! k with Some _ => m | None => <[k := v]> m end.

Definition insert_instance (instance : string) (json : list byte) (r : Registry) : Registry :=
  MkRegistry (insert_new instance json (processor_instances r)) (identity_aliases r)
    (registry_delivery r) (registry_admission r).

Definition insert_stream (id instance : string) (kind : DeliveryStreamKind) (r : Registry) : Registry :=
  let s := registry_delivery r in
  with_delivery r (MkDelivery (insert_new id (MkStream instance kind 1 0 0) (streams s))
    (change_log s) (last_rowid s) (sink_outbox s) (parked s)).

Definition insert_run_state (instance : string) (at_ms : Z) (r : Registry) : Registry :=
  let a := registry_admission r in
  with_admission r (MkAdmission (insert_new instance (MkRunState Running None at_ms) (run_states a))
    (Capacity.consumers a) (subscriptions a)).

Definition insert_alias (instance : string) (at_ms : Z) (hash : BlockHash) (r : Registry) : Registry :=
  MkRegistry (processor_instances r) (insert_new (instance, hash) at_ms (identity_aliases r))
    (registry_delivery r) (registry_admission r).

(** One transaction: an error leaves the registry as it was. *)
Definition replace_descriptor (instance : string) (json : list byte) (release_parked : bool) (r : Registry)
    : result StoreError Registry :=
  let r := MkRegistry (alter (λ _, json) instance (processor_instances r)) (identity_aliases r)
    (registry_delivery r) (registry_admission r) in
  if release_parked
  then
    at_ms ← now;
    '(s, _) ← release_deferred_changes instance i64_max Unattested at_ms (registry_delivery r);
    Ok (with_delivery r s)
  else Ok r.

Definition register_processor (d : ProcessorDescriptor) : eff Registry StoreError string :=
  let instance := processor_instance d in
  r ← gets id;
  stored ← lift (stored_registration d r);
  if is_some_and stored (λ stored, is_current stored d) then lift (Ok instance)
  else
    json ← lift (map_err JsonError (descriptor_json d));
    at_ms ← lift now;
    _ ← modify (insert_instance instance json);
    _ ← (if bool_decide (delivery_mode (lifecycle_delivery (lifecycle d)) = DeliveryNone) then lift (Ok ())
         else modify (insert_stream (default_delivery_stream_id d) instance (default_delivery_stream_kind d)));
    _ ← modify (insert_run_state instance at_ms);
    r ← gets id;
    stored ← lift (ok_or (processor_instances r !! instance) (Sqlx "no rows returned"));
    same ← lift (check_stored_identity stored d);
    if (same : bool) then lift (Ok instance)
    else
      previous ← lift (map_err JsonError (descriptor_parse stored));
      _ ← (if bool_decide (requirements previous ≠ requirements d) || bool_decide (publication previous ≠ publication d)
           then
             neutral ← lift (descriptor_hash previous);
             full ← lift (full_descriptor_hash previous);
             _ ← modify (insert_alias instance at_ms neutral);
             modify (insert_alias instance at_ms full)
           else lift (Ok ()));
      _ ← transact (λ r, r ← replace_descriptor instance json
             (bool_decide (publication previous ≠ publication d)
              && bool_decide (publication d = PublishUnattested)) r; Ok (r, ()));
      lift (Ok instance).

(** [identity_aliases]. *)
Definition aliases_of (instance : string) (r : Registry) : list BlockHash :=
  snd <$> List.filter (λ k, bool_decide (k.1 = instance)) (map_to_list (identity_aliases r)).*1.
End register.

(** ** What narrowing keeps *)

(** [configured] reads a subset of what [stored] read. *)
Definition narrows (stored configured : DataRequirement) : Prop :=
  CapabilitySet.contains_all (CapabilitySet.with_derivable (capabilities stored)) (capabilities configured) = true ∧
  log_fields configured = log_fields stored ∧ allow_filtered configured = allow_filtered stored ∧
  filter configured = filter stored ∧
  Finality.satisfies (minimum_finality stored) (minimum_finality configured) = true.

(** What an identity keeps. *)
Record same_identity (p d : ProcessorDescriptor) : Prop := MkSame {
  same_id : descriptor_id p = descriptor_id d;
  same_instance : descriptor_instance p = descriptor_instance d;
  same_version : descriptor_version p = descriptor_version d;
  same_code : code_hash p = code_hash d;
  same_config : config_hash p = config_hash d;
  same_start : descriptor_start p = descriptor_start d;
  same_mode : descriptor_mode p = descriptor_mode d;
  same_ordering : delivery_ordering p = delivery_ordering d;
  same_schemas : schemas p = schemas d;
  same_publication : publication p = publication d ∨
    PublicationPolicy.publishes_unfinalized (publication p) = true ∧
    PublicationPolicy.publishes_unfinalized (publication d) = true;
  same_requirements : Forall2 narrows (requirements p) (requirements d);
}.

Lemma with_derivable_self s : is_u16 s →
  CapabilitySet.contains_all (CapabilitySet.with_derivable s) s = true.
Proof.
  intros Hs. apply CapabilitySet.cap_contains_all_spec; [done|]. intros c Hc.
  by rewrite CapabilitySet.contains_with_derivable, Hc.
Qed.

Lemma finality_min_eq a b : finality_min a b = b ↔ Finality.satisfies a b = true.
Proof. by destruct a, b. Qed.

Lemma narrowed_lowered r c :
  narrowed (with_minimum r (finality_min (minimum_finality r) (minimum_finality c))) c = true ↔ narrows r c.
Proof.
  unfold narrowed, narrows. rewrite andb_true_iff, bool_decide_eq_true.
  destruct r as [rc rl ra rf rm], c as [cc cl ca cf cm]. cbn. split.
  - intros [Hc [= -> -> -> Hm]]. split_and!; [done..|]. by apply finality_min_eq.
  - intros (Hc & -> & -> & -> & Hm). split; [done|]. by rewrite (proj2 (finality_min_eq rm cm) Hm).
Qed.

Lemma all_pairs_lowered rs cs : length rs = length cs →
  all_pairs narrowed (lower_minimums rs cs) cs = true ↔ Forall2 narrows rs cs.
Proof.
  revert cs; induction rs as [|r rs IH]; intros [|c cs] Hlen; try done; cbn.
  injection Hlen as Hlen. rewrite andb_true_iff, narrowed_lowered, (IH cs) by done.
  by rewrite Forall2_cons.
Qed.

Lemma length_lower rs cs : length (lower_minimums rs cs) = length rs.
Proof. revert cs; induction rs as [|r rs IH]; intros [|c cs]; cbn; [done..|]. by rewrite IH. Qed.

(** The identity rule, spelled out. *)
Lemma same_processor_identity_spec p d (Hd : Forall (λ r, is_u16 (capabilities r)) (requirements d)) :
  same_processor_identity p d = true ↔ same_identity p d.
Proof.
  unfold same_processor_identity. rewrite bool_decide_eq_true.
  set (publication' := if _ && _ then _ else _). set (lowered := if (_ =? _)%nat then _ else _).
  assert (publication' = publication d ↔ publication p = publication d ∨
    PublicationPolicy.publishes_unfinalized (publication p) = true ∧
    PublicationPolicy.publishes_unfinalized (publication d) = true) as Hpub.
  { unfold publication'. destruct (publication p), (publication d); cbn; naive_solver. }
  assert ((if requirements_narrow lowered (requirements d) then requirements d else lowered) = requirements d ↔
    Forall2 narrows (requirements p) (requirements d)) as Hreq.
  { unfold lowered, requirements_narrow. destruct (Nat.eqb_spec (length (requirements p)) (length (requirements d)))
      as [Hlen|Hlen].
    - rewrite length_lower, Hlen, Nat.eqb_refl. cbn [andb]. rewrite <-all_pairs_lowered by done.
      destruct (all_pairs _ _ _) eqn:Hall; [done|]. split; [|done]. intros Heq. rewrite Heq in Hall.
      rewrite <-Hall. clear -Hd. induction Hd as [|r rs Hr Hrs IH]; [done|]. cbn. rewrite IH, andb_true_r.
      unfold narrowed. rewrite with_derivable_self by done. destruct r. by rewrite bool_decide_eq_true_2.
    - rewrite (proj2 (Nat.eqb_neq _ _) Hlen). cbn [andb]. split; [intros Heq; by rewrite Heq in Hlen|].
      by intros Hf%Forall2_length. }
  split.
  - intros Heq. split;
      [exact (f_equal descriptor_id Heq)|exact (f_equal descriptor_instance Heq)|exact (f_equal descriptor_version Heq)
      |exact (f_equal code_hash Heq)|exact (f_equal config_hash Heq)|exact (f_equal descriptor_start Heq)
      |exact (f_equal descriptor_mode Heq)|exact (f_equal delivery_ordering Heq)|exact (f_equal schemas Heq)
      |apply Hpub; exact (f_equal publication Heq)|apply Hreq; exact (f_equal requirements Heq)].
  - intros [H1 H2 H3 H4 H5 H6 H7 H8 H9 H10%Hpub H11%Hreq]. unfold with_requirements.
    rewrite H1, H2, H3, H4, H5, H6, H7, H8, H9, H10, H11. by destruct d.
Qed.

(** Whatever a narrowed requirement asks for, the old one derived. *)
Lemma narrows_contains r c d (Hc : is_u16 (capabilities c)) :
  narrows r c → CapabilitySet.contains (capabilities c) d = true →
  CapabilitySet.contains (capabilities r) d = true ∨
  ∃ b, CapabilitySet.contains (capabilities r) b = true ∧ CapabilitySet.derives b d = true.
Proof.
  intros (Hall & _) Hd. rewrite CapabilitySet.cap_contains_all_spec in Hall by done.
  apply Hall in Hd. rewrite CapabilitySet.contains_with_derivable, !orb_true_iff, !andb_true_iff in Hd.
  naive_solver.
Qed.

Lemma derives_bundle b d : CapabilitySet.derives b d = true → b = Transactions ∨ b = Receipts.
Proof. destruct b; cbn; try done; tauto. Qed.

Lemma derives_not_bundle b d : CapabilitySet.derives b d = true → ∀ e, CapabilitySet.derives d e = false.
Proof. by destruct b, d. Qed.

Lemma narrows_derivable r c d (Hc : is_u16 (capabilities c)) :
  narrows r c → CapabilitySet.contains (CapabilitySet.with_derivable (capabilities c)) d = true →
  CapabilitySet.contains (CapabilitySet.with_derivable (capabilities r)) d = true.
Proof.
  intros Hn. rewrite !CapabilitySet.contains_with_derivable, !orb_true_iff, !andb_true_iff.
  intros [[Hd|[Hb Hd]]|[Hb Hd]].
  - apply (narrows_contains r c d Hc Hn) in Hd as [Hd|(b & Hb & Hbd)]; [tauto|].
    destruct (derives_bundle _ _ Hbd) as [-> | ->]; tauto.
  - apply (narrows_contains r c _ Hc Hn) in Hb as [Hb|(b & _ & Hbd)]; [tauto|].
    by rewrite (derives_not_bundle _ _ Hbd) in Hd.
  - apply (narrows_contains r c _ Hc Hn) in Hb as [Hb|(b & _ & Hbd)]; [tauto|].
    by rewrite (derives_not_bundle _ _ Hbd) in Hd.
Qed.

(** A component supplies what a bundle derives only as that bundle, filtered
    logs aside. *)
Lemma supplies_derived f k b d scope completeness :
  filtered_as f k scope completeness → component_supplies k d = true →
  CapabilitySet.derives b d = true → k = Logs ∨ component_supplies k b = true.
Proof.
  unfold filtered_as, DataRequirement.components. rewrite !elem_of_cons, elem_of_nil.
  intros Hk Hs Hd. destruct (derives_bundle _ _ Hd) as [-> | ->];
    destruct d; try discriminate Hd; clear Hd;
    repeat destruct Hk as [[= -> _]|Hk]; try done; try (by left); by right.
Qed.

(** A narrowed processor can be fed whatever the old one was fed. Every
    frame that the stored requirement accepted is accepted by a requirement
    it may be narrowed to: fewer capabilities, or what the old ones derive,
    at the same or a lower level. Only filtered material can make a
    difference, and only where the old requirement took logs out of its
    receipts and the frame also has filtered logs. *)
Theorem narrows_accepts r c f (Hr : is_u16 (capabilities r)) (Hc : is_u16 (capabilities c))
    (Hnarrows : narrows r c)
    (Hlogs : allow_filtered r = true → CapabilitySet.contains (capabilities r) Logs = true ∨
       filter_claim (frame_logs f) = None)
    (Hok : DataRequirement.validate_frame r f = Ok ()) :
  DataRequirement.validate_frame c f = Ok ().
Proof.
  apply validate_frame_accepts in Hok as (Hf & Hs & Hm & Hv & Hl & Hp); [|done].
  apply validate_frame_accepts; [done|]. pose proof Hnarrows as (_ & Hlog & Hallow & Hfilter & Hmin).
  rewrite Hlog, Hallow, Hfilter. split_and!; [by eapply Finality.satisfies_trans| | |done..|].
  - intros d [Hd|(b & Hb & Hbd)]%(narrows_contains r c d Hc Hnarrows); [auto|].
    apply Hs in Hb. unfold Report.supplies in *. revert Hb.
    generalize (if allow_filtered r then present (BlockFrame.capabilities f) else complete (BlockFrame.capabilities f)).
    intros s Hb. clear -Hb Hbd. destruct (derives_bundle _ _ Hbd) as [-> | ->]; rewrite Hbd, andb_true_r;
      change (CapabilitySet.derives _ Transactions) with false in Hb;
      change (CapabilitySet.derives _ Receipts) with false in Hb; rewrite bool_decide_eq_false_2 in Hb by done;
      rewrite !andb_false_r, !orb_false_r in Hb; by rewrite Hb, !orb_true_r.
  - intros Ha k d scope completeness Hk Hkd Hd.
    apply (narrows_contains r c d Hc Hnarrows) in Hd as [Hd|(b & Hb & Hbd)]; [by eapply Hm|].
    destruct (supplies_derived f k b d scope completeness Hk Hkd Hbd) as [->|Hkb]; [|by eapply Hm].
    destruct (Hlogs Ha) as [Hlogsr|Hnone]; [by eapply (Hm Ha Logs Logs)|].
    unfold filtered_as, DataRequirement.components in Hk. rewrite Hnone, !elem_of_cons, elem_of_nil in Hk.
    by repeat destruct Hk as [Hk|Hk].
  - intros d Hd. apply Hp. by eapply narrows_derivable.
Qed.

(** ** What a registration stores *)

(** The derived [Serialize]. *)
Definition wire_of (d : ProcessorDescriptor) : DescriptorWire :=
  MkDescriptorWire (descriptor_id d) (Some (descriptor_instance d)) (descriptor_version d) (code_hash d)
    (config_hash d) (descriptor_start d) (requirements d) (descriptor_mode d) (delivery_ordering d)
    (publication d) (Some (lifecycle d)) None (schemas d).

Section registered.
Context `{!Blake3} `{!DescriptorJson} `{!DescriptorParse} {HE : Type} `{!Hex HE}.

(** serde_json reads back what it wrote. *)
Class DescriptorJsonLaws : Prop :=
  wire_parse_json d json : descriptor_json d = Ok json → wire_parse json = Ok (wire_of d).
Context `{!DescriptorJsonLaws}.
Context (now : result StoreError Z).

Lemma descriptor_parse_json d json : descriptor_json d = Ok json → descriptor_parse json = Ok d.
Proof. intros Hj. unfold descriptor_parse. rewrite (wire_parse_json _ _ Hj). by destruct d. Qed.

Lemma check_stored_identity_Ok stored d same :
  check_stored_identity stored d = Ok same ↔
  ∃ p, descriptor_parse stored = Ok p ∧
    (p = d ∧ same = true ∨ p ≠ d ∧ same_processor_identity p d = true ∧ same = false).
Proof.
  unfold check_stored_identity. destruct (descriptor_parse stored) as [p|e]; cbn.
  2: { split; [done|]. by intros (? & ? & _). }
  destruct (bool_decide_reflect (p = d)) as [Heq|Hne]; [|destruct (same_processor_identity p d) eqn:Hsame].
  - split; [intros [= <-]; naive_solver|]. intros (p' & [= <-] & [[_ ->]|[Hne _]]); naive_solver.
  - split; [intros [= <-]; naive_solver|]. intros (p' & [= <-] & [[? _]|(_ & _ & ->)]); naive_solver.
  - split; [done|]. intros (p' & [= <-] & [[? _]|(_ & ? & _)]); congruence.
Qed.

Lemma lookup_insert_new {K V} `{Countable K} (k k' : K) (v : V) m :
  insert_new k v m !! k' = match m !! k' with Some x => Some x | None => if decide (k' = k) then Some v else None end.
Proof.
  unfold insert_new. destruct (m !! k) eqn:Hk; [|destruct (decide (k' = k)) as [->|]].
  - destruct (m !! k') eqn:Hk'; [done|]. destruct (decide (k' = k)); congruence.
  - by rewrite lookup_insert_eq, Hk.
  - rewrite lookup_insert_ne by done. by destruct (m !! k').
Qed.

(** What a registration leaves behind. *)
Record registration (d : ProcessorDescriptor) (r r' : Registry) : Prop := MkRegistration {
  registered : ∃ json, processor_instances r' !! processor_instance d = Some json ∧
    descriptor_parse json = Ok d;
  others_registered : ∀ i, i ≠ processor_instance d → processor_instances r' !! i = processor_instances r !! i;
  aliases_grow : identity_aliases r ⊆ identity_aliases r';
  previous_identity : ∀ json p, processor_instances r !! processor_instance d = Some json →
    descriptor_parse json = Ok p → p = d ∨ same_processor_identity p d = true;
  previous_aliases : ∀ json p, processor_instances r !! processor_instance d = Some json →
    descriptor_parse json = Ok p → p ≠ d → requirements p ≠ requirements d ∨ publication p ≠ publication d →
    ∀ h, descriptor_hash p = Ok h ∨ full_descriptor_hash p = Ok h →
      is_Some (identity_aliases r' !! (processor_instance d, h));
  full_hash_known : (∃ json, processor_instances r !! processor_instance d = Some json ∧
    descriptor_parse json = Ok d) ∨ is_ok (full_descriptor_hash d) = true;
}.

Lemma insert_alias_instances instance at_ms h r :
  processor_instances (insert_alias instance at_ms h r) = processor_instances r.
Proof. done. Qed.

Lemma replace_descriptor_Ok instance json release r r' :
  replace_descriptor now instance json release r = Ok r' →
  processor_instances r' = alter (λ _, json) instance (processor_instances r) ∧
  identity_aliases r' = identity_aliases r.
Proof.
  unfold replace_descriptor. destruct release; [|by intros [= <-]].
  intros (at_ms & _ & ([s b] & _ & [= <-])%result_bind_Ok)%result_bind_Ok. done.
Qed.

Lemma register_processor_Ok d r r' i :
  register_processor now d r = (r', Ok i) → i = processor_instance d ∧ registration d r r'.
Proof.
  unfold register_processor. intros (? & ? & [= <- <-] & Hrun)%eff_bind_Ok.
  apply eff_bind_Ok in Hrun as (? & stored & (-> & Hstored)%lift_Ok & Hrun).
  unfold stored_registration in Hstored. apply bind_unit_Ok in Hstored as [_ Hstored].
  cbn [id] in Hstored.
  destruct (is_some_and stored (λ stored, is_current stored d)) eqn:Hcurrent.
  { apply lift_Ok in Hrun as [-> [= <-]]. split; [done|].
    destruct (processor_instances r !! processor_instance d) as [json|] eqn:Hjson; [|by injection Hstored as <-].
    apply result_bind_Ok in Hstored as (same & Hsame & [= <-]). cbn in Hcurrent.
    apply check_stored_identity_Ok in Hsame as (p & Hp & [[-> ->]|(_ & _ & ->)]); [|done].
    split; [by exists json|done|done| | |left; by exists json].
    - intros j p Hj Hjp. left. rewrite Hj in Hjson. injection Hjson as ->. congruence.
    - intros j p Hj Hjp Hne. destruct Hne. rewrite Hj in Hjson. injection Hjson as ->. congruence. }
  apply eff_bind_Ok in Hrun as (? & json & (-> & Hjson)%lift_Ok & Hrun).
  destruct (descriptor_json d) as [json'|] eqn:Hd; [injection Hjson as ->|done].
  apply eff_bind_Ok in Hrun as (? & at_ms & (-> & Hnow)%lift_Ok & Hrun).
  apply eff_bind_Ok in Hrun as (? & ? & [= <- _] & Hrun).
  apply eff_bind_Ok in Hrun as (r2 & ? & Hstream & Hrun).
  assert (processor_instances r2 = insert_new (processor_instance d) json (processor_instances r) ∧
    identity_aliases r2 = identity_aliases r) as [Hr2 Ha2].
  { revert Hstream.
    destruct (bool_decide (delivery_mode (lifecycle_delivery (lifecycle d)) = DeliveryNone)); [by intros [-> _]%lift_Ok|by intros [= <- _]]. }
  apply eff_bind_Ok in Hrun as (? & ? & [= <- _] & Hrun).
  apply eff_bind_Ok in Hrun as (? & ? & [= <- <-] & Hrun). cbn [id insert_run_state with_admission
    processor_instances] in Hrun.
  apply eff_bind_Ok in Hrun as (? & stored' & (-> & Hstored')%lift_Ok & Hrun).
  apply eff_bind_Ok in Hrun as (? & same & (-> & Hsame)%lift_Ok & Hrun).
  rewrite Hr2, lookup_insert_new, decide_True in Hstored' by done.
  apply check_stored_identity_Ok in Hsame as (p & Hp & Hcases).
  assert (∀ j q, processor_instances r !! processor_instance d = Some j → descriptor_parse j = Ok q → q = p) as Hprev.
  { intros j q Hj Hq. rewrite Hj in Hstored'. injection Hstored' as ->. congruence. }
  assert (is_ok (full_descriptor_hash d) = true) as Hfull by (unfold full_descriptor_hash; by rewrite Hd).
  destruct Hcases as [[-> ->]|(Hne & Hid & ->)].
  { apply lift_Ok in Hrun as [-> [= <-]]. split; [done|]. split.
    - exists stored'. split; [|done]. cbn. rewrite Hr2, lookup_insert_new, decide_True by done. f_equal.
      destruct (processor_instances r !! _); by injection Hstored' as ->.
    - intros i Hi. cbn. rewrite Hr2, lookup_insert_new, decide_False by done. by destruct (_ !! i).
    - cbn. by rewrite Ha2.
    - intros j q Hj Hq. left. by eapply Hprev.
    - intros j q Hj Hq Hn. destruct Hn. by eapply Hprev.
    - by right. }
  apply eff_bind_Ok in Hrun as (? & previous & (-> & Hprevious)%lift_Ok & Hrun).
  rewrite Hp in Hprevious. injection Hprevious as <-.
  apply eff_bind_Ok in Hrun as (r5 & ? & Halias & Hrun).
  assert (processor_instances r5 = processor_instances r2 ∧ identity_aliases r2 ⊆ identity_aliases r5 ∧
    (requirements p ≠ requirements d ∨ publication p ≠ publication d →
     ∀ h, descriptor_hash p = Ok h ∨ full_descriptor_hash p = Ok h →
       is_Some (identity_aliases r5 !! (processor_instance d, h)))) as (Hr5 & Ha5 & Hh5).
  { revert Halias. destruct (_ || _) eqn:Hdiff.
    - intros (? & neutral & (-> & Hneutral)%lift_Ok & Halias)%eff_bind_Ok.
      apply eff_bind_Ok in Halias as (? & full & (-> & Hfull')%lift_Ok & Halias).
      apply eff_bind_Ok in Halias as (? & ? & [= <- _] & [= <- _]). cbn. split_and!; [done| |].
      + apply map_subseteq_spec. intros k v Hk. by rewrite !lookup_insert_new, Hk.
      + intros _ h [Hh|Hh]; rewrite !lookup_insert_new; destruct (identity_aliases r2 !! _); [by eexists| |by eexists|].
        * rewrite decide_True by congruence. by eexists.
        * destruct (decide _); [by eexists|]. rewrite decide_True by congruence. by eexists.
    - intros [-> _]%lift_Ok. split_and!; [done..|].
      apply orb_false_iff in Hdiff as [Hn1%bool_decide_eq_false Hn2%bool_decide_eq_false]. naive_solver. }
  apply eff_bind_Ok in Hrun as (r6 & ? & Hreplace & Hrun). apply lift_Ok in Hrun as [-> [= <-]].
  apply transact_Ok, result_bind_Ok in Hreplace as (? & [Hr7 Ha7]%replace_descriptor_Ok & [= <- _]).
  split; [done|]. split.
  - exists json. split; [|by apply descriptor_parse_json].
    rewrite Hr7, Hr5, lookup_alter_eq, Hr2, lookup_insert_new, decide_True by done.
    by destruct (processor_instances r !! _).
  - intros i Hi. rewrite Hr7, Hr5, lookup_alter_ne, Hr2, lookup_insert_new, decide_False by done.
    by destruct (_ !! i).
  - rewrite Ha7. etrans; [|exact Ha5]. by rewrite Ha2.
  - intros j q Hj Hq. right. by rewrite (Hprev j q).
  - intros j q Hj Hq _ Hdiff h Hh. rewrite Ha7. rewrite (Hprev j q Hj Hq) in *. by apply Hh5.
  - by right.
Qed.

(** An instance key names one processor. A registration that succeeds
    leaves the instance's stored descriptor reading back as the registered
    one and no other instance touched; against what was stored before, only
    lifecycle policies can have changed, requirements narrowed and one live
    publication level been swapped for the other. Registering it again
    changes nothing at all, and a descriptor of another identity is refused
    with nothing written. *)
Theorem registration_keeps_identity d r
    (Hreqs : Forall (λ q, is_u16 (capabilities q)) (requirements d)) :
  (∀ r' i, register_processor now d r = (r', Ok i) →
     i = processor_instance d ∧
     (∃ json, processor_instances r' !! i = Some json ∧ descriptor_parse json = Ok d) ∧
     (∀ j, j ≠ i → processor_instances r' !! j = processor_instances r !! j) ∧
     (∀ json p, processor_instances r !! i = Some json → descriptor_parse json = Ok p →
        p = d ∨ same_identity p d)) ∧
  (∀ json, processor_instances r !! processor_instance d = Some json → descriptor_parse json = Ok d →
     is_Some (run_states (registry_admission r) !! processor_instance d) →
     is_Some (streams (registry_delivery r) !! default_delivery_stream_id d) →
     ProcessorDescriptor.validate d = Ok () →
     register_processor now d r = (r, Ok (processor_instance d))) ∧
  (∀ json p, processor_instances r !! processor_instance d = Some json → descriptor_parse json = Ok p →
     ProcessorDescriptor.validate d = Ok () → p ≠ d → ¬ same_identity p d →
     register_processor now d r = (r, Err (ProcessorIdentity (processor_instance d)))).
Proof.
  split_and!.
  - intros r' i (-> & Hreg)%register_processor_Ok. destruct Hreg as [Hr Ho Ha Hp _ _]. split_and!; [done..|].
    intros json p Hj Hjp. destruct (Hp json p Hj Hjp) as [?|Hid]; [by left|right].
    by apply same_processor_identity_spec.
  - intros json Hj Hjp Hrun Hstream Hvalid. unfold register_processor, stored_registration, check_stored_identity.
    unfold mbind, eff_bind, gets. cbn [id]. unfold lift at 1. rewrite Hvalid, Hj. cbn. rewrite Hjp. cbn.
    by rewrite !bool_decide_eq_true_2 by done.
  - intros json p Hj Hjp Hvalid Hne Hid. unfold register_processor, stored_registration, check_stored_identity.
    unfold mbind, eff_bind, gets. cbn [id]. unfold lift at 1. rewrite Hvalid, Hj. cbn. rewrite Hjp. cbn.
    rewrite (bool_decide_eq_false_2 (p = d)) by done.
    destruct (same_processor_identity p d) eqn:Hsame; [|done].
    destruct Hid. by apply same_processor_identity_spec.
Qed.

Context {PE : Type} (show : PE → string) `{!Postcard PE StateSnapshot}.

Lemma elem_of_aliases instance h r :
  h ∈ aliases_of instance r ↔ is_Some (identity_aliases r !! (instance, h)).
Proof.
  unfold aliases_of. rewrite list_elem_of_fmap. split.
  - intros ([i h'] & -> & [Hk Hi%bool_decide_eq_true]%elem_of_filter_list). cbn in *. subst i.
    apply list_elem_of_fmap in Hk as ([k v] & Heq & Hk%elem_of_map_to_list). cbn in *. subst k. by exists v.
  - intros [v Hv]. exists (instance, h). split; [done|]. apply elem_of_filter_list. split; [|by apply bool_decide_eq_true].
    apply list_elem_of_fmap. exists ((instance, h), v). split; [done|]. by apply elem_of_map_to_list.
Qed.

(** When a snapshot is accepted. *)
Lemma decode_state_snapshot_Ok d instance encoded checksum aliases snapshot :
  decode_state_snapshot show d instance encoded checksum aliases = Ok snapshot →
  checksum = blake3_hash encoded ∧ map_err (Encoding ∘ show) (from_bytes encoded) = Ok snapshot ∧
  format_version (snapshot_header snapshot) = 1 ∧ header_instance (snapshot_header snapshot) = instance ∧
  cursor_processor_id (header_cursor (snapshot_header snapshot)) = processor_id (descriptor_id d) ∧
  cursor_processor_version (header_cursor (snapshot_header snapshot)) = descriptor_version d ∧
  (descriptor_hash d = Ok (header_descriptor (snapshot_header snapshot)) ∨
   full_descriptor_hash d = Ok (header_descriptor (snapshot_header snapshot)) ∨
   header_descriptor (snapshot_header snapshot) ∈ aliases) ∧
  (descriptor_hash d = Ok (header_descriptor (snapshot_header snapshot)) ∨ is_ok (full_descriptor_hash d) = true).
Proof.
  unfold decode_state_snapshot. rewrite if_Err_Ok, bool_decide_eq_false.
  intros [->%dec_stable (s & Hs & Hrest)%result_bind_Ok].
  apply if_Err_Ok in Hrest as [[Hv Hi]%orb_false_iff Hrest].
  apply result_bind_Ok in Hrest as (identity & Hid & (foreign & Hf & Hrest)%result_bind_Ok).
  apply if_Err_Ok in Hrest as [Hforeign [= <-]].
  apply orb_false_iff in Hforeign as [[-> Hpid]%orb_false_iff Hpv].
  rewrite bool_decide_eq_false in Hi, Hpid, Hpv. apply dec_stable in Hi, Hpid, Hpv.
  apply negb_false_iff, Z.eqb_eq in Hv. split_and!; try done.
  - revert Hf. case_bool_decide as Hne; [|left; by rewrite Hne].
    intros (full & Hfull & [= Hx])%result_bind_Ok. right.
    destruct (bool_decide_reflect (header_descriptor (snapshot_header s) ≠ full)) as [Hnf|Hnf].
    + cbn in Hx. apply negb_false_iff, list_contains_spec in Hx. by right.
    + rewrite (dec_stable Hnf). by left.
  - revert Hf. case_bool_decide as Hne; [|left; by rewrite Hne].
    intros (full & Hfull & _)%result_bind_Ok. right. by rewrite Hfull.
Qed.

Lemma decode_state_snapshot_accepts d instance encoded checksum aliases snapshot :
  checksum = blake3_hash encoded → map_err (Encoding ∘ show) (from_bytes encoded) = Ok snapshot →
  format_version (snapshot_header snapshot) = 1 → header_instance (snapshot_header snapshot) = instance →
  cursor_processor_id (header_cursor (snapshot_header snapshot)) = processor_id (descriptor_id d) →
  cursor_processor_version (header_cursor (snapshot_header snapshot)) = descriptor_version d →
  is_ok (descriptor_hash d) = true →
  (descriptor_hash d = Ok (header_descriptor (snapshot_header snapshot)) ∨ is_ok (full_descriptor_hash d) = true) →
  (descriptor_hash d = Ok (header_descriptor (snapshot_header snapshot)) ∨
   full_descriptor_hash d = Ok (header_descriptor (snapshot_header snapshot)) ∨
   header_descriptor (snapshot_header snapshot) ∈ aliases) →
  decode_state_snapshot show d instance encoded checksum aliases = Ok snapshot.
Proof.
  intros -> Hs Hv <- Hpid Hpv Hh Hfull Hcases. unfold decode_state_snapshot.
  rewrite (bool_decide_eq_false_2 (blake3_hash encoded ≠ _)) by congruence. rewrite Hs. cbn.
  rewrite Hv, (bool_decide_eq_false_2 (header_instance _ ≠ _)) by congruence. cbn.
  destruct (descriptor_hash d) as [h|]; [|done]. cbn.
  assert (∀ foreign : bool, foreign = false →
    (if foreign || bool_decide (cursor_processor_id (header_cursor (snapshot_header snapshot)) ≠ processor_id (descriptor_id d))
        || bool_decide (cursor_processor_version (header_cursor (snapshot_header snapshot)) ≠ descriptor_version d)
     then Err SavepointContract else Ok snapshot) = Ok snapshot) as Hfinish.
  { intros ? ->. rewrite Hpid, Hpv. by rewrite !bool_decide_eq_false_2 by congruence. }
  destruct (bool_decide_reflect (header_descriptor (snapshot_header snapshot) ≠ h)); [|by apply Hfinish].
  destruct Hfull as [[= Hfull]|Hfull]; [congruence|].
  destruct (full_descriptor_hash d) as [full|]; [|done]. cbn. apply Hfinish.
  destruct (bool_decide_reflect (header_descriptor (snapshot_header snapshot) ≠ full)) as [Hnf|Hnf]; [|done]. cbn.
  apply negb_false_iff, list_contains_spec. destruct Hcases as [[= ->]|[[= ->]|?]]; done.
Qed.

Lemma descriptor_hash_identity p d :
  same_identity p d → requirements p = requirements d → publication p = publication d →
  descriptor_hash p = descriptor_hash d.
Proof.
  intros [] Hr Hp. unfold descriptor_hash. f_equal. unfold with_lifecycle. destruct p, d; cbn in *. by subst.
Qed.

(** C38: no registration orphans a snapshot. A snapshot that could be
    restored under the stored descriptor can be restored under the
    descriptor registered over it: whether only lifecycle limits were
    edited, requirements narrowed or the live publication level switched,
    and so along any chain of registrations. The only identity that can be
    lost is the old hash over lifecycle limits too, by editing those. *)
Theorem registration_keeps_snapshots d p json r r' i encoded checksum snapshot
    (Hreqs : Forall (λ q, is_u16 (capabilities q)) (requirements d))
    (Hstored : processor_instances r !! processor_instance d = Some json)
    (Hparsed : descriptor_parse json = Ok p)
    (Hregister : register_processor now d r = (r', Ok i))
    (Hhash : is_ok (descriptor_hash d) = true)
    (Hsnapshot : decode_state_snapshot show p i encoded checksum (aliases_of i r) = Ok snapshot)
    (Hidentity : lifecycle p = lifecycle d ∨
       descriptor_hash p = Ok (header_descriptor (snapshot_header snapshot)) ∨
       header_descriptor (snapshot_header snapshot) ∈ aliases_of i r) :
  decode_state_snapshot show d i encoded checksum (aliases_of i r') = Ok snapshot.
Proof.
  apply register_processor_Ok in Hregister as (-> & [Hreg _ Halias Hprev Hnew Hfull]).
  apply decode_state_snapshot_Ok in Hsnapshot as (Hc & Hs & Hv & Hi & Hpid & Hpv & Hcases).
  assert (∀ h, h ∈ aliases_of (processor_instance d) r → h ∈ aliases_of (processor_instance d) r') as Hgrow.
  { intros h. rewrite !elem_of_aliases. intros [v Hh]. exists v. by eapply lookup_weaken. }
  destruct (decide (p = d)) as [->|Hne].
  { apply decode_state_snapshot_accepts; try done; naive_solver. }
  destruct (Hprev _ _ Hstored Hparsed) as [?|Hid]; [done|].
  apply same_processor_identity_spec in Hid; [|done].
  apply decode_state_snapshot_accepts; try done.
  - by rewrite Hpid, (same_id _ _ Hid).
  - by rewrite Hpv, (same_version _ _ Hid).
  - right. destruct Hfull as [(j & Hj & Hjd)|?]; [|done].
    rewrite Hj in Hstored. injection Hstored as ->. congruence.
  - destruct (decide (requirements p = requirements d ∧ publication p = publication d)) as [[Hr Hp]|Hdiff].
    + assert (descriptor_hash p = descriptor_hash d) as Heq by by apply descriptor_hash_identity.
      rewrite Heq in *. destruct Hidentity as [Hl|[?|?]]; [|by left|right; right; by apply Hgrow].
      destruct Hne. clear -Hid Hr Hp Hl. destruct Hid, p, d; cbn in *. by subst.
    + right. right. destruct Hcases as [[Hh|[Hh|Hh]] _]; [..|by apply Hgrow];
        apply elem_of_aliases; eapply Hnew; try done; try tauto.
      all: apply not_and_l in Hdiff; tauto.
Qed.
End registered.

(** ** Two descriptors of one identity *)

Module RegistrationSample.
(** [live] narrows [sample_descriptor]'s publication to the first level;
    [other] is another version. *)
Definition live : ProcessorDescriptor :=
  with_requirements sample_descriptor PublishUnattested lifecycle_default (requirements sample_descriptor).
Definition other : ProcessorDescriptor :=
  MkDescriptor (descriptor_id live) (descriptor_instance live) "2.0.0" (code_hash live) (config_hash live)
    (descriptor_start live) (requirements live) (descriptor_mode live) (delivery_ordering live)
    (publication live) (lifecycle live) (schemas live).

#[export] Instance json : DescriptorJson := λ d,
  if decide (d = sample_descriptor) then Ok [x01]
  else if decide (d = live) then Ok [x02] else Err "no encoding"%string.
#[export] Instance parse : DescriptorParse := λ bytes,
  if decide (bytes = [x01]) then Ok (wire_of sample_descriptor)
  else if decide (bytes = [x02]) then Ok (wire_of live) else Err "no descriptor"%string.
#[export] Instance laws : DescriptorJsonLaws.
Proof.
  intros d bytes. unfold descriptor_json, json.
  destruct (decide (d = sample_descriptor)) as [->|_]; [by intros [= <-]|].
  destruct (decide (d = live)) as [->|_]; [by intros [= <-]|done].
Qed.

#[export] Instance hex : Hex string := zeros_hex.

(** Identities that differ are hashed apart. *)
#[export] Instance hash : Blake3 := λ bytes, array_fill 32 (default x00 (head bytes)).

Definition identity : BlockHash := blake3_hash [x01].
Definition snapshot : StateSnapshot :=
  MkSnapshot (MkHeader 1 "erc20" identity (MkProcessorCursor "erc20" "1.0.0" 1 9 hash_zero Finalized 9)) [].
#[export] Instance wire : Postcard string StateSnapshot :=
  {| to_allocvec := λ _, Ok []; from_bytes := λ _, Ok snapshot |}.

Definition registry : Registry :=
  MkRegistry {[ "erc20"%string := [x01] ]} ∅
    (MkDelivery {[ "erc20:canonical"%string := MkStream "erc20" StreamCanonical 1 0 0 ]} [] 0 [] [])
    (MkAdmission {[ "erc20"%string := MkRunState Running None 0 ]} ∅ ∅).
Definition switched : Registry := (register_processor (Ok 7) live registry).1.
End RegistrationSample.

Import RegistrationSample.

Lemma registration_keeps_identity_witness :
  register_processor (Ok 7) other registry = (registry, Err (ProcessorIdentity "erc20")) ∧
  processor_instances switched !! "erc20"%string = Some [x02].
Proof.
  split; [|vm_compute; reflexivity].
  apply (registration_keeps_identity (Ok 7) other registry) with (json := [x01]) (p := sample_descriptor);
    [apply Forall_singleton; vm_compute; split; discriminate|vm_compute; reflexivity|vm_compute; reflexivity
    |vm_compute; reflexivity|discriminate|].
  intros [_ _ Hv _ _ _ _ _ _ _ _]. discriminate Hv.
Defined.

Lemma registration_keeps_snapshots_witness :
  decode_state_snapshot id sample_descriptor "erc20" [] (blake3_hash []) [] = Ok snapshot ∧
  decode_state_snapshot id live "erc20" [] (blake3_hash []) [] = Err SavepointContract ∧
  decode_state_snapshot id live "erc20" [] (blake3_hash []) (aliases_of "erc20" switched) = Ok snapshot.
Proof.
  split; [vm_compute; reflexivity|]. split; [vm_compute; reflexivity|].
  apply (registration_keeps_snapshots (Ok 7) id live sample_descriptor [x01] registry);
    [apply Forall_singleton; vm_compute; split; discriminate|vm_compute; reflexivity|vm_compute; reflexivity
    | |vm_compute; reflexivity|vm_compute; reflexivity|by left].
  unfold switched. assert ((register_processor (Ok 7) live registry).2 = Ok "erc20"%string) as Hr
    by (vm_compute; reflexivity).
  rewrite <-Hr. apply surjective_pairing.
Defined.

Lemma narrows_accepts_witness :
  let r := with_minimum address_requirement Attested in
  narrows r address_requirement ∧ DataRequirement.validate_frame address_requirement filtered_frame = Ok ().
Proof.
  cbn zeta. assert (narrows (with_minimum address_requirement Attested) address_requirement) as Hn
    by (split_and!; vm_compute; reflexivity).
  split; [exact Hn|].
  apply (narrows_accepts (with_minimum address_requirement Attested) address_requirement filtered_frame);
    [vm_compute; split; discriminate|vm_compute; split; discriminate|exact Hn|by left|vm_compute; reflexivity].
Defined.
