(* ===== verification/Consumers.v ===== *)
(** * Durable consumers

    Models the consumers of a delivery stream
    ([crates/store-sqlite/src/lib.rs]): registration at a position,
    credentials, leases and exclusive sessions, reading pages, the delivered
    watermark, cumulative acknowledgements, resets and revocations.

    Every operation takes the clock at its writes; those that answer with the
    consumer's row take the clock at that read too. [credential_hash] is the
    store's keyed hash, which depends on a secret outside the tables. *)
From Stdlib Require Import ZArith Lia Strings.Byte.
From stdpp Require Import gmap strings list list_numbers fin_maps sorting.
From S2P Require Import Prelude Bytes Chain Capability Provenance Frame Durable Descriptor Delta Rows Delivery Checkpoints Capacity Registration.

Inductive ConsumerStartPosition := EarliestRetained | CurrentHead | After (sequence : Z).

Record DurableConsumer := MkDurableConsumer {
  durable_id : string;
  durable_instance : string;
  durable_stream : string;
  durable_role : ConsumerRole;
  durable_state : ConsumerState;
  durable_acknowledged : Z;
  durable_delivered : Z;
  durable_generation : Z;
  durable_ttl_ms : Z;
  durable_expires_at : Z;
  lease_active : bool;
  durable_created_at : Z;
  durable_updated_at : Z;
}.

Record ConsumerSessionLease := MkSession { generation : Z; expires_at_unix_ms : Z }.

Record ConsumerLag := MkLag { lag_changes : Z; lag_blocks : Z; lag_bytes : Z; lag_age_ms : Z }.

Record ChangeBounds := MkBounds { bounds_earliest : Z; bounds_latest : Z }.

(** What a reader is handed; its cursor is the chain, the processor and the
    sequence. *)
Record ChangeRecord := MkRecord {
  record_encoding_version : Z;
  record_chain : ChainId;
  record_processor : string;
  record_sequence : Z;
  record_origin : DeliveryOrigin;
  record_block : BlockRef;
  record_finality : Finality;
  record_direction : ChangeDirection;
  record_change : DomainChange;
  record_emitted_at : Z;
}.

(** ** Checks of a registration *)

(** [b'-' | b'_' | b'.']. *)
Definition is_consumer_punct (b : byte) : bool := bool_decide (b ∈ string_bytes "-_.").

Definition valid_consumer_id (value : string) : bool :=
  negb (bool_decide (value = ""%string)) && (String.length value <=? 128)%nat
  && forallb (λ byte, is_ascii_alphanumeric byte || is_consumer_punct byte) (string_bytes value).

Definition MINIMUM_CONSUMER_CREDENTIAL_CHARS : nat := 32.

(** [u8::is_ascii_graphic]. *)
Definition is_ascii_graphic (b : byte) : bool := (33 <=? byte_Z b) && (byte_Z b <=? 126).

Definition validate_consumer_credential (credential : list byte) : result string () :=
  if (length credential <? MINIMUM_CONSUMER_CREDENTIAL_CHARS)%nat || (512 <? length credential)%nat
     || negb (forallb is_ascii_graphic credential)
  then Err "consumer credential must hold 32 to 512 printable ASCII characters without spaces"%string
  else Ok ().

(** A [Duration] in nanoseconds. *)
Definition validate_consumer_registration (consumer_id : string) (ttl : Z) : result string () :=
  if negb (valid_consumer_id consumer_id) || (ttl =? 0) || (MAXIMUM_CONSUMER_LEASE_TTL * 1000000000 <? ttl)
  then Err "consumer ID must be 1-128 portable characters and lease TTL must be non-zero and at most 100 years"%string
  else Ok ().

Definition ensure_required_consumer_retention (d : ProcessorDescriptor) (stream_id : string) (role : ConsumerRole)
    (s : Delivery) : result StoreError () :=
  if bool_decide (role ≠ ConsumerRequired)
     || bool_decide (delivery_mode (lifecycle_delivery (lifecycle d)) = UntilAcknowledged) then Ok ()
  else
    backfill ← delivery_stream_is_backfill stream_id s;
    if (backfill : bool) then Ok ()
    else Err (InvalidConfig ("required consumers need until_acknowledged delivery; stream " +:+ stream_id
           +:+ " prunes without waiting for acknowledgements, so register a best_effort consumer instead")).

(** ** The change log of a stream *)

(** Rows of a stream in sequence order. *)
Definition stream_log (s : Delivery) (id : string) : list ChangeRow :=
  sort_by (λ x y, row_stream_sequence x <=? row_stream_sequence y) (stream_rows s id).
Definition first_sequence (s : Delivery) (id : string) : option Z :=
  minimum (row_stream_sequence <$> stream_rows s id).
Definition head_sequence (s : Delivery) (id : string) : option Z :=
  maximum (row_stream_sequence <$> stream_rows s id).

Definition opt_i64_u64 (value : option Z) (field : string) : result StoreError (option Z) :=
  match value with Some value => Some <$> i64_u64 value field | None => Ok None end.

Definition pruned_through (s : Delivery) (stream_id : string) : result StoreError Z :=
  stream ← ok_or (streams s !! stream_id) (Sqlx "no rows returned");
  i64_u64 (pruned_through_sequence stream) "pruned delivery sequence".

Definition validate_change_limit (limit : nat) : result StoreError () :=
  if (limit =? 0)%nat || (N.to_nat 10000 <? limit)%nat
  then Err (InvalidConfig "change limit must be in 1..=10000") else Ok ().

Definition change_page_rows (s : Delivery) (stream_id : string) (after : Z) (limit : nat)
    : result StoreError (list ChangeRow) :=
  after ← u64_i64 after "sequence";
  limit ← usize_i64 limit "limit";
  Ok (take (Z.to_nat limit) (List.filter (λ row, after <? row_stream_sequence row) (stream_log s stream_id))).

(** The store writes rows under one encoding version and refuses any other,
    so rows do not carry it here. *)
Definition DELIVERY_ENCODING_VERSION : Z := 1.

Definition decode_change_row (d : ProcessorDescriptor) (chain_id : ChainId) (row : ChangeRow)
    : result StoreError ChangeRecord :=
  sequence ← i64_u64 (row_stream_sequence row) "sequence";
  stored ← i64_u64 (row_chain row) "change chain ID";
  if negb (stored =? chain_id)
  then Err (StoreInvariant "processor change belongs to another chain")
  else
    revision ← i64_u64 (publication_revision (row_origin row)) "publication revision";
    _ ← i64_u64 (ref_number (row_block row)) "block_number";
    _ ← i64_u64 (ref_timestamp (row_block row)) "block_timestamp";
    emitted ← i64_u64 (row_created_at row) "created_at_unix_ms";
    Ok (MkRecord DELIVERY_ENCODING_VERSION chain_id (processor_id (descriptor_id d)) sequence
      (MkOrigin (origin_kind (row_origin row)) (origin_id (row_origin row)) revision)
      (row_block row) (row_finality row) (row_direction row) (row_change row) emitted).

Definition decode_change_rows (rows : list ChangeRow) (d : ProcessorDescriptor) (chain_id : ChainId)
    : result StoreError (list ChangeRecord) :=
  fold_result (λ done row, record ← decode_change_row d chain_id row; Ok (done ++ [record])) [] rows.

(** With [check_retention] a cursor that pruning overtook is refused. *)
Definition read_changes_in_stream (d : ProcessorDescriptor) (stream_id : string) (chain_id : ChainId)
    (after : option Z) (limit : nat) (check_retention : bool) (s : Delivery) : result StoreError (list ChangeRecord) :=
  _ ← validate_change_limit limit;
  _ ← validate_delivery_stream (processor_instance d) stream_id s;
  after ← (if check_retention
    then
      pruned ← pruned_through s stream_id;
      if is_some_and after (λ sequence, sequence <? pruned)
      then
        earliest ← opt_i64_u64 (first_sequence s stream_id) "earliest change";
        latest ← opt_i64_u64 (head_sequence s stream_id) "latest change";
        Err (ChangeCursorExpired (default (sat_add pruned 1) earliest) (default pruned latest))
      else Ok (default pruned after)
    else Ok (default 0 after));
  rows ← change_page_rows s stream_id after limit;
  decode_change_rows rows d chain_id.

(** The entry points. *)
Definition changes_in_stream d stream_id chain_id after limit (s : Delivery) :=
  read_changes_in_stream d stream_id chain_id (Some after) limit false s.
Definition resumable_changes d chain_id after limit (s : Delivery) :=
  read_changes_in_stream d (default_delivery_stream_id d) chain_id after limit true s.

Definition change_bounds_in_stream (d : ProcessorDescriptor) (stream_id : string) (s : Delivery)
    : result StoreError (option ChangeBounds) :=
  _ ← validate_delivery_stream (processor_instance d) stream_id s;
  match first_sequence s stream_id, head_sequence s stream_id with
  | Some earliest, Some latest =>
      earliest ← i64_u64 earliest "earliest change sequence";
      latest ← i64_u64 latest "latest change sequence";
      Ok (Some (MkBounds earliest latest))
  | _, _ => Ok None
  end.

Definition backfill_progress_blocks (payload : list byte) : result StoreError Z :=
  match payload with
  | [] => Ok 1
  | _ =>
      if negb (length payload =? 24)%nat then Err (StoreInvariant "invalid backfill progress payload")
      else
        let from_block := be_val (take 8 payload) in
        let through_block := be_val (take 8 (drop 8 payload)) in
        let processed_blocks := be_val (take 8 (drop 16 payload)) in
        if through_block <? from_block then Err (StoreInvariant "invalid backfill progress boundary")
        else Ok processed_blocks
  end.

(** The records of one block's commit. *)
Definition same_commit (x y : ChangeRow) : bool :=
  (ref_number (row_block x) =? ref_number (row_block y)) && bool_decide (ref_hash (row_block x) = ref_hash (row_block y))
  && bool_decide (row_finality x = row_finality y) && bool_decide (row_direction x = row_direction y)
  && bool_decide (row_origin x = row_origin y).

Definition live_commit_continues_after (s : Delivery) (stream_id : string) (sequence : Z)
    : result StoreError (option BlockNumber) :=
  _ ← u64_i64 sequence "acknowledged delivery sequence";
  let log := stream_log s stream_id in
  match head (List.filter (λ row, row_stream_sequence row =? sequence) log),
        head (List.filter (λ row, sequence <? row_stream_sequence row) log) with
  | Some current, Some next =>
      if same_commit next current
      then Some <$> i64_u64 (ref_number (row_block current)) "block_number" else Ok None
  | _, _ => Ok None
  end.

Section consumers.
Context `{!Blake3} `{!DescriptorJson} `{!DescriptorParse} {HE : Type} `{!Hex HE}.
Context (credential_hash : list byte → list byte).

(** ** Reading a consumer *)

Definition decode_consumer (stream_id consumer_id : string) (instance : string) (now : Z) (c : Consumer)
    : result StoreError DurableConsumer :=
  expires ← i64_u64 (lease_expires_at c) "consumer lease expiry";
  acknowledged ← i64_u64 (acknowledged_sequence c) "consumer acknowledged sequence";
  delivered ← i64_u64 (delivered_sequence c) "consumer delivered sequence";
  generation ← i64_u64 (lease_generation c) "consumer lease generation";
  ttl ← i64_u64 (lease_ttl_ms c) "consumer lease TTL";
  wall ← i64_u64 now "current wall clock";
  created ← i64_u64 (consumer_created_at c) "consumer creation time";
  updated ← i64_u64 (consumer_updated_at c) "consumer update time";
  Ok (MkDurableConsumer consumer_id instance stream_id (consumer_role c) (consumer_state c) acknowledged delivered
    generation ttl expires (wall <? expires) created updated).

Definition consumer_row (r : Registry) (stream_id consumer_id : string) : option Consumer :=
  consumers (registry_admission r) !! (stream_id, consumer_id).

Definition put_consumer (stream_id consumer_id : string) (c : Consumer) (r : Registry) : Registry :=
  with_admission r (MkAdmission (run_states (registry_admission r))
    (<[(stream_id, consumer_id) := c]> (consumers (registry_admission r))) (subscriptions (registry_admission r))).

Definition consumer_in_stream (now : result StoreError Z) (d : ProcessorDescriptor) (stream_id consumer_id : string)
    (r : Registry) : result StoreError (option DurableConsumer) :=
  _ ← validate_delivery_stream (processor_instance d) stream_id (registry_delivery r);
  now ← now;
  match consumer_row r stream_id consumer_id with
  | None => Ok None
  | Some c => Some <$> decode_consumer stream_id consumer_id (processor_instance d) now c
  end.

(** What the writing operations answer with. *)
Definition consumer_after (now : result StoreError Z) (d : ProcessorDescriptor) (stream_id consumer_id : string)
    (detail : string) : eff Registry StoreError DurableConsumer :=
  r ← gets id;
  lift (c ← consumer_in_stream now d stream_id consumer_id r; ok_or c (StoreInvariant detail)).

Definition consumer_state_error_in_stream (now : result StoreError Z) (d : ProcessorDescriptor)
    (stream_id consumer_id : string) (r : Registry) : result StoreError StoreError :=
  c ← consumer_in_stream now d stream_id consumer_id r;
  Ok (match c with
      | Some c => ConsumerInactive (durable_id c) (durable_state c)
      | None => ConsumerNotFound (processor_instance d) consumer_id
      end).

Definition stored_consumer_credential (d : ProcessorDescriptor) (stream_id consumer_id : string) (r : Registry)
    : result StoreError (option (list byte)) :=
  _ ← validate_delivery_stream (processor_instance d) stream_id (registry_delivery r);
  c ← ok_or (consumer_row r stream_id consumer_id) (ConsumerNotFound (processor_instance d) consumer_id);
  Ok (consumer_credential c).

Definition consumer_credential_matches_in_stream (d : ProcessorDescriptor) (stream_id consumer_id : string)
    (credential : list byte) (r : Registry) : result StoreError bool :=
  stored ← stored_consumer_credential d stream_id consumer_id r;
  Ok (is_some_and stored (λ stored, bool_decide (credential_hash credential = stored))).

Definition consumer_credential_authorizes_in_stream (d : ProcessorDescriptor) (stream_id consumer_id : string)
    (presented : option (list byte)) (r : Registry) : result StoreError bool :=
  stored ← stored_consumer_credential d stream_id consumer_id r;
  Ok (match stored, presented with
      | None, None => true
      | Some stored, Some presented => bool_decide (credential_hash presented = stored)
      | None, Some _ | Some _, None => false
      end).

Definition consumer_lag_in_stream (now now_lag : result StoreError Z) (d : ProcessorDescriptor)
    (stream_id consumer_id : string) (r : Registry) : result StoreError ConsumerLag :=
  c ← consumer_in_stream now d stream_id consumer_id r;
  c ← ok_or c (ConsumerNotFound (processor_instance d) consumer_id);
  acknowledged ← u64_i64 (durable_acknowledged c) "consumer acknowledged sequence";
  let rows := List.filter (λ row, acknowledged <? row_stream_sequence row) (stream_rows (registry_delivery r) stream_id) in
  bytes ← sql_sum (change_bytes ∘ row_change <$> rows);
  wall ← now_lag;
  wall ← i64_u64 wall "current wall clock";
  age ← match minimum (row_created_at <$> rows) with
        | Some oldest => oldest ← i64_u64 oldest "oldest consumer change"; Ok (sat_sub wall oldest)
        | None => Ok 0
        end;
  Ok (MkLag (Z.of_nat (length rows))
    (Z.of_nat (length (remove_dups ((λ row, ref_number (row_block row)) <$> rows)))) bytes age).

(** ** Registering *)

(** The sequence a new consumer starts at. *)
Definition start_position (start : ConsumerStartPosition) (earliest latest : option Z) (pruned : Z)
    : result StoreError Z :=
  match start with
  | EarliestRetained => Ok (match earliest with Some value => sat_sub value 1 | None => pruned end)
  | CurrentHead => Ok (default pruned latest)
  | After sequence =>
      if sequence <? pruned then Err (ConsumerMustReset earliest latest)
      else if default pruned latest <? sequence then Err (AcknowledgementBeyondHead sequence (default pruned latest))
      else Ok sequence
  end.

Definition create_consumer_inner (now now_after : result StoreError Z) (d : ProcessorDescriptor)
    (stream_id consumer_id : string) (role : ConsumerRole) (start : ConsumerStartPosition) (ttl : Z)
    (credential : option (list byte)) : eff Registry StoreError DurableConsumer :=
  _ ← lift (map_err InvalidConfig (validate_consumer_registration consumer_id ttl));
  instance ← register_processor now d;
  r ← gets id;
  _ ← lift (validate_delivery_stream instance stream_id (registry_delivery r));
  let ttl_ms := ttl / 1000000 in
  _ ← lift (if ttl_ms <=? i64_max then Ok () else Err (Numeric "consumer lease TTL"));
  _ ← (if is_some_and (consumer_row r stream_id consumer_id) (λ _, true)
       then lift (Err (ConsumerExists instance consumer_id)) else lift (Ok ()));
  _ ← lift (match credential with
            | Some credential => map_err InvalidConfig (validate_consumer_credential credential)
            | None => Ok ()
            end);
  let s := registry_delivery r in
  _ ← lift (ensure_required_consumer_retention d stream_id role s);
  stream ← lift (ok_or (streams s !! stream_id) (Sqlx "no rows returned"));
  earliest ← lift (opt_i64_u64 (first_sequence s stream_id) "earliest change sequence");
  latest ← lift (opt_i64_u64 (head_sequence s stream_id) "latest change sequence");
  pruned ← lift (i64_u64 (pruned_through_sequence stream) "pruned delivery sequence");
  acknowledged ← lift (start_position start earliest latest pruned);
  at_ms ← lift now;
  expires ← lift (checked_i64 (at_ms + ttl_ms) "consumer lease expiry");
  acknowledged ← lift (u64_i64 acknowledged "acknowledged sequence");
  _ ← (if ttl_ms <=? 0 then lift (Err (Sqlx "CHECK constraint failed: lease_ttl_ms > 0"))
       else modify (put_consumer stream_id consumer_id
              (MkConsumer role ConsumerActive acknowledged acknowledged 0 0 ttl_ms expires at_ms at_ms
                 (credential_hash <$> credential))));
  consumer_after now_after d stream_id consumer_id "created consumer disappeared".

(** ** Leases and sessions *)

(** [UPDATE .. SET lease_expires_at_unix_ms = ? + lease_ttl_ms]. *)
Definition renewed (now : Z) (c : Consumer) : result StoreError Consumer :=
  expires ← column_add now (lease_ttl_ms c) "durable_consumers.lease_expires_at_unix_ms";
  Ok (MkConsumer (consumer_role c) (consumer_state c) (acknowledged_sequence c) (delivered_sequence c)
    (acknowledged_work_blocks c) (lease_generation c) (lease_ttl_ms c) expires (consumer_created_at c) now
    (consumer_credential c)).

Definition is_active (c : Consumer) : bool := bool_decide (consumer_state c = ConsumerActive).

(** The session that holds the lease now. *)
Definition session_holds (generation now : Z) (c : Consumer) : bool :=
  (lease_generation c =? generation) && (now <? lease_expires_at c).

(** An [UPDATE] of one row, and whether it matched. *)
Definition update_consumer (stream_id consumer_id : string) (matches : Consumer → bool)
    (f : Consumer → result StoreError Consumer) : eff Registry StoreError bool :=
  r ← gets id;
  match consumer_row r stream_id consumer_id with
  | Some c =>
      if matches c
      then c ← lift (f c); _ ← modify (put_consumer stream_id consumer_id c); lift (Ok true)
      else lift (Ok false)
  | None => lift (Ok false)
  end.

Definition renew_consumer_in_stream (now now_after : result StoreError Z) (d : ProcessorDescriptor)
    (stream_id consumer_id : string) : eff Registry StoreError DurableConsumer :=
  r ← gets id;
  _ ← lift (validate_delivery_stream (processor_instance d) stream_id (registry_delivery r));
  at_ms ← lift now;
  updated ← update_consumer stream_id consumer_id is_active (renewed at_ms);
  if (updated : bool)
  then consumer_after now_after d stream_id consumer_id "renewed consumer disappeared"
  else
    r ← gets id;
    error ← lift (consumer_state_error_in_stream now_after d stream_id consumer_id r);
    lift (Err error).

Definition acquire_consumer_session_in_stream (now : result StoreError Z) (d : ProcessorDescriptor)
    (stream_id consumer_id : string) : eff Registry StoreError ConsumerSessionLease :=
  let instance := processor_instance d in
  r ← gets id;
  _ ← lift (validate_delivery_stream instance stream_id (registry_delivery r));
  at_ms ← lift now;
  c ← lift (ok_or (consumer_row r stream_id consumer_id) (ConsumerNotFound instance consumer_id));
  _ ← lift (if is_active c then Ok () else Err (ConsumerInactive consumer_id (consumer_state c)));
  generation ← lift (i64_u64 (lease_generation c) "consumer lease generation");
  _ ← lift (if (0 <? generation) && (at_ms <? lease_expires_at c)
            then expires ← i64_u64 (lease_expires_at c) "consumer lease expiry";
                 Err (ConsumerSessionActive consumer_id expires)
            else Ok ());
  next_generation ← lift (checked_sum generation 1 "consumer lease generation");
  next_expiry ← lift (checked_i64 (at_ms + lease_ttl_ms c) "consumer lease expiry");
  stored ← lift (u64_i64 next_generation "consumer lease generation");
  _ ← modify (put_consumer stream_id consumer_id
        (MkConsumer (consumer_role c) (consumer_state c) (acknowledged_sequence c) (delivered_sequence c)
           (acknowledged_work_blocks c) stored (lease_ttl_ms c) next_expiry (consumer_created_at c) at_ms
           (consumer_credential c)));
  expires ← lift (i64_u64 next_expiry "consumer lease expiry");
  lift (Ok (MkSession next_generation expires)).

Definition renew_consumer_session_in_stream (now : result StoreError Z) (stream_id consumer_id : string)
    (generation : Z) : eff Registry StoreError ConsumerSessionLease :=
  at_ms ← lift now;
  stored ← lift (u64_i64 generation "consumer lease generation");
  updated ← update_consumer stream_id consumer_id (λ c, is_active c && session_holds stored at_ms c) (renewed at_ms);
  if (updated : bool)
  then
    r ← gets id;
    c ← lift (ok_or (consumer_row r stream_id consumer_id) (Sqlx "no rows returned"));
    expires ← lift (i64_u64 (lease_expires_at c) "consumer lease expiry");
    lift (Ok (MkSession generation expires))
  else lift (Err (ConsumerSessionLost consumer_id generation)).

Definition consumer_session_is_current_in_stream (now : result StoreError Z) (stream_id consumer_id : string)
    (generation : Z) (r : Registry) : result StoreError bool :=
  match consumer_row r stream_id consumer_id with
  | None => Ok false
  | Some c =>
      if negb (is_active c) then Ok false
      else
        stored ← i64_u64 (lease_generation c) "consumer lease generation";
        if negb (stored =? generation) then Ok false
        else now ← now; Ok (now <? lease_expires_at c)
  end.

Definition release_consumer_session_in_stream (now : result StoreError Z) (stream_id consumer_id : string)
    (generation : Z) : eff Registry StoreError bool :=
  at_ms ← lift now;
  stored ← lift (u64_i64 generation "consumer lease generation");
  update_consumer stream_id consumer_id (λ c, lease_generation c =? stored)
    (λ c, Ok (MkConsumer (consumer_role c) (consumer_state c) (acknowledged_sequence c) (delivered_sequence c)
      (acknowledged_work_blocks c) (lease_generation c) (lease_ttl_ms c) at_ms (consumer_created_at c) at_ms
      (consumer_credential c))).

(** ** The delivered watermark *)

(** The row a delivery is recorded on. *)
Definition records_delivery (session : option Z) (now : Z) (c : Consumer) : bool :=
  is_active c && match session with Some generation => session_holds generation now c | None => true end.

Definition raised (sequence : Z) (c : Consumer) : Consumer :=
  MkConsumer (consumer_role c) (consumer_state c) (acknowledged_sequence c)
    (Z.max (delivered_sequence c) sequence) (acknowledged_work_blocks c) (lease_generation c) (lease_ttl_ms c)
    (lease_expires_at c) (consumer_created_at c) (consumer_updated_at c) (consumer_credential c).

(** The write, once the writer is held: the row may have changed since it was
    read. *)
Definition raise_delivered (now : result StoreError Z) (stream_id consumer_id : string) (session : option Z)
    (sequence : Z) : eff Registry StoreError bool :=
  at_ms ← lift now;
  update_consumer stream_id consumer_id (records_delivery session at_ms) (λ c, Ok (raised sequence c)).

Definition record_consumer_delivery_in_stream (now now_write : result StoreError Z) (stream_id consumer_id : string)
    (session : option Z) (sequence : Z) : eff Registry StoreError bool :=
  session ← lift (match session with
    | Some generation => Some <$> u64_i64 generation "consumer lease generation"
    | None => Ok None
    end);
  sequence ← lift (u64_i64 sequence "delivered sequence");
  at_ms ← lift now;
  r ← gets id;
  match consumer_row r stream_id consumer_id with
  | None => lift (Ok false)
  | Some c =>
      if negb (records_delivery session at_ms c) then lift (Ok false)
      else if sequence <=? delivered_sequence c then lift (Ok true)
      else raise_delivered now_write stream_id consumer_id session sequence
  end.

(** ** Reading changes *)

Definition consumer_read_is_retained (instance stream_id consumer_id : string) (after : Z) (r : Registry)
    : result StoreError bool :=
  c ← ok_or (consumer_row r stream_id consumer_id) (ConsumerNotFound instance consumer_id);
  _ ← (if is_active c then Ok () else Err (ConsumerInactive consumer_id (consumer_state c)));
  acknowledged ← i64_u64 (acknowledged_sequence c) "consumer acknowledged sequence";
  if after <? acknowledged then Err (AcknowledgementBackwards after acknowledged)
  else
    pruned ← pruned_through (registry_delivery r) stream_id;
    Ok (pruned <=? acknowledged).

(** Mark a consumer that pruning overtook. *)
Definition mark_overtaken (now : result StoreError Z) (stream_id consumer_id : string)
    : eff Registry StoreError bool :=
  at_ms ← lift now;
  r ← gets id;
  update_consumer stream_id consumer_id
    (λ c, is_active c && is_some_and (streams (registry_delivery r) !! stream_id)
       (λ stream, acknowledged_sequence c <? pruned_through_sequence stream))
    (λ c, Ok (with_consumer_state c ConsumerResetRequired at_ms)).

(** The loop; one more pass each time the row changed between the read and
    the write. *)
Fixpoint consumer_changes_loop (fuel : nat) (now : result StoreError Z) (d : ProcessorDescriptor) (stream_id : string)
    (chain_id : ChainId) (consumer_id : string) (after : Z) (limit : nat)
    : eff Registry StoreError (option (list ChangeRecord)) :=
  match fuel with
  | O => lift (Ok None)
  | S fuel =>
      r ← gets id;
      retained ← lift (consumer_read_is_retained (processor_instance d) stream_id consumer_id after r);
      if (retained : bool)
      then lift (
        _ ← validate_change_limit limit;
        rows ← change_page_rows (registry_delivery r) stream_id after limit;
        Some <$> decode_change_rows rows d chain_id)
      else
        marked ← mark_overtaken now stream_id consumer_id;
        if (marked : bool)
        then
          r ← gets id;
          bounds ← lift (change_bounds_in_stream d stream_id (registry_delivery r));
          lift (Err (ConsumerMustReset (bounds_earliest <$> bounds) (bounds_latest <$> bounds)))
        else consumer_changes_loop fuel now d stream_id chain_id consumer_id after limit
  end.

Definition consumer_changes_after_in_stream (fuel : nat) (now : result StoreError Z) (d : ProcessorDescriptor)
    (stream_id : string) (chain_id : ChainId) (consumer_id : string) (after : Z) (limit : nat)
    : eff Registry StoreError (option (list ChangeRecord)) :=
  r ← gets id;
  _ ← lift (validate_delivery_stream (processor_instance d) stream_id (registry_delivery r));
  consumer_changes_loop fuel now d stream_id chain_id consumer_id after limit.

Definition consumer_changes_in_stream (fuel : nat) (now : result StoreError Z) (d : ProcessorDescriptor)
    (stream_id : string) (chain_id : ChainId) (consumer_id : string) (limit : nat)
    : eff Registry StoreError (option (list ChangeRecord)) :=
  r ← gets id;
  c ← lift (consumer_in_stream now d stream_id consumer_id r);
  c ← lift (ok_or c (ConsumerNotFound (processor_instance d) consumer_id));
  consumer_changes_after_in_stream fuel now d stream_id chain_id consumer_id (durable_acknowledged c) limit.

(** ** Acknowledging *)

Definition backfill_progress_kind : string := "system.backfill_progress".
Definition backfill_complete_kind : string := "system.backfill_complete".

(** What a sequence above the acknowledged one must meet. *)
Definition check_acknowledgement (s : Delivery) (stream_id : string) (c : Consumer) (sequence : Z)
    : result StoreError () :=
  head ← opt_i64_u64 (head_sequence s stream_id) "delivery stream head";
  let head_z := default 0 head in
  if head_z <? sequence then Err (AcknowledgementBeyondHead sequence head_z)
  else
    delivered ← i64_u64 (delivered_sequence c) "consumer delivered sequence";
    if delivered <? sequence then Err (AcknowledgementBeyondDelivered sequence delivered)
    else
      stream ← ok_or (streams s !! stream_id) (Sqlx "no rows returned");
      match stream_kind stream with
      | StreamBackfill =>
          _ ← u64_i64 sequence "acknowledged delivery sequence";
          let kind := (λ row, change_kind (row_change row)) <$>
            List.head (List.filter (λ row, row_stream_sequence row =? sequence) (stream_rows s stream_id)) in
          if is_some_and kind (λ kind, bool_decide (kind = backfill_progress_kind)
                                       || bool_decide (kind = backfill_complete_kind))
          then Ok () else Err (AcknowledgementNotBoundary sequence)
      | StreamLive =>
          block ← live_commit_continues_after s stream_id sequence;
          match block with
          | Some block => Err (AcknowledgementMidBlock sequence block)
          | None => Ok ()
          end
      | StreamCanonical => Ok ()
      end.

(** The work of the progress records between two sequences. *)
Definition acknowledged_work (s : Delivery) (stream_id : string) (acknowledged sequence : Z) : result StoreError Z :=
  acknowledged ← u64_i64 acknowledged "prior acknowledged delivery sequence";
  sequence ← u64_i64 sequence "acknowledged delivery sequence";
  fold_result (λ total row,
      blocks ← backfill_progress_blocks (change_payload (row_change row));
      checked_sum total blocks "newly acknowledged work blocks") 0
    (List.filter (λ row, (acknowledged <? row_stream_sequence row) && (row_stream_sequence row <=? sequence)
       && bool_decide (change_kind (row_change row) = backfill_progress_kind)) (stream_rows s stream_id)).

Definition acknowledged_row (sequence work expires now : Z) (c : Consumer) : Consumer :=
  MkConsumer (consumer_role c) (consumer_state c) sequence (Z.max (delivered_sequence c) sequence) work
    (lease_generation c) (lease_ttl_ms c) expires (consumer_created_at c) now (consumer_credential c).

(** The transaction: whether the row was written; [false] is a session that
    ended and repeats its acknowledgement. *)
Definition acknowledge_row (now : result StoreError Z) (instance stream_id consumer_id : string)
    (session : option Z) (sequence : Z) : eff Registry StoreError bool :=
  r ← gets id;
  let s := registry_delivery r in
  at_ms ← lift now;
  c ← lift (ok_or (consumer_row r stream_id consumer_id) (ConsumerNotFound instance consumer_id));
  _ ← lift (if is_active c then Ok () else Err (ConsumerInactive consumer_id (consumer_state c)));
  acknowledged ← lift (i64_u64 (acknowledged_sequence c) "consumer acknowledged sequence");
  held ← lift (match session with
    | None => Ok true
    | Some generation =>
        stored ← i64_u64 (lease_generation c) "consumer lease generation";
        if negb (stored =? generation) || (lease_expires_at c <=? at_ms)
        then if (stored =? generation) && (sequence =? acknowledged) then Ok false
             else Err (ConsumerSessionLost consumer_id generation)
        else Ok true
    end);
  if negb (held : bool) then lift (Ok false)
  else
    work ← lift (i64_u64 (acknowledged_work_blocks c) "consumer acknowledged work blocks");
    _ ← lift (if sequence <? acknowledged then Err (AcknowledgementBackwards sequence acknowledged)
              else if acknowledged <? sequence then check_acknowledgement s stream_id c sequence else Ok ());
    newly ← lift (acknowledged_work s stream_id acknowledged sequence);
    work ← lift (checked_sum work newly "consumer acknowledged work blocks");
    stored_sequence ← lift (u64_i64 sequence "acknowledged sequence");
    stored_work ← lift (u64_i64 work "consumer acknowledged work blocks");
    updated ← match session with
      | Some generation =>
          expires ← lift (checked_i64 (at_ms + lease_ttl_ms c) "consumer lease expiry");
          stored ← lift (u64_i64 generation "consumer lease generation");
          update_consumer stream_id consumer_id (λ c, is_active c && session_holds stored at_ms c)
            (λ c, Ok (acknowledged_row stored_sequence stored_work expires at_ms c))
      | None =>
          update_consumer stream_id consumer_id (λ _, true)
            (λ c, Ok (acknowledged_row stored_sequence stored_work (lease_expires_at c) at_ms c))
      end;
    if (updated : bool) then lift (Ok true)
    else lift (Err (match session with
      | Some generation => ConsumerSessionLost consumer_id generation
      | None => StoreInvariant "acknowledged consumer disappeared during update"
      end)).

Definition acknowledge_consumer_in_stream_inner (now now_after : result StoreError Z) (d : ProcessorDescriptor)
    (stream_id consumer_id : string) (session : option Z) (sequence : Z) : eff Registry StoreError DurableConsumer :=
  r ← gets id;
  _ ← lift (validate_delivery_stream (processor_instance d) stream_id (registry_delivery r));
  _ ← atomic (acknowledge_row now (processor_instance d) stream_id consumer_id session sequence);
  consumer_after now_after d stream_id consumer_id "acknowledged consumer disappeared".

(** The entry points. *)
Definition acknowledge_consumer_in_stream now now_after d stream_id consumer_id sequence :=
  acknowledge_consumer_in_stream_inner now now_after d stream_id consumer_id None sequence.
Definition acknowledge_consumer_session_in_stream now now_after d stream_id consumer_id generation sequence :=
  acknowledge_consumer_in_stream_inner now now_after d stream_id consumer_id (Some generation) sequence.

(** ** Revoking and resetting *)

Definition transition_consumer (now now_after : result StoreError Z) (d : ProcessorDescriptor)
    (consumer_id : string) (state : ConsumerState) : eff Registry StoreError DurableConsumer :=
  let stream_id := default_delivery_stream_id d in
  at_ms ← lift now;
  updated ← update_consumer stream_id consumer_id (λ _, true) (λ c, Ok (with_consumer_state c state at_ms));
  if (updated : bool)
  then consumer_after now_after d stream_id consumer_id "transitioned consumer disappeared"
  else lift (Err (ConsumerNotFound (processor_instance d) consumer_id)).

Definition revoke_consumer now now_after d consumer_id :=
  transition_consumer now now_after d consumer_id ConsumerRevoked.
Definition reset_consumer_required now now_after d consumer_id :=
  transition_consumer now now_after d consumer_id ConsumerResetRequired.
End consumers.
