(* ===== verification/Pruning.v ===== *)
(** * Pruning the change log

    Models [prune_delivery_changes_in_stream] and
    [prune_changes_before_in_stream] of [crates/store-sqlite/src/lib.rs]:
    how far a delivery policy lets a stream be pruned, and the transaction
    that deletes the prefix, moves the pruned mark and the retained bytes and
    resumes a paused lane. *)
From Stdlib Require Import ZArith Lia Strings.Byte.
From stdpp Require Import gmap strings list list_numbers fin_maps sorting.
From S2P Require Import Prelude Bytes Chain Capability Provenance Frame Durable Descriptor Delta Rows Delivery Checkpoints Capacity Registration Consumers.

Record ChangePruneOutcome := MkPruneOutcome {
  requested_before : Z;
  effective_before : Z;
  deleted : Z;
}.

(** ** Statements *)

Definition sequences (rows : list ChangeRow) : list Z := row_stream_sequence <$> rows.
Definition rows_below (s : Delivery) (stream_id : string) (before : Z) : list ChangeRow :=
  List.filter (λ row, row_stream_sequence row <? before) (stream_rows s stream_id).
Definition block_rows (s : Delivery) (stream_id : string) (block : Z) : list ChangeRow :=
  List.filter (λ row, ref_number (row_block row) =? block) (stream_rows s stream_id).

(** SQLite's two-argument [MIN]: [NULL] when either is. *)
Definition sql_min (a b : option Z) : option Z :=
  match a, b with Some a, Some b => Some (Z.min a b) | _, _ => None end.

(** [DELIVERY_AGE_PRUNE_CANDIDATE]. *)
Definition age_candidate (s : Delivery) (stream_id : string) (block_cutoff created_cutoff : Z) : option Z :=
  let rows := stream_rows s stream_id in
  let oldest := maximum (sequences (List.filter (λ row, row_created_at row <=? created_cutoff) rows)) in
  let window := match minimum (sequences (List.filter (λ row, block_cutoff <? ref_number (row_block row)) rows)) with
    | Some first => first - 1
    | None => i64_max
    end in
  match sql_min oldest (Some window) with
  | None => None
  | Some bound => maximum (sequences (List.filter (λ row, (ref_number (row_block row) <=? block_cutoff)
      && (row_stream_sequence row <=? bound)) rows))
  end.

(** [DELIVERY_PRESSURE_PRUNE_CANDIDATE]. *)
Definition pressure_candidate (s : Delivery) (stream_id : string) (block_cutoff : Z) : option Z :=
  maximum (sequences (List.filter (λ row, ref_number (row_block row) <=? block_cutoff) (stream_rows s stream_id))).

(** [SELECT COUNT] over a limited subquery; a negative limit is none. *)
Definition limited (limit : Z) (n : nat) : Z :=
  if limit <? 0 then Z.of_nat n else Z.min limit (Z.of_nat n).

Definition eligible_blocks (s : Delivery) (stream_id : string) (before limit : Z) : Z :=
  limited limit (length (remove_dups ((λ row, ref_number (row_block row)) <$> rows_below s stream_id before))).

(** The least first free sequence of an active required consumer. *)
Definition protected_sequence (stream_id : string) (a : Admission) : option Z :=
  minimum ((λ c, if acknowledged_sequence c =? i64_max then acknowledged_sequence c else acknowledged_sequence c + 1) <$>
    (List.filter (required_active stream_id) (map_to_list (consumers a))).*2).

(** ** The transaction *)

(** A block the boundary falls into is kept whole. *)
Definition keep_trailing_block (s : Delivery) (stream_id : string) (effective : Z) : result StoreError Z :=
  if 0 <? effective then
    before ← u64_i64 effective "effective prune sequence";
    match last (sort_by (λ x y, row_stream_sequence x <=? row_stream_sequence y) (rows_below s stream_id before)) with
    | None => Ok effective
    | Some trailing =>
        let rows := sequences (block_rows s stream_id (ref_number (row_block trailing))) in
        block_first ← ok_or (minimum rows) (Sqlx "unexpected null; try decoding as an Option");
        block_last ← ok_or (maximum rows) (Sqlx "unexpected null; try decoding as an Option");
        block_last ← i64_u64 block_last "logical block end";
        if effective <=? block_last
        then block_first ← i64_u64 block_first "logical block start"; Ok (Z.min effective block_first)
        else Ok effective
    end
  else Ok effective.

(** How far the request, the consumers and the newest change let it go. *)
Definition effective_boundary (stream_id : string) (requested : Z) (r : Registry) : result StoreError Z :=
  let s := registry_delivery r in
  effective ← match protected_sequence stream_id (registry_admission r) with
    | Some protected => protected ← i64_u64 protected "protected sequence"; Ok (Z.min requested protected)
    | None => Ok requested
    end;
  effective ← match head_sequence s stream_id with
    | Some latest => latest ← i64_u64 latest "latest sequence"; Ok (Z.min effective latest)
    | None => Ok effective
    end;
  keep_trailing_block s stream_id effective.

(** The rows, their outbox entries, the pruned mark and the bytes. *)
Definition delete_prefix (stream_id : string) (before : Z) (s : Delivery) : result StoreError Delivery :=
  let doomed := rows_below s stream_id before in
  let keep row := negb (bool_decide (row_stream row = stream_id) && (row_stream_sequence row <? before)) in
  bytes ← sql_sum (change_bytes ∘ row_change <$> doomed);
  let log := List.filter keep (change_log s) in
  let gone := row_sequence <$> doomed in
  let streams' := match streams s !! stream_id with
    | None => streams s
    | Some stream => <[stream_id := MkStream (stream_instance stream) (stream_kind stream) (next_sequence stream)
        (match maximum (sequences doomed) with
         | Some through => Z.max (pruned_through_sequence stream) through
         | None => pruned_through_sequence stream
         end) (live_bytes stream - bytes)]> (streams s)
    end in
  Ok (MkDelivery streams' log (last_rowid s)
    (List.filter (λ entry, negb (bool_decide (entry.2 ∈ gone))) (sink_outbox s)) (parked s)).

Section prune.
Context (now : result StoreError Z).

(** Resume a paused lane that drained to the resume mark. *)
Definition resume_drained (d : ProcessorDescriptor) (instance : string) (live : Z) (a : Admission)
    : result StoreError Admission :=
  live ← i64_u64 live "delivery live bytes";
  if live <=? delivery_resume_mark (delivery_max_bytes (lifecycle_delivery (lifecycle d)))
  then
    now ← now;
    Ok (MkAdmission (alter (λ state, if bool_decide (run_state state = Paused) then MkRunState Running None now else state)
          instance (run_states a)) (consumers a) (subscriptions a))
  else Ok a.

Definition prune_changes_before_in_stream (d : ProcessorDescriptor) (stream_id : string) (requested : Z)
    : eff Registry StoreError ChangePruneOutcome :=
  let instance := processor_instance d in
  r ← gets id;
  _ ← lift (validate_delivery_stream instance stream_id (registry_delivery r));
  transact (λ r,
    effective ← effective_boundary stream_id requested r;
    before ← u64_i64 effective "effective prune sequence";
    s ← delete_prefix stream_id before (registry_delivery r);
    stream ← ok_or (streams s !! stream_id) (Sqlx "no rows returned");
    a ← resume_drained d instance (live_bytes stream) (registry_admission r);
    Ok (with_admission (with_delivery r s) a,
        MkPruneOutcome requested effective (Z.of_nat (length (rows_below (registry_delivery r) stream_id before))))).

(** ** The policy *)

Definition terminal_subscription (sub : Subscription) : bool :=
  bool_decide (subscription_state sub ∈ [Draining; CompleteReclaimable; SubCancelled; SubFailed]).

(** What a policy asks to prune: nothing, nothing yet, or a boundary. *)
Inductive PruneRequest := NothingToPrune | BatchTooSmall (candidate_before : Z) | PruneBefore (requested : Z).

(** The boundary of one pruning batch. *)
Definition batch_boundary (s : Delivery) (stream_id : string) (maximum_changes eligible candidate_before : Z)
    : result StoreError Z :=
  if maximum_changes <? eligible
  then
    before ← u64_i64 candidate_before "delivery prune candidate";
    offset ← u64_i64 (sat_sub maximum_changes 1) "delivery prune batch offset";
    row ← ok_or (sort_by (λ x y, row_stream_sequence x <=? row_stream_sequence y)
        (rows_below s stream_id before) !! Z.to_nat offset) (Sqlx "no rows returned");
    let block := ref_number (row_block row) in
    block_end ← ok_or (maximum (sequences (List.filter (λ row, ref_number (row_block row) =? block)
        (rows_below s stream_id before)))) (Sqlx "unexpected null; try decoding as an Option");
    block_end ← i64_u64 block_end "delivery block end";
    Ok (sat_add block_end 1)
  else Ok candidate_before.

Definition prune_request (d : ProcessorDescriptor) (stream_id : string) (finalized_through : BlockNumber)
    (r : Registry) : result StoreError PruneRequest :=
  let s := registry_delivery r in
  let a := registry_admission r in
  let policy := lifecycle_delivery (lifecycle d) in
  let rules := pruning policy in
  stream ← ok_or (streams s !! stream_id) (Sqlx "no rows returned");
  let terminal := is_some_and (subscriptions a !! stream_id) terminal_subscription in
  let block_cutoff := sat_sub finalized_through (retain_finalized_blocks rules) in
  let retained_age_seconds :=
    if is_backfill stream || bool_decide (delivery_mode policy = UntilAcknowledged)
    then retain_acknowledged_seconds rules else delivery_max_age_seconds policy in
  age_ms ← ok_or (if retained_age_seconds * 1000 <=? u64_max then Some (retained_age_seconds * 1000) else None)
    (Numeric "delivery replay age");
  at_ms ← now;
  age_ms ← u64_i64 age_ms "delivery replay age";
  created_cutoff ← ok_or (if i64_min <=? at_ms - age_ms then Some (at_ms - age_ms) else None)
    (Numeric "delivery replay cutoff");
  run ← ok_or (run_states a !! processor_instance d) (Sqlx "no rows returned");
  bytes ← i64_u64 (live_bytes stream) "delivery stream bytes";
  let pressure := (delivery_max_bytes policy <? bytes) || bool_decide (run_state run = Paused) in
  cutoff ← u64_i64 block_cutoff "delivery block cutoff";
  match (if pressure then pressure_candidate s stream_id cutoff else age_candidate s stream_id cutoff created_cutoff) with
  | None => Ok NothingToPrune
  | Some candidate =>
      candidate ← i64_u64 candidate "delivery prune candidate";
      let candidate_before := sat_add candidate 1 in
      let changes_limit := Z.max (minimum_batch_changes rules) (sat_add (maximum_delete_changes rules) 1) in
      before ← u64_i64 candidate_before "delivery prune candidate";
      let eligible := limited (Z.min i64_max changes_limit) (length (rows_below s stream_id before)) in
      if negb terminal && negb pressure && (eligible <? minimum_batch_changes rules)
         && (eligible_blocks s stream_id before (Z.min i64_max (minimum_batch_blocks rules)) <? minimum_batch_blocks rules)
      then Ok (BatchTooSmall candidate_before)
      else requested ← batch_boundary s stream_id (maximum_delete_changes rules) eligible candidate_before;
           Ok (PruneBefore requested)
  end.

Definition prune_delivery_changes_in_stream (d : ProcessorDescriptor) (stream_id : string)
    (finalized_through : BlockNumber) : eff Registry StoreError ChangePruneOutcome :=
  r ← gets id;
  _ ← lift (validate_delivery_stream (processor_instance d) stream_id (registry_delivery r));
  request ← lift (prune_request d stream_id finalized_through r);
  match request with
  | NothingToPrune => lift (Ok (MkPruneOutcome 0 0 0))
  | BatchTooSmall candidate_before => lift (Ok (MkPruneOutcome candidate_before candidate_before 0))
  | PruneBefore requested => prune_changes_before_in_stream d stream_id requested
  end.
End prune.
