(* ===== verification/Lane.v ===== *)
(** * The lane of one processor

    The tables [crates/store-sqlite/src/lib.rs] keeps for one processor
    instance, composed of the components before it: the rows, the output
    metadata and the working state ([Tables]), the cursor, coverage, applied
    blocks, the undo journal, pending deltas, artifacts, checkpoints and,
    shared with other instances, the registry with delivery and admission.
    Also the reads and small writes several operations share: cursors
    ([processor_cursor_by_instance], [upsert_cursor]), coverage heads
    ([finalized_through], [highest_coverage_cursor]) and the journal's
    encoding ([decode_undo]).

    postcard, serde_json, hex and blake3 are parameters, collected in
    [Wire]. *)
From Stdlib Require Import ZArith Lia Strings.Byte.
From stdpp Require Import gmap strings list list_numbers fin_maps sorting.
From S2P Require Import Prelude Bytes Chain Capability Provenance Frame Durable Descriptor Delta Rows Delivery Ranges Artifacts Checkpoints Capacity Registration.

(** ** The encodings *)

Class Wire := {
  wire_pe : Type;
  wire_he : Type;
  wire_blake3 :: Blake3;
  wire_hex :: Hex wire_he;
  wire_cursor :: Postcard wire_pe ProcessorCursor;
  wire_delta :: Postcard wire_pe EncodedDelta;
  wire_undo :: Postcard wire_pe UndoRecord;
  wire_metadata :: Postcard wire_pe UndoMetadata;
  wire_header :: Postcard wire_pe StateSnapshotHeader;
  wire_count :: Postcard wire_pe N;
  wire_entry :: Postcard wire_pe StateSnapshotEntry;
  wire_snapshot :: Postcard wire_pe StateSnapshot;
  wire_json :: DescriptorJson;
  wire_descriptor :: DescriptorParse;
  (** [postcard::take_from_bytes]. *)
  take_undo : list byte → result wire_pe (UndoRecord * list byte);
  take_metadata : list byte → result wire_pe (UndoMetadata * list byte);
  show_pe : wire_pe → string;
  show_durable : DurableError wire_pe → string;
  show_cursor : CursorError wire_he wire_pe → string;
}.

(** What postcard and hex document: a value decodes from its encoding,
    [take_from_bytes] stops at its end, [from_bytes] ignores what follows,
    and a list is never encoded as nothing. *)
Class WireLaws `{!Wire} : Prop := {
  wire_cursor_laws :: PostcardLaws wire_pe ProcessorCursor;
  wire_hex_laws :: HexLaws wire_he;
  wire_json_laws :: DescriptorJsonLaws;
  take_undo_encoded u bytes rest : to_allocvec u = Ok bytes → take_undo (bytes ++ rest) = Ok (u, rest);
  take_metadata_encoded m bytes rest :
    to_allocvec m = Ok bytes → take_metadata (bytes ++ rest) = Ok (m, rest);
  metadata_nonempty (m : UndoMetadata) bytes : to_allocvec m = Ok bytes → bytes ≠ [];
  undo_from_prefix bytes : from_bytes (A:=UndoRecord) bytes = (fst <$> take_undo bytes);
}.

(** ** The tables *)

(** A [processor_cursors] row. *)
Record CursorRow := MkCursorRow {
  cursor_text : string;
  cursor_row_block : Z;
  cursor_row_hash : BlockHash;
  cursor_row_finality : Finality;
  cursor_row_sequence : Z;
}.

(** A [processor_coverage] row, by block number. *)
Record Covered := MkCovered {
  covered_hash : BlockHash;
  covered_parent : option BlockHash;
  covered_finality : Finality;
}.

(** An [applied_blocks] row, by number and hash. *)
Record Applied := MkApplied { delta_checksum_of : BlockHash; applied_at : Z }.

(** An [undo_journal] row, by number and hash. *)
Record JournalRow := MkJournal { encoded_undo : list byte; journal_finalized : bool }.

(** A [finalized_coverage_segments] row. *)
Record CoverageSegment := MkCoverageSegment {
  segment_start : Z;
  segment_end : Z;
  segment_end_hash : BlockHash;
}.

Record Lane := MkLane {
  lane_tables : Tables;
  lane_cursor : option CursorRow;
  lane_coverage : gmap Z Covered;
  lane_applied : gmap (Z * BlockHash) Applied;
  lane_journal : gmap (Z * BlockHash) JournalRow;
  lane_pending : gmap (Z * BlockHash) (list byte);
  lane_intervals : list BlockRange;
  lane_segments : list CoverageSegment;
  lane_owners : gmap Z Z;
  lane_artifacts : ArtifactStore;
  lane_checkpoints : Checkpoints;
  lane_registry : Registry;
}.

Definition with_tables (l : Lane) x : Lane :=
  MkLane x (lane_cursor l) (lane_coverage l) (lane_applied l) (lane_journal l) (lane_pending l)
    (lane_intervals l) (lane_segments l) (lane_owners l) (lane_artifacts l) (lane_checkpoints l) (lane_registry l).
Definition with_cursor (l : Lane) x : Lane :=
  MkLane (lane_tables l) x (lane_coverage l) (lane_applied l) (lane_journal l) (lane_pending l)
    (lane_intervals l) (lane_segments l) (lane_owners l) (lane_artifacts l) (lane_checkpoints l) (lane_registry l).
Definition with_coverage (l : Lane) x : Lane :=
  MkLane (lane_tables l) (lane_cursor l) x (lane_applied l) (lane_journal l) (lane_pending l)
    (lane_intervals l) (lane_segments l) (lane_owners l) (lane_artifacts l) (lane_checkpoints l) (lane_registry l).
Definition with_applied (l : Lane) x : Lane :=
  MkLane (lane_tables l) (lane_cursor l) (lane_coverage l) x (lane_journal l) (lane_pending l)
    (lane_intervals l) (lane_segments l) (lane_owners l) (lane_artifacts l) (lane_checkpoints l) (lane_registry l).
Definition with_journal (l : Lane) x : Lane :=
  MkLane (lane_tables l) (lane_cursor l) (lane_coverage l) (lane_applied l) x (lane_pending l)
    (lane_intervals l) (lane_segments l) (lane_owners l) (lane_artifacts l) (lane_checkpoints l) (lane_registry l).
Definition with_pending (l : Lane) x : Lane :=
  MkLane (lane_tables l) (lane_cursor l) (lane_coverage l) (lane_applied l) (lane_journal l) x
    (lane_intervals l) (lane_segments l) (lane_owners l) (lane_artifacts l) (lane_checkpoints l) (lane_registry l).
Definition with_owners (l : Lane) x : Lane :=
  MkLane (lane_tables l) (lane_cursor l) (lane_coverage l) (lane_applied l) (lane_journal l) (lane_pending l)
    (lane_intervals l) (lane_segments l) x (lane_artifacts l) (lane_checkpoints l) (lane_registry l).
Definition with_artifacts (l : Lane) x : Lane :=
  MkLane (lane_tables l) (lane_cursor l) (lane_coverage l) (lane_applied l) (lane_journal l) (lane_pending l)
    (lane_intervals l) (lane_segments l) (lane_owners l) x (lane_checkpoints l) (lane_registry l).
Definition with_checkpoints (l : Lane) x : Lane :=
  MkLane (lane_tables l) (lane_cursor l) (lane_coverage l) (lane_applied l) (lane_journal l) (lane_pending l)
    (lane_intervals l) (lane_segments l) (lane_owners l) (lane_artifacts l) x (lane_registry l).
Definition with_registry (l : Lane) x : Lane :=
  MkLane (lane_tables l) (lane_cursor l) (lane_coverage l) (lane_applied l) (lane_journal l) (lane_pending l)
    (lane_intervals l) (lane_segments l) (lane_owners l) (lane_artifacts l) (lane_checkpoints l) x.

Definition lane_delivery (l : Lane) : Delivery := registry_delivery (lane_registry l).
Definition lane_admission (l : Lane) : Admission := registry_admission (lane_registry l).
Definition with_lane_delivery (l : Lane) (s : Delivery) : Lane := with_registry l (with_delivery (lane_registry l) s).
Definition with_lane_admission (l : Lane) (a : Admission) : Lane :=
  with_registry l (with_admission (lane_registry l) a).

(** What the store reads from outside its tables: the clock, the configured
    limits, file sizes, and the artifact totals of the other instances. *)
Record Env := MkEnv {
  env_now : result StoreError Z;
  env_limits : NodeLimits;
  env_database_bytes : result StoreError Z;
  env_wal_bytes : result StoreError Z;
  env_maximum_physical : Z;
  env_physical_reserve : Z;
  env_measured : result StoreError FileSizes;
  env_reconciled : result StoreError FileSizes;
  env_budget : ArtifactStorageBudget;
  env_other_artifacts : list ArtifactTotals;
}.

(** ** Steps on a part of the lane *)

Definition on_tables {A} (f : Tables → result StoreError (Tables * A)) : eff Lane StoreError A :=
  zoom lane_tables with_tables (transact f).
Definition on_delivery {A} (f : Delivery → result StoreError (Delivery * A)) : eff Lane StoreError A :=
  zoom lane_delivery with_lane_delivery (transact f).
Definition on_artifacts {A} (f : ArtifactStore → result StoreError (ArtifactStore * A)) : eff Lane StoreError A :=
  zoom lane_artifacts with_artifacts (transact f).

Section lane.
Context `{!Wire}.

(** ** Cursors *)

Definition validate_cursor (cursor : ProcessorCursor) (d : ProcessorDescriptor) (delta : EncodedDelta)
    : result StoreError () :=
  if bool_decide (cursor_processor_id cursor ≠ processor_id (descriptor_id d))
     || bool_decide (cursor_processor_version cursor ≠ descriptor_version d)
     || bool_decide (cursor_chain_id cursor ≠ delta_chain_id delta)
     || bool_decide (cursor_block_number cursor ≠ ref_number (delta_block delta))
     || bool_decide (cursor_block_hash cursor ≠ ref_hash (delta_block delta))
  then Err (StoreProcessor CursorMismatch) else Ok ().

Definition encode_cursor (cursor : ProcessorCursor) : result StoreError OpaqueCursor :=
  map_err (StoreCursor ∘ show_cursor) (OpaqueCursor.encode CursorProcessor cursor).

Definition processor_cursor_by_instance (l : Lane) : result StoreError (option ProcessorCursor) :=
  match lane_cursor l with
  | None => Ok None
  | Some row =>
      opaque ← map_err (StoreCursor ∘ show_cursor) (OpaqueCursor.parse (PE:=wire_pe) (cursor_text row));
      cursor ← map_err (StoreCursor ∘ show_cursor) (OpaqueCursor.decode opaque CursorProcessor);
      Ok (Some cursor)
  end.

Definition upsert_cursor (cursor : ProcessorCursor) (encoded : string) (l : Lane) : result StoreError Lane :=
  number ← u64_i64 (cursor_block_number cursor) "block_number";
  sequence ← u64_i64 (cursor_sequence cursor) "processor sequence";
  Ok (with_cursor l (Some (MkCursorRow encoded number (cursor_block_hash cursor) (cursor_finality cursor) sequence))).

(** ** Coverage *)

(** [SELECT .. WHERE segment_end >= ? ORDER BY segment_end LIMIT 1]. *)
Definition segment_above (number : Z) (l : Lane) : option CoverageSegment :=
  head (sort_by (λ x y, segment_end x <=? segment_end y)
    (List.filter (λ s, number <=? segment_end s) (lane_segments l))).

Definition compacted_coverage_contains (number : BlockNumber) (hash : BlockHash) (l : Lane)
    : result StoreError bool :=
  n ← u64_i64 number "block_number";
  match segment_above n l with
  | None => Ok false
  | Some segment =>
      start ← i64_u64 (segment_start segment) "compact segment start";
      if number <? start then Ok false
      else
        stop ← i64_u64 (segment_end segment) "compact segment end";
        if (stop =? number) && bool_decide (segment_end_hash segment ≠ hash)
        then Err (CanonicalConflict number (segment_end_hash segment) hash)
        else Ok true
  end.

(** [FINALIZED_EXACT_COVERAGE_HEAD]. *)
Definition finalized_exact (l : Lane) : option Z :=
  maximum (List.filter (λ e, bool_decide (covered_finality e.2 = Finalized)) (map_to_list (lane_coverage l))).*1.
(** [FINALIZED_COMPACT_COVERAGE_HEAD]. *)
Definition finalized_compact (l : Lane) : option Z := maximum (range_end <$> lane_intervals l).

(** [Option::max]: [None] is below any value. *)
Definition option_max (a b : option Z) : option Z :=
  match a, b with Some a, Some b => Some (Z.max a b) | Some a, None => Some a | None, b => b end.

Definition finalized_through (l : Lane) : result StoreError (option BlockNumber) :=
  match option_max (finalized_exact l) (finalized_compact l) with
  | None => Ok None
  | Some value => n ← i64_u64 value "finalized block number"; Ok (Some n)
  end.

(** [EXACT_COVERAGE_HEAD]. *)
Definition exact_head (l : Lane) : option (Z * Covered) := last (map_entries Z.le (lane_coverage l)).
(** [COMPACT_COVERAGE_HEAD]. *)
Definition compact_head (l : Lane) : option CoverageSegment :=
  head (sort_by (λ x y, segment_end y <=? segment_end x) (lane_segments l)).

Definition highest_coverage_cursor (d : ProcessorDescriptor) (chain_id : ChainId) (l : Lane)
    : result StoreError (option ProcessorCursor) :=
  let head :=
    match exact_head l, compact_head l with
    | Some (number, exact), Some segment =>
        if segment_end segment <=? number then Some (number, covered_hash exact, covered_finality exact)
        else Some (segment_end segment, segment_end_hash segment, Finalized)
    | None, Some segment => Some (segment_end segment, segment_end_hash segment, Finalized)
    | Some (number, exact), None => Some (number, covered_hash exact, covered_finality exact)
    | None, None => None
    end in
  match head with
  | None => Ok None
  | Some (number, hash, finality) =>
      number ← i64_u64 number "coverage block number";
      Ok (Some (MkProcessorCursor (processor_id (descriptor_id d)) (descriptor_version d) chain_id number hash
        finality number))
  end.

(** The level coverage has at a height. *)
Definition covered_at (l : Lane) (number : BlockNumber) : option Finality :=
  covered_finality <$> lane_coverage l !! number.

(** ** The journal *)

Definition decode_undo (bytes : list byte) : result StoreError (UndoRecord * option UndoMetadata) :=
  '(record, trailer) ← map_err (Encoding ∘ show_pe) (take_undo bytes);
  match trailer with
  | [] => Ok (record, None)
  | _ =>
      '(metadata, rest) ← map_err (Encoding ∘ show_pe) (take_metadata trailer);
      match rest with
      | [] => Ok (record, Some metadata)
      | _ => Err (Encoding "undo record has trailing bytes after its metadata")
      end
  end.

(** ** Delivery *)

Definition delivery_enabled (d : ProcessorDescriptor) : bool :=
  negb (bool_decide (delivery_mode (lifecycle_delivery (lifecycle d)) = DeliveryNone)).
End lane.
