(* ===== verification/Apply.v ===== *)
(** * Applying a block

    Models [apply_with_origin_to_stream] of [crates/store-sqlite/src/lib.rs],
    the whole of it: validation, registration, the idempotence and conflict
    checks, the reducer over its overlay, admission against the delivery and
    physical limits, and the transaction that writes rows, window pruning,
    the undo record, coverage, the cursor, parked or published changes,
    backfill progress and a checkpoint. *)
From Stdlib Require Import ZArith Lia Strings.Byte.
From stdpp Require Import gmap strings list list_numbers fin_maps sorting.
From S2P Require Import Prelude Bytes Chain Capability Provenance Frame Durable Descriptor Delta Rows Overlay Inverse Window Delivery Ranges Artifacts Checkpoints Capacity Registration Lane.

Record Processor := MkProcessor {
  processor_descriptor : ProcessorDescriptor;
  processor_reduce : ProcessorCursor → EncodedDelta → Reduction;
}.

Inductive ApplyOutcome :=
  | BlockApplied (processor_cursor : ProcessorCursor) (first_change last_change : option Z)
  | AlreadyApplied.

(** ** Backfill streams *)

Definition backfill_delivery_origin (stream_id : string) (a : Admission) : result StoreError DeliveryOrigin :=
  sub ← ok_or (subscriptions a !! stream_id) (Sqlx "no rows returned");
  revision ← i64_u64 (subscription_revision sub) "publication revision";
  Ok (MkOrigin (match subscription_mode sub with
                | FillMissing => OriginHistoricalBackfill
                | Recompute => OriginRecompute
                end) (subscription_id sub) revision).

Definition progress_range (through processed : Z) (r : SubscriptionRange) : result StoreError SubscriptionRange :=
  if (sub_from_block r <=? through) && (through <=? sub_to_block r)
  then
    committed ← column_add (committed_blocks r) processed "backfill_subscription_ranges.committed_blocks";
    Ok (MkSubscriptionRange (sub_from_block r) (sub_to_block r) "running" committed)
  else Ok r.

Definition record_backfill_progress (now : result StoreError Z) (stream_id : string)
    (through_block processed_blocks published : Z) (a : Admission) : result StoreError Admission :=
  now ← now;
  processed ← u64_i64 processed_blocks "processed backfill blocks";
  published ← u64_i64 published "published backfill domain changes";
  match subscriptions a !! stream_id with
  | None => Ok a
  | Some sub =>
      work ← column_add (processed_work_blocks sub) processed "backfill_subscriptions.processed_work_blocks";
      changes ← column_add (published_domain_changes sub) published "backfill_subscriptions.published_domain_changes";
      through ← u64_i64 through_block "progress through block";
      ranges ← fold_result (λ done r, r ← progress_range through processed r; Ok (done ++ [r])) []
        (subscription_ranges sub);
      Ok (MkAdmission (run_states a) (Capacity.consumers a)
        (<[stream_id := MkSubscription (subscription_id sub) (subscription_mode sub) (subscription_revision sub)
            (subscription_state sub) (effective_block_limit sub) (effective_byte_limit sub)
            (resume_below_ratio_millionths sub) work changes now ranges]> (subscriptions a)))
  end.

Definition backfill_progress_change (from_block through_block processed_blocks : Z) : DomainChange :=
  MkChange "system.backfill_progress" (be_bytes 8 through_block) Upsert
    (be_bytes 8 from_block ++ be_bytes 8 through_block ++ be_bytes 8 processed_blocks).

(** ** Measures and marks *)

(** The sum over the admitted changes. *)
Definition incoming_bytes (changes : list DomainChange) : result StoreError Z :=
  fold_result (λ total change,
    bytes ← checked_u64 (change_bytes change) "incoming delivery change bytes";
    checked_u64 (total + bytes) "incoming delivery change bytes") 0 changes.

(** The rowid of [deferred_changes]. *)
Definition next_deferred_id (s : Delivery) : Z := default 0 (maximum (deferred_id <$> parked s)) + 1.

Definition levels_below (a b : Finality) : bool := negb (Finality.satisfies a b).

Section apply.
Context `{!Wire} (env : Env).

(** [postcard::to_allocvec]. *)
Definition encode_undo (u : UndoRecord) : result StoreError (list byte) :=
  map_err (Encoding ∘ show_pe) (to_allocvec u).

Definition delivery_of (cursor : ProcessorCursor) (publish_changes : bool) (d : ProcessorDescriptor) : bool :=
  levels_below (cursor_finality cursor) (PublicationPolicy.first_level (publication d))
  && delivery_enabled d && publish_changes.

(** The block was applied before: only its artifact and its pending delta
    are settled. *)
Definition settle_applied (d : ProcessorDescriptor) (instance : string) (cursor : ProcessorCursor)
    (delta : EncodedDelta) (artifact_encoded : option (list byte)) : eff Lane StoreError ApplyOutcome :=
  atomic (
    _ ← (match artifact_encoded with
         | Some encoded =>
             at_ms ← lift (env_now env);
             on_artifacts (unit_step (stage_or_retain_processor_artifact show_durable d instance at_ms (env_now env)
               delta encoded (cursor_finality cursor)))
         | None => lift (Ok ())
         end);
    number ← lift (u64_i64 (cursor_block_number cursor) "block_number");
    _ ← modify (λ l, with_pending l (delete (number, cursor_block_hash cursor) (lane_pending l)));
    _ ← (if is_some_and artifact_encoded (λ _, true)
         then (l ← gets id;
               lift (enforce_artifact_storage_capacity (env_budget env)
                 (artifact_totals (lane_artifacts l) :: env_other_artifacts env)))
         else lift (Ok ()));
    lift (Ok AlreadyApplied)).

(** What is known before the transaction. *)
Record Prepared := MkPrepared {
  prepared_batch : MutationBatch;
  prepared_deferred : bool;
  prepared_progress : bool;
  prepared_incoming : Z;
  prepared_advances : bool;
  prepared_cursor : ProcessorCursor;
  prepared_undo : option UndoRecord;
  prepared_origin : DeliveryOrigin;
  prepared_text : string;
}.

(** Reduction, admission and the undo record. *)
Definition prepare (p : Processor) (instance : string) (cursor : ProcessorCursor) (delta : EncodedDelta)
    (publish_changes : bool) (stream_id : string) (origin_override : option DeliveryOriginKind)
    (artifact_encoded : option (list byte)) : eff Lane StoreError Prepared :=
  let d := processor_descriptor p in
  l ← gets id;
  batch ← lift (reduce_block (lane_tables l) (processor_reduce p cursor delta));
  let defer := delivery_of cursor publish_changes d in
  let admitted := if delivery_enabled d && publish_changes then changes batch else [] in
  progress ← lift (if delivery_enabled d then delivery_stream_is_backfill stream_id (lane_delivery l) else Ok false);
  bytes ← lift (incoming_bytes admitted);
  incoming ← lift (if progress
    then checked_u64 (bytes + 32) "incoming progress boundary bytes" else Ok bytes);
  _ ← when (delivery_enabled d) (zoom lane_admission with_lane_admission
    (enforce_delivery_capacity (env_limits env) (env_database_bytes env) (env_wal_bytes env) (env_now env)
       d instance (lane_delivery l) stream_id incoming (if progress then 1 else 0)));
  let reversible := negb (bool_decide (cursor_finality cursor = Finalized)) in
  prior ← lift (processor_cursor_by_instance l);
  let advances := bool_decide (descriptor_mode d = OrderedState)
    || is_none_or prior (λ prior, cursor_block_number prior <=? cursor_block_number cursor) in
  committed ← lift (if advances then Ok cursor
    else ok_or prior (StoreInvariant "a non-advancing block must have a prior cursor"));
  undo ← lift (if reversible
    then
      inverse ← (if delivery_enabled d && publish_changes then build_inverse_changes batch else Ok []);
      Ok (Some (MkUndo (mutations batch) inverse prior (delta_block delta) (cursor_finality cursor)))
    else Ok None);
  undo_bytes ← lift (match undo with Some undo => encode_undo undo | None => Ok [] end);
  _ ← (if retains_processor_output d || is_some_and artifact_encoded (λ _, true)
       then
         output_bytes ← lift (if retains_processor_output d
           then estimated_retained_mutation_bytes (mutations batch) true else Ok 0);
         let artifact_bytes := match artifact_encoded with
           | Some encoded => sat_add (Z.of_nat (length encoded)) 256
           | None => 0
           end in
         lift (enforce_physical_store_capacity (env_maximum_physical env) (env_physical_reserve env)
           (env_measured env) (env_reconciled env)
           (sat_add (sat_add (sat_add (sat_add output_bytes (Z.of_nat (length undo_bytes))) incoming)
              artifact_bytes) 256))
       else lift (Ok ()));
  encoded ← lift (encode_cursor cursor);
  a ← gets lane_admission;
  origin ← lift (if progress then backfill_delivery_origin stream_id a
    else Ok (if bool_decide (origin_override = Some OriginLiveRecovery)
             then origin_live_recovery instance else origin_live instance));
  lift (Ok (MkPrepared batch defer progress incoming advances committed undo origin (expose encoded))).

(** The rows, the output window and the undo record. *)
Definition write_rows (d : ProcessorDescriptor) (cursor : ProcessorCursor) (delta : EncodedDelta)
    (p : Prepared) : eff Lane StoreError () :=
  let reversible := is_some_and (prepared_undo p) (λ _, true) in
  l ← gets id;
  let entities := if reversible && retains_processor_output d
    then entity_meta_images (lane_tables l) (mutations (prepared_batch p)) else [] in
  _ ← on_tables (unit_step (λ t, apply_mutations (λ _, env_now env) t (mutations (prepared_batch p)) false
    (retains_processor_output d) (delta_block delta) (cursor_finality cursor)));
  pruned ← on_tables (λ t, prune_output_window (env_now env) d t (delta_block delta));
  match prepared_undo p with
  | None => lift (Ok ())
  | Some undo =>
      let undo := MkUndo (undo_mutations undo ++ pruned_mutations pruned) (inverse_changes undo)
        (prior_cursor undo) (undo_block undo) (undo_finality undo) in
      undo_bytes ← lift (encode_undo undo);
      metadata_bytes ← lift (map_err (Encoding ∘ show_pe)
        (to_allocvec (MkUndoMetadata (entities ++ pruned_entities pruned))));
      number ← lift (u64_i64 (cursor_block_number cursor) "block_number");
      l ← gets id;
      match lane_journal l !! (number, cursor_block_hash cursor) with
      | Some _ => lift (Err (Sqlx "UNIQUE constraint failed: undo_journal"))
      | None => modify (λ l, with_journal l (<[(number, cursor_block_hash cursor) :=
                  MkJournal (undo_bytes ++ metadata_bytes) false]> (lane_journal l)))
      end
  end.

(** The applied block, its coverage, its owner and the cursor. *)
Definition write_coverage (cursor : ProcessorCursor) (delta : EncodedDelta) (p : Prepared)
    : eff Lane StoreError () :=
  number ← lift (u64_i64 (cursor_block_number cursor) "block_number");
  at_ms ← lift (env_now env);
  let key := (number, cursor_block_hash cursor) in
  l ← gets id;
  _ ← match lane_applied l !! key with
      | Some _ => lift (Err (Sqlx "UNIQUE constraint failed: applied_blocks"))
      | None => modify (λ l, with_applied l (<[key := MkApplied (delta_checksum delta) at_ms]> (lane_applied l)))
      end;
  _ ← modify (λ l, with_coverage l (<[number := MkCovered (cursor_block_hash cursor)
        (Some (ref_parent_hash (delta_block delta)))
        (match lane_coverage l !! number with
         | Some old => finality_max (covered_finality old) (cursor_finality cursor)
         | None => cursor_finality cursor
         end)]> (lane_coverage l)));
  _ ← when (negb (prepared_progress p)) (zoom lane_owners with_owners (transact (unit_step (λ owners,
        extend_shared_coverage_owner_range owners
          (MkBlockRange (cursor_block_number cursor) (cursor_block_number cursor))))));
  _ ← modify (λ l, with_pending l (delete key (lane_pending l)));
  when (prepared_advances p) (transact (unit_step (upsert_cursor cursor (prepared_text p)))).

(** Parking, releasing older parked changes, publishing. *)
Definition write_changes (d : ProcessorDescriptor) (instance : string) (cursor : ProcessorCursor)
    (delta : EncodedDelta) (sink_ids : list string) (publish_changes : bool) (stream_id : string)
    (p : Prepared) : eff Lane StoreError (option Z * option Z) :=
  let batch := prepared_batch p in
  let first_level := PublicationPolicy.first_level (publication d) in
  let published := if prepared_deferred p then []
    else if delivery_enabled d && publish_changes then changes batch else [] in
  number ← lift (u64_i64 (cursor_block_number cursor) "block_number");
  at_ms ← lift (env_now env);
  _ ← when (prepared_deferred p) (
    chain ← lift (u64_i64 (cursor_chain_id cursor) "chain_id");
    bytes ← lift (u64_i64 (prepared_incoming p) "deferred delivery bytes");
    modify (λ l, with_lane_delivery l (with_parked (lane_delivery l)
      (parked (lane_delivery l) ++
        [MkDeferred (next_deferred_id (lane_delivery l)) instance stream_id chain number (cursor_block_hash cursor)
           (delta_block delta) (prepared_origin p) (changes batch) sink_ids bytes]))));
  _ ← (if levels_below Unattested first_level
          && bool_decide (delivery_ordering d = Canonical)
          && delivery_enabled d && publish_changes && Finality.satisfies (cursor_finality cursor) first_level
       then match checked_sub (cursor_block_number cursor) 1 with
            | Some below => on_delivery (release_deferred_changes instance below (cursor_finality cursor) at_ms)
            | None => lift (Ok false)
            end
       else lift (Ok false));
  '(first, last) ← (if delivery_enabled d
    then on_delivery (λ s, append_changes instance stream_id (prepared_origin p) (cursor_chain_id cursor)
           (delta_block delta) (cursor_finality cursor) DirApply sink_ids at_ms s published)
    else lift (Ok (None, None)));
  if prepared_progress p
  then
    '(progress_first, progress_last) ← on_delivery (λ s, append_changes instance stream_id (prepared_origin p)
      (cursor_chain_id cursor) (delta_block delta) Finalized DirApply [] at_ms s
      [backfill_progress_change (cursor_block_number cursor) (cursor_block_number cursor) 1]);
    _ ← zoom lane_admission with_lane_admission (transact (unit_step (record_backfill_progress (env_now env) stream_id
      (ref_number (delta_block delta)) 1 (Z.of_nat (length published)))));
    lift (Ok (match first with Some _ => first | None => progress_first end,
              match progress_last with Some _ => progress_last | None => last end))
  else lift (Ok (first, last)).

Definition checkpoint_step (d : ProcessorDescriptor) (instance : string) (cursor : ProcessorCursor)
    : eff Lane StoreError () :=
  transact (unit_step (λ l,
    s ← create_recovery_checkpoint show_pe (env_now env) d instance cursor
      (keep (lifecycle_checkpoint (lifecycle d))) (processor_state (lane_tables l)) (lane_checkpoints l);
    Ok (with_checkpoints l s))).

Definition automatic_checkpoints (d : ProcessorDescriptor) : bool :=
  bool_decide (checkpoint_mode (lifecycle_checkpoint (lifecycle d)) = Automatic).

(** The transaction. *)
Definition commit_block (d : ProcessorDescriptor) (instance : string) (cursor : ProcessorCursor)
    (delta : EncodedDelta) (sink_ids : list string) (publish_changes : bool) (stream_id : string)
    (artifact_encoded : option (list byte)) (p : Prepared) : eff Lane StoreError ApplyOutcome :=
  atomic (
    _ ← (match artifact_encoded with
         | Some encoded =>
             at_ms ← lift (env_now env);
             on_artifacts (unit_step (stage_or_retain_processor_artifact show_durable d instance at_ms (env_now env)
               delta encoded (cursor_finality cursor)))
         | None => lift (Ok ())
         end);
    _ ← write_rows d cursor delta p;
    _ ← write_coverage cursor delta p;
    '(first, last) ← write_changes d instance cursor delta sink_ids publish_changes stream_id p;
    _ ← when (bool_decide (cursor_finality cursor = Finalized) && automatic_checkpoints d)
      (checkpoint_step d instance (prepared_cursor p));
    _ ← (if is_some_and artifact_encoded (λ _, true)
         then (l ← gets id;
               lift (enforce_artifact_storage_capacity (env_budget env)
                 (artifact_totals (lane_artifacts l) :: env_other_artifacts env)))
         else lift (Ok ()));
    lift (Ok (BlockApplied (prepared_cursor p) first last))).

Definition apply_with_origin_to_stream (p : Processor) (cursor : ProcessorCursor) (delta : EncodedDelta)
    (sink_ids : list string) (publish_changes : bool) (stream_id : string)
    (origin_override : option DeliveryOriginKind) : eff Lane StoreError ApplyOutcome :=
  let d := processor_descriptor p in
  _ ← lift (map_err StoreProcessor (EncodedDelta.validate delta d));
  _ ← lift (validate_cursor cursor d delta);
  artifact_encoded ← lift (
    if bool_decide (artifact_mode (lifecycle_artifacts (lifecycle d)) = ArtifactNone) then Ok None
    else Some <$> map_err StoreProcessor (EncodedDelta.encode_durable show_durable delta));
  instance ← zoom lane_registry with_registry (register_processor (env_now env) d);
  l ← gets id;
  _ ← lift (if delivery_enabled d then validate_delivery_stream instance stream_id (lane_delivery l) else Ok ());
  number ← lift (u64_i64 (cursor_block_number cursor) "block_number");
  let applied := lane_applied l !! (number, cursor_block_hash cursor) in
  if is_some_and applied (λ row, bool_decide (delta_checksum_of row ≠ delta_checksum delta))
  then lift (Err (ConflictingApply (cursor_block_number cursor)))
  else
    known ← lift (if is_some_and applied (λ _, true) then Ok true
      else compacted_coverage_contains (cursor_block_number cursor) (cursor_block_hash cursor) l);
    if (known : bool) then settle_applied d instance cursor delta artifact_encoded
    else
      _ ← lift (match lane_coverage l !! number with
                | Some covered =>
                    if bool_decide (covered_hash covered ≠ cursor_block_hash cursor)
                    then Err (CanonicalConflict (cursor_block_number cursor) (covered_hash covered)
                      (cursor_block_hash cursor))
                    else Ok ()
                | None => Ok ()
                end);
      prepared ← prepare p instance cursor delta publish_changes stream_id origin_override artifact_encoded;
      commit_block d instance cursor delta sink_ids publish_changes stream_id artifact_encoded prepared.

(** The entry points. *)
Definition apply (p : Processor) (cursor : ProcessorCursor) (delta : EncodedDelta) (sink_ids : list string)
    : eff Lane StoreError ApplyOutcome :=
  apply_with_origin_to_stream p cursor delta sink_ids true (default_delivery_stream_id (processor_descriptor p)) None.

Definition apply_live_recovery (p : Processor) (cursor : ProcessorCursor) (delta : EncodedDelta)
    (sink_ids : list string) : eff Lane StoreError ApplyOutcome :=
  if bool_decide (cursor_finality cursor ≠ Finalized)
  then lift (Err (InvalidConfig "live recovery publication must be finalized"))
  else apply_with_origin_to_stream p cursor delta sink_ids true
         (default_delivery_stream_id (processor_descriptor p)) (Some OriginLiveRecovery).
End apply.
