(* ===== verification/Revert.v ===== *)
(** * Undoing blocks and raising their level

    Models [undo], [mark_finalized], [mark_attested] and
    [prune_finalized_undo] of [crates/store-sqlite/src/lib.rs]. *)
From Stdlib Require Import ZArith Lia Strings.Byte.
From stdpp Require Import gmap strings list list_numbers fin_maps sorting.
From S2P Require Import Prelude Bytes Chain Capability Provenance Frame Durable Descriptor Delta Rows Overlay Inverse Window Delivery Ranges Artifacts Checkpoints Capacity Registration Lane Apply.

Record UndoOutcome := MkUndoOutcome {
  restored_mutations : Z;
  undo_first_change : option Z;
  undo_last_change : option Z;
}.

Definition UNDO_PRUNE_BATCH : nat := N.to_nat 10000.

(** [FINALIZED_OUTPUT_PROMOTION] and [ATTESTED_OUTPUT_PROMOTION]. *)
Definition promote_output (level : Finality) (through : Z) (t : Tables) : Tables :=
  with_entities t (entities t)
    ((λ m, if (meta_block_number m <=? through) && levels_below (meta_finality m) level
           then MkEntityMeta (meta_block_number m) (meta_block_timestamp m) level (written_at_unix_ms m) (value_bytes m)
           else m) <$> output_entity_meta t).

(** [ATTESTED_COVERAGE_PROMOTION] and the coverage update of
    [mark_finalized]. *)
Definition due_coverage (level : Finality) (through : Z) (e : Z * Covered) : bool :=
  (e.1 <=? through) && levels_below (covered_finality e.2) level.

Definition promote_coverage (level : Finality) (through : Z) (m : gmap Z Covered) : gmap Z Covered :=
  map_imap (λ n c, Some (if due_coverage level through (n, c)
    then MkCovered (covered_hash c) (covered_parent c) level else c)) m.

Definition promoted_rows (level : Finality) (through : Z) (m : gmap Z Covered) : Z :=
  Z.of_nat (length (List.filter (due_coverage level through) (map_to_list m))).

(** Rows of [FINALIZED_UNDO_PROMOTION]. *)
Definition due_journal (through : Z) (e : (Z * BlockHash) * JournalRow) : bool :=
  (e.1.1 <=? through) && negb (journal_finalized e.2).

Definition promote_journal (through : Z) (m : gmap (Z * BlockHash) JournalRow) : gmap (Z * BlockHash) JournalRow :=
  map_imap (λ k row, Some (if due_journal through (k, row) then MkJournal (encoded_undo row) true else row)) m.

(** The newest unfinalized journal row at or below a height. *)
Definition finality_context (through : Z) (l : Lane) : option JournalRow :=
  snd <$> head (sort_by (λ x y : (Z * BlockHash) * JournalRow, y.1.1 <=? x.1.1)
    (List.filter (due_journal through) (map_to_list (lane_journal l)))).

(** Finalized records a height lets go of: all but the safety depth, at most
    one batch, oldest first. *)
Definition prunable (retained_from : Z) (e : (Z * BlockHash) * JournalRow) : bool :=
  journal_finalized e.2 && (e.1.1 <? retained_from).

Definition prune_finalized_undo (d : ProcessorDescriptor) (through : BlockNumber) (l : Lane)
    : result StoreError Lane :=
  through ← u64_i64 through "block_number";
  let retained_from :=
    match undo_mode (lifecycle_undo (lifecycle d)) with
    | UndoNone => Z.min i64_max (through + 1)
    | Unfinalized => Z.max i64_min (through - Z.min i64_max (safety_blocks (lifecycle_undo (lifecycle d))))
    end in
  let numbers := merge_sort Z.le ((λ e, e.1.1) <$> List.filter (prunable retained_from) (map_to_list (lane_journal l))) in
  let limit := default retained_from (numbers !! UNDO_PRUNE_BATCH) in
  Ok (with_journal l (base.filter (λ e, prunable limit e = false) (lane_journal l))).

Definition finality_change (through : Z) : DomainChange :=
  MkChange "system.finality" (be_bytes 8 through) Upsert (be_bytes 8 through).

Section revert.
Context `{!Wire} (env : Env).

(** Take a journal row apart from the error that finalized or missing blocks
    give. *)
Definition undo_row (number : Z) (block_number : BlockNumber) (hash : BlockHash) (l : Lane)
    : result StoreError JournalRow :=
  match lane_journal l !! (number, hash) with
  | None =>
      match lane_coverage l !! number with
      | Some covered =>
          if bool_decide (covered_hash covered = hash) && bool_decide (covered_finality covered = Finalized)
          then Err (FinalizedUndo block_number) else Err (UndoNotFound block_number)
      | None => Err (UndoNotFound block_number)
      end
  | Some row => if journal_finalized row then Err (FinalizedUndo block_number) else Ok row
  end.

(** The coverage row of one block. *)
Definition covers_block (number : Z) (hash : BlockHash) (l : Lane) : option Covered :=
  match lane_coverage l !! number with
  | Some covered => if bool_decide (covered_hash covered = hash) then Some covered else None
  | None => None
  end.

(** The four deletes. *)
Definition forget_block (number : Z) (hash : BlockHash) : eff Lane StoreError () :=
  _ ← modify (λ l, with_coverage l
        (match covers_block number hash l with Some _ => delete number (lane_coverage l) | None => lane_coverage l end));
  _ ← modify (λ l, with_applied l (delete (number, hash) (lane_applied l)));
  _ ← on_artifacts (unit_step (λ s, delete_candidate_row s (number, hash)));
  modify (λ l, with_journal l (delete (number, hash) (lane_journal l))).

(** Parked changes are dropped, published ones inverted. *)
Definition retract_changes (d : ProcessorDescriptor) (instance : string) (chain_id : ChainId) (number : Z)
    (hash : BlockHash) (undo : UndoRecord) (level : Finality) (sink_ids : list string)
    : eff Lane StoreError (option Z * option Z) :=
  if negb (delivery_enabled d) then lift (Ok (None, None))
  else
    l ← gets id;
    let own row := bool_decide (deferred_instance row = instance) && (deferred_number row =? number)
      && bool_decide (deferred_hash row = hash) in
    _ ← modify (λ l, with_lane_delivery l (with_parked (lane_delivery l)
          (List.filter (λ row, negb (own row)) (parked (lane_delivery l)))));
    if existsb own (parked (lane_delivery l)) then lift (Ok (None, None))
    else
      at_ms ← lift (env_now env);
      on_delivery (λ s, append_changes instance (default_delivery_stream_id d) (origin_live instance) chain_id
        (undo_block undo) level DirUndo sink_ids at_ms s (inverse_changes undo)).

Definition restore_cursor (d : ProcessorDescriptor) (chain_id : ChainId) (undo : UndoRecord)
    : eff Lane StoreError () :=
  l ← gets id;
  restored ← lift (if bool_decide (descriptor_mode d = BlockLocal)
    then highest_coverage_cursor d chain_id l else Ok (prior_cursor undo));
  match restored with
  | Some prior =>
      encoded ← lift (encode_cursor prior);
      transact (unit_step (upsert_cursor prior (expose encoded)))
  | None => modify (λ l, with_cursor l None)
  end.

Definition undo (d : ProcessorDescriptor) (chain_id : ChainId) (block_number : BlockNumber)
    (block_hash : BlockHash) (sink_ids : list string) : eff Lane StoreError UndoOutcome :=
  let instance := processor_instance d in
  l ← gets id;
  number ← lift (u64_i64 block_number "block_number");
  row ← lift (undo_row number block_number block_hash l);
  '(undo, metadata) ← lift (decode_undo (encoded_undo row));
  let level := match covers_block number block_hash l with
    | Some covered => finality_max (covered_finality covered) (undo_finality undo)
    | None => undo_finality undo
    end in
  let retain := retains_processor_output d in
  let metadata := if retain then metadata else None in
  through ← lift (
    if is_some_and metadata (λ metadata, existsb (λ image,
         negb (bool_decide (meta_finality (image_meta image) = Finalized))) (undo_entities metadata))
    then finalized_through l else Ok None);
  atomic (
    _ ← on_tables (unit_step (λ t, apply_mutations (λ _, env_now env) t (undo_mutations undo) true retain
          (undo_block undo) (undo_finality undo)));
    _ ← match metadata with
        | Some metadata => on_tables (unit_step (λ t,
            restore_entity_metadata (covered_at l) through t (undo_entities metadata)))
        | None => lift (Ok ())
        end;
    _ ← forget_block number block_hash;
    _ ← restore_cursor d chain_id undo;
    '(first, last) ← retract_changes d instance chain_id number block_hash undo level sink_ids;
    lift (Ok (MkUndoOutcome (Z.of_nat (length (undo_mutations undo))) first last))).

(** Another block covers the height. *)
Definition coverage_conflict (through : Z) (hash : BlockHash) (l : Lane) : option BlockHash :=
  match lane_coverage l !! through with
  | Some covered => if bool_decide (covered_hash covered ≠ hash) then Some (covered_hash covered) else None
  | None => None
  end.

Definition context_record (through : Z) (l : Lane) : result StoreError (option UndoRecord) :=
  match finality_context through l with
  | None => Ok None
  | Some row => record ← map_err (Encoding ∘ show_pe) (from_bytes (encoded_undo row)); Ok (Some record)
  end.

(** Raise the cursor to the level of its block. *)
Definition raise_cursor (level : Finality) (through : BlockNumber) (cursor : option ProcessorCursor)
    : option ProcessorCursor :=
  match cursor with
  | Some cursor =>
      if (cursor_block_number cursor <=? through) && levels_below (cursor_finality cursor) level
      then Some (with_finality cursor level) else None
  | None => None
  end.

Definition write_raised (raised : option ProcessorCursor) : eff Lane StoreError () :=
  match raised with
  | Some cursor =>
      encoded ← lift (encode_cursor cursor);
      transact (unit_step (upsert_cursor cursor (expose encoded)))
  | None => lift (Ok ())
  end.

(** The [system.finality] marker. *)
Definition publish_marker (d : ProcessorDescriptor) (level : Finality) (through : BlockNumber)
    (cursor : option ProcessorCursor) (context : option UndoRecord) : eff Lane StoreError () :=
  match cursor, context with
  | Some cursor, Some context =>
      at_ms ← lift (env_now env);
      _ ← on_delivery (λ s, append_changes (processor_instance d) (default_delivery_stream_id d)
        (origin_live (processor_instance d)) (cursor_chain_id cursor) (undo_block context) level DirFinalized []
        at_ms s [finality_change through]);
      lift (Ok ())
  | _, _ => lift (Ok ())
  end.

Definition release_held (d : ProcessorDescriptor) (level : Finality) (through : BlockNumber)
    : eff Lane StoreError () :=
  at_ms ← lift (env_now env);
  _ ← on_delivery (release_deferred_changes (processor_instance d) through level at_ms);
  lift (Ok ()).

Definition mark_finalized (d : ProcessorDescriptor) (through : BlockNumber) (hash : BlockHash)
    : eff Lane StoreError Z :=
  let instance := processor_instance d in
  l ← gets id;
  number ← lift (u64_i64 through "block_number");
  _ ← lift (match coverage_conflict number hash l with
            | Some covered => Err (FinalizedCoverageConflict instance through hash covered)
            | None => Ok ()
            end);
  cursor ← lift (processor_cursor_by_instance l);
  context ← lift (context_record number l);
  let rows := Z.of_nat (length (List.filter (due_journal number) (map_to_list (lane_journal l)))) in
  atomic (
    _ ← on_artifacts (promote_processor_artifact_candidates_within_budget show_durable d instance (env_now env)
      (env_budget env) (env_other_artifacts env) through);
    _ ← modify (λ l, with_journal l (promote_journal number (lane_journal l)));
    _ ← transact (unit_step (prune_finalized_undo d through));
    _ ← modify (λ l, with_coverage l (promote_coverage Finalized number (lane_coverage l)));
    _ ← modify (λ l, with_tables l (promote_output Finalized number (lane_tables l)));
    _ ← when (levels_below Unattested (PublicationPolicy.first_level (publication d)) && delivery_enabled d)
          (release_held d Finalized through);
    let raised := raise_cursor Finalized through cursor in
    _ ← write_raised raised;
    _ ← when (delivery_enabled d && (0 <? rows)) (publish_marker d Finalized through cursor context);
    _ ← match (match raised with Some _ => raised | None => cursor end) with
        | Some cursor => when ((0 <? rows) && automatic_checkpoints d) (checkpoint_step env d instance cursor)
        | None => lift (Ok ())
        end;
    lift (Ok rows)).

Definition mark_attested (d : ProcessorDescriptor) (through : BlockNumber) (hash : BlockHash)
    : eff Lane StoreError Z :=
  let instance := processor_instance d in
  l ← gets id;
  number ← lift (u64_i64 through "block_number");
  _ ← lift (match coverage_conflict number hash l with
            | Some covered => Err (AttestedCoverageConflict instance through hash covered)
            | None => Ok ()
            end);
  cursor ← lift (processor_cursor_by_instance l);
  context ← lift (context_record number l);
  let promoted := promoted_rows Attested number (lane_coverage l) in
  atomic (
    _ ← modify (λ l, with_coverage l (promote_coverage Attested number (lane_coverage l)));
    _ ← modify (λ l, with_tables l (promote_output Attested number (lane_tables l)));
    _ ← when (bool_decide (publication d = PublishAttested) && delivery_enabled d) (release_held d Attested through);
    _ ← write_raised (raise_cursor Attested through cursor);
    _ ← when (bool_decide (publication d = PublishUnattested) && delivery_enabled d && (0 <? promoted))
          (publish_marker d Attested through cursor context);
    lift (Ok promoted)).
End revert.
