(* ===== verification/Codec.v ===== *)
(** * A wire format

    An instance of [Wire] that satisfies [WireLaws] for every value: a value
    of a countable type is written as the binary digits of its code, each
    digit a byte, with an end mark. It stands in for postcard where the
    development runs the store on concrete lanes, and shows that what
    [WireLaws] asks of postcard can be had. *)
From Stdlib Require Import ZArith Lia Strings.Byte.
From stdpp Require Import gmap strings list list_numbers fin_maps countable.
From S2P Require Import Prelude Bytes Chain Capability Provenance Frame Durable Descriptor Delta Rows Delivery Checkpoints Registration Lane.

(** ** Countable data *)

#[export] Program Instance Finality_countable : Countable Finality :=
  inj_countable' Finality.as_u8 (λ z, if z =? 0 then Unattested else if z =? 1 then Attested else Finalized) _.
Next Obligation. by intros []. Qed.
#[export] Program Instance ChangeOperation_countable : Countable ChangeOperation :=
  inj_countable' (λ o, match o with Upsert => true | Delete => false end) (λ b : bool, if b then Upsert else Delete) _.
Next Obligation. by intros []. Qed.
#[export] Program Instance DomainChange_countable : Countable DomainChange :=
  inj_countable' (λ c, (change_kind c, change_key c, change_operation c, change_payload c))
    (λ x, MkChange x.1.1.1 x.1.1.2 x.1.2 x.2) _.
Next Obligation. by intros []. Qed.
#[export] Program Instance BlockRef_countable : Countable BlockRef :=
  inj_countable' (λ b, (ref_number b, ref_hash b, ref_parent_hash b, ref_timestamp b))
    (λ x, MkBlockRef x.1.1.1 x.1.1.2 x.1.2 x.2) _.
Next Obligation. by intros []. Qed.
#[export] Program Instance ProcessorCursor_countable : Countable ProcessorCursor :=
  inj_countable' (λ c, (cursor_processor_id c, cursor_processor_version c, cursor_chain_id c,
      cursor_block_number c, cursor_block_hash c, cursor_finality c, cursor_sequence c))
    (λ x, MkProcessorCursor x.1.1.1.1.1.1 x.1.1.1.1.1.2 x.1.1.1.1.2 x.1.1.1.2 x.1.1.2 x.1.2 x.2) _.
Next Obligation. by intros []. Qed.
#[export] Program Instance EncodedDelta_countable : Countable EncodedDelta :=
  inj_countable' (λ d, (processor_id (delta_processor_id d), delta_processor_version d, delta_config_hash d,
      delta_schema_version d, delta_chain_id d, delta_block d, delta_payload d, delta_checksum d))
    (λ x, MkDelta (MkProcessorId x.1.1.1.1.1.1.1) x.1.1.1.1.1.1.2 x.1.1.1.1.1.2 x.1.1.1.1.2 x.1.1.1.2 x.1.1.2 x.1.2 x.2) _.
Next Obligation. by intros [[]]. Qed.
#[export] Program Instance Mutation_countable : Countable Mutation :=
  inj_countable'
    (λ m, match m with
          | MutEntity c k b a => inl (c, k, b, a)
          | MutIndex i k e b a => inr (inl (i, k, e, b, a))
          | MutState n k b a => inr (inr (n, k, b, a))
          end)
    (λ x, match x with
          | inl (c, k, b, a) => MutEntity c k b a
          | inr (inl (i, k, e, b, a)) => MutIndex i k e b a
          | inr (inr (n, k, b, a)) => MutState n k b a
          end) _.
Next Obligation. by intros []. Qed.
#[export] Program Instance EntityMetaImage_countable : Countable EntityMetaImage :=
  inj_countable' (λ i, (image_collection i, image_key i, meta_block_number (image_meta i),
      meta_block_timestamp (image_meta i), meta_finality (image_meta i), written_at_unix_ms (image_meta i),
      value_bytes (image_meta i)))
    (λ x, MkImage x.1.1.1.1.1.1 x.1.1.1.1.1.2 (MkEntityMeta x.1.1.1.1.2 x.1.1.1.2 x.1.1.2 x.1.2 x.2)) _.
Next Obligation. by intros [? ? []]. Qed.
#[export] Instance UndoRecord_eq_dec : EqDecision UndoRecord.
Proof. solve_decision. Defined.
#[export] Instance UndoMetadata_eq_dec : EqDecision UndoMetadata.
Proof. solve_decision. Defined.
#[export] Program Instance UndoRecord_countable : Countable UndoRecord :=
  inj_countable' (λ u, (undo_mutations u, inverse_changes u, prior_cursor u, undo_block u, undo_finality u))
    (λ x, MkUndo x.1.1.1.1 x.1.1.1.2 x.1.1.2 x.1.2 x.2) _.
Next Obligation. by intros []. Qed.
#[export] Program Instance UndoMetadata_countable : Countable UndoMetadata :=
  inj_countable' undo_entities MkUndoMetadata _.
Next Obligation. by intros []. Qed.
#[export] Instance StateSnapshotHeader_eq_dec : EqDecision StateSnapshotHeader.
Proof. solve_decision. Defined.
#[export] Instance StateSnapshotEntry_eq_dec : EqDecision StateSnapshotEntry.
Proof. solve_decision. Defined.
#[export] Program Instance StateSnapshotHeader_countable : Countable StateSnapshotHeader :=
  inj_countable' (λ h, (format_version h, header_instance h, header_descriptor h, header_cursor h))
    (λ x, MkHeader x.1.1.1 x.1.1.2 x.1.2 x.2) _.
Next Obligation. by intros []. Qed.
#[export] Program Instance StateSnapshotEntry_countable : Countable StateSnapshotEntry :=
  inj_countable' (λ e, (entry_namespace e, entry_key e, entry_value e)) (λ x, MkEntry x.1.1 x.1.2 x.2) _.
Next Obligation. by intros []. Qed.

(** ** Digits *)

Fixpoint digits (p : positive) : list byte :=
  match p with xH => [x02] | xO p => x00 :: digits p | xI p => x01 :: digits p end.

Fixpoint read_digits (bytes : list byte) : option (positive * list byte) :=
  match bytes with
  | x02 :: rest => Some (xH, rest)
  | x00 :: rest => '(p, rest) ← read_digits rest; Some (xO p, rest)
  | x01 :: rest => '(p, rest) ← read_digits rest; Some (xI p, rest)
  | _ => None
  end.

Lemma read_digits_app p rest : read_digits (digits p ++ rest) = Some (p, rest).
Proof. induction p as [p IH|p IH|]; cbn; by rewrite ?IH. Qed.

Lemma digits_nonempty p : digits p ≠ [].
Proof. by destruct p. Qed.

Definition write {A} `{Countable A} (a : A) : list byte := digits (encode a).
Definition read {A} `{Countable A} (bytes : list byte) : result string (A * list byte) :=
  ok_or ('(p, rest) ← read_digits bytes; a ← decode p; Some (a, rest)) "unexpected end"%string.

Lemma read_write {A} `{Countable A} (a : A) rest : read (write a ++ rest) = Ok (a, rest).
Proof. unfold read, write. rewrite read_digits_app. cbn. by rewrite decode_encode. Qed.

Definition countable_wire {A} `{Countable A} : Postcard string A :=
  {| to_allocvec := λ a, Ok (write a); from_bytes := λ bytes, fst <$> read bytes |}.

(** A snapshot is its header, the number of its entries and the entries. *)
Fixpoint read_entries (n : nat) (bytes : list byte) : result string (list StateSnapshotEntry) :=
  match n with
  | O => Ok []
  | S n => '(e, rest) ← read bytes; es ← read_entries n rest; Ok (e :: es)
  end.

Definition snapshot_wire : Postcard string StateSnapshot := {|
  to_allocvec := λ s, Ok (write (snapshot_header s) ++ write (N.of_nat (length (snapshot_entries s)))
    ++ concat (write <$> snapshot_entries s));
  from_bytes := λ bytes, '(h, rest) ← read bytes; '(n, rest) ← read (A:=N) rest;
    es ← read_entries (N.to_nat n) rest; Ok (MkSnapshot h es) |}.

(** ** The wire *)

(** Descriptors are written as their place in a table. *)
Definition table_json (table : list ProcessorDescriptor) : DescriptorJson := λ d,
  ok_or ((λ x, write (Z.of_nat x.1)) <$> list_find (d =.) table) "no encoding"%string.
Definition table_parse (table : list ProcessorDescriptor) : DescriptorParse := λ bytes,
  '(i, _) ← read (A:=Z) bytes; ok_or (wire_of <$> table !! Z.to_nat i) "no descriptor"%string.

(** The sum of the bytes. *)
Definition sum_blake3 : Blake3 := λ bytes,
  array_fill 32 (byte_of_Z (Z_sum (byte_Z <$> bytes) mod 256)).

Definition sample_wire (table : list ProcessorDescriptor) : Wire := {|
  wire_pe := string; wire_he := string;
  wire_blake3 := sum_blake3; wire_hex := OpaqueCursor.raw_hex;
  wire_cursor := countable_wire; wire_delta := countable_wire;
  wire_undo := countable_wire; wire_metadata := countable_wire;
  wire_header := countable_wire; wire_count := countable_wire;
  wire_entry := countable_wire; wire_snapshot := snapshot_wire;
  wire_json := table_json table; wire_descriptor := table_parse table;
  take_undo := read; take_metadata := read;
  show_pe := id; show_durable := λ _, "durable"%string; show_cursor := λ _, "cursor"%string;
|}.

Instance table_json_laws table : @DescriptorJsonLaws (table_json table) (table_parse table).
Proof.
  intros d json. unfold descriptor_json, table_json, wire_parse, table_parse.
  destruct (list_find _ table) as [[i d']|] eqn:Hfind; cbn; [|done]. intros [= <-].
  apply list_find_Some in Hfind as (Hi & <- & _).
  rewrite <-(app_nil_r (write _)), read_write. cbn. by rewrite Nat2Z.id, Hi.
Qed.

#[export] Instance sample_wire_laws table : @WireLaws (sample_wire table).
Proof.
  split; cbn.
  - split. intros v payload [= <-]. cbn. by rewrite <-(app_nil_r (write v)), read_write.
  - exact OpaqueCursor.raw_hex_laws.
  - apply table_json_laws.
  - intros u bytes rest [= <-]. apply read_write.
  - intros m bytes rest [= <-]. apply read_write.
  - intros m bytes [= <-]. apply digits_nonempty.
  - done.
Qed.
