(* ===== verification/Samples.v ===== *)
(** * Processors on concrete input

    Serialization of the processors' records in the wire format of [Codec],
    and the processors of [Erc20] and [Blobs] on concrete blocks, on which the
    witnesses of their theorems run. *)
From Stdlib Require Import ZArith Lia Strings.Byte.
From stdpp Require Import gmap strings list list_numbers fin_maps countable.
From S2P Require Import Prelude Bytes Chain Capability Material Provenance Frame Durable Descriptor Delta Rows Scan Overlay Uint256 Processing Fees Blobs Erc20 Lane Codec.

#[export] Existing Instance word_alloy.
#[export] Existing Instance word_alloy_laws.
#[export] Instance word_eq_dec : EqDecision (@alloy word_alloy) := array_eq_dec 32.
#[export] Instance sample_keccak : Keccak256 := λ bytes, sum_blake3 (x01 :: bytes).
#[export] Instance sample_display : Display string := id.
#[export] Existing Instance sum_blake3.
#[export] Existing Instance OpaqueCursor.raw_hex.

Lemma countable_laws {A} `{Countable A} : @PostcardLaws string A countable_wire.
Proof. split. intros v payload [= <-]. cbn. by rewrite <-(app_nil_r (write v)), read_write. Qed.
Lemma countable_total {A} `{Countable A} : @PostcardTotal string A countable_wire.
Proof. split. intros v. by eexists. Qed.

(** ** ERC-20 *)

#[export] Instance TransferEvent_eq_dec : EqDecision TransferEvent.
Proof. solve_decision. Defined.
#[export] Instance TransferDelta_eq_dec : EqDecision TransferDelta.
Proof. solve_decision. Defined.
#[export] Instance TokenBalanceEntity_eq_dec : EqDecision TokenBalanceEntity.
Proof. solve_decision. Defined.
#[export] Program Instance TransferEvent_countable : Countable TransferEvent :=
  inj_countable' (λ e, (event_token e, event_from e, event_to e, event_value e, event_log_index e))
    (λ x, MkTransfer x.1.1.1.1 x.1.1.1.2 x.1.1.2 x.1.2 x.2) _.
Next Obligation. by intros []. Qed.
#[export] Program Instance TransferDelta_countable : Countable TransferDelta :=
  inj_countable' (λ d, (events d, skipped_logs d)) (λ x, MkTransferDelta x.1 x.2) _.
Next Obligation. by intros []. Qed.
#[export] Program Instance TokenBalanceEntity_countable : Countable TokenBalanceEntity :=
  inj_countable' (λ e, (balance_token e, balance_address e, balance e, as_of_block e, balance_block_hash e,
      balance_finality e, coverage_from e, complete e, incomplete_from e, method e))
    (λ x, MkTokenBalance x.1.1.1.1.1.1.1.1.1 x.1.1.1.1.1.1.1.1.2 x.1.1.1.1.1.1.1.2 x.1.1.1.1.1.1.2 x.1.1.1.1.1.2
      x.1.1.1.1.2 x.1.1.1.2 x.1.1.2 x.1.2 x.2) _.
Next Obligation. by intros []. Qed.

#[export] Instance transfer_wire : Postcard string TransferDelta := countable_wire.
#[export] Instance balance_wire : Postcard string TokenBalanceEntity := countable_wire.
#[export] Instance balance_wire_laws : PostcardLaws string TokenBalanceEntity := countable_laws.
#[export] Instance balance_wire_total : PostcardTotal string TokenBalanceEntity := countable_total.

Module Erc20Sample.

Definition token : Address := array_fill 20 x03.
Definition alice : Address := array_fill 20 x01.
Definition bob : Address := array_fill 20 x02.

Definition processor : Erc20BalanceProcessor :=
  MkErc20Processor (MkErc20Config 1 [alice; bob] [token] true) (list_to_set [alice; bob]) {[token]} sample_descriptor.

Definition hash (n : Z) : BlockHash := array_fill 32 (byte_of_Z n).
Definition cursor (n : Z) : ProcessorCursor :=
  MkProcessorCursor (processor_id (descriptor_id sample_descriptor)) (descriptor_version sample_descriptor)
    1 n (hash n) Attested n.
Definition block (n : Z) (events : list TransferEvent) : ProcessorCursor * EncodedDelta :=
  (cursor n, EncodedDelta.new sample_descriptor 1 (MkBlockRef n (hash n) (hash (n - 1)) (n * 12))
     (write (MkTransferDelta events 0))).

(** 100 to Alice, then 40 from Alice to Bob. *)
Definition mint : TransferEvent := MkTransfer token ZERO_ADDRESS alice (word_of 100) 0.
Definition pay : TransferEvent := MkTransfer token alice bob (word_of 40) 0.
Definition blocks : list (ProcessorCursor * EncodedDelta) := [block 1 [mint]; block 2 [pay]].

Definition empty : View := MkView ∅ ∅ ∅ [].
Definition final : View :=
  match reduce_blocks processor blocks empty with Ok v => v | Err _ => empty end.

End Erc20Sample.

Lemma balances_exact_witness :
  reduce_blocks Erc20Sample.processor Erc20Sample.blocks Erc20Sample.empty = Ok Erc20Sample.final ∧
  ∃ row e, view_state Erc20Sample.final !! balance_row Erc20Sample.token Erc20Sample.alice = Some row
    ∧ from_bytes row = Ok e ∧ (incomplete_from e = None → units (balance e) = 60).
Proof.
  assert (reduce_blocks Erc20Sample.processor Erc20Sample.blocks Erc20Sample.empty = Ok Erc20Sample.final) as Hrun.
  { assert (is_ok (reduce_blocks Erc20Sample.processor Erc20Sample.blocks Erc20Sample.empty) = true) as Hok
      by (vm_compute; reflexivity).
    unfold Erc20Sample.final. destruct (reduce_blocks _ _ _); [reflexivity|discriminate Hok]. }
  split; [exact Hrun|].
  pose proof (balances_exact Erc20Sample.processor Erc20Sample.blocks _ _ Erc20Sample.token Erc20Sample.alice
    (λ _ _, lookup_empty _) Hrun ltac:(vm_compute; reflexivity)) as Hexact.
  destruct (view_state Erc20Sample.final !! balance_row Erc20Sample.token Erc20Sample.alice) as [row|].
  - destruct Hexact as (e & He & Hbalance). exists row, e. split; [reflexivity|]. split; [exact He|].
    intros Hnone. rewrite Hnone in Hbalance. rewrite Hbalance. vm_compute. reflexivity.
  - exfalso. revert Hexact. vm_compute. discriminate.
Defined.

Lemma erc20_reduce_exact_witness :
  ∃ changes v', run (erc20_reduce Erc20Sample.processor (Erc20Sample.cursor 1)
    (Erc20Sample.block 1 [Erc20Sample.mint]).2) Erc20Sample.empty = (Ok changes, v').
Proof.
  pose proof (erc20_reduce_exact Erc20Sample.processor (Erc20Sample.cursor 1)
    (Erc20Sample.block 1 [Erc20Sample.mint]).2 (MkTransferDelta [Erc20Sample.mint] 0) Erc20Sample.empty
    (λ _ _, no_account)) as Hexact.
  assert (is_ok (account_block Erc20Sample.processor 1 (λ _ _, no_account) [Erc20Sample.mint]) = true) as Hok
    by (vm_compute; reflexivity).
  change (cursor_block_number (Erc20Sample.cursor 1)) with 1 in Hexact. cbn [events] in Hexact.
  destruct (account_block Erc20Sample.processor 1 _ [Erc20Sample.mint]); [|discriminate Hok].
  destruct Hexact as (changes & v' & Hrun & _); [vm_compute; reflexivity| | |by exists changes, v'].
  - apply (from_to (PostcardLaws:=countable_laws) _ _ eq_refl).
  - intros token address _. reflexivity.
Defined.

(** ** Blobs *)

#[export] Instance BlobsBlockEntity_eq_dec : EqDecision BlobsBlockEntity.
Proof. solve_decision. Defined.
#[export] Instance BlobTransactionEntity_eq_dec : EqDecision BlobTransactionEntity.
Proof. solve_decision. Defined.
#[export] Instance BlobsDelta_eq_dec : EqDecision BlobsDelta.
Proof. solve_decision. Defined.
#[export] Program Instance BlobsBlockEntity_countable : Countable BlobsBlockEntity :=
  inj_countable' (λ b, (block_network b, block_number b, block_hash b, block_parent_hash b, block_timestamp b,
      block_finality b, size_bytes b, (blob_count b, blob_gas_used b, block_excess_blob_gas b, blob_base_fee b,
      execution_base_fee b, block_gas_used b, block_gas_limit b), (execution_burn b, blob_burn b, reserve_fee b,
      block_transaction_count b, block_target_blobs b, block_max_blobs b, transform_version b)))
    (λ x, let '(n, num, h, ph, ts, f, s, (c, g, e, bf, ef, gu, gl), (eb, bb, rf, tc, tb, mb, tv)) := x in
       MkBlobsBlock n num h ph ts f s c g e bf ef gu gl eb bb rf tc tb mb tv) _.
Next Obligation. by intros []. Qed.
#[export] Program Instance BlobTransactionEntity_countable : Countable BlobTransactionEntity :=
  inj_countable' (λ t, (transaction_network t, transaction_block_number t, transaction_block_hash t,
      transaction_hash t, transaction_index t, sender t, (recipient t, versioned_hashes t, transaction_blob_count t,
      total_burn t, transaction_execution_burn t, transaction_blob_burn t)))
    (λ x, let '(n, bn, bh, h, i, s, (r, vh, c, tb, eb, bb)) := x in MkBlobTransaction n bn bh h i s r vh c tb eb bb) _.
Next Obligation. by intros []. Qed.
#[export] Program Instance BlobsDelta_countable : Countable BlobsDelta :=
  inj_countable' (λ d, (delta_block_entity d, delta_transactions d)) (λ x, MkBlobsDelta x.1 x.2) _.
Next Obligation. by intros []. Qed.

#[export] Instance blobs_delta_wire : Postcard string BlobsDelta := countable_wire.
#[export] Instance blobs_block_wire : Postcard string BlobsBlockEntity := countable_wire.
#[export] Instance blob_transaction_wire : Postcard string BlobTransactionEntity := countable_wire.
#[export] Instance blobs_delta_laws : PostcardLaws string BlobsDelta := countable_laws.
#[export] Instance blobs_block_laws : PostcardLaws string BlobsBlockEntity := countable_laws.
#[export] Instance blob_transaction_laws : PostcardLaws string BlobTransactionEntity := countable_laws.
#[export] Instance blobs_block_total : PostcardTotal string BlobsBlockEntity := countable_total.
#[export] Instance blob_transaction_total : PostcardTotal string BlobTransactionEntity := countable_total.

Module BlobsSample.

Definition descriptor : ProcessorDescriptor :=
  MkDescriptor (MkProcessorId "blobs-money") (MkInstanceId "blobs") "1.6.0" hash_zero hash_zero
    (StartBlock 19426589) [blobs_requirement] BlockLocal BlockVersionedIdempotent PublishAttested lifecycle_default
    (MkSchemas 3 "blobs.entity.v4" "blobs.block-bundle.v1").
Definition processor : BlobsProcessor := MkBlobsProcessor descriptor BlobSchedule.mainnet.

(** One transaction with one blob. *)
Definition transaction : TransactionEnvelope :=
  MkTransaction (array_fill 32 x07) 3 0 None (Some (array_fill 20 x01)) (Some (array_fill 20 x02)) (Some 0)
    (Some 21000) (Some (word_of 0)) (Some []) (Some (word_of 10)) (Some (word_of 1)) (Some (word_of 5))
    [array_fill 32 x01] (Some 200).
Definition receipt : ReceiptEnvelope :=
  MkReceipt (array_fill 32 x07) 3 0 None (Some true) (Some 21000) (Some (word_of 7)) (Some 131072)
    (Some (word_of 1)) [].
Definition frame : BlockFrame :=
  MkFrame 1 (MkBlockRef 19426600 (array_fill 32 x09) (array_fill 32 x08) 1710338200) Attested
    (Complete (MkHeader None None None None (Some 30000000) (Some 21000) (Some (word_of 7)) (Some 131072)
       (Some 0) (Some 600) (Some 1) (Some 500)))
    (Complete [transaction]) (Complete [receipt]) (Complete []) (Complete []) (Missing NotRequested)
    (Missing NotRequested) (Missing NotRequested) [] VerificationReport.default.

Definition cursor : ProcessorCursor :=
  MkProcessorCursor "blobs-money" "1.6.0" 1 19426600 (array_fill 32 x09) Attested 19426600.

End BlobsSample.

Example blobs_sample : is_ok (derive BlobsSample.processor BlobsSample.frame) = true.
Proof. vm_compute. reflexivity. Qed.

(** A computation that succeeds has a value. *)
Lemma is_ok_value {E A} (c : result E A) : is_ok c = true → ∃ a, c = Ok a.
Proof. destruct c as [a|]; [by exists a|done]. Qed.

Lemma derive_accounts_witness :
  ∃ delta, derive BlobsSample.processor BlobsSample.frame = Ok delta ∧
    Z_sum (transaction_blob_count <$> delta_transactions delta) = blob_count (delta_block_entity delta).
Proof.
  destruct (is_ok_value (derive BlobsSample.processor BlobsSample.frame)) as [delta Hok]; [vm_compute; reflexivity|].
  exists delta. split; [exact Hok|].
  refine (proj1 (derive_accounts BlobsSample.processor BlobsSample.frame delta _ Hok)).
  intros header [= <-]. cbn. split; intros gas [= <-]; uints.
Defined.

Lemma finality_variants_witness :
  ∃ delta delta', blobs_map BlobsSample.processor BlobsSample.frame = Ok delta
    ∧ blobs_map BlobsSample.processor (at_finality BlobsSample.frame Finalized) = Ok delta'
    ∧ finality_variant_checksums BlobsSample.processor delta' = finality_variant_checksums BlobsSample.processor delta.
Proof.
  destruct (is_ok_value (blobs_map BlobsSample.processor BlobsSample.frame)) as [delta Hok]; [vm_compute; reflexivity|].
  destruct (is_ok_value (blobs_map BlobsSample.processor (at_finality BlobsSample.frame Finalized))) as [delta' Hok'];
    [vm_compute; reflexivity|].
  exists delta, delta'. split; [exact Hok|]. split; [exact Hok'|].
  exact (proj1 (finality_variants _ _ _ _ _ Hok Hok')).
Defined.

Lemma blobs_reduce_exact_witness :
  ∃ delta changes v', blobs_map BlobsSample.processor BlobsSample.frame = Ok delta
    ∧ run (blobs_reduce BlobsSample.processor BlobsSample.cursor delta) Erc20Sample.empty = (Ok changes, v').
Proof.
  destruct (is_ok_value (blobs_map BlobsSample.processor BlobsSample.frame)) as [delta Hok]; [vm_compute; reflexivity|].
  destruct (blobs_reduce_exact BlobsSample.processor BlobsSample.frame delta BlobsSample.cursor Erc20Sample.empty Hok)
    as (changes & v' & d & payload & row & Hrun & _).
  - apply blobs_map_Ok in Hok as (d & payload & _ & _ & ->). repeat split.
  - exists delta, changes, v'. split; [exact Hok|exact Hrun].
Defined.

Lemma fake_exponential_ends_witness :
  ∃ r, fake_exponential (H:=word_alloy) (word_of 1) (word_of 10000000) (word_of 3338477) = Some r.
Proof.
  destruct (fake_exponential_ends (H:=word_alloy) (word_of 1) (word_of 10000000) (word_of 3338477)) as (r & Hr & _).
  exists r. exact Hr.
Defined.
