(* ===== verification/Scenario.v ===== *)
(** * A lane on concrete input

    A processor that keeps the last payload it saw in one entity and
    publishes every payload, and the lanes its first blocks lead to. The
    witnesses of the lane's theorems run on them. *)
From Stdlib Require Import ZArith Lia Strings.Byte.
From stdpp Require Import gmap strings list list_numbers fin_maps sorting.
From S2P Require Import Prelude Bytes Chain Capability Provenance Frame Durable Descriptor Delta Rows Overlay Inverse Window Delivery Ranges Artifacts Checkpoints Capacity Registration Lane Apply Revert Codec.

#[export] Instance scenario_wire : Wire := sample_wire [sample_descriptor].
#[export] Instance scenario_wire_laws : WireLaws := sample_wire_laws [sample_descriptor].

Definition scenario_env : Env :=
  MkEnv (Ok 1000) (MkNodeLimits 1000000 1000000 1000000) (Ok 0) (Ok 0) u64_max 0
    (Ok (MkFileSizes 0 0 0)) (Ok (MkFileSizes 0 0 0)) (MkArtifactBudget 1000 1000) [].

Definition scenario_hash (b : byte) : BlockHash := array_fill 32 b.
Definition scenario_block (n : Z) (b parent : byte) : BlockRef :=
  MkBlockRef n (scenario_hash b) (scenario_hash parent) (n * 12).
Definition scenario_delta (n : Z) (b parent : byte) : EncodedDelta :=
  EncodedDelta.new sample_descriptor 1 (scenario_block n b parent) [b].
Definition scenario_cursor (n : Z) (b : byte) (f : Finality) : ProcessorCursor :=
  MkProcessorCursor "erc20" "1.0.0" 1 n (scenario_hash b) f n.

Definition scenario_processor : Processor := MkProcessor sample_descriptor (λ cursor delta,
  let change := MkChange "e" [x01] Upsert (delta_payload delta) in
  Get "c" [x01] (λ _, Put "c" [x01] (delta_payload delta) (Emit change (Done (Ok [change]))))).

Definition empty_lane : Lane :=
  MkLane (MkTables ∅ ∅ ∅ ∅) None ∅ ∅ ∅ ∅ [] [] ∅ no_artifacts (MkCheckpoints [] 0)
    (MkRegistry ∅ ∅ (MkDelivery ∅ [] 0 [] []) (MkAdmission ∅ ∅ ∅)).

(** Block 10 is applied, its child 11 after it, both not yet attested. *)
Definition scenario_apply (n : Z) (b parent : byte) (f : Finality) (l : Lane) : Lane :=
  (apply scenario_env scenario_processor (scenario_cursor n b f) (scenario_delta n b parent) [] l).1.
Definition one_block : Lane := scenario_apply 10 x0a x09 Unattested empty_lane.
Definition two_blocks : Lane := scenario_apply 11 x0b x0a Unattested one_block.

(** Both parked, then the first finalized, a conflicting block refused. *)
Definition one_final : Lane := (mark_finalized scenario_env sample_descriptor 10 (scenario_hash x0a) two_blocks).1.
Definition after_reorg : Lane :=
  (undo scenario_env sample_descriptor 1 11 (scenario_hash x0b) [] one_final).1.
