(* ===== verification/Ledger.v ===== *)
(** * What the lane's operations do

    The effects of applying, undoing and raising blocks on the lane, and the
    invariant that ties coverage, applied blocks and the undo journal. *)
From Stdlib Require Import ZArith Lia Strings.Byte.
From stdpp Require Import gmap strings list list_numbers fin_maps sorting.
From S2P Require Import Prelude Bytes Chain Capability Provenance Frame Durable Descriptor Delta Rows Overlay Inverse Window Delivery Ranges Artifacts Checkpoints Capacity Registration Lane Apply Revert Codec Scenario.

(** ** Steps that write the registry only *)

Definition only_registry (l l' : Lane) : Prop := l' = with_registry l (lane_registry l').

#[export] Instance only_registry_preorder : PreOrder only_registry.
Proof.
  split; [by intros []|]. intros l1 l2 l3 H1 H2. unfold only_registry in *. rewrite H2, H1. done.
Qed.

Lemma only_registry_with l r : only_registry l (with_registry l r).
Proof. done. Qed.

Create HintDb keeps.
#[export] Hint Resolve keeps_lift keeps_gets keeps_when keeps_if keeps_atomic : keeps.
#[export] Hint Resolve only_registry_with : keeps.

(** Take a computation apart along its binds. *)
Ltac keeps_step :=
  match goal with
  | |- keeps _ (_ ≫= _) => apply keeps_bind; [apply _| |intros ?]
  | |- keeps _ (lift _) => apply keeps_lift; apply _
  | |- keeps _ (gets _) => apply keeps_gets; apply _
  | |- keeps _ (when _ _) => apply keeps_when; [apply _|]
  | |- keeps _ (atomic _) => apply keeps_atomic; [apply _|]
  | |- keeps _ (if _ then _ else _) => apply keeps_if
  | |- keeps _ (match ?x with _ => _ end) => destruct x
  | |- keeps _ (let '(_, _) := ?x in _) => destruct x
  end.
Ltac keeps_all := repeat keeps_step.

(** Open a successful run, one bind at a time. *)
Ltac run_step H s a Hs := apply eff_bind_Ok in H as (s & a & Hs & H).

Section ledger.
Context `{!Wire} (env : Env).

Lemma on_delivery_registry {A} (f : Delivery → result StoreError (Delivery * A)) : keeps only_registry (on_delivery f).
Proof. by apply keeps_zoom. Qed.
Lemma on_admission_registry {A} (m : eff Admission StoreError A) :
  keeps only_registry (zoom lane_admission with_lane_admission m).
Proof. by apply keeps_zoom. Qed.
Lemma on_registry_registry {A} (m : eff Registry StoreError A) :
  keeps only_registry (zoom lane_registry with_registry m).
Proof. by apply keeps_zoom. Qed.

Lemma prepare_registry p instance cursor delta publish stream origin artifact :
  keeps only_registry (prepare env p instance cursor delta publish stream origin artifact).
Proof. unfold prepare. keeps_all; try apply on_admission_registry. Qed.

Lemma write_changes_registry d instance cursor delta sinks publish stream p :
  keeps only_registry (write_changes env d instance cursor delta sinks publish stream p).
Proof.
  unfold write_changes. keeps_all; try apply on_admission_registry; try apply on_delivery_registry.
  by apply keeps_modify.
Qed.

(** ** A committed block *)

Lemma on_tables_Ok {A} (f : Tables → result StoreError (Tables * A)) l l' a :
  on_tables f l = (l', Ok a) ↔ ∃ t, f (lane_tables l) = Ok (t, a) ∧ l' = with_tables l t.
Proof. unfold on_tables. rewrite zoom_Ok. by setoid_rewrite transact_Ok. Qed.

Lemma on_artifacts_Ok {A} (f : ArtifactStore → result StoreError (ArtifactStore * A)) l l' a :
  on_artifacts f l = (l', Ok a) ↔ ∃ t, f (lane_artifacts l) = Ok (t, a) ∧ l' = with_artifacts l t.
Proof. unfold on_artifacts. rewrite zoom_Ok. by setoid_rewrite transact_Ok. Qed.

Lemma on_delivery_Ok {A} (f : Delivery → result StoreError (Delivery * A)) l l' a :
  on_delivery f l = (l', Ok a) ↔ ∃ s, f (lane_delivery l) = Ok (s, a) ∧ l' = with_lane_delivery l s.
Proof. unfold on_delivery. rewrite zoom_Ok. by setoid_rewrite transact_Ok. Qed.

Lemma u64_i64_Ok value field z : u64_i64 value field = Ok z ↔ z = value ∧ value ≤ i64_max.
Proof. unfold u64_i64. destruct (Z.leb_spec value i64_max); split; [by intros [= <-]|by intros [-> _]|done|lia]. Qed.

Definition block_key (cursor : ProcessorCursor) : Z * BlockHash := (cursor_block_number cursor, cursor_block_hash cursor).

(** What the undo record of a block holds once its window is pruned. *)
Definition journaled (undo : UndoRecord) (pruned : PrunedOutput) : UndoRecord :=
  MkUndo (undo_mutations undo ++ pruned_mutations pruned) (inverse_changes undo) (prior_cursor undo)
    (undo_block undo) (undo_finality undo).

(** The rows after a block and what was pruned of them. *)
Record rows_written (d : ProcessorDescriptor) (cursor : ProcessorCursor) (delta : EncodedDelta) (p : Prepared)
    (l l' : Lane) (pruned : PrunedOutput) : Prop := MkRowsWritten {
  written_tables : ∃ t, apply_mutations (λ _, env_now env) (lane_tables l) (mutations (prepared_batch p)) false
      (retains_processor_output d) (delta_block delta) (cursor_finality cursor) = Ok t ∧
    prune_output_window (env_now env) d t (delta_block delta) = Ok (lane_tables l', pruned);
  written_journal : match prepared_undo p with
    | None => lane_journal l' = lane_journal l
    | Some undo => ∃ undo_bytes metadata_bytes,
        to_allocvec (journaled undo pruned) = Ok undo_bytes ∧
        to_allocvec (MkUndoMetadata ((if retains_processor_output d
          then entity_meta_images (lane_tables l) (mutations (prepared_batch p)) else []) ++ pruned_entities pruned))
          = Ok metadata_bytes ∧
        lane_journal l !! block_key cursor = None ∧
        lane_journal l' = <[block_key cursor := MkJournal (undo_bytes ++ metadata_bytes) false]> (lane_journal l)
    end;
}.

Lemma map_err_Ok {E F A} (f : E → F) (c : result E A) a : map_err f c = Ok a ↔ c = Ok a.
Proof. destruct c; cbn; naive_solver. Qed.

Lemma write_rows_Ok d cursor delta p l l' u :
  write_rows env d cursor delta p l = (l', Ok u) →
  (∃ pruned, rows_written d cursor delta p l l' pruned) ∧
  l' = with_journal (with_tables l (lane_tables l')) (lane_journal l').
Proof.
  unfold write_rows. intros Hrun. run_step Hrun l0 l1 H1. injection H1 as <- <-. cbn [id] in Hrun.
  run_step Hrun l1 u1 H1. apply on_tables_Ok in H1 as (t & Ht%unit_step_Ok & ->).
  run_step Hrun l2 pruned H1. apply on_tables_Ok in H1 as (t2 & Hprune & ->). cbn [lane_tables with_tables] in Hprune.
  destruct (prepared_undo p) as [undo|] eqn:Hundo; cbn [is_some_and] in Hrun.
  - run_step Hrun l2 ub H1. apply lift_Ok in H1 as [-> Hub]. unfold encode_undo in Hub. apply map_err_Ok in Hub.
    run_step Hrun l2 mb H1. apply lift_Ok in H1 as [-> Hmb%map_err_Ok].
    run_step Hrun l2 number H1. apply lift_Ok in H1 as [-> [-> Hn]%u64_i64_Ok].
    run_step Hrun l2 l3 H1. injection H1 as <- <-. cbn [id lane_journal with_tables] in Hrun.
    destruct (lane_journal l !! _) eqn:Hj; [done|]. injection Hrun as <- _. split; [|done].
    exists pruned. split; [by exists t|]. rewrite Hundo. cbn in Hmb. by exists ub, mb.
  - apply lift_Ok in Hrun as [-> _]. split; [|by destruct l]. exists pruned. split; [by exists t|by rewrite Hundo].
Qed.

(** The block is covered, owned and pointed at. *)
Record coverage_written (cursor : ProcessorCursor) (delta : EncodedDelta) (p : Prepared) (l l' : Lane) : Prop :=
    MkCoverageWritten {
  number_fits : cursor_block_number cursor ≤ i64_max;
  not_applied : lane_applied l !! block_key cursor = None;
  applied_written : ∃ at_ms, lane_applied l' =
    <[block_key cursor := MkApplied (delta_checksum delta) at_ms]> (lane_applied l);
  coverage_row : lane_coverage l' = <[cursor_block_number cursor := MkCovered (cursor_block_hash cursor)
    (Some (ref_parent_hash (delta_block delta)))
    (match lane_coverage l !! cursor_block_number cursor with
     | Some old => finality_max (covered_finality old) (cursor_finality cursor)
     | None => cursor_finality cursor
     end)]> (lane_coverage l);
  pending_settled : lane_pending l' = delete (block_key cursor) (lane_pending l);
  cursor_written : lane_cursor l' = if prepared_advances p
    then Some (MkCursorRow (prepared_text p) (cursor_block_number cursor) (cursor_block_hash cursor)
      (cursor_finality cursor) (cursor_sequence cursor))
    else lane_cursor l;
  owners_written : if prepared_progress p then lane_owners l' = lane_owners l
    else extend_shared_coverage_owner_range (lane_owners l)
      (MkBlockRange (cursor_block_number cursor) (cursor_block_number cursor)) = Ok (lane_owners l');
}.

Lemma write_coverage_Ok cursor delta p l l' u :
  write_coverage env cursor delta p l = (l', Ok u) →
  coverage_written cursor delta p l l' ∧
  l' = MkLane (lane_tables l) (lane_cursor l') (lane_coverage l') (lane_applied l') (lane_journal l) (lane_pending l')
    (lane_intervals l) (lane_segments l) (lane_owners l') (lane_artifacts l) (lane_checkpoints l) (lane_registry l).
Proof.
  unfold write_coverage. intros Hrun.
  run_step Hrun l0 number H1. apply lift_Ok in H1 as [-> [-> Hn]%u64_i64_Ok].
  run_step Hrun l0 at_ms H1. apply lift_Ok in H1 as [-> Hnow].
  run_step Hrun l0 l1 H1. injection H1 as <- <-. cbn [id] in Hrun.
  run_step Hrun l0 u2 H1. destruct (lane_applied l !! _) eqn:Ha; [done|]. injection H1 as <- _.
  run_step Hrun l0 u3 H1. injection H1 as <- _.
  run_step Hrun l0 u4 H1.
  assert (∃ owners, l0 = with_owners (with_coverage (with_applied l
     (<[(cursor_block_number cursor, cursor_block_hash cursor) := MkApplied (delta_checksum delta) at_ms]> (lane_applied l)))
     (<[cursor_block_number cursor := MkCovered (cursor_block_hash cursor)
        (Some (ref_parent_hash (delta_block delta)))
        (match lane_coverage l !! cursor_block_number cursor with
         | Some old => finality_max (covered_finality old) (cursor_finality cursor)
         | None => cursor_finality cursor
         end)]> (lane_coverage l))) owners ∧
     if prepared_progress p then owners = lane_owners l
     else extend_shared_coverage_owner_range (lane_owners l)
      (MkBlockRange (cursor_block_number cursor) (cursor_block_number cursor)) = Ok owners) as (owners & -> & Howners).
  { unfold when in H1. destruct (prepared_progress p); cbn [negb] in H1.
    - apply lift_Ok in H1 as [-> _]. exists (lane_owners l). by destruct l.
    - apply zoom_Ok in H1 as (owners & Hw%transact_Ok%unit_step_Ok & ->). by exists owners. }
  clear H1. run_step Hrun l0 u5 H1. injection H1 as <- _.
  unfold when in Hrun. destruct (prepared_advances p) eqn:Hadv.
  - apply transact_Ok, unit_step_Ok in Hrun. unfold upsert_cursor in Hrun.
    apply result_bind_Ok in Hrun as (n & [-> _]%u64_i64_Ok & Hrun).
    apply result_bind_Ok in Hrun as (q & [-> _]%u64_i64_Ok & [= <-]).
    split; [|done]. split; try done; [by exists at_ms|by rewrite Hadv].
  - apply lift_Ok in Hrun as [-> _]. split; [|by destruct l]. split; try done; [by exists at_ms|by rewrite Hadv].
Qed.

(** What a block leaves. *)
Record committed (d : ProcessorDescriptor) (instance : string) (cursor : ProcessorCursor) (delta : EncodedDelta)
    (sinks : list string) (publish : bool) (stream : string) (p : Prepared) (l l' : Lane) (out : ApplyOutcome)
    : Prop := MkCommitted {
  committed_rows : ∃ pruned, rows_written d cursor delta p l l' pruned;
  committed_coverage : coverage_written cursor delta p l l';
  committed_changes : ∃ l1 l2 first last, lane_registry l1 = lane_registry l ∧
    write_changes env d instance cursor delta sinks publish stream p l1 = (l2, Ok (first, last)) ∧
    lane_registry l' = lane_registry l2 ∧ out = BlockApplied (prepared_cursor p) first last;
  committed_compact : lane_intervals l' = lane_intervals l ∧ lane_segments l' = lane_segments l;
}.

Lemma artifact_step_Ok (o : option (list byte)) (f : list byte → eff Lane StoreError ()) l l' u :
  (∀ e l l' u, f e l = (l', Ok u) → ∃ a, l' = with_artifacts l a) →
  (match o with Some e => f e | None => lift (Ok ()) end) l = (l', Ok u) → ∃ a, l' = with_artifacts l a.
Proof.
  intros Hf. destruct o; [apply Hf|]. intros [-> _]%lift_Ok. exists (lane_artifacts l). by destruct l.
Qed.

Lemma stage_step_Ok d instance cursor delta e l l' u :
  (at_ms ← lift (env_now env);
   on_artifacts (unit_step (stage_or_retain_processor_artifact show_durable d instance at_ms (env_now env)
     delta e (cursor_finality cursor)))) l = (l', Ok u) → ∃ a, l' = with_artifacts l a.
Proof.
  intros Hrun. run_step Hrun l0 at_ms H1. apply lift_Ok in H1 as [-> _].
  apply on_artifacts_Ok in Hrun as (a & _ & ->). by exists a.
Qed.

Lemma budget_step_Ok (b : bool) l l' u :
  (if b then (l ← gets id; lift (enforce_artifact_storage_capacity (env_budget env)
     (artifact_totals (lane_artifacts l) :: env_other_artifacts env))) else lift (Ok ())) l = (l', Ok u) → l' = l.
Proof.
  destruct b; [|by intros [-> _]%lift_Ok]. intros Hrun. run_step Hrun l0 x H1. injection H1 as <- <-.
  by apply lift_Ok in Hrun as [-> _].
Qed.

Lemma checkpoint_step_Ok d instance cursor l l' u :
  checkpoint_step env d instance cursor l = (l', Ok u) → ∃ c, l' = with_checkpoints l c.
Proof.
  unfold checkpoint_step. intros Hs%transact_Ok%unit_step_Ok.
  apply result_bind_Ok in Hs as (c & _ & [= <-]). by exists c.
Qed.

Lemma commit_block_Ok d instance cursor delta sinks publish stream artifact p l l' out :
  commit_block env d instance cursor delta sinks publish stream artifact p l = (l', Ok out) →
  committed d instance cursor delta sinks publish stream p l l' out.
Proof.
  unfold commit_block. intros Hrun%atomic_Ok.
  run_step Hrun l1 u1 H1. apply artifact_step_Ok in H1 as (a & ->); [|intros; by eapply stage_step_Ok].
  run_step Hrun l2 u2 H2. apply write_rows_Ok in H2 as [(pruned & Hrows) Hl2].
  run_step Hrun l3 u3 H3. apply write_coverage_Ok in H3 as [Hcov Hl3].
  run_step Hrun l4 sequences H4. destruct sequences as [first last]. pose proof (write_changes_registry _ _ _ _ _ _ _ _ _ _ _ H4) as Hl4.
  run_step Hrun l5 u5 H5.
  assert (∃ c, l5 = with_checkpoints l4 c) as (c & ->).
  { unfold when in H5. destruct (_ && _); [by apply checkpoint_step_Ok in H5|].
    apply lift_Ok in H5 as [-> _]. exists (lane_checkpoints l4). by destruct l4. }
  run_step Hrun l6 u6 H6. apply budget_step_Ok in H6 as ->. apply lift_Ok in Hrun as [-> [= <-]].
  unfold only_registry in Hl4. pose proof (λ A (f : Lane → A), f_equal f Hl4) as E4. clear Hl4.
  pose proof (eq_trans (E4 _ lane_tables) (f_equal lane_tables Hl3)) as Et.
  pose proof (eq_trans (E4 _ lane_journal) (f_equal lane_journal Hl3)) as Ej.
  split.
  - exists pruned. destruct Hrows as [Ht Hj]. split; cbn; rewrite ?Et, ?Ej; [exact Ht|exact Hj].
  - destruct Hcov as [Hn Ha Hap Hc Hp Hcu Ho].
    pose proof (λ A (f : Lane → A), f_equal f Hl2) as E2.
    split; cbn; rewrite ?(E4 _ lane_applied), ?(E4 _ lane_coverage), ?(E4 _ lane_pending),
      ?(E4 _ lane_cursor), ?(E4 _ lane_owners); cbn.
    + exact Hn.
    + by rewrite (E2 _ lane_applied) in Ha.
    + by rewrite (E2 _ lane_applied) in Hap.
    + by rewrite (E2 _ lane_coverage) in Hc.
    + by rewrite (E2 _ lane_pending) in Hp.
    + by rewrite (E2 _ lane_cursor) in Hcu.
    + by rewrite (E2 _ lane_owners) in Ho.
  - exists l3, l4, first, last. split; [|by split].
    by rewrite (f_equal lane_registry Hl3); cbn; rewrite Hl2.
  - split; cbn; [rewrite (E4 _ lane_intervals), Hl3|rewrite (E4 _ lane_segments), Hl3]; cbn; by rewrite Hl2.
Qed.

Context `{!WireLaws}.

(** ** All outcomes of an apply *)

(** What is settled of a block applied before. *)
Definition only_settled (l l' : Lane) : Prop :=
  l' = with_pending (with_artifacts (with_registry l (lane_registry l')) (lane_artifacts l')) (lane_pending l').

Lemma settle_applied_Ok d instance cursor delta artifact l l' out :
  settle_applied env d instance cursor delta artifact l = (l', Ok out) → only_settled l l' ∧ out = AlreadyApplied.
Proof.
  unfold settle_applied. intros Hrun%atomic_Ok.
  run_step Hrun l1 u1 H1. apply artifact_step_Ok in H1 as (a & ->); [|intros; by eapply stage_step_Ok].
  run_step Hrun l2 number H2. apply lift_Ok in H2 as [-> _].
  run_step Hrun l3 u2 H3. injection H3 as <- _.
  run_step Hrun l4 u3 H4. apply budget_step_Ok in H4 as ->. by apply lift_Ok in Hrun as [-> [= <-]].
Qed.

(** The checks a fresh block passed. *)
Record fresh (cursor : ProcessorCursor) (l : Lane) : Prop := MkFresh {
  fresh_number : cursor_block_number cursor ≤ i64_max;
  fresh_applied : lane_applied l !! block_key cursor = None;
  fresh_compact : compacted_coverage_contains (cursor_block_number cursor) (cursor_block_hash cursor) l = Ok false;
  fresh_coverage : ∀ c, lane_coverage l !! cursor_block_number cursor = Some c → covered_hash c = cursor_block_hash cursor;
}.

Inductive apply_result (p : Processor) (cursor : ProcessorCursor) (delta : EncodedDelta) (sinks : list string)
    (publish : bool) (stream : string) (l l' : Lane) : result StoreError ApplyOutcome → Prop :=
  | apply_failed e : only_registry l l' → apply_result p cursor delta sinks publish stream l l' (Err e)
  | apply_repeated l1 row :
      only_registry l l1 → only_settled l1 l' →
      (lane_applied l !! block_key cursor = Some row ∧ delta_checksum_of row = delta_checksum delta ∨
       lane_applied l !! block_key cursor = None ∧
       compacted_coverage_contains (cursor_block_number cursor) (cursor_block_hash cursor) l = Ok true) →
      apply_result p cursor delta sinks publish stream l l' (Ok AlreadyApplied)
  | apply_committed l1 l2 instance origin artifact prepared out :
      only_registry l l1 → only_registry l1 l2 → fresh cursor l →
      register_processor (env_now env) (processor_descriptor p) (lane_registry l) = (lane_registry l1, Ok instance) →
      EncodedDelta.validate delta (processor_descriptor p) = Ok () →
      validate_cursor cursor (processor_descriptor p) delta = Ok () →
      instance = processor_instance (processor_descriptor p) →
      prepare env p instance cursor delta publish stream origin artifact l1 = (l2, Ok prepared) →
      committed (processor_descriptor p) instance cursor delta sinks publish stream prepared l2 l' out →
      apply_result p cursor delta sinks publish stream l l' (Ok out).

Lemma apply_error_keeps p cursor delta sinks publish stream origin :
  keeps_on_error only_registry (apply_with_origin_to_stream env p cursor delta sinks publish stream origin).
Proof.
  unfold apply_with_origin_to_stream.
  repeat first
    [ apply error_if
    | apply error_bind; [apply _|first [apply on_registry_registry|apply prepare_registry|keeps_step]|intros ?]
    | apply error_keeps; keeps_step
    | apply error_atomic; apply _ ].
Qed.

Lemma compacted_registry number hash l r :
  compacted_coverage_contains number hash (with_registry l r) = compacted_coverage_contains number hash l.
Proof. done. Qed.

Lemma apply_cases p cursor delta sinks publish stream origin l l' r :
  apply_with_origin_to_stream env p cursor delta sinks publish stream origin l = (l', r) →
  apply_result p cursor delta sinks publish stream l l' r.
Proof.
  destruct r as [out|e].
  2: { intros Hrun. apply apply_failed. by eapply apply_error_keeps. }
  unfold apply_with_origin_to_stream. intros Hrun.
  run_step Hrun l1 u1 H1. apply lift_Ok in H1 as [-> Hvalid%map_err_Ok].
  run_step Hrun l1 u2 H1. apply lift_Ok in H1 as [-> Hcursor].
  run_step Hrun l1 artifact H1. apply lift_Ok in H1 as [-> _].
  run_step Hrun l1 instance H1. pose proof (on_registry_registry _ _ _ _ H1) as Hreg.
  apply zoom_Ok in H1 as (registry & Hregister & Hl1).
  assert (lane_registry l1 = registry) as Hregistry by by rewrite Hl1. clear Hl1.
  run_step Hrun l2 l3 H1. injection H1 as <- <-. cbn [id] in Hrun.
  run_step Hrun l2 u3 H1. apply lift_Ok in H1 as [-> _].
  run_step Hrun l2 number H1. apply lift_Ok in H1 as [-> [-> Hn]%u64_i64_Ok].
  assert (lane_applied l1 = lane_applied l ∧ lane_coverage l1 = lane_coverage l ∧
    compacted_coverage_contains (cursor_block_number cursor) (cursor_block_hash cursor) l1 =
    compacted_coverage_contains (cursor_block_number cursor) (cursor_block_hash cursor) l) as (Ha & Hc & Hcompact)
    by (rewrite Hreg; by rewrite compacted_registry).
  destruct (is_some_and (lane_applied l1 !! _) _) eqn:Hconflict; [by apply lift_Ok in Hrun as [_ ?]|].
  run_step Hrun l2 known H1. apply lift_Ok in H1 as [-> Hknown].
  rewrite Ha in *. fold (block_key cursor) in *.
  destruct known.
  - apply settle_applied_Ok in Hrun as [Hset ->].
    destruct (lane_applied l !! block_key cursor) as [row|] eqn:Hrow; cbn in Hconflict, Hknown.
    + apply (apply_repeated _ _ _ _ _ _ _ _ l1 row); [done..|]. left. split; [done|].
      by apply bool_decide_eq_false, dec_stable in Hconflict.
    + apply (apply_repeated _ _ _ _ _ _ _ _ l1 (MkApplied hash_zero 0)); [done..|]. right. by rewrite <-Hcompact.
  - destruct (lane_applied l !! block_key cursor) as [row|] eqn:Hrow; cbn in Hknown; [done|].
    run_step Hrun l2 u4 H1. apply lift_Ok in H1 as [-> Hcover].
    run_step Hrun l2 prepared H1. pose proof (prepare_registry _ _ _ _ _ _ _ _ _ _ _ H1) as Hreg2.
    apply commit_block_Ok in Hrun.
    pose proof (register_processor_Ok _ _ _ _ _ Hregister) as [Hinst _]. rewrite <-Hregistry in Hregister.
    destruct u1, u2. eapply (apply_committed _ _ _ _ _ _ _ _ l1 l2); try done.
    split; [done..|by rewrite <-Hcompact|]. intros c Hrowc. rewrite Hc, Hrowc in Hcover.
    destruct (bool_decide (covered_hash c ≠ cursor_block_hash cursor)) eqn:Hb; [done|].
    by apply bool_decide_eq_false, dec_stable in Hb.
Qed.

(** ** What is prepared *)

Record prepared_ok (p : Processor) (instance : string) (cursor : ProcessorCursor) (delta : EncodedDelta)
    (publish : bool) (stream : string) (l : Lane) (q : Prepared) : Prop := MkPreparedOk {
  batch_reduced : reduce_block (lane_tables l) (processor_reduce p cursor delta) = Ok (prepared_batch q);
  deferred_exact : prepared_deferred q = delivery_of cursor publish (processor_descriptor p);
  advances_ordered : descriptor_mode (processor_descriptor p) = OrderedState → prepared_advances q = true;
  cursor_encoded : ∃ text, encode_cursor cursor = Ok text ∧ prepared_text q = expose text;
  undo_prepared : if bool_decide (cursor_finality cursor = Finalized) then prepared_undo q = None
    else ∃ inverse prior, prepared_undo q =
        Some (MkUndo (mutations (prepared_batch q)) inverse prior (delta_block delta) (cursor_finality cursor)) ∧
      processor_cursor_by_instance l = Ok prior ∧
      (if delivery_enabled (processor_descriptor p) && publish
       then build_inverse_changes (prepared_batch q) else Ok []) = Ok inverse;
  progress_prepared : (if delivery_enabled (processor_descriptor p)
    then delivery_stream_is_backfill stream (lane_delivery l) else Ok false) = Ok (prepared_progress q);
}.

Lemma prepare_Ok p instance cursor delta publish stream origin artifact l l' q :
  prepare env p instance cursor delta publish stream origin artifact l = (l', Ok q) →
  prepared_ok p instance cursor delta publish stream l q.
Proof.
  unfold prepare. intros Hrun.
  run_step Hrun l0 l1 H1. injection H1 as <- <-. cbn [id] in Hrun.
  run_step Hrun l1 batch H1. apply lift_Ok in H1 as [-> Hbatch].
  run_step Hrun l1 progress H1. apply lift_Ok in H1 as [-> Hprogress].
  run_step Hrun l1 bytes H1. apply lift_Ok in H1 as [-> _].
  run_step Hrun l1 incoming H1. apply lift_Ok in H1 as [-> _].
  run_step Hrun l1 u1 H1. clear H1.
  run_step Hrun l2 prior H1. apply lift_Ok in H1 as [-> Hprior].
  run_step Hrun l2 committed_cursor H1. apply lift_Ok in H1 as [-> _].
  run_step Hrun l2 undone H1. apply lift_Ok in H1 as [-> Hundo].
  run_step Hrun l2 undo_bytes H1. apply lift_Ok in H1 as [-> _].
  run_step Hrun l2 u2 H1. clear H1.
  run_step Hrun l3 encoded H1. apply lift_Ok in H1 as [-> Hencoded].
  run_step Hrun l3 a H1. injection H1 as <- <-.
  run_step Hrun l4 org H1. apply lift_Ok in H1 as [-> _].
  apply lift_Ok in Hrun as [-> [= <-]].
  split; cbn; try done.
  - intros ->. done.
  - by exists encoded.
  - destruct (bool_decide (cursor_finality cursor = Finalized)); cbn in Hundo; [by injection Hundo|].
    apply result_bind_Ok in Hundo as (inverse & Hinverse & [= <-]). by exists inverse, prior.
Qed.

(** ** The ledger invariant *)

Record ledger_ok (l : Lane) : Prop := MkLedgerOk {
  covered_applied n c : lane_coverage l !! n = Some c → is_Some (lane_applied l !! (n, covered_hash c));
  applied_covered n h row : lane_applied l !! (n, h) = Some row →
    ∃ c, lane_coverage l !! n = Some c ∧ covered_hash c = h;
  journal_covered n h row : lane_journal l !! (n, h) = Some row →
    ∃ c, lane_coverage l !! n = Some c ∧ covered_hash c = h ∧
      (journal_finalized row = true ↔ covered_finality c = Finalized);
  reversible n c : lane_coverage l !! n = Some c → covered_finality c ≠ Finalized →
    ∃ row u m, lane_journal l !! (n, covered_hash c) = Some row ∧
      decode_undo (encoded_undo row) = Ok (u, Some m) ∧ ref_number (undo_block u) = n;
}.

Lemma decode_undo_encoded u m undo_bytes metadata_bytes :
  to_allocvec u = Ok undo_bytes → to_allocvec m = Ok metadata_bytes →
  decode_undo (undo_bytes ++ metadata_bytes) = Ok (u, Some m).
Proof.
  intros Hu Hm. unfold decode_undo. rewrite (take_undo_encoded _ _ _ Hu). cbn.
  pose proof (take_metadata_encoded _ _ [] Hm) as Ht. rewrite app_nil_r in Ht.
  destruct metadata_bytes as [|b bytes]; [by destruct (metadata_nonempty _ _ Hm)|]. rewrite Ht. done.
Qed.

(** A lane's coverage, applied blocks and journal. *)
Definition same_blocks (l l' : Lane) : Prop :=
  lane_coverage l' = lane_coverage l ∧ lane_applied l' = lane_applied l ∧ lane_journal l' = lane_journal l.

#[export] Instance same_blocks_preorder : PreOrder same_blocks.
Proof. split; [done|]. unfold same_blocks. intros l1 l2 l3 (? & ? & ?) (? & ? & ?). split_and!; congruence. Qed.

Lemma same_blocks_ok l l' : same_blocks l l' → ledger_ok l → ledger_ok l'.
Proof.
  intros (Hc & Ha & Hj) [H1 H2 H3 H4]. split; intros *; rewrite ?Hc, ?Ha, ?Hj; [apply H1|apply H2|apply H3|apply H4].
Qed.

Lemma only_registry_blocks l l' : only_registry l l' → same_blocks l l'.
Proof. unfold only_registry, same_blocks. intros ->. done. Qed.

Lemma only_settled_blocks l l' : only_settled l l' → same_blocks l l'.
Proof. unfold only_settled, same_blocks. intros ->. done. Qed.

(** A committed fresh block is a new row of each table. *)
Lemma committed_blocks p cursor delta sinks publish stream q l0 l l' out :
  ledger_ok l → fresh cursor l → prepared_ok p (processor_instance (processor_descriptor p)) cursor delta publish stream l0 q →
  validate_cursor cursor (processor_descriptor p) delta = Ok () →
  committed (processor_descriptor p) (processor_instance (processor_descriptor p)) cursor delta sinks publish stream q l l' out →
  lane_coverage l !! cursor_block_number cursor = None ∧
  lane_coverage l' = <[cursor_block_number cursor := MkCovered (cursor_block_hash cursor)
    (Some (ref_parent_hash (delta_block delta))) (cursor_finality cursor)]> (lane_coverage l) ∧
  (∃ at_ms, lane_applied l' = <[block_key cursor := MkApplied (delta_checksum delta) at_ms]> (lane_applied l)) ∧
  (if bool_decide (cursor_finality cursor = Finalized) then lane_journal l' = lane_journal l
   else lane_journal l !! block_key cursor = None ∧
     ∃ bytes u m, lane_journal l' = <[block_key cursor := MkJournal bytes false]> (lane_journal l) ∧
       decode_undo bytes = Ok (u, Some m) ∧ undo_block u = delta_block delta) ∧
  ref_number (delta_block delta) = cursor_block_number cursor.
Proof.
  intros Hok Hfresh Hprepared Hvalid [(pruned & Hrows) Hcov _ _].
  assert (lane_coverage l !! cursor_block_number cursor = None) as Hnone.
  { apply eq_None_not_Some. intros [c Hc]. destruct (covered_applied _ Hok _ _ Hc) as [row Hrow].
    pose proof (fresh_applied _ _ Hfresh) as Hnew. unfold block_key in Hnew.
    by rewrite (fresh_coverage _ _ Hfresh _ Hc), Hnew in Hrow. }
  split_and!; [done| |apply Hcov| |].
  - rewrite (coverage_row _ _ _ _ _ Hcov), Hnone. done.
  - pose proof (undo_prepared _ _ _ _ _ _ _ _ Hprepared) as Hundo. pose proof (written_journal _ _ _ _ _ _ _ Hrows) as Hj.
    destruct (bool_decide _); [by rewrite Hundo in Hj|].
    destruct Hundo as (inverse & prior & Hu & _). rewrite Hu in Hj.
    destruct Hj as (ub & mb & Hub & Hmb & Hnew & Hj). split; [done|].
    eexists _, _, _. split; [exact Hj|]. split; [by eapply decode_undo_encoded|done].
  - unfold validate_cursor in Hvalid. destruct (_ || _) eqn:Hb in Hvalid; [done|].
    rewrite !orb_false_iff, !bool_decide_eq_false in Hb. destruct Hb as [[[_ _] Hn] _].
    by apply dec_stable in Hn.
Qed.

(** ** An undone block *)

Record undone (d : ProcessorDescriptor) (chain : ChainId) (number : Z) (hash : BlockHash) (sinks : list string)
    (l l' : Lane) (out : UndoOutcome) : Prop := MkUndone {
  undone_fits : number ≤ i64_max;
  undone_effect : ∃ row u m t1 through l1 l2, undo_row number number hash l = Ok row ∧
    decode_undo (encoded_undo row) = Ok (u, m) ∧
    apply_mutations (λ _, env_now env) (lane_tables l) (undo_mutations u) true (retains_processor_output d)
      (undo_block u) (undo_finality u) = Ok t1 ∧
    (match (if retains_processor_output d then m else None) with
     | Some m => restore_entity_metadata (covered_at l) through t1 (undo_entities m) = Ok (lane_tables l')
     | None => lane_tables l' = t1
     end) ∧
    same_blocks l1 l' ∧ lane_delivery l1 = lane_delivery l ∧ lane_segments l1 = lane_segments l ∧
    restore_cursor d chain u l1 = (l2, Ok ()) ∧ lane_cursor l' = lane_cursor l2 ∧
    lane_delivery l2 = lane_delivery l1 ∧
    retract_changes env d (processor_instance d) chain number hash u
      (match covers_block number hash l with
       | Some covered => finality_max (covered_finality covered) (undo_finality u)
       | None => undo_finality u
       end) sinks l2 = (l', Ok (undo_first_change out, undo_last_change out));
  undone_coverage : lane_coverage l' =
    match covers_block number hash l with Some _ => delete number (lane_coverage l) | None => lane_coverage l end;
  undone_applied : lane_applied l' = delete (number, hash) (lane_applied l);
  undone_journal : lane_journal l' = delete (number, hash) (lane_journal l);
}.

Lemma restore_cursor_blocks d chain u l l' r :
  restore_cursor d chain u l = (l', r) → l' = with_cursor l (lane_cursor l').
Proof.
  assert (PreOrder (λ l l', l' = with_cursor l (lane_cursor l'))) as Hpre.
  { split; [by intros []|]. intros l1 l2 l3 H2 H3. rewrite H3, H2. done. }
  revert l l' r. change (keeps (λ l l', l' = with_cursor l (lane_cursor l')) (restore_cursor d chain u)).
  unfold restore_cursor. keeps_all; [|by apply keeps_modify].
  apply keeps_transact; [apply _|]. intros s s' x Hs%unit_step_Ok. unfold upsert_cursor in Hs.
  apply result_bind_Ok in Hs as (n & _ & (q & _ & [= <-])%result_bind_Ok). done.
Qed.

Lemma retract_changes_registry d instance chain number hash u level sinks :
  keeps only_registry (retract_changes env d instance chain number hash u level sinks).
Proof. unfold retract_changes. keeps_all; try apply on_delivery_registry. by apply keeps_modify. Qed.

Lemma undo_error d chain number hash sinks l l' e :
  undo env d chain number hash sinks l = (l', Err e) → l' = l.
Proof.
  revert l l' e. change (keeps_on_error (λ l l', l' = l) (undo env d chain number hash sinks)).
  assert (PreOrder (λ l l' : Lane, l' = l)) by (split; [done|intros ? ? ? -> ->; done]).
  unfold undo. repeat first [apply error_bind; [apply _|keeps_step|intros ?]|apply error_atomic; apply _
    |match goal with |- keeps_on_error _ (let '(_, _) := ?x in _) => destruct x end].
Qed.

Lemma undo_Ok d chain number hash sinks l l' out :
  undo env d chain number hash sinks l = (l', Ok out) → undone d chain number hash sinks l l' out.
Proof.
  unfold undo. intros Hrun.
  run_step Hrun l0 l1 H1. injection H1 as <- <-. cbn [id] in Hrun.
  run_step Hrun l1 n H1. apply lift_Ok in H1 as [-> [-> Hn]%u64_i64_Ok].
  run_step Hrun l1 row H1. apply lift_Ok in H1 as [-> Hrow].
  run_step Hrun l1 decoded H1. apply lift_Ok in H1 as [-> Hdecode]. destruct decoded as [u m].
  run_step Hrun l1 through H1. apply lift_Ok in H1 as [-> Hthrough].
  apply atomic_Ok in Hrun.
  run_step Hrun l1 u1 H1. apply on_tables_Ok in H1 as (t1 & Ht1%unit_step_Ok & ->).
  run_step Hrun l2 u2 H1.
  assert (∃ t2, l2 = with_tables l t2 ∧
    match (if retains_processor_output d then m else None) with
     | Some m => restore_entity_metadata (covered_at l) through t1 (undo_entities m) = Ok t2
     | None => t2 = t1
     end) as (t2 & -> & Ht2).
  { revert H1. destruct (if retains_processor_output d then m else None) as [m'|].
    - intros (t2 & Ht2%unit_step_Ok & ->)%on_tables_Ok. by exists t2.
    - intros [-> _]%lift_Ok. by exists t1. }
  clear H1. run_step Hrun l3 u3 H1. unfold forget_block in H1.
  run_step H1 l4 u4 H2. injection H2 as <- _.
  run_step H1 l4 u5 H2. injection H2 as <- _.
  run_step H1 l4 u6 H2. apply on_artifacts_Ok in H2 as (a & _ & ->). injection H1 as <- _.
  run_step Hrun l5 u7 H3. pose proof (restore_cursor_blocks _ _ _ _ _ _ H3) as Hl5. destruct u7.
  run_step Hrun l6 sequences H4. destruct sequences as [first last].
  pose proof (retract_changes_registry _ _ _ _ _ _ _ _ _ _ _ H4) as Hl6. unfold only_registry in Hl6.
  apply lift_Ok in Hrun as [-> [= <-]].
  pose proof (λ A (f : Lane → A), f_equal f Hl5) as E5. pose proof (λ A (f : Lane → A), f_equal f Hl6) as E6.
  clear Hl5 Hl6.
  split; [done| |by rewrite (E6 _ lane_coverage); cbn; rewrite (E5 _ lane_coverage)
    |by rewrite (E6 _ lane_applied); cbn; rewrite (E5 _ lane_applied)
    |by rewrite (E6 _ lane_journal); cbn; rewrite (E5 _ lane_journal)].
  eexists row, u, m, t1, through, _, l5.
  split; [done|]. split; [done|]. split; [done|]. split.
  { rewrite (E6 _ lane_tables). cbn. rewrite (E5 _ lane_tables). cbn. exact Ht2. }
  split; [|split; [|split; [|split; [exact H3|split; [|split; [|exact H4]]]]]].
  - split_and!; [rewrite (E6 _ lane_coverage); cbn; by rewrite (E5 _ lane_coverage)
      |rewrite (E6 _ lane_applied); cbn; by rewrite (E5 _ lane_applied)
      |rewrite (E6 _ lane_journal); cbn; by rewrite (E5 _ lane_journal)].
  - done.
  - done.
  - by rewrite (E6 _ lane_cursor).
  - unfold lane_delivery. by rewrite (E5 _ lane_registry).
Qed.

(** ** Raised levels *)

(** Blocks and rows are kept. *)
Definition same_rows (l l' : Lane) : Prop := lane_tables l' = lane_tables l ∧ same_blocks l l'.

#[export] Instance same_rows_preorder : PreOrder same_rows.
Proof. split; [done|]. intros l1 l2 l3 [? ?] [? ?]. split; [congruence|by etrans]. Qed.

Lemma on_delivery_rows {A} (f : Delivery → result StoreError (Delivery * A)) : keeps same_rows (on_delivery f).
Proof. by apply keeps_zoom. Qed.

Lemma write_raised_rows raised : keeps same_rows (write_raised raised).
Proof.
  unfold write_raised. keeps_all. apply keeps_transact; [apply _|]. intros s s' x Hs%unit_step_Ok.
  unfold upsert_cursor in Hs. apply result_bind_Ok in Hs as (n & _ & (q & _ & [= <-])%result_bind_Ok). done.
Qed.

Lemma publish_marker_rows d level through cursor context :
  keeps same_rows (publish_marker env d level through cursor context).
Proof. unfold publish_marker. keeps_all. apply on_delivery_rows. Qed.

Lemma release_held_rows d level through : keeps same_rows (release_held env d level through).
Proof. unfold release_held. keeps_all. apply on_delivery_rows. Qed.

Lemma checkpoint_step_rows d instance cursor : keeps same_rows (checkpoint_step env d instance cursor).
Proof.
  unfold checkpoint_step. apply keeps_transact; [apply _|]. intros s s' x Hs%unit_step_Ok.
  apply result_bind_Ok in Hs as (c & _ & [= <-]). done.
Qed.

Definition eq_preorder : PreOrder (λ l l' : Lane, l' = l).
Proof. split; [done|intros ? ? ? -> ->; done]. Qed.

Lemma mark_finalized_error d through hash l l' e :
  mark_finalized env d through hash l = (l', Err e) → l' = l.
Proof.
  revert l l' e. change (keeps_on_error (λ l l', l' = l) (mark_finalized env d through hash)).
  pose proof eq_preorder. unfold mark_finalized.
  repeat first [apply error_bind; [apply _|keeps_step|intros ?]|apply error_atomic; apply _].
Qed.

Lemma mark_attested_error d through hash l l' e :
  mark_attested env d through hash l = (l', Err e) → l' = l.
Proof.
  revert l l' e. change (keeps_on_error (λ l l', l' = l) (mark_attested env d through hash)).
  pose proof eq_preorder. unfold mark_attested.
  repeat first [apply error_bind; [apply _|keeps_step|intros ?]|apply error_atomic; apply _].
Qed.

Lemma mark_finalized_Ok d through hash l l' rows :
  mark_finalized env d through hash l = (l', Ok rows) →
  coverage_conflict through hash l = None ∧
  core (lane_tables l') = core (lane_tables l) ∧
  lane_coverage l' = promote_coverage Finalized through (lane_coverage l) ∧
  lane_applied l' = lane_applied l ∧
  ∃ limit, lane_journal l' = base.filter (λ e, prunable limit e = false) (promote_journal through (lane_journal l)).
Proof.
  unfold mark_finalized. intros Hrun.
  run_step Hrun l0 l1 H1. injection H1 as <- <-. cbn [id] in Hrun.
  run_step Hrun l1 n H1. apply lift_Ok in H1 as [-> [-> Hn]%u64_i64_Ok].
  run_step Hrun l1 u1 H1. apply lift_Ok in H1 as [-> Hconflict].
  destruct (coverage_conflict through hash l) eqn:Hc; [done|]. split; [done|].
  run_step Hrun l1 cursor H1. apply lift_Ok in H1 as [-> _].
  run_step Hrun l1 ctx H1. apply lift_Ok in H1 as [-> _].
  apply atomic_Ok in Hrun.
  run_step Hrun l1 shortfall H1. apply on_artifacts_Ok in H1 as (a & _ & ->).
  run_step Hrun l2 u2 H1. injection H1 as <- _.
  run_step Hrun l2 u3 H1. apply transact_Ok, unit_step_Ok in H1. unfold prune_finalized_undo in H1.
  apply result_bind_Ok in H1 as (z & [-> _]%u64_i64_Ok & [= <-]).
  run_step Hrun l2 u4 H1. injection H1 as <- _.
  run_step Hrun l2 u5 H1. injection H1 as <- _.
  match type of Hrun with ?m ?l1 = _ => assert (keeps same_rows m) as Hk end.
  { keeps_all; first [apply release_held_rows|apply write_raised_rows|apply publish_marker_rows
      |apply checkpoint_step_rows]. }
  apply Hk in Hrun as (Ht & Hcov & Happ & Hj).
  rewrite Ht, Hcov, Happ, Hj. cbn. split_and!; [done..|]. eexists. reflexivity.
Qed.

Lemma mark_attested_Ok d through hash l l' rows :
  mark_attested env d through hash l = (l', Ok rows) →
  coverage_conflict through hash l = None ∧
  core (lane_tables l') = core (lane_tables l) ∧
  lane_coverage l' = promote_coverage Attested through (lane_coverage l) ∧
  lane_applied l' = lane_applied l ∧ lane_journal l' = lane_journal l.
Proof.
  unfold mark_attested. intros Hrun.
  run_step Hrun l0 l1 H1. injection H1 as <- <-. cbn [id] in Hrun.
  run_step Hrun l1 n H1. apply lift_Ok in H1 as [-> [-> Hn]%u64_i64_Ok].
  run_step Hrun l1 u1 H1. apply lift_Ok in H1 as [-> Hconflict].
  destruct (coverage_conflict through hash l) eqn:Hc; [done|]. split; [done|].
  run_step Hrun l1 cursor H1. apply lift_Ok in H1 as [-> _].
  run_step Hrun l1 ctx H1. apply lift_Ok in H1 as [-> _].
  apply atomic_Ok in Hrun.
  run_step Hrun l2 u4 H1. injection H1 as <- _.
  run_step Hrun l2 u5 H1. injection H1 as <- _.
  match type of Hrun with ?m ?l1 = _ => assert (keeps same_rows m) as Hk end.
  { keeps_all; first [apply release_held_rows|apply write_raised_rows|apply publish_marker_rows]. }
  apply Hk in Hrun as (Ht & Hcov & Happ & Hj). rewrite Ht, Hcov, Happ, Hj. done.
Qed.

(** ** Every operation keeps the invariant *)

Lemma lookup_promote_coverage level through m n :
  promote_coverage level through m !! n =
    (λ c, if due_coverage level through (n, c) then MkCovered (covered_hash c) (covered_parent c) level else c) <$> m !! n.
Proof. unfold promote_coverage. rewrite map_lookup_imap. by destruct (m !! n). Qed.

Lemma lookup_promote_journal through m k :
  promote_journal through m !! k =
    (λ row, if due_journal through (k, row) then MkJournal (encoded_undo row) true else row) <$> m !! k.
Proof. unfold promote_journal. rewrite map_lookup_imap. by destruct (m !! k). Qed.

Lemma covers_block_Some number hash l c :
  covers_block number hash l = Some c ↔ lane_coverage l !! number = Some c ∧ covered_hash c = hash.
Proof.
  unfold covers_block. destruct (lane_coverage l !! number) as [c'|]; [|naive_solver].
  case_bool_decide; naive_solver.
Qed.

Lemma committed_ok p cursor delta sinks publish stream q l0 l l' out :
  ledger_ok l → fresh cursor l → prepared_ok p (processor_instance (processor_descriptor p)) cursor delta publish stream l0 q →
  validate_cursor cursor (processor_descriptor p) delta = Ok () →
  committed (processor_descriptor p) (processor_instance (processor_descriptor p)) cursor delta sinks publish stream q l l' out →
  ledger_ok l'.
Proof.
  intros Hok Hfresh Hprepared Hvalid Hcommitted.
  pose proof (committed_blocks _ _ _ _ _ _ _ _ _ _ _ Hok Hfresh Hprepared Hvalid Hcommitted)
    as (Hnone & Hcov & (at_ms & Happ) & Hj & Hnumber).
  remember (cursor_block_number cursor) as n eqn:Hn.
  assert (block_key cursor = (n, cursor_block_hash cursor)) as Hkey by (unfold block_key; by rewrite Hn).
  rewrite Hkey in *.
  assert (∀ h, lane_applied l !! (n, h) = None) as Hnew.
  { intros h. apply eq_None_not_Some. intros [row Hrow].
    apply (applied_covered _ Hok) in Hrow as (c & Hc & _). congruence. }
  assert (∀ h, lane_journal l !! (n, h) = None) as Hnewj.
  { intros h. apply eq_None_not_Some. intros [row Hrow].
    apply (journal_covered _ Hok) in Hrow as (c & Hc & _). congruence. }
  split.
  - intros m c. rewrite Hcov, Happ. destruct (decide (m = n)) as [->|Hne].
    + rewrite lookup_insert_eq. intros [= <-]. by rewrite lookup_insert_eq.
    + rewrite lookup_insert_ne by done. intros Hc. rewrite lookup_insert_ne by congruence.
      by apply (covered_applied _ Hok).
  - intros m h row. rewrite Hcov, Happ. destruct (decide (m = n)) as [->|Hne].
    + rewrite lookup_insert_eq. destruct (decide (h = cursor_block_hash cursor)) as [->|Hh].
      * intros _. by eexists.
      * rewrite lookup_insert_ne by congruence. by rewrite Hnew.
    + rewrite !lookup_insert_ne by congruence. apply (applied_covered _ Hok).
  - intros m h row. rewrite Hcov. destruct (decide (m = n)) as [->|Hne].
    + rewrite lookup_insert_eq. case_bool_decide as Hfin.
      * by rewrite Hj, Hnewj.
      * destruct Hj as (_ & bytes & u & md & Hj & _). rewrite Hj.
        destruct (decide (h = cursor_block_hash cursor)) as [->|Hh].
        -- rewrite lookup_insert_eq. intros [= <-]. eexists. split; [done|]. done.
        -- rewrite lookup_insert_ne by congruence. by rewrite Hnewj.
    + rewrite lookup_insert_ne by done.
      assert (lane_journal l' !! (m, h) = lane_journal l !! (m, h)) as ->.
      { case_bool_decide; [by rewrite Hj|]. destruct Hj as (_ & bytes & u & md & Hj & _).
        by rewrite Hj, lookup_insert_ne by congruence. }
      apply (journal_covered _ Hok).
  - intros m c. rewrite Hcov. destruct (decide (m = n)) as [->|Hne].
    + rewrite lookup_insert_eq. intros [= <-] Hfin. cbn in Hfin. cbn [covered_hash].
      rewrite bool_decide_eq_false_2 in Hj by done. destruct Hj as (_ & bytes & u & md & Hj & Hdec & Hu).
      eexists _, u, md. rewrite Hj. split; [apply lookup_insert_eq|]. split; [done|]. by rewrite Hu.
    + rewrite lookup_insert_ne by done. intros Hc Hfin.
      destruct (reversible _ Hok _ _ Hc Hfin) as (row & u & md & Hrow & Hdec).
      exists row, u, md. split; [|done]. case_bool_decide; [by rewrite Hj|].
      destruct Hj as (_ & bytes & u' & md' & Hj & _). by rewrite Hj, lookup_insert_ne by congruence.
Qed.

Lemma undone_ok d chain number hash sinks l l' out :
  ledger_ok l → undone d chain number hash sinks l l' out →
  ledger_ok l' ∧ ∃ c, lane_coverage l !! number = Some c ∧ covered_hash c = hash ∧ covered_finality c ≠ Finalized ∧
    lane_coverage l' = delete number (lane_coverage l).
Proof.
  intros Hok [_ (row & _ & _ & _ & _ & _ & _ & Hrow & _) Hcov Happ Hj].
  assert (lane_journal l !! (number, hash) = Some row ∧ journal_finalized row = false) as [Hl Hfin].
  { unfold undo_row in Hrow. destruct (lane_journal l !! _) as [row'|]; [|by destruct (lane_coverage l !! _); [destruct (_ && _)|]].
    destruct (journal_finalized row') eqn:Hf; [done|]. by injection Hrow as <-. }
  destruct (journal_covered _ Hok _ _ _ Hl) as (c & Hc & Hh & Hflag).
  rewrite (proj2 (covers_block_Some number hash l c)) in Hcov by done.
  assert (∀ h, h ≠ hash → lane_applied l !! (number, h) = None ∧ lane_journal l !! (number, h) = None) as Hother.
  { intros h Hne. split; apply eq_None_not_Some; intros [r Hr].
    - apply (applied_covered _ Hok) in Hr as (c' & Hc' & Hh'). congruence.
    - apply (journal_covered _ Hok) in Hr as (c' & Hc' & Hh' & _). congruence. }
  split.
  2: { exists c. split_and!; try done. rewrite <-Hflag. by rewrite Hfin. }
  split.
  - intros m c'. rewrite Hcov, Happ, lookup_delete_Some. intros [Hne Hc'].
    rewrite lookup_delete_ne by congruence. by apply (covered_applied _ Hok).
  - intros m h r. rewrite Hcov, Happ, lookup_delete_Some. intros [Hne Hr].
    destruct (decide (m = number)) as [->|Hm].
    + destruct (decide (h = hash)) as [->|Hhne]; [done|]. destruct (Hother h Hhne); congruence.
    + rewrite lookup_delete_ne by done. by apply (applied_covered _ Hok) in Hr.
  - intros m h r. rewrite Hcov, Hj, lookup_delete_Some. intros [Hne Hr].
    destruct (decide (m = number)) as [->|Hm].
    + destruct (decide (h = hash)) as [->|Hhne]; [done|]. destruct (Hother h Hhne); congruence.
    + rewrite lookup_delete_ne by done. by apply (journal_covered _ Hok) in Hr.
  - intros m c'. rewrite Hcov, Hj, lookup_delete_Some. intros [Hne Hc'] Hf.
    rewrite lookup_delete_ne by congruence. by apply (reversible _ Hok).
Qed.

Lemma levels_below_finalized f : levels_below f Finalized = false ↔ f = Finalized.
Proof. by destruct f. Qed.

Lemma mark_finalized_ok d through hash l l' rows :
  ledger_ok l → mark_finalized env d through hash l = (l', Ok rows) → ledger_ok l'.
Proof.
  intros Hok (_ & _ & Hcov & Happ & limit & Hj)%mark_finalized_Ok.
  assert (∀ n c, lane_coverage l' !! n = Some c ↔ ∃ c0, lane_coverage l !! n = Some c0 ∧
    c = if due_coverage Finalized through (n, c0) then MkCovered (covered_hash c0) (covered_parent c0) Finalized else c0) as Hlook.
  { intros n c. rewrite Hcov, lookup_promote_coverage, fmap_Some. done. }
  split.
  - intros n c (c0 & Hc0 & ->)%Hlook. rewrite Happ. destruct (covered_applied _ Hok _ _ Hc0) as [row Hrow].
    destruct (due_coverage _ _ _); by exists row.
  - intros n h row. rewrite Happ. intros (c0 & Hc0 & <-)%(applied_covered _ Hok).
    eexists. split; [apply Hlook; by exists c0|]. by destruct (due_coverage _ _ _).
  - intros n h row. rewrite Hj, map_lookup_filter_Some, lookup_promote_journal, fmap_Some.
    intros [(row0 & Hrow0 & ->) _]. destruct (journal_covered _ Hok _ _ _ Hrow0) as (c0 & Hc0 & <- & Hflag).
    eexists. split; [apply Hlook; by exists c0|]. split; [by destruct (due_coverage _ _ _)|].
    unfold due_journal, due_coverage. cbn. destruct (n <=? through); cbn; [|done].
    destruct (journal_finalized row0) eqn:Hf; cbn.
    + rewrite (proj2 (levels_below_finalized _)) by by apply Hflag. rewrite Hf. done.
    + destruct (levels_below (covered_finality c0) Finalized) eqn:Hb; [done|].
      apply levels_below_finalized, Hflag in Hb. done.
  - intros n c (c0 & Hc0 & ->)%Hlook Hf. destruct (due_coverage Finalized through (n, c0)) eqn:Hdue; [done|].
    destruct (reversible _ Hok _ _ Hc0 Hf) as (row & u & m & Hrow & Hdec). exists row, u, m. split; [|done].
    destruct (journal_covered _ Hok _ _ _ Hrow) as (c1 & Hc1 & _ & Hflag). rewrite Hc0 in Hc1. injection Hc1 as <-.
    assert (journal_finalized row = false) as Hrf by (apply not_true_iff_false; by rewrite Hflag).
    rewrite Hj. apply map_lookup_filter_Some. split.
    + rewrite lookup_promote_journal, Hrow. cbn. unfold due_journal, due_coverage in *. cbn in *.
      destruct (n <=? through); cbn in *; [|done]. apply levels_below_finalized in Hdue. done.
    + unfold prunable. cbn. by rewrite Hrf.
Qed.

Lemma mark_attested_ok d through hash l l' rows :
  ledger_ok l → mark_attested env d through hash l = (l', Ok rows) → ledger_ok l'.
Proof.
  intros Hok (_ & _ & Hcov & Happ & Hj)%mark_attested_Ok.
  assert (∀ n c, lane_coverage l' !! n = Some c ↔ ∃ c0, lane_coverage l !! n = Some c0 ∧
    c = if due_coverage Attested through (n, c0) then MkCovered (covered_hash c0) (covered_parent c0) Attested else c0) as Hlook.
  { intros n c. rewrite Hcov, lookup_promote_coverage, fmap_Some. done. }
  assert (∀ n c0, covered_finality (if due_coverage Attested through (n, c0)
    then MkCovered (covered_hash c0) (covered_parent c0) Attested else c0) = Finalized ↔ covered_finality c0 = Finalized) as Hfin.
  { intros n c0. unfold due_coverage. cbn. destruct (n <=? through); cbn; [|done]. destruct (covered_finality c0) eqn:Hcf; cbn; by rewrite ?Hcf. }
  split.
  - intros n c (c0 & Hc0 & ->)%Hlook. rewrite Happ. destruct (covered_applied _ Hok _ _ Hc0) as [row Hrow].
    destruct (due_coverage _ _ _); by exists row.
  - intros n h row. rewrite Happ. intros (c0 & Hc0 & <-)%(applied_covered _ Hok).
    eexists. split; [apply Hlook; by exists c0|]. by destruct (due_coverage _ _ _).
  - intros n h row. rewrite Hj. intros (c0 & Hc0 & <- & Hflag)%(journal_covered _ Hok).
    eexists. split; [apply Hlook; by exists c0|]. split; [by destruct (due_coverage _ _ _)|]. by rewrite Hfin.
  - intros n c (c0 & Hc0 & ->)%Hlook. rewrite Hfin. intros Hf. rewrite Hj.
    destruct (reversible _ Hok _ _ Hc0 Hf) as (row & u & m & Hrow & Hdec). exists row, u, m. split; [|done].
    by destruct (due_coverage _ _ _).
Qed.

(** ** Lanes as they evolve *)

(** One operation on the lane of a processor, whatever it returns. *)
Inductive lane_step (p : Processor) : Lane → Lane → Prop :=
  | step_apply cursor delta sinks publish stream origin l l' r :
      apply_with_origin_to_stream env p cursor delta sinks publish stream origin l = (l', r) → lane_step p l l'
  | step_undo chain number hash sinks l l' r :
      undo env (processor_descriptor p) chain number hash sinks l = (l', r) → lane_step p l l'
  | step_finalize through hash l l' r :
      mark_finalized env (processor_descriptor p) through hash l = (l', r) → lane_step p l l'
  | step_attest through hash l l' r :
      mark_attested env (processor_descriptor p) through hash l = (l', r) → lane_step p l l'.

Definition finalized_at (l : Lane) (n : Z) (c : Covered) : Prop :=
  lane_coverage l !! n = Some c ∧ covered_finality c = Finalized.

Lemma fresh_registry cursor l l' : only_registry l l' → fresh cursor l → fresh cursor l'.
Proof. unfold only_registry. intros -> [H1 H2 H3 H4]. by split. Qed.

Lemma apply_ok p cursor delta sinks publish stream l l' r :
  ledger_ok l → apply_result p cursor delta sinks publish stream l l' r →
  ledger_ok l' ∧ ∀ n c, finalized_at l n c → finalized_at l' n c.
Proof.
  intros Hok [e Hreg|l1 row Hreg Hset _|l1 l2 instance origin artifact q out Hreg1 Hreg2 Hfresh _ _ Hvalid -> Hprep Hcom].
  - apply only_registry_blocks in Hreg. split; [by eapply same_blocks_ok|].
    intros n c. unfold finalized_at. by destruct Hreg as (-> & _).
  - apply only_registry_blocks in Hreg. apply only_settled_blocks in Hset.
    assert (same_blocks l l') as Hsame by by etrans. split; [by eapply same_blocks_ok|].
    intros n c. unfold finalized_at. by destruct Hsame as (-> & _).
  - assert (only_registry l l2) as Hreg by by etrans. pose proof (only_registry_blocks _ _ Hreg) as Hsame.
    pose proof (same_blocks_ok _ _ Hsame Hok) as Hok2. apply prepare_Ok in Hprep.
    pose proof (fresh_registry _ _ _ Hreg Hfresh) as Hfresh2.
    split; [by eapply committed_ok|].
    destruct (committed_blocks _ _ _ _ _ _ _ _ _ _ _ Hok2 Hfresh2 Hprep Hvalid Hcom) as (Hnone & Hcov & _).
    intros n c [Hc Hf]. split; [|done]. destruct Hsame as (Hcov2 & _). rewrite Hcov, lookup_insert_ne, Hcov2; [done|].
    intros <-. rewrite Hcov2 in Hnone. congruence.
Qed.

Lemma promote_keeps_finalized level through m n c :
  m !! n = Some c → covered_finality c = Finalized → promote_coverage level through m !! n = Some c.
Proof.
  intros Hc Hf. rewrite lookup_promote_coverage, Hc. cbn. unfold due_coverage. cbn. rewrite Hf.
  by destruct level; rewrite andb_false_r.
Qed.

Lemma step_ok p l l' :
  ledger_ok l → lane_step p l l' → ledger_ok l' ∧ ∀ n c, finalized_at l n c → finalized_at l' n c.
Proof.
  intros Hok Hstep.
  destruct Hstep as [cursor delta sinks publish stream origin l l' r Hrun|chain number hash sinks l l' r Hrun
    |through hash l l' r Hrun|through hash l l' r Hrun].
  - apply apply_cases in Hrun. by eapply apply_ok.
  - destruct r as [out|e]; [|by apply undo_error in Hrun as ->].
    destruct (undone_ok _ _ _ _ _ _ _ _ Hok (undo_Ok _ _ _ _ _ _ _ _ Hrun)) as (Hok' & c & Hc & _ & Hf & Hcov).
    split; [done|]. intros n c' [Hc' Hf']. split; [|done]. rewrite Hcov, lookup_delete_ne; [done|].
    intros ->. congruence.
  - destruct r as [out|e]; [|by apply mark_finalized_error in Hrun as ->].
    split; [by eapply mark_finalized_ok|]. apply mark_finalized_Ok in Hrun as (_ & _ & Hcov & _).
    intros n c [Hc Hf]. split; [|done]. rewrite Hcov. by apply promote_keeps_finalized.
  - destruct r as [out|e]; [|by apply mark_attested_error in Hrun as ->].
    split; [by eapply mark_attested_ok|]. apply mark_attested_Ok in Hrun as (_ & _ & Hcov & _).
    intros n c [Hc Hf]. split; [|done]. rewrite Hcov. by apply promote_keeps_finalized.
Qed.

(** Where coverage, applied blocks and journal agree, the coverage alone
    tells what an undo answers before it changes anything. *)
Lemma undo_decided l n h (Hok : ledger_ok l) :
  match covers_block n h l with
  | Some c => if bool_decide (covered_finality c = Finalized) then undo_row n n h l = Err (FinalizedUndo n)
      else ∃ row u m, undo_row n n h l = Ok row ∧ decode_undo (encoded_undo row) = Ok (u, Some m) ∧
        ref_number (undo_block u) = n
  | None => undo_row n n h l = Err (UndoNotFound n)
  end.
Proof.
  unfold undo_row. destruct (covers_block n h l) as [c|] eqn:Hcovers.
  - apply covers_block_Some in Hcovers as [Hc <-]. case_bool_decide as Hf.
    + destruct (lane_journal l !! _) as [row|] eqn:Hrow.
      * destruct (journal_covered _ Hok _ _ _ Hrow) as (c' & Hc' & _ & Hflag).
        rewrite Hc in Hc'. injection Hc' as <-. by rewrite (proj2 Hflag Hf).
      * by rewrite Hc, Hf, !bool_decide_eq_true_2.
    + destruct (reversible _ Hok _ _ Hc Hf) as (row & u & m & Hrow & Hdec & Hu).
      exists row, u, m. rewrite Hrow. destruct (journal_covered _ Hok _ _ _ Hrow) as (c' & Hc' & _ & Hflag).
      rewrite Hc in Hc'. injection Hc' as <-. destruct (journal_finalized row) eqn:Hj; [|done].
      destruct Hf. by apply Hflag.
  - assert (lane_journal l !! (n, h) = None) as ->.
    { apply eq_None_not_Some. intros [row Hrow]. apply (journal_covered _ Hok) in Hrow as (c & Hc & Hh & _).
      by rewrite (proj2 (covers_block_Some n h l c)) in Hcovers. }
    unfold covers_block in Hcovers. destruct (lane_coverage l !! n) as [c|]; [|done].
    by destruct (bool_decide (covered_hash c = h)).
Qed.

Lemma undo_refused d chain n h sinks l e :
  n ≤ i64_max → undo_row n n h l = Err e → undo env d chain n h sinks l = (l, Err e).
Proof.
  intros Hn He. unfold undo, mbind, eff_bind, gets, lift. cbn [id]. rewrite u64_i64_fits by done. by rewrite He.
Qed.

(** C14: a finalized block is final. Whatever sequence of operations a lane
    goes through from a consistent state (applies of any blocks, repeated,
    conflicting or failing, undos, attested and finalized marks), a block
    that was covered as finalized stays covered by the same hash as
    finalized, and undoing it is refused with nothing changed; the lane
    stays consistent, so that every block it covers below that level can
    still be undone. *)
Theorem finalized_forever p l l' n c chain sinks (Hok : ledger_ok l) (Hsteps : rtc (lane_step p) l l')
    (Hc : lane_coverage l !! n = Some c) (Hf : covered_finality c = Finalized) (Hn : n ≤ i64_max) :
  ledger_ok l' ∧ lane_coverage l' !! n = Some c ∧
  undo env (processor_descriptor p) chain n (covered_hash c) sinks l' = (l', Err (FinalizedUndo n)).
Proof.
  assert (ledger_ok l' ∧ finalized_at l' n c) as [Hok' [Hc' _]].
  { assert (finalized_at l n c) as Hfin by done. clear Hc Hf.
    induction Hsteps as [l|l l1 l' Hstep _ IH]; [done|].
    destruct (step_ok _ _ _ Hok Hstep) as [Hok1 Hfin1]. apply IH; [done|by apply Hfin1]. }
  split; [done|]. split; [done|]. apply undo_refused; [done|].
  pose proof (undo_decided l' n (covered_hash c) Hok') as Hdecided.
  rewrite (proj2 (covers_block_Some n (covered_hash c) l' c)) in Hdecided by done.
  by rewrite bool_decide_eq_true_2 in Hdecided.
Qed.
End ledger.

(** ** On a concrete lane *)

Lemma empty_lane_ok : ledger_ok empty_lane.
Proof. by split. Qed.

Lemma scenario_step (l : Lane) (Hok : ledger_ok l) n b parent f : ledger_ok (scenario_apply n b parent f l).
Proof.
  eapply (step_ok scenario_env scenario_processor l); [done|].
  eapply step_apply. unfold scenario_apply, apply. apply surjective_pairing.
Qed.

Lemma one_final_ok : ledger_ok one_final.
Proof.
  eapply (step_ok scenario_env scenario_processor two_blocks).
  - apply scenario_step, scenario_step, empty_lane_ok.
  - eapply step_finalize. apply surjective_pairing.
Qed.

Lemma finalized_forever_witness :
  let c := MkCovered (scenario_hash x0a) (Some (scenario_hash x09)) Finalized in
  lane_coverage after_reorg !! 10 = Some c ∧ lane_coverage after_reorg !! 11 = None ∧
  undo scenario_env sample_descriptor 1 10 (scenario_hash x0a) [] after_reorg = (after_reorg, Err (FinalizedUndo 10)).
Proof.
  split_and!; [vm_compute; reflexivity|vm_compute; reflexivity|].
  apply (finalized_forever scenario_env scenario_processor one_final after_reorg 10
    (MkCovered (scenario_hash x0a) (Some (scenario_hash x09)) Finalized) 1 []).
  - exact one_final_ok.
  - apply rtc_once. eapply step_undo. apply surjective_pairing.
  - vm_compute. reflexivity.
  - reflexivity.
  - vm_compute. discriminate.
Defined.
