(* ===== verification/Feed.v ===== *)
(** * The delivery feed

    What the streams, their pruning and their consumers promise together
    ([crates/store-sqlite/src/lib.rs]): the writers of the change log, the
    pruner and the consumers' operations, in any order, lose nothing a
    required consumer has not acknowledged. *)
From Stdlib Require Import ZArith Lia Strings.Byte.
From stdpp Require Import gmap strings list list_numbers fin_maps sorting relations.
From S2P Require Import Prelude Bytes Chain Capability Provenance Frame Durable Descriptor Delta Rows Delivery Checkpoints Capacity Registration Consumers Pruning Ledger.

(** ** A dense stream's rows *)

Section dense.
Context (s : Delivery) (id : string) (stream : Stream) (Hdense : stream_dense s id stream).
#[local] Abbreviation rows := (stream_rows s id).
#[local] Abbreviation pruned := (pruned_through_sequence stream).
#[local] Abbreviation next := (next_sequence stream).

Lemma dense_bounds : 0 ≤ pruned < next.
Proof. apply Hdense. Qed.

Lemma dense_sequences : sequences rows = seqZ (pruned + 1) (next - pruned - 1).
Proof. apply Hdense. Qed.

Lemma dense_row row : row ∈ rows → pruned < row_stream_sequence row < next.
Proof.
  intros Hrow. apply (list_elem_of_fmap_2 row_stream_sequence) in Hrow.
  fold (sequences rows) in Hrow. rewrite dense_sequences, elem_of_seqZ in Hrow. lia.
Qed.

Lemma dense_has sequence : pruned < sequence < next → ∃ row, row ∈ rows ∧ row_stream_sequence row = sequence.
Proof.
  intros Hs. assert (sequence ∈ sequences rows) as (row & -> & Hrow)%list_elem_of_fmap; [|by exists row].
  rewrite dense_sequences, elem_of_seqZ. lia.
Qed.

Lemma dense_unique x y : x ∈ rows → y ∈ rows → row_stream_sequence x = row_stream_sequence y → x = y.
Proof.
  intros (i & Hi)%list_elem_of_lookup (j & Hj)%list_elem_of_lookup Heq.
  assert (sequences rows !! i = Some (row_stream_sequence x)) as Hx by (unfold sequences; by rewrite list_lookup_fmap, Hi).
  assert (sequences rows !! j = Some (row_stream_sequence y)) as Hy by (unfold sequences; by rewrite list_lookup_fmap, Hj).
  rewrite dense_sequences in Hx, Hy. apply lookup_seqZ in Hx as [? ?], Hy as [? ?].
  assert (i = j) as -> by lia. congruence.
Qed.

Lemma dense_sorted : StronglySorted (λ x y, (row_stream_sequence x <=? row_stream_sequence y) = true) rows.
Proof.
  assert (StronglySorted Z.lt (sequences rows)) as Hs by (rewrite dense_sequences; apply StronglySorted_seqZ).
  unfold sequences in Hs. clear Hdense. induction rows as [|x l IH]; cbn in *; constructor.
  - apply IH. by apply StronglySorted_inv in Hs as [? _].
  - apply StronglySorted_inv in Hs as [_ Hx]. rewrite Forall_forall in Hx. apply Forall_forall. intros y Hy.
    apply Z.leb_le, Z.lt_le_incl, Hx, list_elem_of_fmap_2, Hy.
Qed.

Lemma dense_sort (f : ChangeRow → bool) :
  sort_by (λ x y, row_stream_sequence x <=? row_stream_sequence y) (List.filter f rows) = List.filter f rows.
Proof.
  apply sort_by_unique; [intros; lia|intros; lia|..|done].
  - intros x y [Hx _]%elem_of_filter_list [Hy _]%elem_of_filter_list Hxy Hyx. apply dense_unique; [done..|lia].
  - apply StronglySorted_filter_list, dense_sorted.
Qed.

Lemma dense_log : stream_log s id = rows.
Proof.
  unfold stream_log. rewrite <-(List.filter_true rows). apply dense_sort.
Qed.

(** The rows after a sequence, and those below one. *)
Lemma dense_above a : sequences (List.filter (λ row, a <? row_stream_sequence row) rows) =
  seqZ (Z.max a pruned + 1) (next - Z.max a pruned - 1).
Proof.
  rewrite (filter_above row_stream_sequence _ _ _ _ dense_sequences). unfold sequences. rewrite fmap_drop.
  fold (sequences rows). rewrite dense_sequences, drop_seqZ.
  destruct (decide (pruned ≤ a)); [f_equal; lia|]. f_equal; lia.
Qed.

Lemma dense_below b : sequences (List.filter (λ row, row_stream_sequence row <? b) rows) =
  seqZ (pruned + 1) (Z.min b next - pruned - 1).
Proof.
  pose proof dense_bounds. rewrite (filter_below row_stream_sequence _ _ _ _ dense_sequences). unfold sequences. rewrite fmap_take.
  fold (sequences rows). rewrite dense_sequences, take_seqZ.
  destruct (decide (pruned + 1 ≤ b)); [f_equal; lia|]. rewrite !seqZ_nil by lia. done.
Qed.

Lemma dense_first : first_sequence s id = if pruned + 1 <? next then Some (pruned + 1) else None.
Proof.
  unfold first_sequence. fold (sequences rows). rewrite dense_sequences. destruct (Z.ltb_spec (pruned + 1) next).
  - apply minimum_spec. rewrite elem_of_seqZ. split; [lia|]. intros x Hx%elem_of_seqZ. lia.
  - by rewrite seqZ_nil by lia.
Qed.

Lemma dense_head : head_sequence s id = if pruned + 1 <? next then Some (next - 1) else None.
Proof.
  unfold head_sequence. fold (sequences rows). rewrite dense_sequences. destruct (Z.ltb_spec (pruned + 1) next).
  - apply maximum_spec. rewrite elem_of_seqZ. split; [lia|]. intros x Hx%elem_of_seqZ. lia.
  - by rewrite seqZ_nil by lia.
Qed.
End dense.

(** ** What grows *)

(** Streams stay, under the same processor and kind; their sequences and
    pruned marks only rise, the marks by [R]; rows below the old end were
    there before. *)
Definition streams_grow (R : relation Z) (s s' : Delivery) : Prop :=
  ∀ id stream, streams s !! id = Some stream → ∃ stream', streams s' !! id = Some stream' ∧
    stream_instance stream' = stream_instance stream ∧ stream_kind stream' = stream_kind stream ∧
    next_sequence stream ≤ next_sequence stream' ∧
    R (pruned_through_sequence stream) (pruned_through_sequence stream') ∧
    ∀ row, row ∈ stream_rows s' id → row_stream_sequence row < next_sequence stream → row ∈ stream_rows s id.

#[export] Instance streams_grow_preorder R `{!PreOrder R} : PreOrder (streams_grow R).
Proof.
  split.
  - intros s id stream Hs. exists stream. split_and!; done.
  - intros s1 s2 s3 H12 H23 id stream Hs.
    destruct (H12 _ _ Hs) as (stream2 & Hs2 & Hi2 & Hk2 & Hn2 & Hp2 & Hr2).
    destruct (H23 _ _ Hs2) as (stream3 & Hs3 & Hi3 & Hk3 & Hn3 & Hp3 & Hr3).
    exists stream3. split_and!; [done|congruence|congruence|lia|by etrans|].
    intros row Hrow Hlt. apply Hr2; [apply Hr3; [done|lia]|done].
Qed.

Lemma streams_grow_weaken (R R' : relation Z) s s' :
  (∀ x y, R x y → R' x y) → streams_grow R s s' → streams_grow R' s s'.
Proof.
  intros HR Hg id stream Hs. destruct (Hg _ _ Hs) as (stream' & ? & ? & ? & ? & ? & ?).
  exists stream'. split_and!; auto.
Qed.

(** What a writer of the log does. *)
Definition writes (s s' : Delivery) : Prop := delivery_ok s → delivery_ok s' ∧ streams_grow eq s s'.

#[export] Instance writes_preorder : PreOrder writes.
Proof.
  split; [done|]. intros s1 s2 s3 H12 H23 H1. destruct (H12 H1) as [H2 G12], (H23 H2) as [H3 G23].
  split; [done|by etrans].
Qed.

Lemma with_parked_writes s rows : writes s (with_parked s rows).
Proof. intros [? ? ? Hd ?]. split; [by split|]. intros id stream Hs. exists stream. split_and!; done. Qed.

Lemma append_changes_writes instance stream origin chain block finality direction sinks now s changes s' r :
  append_changes instance stream origin chain block finality direction sinks now s changes = Ok (s', r) → writes s s'.
Proof.
  intros Ha Hok. pose proof (append_changes_ok _ _ _ _ _ _ _ _ _ _ _ _ _ Hok Ha) as Hok'. split; [done|].
  destruct r as [first last].
  assert (∃ st, streams s !! stream = Some st) as [st Hst].
  { unfold append_changes in Ha. destruct (streams s !! stream); [by eexists|done]. }
  eapply append_changes_Ok in Ha as (-> & _ & _); [|exact Hst].
  intros id st' Hid. cbn [streams]. destruct (decide (id = stream)) as [-> | Hne].
  - rewrite Hst in Hid. injection Hid as <-. rewrite lookup_insert_eq. eexists. split; [done|]. cbn.
    split_and!; [done..|lia|done|]. intros row. unfold stream_rows. cbn. rewrite filter_list_app, appended_filter.
    rewrite bool_decide_eq_true_2 by done. intros [Hrow|Hrow]%elem_of_app Hlt; [done|].
    apply (list_elem_of_fmap_2 row_stream_sequence) in Hrow.
    rewrite appended_sequences, elem_of_seqZ in Hrow. lia.
  - rewrite lookup_insert_ne by done. exists st'. split_and!; [done..|]. intros row.
    unfold stream_rows. cbn. rewrite filter_list_app, appended_filter. rewrite bool_decide_eq_false_2 by done.
    by rewrite app_nil_r.
Qed.

Lemma release_row_writes instance finality now s row s' :
  release_row instance finality now s row = Ok s' → writes s s'.
Proof.
  intros ([s1 r] & H1%append_changes_writes & [= <-])%result_bind_Ok.
  etrans; [done|apply with_parked_writes].
Qed.

Lemma release_deferred_writes instance through finality now s s' released :
  release_deferred_changes instance through finality now s = Ok (s', released) → writes s s'.
Proof.
  unfold release_deferred_changes. intros (n & _ & H)%result_bind_Ok. revert H.
  generalize (S (length (parked s))), false. intros fuel. revert s.
  induction fuel as [|fuel IH]; intros s b; cbn [release_loop]; [by intros [= <- _]|].
  destruct (take _ _) as [|row rows]; [by intros [= <- _]|]. intros (s1 & Hf & H)%result_bind_Ok.
  assert (writes s s1) as Hw.
  { apply (fold_result_invariant (λ s', writes s s') _ _ _ _) in Hf; [done| |done].
    intros s2 r s3 H2 H3%release_row_writes. by etrans. }
  destruct (_ <? _)%nat; [by injection H as <- _|]. etrans; [done|by eapply IH].
Qed.

(** ** The consumers of a stream *)

Record consumer_ok (s : Delivery) (stream_id : string) (c : Consumer) : Prop := MkConsumerOk {
  acknowledged_nonneg : 0 ≤ acknowledged_sequence c;
  acknowledged_delivered : acknowledged_sequence c ≤ delivered_sequence c;
  generation_nonneg : 0 ≤ lease_generation c;
  acknowledged_in_stream : ∃ stream, streams s !! stream_id = Some stream ∧
    acknowledged_sequence c < next_sequence stream ∧
    (consumer_role c = ConsumerRequired → consumer_state c = ConsumerActive →
      pruned_through_sequence stream ≤ acknowledged_sequence c);
}.

(** A consumer's row over time. *)
Record consumer_progress (c c' : Consumer) : Prop := MkConsumerProgress {
  role_kept : consumer_role c' = consumer_role c;
  inactive_stays : consumer_state c' = ConsumerActive → consumer_state c = ConsumerActive;
  acknowledged_rises : acknowledged_sequence c ≤ acknowledged_sequence c';
  delivered_rises : delivered_sequence c ≤ delivered_sequence c';
  generation_rises : lease_generation c ≤ lease_generation c';
  identity_kept : consumer_credential c' = consumer_credential c ∧ lease_ttl_ms c' = lease_ttl_ms c ∧
    consumer_created_at c' = consumer_created_at c;
}.

#[export] Instance consumer_progress_preorder : PreOrder consumer_progress.
Proof.
  split; [intros c; split; [done..|lia|lia|lia|done]|].
  intros c1 c2 c3 [? ? ? ? ? (? & ? & ?)] [? ? ? ? ? (? & ? & ?)].
  split; [congruence|auto|lia|lia|lia|split_and!; congruence].
Qed.

(** The same position, under a role kept and no fresh activity. *)
Lemma consumer_ok_same s id c c' :
  consumer_ok s id c → consumer_progress c c' → acknowledged_sequence c' = acknowledged_sequence c →
  consumer_ok s id c'.
Proof.
  intros [? ? ? (stream & ? & ? & Hp)] [Hrole Hactive ? ? ? _] Heq.
  split; [lia..|]. exists stream. rewrite Heq, Hrole. split_and!; auto.
Qed.

Lemma consumer_ok_writes s s' id c : streams_grow eq s s' → consumer_ok s id c → consumer_ok s' id c.
Proof.
  intros Hg [? ? ? (stream & Hs & Hn & Hp)]. split; [done..|].
  destruct (Hg _ _ Hs) as (stream' & ? & _ & _ & ? & Heq & _). exists stream'.
  split_and!; [done|lia|]. intros ? ?. rewrite <-Heq. auto.
Qed.

(** ** The feed *)

Record feed_ok (r : Registry) : Prop := MkFeedOk {
  feed_delivery : delivery_ok (registry_delivery r);
  feed_consumers stream_id consumer_id c :
    consumer_row r stream_id consumer_id = Some c → consumer_ok (registry_delivery r) stream_id c;
}.

Definition consumers_advance (r r' : Registry) : Prop :=
  ∀ stream_id consumer_id c, consumer_row r stream_id consumer_id = Some c →
    ∃ c', consumer_row r' stream_id consumer_id = Some c' ∧ consumer_progress c c'.

(** What every operation does to the feed. *)
Record advance (r r' : Registry) : Prop := MkAdvance {
  advance_ok : feed_ok r';
  advance_streams : streams_grow Z.le (registry_delivery r) (registry_delivery r');
  advance_consumers : consumers_advance r r';
}.

Definition advances (r r' : Registry) : Prop := feed_ok r → advance r r'.

#[export] Instance advances_preorder : PreOrder advances.
Proof.
  split.
  - intros r Hok. split; [done|done|]. intros sid cid c Hc. by exists c.
  - intros r1 r2 r3 H12 H23 H1. destruct (H12 H1) as [H2 G12 C12], (H23 H2) as [H3 G23 C23].
    split; [done|by etrans|]. intros sid cid c Hc. destruct (C12 _ _ _ Hc) as (c2 & Hc2 & ?).
    destruct (C23 _ _ _ Hc2) as (c3 & Hc3 & ?). exists c3. split; [done|by etrans].
Qed.

(** Writes of the log alone. *)
Lemma advance_delivery r s : writes (registry_delivery r) s → advances r (with_delivery r s).
Proof.
  intros Hw [Hd Hc]. destruct (Hw Hd) as [Hd' Hg]. split.
  - split; [done|]. intros sid cid c Hrow. by eapply consumer_ok_writes, Hc.
  - eapply streams_grow_weaken; [|done]. by intros x y ->.
  - intros sid cid c Hrow. by exists c.
Qed.

(** Registries with the same feed. *)
Lemma advance_same r r' :
  registry_delivery r' = registry_delivery r →
  consumers (registry_admission r') = consumers (registry_admission r) → advances r r'.
Proof.
  intros Hs Hc [Hd Hok].
  assert (∀ sid cid, consumer_row r' sid cid = consumer_row r sid cid) as Hrow
    by (intros; unfold consumer_row; by rewrite Hc).
  split.
  - split; [by rewrite Hs|]. intros sid cid c. rewrite Hrow, Hs. apply Hok.
  - by rewrite Hs.
  - intros sid cid c Hcr. exists c. by rewrite Hrow.
Qed.

(** Any change of the consumers' rows. *)
Lemma advance_admission r a :
  (∀ sid cid c, consumer_row r sid cid = Some c → ∃ c', consumers a !! (sid, cid) = Some c' ∧ consumer_progress c c') →
  (∀ sid cid c', feed_ok r → consumers a !! (sid, cid) = Some c' → consumer_ok (registry_delivery r) sid c') →
  advances r (with_admission r a).
Proof.
  intros Hp Hc Hok. split; [|done|].
  - split; [apply Hok|]. intros sid cid c'. unfold consumer_row. cbn. by apply Hc.
  - intros sid cid c Hrow. by apply Hp.
Qed.

Lemma consumer_row_put sid cid c r sid' cid' :
  consumer_row (put_consumer sid cid c r) sid' cid' =
    if decide ((sid, cid) = (sid', cid')) then Some c else consumer_row r sid' cid'.
Proof.
  unfold consumer_row, put_consumer. cbn. destruct (decide ((sid, cid) = (sid', cid'))) as [-> | Hne].
  - by rewrite lookup_insert_eq.
  - by rewrite lookup_insert_ne.
Qed.

Lemma advance_put r sid cid c :
  (∀ c0, consumer_row r sid cid = Some c0 → consumer_progress c0 c) →
  (feed_ok r → consumer_ok (registry_delivery r) sid c) →
  advances r (put_consumer sid cid c r).
Proof.
  intros Hp Hc. unfold put_consumer. apply advance_admission; cbn.
  - intros sid' cid' c' Hrow. destruct (decide ((sid, cid) = (sid', cid'))) as [[= <- <-]|Hne].
    + exists c. rewrite lookup_insert_eq. split; [done|by apply Hp].
    + exists c'. by rewrite lookup_insert_ne.
  - intros sid' cid' c' Hok [[[= <- <-] <-]|[_ Hrow]]%lookup_insert_Some; [by apply Hc|].
    by eapply feed_consumers.
Qed.

(** An [UPDATE] that keeps the position, or moves it within the stream. *)
Lemma update_consumer_advances sid cid matches f :
  (∀ r c c', feed_ok r → consumer_row r sid cid = Some c → matches c = true → f c = Ok c' →
     consumer_progress c c' ∧ (acknowledged_sequence c' = acknowledged_sequence c ∨
       consumer_ok (registry_delivery r) sid c')) →
  keeps advances (update_consumer sid cid matches f).
Proof.
  intros Hf r r' res. unfold update_consumer, gets. unfold mbind at 1, eff_bind at 1. cbn [id].
  destruct (consumer_row r sid cid) as [c|] eqn:Hc; [|by intros [= <- _]].
  destruct (matches c) eqn:Hm; [|by intros [= <- _]].
  unfold mbind at 1, eff_bind at 1, lift at 1. destruct (f c) as [c'|e] eqn:Hfc; [|by intros [= <- _]].
  intros [= <- _] Hok. destruct (Hf _ _ _ Hok Hc Hm Hfc) as [Hp Hpos].
  apply advance_put; [by intros c0 [= <-]%(eq_trans (eq_sym Hc))| |done]. intros _.
  destruct Hpos as [Heq|?]; [|done]. eapply consumer_ok_same; [by eapply feed_consumers|done|done].
Qed.

(** A lifted check: it stops the run, or hands its value on. *)
Lemma lift_run {S E A B} (c : result E A) (f : A → eff S E B) s s' r :
  (lift c ≫= f) s = (s', r) → (s' = s ∧ ∃ e, r = Err e) ∨ ∃ a, c = Ok a ∧ f a s = (s', r).
Proof.
  unfold mbind, eff_bind, lift. destruct c as [a|e]; [intros Hr; right; by exists a|].
  intros [= <- <-]. left. split; [done|by exists e].
Qed.

(** Open a run whose state is the first one until a check stops it. *)
Ltac run_lift H a Ha :=
  apply lift_run in H as [[-> _]|(a & Ha & H)]; [done|].

(** ** Each operation *)

Lemma insert_stream_writes id instance kind s :
  writes s (MkDelivery (insert_new id (MkStream instance kind 1 0 0) (streams s))
    (change_log s) (last_rowid s) (sink_outbox s) (parked s)).
Proof.
  intros [Hasc Hbound Hhave Hdense Hout]. split.
  - split; cbn; [done..|intros row Hrow|intros k st|done].
    + rewrite lookup_insert_new. destruct (Hhave row Hrow) as [st ->]. by eexists.
    + rewrite lookup_insert_new. destruct (streams s !! k) as [st'|] eqn:Hk; [intros [= <-]; by apply (Hdense k)|].
      destruct (decide (k = id)) as [-> |]; [|done]. intros [= <-].
      assert (stream_rows s id = []) as Hnil.
      { destruct (stream_rows s id) as [|row rows] eqn:Hr; [done|].
        assert (row ∈ stream_rows s id) as [Hrow Hid]%elem_of_filter_list by (rewrite Hr; by left).
        apply bool_decide_eq_true in Hid. destruct (Hhave row Hrow) as [st Hst]. congruence. }
      unfold stream_dense, stream_rows in *. cbn. rewrite Hnil. split_and!; [lia|lia|done..].
  - intros k st Hk. exists st. cbn. rewrite lookup_insert_new, Hk. split_and!; done.
Qed.

Section operations.
Context `{!Blake3} `{!DescriptorJson} `{!DescriptorParse} {HE : Type} `{!Hex HE}.
Context (credential_hash : list byte → list byte).

Lemma register_processor_advances now d : keeps advances (register_processor now d).
Proof.
  unfold register_processor. keeps_all; try (apply keeps_modify; intros r; try by apply advance_same).
  - unfold insert_stream. apply advance_delivery, insert_stream_writes.
  - apply keeps_transact; [apply _|]. intros r r' u (r1 & Hr1 & [= <- _])%result_bind_Ok.
    unfold replace_descriptor in Hr1. destruct (_ && _); [|injection Hr1 as <-; by apply advance_same].
    apply result_bind_Ok in Hr1 as (at_ms & _ & Hr1). apply result_bind_Ok in Hr1 as ([s b] & Hs & [= <-]).
    apply release_deferred_writes in Hs. cbn [registry_delivery] in Hs.
    match goal with |- advances _ (with_delivery ?mid _) => trans mid end; [by apply advance_same|].
    by apply advance_delivery.
Qed.

Lemma consumer_after_advances now d stream_id consumer_id detail :
  keeps advances (consumer_after now d stream_id consumer_id detail).
Proof. unfold consumer_after. keeps_all. Qed.

(** A position within the stream's retained rows. *)
Lemma start_position_bounds s id stream start earliest latest acknowledged :
  stream_dense s id stream →
  opt_i64_u64 (first_sequence s id) "earliest change sequence" = Ok earliest →
  opt_i64_u64 (head_sequence s id) "latest change sequence" = Ok latest →
  start_position start earliest latest (pruned_through_sequence stream) = Ok acknowledged →
  pruned_through_sequence stream ≤ acknowledged < next_sequence stream.
Proof.
  intros Hd. pose proof (dense_bounds _ _ _ Hd). rewrite (dense_first _ _ _ Hd), (dense_head _ _ _ Hd).
  unfold opt_i64_u64, start_position, i64_u64.
  destruct (Z.ltb_spec (pruned_through_sequence stream + 1) (next_sequence stream)).
  - rewrite !(proj2 (Z.leb_le _ _)) by lia. cbn. intros [= <-] [= <-].
    destruct start as [| |sequence]; cbn.
    + intros [= <-]. unfold sat_sub. lia.
    + intros [= <-]. lia.
    + repeat case_match; intros [= <-]. lia.
  - intros [= <-] [= <-]. destruct start as [| |sequence]; cbn; [intros [= <-]; lia..|].
    repeat case_match; intros [= <-]. lia.
Qed.

Lemma create_consumer_advances now now_after d stream_id consumer_id role start ttl credential :
  keeps advances (create_consumer_inner credential_hash now now_after d stream_id consumer_id role start ttl credential).
Proof.
  unfold create_consumer_inner. apply keeps_bind; [apply _|keeps_all|intros []].
  apply keeps_bind; [apply _|apply register_processor_advances|intros instance].
  intros r r' res. unfold gets. unfold mbind at 1, eff_bind at 1. cbn [id]. intros Hrun.
  assert (∀ x, x = r → advances r x) as Hrefl by by intros x ->.
  run_lift Hrun u1 Hok_u1.
  run_lift Hrun u2 Hok_u2.
  destruct (consumer_row r stream_id consumer_id) as [c|] eqn:Hc; cbn [is_some_and] in Hrun.
  { by apply lift_run in Hrun as [[-> _]|(? & ? & _)]. }
  run_lift Hrun u3 Hok_u3.
  run_lift Hrun u4 Hok_u4.
  run_lift Hrun u5 Hok_u5.
  run_lift Hrun stream Hstream.
  run_lift Hrun earliest He.
  run_lift Hrun latest Hl.
  run_lift Hrun pruned Hp.
  run_lift Hrun acknowledged Hack.
  run_lift Hrun at_ms Hok_at_ms.
  run_lift Hrun expires Hok_expires.
  run_lift Hrun stored Hst.
  destruct (ttl / 1000000 <=? 0); [by apply lift_run in Hrun as [[-> _]|(? & ? & _)]|].
  unfold modify in Hrun. unfold mbind at 1, eff_bind at 1 in Hrun. apply consumer_after_advances in Hrun.
  etrans; [|exact Hrun]. apply advance_put; [by rewrite Hc|]. intros [Hd _].
  destruct (streams (registry_delivery r) !! stream_id) as [stream'|] eqn:Hs; [|done]. injection Hstream as ->.
  pose proof (streams_dense _ Hd _ _ Hs) as Hdense. pose proof (dense_bounds _ _ _ Hdense).
  unfold i64_u64 in Hp. destruct (_ <=? _) in Hp; [|done]. injection Hp as <-.
  pose proof (start_position_bounds _ _ _ _ _ _ _ Hdense He Hl Hack).
  apply u64_i64_Ok in Hst as [-> _]. split; cbn; [lia..|]. exists stream. split_and!; [done|lia|lia].
Qed.

(** An [UPDATE] that leaves the position alone. *)
Lemma update_in_place sid cid matches f :
  (∀ c c', matches c = true → f c = Ok c' →
    consumer_progress c c' ∧ acknowledged_sequence c' = acknowledged_sequence c) →
  keeps advances (update_consumer sid cid matches f).
Proof. intros Hf. apply update_consumer_advances. intros r c c' _ _ Hm Hc. destruct (Hf _ _ Hm Hc). auto. Qed.

Lemma renewed_progress now c c' :
  renewed now c = Ok c' → consumer_progress c c' ∧ acknowledged_sequence c' = acknowledged_sequence c.
Proof. unfold renewed. intros (e & _ & [= <-])%result_bind_Ok. split; [|done]. split; cbn; try done; lia. Qed.

Lemma with_state_progress c state now :
  state ≠ ConsumerActive → consumer_progress c (with_consumer_state c state now).
Proof. intros Hs. split; cbn; try done; lia. Qed.

Lemma renew_consumer_advances now now_after d stream_id consumer_id :
  keeps advances (renew_consumer_in_stream now now_after d stream_id consumer_id).
Proof.
  unfold renew_consumer_in_stream. keeps_all; [|apply consumer_after_advances].
  apply update_in_place. intros c c' _. apply renewed_progress.
Qed.

Lemma acquire_session_advances now d stream_id consumer_id :
  keeps advances (acquire_consumer_session_in_stream now d stream_id consumer_id).
Proof.
  intros r r' res. unfold acquire_consumer_session_in_stream, gets. unfold mbind at 1, eff_bind at 1. cbn [id]. intros Hrun.
  run_lift Hrun u1 Hok_u1.
  run_lift Hrun at_ms Hok_at_ms.
  run_lift Hrun c Hc.
  run_lift Hrun u2 Hok_u2.
  run_lift Hrun old Hold.
  run_lift Hrun u3 Hok_u3.
  run_lift Hrun next Hnext.
  run_lift Hrun expiry Hok_expiry.
  run_lift Hrun stored Hstored.
  unfold modify in Hrun. unfold mbind at 1, eff_bind at 1 in Hrun.
  assert (r' = put_consumer stream_id consumer_id (MkConsumer (consumer_role c) (consumer_state c)
    (acknowledged_sequence c) (delivered_sequence c) (acknowledged_work_blocks c) stored (lease_ttl_ms c) expiry
    (consumer_created_at c) at_ms (consumer_credential c)) r) as ->
    by by apply lift_run in Hrun as [[-> _]|(? & _ & [= <- _])].
  destruct (consumer_row r stream_id consumer_id) as [c0|] eqn:Hrow; [|done]. injection Hc as ->.
  unfold i64_u64 in Hold. destruct (_ <=? _) in Hold; [|done]. injection Hold as <-.
  apply checked_sum_Ok in Hnext as [-> _]. apply u64_i64_Ok in Hstored as [-> _].
  assert (consumer_progress c (MkConsumer (consumer_role c) (consumer_state c) (acknowledged_sequence c)
    (delivered_sequence c) (acknowledged_work_blocks c) (lease_generation c + 1) (lease_ttl_ms c) expiry
    (consumer_created_at c) at_ms (consumer_credential c))) as Hp by (split; cbn; try done; lia).
  apply advance_put; [by intros c0 [= <-]%(eq_trans (eq_sym Hrow))|].
  intros Hok. eapply consumer_ok_same; [by eapply feed_consumers|done|done].
Qed.

Lemma renew_session_advances now stream_id consumer_id generation :
  keeps advances (renew_consumer_session_in_stream now stream_id consumer_id generation).
Proof.
  unfold renew_consumer_session_in_stream. keeps_all.
  apply update_in_place. intros c c' _. apply renewed_progress.
Qed.

Lemma release_session_advances now stream_id consumer_id generation :
  keeps advances (release_consumer_session_in_stream now stream_id consumer_id generation).
Proof.
  unfold release_consumer_session_in_stream. keeps_all.
  apply update_in_place. intros c c' _ [= <-]. split; [|done]. split; cbn; try done; lia.
Qed.

Lemma raise_delivered_advances now stream_id consumer_id session sequence :
  keeps advances (raise_delivered now stream_id consumer_id session sequence).
Proof.
  unfold raise_delivered. keeps_all.
  apply update_in_place. intros c c' _ [= <-]. split; [|done]. split; cbn; try done; lia.
Qed.

Lemma record_delivery_advances now now_write stream_id consumer_id session sequence :
  keeps advances (record_consumer_delivery_in_stream now now_write stream_id consumer_id session sequence).
Proof. unfold record_consumer_delivery_in_stream. keeps_all. apply raise_delivered_advances. Qed.

Lemma consumer_changes_loop_advances fuel now d stream_id chain_id consumer_id after limit :
  keeps advances (consumer_changes_loop fuel now d stream_id chain_id consumer_id after limit).
Proof.
  induction fuel as [|fuel IH]; cbn [consumer_changes_loop]; keeps_all; [|apply IH].
  unfold mark_overtaken. keeps_all. apply update_in_place. intros c c' _ [= <-].
  split; [by apply with_state_progress|done].
Qed.

Lemma consumer_changes_advances fuel now d stream_id chain_id consumer_id limit :
  keeps advances (consumer_changes_in_stream fuel now d stream_id chain_id consumer_id limit).
Proof.
  unfold consumer_changes_in_stream, consumer_changes_after_in_stream. keeps_all.
  apply consumer_changes_loop_advances.
Qed.

Lemma transition_consumer_advances now now_after d consumer_id state :
  state ≠ ConsumerActive → keeps advances (transition_consumer now now_after d consumer_id state).
Proof.
  intros Hs. unfold transition_consumer. keeps_all; [|apply consumer_after_advances].
  apply update_in_place. intros c c' _ [= <-]. split; [by apply with_state_progress|done].
Qed.

(** ** What an acknowledgement writes *)

(** Where a session lets the lease of its consumer run to. *)
Definition session_lease (session : option Z) (at_ms : Z) (c : Consumer) (expires : Z) : Prop :=
  match session with
  | None => expires = lease_expires_at c
  | Some generation => lease_generation c = generation ∧ at_ms < lease_expires_at c ∧
      expires = at_ms + lease_ttl_ms c ∧ expires ≤ i64_max
  end.

(** An acknowledgement the store takes. *)
Record acknowledgeable (s : Delivery) (stream_id : string) (session : option Z) (sequence at_ms : Z) (c : Consumer)
    (newly expires : Z) : Prop := MkAcknowledgeable {
  acknowledges_active : consumer_state c = ConsumerActive;
  acknowledges_position : 0 ≤ acknowledged_sequence c ≤ sequence;
  acknowledges_fits : sequence ≤ i64_max;
  acknowledges_checked :
    acknowledged_sequence c < sequence → check_acknowledgement s stream_id c sequence = Ok ();
  acknowledges_work : acknowledged_work s stream_id (acknowledged_sequence c) sequence = Ok newly;
  acknowledges_work_fits : 0 ≤ acknowledged_work_blocks c ∧ acknowledged_work_blocks c + newly ≤ i64_max;
  acknowledges_lease : session_lease session at_ms c expires;
}.

Lemma i64_u64_Ok value field z : i64_u64 value field = Ok z ↔ z = value ∧ 0 ≤ value.
Proof. unfold i64_u64. destruct (Z.leb_spec 0 value); split; [by intros [= <-]|by intros [-> _]|done|lia]. Qed.

Lemma checked_i64_Ok value field z : checked_i64 value field = Ok z ↔ z = value ∧ value ≤ i64_max.
Proof. unfold checked_i64. destruct (Z.leb_spec value i64_max); split; [by intros [= <-]|by intros [-> _]|done|lia]. Qed.

Lemma update_consumer_run sid cid matches f r c c' :
  consumer_row r sid cid = Some c → matches c = true → f c = Ok c' →
  update_consumer sid cid matches f r = (put_consumer sid cid c' r, Ok true).
Proof.
  intros Hc Hm Hf. unfold update_consumer, gets. unfold mbind at 1, eff_bind at 1. cbn [id].
  rewrite Hc, Hm. unfold mbind at 1, eff_bind at 1, lift at 1. by rewrite Hf.
Qed.

Lemma update_consumer_miss sid cid matches f r :
  (∀ c, consumer_row r sid cid = Some c → matches c = false) →
  update_consumer sid cid matches f r = (r, Ok false).
Proof.
  intros Hm. unfold update_consumer, gets. unfold mbind at 1, eff_bind at 1. cbn [id].
  destruct (consumer_row r sid cid) as [c|]; [|done]. by rewrite (Hm c).
Qed.

Lemma lift_cons {S E A B} (c : result E A) (f : A → eff S E B) s a : c = Ok a → (lift c ≫= f) s = f a s.
Proof. by intros ->. Qed.

Lemma gets_cons {S E A B} (g : S → A) (f : A → eff S E B) s : (gets g ≫= f) s = f (g s) s.
Proof. done. Qed.

(** The record a sequence may acknowledge up to: on a live stream the last of
    a commit's, on a backfill stream a progress or completion mark. *)
Definition boundary (s : Delivery) (stream_id : string) (kind : DeliveryStreamKind) (sequence : Z) : Prop :=
  match kind with
  | StreamCanonical => True
  | StreamLive => ∀ x y, x ∈ stream_rows s stream_id → y ∈ stream_rows s stream_id →
      row_stream_sequence x = sequence → row_stream_sequence y = sequence + 1 → same_commit y x = false
  | StreamBackfill => ∃ x, x ∈ stream_rows s stream_id ∧ row_stream_sequence x = sequence ∧
      (change_kind (row_change x) = backfill_progress_kind ∨ change_kind (row_change x) = backfill_complete_kind)
  end.

(** The first row that matches, of rows in sequence order. *)
Lemma head_filter_first s id stream f x :
  stream_dense s id stream → List.head (List.filter f (stream_rows s id)) = Some x ↔
  x ∈ stream_rows s id ∧ f x = true ∧
    ∀ y, y ∈ stream_rows s id → f y = true → row_stream_sequence x ≤ row_stream_sequence y.
Proof.
  intros Hd. pose proof (StronglySorted_filter_list _ f _ (dense_sorted _ _ _ Hd)) as Hs.
  assert (∀ z, z ∈ List.filter f (stream_rows s id) ↔ z ∈ stream_rows s id ∧ f z = true) as Hin
    by (intros; apply elem_of_filter_list).
  destruct (List.filter f (stream_rows s id)) as [|z l]; cbn.
  - split; [done|]. intros (Hx & Hf & _). exfalso. by apply (not_elem_of_nil x), Hin.
  - apply StronglySorted_inv in Hs as [_ Hz]. rewrite Forall_forall in Hz.
    destruct (proj1 (Hin z) ltac:(by left)) as [Hz1 Hz2]. split.
    + intros [= <-]. split_and!; [done..|]. intros y Hy Hfy.
      assert (y ∈ z :: l) as [-> | Hyl]%elem_of_cons by (by apply Hin); [lia|]. apply Hz in Hyl. lia.
    + intros (Hx & Hf & Hle). f_equal. apply (dense_unique _ _ _ Hd); [done..|].
      specialize (Hle z Hz1 Hz2). assert (x ∈ z :: l) as [-> | Hxl]%elem_of_cons by (by apply Hin); [done|].
      apply Hz in Hxl. lia.
Qed.

Lemma dense_lookup s id stream sequence x :
  stream_dense s id stream →
  List.head (List.filter (λ row, row_stream_sequence row =? sequence) (stream_rows s id)) = Some x ↔
  x ∈ stream_rows s id ∧ row_stream_sequence x = sequence.
Proof.
  intros Hd. rewrite (head_filter_first _ _ _ _ _ Hd). split; [intros (? & ?%Z.eqb_eq & _); done|].
  intros [? ?]. split_and!; [done|by apply Z.eqb_eq|]. intros y _ ?%Z.eqb_eq. lia.
Qed.

(** The row an acknowledgement leaves. *)
Lemma acknowledge_row_Ok now instance stream_id consumer_id session sequence r r' :
  acknowledge_row now instance stream_id consumer_id session sequence r = (r', Ok true) →
  ∃ at_ms c newly expires, now = Ok at_ms ∧ consumer_row r stream_id consumer_id = Some c ∧
    acknowledgeable (registry_delivery r) stream_id session sequence at_ms c newly expires ∧
    r' = put_consumer stream_id consumer_id
      (acknowledged_row sequence (acknowledged_work_blocks c + newly) expires at_ms c) r.
Proof.
  unfold acknowledge_row.
  intros Hrun. run_step Hrun r0 r1 Hs. injection Hs as <- <-. cbn [id] in Hrun.
  run_step Hrun r0 at_ms Hs. apply lift_Ok in Hs as [-> Hnow].
  run_step Hrun r0 c Hs. apply lift_Ok in Hs as [-> Hc].
  destruct (consumer_row r stream_id consumer_id) as [c0|] eqn:Hrow; [|done]. injection Hc as ->.
  run_step Hrun r0 u1 Hs. apply lift_Ok in Hs as [-> Hactive].
  assert (is_active c = true) as Ha by by destruct (is_active c). clear Hactive.
  run_step Hrun r0 ack Hs. apply lift_Ok in Hs as [-> [-> Hack]%i64_u64_Ok].
  run_step Hrun r0 held Hs. apply lift_Ok in Hs as [-> Hheld].
  destruct held; cbn [negb] in Hrun; [|by apply lift_Ok in Hrun as [_ ?]].
  run_step Hrun r0 work Hs. apply lift_Ok in Hs as [-> [-> Hwork]%i64_u64_Ok].
  run_step Hrun r0 u2 Hs. apply lift_Ok in Hs as [-> Hcheck].
  run_step Hrun r0 newly Hs. apply lift_Ok in Hs as [-> Hnewly].
  run_step Hrun r0 work_sum Hs. apply lift_Ok in Hs as [-> [-> _]%checked_sum_Ok].
  run_step Hrun r0 stored Hs. apply lift_Ok in Hs as [-> [-> Hfits]%u64_i64_Ok].
  run_step Hrun r0 stored Hs. apply lift_Ok in Hs as [-> [-> Hwork_fits]%u64_i64_Ok].
  run_step Hrun r0 updated Hs. destruct updated; [|by apply lift_Ok in Hrun as [_ ?]].
  apply lift_Ok in Hrun as [-> _].
  assert (∃ expires, session_lease session at_ms c expires ∧ r0 = put_consumer stream_id consumer_id
    (acknowledged_row sequence (acknowledged_work_blocks c + newly) expires at_ms c) r) as (expires & Hlease & ->).
  { destruct session as [generation|].
    - run_step Hs r1 expires He. apply lift_Ok in He as [-> [-> Hexpires]%checked_i64_Ok].
      run_step Hs r1 stored He. apply lift_Ok in He as [-> [-> _]%u64_i64_Ok].
      destruct (is_active c && session_holds generation at_ms c) eqn:Hm.
      + erewrite update_consumer_run in Hs by done. injection Hs as <-. apply andb_prop in Hm as [_ Hm].
        unfold session_holds in Hm. apply andb_prop in Hm as [Hm1%Z.eqb_eq Hm2%Z.ltb_lt].
        eexists. split; [|done]. done.
      + rewrite update_consumer_miss in Hs; [done|]. intros c'. rewrite Hrow. by intros [= <-].
    - erewrite update_consumer_run in Hs by done. injection Hs as <-. eexists. split; [|done]. done. }
  exists at_ms, c, newly, expires. split_and!; [done..| |done].
  unfold is_active in Ha. apply bool_decide_eq_true in Ha.
  destruct (Z.ltb_spec sequence (acknowledged_sequence c)); [done|].
  split; try done. intros Hlt. rewrite (proj2 (Z.ltb_lt _ _)) in Hcheck by done. by destruct u2.
Qed.

Lemma acknowledge_row_run now instance stream_id consumer_id session sequence r at_ms c newly expires :
  now = Ok at_ms → consumer_row r stream_id consumer_id = Some c → 0 ≤ lease_generation c ≤ i64_max →
  acknowledgeable (registry_delivery r) stream_id session sequence at_ms c newly expires →
  acknowledge_row now instance stream_id consumer_id session sequence r =
    (put_consumer stream_id consumer_id
      (acknowledged_row sequence (acknowledged_work_blocks c + newly) expires at_ms c) r, Ok true).
Proof.
  unfold acknowledge_row.
  intros Hnow Hrow Hgen [Hactive Hpos Hfits Hcheck Hnewly Hwork Hlease].
  unfold gets. unfold mbind at 1, eff_bind at 1. cbn [id].
  assert (is_active c = true) as Ha by by apply bool_decide_eq_true.
  assert (i64_max < u64_max) by uints.
  rewrite (lift_cons _ _ _ _ Hnow), (lift_cons _ _ _ c) by by rewrite Hrow.
  rewrite Ha, (lift_cons _ _ _ tt) by done.
  rewrite (lift_cons _ _ _ (acknowledged_sequence c)) by (apply i64_u64_Ok; lia).
  rewrite (lift_cons _ _ _ true).
  2: { destruct session as [generation|]; [|done]. destruct Hlease as (Hg & Hlt & _).
       rewrite (proj2 (i64_u64_Ok (lease_generation c) _ generation)) by lia. cbn.
       by rewrite Z.eqb_refl, (proj2 (Z.leb_gt _ _)). }
  cbn [negb]. rewrite (lift_cons _ _ _ (acknowledged_work_blocks c)) by (apply i64_u64_Ok; lia).
  rewrite (lift_cons _ _ _ tt).
  2: { rewrite (proj2 (Z.ltb_ge _ _)) by lia. destruct (Z.ltb_spec (acknowledged_sequence c) sequence); auto. }
  rewrite (lift_cons _ _ _ newly) by done.
  rewrite (lift_cons _ _ _ (acknowledged_work_blocks c + newly)) by (apply checked_sum_Ok; lia).
  rewrite (lift_cons _ _ _ sequence) by by apply u64_i64_Ok.
  rewrite (lift_cons _ _ _ (acknowledged_work_blocks c + newly)) by (apply u64_i64_Ok; lia).
  destruct session as [generation|].
  + destruct Hlease as (Hg & Hlt & -> & Hle). set (r1 := put_consumer _ _ _ _). rewrite (eff_bind_step _ _ _ r1 (Ok true)); [reflexivity|].
    rewrite (lift_cons _ _ _ (at_ms + lease_ttl_ms c)) by by apply checked_i64_Ok.
    rewrite (lift_cons _ _ _ generation) by (apply u64_i64_Ok; lia).
    apply (update_consumer_run _ _ _ _ _ c); [done| |done].
    unfold session_holds. rewrite Ha, Hg, Z.eqb_refl. by apply Z.ltb_lt.
  + rewrite Hlease. set (r1 := put_consumer _ _ _ _). rewrite (eff_bind_step _ _ _ r1 (Ok true)); [reflexivity|]. apply (update_consumer_run _ _ _ _ _ c); [done..|].
    reflexivity.
Qed.

(** A session that ended repeats its last acknowledgement. *)
Definition repeats (session : option Z) (sequence at_ms : Z) (c : Consumer) : Prop :=
  ∃ generation, session = Some generation ∧ lease_generation c = generation ∧ lease_expires_at c ≤ at_ms ∧
    sequence = acknowledged_sequence c.

Lemma acknowledge_row_repeat now instance stream_id consumer_id session sequence r r' :
  acknowledge_row now instance stream_id consumer_id session sequence r = (r', Ok false) →
  r' = r ∧ ∃ at_ms c, now = Ok at_ms ∧ consumer_row r stream_id consumer_id = Some c ∧
    consumer_state c = ConsumerActive ∧ repeats session sequence at_ms c.
Proof.
  unfold acknowledge_row. intros Hrun. run_step Hrun r0 r1 Hs. injection Hs as <- <-. cbn [id] in Hrun.
  run_step Hrun r0 at_ms Hs. apply lift_Ok in Hs as [-> Hnow].
  run_step Hrun r0 c Hs. apply lift_Ok in Hs as [-> Hc].
  destruct (consumer_row r stream_id consumer_id) as [c0|] eqn:Hrow; [|done]. injection Hc as ->.
  run_step Hrun r0 u1 Hs. apply lift_Ok in Hs as [-> Hactive].
  assert (is_active c = true) as Ha%bool_decide_eq_true by by destruct (is_active c).
  run_step Hrun r0 ack Hs. apply lift_Ok in Hs as [-> [-> _]%i64_u64_Ok].
  run_step Hrun r0 held Hs. apply lift_Ok in Hs as [-> Hheld]. destruct held; cbn [negb] in Hrun.
  - exfalso. run_step Hrun r0 work Hs. clear Hs. run_step Hrun r2 u2 Hs. clear Hs. run_step Hrun r3 newly Hs. clear Hs.
    run_step Hrun r4 work_sum Hs. clear Hs. run_step Hrun r5 stored Hs. clear Hs. run_step Hrun r6 stored_work Hs.
    clear Hs. run_step Hrun r7 updated Hs. destruct updated; by apply lift_Ok in Hrun as [_ ?].
  - apply lift_Ok in Hrun as [-> _]. split; [done|]. exists at_ms, c. split_and!; [done..|].
    destruct session as [generation|]; [|done]. exists generation.
    apply result_bind_Ok in Hheld as (? & [-> _]%i64_u64_Ok & Hheld).
    destruct (Z.eqb_spec (lease_generation c) generation), (Z.leb_spec (lease_expires_at c) at_ms),
      (Z.eqb_spec sequence (acknowledged_sequence c)); done.
Qed.

Lemma acknowledge_row_repeat_run now instance stream_id consumer_id session sequence r at_ms c :
  now = Ok at_ms → consumer_row r stream_id consumer_id = Some c → consumer_state c = ConsumerActive →
  0 ≤ acknowledged_sequence c → 0 ≤ lease_generation c → repeats session sequence at_ms c →
  acknowledge_row now instance stream_id consumer_id session sequence r = (r, Ok false).
Proof.
  intros Hnow Hrow Hactive Hack Hgen (generation & -> & Hg & Hexpired & ->). unfold acknowledge_row, gets.
  unfold mbind at 1, eff_bind at 1. cbn [id].
  assert (is_active c = true) as Ha by by apply bool_decide_eq_true.
  rewrite (lift_cons _ _ _ _ Hnow), (lift_cons _ _ _ c) by by rewrite Hrow.
  rewrite Ha, (lift_cons _ _ _ tt) by done.
  rewrite (lift_cons _ _ _ (acknowledged_sequence c)) by (apply i64_u64_Ok; lia).
  rewrite (lift_cons _ _ _ false); [done|].
  rewrite (proj2 (i64_u64_Ok (lease_generation c) _ generation)) by lia. cbn.
  by rewrite !Z.eqb_refl, (proj2 (Z.leb_le _ _)).
Qed.

(** Where an acknowledgement above the last one may end. *)
Lemma check_acknowledgement_Ok s id stream c sequence :
  streams s !! id = Some stream → stream_dense s id stream → 0 ≤ delivered_sequence c → 0 ≤ sequence ≤ i64_max →
  (∀ row, row ∈ stream_rows s id → 0 ≤ ref_number (row_block row)) →
  check_acknowledgement s id c sequence = Ok () ↔
  (sequence = 0 ∨ ∃ row, row ∈ stream_rows s id ∧ sequence ≤ row_stream_sequence row) ∧
  sequence ≤ delivered_sequence c ∧ boundary s id (stream_kind stream) sequence.
Proof.
  intros Hs Hd Hdel Hseq Hblocks. pose proof (dense_bounds _ _ _ Hd) as Hb. unfold check_acknowledgement.
  assert (opt_i64_u64 (head_sequence s id) "delivery stream head" = Ok (head_sequence s id)) as ->.
  { rewrite (dense_head _ _ _ Hd). destruct (Z.ltb_spec (pruned_through_sequence stream + 1) (next_sequence stream));
      [|done]. cbn. unfold i64_u64. by rewrite (proj2 (Z.leb_le _ _)) by lia. }
  cbn [mbind result_bind].
  assert ((sequence = 0 ∨ ∃ row, row ∈ stream_rows s id ∧ sequence ≤ row_stream_sequence row) ↔
    sequence ≤ default 0 (head_sequence s id)) as ->.
  { rewrite (dense_head _ _ _ Hd). destruct (Z.ltb_spec (pruned_through_sequence stream + 1) (next_sequence stream));
      cbn; split.
    - intros [-> |(row & Hrow%(dense_row _ _ _ Hd) & ?)]; lia.
    - intros Hle. right. destruct (dense_has _ _ _ Hd (next_sequence stream - 1)) as (row & ? & ?); [lia|].
      exists row. split; [done|lia].
    - intros [-> |(row & Hrow%(dense_row _ _ _ Hd) & ?)]; lia.
    - left. lia. }
  destruct (Z.ltb_spec (default 0 (head_sequence s id)) sequence); [split; [done|lia]|].
  rewrite (proj2 (i64_u64_Ok _ _ _) (conj eq_refl Hdel)). cbn [mbind result_bind].
  destruct (Z.ltb_spec (delivered_sequence c) sequence); [split; [done|lia]|].
  rewrite Hs. cbn [ok_or mbind result_bind]. unfold boundary. destruct (stream_kind stream); [tauto|..].
  - unfold live_commit_continues_after. rewrite u64_i64_fits by lia. cbn [mbind result_bind].
    rewrite (dense_log _ _ _ Hd). destruct (head (List.filter _ _)) as [x|] eqn:Hx.
    2: { split; [|done]. intros _. split_and!; [done..|]. intros x y Hx' _ Hsx _. exfalso.
         assert (None = Some x) as [=]. rewrite <-Hx. by apply (dense_lookup _ _ stream). }
    apply (dense_lookup _ _ _ _ _ Hd) in Hx as [Hx Hxs].
    destruct (head (List.filter (λ row, sequence <? _) _)) as [y|] eqn:Hy.
    + apply (head_filter_first _ _ _ _ _ Hd) in Hy as (Hy & Hys%Z.ltb_lt & Hfirst).
      assert (row_stream_sequence y = sequence + 1) as Hys'.
      { destruct (dense_has _ _ _ Hd (sequence + 1)) as (z & Hz & Hzs).
        - pose proof (dense_row _ _ _ Hd y Hy). pose proof (dense_row _ _ _ Hd x Hx). lia.
        - specialize (Hfirst z Hz). rewrite Z.ltb_lt in Hfirst. lia. }
      destruct (same_commit y x) eqn:Hsame.
      * unfold i64_u64. rewrite (proj2 (Z.leb_le _ _)) by by apply Hblocks. cbn. split; [done|].
        intros (_ & _ & Hno). rewrite (Hno x y) in Hsame; done.
      * split; [|done]. intros _. split_and!; [done..|]. intros x' y' Hx' Hy' Hxs' Hys''.
        assert (x' = x) as -> by (apply (dense_unique _ _ _ Hd); [done..|lia]).
        assert (y' = y) as -> by (apply (dense_unique _ _ _ Hd); [done..|lia]). done.
    + split; [|done]. intros _. split_and!; [done..|]. intros x' y' _ Hy' _ Hys'. exfalso.
      assert (y' ∈ List.filter (λ row, sequence <? row_stream_sequence row) (stream_rows s id)) as Hin
        by (apply elem_of_filter_list; split; [done|apply Z.ltb_lt; lia]).
      destruct (List.filter _ _); [by apply not_elem_of_nil in Hin|done].
  - rewrite u64_i64_fits by lia. cbn [mbind result_bind].
    destruct (List.head (List.filter _ _)) as [x|] eqn:Hx; cbn.
    + apply (dense_lookup _ _ _ _ _ Hd) in Hx as [Hx Hxs].
      destruct (bool_decide_reflect (change_kind (row_change x) = backfill_progress_kind)) as [Hk|Hk]; cbn.
      { split; [|done]. intros _. split_and!; [done..|]. exists x. auto. }
      destruct (bool_decide_reflect (change_kind (row_change x) = backfill_complete_kind)) as [Hk'|Hk']; cbn.
      { split; [|done]. intros _. split_and!; [done..|]. exists x. auto. }
      split; [done|]. intros (_ & _ & (x' & Hx' & Hxs' & Hor)).
      assert (x' = x) as -> by (apply (dense_unique _ _ _ Hd); [done..|lia]). tauto.
    + split; [done|]. intros (_ & _ & (x & Hx' & Hxs & _)).
      assert (None = Some x) as [=]. rewrite <-Hx. by apply (dense_lookup _ _ _ _ _ Hd).
Qed.

(** What is accepted lies below the stream's end. *)
Lemma check_acknowledgement_head s id stream c sequence :
  streams s !! id = Some stream → stream_dense s id stream →
  check_acknowledgement s id c sequence = Ok () → sequence < next_sequence stream.
Proof.
  intros Hs Hd. pose proof (dense_bounds _ _ _ Hd). unfold check_acknowledgement, opt_i64_u64.
  rewrite (dense_head _ _ _ Hd).
  destruct (Z.ltb_spec (pruned_through_sequence stream + 1) (next_sequence stream)).
  - cbn. rewrite (proj2 (i64_u64_Ok (next_sequence stream - 1) _ (next_sequence stream - 1))) by lia. cbn.
    destruct (Z.ltb_spec (next_sequence stream - 1) sequence); [done|lia].
  - cbn. destruct (Z.ltb_spec 0 sequence); [done|lia].
Qed.

Lemma acknowledged_row_progress sequence work expires at_ms c :
  acknowledged_sequence c ≤ sequence → consumer_progress c (acknowledged_row sequence work expires at_ms c).
Proof. intros Hle. split; cbn; try done; lia. Qed.

Lemma acknowledge_consumer_advances now now_after d stream_id consumer_id session sequence :
  keeps advances (acknowledge_consumer_in_stream_inner now now_after d stream_id consumer_id session sequence).
Proof.
  unfold acknowledge_consumer_in_stream_inner. keeps_step; [keeps_step|]. keeps_step; [keeps_step|].
  keeps_step; [|apply consumer_after_advances].
  intros r r' res. unfold atomic.
  destruct (acknowledge_row _ _ _ _ _ _ r) as [r1 [[] | e]] eqn:Hrun; intros [= <- _]; [| |done].
  2: by apply acknowledge_row_repeat in Hrun as [-> _].
  apply acknowledge_row_Ok in Hrun as (at_ms & c & newly & expires & _ & Hrow & [_ [_ Hle] _ Hcheck _ _ _] & ->).
  apply advance_put; [intros c0 [= <-]%(eq_trans (eq_sym Hrow)); by apply acknowledged_row_progress|].
  intros [Hd Hc]. destruct (Hc _ _ _ Hrow) as [Ha1 Ha2 Hg (stream & Hs & Hn & Hp)].
  split; cbn; [lia|lia|done|]. exists stream. split_and!; [done| |intros Hr Hact; specialize (Hp Hr Hact); lia].
  destruct (decide (acknowledged_sequence c < sequence)); [|lia].
  eapply check_acknowledgement_head; [done|by eapply streams_dense|by apply Hcheck].
Qed.
End operations.
