(* ===== verification/Retention.v ===== *)
(** * What pruning keeps

    The prefix a prune deletes: the bookkeeping it leaves behind, and how far
    it may reach ([prune_changes_before_in_stream] of
    [crates/store-sqlite/src/lib.rs]). *)
From Stdlib Require Import ZArith Lia Strings.Byte.
From stdpp Require Import gmap strings list list_numbers fin_maps sorting.
From S2P Require Import Prelude Bytes Chain Capability Provenance Frame Durable Descriptor Delta Rows Delivery Checkpoints Capacity Registration Consumers Pruning Ledger Feed.

(** ** A prefix deleted *)

Lemma Z_sum_filter {A} (f : A → bool) (w : A → Z) l :
  Z_sum (w <$> l) = Z_sum (w <$> List.filter f l) + Z_sum (w <$> List.filter (λ x, negb (f x)) l).
Proof. induction l as [|x l IH]; cbn; [done|]. unfold Z_sum in *. cbn. rewrite IH. destruct (f x); cbn; lia. Qed.

Lemma sql_sum_Ok l z : sql_sum l = Ok z → z = Z_sum l.
Proof. unfold sql_sum. destruct (_ <? _); [done|]. by intros [= <-]. Qed.

Lemma filter_ext_in {A} (f g : A → bool) l : (∀ x, x ∈ l → f x = g x) → List.filter f l = List.filter g l.
Proof. intros Hfg. apply List.filter_ext_in. intros x Hx. apply Hfg. by apply list_elem_of_In. Qed.

Lemma filter_filter {A} (f g : A → bool) l : List.filter f (List.filter g l) = List.filter (λ x, g x && f x) l.
Proof. induction l as [|x l IH]; cbn; [done|]. destruct (g x), (f x) eqn:Hf; cbn; rewrite ?Hf, IH; done. Qed.

Lemma sorted_last {A} (R : relation A) l x y :
  StronglySorted R l → last l = Some x → y ∈ l → y = x ∨ R y x.
Proof.
  induction 1 as [|z l Hl IH Hz]; [done|]. intros Hlast Hy. destruct l as [|w l].
  - injection Hlast as ->. left. by apply list_elem_of_singleton.
  - apply elem_of_cons in Hy as [-> | Hy]; [|by apply IH]. right. rewrite Forall_forall in Hz. apply Hz.
    by apply last_Some_elem_of.
Qed.

(** The store after a prefix of one stream is deleted. *)
Record prefix_deleted (s s' : Delivery) (id : string) (stream : Stream) (before : Z) : Prop := MkPrefixDeleted {
  deleted_rows : stream_rows s' id = List.filter (λ row, before <=? row_stream_sequence row) (stream_rows s id);
  deleted_others : ∀ other, other ≠ id → stream_rows s' other = stream_rows s other ∧ streams s' !! other = streams s !! other;
  deleted_log : ∀ row, row ∈ change_log s' ↔
    row ∈ change_log s ∧ ¬ (row_stream row = id ∧ row_stream_sequence row < before);
  deleted_outbox : ∀ sink row, row ∈ change_log s →
    (sink, row_sequence row) ∈ sink_outbox s' ↔ (sink, row_sequence row) ∈ sink_outbox s ∧ row ∈ change_log s';
  deleted_stream : ∃ stream', streams s' !! id = Some stream' ∧ stream_instance stream' = stream_instance stream ∧
    stream_kind stream' = stream_kind stream ∧ next_sequence stream' = next_sequence stream ∧
    pruned_through_sequence stream' = if bool_decide (stream_rows s id = []) then pruned_through_sequence stream
      else Z.max (pruned_through_sequence stream) (before - 1);
  deleted_parked : parked s' = parked s;
}.

Section prefix.
Context (s s' : Delivery) (id : string) (stream : Stream) (before : Z).
Context (Hok : delivery_ok s) (Hstream : streams s !! id = Some stream).
Context (Hbefore : before < next_sequence stream ∨ stream_rows s id = []).
#[local] Abbreviation keep row := (negb (bool_decide (row_stream row = id) && (row_stream_sequence row <? before))).

Lemma prefix_dense : stream_dense s id stream.
Proof. by eapply streams_dense. Qed.

Lemma keep_own table rowid outbox held :
  stream_rows (MkDelivery table (List.filter (λ row, keep row) (change_log s)) rowid outbox held) id =
  List.filter (λ row, before <=? row_stream_sequence row) (stream_rows s id).
Proof.
  unfold stream_rows. cbn. rewrite !filter_filter. apply filter_ext_in. intros row _.
  destruct (bool_decide (row_stream row = id)); cbn; [|done].
  destruct (Z.ltb_spec (row_stream_sequence row) before), (Z.leb_spec before (row_stream_sequence row)); lia || done.
Qed.

Lemma keep_other other : other ≠ id →
  List.filter (λ row, bool_decide (row_stream row = other)) (List.filter (λ row, keep row) (change_log s)) =
  stream_rows s other.
Proof.
  intros Hne. unfold stream_rows. rewrite filter_filter. apply filter_ext_in. intros row _.
  destruct (bool_decide_reflect (row_stream row = other)) as [->|]; [|by rewrite andb_false_r].
  by rewrite bool_decide_eq_false_2 by done.
Qed.

Lemma rows_split :
  Z_sum (change_bytes ∘ row_change <$> stream_rows s id) =
  Z_sum (change_bytes ∘ row_change <$> rows_below s id before) +
  Z_sum (change_bytes ∘ row_change <$> List.filter (λ row, before <=? row_stream_sequence row) (stream_rows s id)).
Proof.
  rewrite (Z_sum_filter (λ row, row_stream_sequence row <? before)). unfold rows_below. do 3 f_equal.
  apply filter_ext_in. intros row _.
  destruct (Z.ltb_spec (row_stream_sequence row) before), (Z.leb_spec before (row_stream_sequence row)); lia || done.
Qed.

Lemma doomed_maximum :
  match maximum (sequences (rows_below s id before)) with
  | Some through => Z.max (pruned_through_sequence stream) through
  | None => pruned_through_sequence stream
  end = if bool_decide (stream_rows s id = []) then pruned_through_sequence stream
        else Z.max (pruned_through_sequence stream) (before - 1).
Proof.
  pose proof prefix_dense as Hd. pose proof (dense_bounds _ _ _ Hd). unfold rows_below.
  rewrite (dense_below _ _ _ Hd). case_bool_decide as Hnil.
  - assert (next_sequence stream - pruned_through_sequence stream - 1 = 0) as Hn.
    { pose proof (dense_sequences _ _ _ Hd) as Hq. rewrite Hnil in Hq. cbn in Hq.
      apply (f_equal length) in Hq. rewrite length_seqZ in Hq. cbn in Hq. lia. }
    by rewrite seqZ_nil by lia.
  - assert (before < next_sequence stream) by by destruct Hbefore.
    rewrite Z.min_l by lia. destruct (decide (pruned_through_sequence stream + 1 < before)).
    + rewrite (proj2 (maximum_spec _ (before - 1))); [done|]. rewrite elem_of_seqZ. split; [lia|].
      intros x Hx%elem_of_seqZ. lia.
    + rewrite seqZ_nil by lia. cbn. lia.
Qed.

Lemma doomed_gone row :
  row ∈ change_log s → row_sequence row ∈ row_sequence <$> rows_below s id before →
  row_stream row = id ∧ row_stream_sequence row < before.
Proof.
  intros Hrow (other & Heq & Hother)%list_elem_of_fmap.
  apply elem_of_filter_list in Hother as [[Hother Hid]%elem_of_filter_list Hlt].
  assert (row = other) as ->; [|split; [by apply bool_decide_eq_true in Hid|by apply Z.ltb_lt]].
  pose proof (rowids_ascend _ Hok) as Hasc. clear -Hrow Hother Heq Hasc.
  induction (change_log s) as [|x l IH]; [by apply not_elem_of_nil in Hrow|]. cbn in Hasc.
  apply StronglySorted_inv in Hasc as [Hl Hx]. rewrite Forall_forall in Hx.
  assert (∀ y, y ∈ l → row_sequence x < row_sequence y) as Hlt
    by (intros y Hy; by apply Hx, list_elem_of_fmap_2).
  apply elem_of_cons in Hrow as [-> | Hrow], Hother as [-> | Hother]; auto.
  - specialize (Hlt _ Hother). lia.
  - specialize (Hlt _ Hrow). lia.
Qed.

Lemma gone_doomed row :
  row ∈ change_log s → row_stream row = id → row_stream_sequence row < before →
  row_sequence row ∈ row_sequence <$> rows_below s id before.
Proof.
  intros Hrow Hid Hlt. apply list_elem_of_fmap_2. apply elem_of_filter_list. split; [|by apply Z.ltb_lt].
  apply elem_of_filter_list. split; [done|by apply bool_decide_eq_true].
Qed.

Lemma keep_spec row : keep row = true ↔ ¬ (row_stream row = id ∧ row_stream_sequence row < before).
Proof.
  rewrite negb_true_iff, andb_false_iff, bool_decide_eq_false, Z.ltb_ge. split; [intros [?|?] [??]; [done|lia]|].
  intros Hn. destruct (decide (row_stream row = id)); [right|by left]. apply Z.le_ngt. tauto.
Qed.

Context (Hdelete : delete_prefix id before s = Ok s').

Lemma deleted_exact :
  s' = MkDelivery (<[id := MkStream (stream_instance stream) (stream_kind stream) (next_sequence stream)
      (if bool_decide (stream_rows s id = []) then pruned_through_sequence stream
       else Z.max (pruned_through_sequence stream) (before - 1))
      (live_bytes stream - Z_sum (change_bytes ∘ row_change <$> rows_below s id before))]> (streams s))
    (List.filter (λ row, keep row) (change_log s)) (last_rowid s)
    (List.filter (λ entry, negb (bool_decide (entry.2 ∈ row_sequence <$> rows_below s id before))) (sink_outbox s))
    (parked s).
Proof.
  unfold delete_prefix in Hdelete. apply result_bind_Ok in Hdelete as (bytes & ->%sql_sum_Ok & [= <-]).
  rewrite Hstream. by rewrite doomed_maximum.
Qed.

Lemma delete_prefix_deleted : prefix_deleted s s' id stream before.
Proof.
  rewrite deleted_exact. split; cbn.
  - exact (keep_own ∅ 0 [] []).
  - intros other Hne. split; [by apply keep_other|by rewrite lookup_insert_ne].
  - intros row. rewrite elem_of_filter_list, keep_spec. done.
  - intros sink row Hrow. rewrite !elem_of_filter_list, keep_spec, negb_true_iff, bool_decide_eq_false. cbn.
    split; [intros [Hin Hn]; split_and!; [done..|]|intros (Hin & _ & Hn); split; [done|]].
    + intros [? ?]. apply Hn. by apply gone_doomed.
    + intros Hgone. by apply Hn, doomed_gone.
  - eexists. rewrite lookup_insert_eq. split_and!; done.
  - done.
Qed.

(** Pruning leaves every stream dense and counted. *)
Lemma delete_prefix_ok : delivery_ok s'.
Proof.
  pose proof prefix_dense as Hd. pose proof (dense_bounds _ _ _ Hd) as Hb. destruct Hd as (_ & _ & Hlive).
  rewrite deleted_exact. destruct Hok as [Hasc Hbound Hhave Hdense Hout]. split; cbn.
  - clear -Hasc. induction (change_log s) as [|x l IH]; cbn in *; [constructor|].
    apply StronglySorted_inv in Hasc as [Hl Hx]. destruct (keep x); [|by apply IH]. cbn. constructor; [by apply IH|].
    rewrite Forall_forall in *. intros y (row & -> & [Hrow _]%elem_of_filter_list)%list_elem_of_fmap.
    by apply Hx, list_elem_of_fmap_2.
  - intros row [Hrow _]%elem_of_filter_list. auto.
  - intros row [Hrow _]%elem_of_filter_list. destruct (decide (row_stream row = id)) as [->|];
      [rewrite lookup_insert_eq; by eexists|rewrite lookup_insert_ne by done; auto].
  - intros other st [[<- <-]|[Hne Hother]]%lookup_insert_Some.
    + unfold stream_dense. rewrite keep_own. cbn. case_bool_decide as Hnil.
      * rewrite Hnil. cbn. split_and!; [lia|lia|..].
        -- pose proof (dense_sequences _ _ _ prefix_dense) as Hq. rewrite Hnil in Hq. done.
        -- unfold rows_below. rewrite Hlive, Hnil. done.
      * assert (before < next_sequence stream) by by destruct Hbefore. split_and!; [lia|lia|..].
        -- rewrite (filter_ext_in _ (λ row, before - 1 <? row_stream_sequence row)) by (intros; lia).
           etrans; [exact (dense_above _ _ _ prefix_dense (before - 1))|]. f_equal; lia.
        -- rewrite Hlive, rows_split. lia.
    + unfold stream_dense, stream_rows. cbn. rewrite keep_other by done. by apply (Hdense other).
  - intros sink rowid [Hin Hn]%elem_of_filter_list. destruct (Hout _ _ Hin) as (row & Hrow & <-). exists row.
    split; [|done]. apply elem_of_filter_list. split; [done|]. apply keep_spec. intros [? ?].
    rewrite negb_true_iff, bool_decide_eq_false in Hn. apply Hn. by apply gone_doomed.
Qed.

Lemma deleted_grows : streams_grow Z.le s s'.
Proof.
  destruct delete_prefix_deleted as [Hrows Hothers _ _ (stream' & Hs' & Hi & Hk & Hn & Hp) _].
  intros other st Hother. destruct (decide (other = id)) as [-> | Hne].
  - assert (st = stream) as -> by congruence. exists stream'. rewrite Hn, Hp. split_and!; [done..|lia| |].
    + case_bool_decide; lia.
    + intros row. rewrite Hrows. by intros [? _]%elem_of_filter_list.
  - destruct (Hothers _ Hne) as [Hr Hs]. exists st. rewrite Hs, Hr. split_and!; done.
Qed.
End prefix.

(** ** How far a prune reaches *)

(** Rows of one block number stand together. *)
Definition blocks_contiguous (s : Delivery) (id : string) : Prop :=
  ∀ x y z, x ∈ stream_rows s id → y ∈ stream_rows s id → z ∈ stream_rows s id →
    row_stream_sequence x ≤ row_stream_sequence y ≤ row_stream_sequence z →
    ref_number (row_block x) = ref_number (row_block z) → ref_number (row_block y) = ref_number (row_block x).

(** A boundary no block straddles. *)
Definition splits_no_block (s : Delivery) (id : string) (before : Z) : Prop :=
  ∀ x y, x ∈ stream_rows s id → y ∈ stream_rows s id →
    row_stream_sequence x < before ≤ row_stream_sequence y → ref_number (row_block x) ≠ ref_number (row_block y).

Section boundary.
Context (s : Delivery) (id : string) (stream : Stream) (Hd : stream_dense s id stream).

Lemma trailing_row before row :
  last (sort_by (λ x y, row_stream_sequence x <=? row_stream_sequence y) (rows_below s id before)) = Some row →
  row ∈ stream_rows s id ∧ row_stream_sequence row < before ∧
  ∀ other, other ∈ stream_rows s id → row_stream_sequence other < before →
    row_stream_sequence other ≤ row_stream_sequence row.
Proof.
  unfold rows_below. rewrite (dense_sort _ _ _ Hd). intros Hlast.
  assert (row ∈ List.filter (λ row, row_stream_sequence row <? before) (stream_rows s id)) as Hin
    by by apply last_Some_elem_of.
  apply elem_of_filter_list in Hin as [Hrow Hlt%Z.ltb_lt]. split_and!; [done..|]. intros other Hother Hbelow.
  eapply sorted_last in Hlast; [|apply StronglySorted_filter_list, (dense_sorted _ _ _ Hd)|].
  - destruct Hlast as [-> | Hle]; [done|lia].
  - apply elem_of_filter_list. by rewrite Z.ltb_lt.
Qed.

Lemma block_minimum block x z :
  minimum (sequences (block_rows s id block)) = Some z → x ∈ stream_rows s id → ref_number (row_block x) = block →
  z ≤ row_stream_sequence x.
Proof.
  intros [_ Hall]%minimum_spec Hx Hb. apply Hall, list_elem_of_fmap_2, elem_of_filter_list.
  split; [done|by apply Z.eqb_eq].
Qed.

Lemma block_maximum block x z :
  maximum (sequences (block_rows s id block)) = Some z → x ∈ stream_rows s id → ref_number (row_block x) = block →
  row_stream_sequence x ≤ z.
Proof.
  intros [_ Hall]%maximum_spec Hx Hb. apply Hall, list_elem_of_fmap_2, elem_of_filter_list.
  split; [done|by apply Z.eqb_eq].
Qed.

Lemma keep_trailing_le effective kept : keep_trailing_block s id effective = Ok kept → kept ≤ effective.
Proof.
  unfold keep_trailing_block. destruct (0 <? effective); [|by intros [= <-]].
  intros (before & _ & H)%result_bind_Ok. destruct (last _); [|by injection H as <-].
  apply result_bind_Ok in H as (first & _ & H). apply result_bind_Ok in H as (final & _ & H).
  apply result_bind_Ok in H as (final' & _ & H). destruct (_ <=? final'); [|by injection H as <-].
  apply result_bind_Ok in H as (first' & _ & [= <-]). lia.
Qed.

Lemma keep_trailing_whole effective kept :
  blocks_contiguous s id → keep_trailing_block s id effective = Ok kept → splits_no_block s id kept.
Proof.
  intros Hblocks. pose proof (dense_bounds _ _ _ Hd). unfold keep_trailing_block.
  destruct (Z.ltb_spec 0 effective) as [Hpos|Hpos].
  2: { intros [= <-] x y Hx _ ?. pose proof (dense_row _ _ _ Hd x Hx). lia. }
  intros (before & [-> _]%u64_i64_Ok & H1)%result_bind_Ok.
  destruct (last _) as [t|] eqn:Ht.
  2: { injection H1 as <-. intros x y Hx _ [Hlt _]. unfold rows_below in Ht. rewrite (dense_sort _ _ _ Hd) in Ht.
       apply last_None in Ht. exfalso. apply (not_elem_of_nil x). rewrite <-Ht. apply elem_of_filter_list.
       by rewrite Z.ltb_lt. }
  apply trailing_row in Ht as (Ht & Htlt & Hlast).
  apply result_bind_Ok in H1 as (first & Hfirst & H1). apply result_bind_Ok in H1 as (final & Hfinal & H1).
  unfold ok_or in Hfirst, Hfinal. destruct (minimum _) as [z|] eqn:Hmin; [|done]. injection Hfirst as ->.
  destruct (maximum _) as [z|] eqn:Hmax; [|done]. injection Hfinal as ->.
  apply result_bind_Ok in H1 as (? & [-> _]%i64_u64_Ok & H1).
  destruct (Z.leb_spec effective final) as [Hle|Hgt].
  - apply result_bind_Ok in H1 as (? & [-> _]%i64_u64_Ok & [= <-]).
    pose proof (block_minimum _ _ _ Hmin Ht eq_refl). rewrite Z.min_r by lia.
    pose proof Hmin as [(f & Hf & Hfin)%list_elem_of_fmap _]%minimum_spec.
    apply elem_of_filter_list in Hfin as [Hfin Hfb%Z.eqb_eq].
    intros x y Hx Hy [Hxf Hfy] Heq.
    assert (ref_number (row_block x) ≠ ref_number (row_block t)) as Hxt.
    { intros Hxt. pose proof (block_minimum _ _ _ Hmin Hx Hxt). lia. }
    apply Hxt. destruct (Z.le_gt_cases (row_stream_sequence y) (row_stream_sequence t)).
    + rewrite <-Hfb. symmetry. apply (Hblocks x f y); [done..|lia|done].
    + symmetry. apply (Hblocks x t y); [done..|lia|done].
  - injection H1 as <-. intros x y Hx Hy [Hxe Hey] Heq. specialize (Hlast x Hx Hxe).
    assert (ref_number (row_block y) = ref_number (row_block t)) as Hyt.
    { rewrite <-Heq. symmetry. apply (Hblocks x t y); [done..|lia|done]. }
    pose proof (block_maximum _ _ _ Hmax Hy Hyt). lia.
Qed.
End boundary.

Lemma required_active_spec id sid cid c :
  required_active id ((sid, cid), c) = true ↔
  sid = id ∧ consumer_role c = ConsumerRequired ∧ consumer_state c = ConsumerActive.
Proof. unfold required_active. rewrite !andb_true_iff, !bool_decide_eq_true. cbn. tauto. Qed.

(** The boundary stays at or below the request, every position a required
    consumer still needs, and the newest row. *)
Lemma effective_boundary_le id requested r effective :
  effective_boundary id requested r = Ok effective →
  effective ≤ requested ∧
  (∀ cid c, consumer_row r id cid = Some c → consumer_role c = ConsumerRequired → consumer_state c = ConsumerActive →
     effective ≤ acknowledged_sequence c + 1) ∧
  (∀ latest, head_sequence (registry_delivery r) id = Some latest → effective ≤ latest) ∧
  ∃ wanted, effective ≤ wanted ∧ keep_trailing_block (registry_delivery r) id wanted = Ok effective.
Proof.
  unfold effective_boundary. intros (e1 & H1 & (e2 & H2 & H3)%result_bind_Ok)%result_bind_Ok.
  pose proof (keep_trailing_le _ _ _ _ H3) as Hle.
  assert (e2 ≤ e1 ∧ ∀ latest, head_sequence (registry_delivery r) id = Some latest → e2 ≤ latest) as [H21 H2l].
  { destruct (head_sequence _ _) as [latest|]; [|injection H2 as ->; split; [lia|done]].
    apply result_bind_Ok in H2 as (? & [-> _]%i64_u64_Ok & [= <-]). split; [lia|]. intros ? [= <-]. lia. }
  assert (e1 ≤ requested ∧ ∀ cid c, consumer_row r id cid = Some c → consumer_role c = ConsumerRequired →
    consumer_state c = ConsumerActive → e1 ≤ acknowledged_sequence c + 1) as [H1r H1c].
  { unfold protected_sequence in H1.
    assert (∀ cid c, consumer_row r id cid = Some c → consumer_role c = ConsumerRequired →
      consumer_state c = ConsumerActive → (if acknowledged_sequence c =? i64_max then acknowledged_sequence c
        else acknowledged_sequence c + 1) ∈ (λ c, if acknowledged_sequence c =? i64_max then acknowledged_sequence c
        else acknowledged_sequence c + 1) <$> (List.filter (required_active id)
          (map_to_list (consumers (registry_admission r)))).*2) as Hin.
    { intros cid c Hc Hr Ha. apply (list_elem_of_fmap_2 (λ c, if acknowledged_sequence c =? i64_max then acknowledged_sequence c
        else acknowledged_sequence c + 1)). apply list_elem_of_fmap. exists ((id, cid), c). split; [done|].
      apply elem_of_filter_list. split; [by apply elem_of_map_to_list|]. by apply required_active_spec. }
    destruct (minimum _) as [protected|] eqn:Hmin.
    - apply minimum_spec in Hmin as [_ Hall]. apply result_bind_Ok in H1 as (? & [-> _]%i64_u64_Ok & [= <-]).
      split; [lia|]. intros cid c Hc Hr Ha. specialize (Hall _ (Hin cid c Hc Hr Ha)).
      destruct (acknowledged_sequence c =? i64_max); lia.
    - injection H1 as ->. split; [done|]. intros cid c Hc Hr Ha. apply minimum_None in Hmin.
      specialize (Hin cid c Hc Hr Ha). rewrite Hmin in Hin. by apply not_elem_of_nil in Hin. }
  split_and!; [lia| | |by exists e2].
  - intros cid c Hc Hr Ha. specialize (H1c cid c Hc Hr Ha). lia.
  - intros latest Hl. specialize (H2l latest Hl). lia.
Qed.

(** ** The transaction *)

Lemma resume_drained_consumers now d instance live a a' :
  resume_drained now d instance live a = Ok a' → consumers a' = consumers a ∧ subscriptions a' = subscriptions a.
Proof.
  unfold resume_drained. intros (l & _ & H)%result_bind_Ok. destruct (l <=? _); [|by injection H as <-].
  by apply result_bind_Ok in H as (? & _ & [= <-]).
Qed.

Lemma prune_transaction now d id requested r r' out :
  feed_ok r → prune_changes_before_in_stream now d id requested r = (r', Ok out) →
  ∃ stream effective s a, streams (registry_delivery r) !! id = Some stream ∧
    stream_instance stream = processor_instance d ∧
    effective_boundary id requested r = Ok effective ∧
    delete_prefix id effective (registry_delivery r) = Ok s ∧
    (effective < next_sequence stream ∨ stream_rows (registry_delivery r) id = []) ∧
    consumers a = consumers (registry_admission r) ∧
    r' = with_admission (with_delivery r s) a ∧
    out = MkPruneOutcome requested effective
      (Z.of_nat (length (rows_below (registry_delivery r) id effective))).
Proof.
  intros [Hok _]. unfold prune_changes_before_in_stream. intros Hrun.
  run_step Hrun r0 r1 Hs. injection Hs as <- <-. cbn [Datatypes.id] in Hrun.
  run_step Hrun r0 u Hs. apply lift_Ok in Hs as [-> Hvalid].
  apply transact_Ok in Hrun.
  apply result_bind_Ok in Hrun as (effective & Heff & Hrun).
  apply result_bind_Ok in Hrun as (before & [-> _]%u64_i64_Ok & Hrun).
  apply result_bind_Ok in Hrun as (s & Hdel & Hrun). apply result_bind_Ok in Hrun as (stream' & _ & Hrun).
  apply result_bind_Ok in Hrun as (a & [Ha _]%resume_drained_consumers & [= <- <-]).
  unfold validate_delivery_stream in Hvalid. destruct (streams _ !! id) as [stream|] eqn:Hst; [|done].
  destruct (bool_decide_reflect (stream_instance stream = processor_instance d)) as [Hi|]; [|done].
  exists stream, effective, s, a. split_and!; try done.
  pose proof (streams_dense _ Hok _ _ Hst) as Hd. pose proof (dense_head _ _ _ Hd) as Hhead.
  apply effective_boundary_le in Heff as (_ & _ & Hl & _).
  destruct (Z.ltb_spec (pruned_through_sequence stream + 1) (next_sequence stream)).
  - left. specialize (Hl _ Hhead). lia.
  - right. pose proof (dense_sequences _ _ _ Hd) as Hseq. rewrite seqZ_nil in Hseq by lia.
    by destruct (stream_rows (registry_delivery r) id).
Qed.

(** Pruning never passes an active required consumer. *)
Lemma prune_changes_advances now d id requested :
  keeps advances (prune_changes_before_in_stream now d id requested).
Proof.
  intros r r' [out|e] Hrun Hfeed.
  2: { unfold prune_changes_before_in_stream, gets in Hrun. unfold mbind at 1, eff_bind at 1 in Hrun. cbn [Datatypes.id] in Hrun.
       assert (r' = r) as ->; [|by apply (reflexivity (R:=advances) r)].
       apply lift_run in Hrun as [[-> _]|(u & _ & Hrun)]; [done|]. unfold transact in Hrun.
       destruct (effective_boundary _ _ _ ≫= _) as [[r1 a]|e'] in Hrun; [done|]. by injection Hrun as <- _. }
  pose proof (prune_transaction _ _ _ _ _ _ _ Hfeed Hrun) as
    (stream & effective & s & a & Hst & _ & Heff & Hdel & Hbefore & Ha & -> & _).
  destruct Hfeed as [Hok Hcons]. pose proof (delete_prefix_ok _ _ _ _ _ Hok Hst Hbefore Hdel) as Hok'.
  pose proof (deleted_grows _ _ _ _ _ Hok Hst Hbefore Hdel) as Hg.
  pose proof (delete_prefix_deleted _ _ _ _ _ Hok Hst Hbefore Hdel) as [_ Hothers _ _ (stream' & Hst' & _ & _ & Hn & Hp) _].
  apply effective_boundary_le in Heff as (_ & Hle & _ & _).
  assert (∀ sid cid, consumer_row (with_admission (with_delivery r s) a) sid cid = consumer_row r sid cid) as Hrow
    by (intros; unfold consumer_row; cbn; by rewrite Ha).
  split; [split; [done|]|done|].
  - intros sid cid c. rewrite Hrow. intros Hc. destruct (Hcons _ _ _ Hc) as [? ? ? (st & Hs & Hnext & Hpruned)].
    split; [done..|]. cbn. destruct (decide (sid = id)) as [-> | Hne].
    + assert (st = stream) as -> by congruence. exists stream'. rewrite Hn, Hp. split_and!; [done..|].
      intros Hr Hact. specialize (Hpruned Hr Hact). specialize (Hle _ _ Hc Hr Hact). case_bool_decide; lia.
    + destruct (Hothers _ Hne) as [_ ->]. exists st. done.
  - intros sid cid c Hc. exists c. by rewrite Hrow.
Qed.

Lemma prune_delivery_advances now d id finalized :
  keeps advances (prune_delivery_changes_in_stream now d id finalized).
Proof. unfold prune_delivery_changes_in_stream. keeps_all. apply prune_changes_advances. Qed.

(** ** A prune succeeds *)

Lemma keep_trailing_total s id stream effective :
  stream_dense s id stream → effective ≤ i64_max → ∃ kept, keep_trailing_block s id effective = Ok kept.
Proof.
  intros Hd Hfits. pose proof (dense_bounds _ _ _ Hd). unfold keep_trailing_block.
  destruct (0 <? effective); [|by eexists]. rewrite u64_i64_fits by done. cbn [mbind result_bind].
  destruct (last _) as [t|] eqn:Ht; [|by eexists]. apply (trailing_row _ _ _ Hd) in Ht as (Ht & _ & _).
  assert (t ∈ block_rows s id (ref_number (row_block t))) as Hin
    by (apply elem_of_filter_list; split; [done|by apply Z.eqb_eq]).
  assert (∀ z, z ∈ sequences (block_rows s id (ref_number (row_block t))) → 0 ≤ z) as Hpos.
  { intros z (x & -> & [Hx _]%elem_of_filter_list)%list_elem_of_fmap. pose proof (dense_row _ _ _ Hd x Hx). lia. }
  destruct (minimum _) as [first|] eqn:Hmin.
  2: { apply minimum_None in Hmin. apply (list_elem_of_fmap_2 row_stream_sequence) in Hin. fold (sequences
       (block_rows s id (ref_number (row_block t)))) in Hin. rewrite Hmin in Hin. by apply not_elem_of_nil in Hin. }
  destruct (maximum _) as [final|] eqn:Hmax; [|by apply maximum_None in Hmax; rewrite Hmax in Hmin].
  apply minimum_spec in Hmin as [Hmin%Hpos _]. apply maximum_spec in Hmax as [Hmax%Hpos _]. cbn.
  unfold i64_u64. rewrite !(proj2 (Z.leb_le 0 _)) by done. cbn. destruct (_ <=? final); by eexists.
Qed.

Lemma effective_boundary_total id requested r stream :
  feed_ok r → streams (registry_delivery r) !! id = Some stream → 0 ≤ requested ≤ i64_max →
  ∃ effective, effective_boundary id requested r = Ok effective.
Proof.
  intros [Hok Hcons] Hst Hreq. pose proof (streams_dense _ Hok _ _ Hst) as Hd. pose proof (dense_bounds _ _ _ Hd).
  unfold effective_boundary.
  assert (∃ e1, match protected_sequence id (registry_admission r) with
    | Some protected => protected ← i64_u64 protected "protected sequence"; Ok (Z.min requested protected)
    | None => Ok (E:=StoreError) requested end = Ok e1 ∧ 0 ≤ e1 ≤ i64_max) as (e1 & -> & He1).
  { destruct (protected_sequence _ _) as [protected|] eqn:Hp; [|by eexists].
    unfold protected_sequence in Hp. apply minimum_spec in Hp as [Hin _].
    apply list_elem_of_fmap in Hin as (c & -> & Hc). apply list_elem_of_fmap in Hc as ([[sid cid] c'] & -> & Hc).
    apply elem_of_filter_list in Hc as [Hc%elem_of_map_to_list _].
    pose proof (acknowledged_nonneg _ _ _ (Hcons _ _ _ Hc)). cbn.
    unfold i64_u64. rewrite (proj2 (Z.leb_le _ _)) by (destruct (_ =? i64_max); lia).
    eexists. split; [done|]. destruct (_ =? i64_max); lia. }
  cbn [mbind result_bind]. rewrite (dense_head _ _ _ Hd).
  destruct (Z.ltb_spec (pruned_through_sequence stream + 1) (next_sequence stream)).
  - unfold i64_u64. rewrite (proj2 (Z.leb_le _ _)) by lia. cbn [mbind result_bind].
    eapply keep_trailing_total; [done|lia].
  - cbn [mbind result_bind]. eapply keep_trailing_total; [done|lia].
Qed.

Lemma prune_total now d id requested r stream time :
  feed_ok r → streams (registry_delivery r) !! id = Some stream → stream_instance stream = processor_instance d →
  0 ≤ requested ≤ i64_max → live_bytes stream ≤ i64_max → now = Ok time →
  ∃ r' out, prune_changes_before_in_stream now d id requested r = (r', Ok out).
Proof.
  intros Hfeed Hst Hi Hreq Hlive Hnow. pose proof Hfeed as [Hok _].
  pose proof (streams_dense _ Hok _ _ Hst) as Hd.
  destruct (effective_boundary_total _ _ _ _ Hfeed Hst Hreq) as [effective Heff].
  pose proof (effective_boundary_le _ _ _ _ Heff) as (Hle & _ & Hl & _).
  assert (effective < next_sequence stream ∨ stream_rows (registry_delivery r) id = []) as Hbefore.
  { rewrite (dense_head _ _ _ Hd) in Hl.
    destruct (Z.ltb_spec (pruned_through_sequence stream + 1) (next_sequence stream)); [left; specialize (Hl _ eq_refl); lia|].
    right. pose proof (dense_sequences _ _ _ Hd) as Hseq. rewrite seqZ_nil in Hseq by lia.
    by destruct (stream_rows (registry_delivery r) id). }
  assert (∀ rows, 0 ≤ Z_sum (change_bytes ∘ row_change <$> rows)) as Hbytes.
  { intros rows. apply Z_sum_nonneg, Forall_fmap, Forall_forall. intros row _. apply change_bytes_nonneg. }
  pose proof Hd as (_ & _ & Hcounted). rewrite (rows_split _ id effective) in Hcounted.
  assert (∃ s, delete_prefix id effective (registry_delivery r) = Ok s) as [s Hdel].
  { unfold delete_prefix, sql_sum. rewrite (proj2 (Z.ltb_ge _ _)); [by eexists|].
    specialize (Hbytes (List.filter (λ row, effective <=? row_stream_sequence row) (stream_rows (registry_delivery r) id))).
    lia. }
  pose proof (deleted_exact _ _ _ _ _ Hok Hst Hbefore Hdel) as Hs.
  unfold prune_changes_before_in_stream, gets. unfold mbind at 1, eff_bind at 1. cbn [Datatypes.id].
  unfold validate_delivery_stream at 1. rewrite Hst, (bool_decide_eq_true_2 _ Hi).
  unfold mbind at 1, eff_bind at 1, lift at 1. unfold transact. rewrite Heff. cbn [mbind result_bind].
  rewrite u64_i64_fits by lia. cbn [mbind result_bind]. rewrite Hdel. cbn [mbind result_bind].
  assert (∃ st, streams s !! id = Some st ∧ 0 ≤ live_bytes st) as (st & -> & Hst0).
  { rewrite Hs. cbn [streams]. rewrite lookup_insert_eq. eexists. split; [done|]. cbn.
    specialize (Hbytes (List.filter (λ row, effective <=? row_stream_sequence row) (stream_rows (registry_delivery r) id))).
    lia. }
  cbn [ok_or mbind result_bind]. unfold resume_drained, i64_u64. rewrite (proj2 (Z.leb_le 0 _)) by done.
  cbn [mbind result_bind]. rewrite Hnow. destruct (_ <=? delivery_resume_mark _); cbn [mbind result_bind]; by eexists _, _.
Qed.

(** C19: what a prune deletes. On a feed in order, pruning a processor's
    stream succeeds, and deletes exactly the rows below the boundary it
    reports: at most the requested one, never past a position an active
    required consumer still needs, and never the newest record. With the rows
    go their outbox entries and no others; the stream keeps its next
    sequence, its pruned mark and retained bytes follow, and again no stream
    has a gap. Other streams, parked changes and all consumers are untouched.
    Where the rows of each block stand together, no block is left in part. *)
Theorem prune_exact now d id requested r stream time (Hfeed : feed_ok r)
    (Hstream : streams (registry_delivery r) !! id = Some stream)
    (Hinstance : stream_instance stream = processor_instance d)
    (Hrequested : 0 ≤ requested ≤ i64_max) (Hlive : live_bytes stream ≤ i64_max) (Hnow : now = Ok time) :
  ∃ r' effective, prune_changes_before_in_stream now d id requested r =
      (r', Ok (MkPruneOutcome requested effective (Z.of_nat (length (rows_below (registry_delivery r) id effective))))) ∧
    effective ≤ requested ∧
    (∀ cid c, consumer_row r id cid = Some c → consumer_role c = ConsumerRequired →
       consumer_state c = ConsumerActive → effective ≤ acknowledged_sequence c + 1) ∧
    (∀ row, row ∈ stream_rows (registry_delivery r) id → row_stream_sequence row = next_sequence stream - 1 →
       row ∈ stream_rows (registry_delivery r') id) ∧
    prefix_deleted (registry_delivery r) (registry_delivery r') id stream effective ∧
    delivery_ok (registry_delivery r') ∧
    consumers (registry_admission r') = consumers (registry_admission r) ∧
    (blocks_contiguous (registry_delivery r) id → splits_no_block (registry_delivery r) id effective).
Proof.
  destruct (prune_total _ _ _ _ _ _ _ Hfeed Hstream Hinstance Hrequested Hlive Hnow) as (r' & out & Hrun).
  pose proof (prune_transaction _ _ _ _ _ _ _ Hfeed Hrun) as
    (st & effective & s & a & Hst & _ & Heff & Hdel & Hbefore & Ha & -> & ->).
  assert (st = stream) as -> by congruence. pose proof Hfeed as [Hok _].
  pose proof (streams_dense _ Hok _ _ Hst) as Hd.
  pose proof (effective_boundary_le _ _ _ _ Heff) as (Hle & Hc & Hl & (wanted & _ & Hkeep)).
  pose proof (delete_prefix_deleted _ _ _ _ _ Hok Hst Hbefore Hdel) as Hdeleted.
  eexists _, effective. split; [exact Hrun|]. split_and!; [done|done| |done|by eapply delete_prefix_ok|done|].
  - intros row Hrow Hnewest. cbn [registry_delivery with_admission with_delivery].
    rewrite (deleted_rows _ _ _ _ _ Hdeleted). apply elem_of_filter_list. split; [done|]. apply Z.leb_le.
    pose proof (dense_row _ _ _ Hd row Hrow). rewrite (dense_head _ _ _ Hd) in Hl.
    rewrite (proj2 (Z.ltb_lt _ _)) in Hl by lia. specialize (Hl _ eq_refl). lia.
  - intros Hblocks. by eapply keep_trailing_whole.
Qed.

(** ** A reorganized feed *)

Module FeedSample.
Definition block (number : Z) (k : byte) : BlockRef := MkBlockRef number (array_fill 32 k) hash_zero 0.
Definition append (s : Delivery) (commit : BlockRef * ChangeDirection * list byte) : Delivery :=
  let '(b, direction, keys) := commit in
  match append_changes "erc20" "erc20:canonical" (origin_live "erc20") 1 b Attested direction ["sink"%string] 50 s
      (sample_change <$> keys) with
  | Ok (s', _) => s'
  | Err _ => s
  end.
Definition empty : Delivery :=
  MkDelivery {[ "erc20:canonical"%string := MkStream "erc20" StreamCanonical 1 0 0 ]} [] 0 [] [].

(** Three blocks of two changes; and a block undone under the next. *)
Definition forward : Delivery :=
  foldl append empty [(block 10 x01, DirApply, [x01; x02]); (block 11 x02, DirApply, [x03; x04]);
    (block 12 x03, DirApply, [x05; x06])].
Definition reorganized : Delivery :=
  foldl append empty [(block 10 x01, DirApply, [x01]); (block 11 x02, DirApply, [x02]);
    (block 11 x02, DirUndo, [x02]); (block 10 x01, DirUndo, [x01])].

Definition reader (role : ConsumerRole) (acknowledged generation expires : Z) : Consumer :=
  MkConsumer role ConsumerActive acknowledged 6 0 generation 1000 expires 0 0 None.
Definition feed (s : Delivery) (c : Consumer) : Registry :=
  MkRegistry {[ "erc20"%string := [x01] ]} ∅ s
    (MkAdmission {[ "erc20"%string := MkRunState Running None 0 ]} {[ ("erc20:canonical", "app")%string := c ]} ∅).

Lemma empty_ok : delivery_ok empty.
Proof.
  split; [constructor|by intros ? ?%elem_of_nil|by intros ? ?%elem_of_nil| |by intros ? ? ?%elem_of_nil].
  intros id st Hst. unfold empty in Hst. cbn [streams] in Hst. apply lookup_singleton_Some in Hst as [<- <-]. split_and!; [cbn; lia|cbn; lia|reflexivity|reflexivity].
Qed.

Lemma append_ok s commit : delivery_ok s → delivery_ok (append s commit).
Proof.
  intros Hok. destruct commit as [[b direction] keys]. unfold append.
  destruct (append_changes _ _ _ _ _ _ _ _ _ _ _) as [[s' r]|] eqn:Ha; [|done]. by eapply append_changes_ok.
Qed.

Lemma appends_ok commits s : delivery_ok s → delivery_ok (foldl append s commits).
Proof. revert s; induction commits; cbn; auto using append_ok. Qed.

Lemma forward_ok : delivery_ok forward.
Proof. apply appends_ok, empty_ok. Qed.
Lemma reorganized_ok : delivery_ok reorganized.
Proof. apply appends_ok, empty_ok. Qed.

Lemma feed_feed_ok s c next :
  delivery_ok s → next_sequence <$> streams s !! "erc20:canonical"%string = Some next →
  pruned_through_sequence <$> streams s !! "erc20:canonical"%string = Some 0 →
  0 ≤ acknowledged_sequence c < next → acknowledged_sequence c ≤ delivered_sequence c → 0 ≤ lease_generation c →
  feed_ok (feed s c).
Proof.
  intros Hok Hnext Hpruned Ha Hd Hg. split; [done|]. intros sid cid c' Hc.
  unfold consumer_row, feed in Hc. cbn [registry_admission consumers] in Hc.
  apply lookup_singleton_Some in Hc as [[= <- <-] <-]. split; [lia|done|done|].
  cbn. destruct (streams s !! "erc20:canonical"%string) as [st|]; [|done]. exists st.
  injection Hnext as ->. injection Hpruned as ->. split_and!; [done|lia|lia].
Qed.
End FeedSample.

Lemma prune_exact_witness :
  let r := FeedSample.feed FeedSample.forward (FeedSample.reader ConsumerRequired 3 0 0) in
  ∃ r', prune_changes_before_in_stream (Ok 99) sample_descriptor "erc20:canonical" 6 r =
      (r', Ok (MkPruneOutcome 6 3 2)) ∧ delivery_ok (registry_delivery r').
Proof.
  cbn zeta.
  destruct (prune_exact (Ok 99) sample_descriptor "erc20:canonical" 6
    (FeedSample.feed FeedSample.forward (FeedSample.reader ConsumerRequired 3 0 0))
    (MkStream "erc20" StreamCanonical 7 0 18) 99) as (r' & effective & Hrun & _ & _ & _ & _ & Hok & _).
  - apply (FeedSample.feed_feed_ok _ _ 7); [exact FeedSample.forward_ok|vm_compute; reflexivity..| | |];
      cbn; lia.
  - vm_compute. reflexivity.
  - reflexivity.
  - uints.
  - cbn. uints.
  - reflexivity.
  - exists r'. split; [|exact Hok].
    assert ((prune_changes_before_in_stream (Ok 99) sample_descriptor "erc20:canonical" 6
      (FeedSample.feed FeedSample.forward (FeedSample.reader ConsumerRequired 3 0 0))).2 = Ok (MkPruneOutcome 6 3 2)) as Hout
      by (vm_compute; reflexivity).
    rewrite Hrun in Hout. cbn [snd] in Hout. rewrite Hrun. f_equal. exact Hout.
Defined.

(** The block of the newest deleted row is kept whole; one the rows of other
    blocks interrupt is not: here the undo of block 10 outlives its apply. *)
Lemma prune_splits_block :
  let r := FeedSample.feed FeedSample.reorganized (FeedSample.reader ConsumerBestEffort 0 0 0) in
  (prune_changes_before_in_stream (Ok 99) sample_descriptor "erc20:canonical" 4 r).2 = Ok (MkPruneOutcome 4 4 3) ∧
  ¬ splits_no_block (registry_delivery r) "erc20:canonical" 4.
Proof.
  cbn zeta. split; [vm_compute; reflexivity|]. intros Hsplit.
  assert (∃ x y, stream_rows FeedSample.reorganized "erc20:canonical" !! 0%nat = Some x ∧
    stream_rows FeedSample.reorganized "erc20:canonical" !! 3%nat = Some y ∧ row_stream_sequence x = 1 ∧
    row_stream_sequence y = 4 ∧ ref_number (row_block x) = ref_number (row_block y)) as (x & y & Hx & Hy & Hx1 & Hy4 & Heq)
    by (eexists _, _; split; [vm_compute; reflexivity|]; split; [vm_compute; reflexivity|]; done).
  apply (Hsplit x y); [by eapply list_elem_of_lookup_2|by eapply list_elem_of_lookup_2|lia|exact Heq].
Qed.
