(* ===== verification/Consumption.v ===== *)
(** * Durable consumption

    The lanes, the pruner and the consumers of one store as a step relation
    ([crates/store-sqlite/src/lib.rs]), and what a consumer can rely on
    whatever their order: its unread records stay, acknowledgements count
    exactly, sessions that ended are fenced off. *)
From Stdlib Require Import ZArith Lia Strings.Byte.
From stdpp Require Import gmap strings list list_numbers fin_maps sorting relations.
From S2P Require Import Prelude Bytes Chain Capability Provenance Frame Durable Descriptor Delta Rows Overlay Inverse Window Delivery Ranges Artifacts Checkpoints Capacity Registration Consumers Pruning Lane Apply Revert Codec Scenario Ledger Feed Retention.

(** ** The lanes' writes *)

(** Consumers' rows under admission: only their activity may end. *)
Definition admission_step (a a' : Admission) : Prop :=
  (∀ k c, consumers a !! k = Some c → ∃ c', consumers a' !! k = Some c' ∧ consumer_progress c c' ∧
     acknowledged_sequence c' = acknowledged_sequence c) ∧
  ∀ k, is_Some (consumers a' !! k) → is_Some (consumers a !! k).

#[export] Instance admission_step_preorder : PreOrder admission_step.
Proof.
  split; [by split; [intros k c Hc; by exists c|]|].
  intros a1 a2 a3 [H12 B12] [H23 B23]. split; [|eauto]. intros k c Hc.
  destruct (H12 _ _ Hc) as (c2 & Hc2 & P2 & E2), (H23 _ _ Hc2) as (c3 & Hc3 & P3 & E3).
  exists c3. split_and!; [done|by etrans|congruence].
Qed.

Lemma admission_step_same a a' : consumers a' = consumers a → admission_step a a'.
Proof. intros Heq. split; rewrite Heq; [|done]. intros k c Hc. by exists c. Qed.

Lemma admission_step_advances r a : admission_step (registry_admission r) a → advances r (with_admission r a).
Proof.
  intros [Hf Hb]. apply advance_admission.
  - intros sid cid c Hc. destruct (Hf _ _ Hc) as (c' & Hc' & Hp & _). by exists c'.
  - intros sid cid c' [_ Hok] Hc'. destruct (Hb (sid, cid) (mk_is_Some _ _ Hc')) as [c Hc].
    destruct (Hf _ _ Hc) as (c2 & Hc2 & Hp & He). assert (c2 = c') as -> by congruence.
    by apply (consumer_ok_same _ _ c); [apply (Hok sid cid)|..].
Qed.

Lemma set_run_state_step now instance state reason :
  keeps admission_step (set_processor_run_state now instance state reason).
Proof. unfold set_processor_run_state. keeps_all. apply keeps_modify. intros ?. by apply admission_step_same. Qed.

Lemma expire_consumers_step now id : keeps admission_step (expire_consumers now id).
Proof.
  unfold expire_consumers. keeps_all. apply keeps_modify. intros adm. split; cbn.
  - intros k c Hc. rewrite map_lookup_imap, Hc. cbn. eexists. split; [done|].
    destruct (required_active id (k, c)); [|done]. split; [by apply with_state_progress|done].
  - intros k. rewrite map_lookup_imap. intros (c' & Hc'). by destruct (consumers adm !! k).
Qed.

Lemma enforce_step limits database wal now d instance s id incoming work :
  keeps admission_step (enforce_delivery_capacity limits database wal now d instance s id incoming work).
Proof.
  unfold enforce_delivery_capacity. keeps_all; try apply set_run_state_step; apply expire_consumers_step.
Qed.

Lemma record_progress_step now id through processed published a a' :
  record_backfill_progress now id through processed published a = Ok a' → admission_step a a'.
Proof.
  unfold record_backfill_progress. intros (at_ms & _ & (x & _ & (y & _ & H)%result_bind_Ok)%result_bind_Ok)%result_bind_Ok.
  destruct (subscriptions a !! id); [|by injection H as <-].
  apply result_bind_Ok in H as (? & _ & (? & _ & (? & _ & (? & _ & [= <-])%result_bind_Ok)%result_bind_Ok)%result_bind_Ok).
  by apply admission_step_same.
Qed.

Section lanes.
Context `{!Wire} (env : Env).

Definition lane_advances (l l' : Lane) : Prop := advances (lane_registry l) (lane_registry l').

#[export] Instance lane_advances_preorder : PreOrder lane_advances.
Proof. split; [intros l; exact (reflexivity (R:=advances) _)|]. intros l1 l2 l3 H12 H23. unfold lane_advances in *. by etrans. Qed.

Lemma on_delivery_advances {A} (f : Delivery → result StoreError (Delivery * A)) :
  (∀ s s' a, f s = Ok (s', a) → writes s s') → keeps lane_advances (on_delivery f).
Proof.
  intros Hf l l' res. unfold on_delivery, zoom, transact.
  destruct (f (lane_delivery l)) as [[s a]|e] eqn:Hs; intros [= <- _]; unfold lane_advances; cbn.
  - apply advance_delivery. by eapply Hf.
  - apply (advance_delivery (lane_registry l)), (reflexivity (R:=writes)).
Qed.

Lemma on_admission_advances {A} (m : eff Admission StoreError A) :
  keeps admission_step m → keeps lane_advances (zoom lane_admission with_lane_admission m).
Proof.
  intros Hm l l' res. unfold zoom. destruct (m (lane_admission l)) as [a r] eqn:Ha. intros [= <- _].
  unfold lane_advances. cbn. apply admission_step_advances. by eapply Hm.
Qed.

Lemma lane_same l l' : lane_registry l' = lane_registry l → lane_advances l l'.
Proof. unfold lane_advances. by intros ->. Qed.

Lemma keeps_registry {A} (m : eff Lane StoreError A) :
  (∀ l l' r, m l = (l', r) → lane_registry l' = lane_registry l) → keeps lane_advances m.
Proof. intros Hm l l' r Hr%Hm. by apply lane_same. Qed.

(** What leaves the registry alone. *)
Lemma modify_registry f : (∀ l, lane_registry (f l) = lane_registry l) → keeps lane_advances (modify (E:=StoreError) f).
Proof. intros Hf. apply keeps_modify. intros l. apply lane_same, Hf. Qed.

Lemma zoom_registry {T A} (get : Lane → T) (put : Lane → T → Lane) (m : eff T StoreError A) :
  (∀ l t, lane_registry (put l t) = lane_registry l) → keeps lane_advances (zoom get put m).
Proof. intros Hp. apply keeps_zoom. intros l t. apply lane_same, Hp. Qed.

Lemma on_tables_advances {A} (f : Tables → result StoreError (Tables * A)) : keeps lane_advances (on_tables f).
Proof. by apply zoom_registry. Qed.
Lemma on_artifacts_advances {A} (f : ArtifactStore → result StoreError (ArtifactStore * A)) :
  keeps lane_advances (on_artifacts f).
Proof. by apply zoom_registry. Qed.

Lemma unit_transact_advances f :
  (∀ l l', f l = Ok l' → lane_registry l' = lane_registry l) → keeps lane_advances (transact (E:=StoreError) (unit_step f)).
Proof. intros Hf. apply keeps_transact; [apply _|]. intros l l' [] Hl%unit_step_Ok. by apply lane_same, Hf. Qed.

Lemma upsert_cursor_advances cursor text : keeps lane_advances (transact (unit_step (upsert_cursor cursor text))).
Proof.
  apply unit_transact_advances. intros l l'. unfold upsert_cursor.
  by intros (? & _ & (? & _ & [= <-])%result_bind_Ok)%result_bind_Ok.
Qed.

Lemma checkpoint_step_advances d instance cursor : keeps lane_advances (checkpoint_step env d instance cursor).
Proof. apply unit_transact_advances. intros l l'. by intros (? & _ & [= <-])%result_bind_Ok. Qed.

Lemma release_advances instance through level at_ms :
  keeps lane_advances (on_delivery (release_deferred_changes instance through level at_ms)).
Proof. apply on_delivery_advances. intros s s' a. apply release_deferred_writes. Qed.

Lemma append_advances instance stream origin chain block level direction sinks at_ms changes :
  keeps lane_advances (on_delivery (λ s, append_changes instance stream origin chain block level direction sinks at_ms
    s changes)).
Proof. apply on_delivery_advances. intros s s' a. apply append_changes_writes. Qed.

Lemma park_advances f : keeps lane_advances
  (modify (E:=StoreError) (λ l, with_lane_delivery l (with_parked (lane_delivery l) (f l)))).
Proof. apply keeps_modify. intros l. unfold lane_advances. cbn. apply advance_delivery, with_parked_writes. Qed.

Lemma register_advances d : keeps lane_advances (zoom lane_registry with_registry (register_processor (env_now env) d)).
Proof.
  intros l l' res. unfold zoom. destruct (register_processor _ d _) as [r res'] eqn:Hr. intros [= <- _].
  by eapply register_processor_advances.
Qed.

(** Take a lane's operation apart into such steps. *)
Ltac lane_step :=
  first
    [ keeps_step
    | apply on_tables_advances | apply on_artifacts_advances | apply release_advances | apply append_advances
    | apply park_advances | apply checkpoint_step_advances | apply upsert_cursor_advances | apply register_advances
    | by apply modify_registry | by apply zoom_registry
    | apply on_admission_advances, enforce_step ].
Ltac lane_all := repeat lane_step.

Lemma settle_advances d instance cursor delta artifact :
  keeps lane_advances (settle_applied env d instance cursor delta artifact).
Proof. unfold settle_applied. lane_all. Qed.

Lemma prepare_advances p instance cursor delta publish stream origin artifact :
  keeps lane_advances (prepare env p instance cursor delta publish stream origin artifact).
Proof. unfold prepare. lane_all. Qed.

Lemma write_changes_advances d instance cursor delta sinks publish stream p :
  keeps lane_advances (write_changes env d instance cursor delta sinks publish stream p).
Proof.
  unfold write_changes. lane_all.
  apply on_admission_advances, keeps_transact; [apply _|]. intros x x' [] Hx%unit_step_Ok. by eapply record_progress_step.
Qed.

Lemma commit_advances d instance cursor delta sinks publish stream artifact p :
  keeps lane_advances (commit_block env d instance cursor delta sinks publish stream artifact p).
Proof.
  unfold commit_block. lane_all; [| |apply write_changes_advances].
  - unfold write_rows. lane_all.
  - unfold write_coverage. lane_all.
Qed.

Lemma apply_advances p cursor delta sinks publish stream origin :
  keeps lane_advances (apply_with_origin_to_stream env p cursor delta sinks publish stream origin).
Proof.
  unfold apply_with_origin_to_stream. lane_all; [apply settle_advances|apply prepare_advances|apply commit_advances].
Qed.

Lemma undo_advances d chain number hash sinks : keeps lane_advances (undo env d chain number hash sinks).
Proof.
  unfold undo. lane_all.
  - unfold forget_block. lane_all.
  - unfold restore_cursor. lane_all.
  - unfold retract_changes. lane_all.
Qed.

Lemma raise_writes_advances raised : keeps lane_advances (write_raised raised).
Proof. unfold write_raised. lane_all. Qed.
Lemma marker_advances d level through cursor context :
  keeps lane_advances (publish_marker env d level through cursor context).
Proof. unfold publish_marker. lane_all. Qed.
Lemma release_held_advances d level through : keeps lane_advances (release_held env d level through).
Proof. unfold release_held. lane_all. Qed.

Lemma finalized_advances d through hash : keeps lane_advances (mark_finalized env d through hash).
Proof.
  unfold mark_finalized. lane_all; try apply raise_writes_advances; try apply marker_advances;
    try apply release_held_advances.
  apply unit_transact_advances. intros l l'. unfold prune_finalized_undo. by intros (? & _ & [= <-])%result_bind_Ok.
Qed.

Lemma attested_advances d through hash : keeps lane_advances (mark_attested env d through hash).
Proof.
  unfold mark_attested. lane_all; try apply raise_writes_advances; try apply marker_advances;
    apply release_held_advances.
Qed.
End lanes.

(** ** One store, many callers *)

(** A call on a lane. *)
Inductive LaneCall :=
  | LaneApply (p : Processor) (cursor : ProcessorCursor) (delta : EncodedDelta) (sinks : list string) (publish : bool)
      (stream_id : string) (origin : option DeliveryOriginKind)
  | LaneUndo (d : ProcessorDescriptor) (chain_id : ChainId) (number : BlockNumber) (hash : BlockHash) (sinks : list string)
  | LaneAttest (d : ProcessorDescriptor) (through : BlockNumber) (hash : BlockHash)
  | LaneFinalize (d : ProcessorDescriptor) (through : BlockNumber) (hash : BlockHash).

(** A call on the feed; [CallRaise] is the late half of a recorded delivery,
    after other calls came between. *)
Inductive FeedCall :=
  | CallRegister (now : result StoreError Z) (d : ProcessorDescriptor)
  | CallCreate (now now_after : result StoreError Z) (d : ProcessorDescriptor) (stream_id consumer_id : string)
      (role : ConsumerRole) (start : ConsumerStartPosition) (ttl : Z) (credential : option (list byte))
  | CallRenew (now now_after : result StoreError Z) (d : ProcessorDescriptor) (stream_id consumer_id : string)
  | CallAcquire (now : result StoreError Z) (d : ProcessorDescriptor) (stream_id consumer_id : string)
  | CallRenewSession (now : result StoreError Z) (stream_id consumer_id : string) (generation : Z)
  | CallReleaseSession (now : result StoreError Z) (stream_id consumer_id : string) (generation : Z)
  | CallRecord (now now_write : result StoreError Z) (stream_id consumer_id : string) (session : option Z) (sequence : Z)
  | CallRaise (now : result StoreError Z) (stream_id consumer_id : string) (session : option Z) (sequence : Z)
  | CallRead (fuel : nat) (now : result StoreError Z) (d : ProcessorDescriptor) (stream_id : string)
      (chain_id : ChainId) (consumer_id : string) (limit : nat)
  | CallAcknowledge (now now_after : result StoreError Z) (d : ProcessorDescriptor) (stream_id consumer_id : string)
      (session : option Z) (sequence : Z)
  | CallRevoke (now now_after : result StoreError Z) (d : ProcessorDescriptor) (consumer_id : string)
  | CallReset (now now_after : result StoreError Z) (d : ProcessorDescriptor) (consumer_id : string)
  | CallPrune (now : result StoreError Z) (d : ProcessorDescriptor) (stream_id : string) (finalized : BlockNumber)
  | CallPruneBefore (now : result StoreError Z) (d : ProcessorDescriptor) (stream_id : string) (requested : Z).

Section store.
Context `{!Wire} (credential_hash : list byte → list byte).

Definition run_lane (env : Env) (call : LaneCall) (l : Lane) : Lane :=
  match call with
  | LaneApply p cursor delta sinks publish stream_id origin =>
      (apply_with_origin_to_stream env p cursor delta sinks publish stream_id origin l).1
  | LaneUndo d chain_id number hash sinks => (undo env d chain_id number hash sinks l).1
  | LaneAttest d through hash => (mark_attested env d through hash l).1
  | LaneFinalize d through hash => (mark_finalized env d through hash l).1
  end.

Definition run_call (call : FeedCall) (r : Registry) : Registry :=
  match call with
  | CallRegister now d => (register_processor now d r).1
  | CallCreate now now_after d stream_id consumer_id role start ttl credential =>
      (create_consumer_inner credential_hash now now_after d stream_id consumer_id role start ttl credential r).1
  | CallRenew now now_after d stream_id consumer_id =>
      (renew_consumer_in_stream now now_after d stream_id consumer_id r).1
  | CallAcquire now d stream_id consumer_id => (acquire_consumer_session_in_stream now d stream_id consumer_id r).1
  | CallRenewSession now stream_id consumer_id generation =>
      (renew_consumer_session_in_stream now stream_id consumer_id generation r).1
  | CallReleaseSession now stream_id consumer_id generation =>
      (release_consumer_session_in_stream now stream_id consumer_id generation r).1
  | CallRecord now now_write stream_id consumer_id session sequence =>
      (record_consumer_delivery_in_stream now now_write stream_id consumer_id session sequence r).1
  | CallRaise now stream_id consumer_id session sequence =>
      (raise_delivered now stream_id consumer_id session sequence r).1
  | CallRead fuel now d stream_id chain_id consumer_id limit =>
      (consumer_changes_in_stream fuel now d stream_id chain_id consumer_id limit r).1
  | CallAcknowledge now now_after d stream_id consumer_id session sequence =>
      (acknowledge_consumer_in_stream_inner now now_after d stream_id consumer_id session sequence r).1
  | CallRevoke now now_after d consumer_id => (revoke_consumer now now_after d consumer_id r).1
  | CallReset now now_after d consumer_id => (reset_consumer_required now now_after d consumer_id r).1
  | CallPrune now d stream_id finalized => (prune_delivery_changes_in_stream now d stream_id finalized r).1
  | CallPruneBefore now d stream_id requested => (prune_changes_before_in_stream now d stream_id requested r).1
  end.

(** Any call, whether it fails or not; lanes of any processor share the
    registry. *)
Inductive feed_step : relation Registry :=
  | step_call call r : feed_step r (run_call call r)
  | step_lane env call l : feed_step (lane_registry l) (lane_registry (run_lane env call l)).

Lemma keeps_fst {S E A} (R : relation S) (m : eff S E A) s : keeps R m → R s (m s).1.
Proof. intros Hm. destruct (m s) as [s' r] eqn:Hs. exact (Hm _ _ _ Hs). Qed.

Lemma feed_step_advances r r' : feed_step r r' → advances r r'.
Proof.
  intros [call r0|env call l]; [|destruct call; apply (keeps_fst lane_advances)].
  - destruct call; cbn [run_call]; apply keeps_fst;
      eauto using register_processor_advances, create_consumer_advances, renew_consumer_advances,
        acquire_session_advances, renew_session_advances, release_session_advances, record_delivery_advances,
        raise_delivered_advances, consumer_changes_advances, acknowledge_consumer_advances,
        prune_delivery_advances, prune_changes_advances.
    + by apply transition_consumer_advances.
    + by apply transition_consumer_advances.
  - apply apply_advances.
  - apply undo_advances.
  - apply attested_advances.
  - apply finalized_advances.
Qed.

Lemma feed_steps_advance r r' : rtc feed_step r r' → advances r r'.
Proof. induction 1 as [|r1 r2 r3 H12 _ H23]; [done|]. etrans; [by apply feed_step_advances|done]. Qed.

(** ** What a consumer has not acknowledged *)

Definition unread (s : Delivery) (stream_id : string) (acknowledged : Z) : list ChangeRow :=
  List.filter (λ row, acknowledged <? row_stream_sequence row) (stream_rows s stream_id).

(** Rows of the same sequences, all of them rows of one dense stream. *)
Lemma same_rows s id stream l k :
  stream_dense s id stream → (∀ x, x ∈ l → x ∈ stream_rows s id) → (∀ x, x ∈ k → x ∈ stream_rows s id) →
  sequences l = sequences k → l = k.
Proof.
  intros Hd. revert k; induction l as [|x l IH]; intros [|y k] Hl Hk Heq; try done.
  injection Heq as Hx Heq. f_equal.
  - apply (dense_unique _ _ _ Hd); [apply Hl; by left|apply Hk; by left|done].
  - apply IH; [intros; apply Hl; by right|intros; apply Hk; by right|done].
Qed.

(** C8: nothing a required consumer has not acknowledged is lost. Let lanes
    apply, undo, attest and finalize blocks, the pruner prune, and consumers
    register, lease, read, record deliveries, acknowledge, reset and revoke,
    in any order, succeeding or failing. A consumer's row is still there, its
    acknowledged position, delivered mark and session generation only rose,
    and an ended consumer is not active again. While a required consumer is
    active, its unread records are exactly the sequences from its
    acknowledged one to the stream's newest, without a gap, and those that
    were there at the start are the very same records. *)
Theorem durable_delivery r0 r stream_id consumer_id c
    (Hfeed : feed_ok r0) (Hsteps : rtc feed_step r0 r) (Hc : consumer_row r0 stream_id consumer_id = Some c) :
  ∃ c' stream stream', consumer_row r stream_id consumer_id = Some c' ∧ consumer_progress c c' ∧
    streams (registry_delivery r0) !! stream_id = Some stream ∧
    streams (registry_delivery r) !! stream_id = Some stream' ∧
    next_sequence stream ≤ next_sequence stream' ∧
    (consumer_role c = ConsumerRequired → consumer_state c' = ConsumerActive →
      sequences (unread (registry_delivery r) stream_id (acknowledged_sequence c')) =
        seqZ (acknowledged_sequence c' + 1) (next_sequence stream' - acknowledged_sequence c' - 1) ∧
      List.filter (λ row, row_stream_sequence row <? next_sequence stream)
          (unread (registry_delivery r) stream_id (acknowledged_sequence c')) =
        unread (registry_delivery r0) stream_id (acknowledged_sequence c')).
Proof.
  destruct (feed_steps_advance _ _ Hsteps Hfeed) as [[Hok' Hcons'] Hgrow Hadv].
  destruct (Hadv _ _ _ Hc) as (c' & Hc' & Hp). destruct Hfeed as [Hok Hcons].
  destruct (Hcons _ _ _ Hc) as [_ _ _ (stream & Hs & Hn & Hpruned)].
  destruct (Hgrow _ _ Hs) as (stream' & Hs' & _ & _ & Hnext & _ & Hrows).
  pose proof (streams_dense _ Hok _ _ Hs) as Hd. pose proof (streams_dense _ Hok' _ _ Hs') as Hd'.
  exists c', stream, stream'. split_and!; [done..|]. intros Hrole Hactive.
  destruct (Hcons' _ _ _ Hc') as [_ _ _ (st' & Hst' & Hn' & Hpruned')].
  assert (st' = stream') as -> by congruence.
  assert (pruned_through_sequence stream' ≤ acknowledged_sequence c') as Hp'
    by (apply Hpruned'; [by rewrite (role_kept _ _ Hp)|done]).
  assert (pruned_through_sequence stream ≤ acknowledged_sequence c') as Hp0.
  { specialize (Hpruned Hrole (inactive_stays _ _ Hp Hactive)). pose proof (acknowledged_rises _ _ Hp). lia. }
  assert (sequences (unread (registry_delivery r) stream_id (acknowledged_sequence c')) =
    seqZ (acknowledged_sequence c' + 1) (next_sequence stream' - acknowledged_sequence c' - 1)) as Hseq.
  { unfold unread. rewrite (dense_above _ _ _ Hd'). f_equal; lia. }
  split; [done|]. apply (same_rows _ _ _ _ _ Hd).
  - intros x [[Hx _]%elem_of_filter_list Hlt%Z.ltb_lt]%elem_of_filter_list. by apply Hrows.
  - by intros x [Hx _]%elem_of_filter_list.
  - rewrite (filter_below row_stream_sequence _ _ _ _ Hseq). unfold sequences at 1. rewrite fmap_take.
    fold (sequences (unread (registry_delivery r) stream_id (acknowledged_sequence c'))). rewrite Hseq, take_seqZ.
    unfold unread. rewrite (dense_above _ _ _ Hd).
    destruct (decide (acknowledged_sequence c' + 1 ≤ next_sequence stream)); [f_equal; lia|].
    by rewrite !seqZ_nil by lia.
Qed.

(** ** Sessions *)

(** What a session that was replaced can do: nothing. *)
Record fenced (r : Registry) (stream_id consumer_id : string) (generation : Z) : Prop := MkFenced {
  fenced_acknowledge now now_after d sequence : ∃ e, acknowledge_consumer_in_stream_inner now now_after d stream_id
    consumer_id (Some generation) sequence r = (r, Err e);
  fenced_renew now : ∃ e, renew_consumer_session_in_stream now stream_id consumer_id generation r = (r, Err e);
  fenced_record now now_write sequence : ∃ res, record_consumer_delivery_in_stream now now_write stream_id consumer_id
    (Some generation) sequence r = (r, res) ∧ res ≠ Ok true;
  fenced_raise now sequence : ∃ res, raise_delivered now stream_id consumer_id (Some generation) sequence r = (r, res) ∧
    res ≠ Ok true;
  fenced_release now : ∃ res, release_consumer_session_in_stream now stream_id consumer_id generation r = (r, res) ∧
    res ≠ Ok true;
  fenced_current now : consumer_session_is_current_in_stream now stream_id consumer_id generation r ≠ Ok true;
}.

Lemma session_holds_other generation now c : lease_generation c ≠ generation → session_holds generation now c = false.
Proof. intros Hne. unfold session_holds. by rewrite (proj2 (Z.eqb_neq _ _)). Qed.

Lemma old_session_fenced r stream_id consumer_id c generation :
  consumer_row r stream_id consumer_id = Some c → lease_generation c ≠ generation →
  fenced r stream_id consumer_id generation.
Proof.
  intros Hc Hne.
  assert (∀ now, session_holds generation now c = false) as Hh by (intros; by apply session_holds_other).
  split.
  - intros now now_after d sequence.
    destruct (acknowledge_consumer_in_stream_inner _ _ _ _ _ _ _ r) as [r' [out|e]] eqn:Hrun.
    + exfalso. unfold acknowledge_consumer_in_stream_inner in Hrun. run_step Hrun r1 r2 Hs. injection Hs as <- <-.
      run_step Hrun r1 u1 Hs. apply lift_Ok in Hs as [-> _]. run_step Hrun r1 b Hs. apply atomic_Ok in Hs.
      destruct b.
      * apply acknowledge_row_Ok in Hs as (at_ms & c' & newly & expires & _ & Hc' & Ha & _).
        apply acknowledges_lease in Ha as (Hg & _). congruence.
      * apply acknowledge_row_repeat in Hs as (_ & at_ms & c' & _ & Hc' & _ & (g & [= <-] & Hg & _)). congruence.
    + exists e. f_equal. unfold acknowledge_consumer_in_stream_inner, gets in Hrun.
      unfold mbind at 1, eff_bind at 1 in Hrun. cbn [id] in Hrun.
      apply lift_run in Hrun as [[-> _]|(u & _ & Hrun)]; [done|].
      unfold mbind at 1, eff_bind at 1 in Hrun.
      destruct (atomic _ r) as [r1 [b|e1]] eqn:Ha; [|injection Hrun as <- _; by apply atomic_Err in Ha].
      apply atomic_Ok in Ha. destruct b.
      * apply acknowledge_row_Ok in Ha as (at_ms & c' & newly & expires & _ & Hc' & Ha & _).
        apply acknowledges_lease in Ha as (Hg & _). congruence.
      * apply acknowledge_row_repeat in Ha as (_ & at_ms & c' & _ & Hc' & _ & (g & [= <-] & Hg & _)). congruence.
  - intros now. unfold renew_consumer_session_in_stream. unfold mbind at 1, eff_bind at 1, lift at 1.
    destruct now as [at_ms|e]; [|by exists e]. unfold mbind at 1, eff_bind at 1, lift at 1.
    destruct (u64_i64 generation _) as [stored|e] eqn:Hg; [|by exists e]. apply u64_i64_Ok in Hg as [-> _].
    rewrite (eff_bind_step _ _ _ r (Ok false)); [by eexists|]. apply update_consumer_miss.
    intros c' Hc'. replace c' with c by congruence. by rewrite Hh, andb_false_r.
  - intros now now_write sequence. unfold record_consumer_delivery_in_stream.
    destruct (u64_i64 generation "consumer lease generation") as [stored|e] eqn:Hg; cbn;
      [|by exists (Err e)]. apply u64_i64_Ok in Hg as [-> _].
    unfold mbind at 1, eff_bind at 1, lift at 1.
    unfold mbind at 1, eff_bind at 1, lift at 1. destruct (u64_i64 sequence _) as [q|e]; [|by exists (Err e)].
    unfold mbind at 1, eff_bind at 1, lift at 1. destruct now as [at_ms|e]; [|by exists (Err e)].
    unfold gets. unfold mbind at 1, eff_bind at 1. cbn [id]. rewrite Hc. unfold records_delivery.
    rewrite Hh, andb_false_r. by exists (Ok false).
  - intros now sequence. unfold raise_delivered. unfold mbind at 1, eff_bind at 1, lift at 1.
    destruct now as [at_ms|e]; [|by exists (Err e)]. exists (Ok false). split; [|done]. apply update_consumer_miss.
    intros c' Hc'. replace c' with c by congruence. unfold records_delivery. by rewrite Hh, andb_false_r.
  - intros now. unfold release_consumer_session_in_stream. unfold mbind at 1, eff_bind at 1, lift at 1.
    destruct now as [at_ms|e]; [|by exists (Err e)]. unfold mbind at 1, eff_bind at 1, lift at 1.
    destruct (u64_i64 generation _) as [stored|e] eqn:Hg; [|by exists (Err e)]. apply u64_i64_Ok in Hg as [-> _].
    exists (Ok false). split; [|done]. apply update_consumer_miss. intros c' Hc'. replace c' with c by congruence.
    by apply Z.eqb_neq.
  - intros now. unfold consumer_session_is_current_in_stream. rewrite Hc. destruct (is_active c); [|done]. cbn [negb].
    destruct (i64_u64 (lease_generation c) _) as [stored|] eqn:Hg; [|done]. apply i64_u64_Ok in Hg as [-> _].
    cbn. by rewrite (proj2 (Z.eqb_neq _ _)).
Qed.

(** What acquiring a session leaves. *)
Lemma acquire_session_Ok now d stream_id consumer_id r r' lease :
  acquire_consumer_session_in_stream now d stream_id consumer_id r = (r', Ok lease) →
  ∃ c c', consumer_row r stream_id consumer_id = Some c ∧ consumer_row r' stream_id consumer_id = Some c' ∧
    lease_generation c' = generation lease ∧ generation lease = lease_generation c + 1 ∧
    lease_expires_at c' = expires_at_unix_ms lease.
Proof.
  unfold acquire_consumer_session_in_stream. intros Hrun. run_step Hrun r0 r1 Hs. injection Hs as <- <-. cbn [id] in Hrun.
  run_step Hrun r0 u1 Hs. apply lift_Ok in Hs as [-> _]. run_step Hrun r0 at_ms Hs. apply lift_Ok in Hs as [-> _].
  run_step Hrun r0 c Hs. apply lift_Ok in Hs as [-> Hc].
  destruct (consumer_row r stream_id consumer_id) as [c0|] eqn:Hrow; [|done]. injection Hc as ->.
  run_step Hrun r0 u2 Hs. apply lift_Ok in Hs as [-> _]. run_step Hrun r0 g Hs. apply lift_Ok in Hs as [-> [-> _]%i64_u64_Ok].
  run_step Hrun r0 u3 Hs. apply lift_Ok in Hs as [-> _].
  run_step Hrun r0 next Hs. apply lift_Ok in Hs as [-> [-> _]%checked_sum_Ok].
  run_step Hrun r0 expiry Hs. apply lift_Ok in Hs as [-> _].
  run_step Hrun r0 stored Hs. apply lift_Ok in Hs as [-> [-> _]%u64_i64_Ok].
  run_step Hrun r0 u4 Hs. injection Hs as <- _.
  run_step Hrun r0 expires Hs. apply lift_Ok in Hs as [-> [-> _]%i64_u64_Ok].
  apply lift_Ok in Hrun as [-> [= <-]].
  eexists c, _. rewrite consumer_row_put, decide_True by done. split_and!; done.
Qed.

(** C17: a replaced session is fenced off for good. Once a session was
    acquired, no session of an earlier generation can acknowledge, renew,
    record a delivery, not even by a write that was already under way, or
    release the lease, and none is current: now and after whatever the
    lanes, the pruner and the other callers do next, each such call leaves
    the store as it was. *)
Theorem session_fenced now d stream_id consumer_id r r1 r2 lease older
    (Hfeed : feed_ok r) (Hacquire : acquire_consumer_session_in_stream now d stream_id consumer_id r = (r1, Ok lease))
    (Hsteps : rtc feed_step r1 r2) (Holder : older < generation lease) :
  fenced r2 stream_id consumer_id older.
Proof.
  pose proof (acquire_session_Ok _ _ _ _ _ _ _ Hacquire) as (c & c1 & _ & Hc1 & Hg & _).
  destruct (acquire_session_advances _ _ _ _ _ _ _ Hacquire Hfeed) as [Hfeed1 _ _].
  destruct (feed_steps_advance _ _ Hsteps Hfeed1) as [_ _ Hadv].
  destruct (Hadv _ _ _ Hc1) as (c2 & Hc2 & Hp). apply (old_session_fenced _ _ _ c2); [done|].
  pose proof (generation_rises _ _ Hp). lia.
Qed.

(** ** Acknowledging *)

(** The columns a consumer's row is read back from. *)
Record readable (c : Consumer) : Prop := MkReadable {
  readable_expiry : 0 ≤ lease_expires_at c;
  readable_ttl : 0 ≤ lease_ttl_ms c;
  readable_created : 0 ≤ consumer_created_at c;
  readable_updated : 0 ≤ consumer_updated_at c;
}.

Lemma consumer_after_Ok now time d stream_id consumer_id detail r c stream :
  streams (registry_delivery r) !! stream_id = Some stream → stream_instance stream = processor_instance d →
  consumer_row r stream_id consumer_id = Some c → consumer_ok (registry_delivery r) stream_id c → readable c →
  now = Ok time → 0 ≤ time →
  consumer_after now d stream_id consumer_id detail r =
    (r, Ok (MkDurableConsumer consumer_id (processor_instance d) stream_id (consumer_role c) (consumer_state c)
      (acknowledged_sequence c) (delivered_sequence c) (lease_generation c) (lease_ttl_ms c) (lease_expires_at c)
      (time <? lease_expires_at c) (consumer_created_at c) (consumer_updated_at c))).
Proof.
  intros Hs Hi Hc [? ? ? _] [? ? ? ?] Hnow Htime. unfold consumer_after, gets. unfold mbind at 1, eff_bind at 1. cbn [id].
  unfold lift. f_equal. unfold consumer_in_stream, validate_delivery_stream. rewrite Hs, bool_decide_eq_true_2 by done.
  cbn [mbind result_bind]. rewrite Hnow. cbn [mbind result_bind]. rewrite Hc. unfold decode_consumer, i64_u64.
  repeat (rewrite (proj2 (Z.leb_le 0 _)) by lia; cbn [mbind result_bind]). done.
Qed.

(** What an acknowledgement must meet. *)
Definition accepts_session (session : option Z) (sequence at_ms : Z) (c : Consumer) : Prop :=
  match session with
  | None => True
  | Some generation => lease_generation c = generation ∧
      (at_ms < lease_expires_at c ∨ sequence = acknowledged_sequence c)
  end.

Definition acceptable (s : Delivery) (stream_id : string) (stream : Stream) (session : option Z) (sequence at_ms : Z)
    (c : Consumer) : Prop :=
  consumer_state c = ConsumerActive ∧ accepts_session session sequence at_ms c ∧ acknowledged_sequence c ≤ sequence ∧
  (acknowledged_sequence c < sequence →
     sequence ≤ delivered_sequence c ∧
     (∃ row, row ∈ stream_rows s stream_id ∧ sequence ≤ row_stream_sequence row) ∧
     boundary s stream_id (stream_kind stream) sequence).

(** Values within SQLite's range, and progress marks that decode. *)
Record acknowledge_ranges (s : Delivery) (stream_id : string) (session : option Z) (sequence at_ms : Z) (c : Consumer)
    (newly : Z) : Prop := MkAcknowledgeRanges {
  range_sequence : 0 ≤ sequence ≤ i64_max;
  range_generation : lease_generation c ≤ i64_max;
  range_blocks : ∀ row, row ∈ stream_rows s stream_id → 0 ≤ ref_number (row_block row);
  range_work : acknowledged_work s stream_id (acknowledged_sequence c) sequence = Ok newly;
  range_work_sum : 0 ≤ acknowledged_work_blocks c ∧ acknowledged_work_blocks c + newly ≤ i64_max;
  range_time : 0 ≤ at_ms ∧ at_ms + lease_ttl_ms c ≤ i64_max;
}.

Lemma put_readable sequence work expires at_ms c :
  readable c → 0 ≤ expires → 0 ≤ at_ms → readable (acknowledged_row sequence work expires at_ms c).
Proof. intros [? ? ? ?] ? ?. by split. Qed.

(** C15: which acknowledgements count. On a feed in order, a consumer's
    acknowledgement of a sequence succeeds exactly when the consumer is
    active; its session, if it names one, is the current generation and
    either still holds the lease or repeats the acknowledged position; and
    the sequence is not below that position and, where above it, was
    delivered, exists, and ends a commit on a live stream or carries a
    progress or completion mark on a backfill stream. Then the row holds the
    new position, the acknowledged work grows by the marks in between, a
    session's lease starts over, and nothing else in the store changes; a
    session that ended and repeats itself writes nothing. A refused
    acknowledgement writes nothing. *)
Theorem acknowledge_exact now now_after d stream_id consumer_id session sequence r c stream at_ms time newly
    (Hfeed : feed_ok r) (Hstream : streams (registry_delivery r) !! stream_id = Some stream)
    (Hinstance : stream_instance stream = processor_instance d)
    (Hc : consumer_row r stream_id consumer_id = Some c) (Hreadable : readable c)
    (Hnow : now = Ok at_ms) (Hafter : now_after = Ok time) (Htime : 0 ≤ time)
    (Hranges : acknowledge_ranges (registry_delivery r) stream_id session sequence at_ms c newly) :
  match acknowledge_consumer_in_stream_inner now now_after d stream_id consumer_id session sequence r with
  | (r', Ok out) =>
      acceptable (registry_delivery r) stream_id stream session sequence at_ms c ∧
      durable_acknowledged out = sequence ∧
      (repeats session sequence at_ms c ∧ r' = r ∨
       ¬ repeats session sequence at_ms c ∧
       r' = put_consumer stream_id consumer_id (acknowledged_row sequence (acknowledged_work_blocks c + newly)
         (match session with Some _ => at_ms + lease_ttl_ms c | None => lease_expires_at c end) at_ms c) r)
  | (r', Err _) => r' = r ∧ ¬ acceptable (registry_delivery r) stream_id stream session sequence at_ms c
  end.
Proof.
  pose proof Hfeed as [Hok Hcons]. pose proof (streams_dense _ Hok _ _ Hstream) as Hd.
  pose proof (Hcons _ _ _ Hc) as Hcok. pose proof Hcok as [Hack Hdel Hgen _].
  destruct Hranges as [Hseq Hgmax Hblocks Hnewly Hwork [Hat Hlease]].
  assert (∀ f : unit → eff Registry StoreError DurableConsumer,
    (lift (validate_delivery_stream (processor_instance d) stream_id (registry_delivery r)) ≫= f) r = f tt r) as Hvalid.
  { intros f. apply lift_cons. unfold validate_delivery_stream. by rewrite Hstream, bool_decide_eq_true_2. }
  assert (acknowledged_sequence c < sequence → check_acknowledgement (registry_delivery r) stream_id c sequence = Ok () ↔
    sequence ≤ delivered_sequence c ∧ (∃ row, row ∈ stream_rows (registry_delivery r) stream_id ∧
      sequence ≤ row_stream_sequence row) ∧ boundary (registry_delivery r) stream_id (stream_kind stream) sequence) as Hcheck.
  { intros Hlt. rewrite (check_acknowledgement_Ok _ _ _ _ _ Hstream Hd) by (done || lia).
    split; [intros ([->|?] & ? & ?); [lia|done]|intros (? & ? & ?); auto]. }
  unfold acknowledge_consumer_in_stream_inner, gets. unfold mbind at 1, eff_bind at 1. cbn [id]. rewrite Hvalid.
  destruct (acknowledge_row now (processor_instance d) stream_id consumer_id session sequence r) as [r' [[]|e]] eqn:Hrun.
  - rewrite (eff_bind_step _ _ _ _ _ (atomic_run _ _ _ _ Hrun)).
    pose proof (acknowledge_row_Ok _ _ _ _ _ _ _ _ Hrun) as (at' & c' & newly' & expires & Hat' & Hc' & Ha & ->).
    assert (at' = at_ms) as -> by congruence. assert (c' = c) as -> by congruence.
    assert (newly' = newly) as -> by (pose proof (acknowledges_work _ _ _ _ _ _ _ _ Ha); congruence).
    destruct Ha as [Hactive [_ Hle] _ Hchecked _ _ Hsession].
    assert (expires = match session with Some _ => at_ms + lease_ttl_ms c | None => lease_expires_at c end ∧
      accepts_session session sequence at_ms c ∧ ¬ repeats session sequence at_ms c) as (-> & Haccepts & Hno).
    { destruct session as [g|]; cbn in *; [|split_and!; [done..|by intros (? & ? & _)]].
      destruct Hsession as (? & ? & -> & _). split_and!; [done|done|by left|]. intros (? & _ & _ & ? & _). lia. }
    set (c1 := acknowledged_row _ _ _ _ _).
    destruct (acknowledge_consumer_advances now now_after d stream_id consumer_id session sequence r
      (put_consumer stream_id consumer_id c1 r) (consumer_after now_after d stream_id consumer_id
        "acknowledged consumer disappeared" (put_consumer stream_id consumer_id c1 r)).2) as [[_ Hcons'] _ _]; [|done|].
    { unfold acknowledge_consumer_in_stream_inner, gets. unfold mbind at 1, eff_bind at 1. cbn [id]. rewrite Hvalid.
      rewrite (eff_bind_step _ _ _ _ _ (atomic_run _ _ _ _ Hrun)).
      unfold consumer_after, gets. unfold mbind at 1, eff_bind at 1. done. }
    assert (consumer_row (put_consumer stream_id consumer_id c1 r) stream_id consumer_id = Some c1) as Hc1
      by by rewrite consumer_row_put, decide_True.
    rewrite (consumer_after_Ok now_after time d stream_id consumer_id _ (put_consumer stream_id consumer_id c1 r) c1 stream);
      [|done|done|done|by apply Hcons' in Hc1| |done|done].
    + split_and!; [|done|by right]. split_and!; [done|done|done|]. intros Hlt. by apply Hcheck, Hchecked.
    + destruct Hreadable. apply put_readable; [done| |done]. destruct session; lia.
  - rewrite (eff_bind_step _ _ _ _ _ (atomic_run _ _ _ _ Hrun)).
    apply acknowledge_row_repeat in Hrun as (-> & at' & c' & Hat' & Hc' & Hactive & Hrep).
    assert (at' = at_ms) as -> by congruence. assert (c' = c) as -> by congruence.
    rewrite (consumer_after_Ok now_after time d stream_id consumer_id _ r c stream); [|done..].
    pose proof Hrep as (g & -> & Hg & Hexp & ->). split_and!; [|done|by left].
    split_and!; [done|split; [done|by right]|done|lia].
  - unfold mbind at 1, eff_bind at 1, atomic. rewrite Hrun. split; [done|].
    intros (Hactive & Hsession & Hle & Hmust).
    assert (repeats session sequence at_ms c ∨ ∃ expires, session_lease session at_ms c expires) as [Hrep|[expires Hexp]].
    { destruct session as [g|]; cbn in *; [|right; by eexists]. destruct Hsession as [Hg [Hlt| ->]]; [right; by eexists|].
      destruct (Z.lt_ge_cases at_ms (lease_expires_at c)); [right; by eexists|]. left. by exists g. }
    + rewrite (acknowledge_row_repeat_run _ _ _ _ _ _ _ at_ms c) in Hrun; [done..|lia|lia|done].
    + rewrite (acknowledge_row_run _ _ _ _ _ _ _ at_ms c newly expires) in Hrun; [done..|lia|].
      split; [done|lia|lia| |done|done|done]. intros Hlt. by apply Hcheck, Hmust.
Qed.

(** ** Reading *)

(** A row whose columns a reader of the chain takes. *)
Record row_reads (chain_id : ChainId) (row : ChangeRow) : Prop := MkRowReads {
  reads_sequence : 0 ≤ row_stream_sequence row;
  reads_chain : row_chain row = chain_id ∧ 0 ≤ chain_id;
  reads_revision : 0 ≤ publication_revision (row_origin row);
  reads_block : 0 ≤ ref_number (row_block row) ∧ 0 ≤ ref_timestamp (row_block row);
  reads_created : 0 ≤ row_created_at row;
}.

Definition record_of (d : ProcessorDescriptor) (chain_id : ChainId) (row : ChangeRow) : ChangeRecord :=
  MkRecord DELIVERY_ENCODING_VERSION chain_id (processor_id (descriptor_id d)) (row_stream_sequence row) (row_origin row) (row_block row) (row_finality row)
    (row_direction row) (row_change row) (row_created_at row).

Lemma decode_row d chain_id row :
  row_reads chain_id row → decode_change_row d chain_id row = Ok (record_of d chain_id row).
Proof.
  intros [? [Hchain ?] ? [? ?] ?]. unfold decode_change_row, i64_u64. rewrite Hchain.
  repeat (rewrite (proj2 (Z.leb_le 0 _)) by lia; cbn [mbind result_bind]). rewrite Z.eqb_refl. cbn [negb].
  unfold record_of. by destruct (row_origin row).
Qed.

Lemma decode_rows d chain_id rows :
  (∀ row, row ∈ rows → row_reads chain_id row) → decode_change_rows rows d chain_id = Ok (record_of d chain_id <$> rows).
Proof.
  unfold decode_change_rows. intros Hrows. change (record_of d chain_id <$> rows) with ([] ++ (record_of d chain_id <$> rows)).
  assert (∀ l, fold_result (λ done row, record ← decode_change_row d chain_id row; Ok (done ++ [record])) l rows =
    Ok (l ++ (record_of d chain_id <$> rows))) as Hall; [|apply Hall].
  induction rows as [|row rows IH]; intros l; cbn; [by rewrite app_nil_r|].
  rewrite decode_row by (apply Hrows; by left). cbn. rewrite IH; [by rewrite <-app_assoc|].
  intros x Hx. apply Hrows. by right.
Qed.

(** One pass of the read loop, undisturbed. *)
Definition read_pass (now : result StoreError Z) (d : ProcessorDescriptor) (stream_id : string) (chain_id : ChainId)
    (consumer_id : string) (after : Z) (limit : nat) (r : Registry)
    : Registry * result StoreError (option (list ChangeRecord)) :=
  match consumer_read_is_retained (processor_instance d) stream_id consumer_id after r, now with
  | Err e, _ => (r, Err e)
  | Ok true, _ => (r,
      _ ← validate_change_limit limit;
      rows ← change_page_rows (registry_delivery r) stream_id after limit;
      Some <$> decode_change_rows rows d chain_id)
  | Ok false, Err e => (r, Err e)
  | Ok false, Ok at_ms =>
      (match consumer_row r stream_id consumer_id with
       | Some c => put_consumer stream_id consumer_id (with_consumer_state c ConsumerResetRequired at_ms) r
       | None => r
       end,
       bounds ← change_bounds_in_stream d stream_id (registry_delivery r);
       Err (ConsumerMustReset (bounds_earliest <$> bounds) (bounds_latest <$> bounds)))
  end.

Lemma not_retained instance stream_id consumer_id after r :
  consumer_read_is_retained instance stream_id consumer_id after r = Ok false →
  ∃ c stream, consumer_row r stream_id consumer_id = Some c ∧ is_active c = true ∧
    streams (registry_delivery r) !! stream_id = Some stream ∧
    acknowledged_sequence c < pruned_through_sequence stream.
Proof.
  unfold consumer_read_is_retained, pruned_through. intros Hr.
  destruct (consumer_row r stream_id consumer_id) as [c|] eqn:Hc; [|done]. cbn in Hr.
  destruct (is_active c) eqn:Ha; [|done]. cbn in Hr.
  apply result_bind_Ok in Hr as (? & [-> _]%i64_u64_Ok & Hr). destruct (after <? _); [done|].
  apply result_bind_Ok in Hr as (pruned & Hp & Hlt).
  destruct (streams _ !! stream_id) as [stream|] eqn:Hs; [|done]. cbn in Hp.
  apply i64_u64_Ok in Hp as [-> _]. exists c, stream. injection Hlt as Hlt. split_and!; [done..|lia].
Qed.

Lemma read_loop_pass fuel now d stream_id chain_id consumer_id after limit r :
  consumer_changes_loop (S fuel) now d stream_id chain_id consumer_id after limit r =
    read_pass now d stream_id chain_id consumer_id after limit r.
Proof.
  cbn [consumer_changes_loop]. unfold read_pass. rewrite gets_cons. cbn [id].
  destruct (consumer_read_is_retained _ _ _ _ r) as [[]|e] eqn:Hr; [by rewrite (lift_cons _ _ _ true)| |done].
  rewrite (lift_cons _ _ _ false) by done. apply not_retained in Hr as (c & stream & Hc & Ha & Hs & Hlt).
  destruct now as [at_ms|e]; [|done]. rewrite Hc.
  assert (mark_overtaken (Ok at_ms) stream_id consumer_id r =
    (put_consumer stream_id consumer_id (with_consumer_state c ConsumerResetRequired at_ms) r, Ok true)) as Hmark.
  { unfold mark_overtaken. rewrite (lift_cons _ _ _ at_ms) by done. rewrite gets_cons.
    cbn [id]. apply (update_consumer_run _ _ _ _ _ c); [done| |done]. rewrite Ha, Hs. cbn. by apply Z.ltb_lt. }
  rewrite (eff_bind_step _ _ _ _ _ Hmark), gets_cons. cbn [id].
  unfold mbind at 1, eff_bind at 1, lift at 1. cbn [registry_delivery put_consumer with_admission].
  by destruct (change_bounds_in_stream _ _ _).
Qed.

(** C22: the read loop ends. A read that finds its consumer overtaken marks it
    and loops if the row changed meanwhile; undisturbed, it is done on its
    first pass, whatever the state: more passes change nothing, and it always
    has an answer. *)
Theorem read_terminates fuel now d stream_id chain_id consumer_id after limit r :
  consumer_changes_loop (S fuel) now d stream_id chain_id consumer_id after limit r =
    consumer_changes_loop 1 now d stream_id chain_id consumer_id after limit r ∧
  (consumer_changes_loop (S fuel) now d stream_id chain_id consumer_id after limit r).2 ≠ Ok None.
Proof.
  rewrite !read_loop_pass. split; [done|]. unfold read_pass.
  destruct (consumer_read_is_retained _ _ _ _ r) as [[]|e]; [|destruct now|done]; cbn [snd]; [| |done].
  - destruct (validate_change_limit limit); [|done]. cbn.
    destruct (change_page_rows _ _ _ _); [|done]. cbn. by destruct (decode_change_rows _ _ _).
  - by destruct (change_bounds_in_stream _ _ _).
Qed.

(** C20: what a consumer reads. On a feed in order, an active consumer that
    asks for what comes after a position at or past its acknowledged one
    gets, while nothing after its acknowledged position was pruned, the next
    records of the stream: consecutive sequences from the one right after the
    position, as many as the page holds or the stream has, each the stored
    record; reading writes nothing. A consumer the pruning overtook is told
    to reset, with the sequences the stream still holds, and is marked so. *)
Theorem read_exact fuel now d stream_id chain_id consumer_id after limit r c stream at_ms
    (Hfeed : feed_ok r) (Hstream : streams (registry_delivery r) !! stream_id = Some stream)
    (Hinstance : stream_instance stream = processor_instance d)
    (Hc : consumer_row r stream_id consumer_id = Some c) (Hactive : consumer_state c = ConsumerActive)
    (Hafter : acknowledged_sequence c ≤ after ≤ i64_max) (Hlimit : (0 < limit ≤ N.to_nat 10000)%nat)
    (Hrows : ∀ row, row ∈ stream_rows (registry_delivery r) stream_id → row_reads chain_id row) (Hnow : now = Ok at_ms) :
  if pruned_through_sequence stream <=? acknowledged_sequence c
  then
    ∃ records, consumer_changes_after_in_stream (S fuel) now d stream_id chain_id consumer_id after limit r =
        (r, Ok (Some records)) ∧
      records = record_of d chain_id <$> take limit (unread (registry_delivery r) stream_id after) ∧
      record_sequence <$> records = seqZ (after + 1) (Z.min (Z.of_nat limit) (next_sequence stream - after - 1))
  else
    consumer_changes_after_in_stream (S fuel) now d stream_id chain_id consumer_id after limit r =
      (put_consumer stream_id consumer_id (with_consumer_state c ConsumerResetRequired at_ms) r,
       Err (ConsumerMustReset (first_sequence (registry_delivery r) stream_id)
         (head_sequence (registry_delivery r) stream_id))).
Proof.
  pose proof Hfeed as [Hok Hcons]. pose proof (streams_dense _ Hok _ _ Hstream) as Hd.
  pose proof (dense_bounds _ _ _ Hd) as Hb. destruct (Hcons _ _ _ Hc) as [Hack _ _ _].
  assert (validate_delivery_stream (processor_instance d) stream_id (registry_delivery r) = Ok ()) as Hvalid
    by (unfold validate_delivery_stream; by rewrite Hstream, bool_decide_eq_true_2).
  assert (consumer_read_is_retained (processor_instance d) stream_id consumer_id after r =
    Ok (pruned_through_sequence stream <=? acknowledged_sequence c)) as Hread.
  { unfold consumer_read_is_retained, is_active, pruned_through. rewrite Hc, Hstream. cbn [ok_or mbind result_bind].
    rewrite bool_decide_eq_true_2 by done. cbn [mbind result_bind].
    rewrite (proj2 (i64_u64_Ok _ _ _) (conj eq_refl Hack)). cbn [mbind result_bind].
    rewrite (proj2 (Z.ltb_ge _ _)) by lia. by rewrite (proj2 (i64_u64_Ok _ _ _) (conj eq_refl (proj1 Hb))). }
  assert (consumer_changes_after_in_stream (S fuel) now d stream_id chain_id consumer_id after limit r =
    read_pass now d stream_id chain_id consumer_id after limit r) as ->.
  { unfold consumer_changes_after_in_stream, gets. unfold mbind at 1, eff_bind at 1. cbn [id].
    rewrite (lift_cons _ _ _ tt) by done. apply read_loop_pass. }
  unfold read_pass. rewrite Hread, Hnow.
  destruct (Z.leb_spec (pruned_through_sequence stream) (acknowledged_sequence c)) as [Hle|Hgt].
  - eexists. split_and!; [| reflexivity |].
    + f_equal. unfold validate_change_limit. rewrite (proj2 (Nat.eqb_neq _ _)), (proj2 (Nat.ltb_ge _ _)) by lia.
      cbn [orb mbind result_bind]. unfold change_page_rows, usize_i64. rewrite u64_i64_fits by lia.
      cbn [mbind result_bind]. rewrite (proj2 (Z.leb_le _ _)) by (unfold i64_max; lia). cbn [mbind result_bind].
      rewrite (dense_log _ _ _ Hd), Nat2Z.id, decode_rows; [done|].
      intros row (i & Hrow%list_elem_of_lookup_2 & _)%elem_of_take. apply elem_of_filter_list in Hrow as [Hrow _]. by apply Hrows.
    + rewrite <-list_fmap_compose. change (record_sequence ∘ record_of d chain_id) with row_stream_sequence.
      rewrite fmap_take. fold (sequences (unread (registry_delivery r) stream_id after)). unfold unread.
      rewrite (dense_above _ _ _ Hd), take_seqZ. f_equal; lia.
  - rewrite Hc. f_equal. unfold change_bounds_in_stream. rewrite Hvalid. cbn [mbind result_bind].
    rewrite (dense_first _ _ _ Hd), (dense_head _ _ _ Hd).
    destruct (Z.ltb_spec (pruned_through_sequence stream + 1) (next_sequence stream)); [|done].
    unfold i64_u64. rewrite !(proj2 (Z.leb_le 0 _)) by lia. done.
Qed.
End store.

(** ** Examples *)

Module ConsumptionSample.
Definition start : Registry := FeedSample.feed FeedSample.forward (FeedSample.reader ConsumerRequired 1 4 5).
Definition id : string := "erc20:canonical".

Lemma start_ok : feed_ok start.
Proof.
  apply (FeedSample.feed_feed_ok _ _ 7); [exact FeedSample.forward_ok|vm_compute; reflexivity..| | |]; cbn; lia.
Qed.

Lemma forward_reads row : row ∈ stream_rows FeedSample.forward id → row_reads 1 row.
Proof.
  assert (Forall (λ row, 0 ≤ row_stream_sequence row ∧ row_chain row = 1 ∧
    0 ≤ publication_revision (row_origin row) ∧ 0 ≤ ref_number (row_block row) ∧ 0 ≤ ref_timestamp (row_block row) ∧
    0 ≤ row_created_at row) (stream_rows FeedSample.forward id)) as Hall.
  { apply (bool_decide_unpack _). vm_compute. exact I. }
  intros Hin. destruct (proj1 (Forall_forall _ _) Hall row Hin) as (? & ? & ? & ? & ? & ?). by split.
Qed.

(** Prune, take a session, acknowledge through the second change of block 11. *)
Definition calls : list FeedCall :=
  [CallPruneBefore (Ok 99) sample_descriptor id 6; CallAcquire (Ok 10) sample_descriptor id "app";
   CallAcknowledge (Ok 20) (Ok 20) sample_descriptor id "app" (Some 5) 4].
End ConsumptionSample.

Lemma run_calls `{!Wire} credential_hash calls r :
  rtc (feed_step credential_hash) r (foldl (λ r call, run_call credential_hash call r) r calls).
Proof. revert r; induction calls as [|call calls IH]; intros r; cbn; [done|]. eapply rtc_l; [apply step_call|done]. Qed.

Lemma durable_delivery_witness :
  let r := foldl (λ r call, run_call Datatypes.id call r) ConsumptionSample.start ConsumptionSample.calls in
  ∃ c', consumer_row r ConsumptionSample.id "app" = Some c' ∧ acknowledged_sequence c' = 4 ∧
    sequences (unread (registry_delivery r) ConsumptionSample.id 4) = [5; 6].
Proof.
  cbn zeta.
  destruct (durable_delivery Datatypes.id ConsumptionSample.start _ ConsumptionSample.id "app"
    (FeedSample.reader ConsumerRequired 1 4 5) ConsumptionSample.start_ok
    (run_calls Datatypes.id ConsumptionSample.calls ConsumptionSample.start)
    ltac:(vm_compute; reflexivity)) as (c' & stream & stream' & Hc' & _ & _ & Hs' & _ & Hunread).
  exists c'. split; [exact Hc'|].
  assert (acknowledged_sequence <$> consumer_row (foldl (λ r call, run_call Datatypes.id call r) ConsumptionSample.start
    ConsumptionSample.calls) ConsumptionSample.id "app" = Some 4) as Hack by (vm_compute; reflexivity).
  assert (consumer_state <$> consumer_row (foldl (λ r call, run_call Datatypes.id call r) ConsumptionSample.start
    ConsumptionSample.calls) ConsumptionSample.id "app" = Some ConsumerActive) as Hact by (vm_compute; reflexivity).
  assert (next_sequence <$> streams (registry_delivery (foldl (λ r call, run_call Datatypes.id call r)
    ConsumptionSample.start ConsumptionSample.calls)) !! ConsumptionSample.id = Some 7) as Hnext by (vm_compute; reflexivity).
  rewrite Hc' in Hack, Hact. rewrite Hs' in Hnext. injection Hack as Hack. injection Hact as Hact. injection Hnext as Hnext.
  split; [exact Hack|]. destruct (Hunread eq_refl Hact) as [Hseq _]. rewrite Hack, Hnext in Hseq. exact Hseq.
Defined.

Lemma session_fenced_witness :
  let r1 := (acquire_consumer_session_in_stream (Ok 10) sample_descriptor ConsumptionSample.id "app"
    ConsumptionSample.start).1 in
  fenced (foldl (λ r call, run_call Datatypes.id call r) r1 ConsumptionSample.calls) ConsumptionSample.id "app" 4.
Proof.
  cbn zeta.
  assert ((acquire_consumer_session_in_stream (Ok 10) sample_descriptor ConsumptionSample.id "app"
    ConsumptionSample.start).2 = Ok (MkSession 5 1010)) as Hlease by (vm_compute; reflexivity).
  apply (session_fenced Datatypes.id (Ok 10) sample_descriptor ConsumptionSample.id "app" ConsumptionSample.start
    (acquire_consumer_session_in_stream (Ok 10) sample_descriptor ConsumptionSample.id "app" ConsumptionSample.start).1
    _ (MkSession 5 1010)).
  - exact ConsumptionSample.start_ok.
  - rewrite <-Hlease. apply surjective_pairing.
  - apply run_calls.
  - reflexivity.
Defined.

Lemma acknowledge_exact_witness :
  ∃ r' out, acknowledge_consumer_in_stream_inner (Ok 20) (Ok 21) sample_descriptor ConsumptionSample.id "app" None 4
      ConsumptionSample.start = (r', Ok out) ∧ durable_acknowledged out = 4 ∧
    r' = put_consumer ConsumptionSample.id "app" (acknowledged_row 4 0 5 20 (FeedSample.reader ConsumerRequired 1 4 5))
      ConsumptionSample.start.
Proof.
  assert (∃ row, row ∈ stream_rows FeedSample.forward ConsumptionSample.id ∧ 4 ≤ row_stream_sequence row) as Hrow.
  { destruct (stream_rows FeedSample.forward ConsumptionSample.id !! 3%nat) as [row|] eqn:Hrow;
      [|vm_compute in Hrow; discriminate].
    exists row. split; [by eapply list_elem_of_lookup_2|].
    vm_compute in Hrow. injection Hrow as <-. vm_compute. discriminate. }
  pose proof (acknowledge_exact (Ok 20) (Ok 21) sample_descriptor ConsumptionSample.id "app" None 4
    ConsumptionSample.start (FeedSample.reader ConsumerRequired 1 4 5) (MkStream "erc20" StreamCanonical 7 0 18) 20 21 0
    ConsumptionSample.start_ok ltac:(vm_compute; reflexivity) ltac:(reflexivity) ltac:(vm_compute; reflexivity)
    ltac:(split; cbn; lia) ltac:(reflexivity) ltac:(reflexivity) ltac:(lia)) as Hexact.
  destruct (acknowledge_consumer_in_stream_inner _ _ _ _ _ _ _ _) as [r' [out|e]] eqn:Hrun.
  - exists r', out. destruct Hexact as (_ & Hout & Hw).
    + split; [uints|cbn; uints| |vm_compute; reflexivity|cbn; uints|cbn; uints].
      intros row Hin. exact (proj1 (reads_block _ _ (ConsumptionSample.forward_reads row Hin))).
    + split; [reflexivity|]. split; [exact Hout|]. destruct Hw as [[(g & [=] & _) _]|[_ ->]]. reflexivity.
  - exfalso. destruct Hexact as [_ Hno].
    + split; [uints|cbn; uints| |vm_compute; reflexivity|cbn; uints|cbn; uints].
      intros row Hin. exact (proj1 (reads_block _ _ (ConsumptionSample.forward_reads row Hin))).
    + apply Hno. split_and!; [reflexivity|exact I|cbn; lia|]. intros _. split_and!; [cbn; lia|exact Hrow|exact I].
Defined.

Lemma read_exact_witness :
  ∃ records, consumer_changes_after_in_stream 1 (Ok 20) sample_descriptor ConsumptionSample.id 1 "app" 2 3
      ConsumptionSample.start = (ConsumptionSample.start, Ok (Some records)) ∧
    record_sequence <$> records = [3; 4; 5].
Proof.
  destruct (read_exact 0 (Ok 20) sample_descriptor ConsumptionSample.id 1 "app" 2 3 ConsumptionSample.start
    (FeedSample.reader ConsumerRequired 1 4 5) (MkStream "erc20" StreamCanonical 7 0 18) 20) as (records & Hrun & _ & Hseq).
  - exact ConsumptionSample.start_ok.
  - vm_compute. reflexivity.
  - reflexivity.
  - vm_compute. reflexivity.
  - reflexivity.
  - cbn. uints.
  - lia.
  - exact ConsumptionSample.forward_reads.
  - reflexivity.
  - exists records. split; [exact Hrun|exact Hseq].
Defined.
