(* ===== verification/Reorg.v ===== *)
(** * Reorganizations

    The rows of a lane that applies blocks and undoes them newest first, as
    a reorganization of the chain makes the runtime do
    ([apply_with_origin_to_stream], [undo], [mark_attested],
    [mark_finalized] of [crates/store-sqlite/src/lib.rs]): they are the rows
    of the surviving blocks run one after the other. *)
From Stdlib Require Import ZArith Lia Strings.Byte.
From stdpp Require Import gmap strings list list_numbers fin_maps sorting.
From S2P Require Import Prelude Bytes Chain Capability Provenance Frame Durable Descriptor Delta Rows Overlay Inverse Window Delivery Ranges Artifacts Checkpoints Capacity Registration Lane Apply Revert Codec Scenario Ledger.

(** ** The specification: blocks run straight on the rows *)

Definition Core : Type := gmap EntityKey (list byte) * gset IndexKey * gmap StateKey (list byte).

Definition core_view (c : Core) : View := MkView c.1.1 c.1.2 c.2 [].

(** A processor without retained output keeps its working state only. *)
Definition kept (retain : bool) (c : Core) (v : View) : Core :=
  if retain then view_core v else (c.1, view_state v).

Definition direct_block (p : Processor) (c : Core) (block : ProcessorCursor * EncodedDelta) : result StoreError Core :=
  v ← checked_direct (processor_reduce p block.1 block.2) (core_view c);
  Ok (kept (retains_processor_output (processor_descriptor p)) c v).

(** The rows a list of blocks leaves, oldest first. *)
Definition direct_rows (p : Processor) (c : Core) (blocks : list (ProcessorCursor * EncodedDelta)) : result StoreError Core :=
  fold_result (direct_block p) c blocks.

(** ** Mutations forward and back *)

Lemma consistent_state e i s e' i' ms :
  consistent true (e, i, s) ms → consistent false (e', i', s) ms ∧
  fold_left (core_step false false) ms (e', i', s) = (e', i', (fold_left (core_step false true) ms (e, i, s)).2).
Proof.
  revert e i s; induction ms as [|m ms IH]; intros e i s; cbn; [done|]. intros [Hm Hms].
  destruct m as [c k b a|x k y b a|n k b a]; cbn in *;
    (destruct (IH _ _ _ Hms) as [Hc Hf]; split; [split; [done|exact Hc]|exact Hf]).
Qed.

(** What pruning removes can be put back. *)
Lemma pruned_core now d t block t' pruned :
  prune_output_window now d t block = Ok (t', pruned) →
  let retain := retains_processor_output d in
  consistent retain (core t) (pruned_mutations pruned) ∧
  core t' = fold_left (core_step false retain) (pruned_mutations pruned) (core t) ∧
  (output_mode (lifecycle_output (lifecycle d)) ≠ OutputWindowed → pruned_mutations pruned = []).
Proof.
  unfold prune_output_window, retains_processor_output.
  destruct (output_mode _); try by intros [= <- <-].
  intros (window & _ & (cs & Hcs%window_candidates_ok & [= Hdel])%result_bind_Ok)%result_bind_Ok.
  destruct Hcs as [Hnd _]. pose proof (delete_pruned_output_spec t cs Hnd) as Hspec. rewrite Hdel in Hspec.
  destruct Hspec as (Hrem & Hfold & Hrows & Hpre & _). cbn. split_and!; [by apply consistent_distinct| |done].
  pose proof (apply_removals (λ _, Ok 0) block Finalized _ t Hrem) as Happly.
  apply apply_fold_core in Happly. by rewrite Hfold in Happly.
Qed.

Lemma reduced_rows p cursor delta t batch :
  reduce_block t (processor_reduce p cursor delta) = Ok batch →
  let retain := retains_processor_output (processor_descriptor p) in
  consistent retain (core t) (mutations batch) ∧
  direct_block p (core t) (cursor, delta) = Ok (fold_left (core_step false retain) (mutations batch) (core t)).
Proof.
  intros Hbatch. cbn zeta. unfold direct_block. cbn [fst snd].
  change (core_view (core t)) with (view_of t).
  pose proof (sim_checked t (core t) (processor_reduce p cursor delta) overlay_new (view_of t) (simulates_new t)) as Hsim.
  unfold reduce_block in Hbatch. destruct (checked_reduce _ _ _) as [o|]; [|done].
  destruct (checked_direct _ _) as [v|]; [|done]. injection Hbatch as Hb.
  destruct (simulates_batch t _ o v Hsim) as (_ & Hcons & _ & Hfold). rewrite Hb in Hcons, Hfold.
  cbn [mbind result_bind]. unfold kept. rewrite <-Hfold.
  destruct (retains_processor_output _); [done|].
  destruct (consistent_state _ _ _ (entities t) (entity_indexes t) _ Hcons) as [Hc Hf].
  split; [exact Hc|]. change (entities t, entity_indexes t, processor_state t) with (core t) in Hf.
  rewrite Hfold in Hf. f_equal. symmetry. exact Hf.
Qed.

Lemma restore_entity_metadata_core coverage through t images t' :
  restore_entity_metadata coverage through t images = Ok t' → core t' = core t.
Proof.
  unfold restore_entity_metadata. revert t; induction images as [|im images IH]; intros t; cbn; [by intros [= <-]|].
  intros (t1 & H1 & H2)%result_bind_Ok. rewrite (IH t1) by done. revert H1. unfold restore_image. intros ?. by invert_ok.
Qed.

Section reorg.
Context `{!Wire} `{!WireLaws} (env : Env) (p : Processor).
Let d := processor_descriptor p.
Let retain := retains_processor_output d.

(** ** One block and its undo *)

(** What a journal row takes the rows back to. *)
Definition takes_back (after : Core) (row : JournalRow) (before : Core) : Prop :=
  ∀ u m, decode_undo (encoded_undo row) = Ok (u, m) →
    fold_left (core_step true retain) (rev (undo_mutations u)) after = before.

Lemma committed_core instance cursor delta sinks publish stream q l0 l l' out :
  prepared_ok p instance cursor delta publish stream l0 q → lane_tables l0 = lane_tables l →
  committed env d instance cursor delta sinks publish stream q l l' out →
  (output_mode (lifecycle_output (lifecycle d)) ≠ OutputWindowed →
   direct_block p (core (lane_tables l)) (cursor, delta) = Ok (core (lane_tables l'))) ∧
  (∀ row, lane_journal l !! block_key cursor = None → lane_journal l' !! block_key cursor = Some row →
   takes_back (core (lane_tables l')) row (core (lane_tables l))).
Proof.
  intros Hprepared Htables Hcommitted.
  pose proof (batch_reduced _ _ _ _ _ _ _ _ Hprepared) as Hbatch. rewrite Htables in Hbatch.
  destruct (reduced_rows _ _ _ _ _ Hbatch) as [Hcons Hdirect]. fold d retain in Hcons, Hdirect.
  destruct Hcommitted as [(pruned & [(t & Ht & Hprune) Hj]) _ _ _].
  apply apply_fold_core in Ht. fold retain in Ht.
  apply pruned_core in Hprune. cbn zeta in Hprune. fold retain in Hprune.
  destruct Hprune as (Hcons2 & Hcore & Hnone).
  split.
  { intros Hmode. rewrite Hdirect. f_equal. rewrite Hcore, (Hnone Hmode). symmetry. exact Ht. }
  intros row Hnew Hrow u m Hdec.
  pose proof (undo_prepared _ _ _ _ _ _ _ _ Hprepared) as Hundo.
  destruct (bool_decide _); [rewrite Hundo in Hj; congruence|].
  destruct Hundo as (inverse & prior & Hu & _). rewrite Hu in Hj.
  destruct Hj as (ub & mb & Hub & Hmb & _ & Hj).
  rewrite Hj, lookup_insert_eq in Hrow. injection Hrow as <-. cbn [encoded_undo] in Hdec.
  rewrite (decode_undo_encoded _ _ _ _ Hub Hmb) in Hdec. injection Hdec as <- _. cbn [undo_mutations journaled].
  rewrite Hcore, Ht, <-fold_left_app. apply core_undo, consistent_app. split; [done|]. by rewrite <-Ht.
Qed.

Lemma undone_core chain number hash sinks l l' out row :
  undone env d chain number hash sinks l l' out → lane_journal l !! (number, hash) = Some row →
  ∀ before, takes_back (core (lane_tables l)) row before → core (lane_tables l') = before.
Proof.
  intros [_ (row' & u & m & t1 & through & _ & _ & Hrow & Hdec & Ht & Hrestore & _) _ _ _] Hl before Hback.
  assert (row' = row) as ->.
  { unfold undo_row in Hrow. rewrite Hl in Hrow. destruct (journal_finalized row); [done|]. by injection Hrow. }
  rewrite <-(Hback _ _ Hdec). apply apply_fold_core in Ht. fold retain in Ht, Hrestore.
  assert (core (lane_tables l') = core t1) as ->; [|done].
  destruct (if retain then m else None); [by eapply restore_entity_metadata_core|by rewrite Hrestore].
Qed.

(** ** Surviving blocks *)

Definition Block : Type := ProcessorCursor * EncodedDelta.

(** The blocks applied since the rows were [base], newest first. *)
Fixpoint survivors (base : Core) (blocks : list Block) (l : Lane) (c : Core) : Prop :=
  match blocks with
  | [] => c = base
  | block :: rest => ∃ before,
      (output_mode (lifecycle_output (lifecycle d)) ≠ OutputWindowed → direct_block p before block = Ok c) ∧
      (∀ row, lane_journal l !! block_key block.1 = Some row → takes_back c row before) ∧
      (∃ covered, lane_coverage l !! cursor_block_number block.1 = Some covered ∧
         covered_hash covered = cursor_block_hash block.1) ∧
      (Forall (λ other, cursor_block_number other.1 ≠ cursor_block_number block.1) rest) ∧
      survivors base rest l before
  end.

(** Journal rows may be marked or dropped, the hashes coverage holds stay. *)
Definition keeps_block (l l' : Lane) (k : Z * BlockHash) : Prop :=
  (∀ row', lane_journal l' !! k = Some row' → ∃ row, lane_journal l !! k = Some row ∧ encoded_undo row' = encoded_undo row) ∧
  (∀ c, lane_coverage l !! k.1 = Some c → ∃ c', lane_coverage l' !! k.1 = Some c' ∧ covered_hash c' = covered_hash c).

Lemma survivors_keep base blocks l l' c :
  Forall (λ block, keeps_block l l' (block_key block.1)) blocks → survivors base blocks l c → survivors base blocks l' c.
Proof.
  revert c; induction blocks as [|block rest IH]; intros c; [done|].
  intros [[Hj Hc] Hrest]%Forall_cons (before & Hdirect & Hback & (covered & Hcov & Hh) & Hne & Hs).
  exists before. split_and!; [done| | |done|by apply IH].
  - intros row (row' & Hrow' & Heq)%Hj u m. rewrite Heq. by apply (Hback row').
  - destruct (Hc _ Hcov) as (c' & Hc' & Hh'). exists c'. split; [exact Hc'|congruence].
Qed.

Lemma survivors_direct base blocks l c :
  output_mode (lifecycle_output (lifecycle d)) ≠ OutputWindowed →
  survivors base blocks l c → direct_rows p base (rev blocks) = Ok c.
Proof.
  intros Hmode. revert c; induction blocks as [|block rest IH]; intros c; cbn [survivors rev]; [by intros ->|].
  intros (before & Hdirect & _ & _ & _ & Hs). unfold direct_rows in *.
  rewrite fold_result_app, (IH _ Hs). cbn. by rewrite Hdirect.
Qed.

(** ** Reorganizations *)

(** One operation on a lane and the blocks it keeps track of: a block that is
    committed survives, the newest survivor can be undone, and whatever
    fails, repeats or raises a level changes no block. *)
Inductive reorg_step : Lane * list Block → Lane * list Block → Prop :=
  | reorg_apply cursor delta sinks publish stream origin l l' r blocks :
      apply_with_origin_to_stream env p cursor delta sinks publish stream origin l = (l', r) →
      reorg_step (l, blocks)
        (l', match r with Ok (BlockApplied _ _ _) => (cursor, delta) :: blocks | _ => blocks end)
  | reorg_undo cursor delta chain sinks rest l l' out :
      undo env d chain (cursor_block_number cursor) (cursor_block_hash cursor) sinks l = (l', Ok out) →
      reorg_step (l, (cursor, delta) :: rest) (l', rest)
  | reorg_undo_refused chain number hash sinks l l' e blocks :
      undo env d chain number hash sinks l = (l', Err e) → reorg_step (l, blocks) (l', blocks)
  | reorg_finalize through hash l l' r blocks :
      mark_finalized env d through hash l = (l', r) → reorg_step (l, blocks) (l', blocks)
  | reorg_attest through hash l l' r blocks :
      mark_attested env d through hash l = (l', r) → reorg_step (l, blocks) (l', blocks).

Definition tracked (base : Core) (s : Lane * list Block) : Prop :=
  ledger_ok s.1 ∧ survivors base s.2 s.1 (core (lane_tables s.1)).

Lemma same_blocks_keep l l' k : same_blocks l l' → keeps_block l l' k.
Proof.
  intros (Hc & _ & Hj). split; [intros row'|intros c]; rewrite ?Hc, ?Hj; [by exists row'|by exists c].
Qed.

Lemma tracked_same base blocks l l' :
  ledger_ok l' → core (lane_tables l') = core (lane_tables l) → (∀ k, keeps_block l l' k) →
  tracked base (l, blocks) → tracked base (l', blocks).
Proof.
  intros Hok Hcore Hkeep [_ Hs]. split; [done|]. cbn in *. rewrite Hcore.
  eapply survivors_keep; [|exact Hs]. by apply Forall_true.
Qed.

Lemma survivors_covered base blocks l c :
  survivors base blocks l c → Forall (λ block, ∃ covered, lane_coverage l !! cursor_block_number block.1 = Some covered ∧
    covered_hash covered = cursor_block_hash block.1) blocks.
Proof.
  revert c; induction blocks as [|block rest IH]; intros c; [done|].
  intros (before & _ & _ & Hcov & _ & Hs). constructor; [done|by eapply IH].
Qed.

Lemma tracked_apply base cursor delta sinks publish stream l l' r blocks :
  apply_result env p cursor delta sinks publish stream l l' r → tracked base (l, blocks) →
  tracked base (l', match r with Ok (BlockApplied _ _ _) => (cursor, delta) :: blocks | _ => blocks end).
Proof.
  intros Hrun [Hok Hs]. cbn in Hok, Hs.
  destruct (apply_ok _ _ _ _ _ _ _ _ _ _ Hok Hrun) as [Hok' _].
  destruct Hrun as [e Hreg|l1 row Hreg Hset _|l1 l2 instance origin artifact q out Hreg1 Hreg2 Hfresh _ _ Hvalid -> Hprep Hcom].
  - apply (tracked_same base blocks l); [done| |intros k; by apply same_blocks_keep, only_registry_blocks|done].
    unfold only_registry in Hreg. by rewrite Hreg.
  - apply (tracked_same base blocks l); [done| | |done].
    + unfold only_registry, only_settled in *. by rewrite Hset, Hreg.
    + intros k. apply same_blocks_keep. etrans; [by apply only_registry_blocks|by apply only_settled_blocks].
  - assert (only_registry l l2) as Hreg by by etrans. pose proof (only_registry_blocks _ _ Hreg) as Hsame.
    pose proof (same_blocks_ok _ _ Hsame Hok) as Hok2. apply prepare_Ok in Hprep.
    assert (lane_tables l1 = lane_tables l2 ∧ lane_tables l2 = lane_tables l) as [Ht1 Ht2].
    { unfold only_registry in *. rewrite Hreg2, Hreg1. done. }
    pose proof (fresh_registry _ _ _ Hreg Hfresh) as Hfresh2.
    destruct (committed_core _ _ _ _ _ _ _ _ _ _ _ Hprep Ht1 Hcom) as [Hdirect Hback]. rewrite Ht2 in Hdirect, Hback.
    destruct (committed_blocks _ _ _ _ _ _ _ _ _ _ _ _ Hok2 Hfresh2 Hprep Hvalid Hcom)
      as (Hnone & Hcov & _ & Hj & _).
    destruct Hsame as (Hcov2 & _ & Hj2). rewrite Hcov2 in Hnone, Hcov. rewrite Hj2 in Hj.
    destruct Hcom as [_ _ (_ & _ & first & last & _ & _ & _ & ->) _].
    apply survivors_covered in Hs as Hcovered.
    assert (Forall (λ block, cursor_block_number block.1 ≠ cursor_block_number cursor) blocks) as Hne.
    { eapply Forall_impl; [exact Hcovered|]. intros [c' delta'] (covered & Hc & _) Heq. cbn in *. rewrite Heq in Hc. congruence. }
    split; [done|]. cbn [fst snd survivors]. exists (core (lane_tables l)). split_and!; [done| | |done|].
    + intros row Hrow. apply Hback; [|done]. rewrite Hj2. apply eq_None_not_Some. intros [row0 Hrow0].
      apply (journal_covered _ Hok) in Hrow0 as (c & Hc & _). unfold block_key in Hc. congruence.
    + rewrite Hcov, lookup_insert_eq. by eexists.
    + eapply survivors_keep; [|exact Hs]. eapply Forall_impl; [exact Hne|]. intros [c' delta'] Hne'. cbn in *. split.
      * intros row' Hrow'. exists row'. split; [|done].
        assert (lane_journal l' !! block_key c' = lane_journal l !! block_key c') as <-; [|done].
        destruct (bool_decide _); [by rewrite Hj|]. destruct Hj as (_ & bytes & u & m & -> & _).
        rewrite lookup_insert_ne; [done|]. unfold block_key. congruence.
      * intros c Hc. exists c. split; [|done]. rewrite Hcov, lookup_insert_ne; [done|]. cbn. congruence.
Qed.

Lemma tracked_undo base cursor delta chain sinks rest l l' out :
  undo env d chain (cursor_block_number cursor) (cursor_block_hash cursor) sinks l = (l', Ok out) →
  tracked base (l, (cursor, delta) :: rest) → tracked base (l', rest).
Proof.
  intros Hrun%undo_Ok [Hok (before & _ & Hback & _ & Hne & Hs)]. cbn in Hok, Hback.
  destruct (undone_ok _ _ _ _ _ _ _ _ _ Hok Hrun) as [Hok' _]. split; [done|]. cbn [fst snd] in *.
  assert (∃ row, lane_journal l !! (block_key cursor) = Some row) as [row Hrow].
  { destruct Hrun as [_ (row & _ & _ & _ & _ & _ & _ & Hrow & _) _ _ _]. unfold undo_row in Hrow. fold (block_key cursor) in Hrow.
    destruct (lane_journal l !! _) as [row'|]; [by eexists|]. destruct (lane_coverage l !! _); [destruct (_ && _)|]; done. }
  rewrite (undone_core _ _ _ _ _ _ _ _ Hrun Hrow before) by by apply Hback.
  eapply survivors_keep; [|exact Hs]. eapply Forall_impl; [exact Hne|]. intros [c' delta'] Hn. cbn in *.
  destruct Hrun as [_ _ Hcov _ Hj]. split.
  - intros row'. rewrite Hj, lookup_delete_Some. intros [_ Hr]. by exists row'.
  - intros c Hc. exists c. split; [|done]. rewrite Hcov. destruct (covers_block _ _ _); [|done].
    rewrite lookup_delete_ne; [done|]. cbn. congruence.
Qed.

Lemma promoted_keep level through l l' k :
  lane_coverage l' = promote_coverage level through (lane_coverage l) →
  (∀ row', lane_journal l' !! k = Some row' → ∃ row, lane_journal l !! k = Some row ∧ encoded_undo row' = encoded_undo row) →
  keeps_block l l' k.
Proof.
  intros Hcov Hj. split; [done|]. intros c Hc. rewrite Hcov, lookup_promote_coverage, Hc. cbn. eexists. split; [done|].
  by destruct (due_coverage _ _ _).
Qed.

Lemma tracked_step base s s' : tracked base s → reorg_step s s' → tracked base s'.
Proof.
  intros Htracked Hstep.
  destruct Hstep as [cursor delta sinks publish stream origin l l' r blocks Hrun|cursor delta chain sinks rest l l' out Hrun
    |chain number hash sinks l l' e blocks Hrun|through hash l l' r blocks Hrun|through hash l l' r blocks Hrun].
  - apply apply_cases in Hrun; [|apply _]. by eapply tracked_apply.
  - by eapply tracked_undo.
  - by apply undo_error in Hrun as ->.
  - destruct r as [rows|e]; [|by apply mark_finalized_error in Hrun as ->].
    pose proof (mark_finalized_ok _ _ _ _ _ _ _ (proj1 Htracked) Hrun) as Hok'.
    apply mark_finalized_Ok in Hrun as (_ & Hcore & Hcov & _ & limit & Hj).
    eapply tracked_same; [done|done| |exact Htracked]. intros k. eapply promoted_keep; [exact Hcov|].
    intros row'. rewrite Hj, map_lookup_filter_Some, lookup_promote_journal, fmap_Some.
    intros [(row & Hrow & ->) _]. exists row. split; [done|]. by destruct (due_journal _ _).
  - destruct r as [rows|e]; [|by apply mark_attested_error in Hrun as ->].
    pose proof (mark_attested_ok _ _ _ _ _ _ _ (proj1 Htracked) Hrun) as Hok'.
    apply mark_attested_Ok in Hrun as (_ & Hcore & Hcov & _ & Hj).
    eapply tracked_same; [done|done| |exact Htracked]. intros k. eapply promoted_keep; [exact Hcov|].
    intros row'. rewrite Hj. by exists row'.
Qed.

(** C1: a reorganization leaves no trace in the rows. Take a consistent lane
    through any operations: applies that commit, repeat, conflict or fail,
    undos that are refused, undos of the newest block not yet undone,
    attested and finalized marks. Its entities, index entries and working
    state are then those the surviving blocks leave when they are run one
    after the other straight on the rows at the start; and when every block
    was undone they are the rows at the start, also where an output window
    pruned rows in between. *)
Theorem reorg_rows l l' blocks (Hok : ledger_ok l) (Hsteps : rtc reorg_step (l, []) (l', blocks)) :
  (output_mode (lifecycle_output (lifecycle d)) ≠ OutputWindowed →
   direct_rows p (core (lane_tables l)) (rev blocks) = Ok (core (lane_tables l'))) ∧
  (blocks = [] → core (lane_tables l') = core (lane_tables l)).
Proof.
  assert (tracked (core (lane_tables l)) (l', blocks)) as [_ Hs].
  { assert (tracked (core (lane_tables l)) (l, [])) as Hstart by done. revert Hstart. clear Hok.
    generalize (core (lane_tables l)) as base. remember (l, []) as s eqn:Hs. clear Hs.
    remember (l', blocks) as s' eqn:Hs'. intros base. clear Hs'.
    induction Hsteps as [s|s s1 s' Hstep _ IH]; intros Hs; [done|]. apply IH. by eapply tracked_step. }
  split; [intros Hmode; by apply (survivors_direct _ _ l')|]. by intros ->.
Qed.
End reorg.

(** ** On a concrete lane *)

(** Block 11 gives way to another block 11. *)
Definition reverted : Lane := (undo scenario_env sample_descriptor 1 11 (scenario_hash x0b) [] two_blocks).1.
Definition forked : Lane := scenario_apply 11 x0c x0a Unattested reverted.
Definition scenario_blocks (n : Z) (b parent : byte) : Block :=
  (scenario_cursor n b Unattested, scenario_delta n b parent).

Lemma scenario_reorg_step n b parent l blocks :
  reorg_step scenario_env scenario_processor (l, blocks) (scenario_apply n b parent Unattested l,
    match (apply scenario_env scenario_processor (scenario_cursor n b Unattested) (scenario_delta n b parent) [] l).2 with
    | Ok (BlockApplied _ _ _) => scenario_blocks n b parent :: blocks
    | _ => blocks
    end).
Proof. eapply reorg_apply. unfold scenario_apply, apply. apply surjective_pairing. Qed.

Lemma reorg_rows_witness :
  direct_rows scenario_processor (core (lane_tables empty_lane))
    [scenario_blocks 10 x0a x09; scenario_blocks 11 x0c x0a] = Ok (core (lane_tables forked)) ∧
  entities (lane_tables forked) !! MkEntityKey "c" [x01] = Some [x0c].
Proof.
  split; [|vm_compute; reflexivity].
  apply (reorg_rows scenario_env scenario_processor empty_lane forked
    [scenario_blocks 11 x0c x0a; scenario_blocks 10 x0a x09]).
  - apply empty_lane_ok.
  - eapply rtc_l; [apply (scenario_reorg_step 10 x0a x09)|].
    replace (match _ with Ok (BlockApplied _ _ _) => _ | _ => _ end) with [scenario_blocks 10 x0a x09]
      by (vm_compute; reflexivity).
    eapply rtc_l; [apply (scenario_reorg_step 11 x0b x0a)|].
    replace (match _ with Ok (BlockApplied _ _ _) => _ | _ => _ end)
      with [scenario_blocks 11 x0b x0a; scenario_blocks 10 x0a x09] by (vm_compute; reflexivity).
    eapply rtc_l.
    { apply (reorg_undo _ _ (scenario_cursor 11 x0b Unattested) _ 1 [] _ two_blocks reverted (MkUndoOutcome 1 None None)).
      vm_compute. reflexivity. }
    eapply rtc_l; [apply (scenario_reorg_step 11 x0c x0a)|].
    replace (match _ with Ok (BlockApplied _ _ _) => _ | _ => _ end)
      with [scenario_blocks 11 x0c x0a; scenario_blocks 10 x0a x09] by (vm_compute; reflexivity).
    apply rtc_refl.
  - vm_compute. discriminate.
Defined.
