(* ===== verification/Publication.v ===== *)
(** * What an apply publishes

    The delivery side of [apply_with_origin_to_stream]
    ([crates/store-sqlite/src/lib.rs]): which rows a block adds to the change
    log, in which order and at which level, and that a block is taken in
    once. *)
From Stdlib Require Import ZArith Lia Strings.Byte.
From stdpp Require Import gmap strings list list_numbers fin_maps sorting.
From S2P Require Import Prelude Bytes Chain Capability Provenance Frame Durable Descriptor Delta Rows Overlay Inverse Window Delivery Ranges Artifacts Checkpoints Capacity Registration Lane Apply Revert Codec Scenario Ledger.

Section publication.
Context `{!Wire} `{!WireLaws} (env : Env).

(** ** The registry an apply leaves alone *)

(** The feed: log, outbox, parked changes, and the streams there are. *)
Definition same_feed (s s' : Delivery) : Prop :=
  streams s ⊆ streams s' ∧
  change_log s' = change_log s ∧ last_rowid s' = last_rowid s ∧ sink_outbox s' = sink_outbox s ∧ parked s' = parked s.

#[export] Instance same_feed_preorder : PreOrder same_feed.
Proof. split; [done|]. intros s1 s2 s3 (? & ? & ? & ? & ?) (? & ? & ? & ? & ?). split_and!; [by etrans|congruence..]. Qed.

(** The instance's stored descriptor is the processor's own. *)
Definition registered_as (d : ProcessorDescriptor) (r : Registry) : Prop :=
  ∃ json, processor_instances r !! processor_instance d = Some json ∧ descriptor_parse json = Ok d.

Lemma insert_stream_feed id instance kind r :
  same_feed (registry_delivery r) (registry_delivery (insert_stream id instance kind r)).
Proof.
  split; [|done]. apply map_subseteq_spec. intros k st Hk. cbn. by rewrite lookup_insert_new, Hk.
Qed.

Lemma register_feed d r r' res :
  registered_as d r → register_processor (env_now env) d r = (r', res) →
  same_feed (registry_delivery r) (registry_delivery r').
Proof.
  intros (json & Hjson & Hparse). unfold register_processor, gets. 
  unfold mbind at 1, eff_bind at 1. cbn [id].
  unfold mbind at 1, eff_bind at 1, lift at 1.
  destruct (stored_registration d r) as [stored|e]; [|by intros [= <- _]].
  destruct (is_some_and stored _); [by intros [= <- _]|].
  unfold mbind at 1, eff_bind at 1, lift at 1.
  destruct (map_err JsonError (descriptor_json d)) as [json'|e]; [|by intros [= <- _]].
  unfold mbind at 1, eff_bind at 1, lift at 1.
  destruct (env_now env) as [at_ms|e]; [|by intros [= <- _]].
  unfold mbind at 1, eff_bind at 1, modify at 1.
  unfold mbind at 1, eff_bind at 1.
  set (r1 := insert_instance _ _ r).
  assert (∃ r2, (if bool_decide (delivery_mode (lifecycle_delivery (lifecycle d)) = DeliveryNone) then lift (Ok ())
    else modify (insert_stream (default_delivery_stream_id d) (processor_instance d) (default_delivery_stream_kind d)))
    r1 = (r2, Ok ()) ∧ same_feed (registry_delivery r) (registry_delivery r2) ∧
    processor_instances r2 = processor_instances r1) as (r2 & -> & Hfeed & Hinst).
  { destruct (bool_decide (_ = DeliveryNone)); eexists; (split; [reflexivity|]); [done|]. split; [|done].
    apply (insert_stream_feed _ _ _ r1). }
  unfold mbind at 1, eff_bind at 1, modify at 1. unfold mbind at 1, eff_bind at 1.
  unfold mbind at 1, eff_bind at 1, lift at 1. cbn [id insert_run_state with_admission processor_instances].
  rewrite Hinst. unfold r1 at 1. cbn [insert_instance processor_instances].
  rewrite lookup_insert_new, Hjson. cbn [ok_or].
  unfold mbind at 1, eff_bind at 1, lift at 1. unfold check_stored_identity. rewrite Hparse. cbn.
  rewrite bool_decide_eq_true_2 by done. by intros [= <- _].
Qed.

(** ** The feed of a committed block *)

(** The blocks the release before a block covers. *)
Definition released_before (d : ProcessorDescriptor) (cursor : ProcessorCursor) (publish : bool) (s : Delivery)
    : list Deferred :=
  if levels_below Unattested (PublicationPolicy.first_level (publication d))
     && bool_decide (delivery_ordering d = Canonical) && delivery_enabled d && publish
     && Finality.satisfies (cursor_finality cursor) (PublicationPolicy.first_level (publication d))
     && (1 <=? cursor_block_number cursor)
  then due_rows (processor_instance d) (cursor_block_number cursor - 1) s else [].

(** What a deferred block parks. *)
Definition parks (row : Deferred) (d : ProcessorDescriptor) (cursor : ProcessorCursor) (delta : EncodedDelta)
    (stream : string) (changes : list DomainChange) : Prop :=
  deferred_instance row = processor_instance d ∧ deferred_stream row = stream ∧
  deferred_number row = cursor_block_number cursor ∧ deferred_hash row = cursor_block_hash cursor ∧
  deferred_block row = delta_block delta ∧ deferred_changes row = changes.

Lemma write_changes_Ok d cursor delta sinks publish stream q l l' first last :
  parked_ok (lane_delivery l) → 0 ≤ cursor_block_number cursor ≤ i64_max → prepared_progress q = false →
  prepared_deferred q = delivery_of cursor publish d →
  write_changes env d (processor_instance d) cursor delta sinks publish stream q l = (l', Ok (first, last)) →
  if prepared_deferred q
  then change_log (lane_delivery l') = change_log (lane_delivery l) ∧
    ∃ row, parked (lane_delivery l') = parked (lane_delivery l) ++ [row] ∧
      parks row d cursor delta stream (changes (prepared_batch q)) ∧
      deferred_id row = next_deferred_id (lane_delivery l)
  else
    log_grows (lane_delivery l) (lane_delivery l')
      (announce_parked (cursor_finality cursor) (released_before d cursor publish (lane_delivery l)) ++
       announce stream (delta_block delta) (cursor_finality cursor) DirApply
         (if delivery_enabled d && publish then changes (prepared_batch q) else [])) ∧
    parked (lane_delivery l) ≡ₚ released_before d cursor publish (lane_delivery l) ++ parked (lane_delivery l').
Proof.
  intros Hparked Hnumber Hprogress Hdefer. unfold write_changes. intros Hrun.
  run_step Hrun l0 n H1. apply lift_Ok in H1 as [-> [-> _]%u64_i64_Ok].
  run_step Hrun l0 at_ms H1. apply lift_Ok in H1 as [-> _].
  run_step Hrun l1 u1 Hpark. run_step Hrun l2 b Hrelease. run_step Hrun l3 sequences Happend.
  destruct sequences as [f la]. rewrite Hprogress in Hrun. apply lift_Ok in Hrun as [-> [= <- <-]].
  destruct (prepared_deferred q) eqn:Hd.
  - (* nothing is released below the first level *)
    unfold delivery_of in Hdefer. symmetry in Hdefer. apply andb_true_iff in Hdefer as [[Hlevel Hen]%andb_true_iff ->].
    unfold when in Hpark. run_step Hpark l4 chain H1. apply lift_Ok in H1 as [-> _].
    run_step Hpark l4 bytes H1. apply lift_Ok in H1 as [-> _]. injection Hpark as <- _.
    unfold levels_below in Hlevel. apply negb_true_iff in Hlevel. rewrite Hlevel, andb_false_r in Hrelease.
    apply lift_Ok in Hrelease as [-> _]. rewrite Hen in Happend.
    apply on_delivery_Ok in Happend as (s & Hs & ->).
    apply append_changes_log in Hs as [(rows & Hlog & Hrows) Hp]. cbn in Hlog, Hp.
    apply fmap_nil_inv in Hrows as ->. rewrite app_nil_r in Hlog. cbn.
    split; [done|]. eexists. split; [exact Hp|]. split; [|done]. by split_and!.
  - unfold when in Hpark. apply lift_Ok in Hpark as [-> _].
    assert (∃ s2, lane_delivery l2 = s2 ∧
      log_grows (lane_delivery l) s2 (announce_parked (cursor_finality cursor) (released_before d cursor publish (lane_delivery l))) ∧
      parked (lane_delivery l) ≡ₚ released_before d cursor publish (lane_delivery l) ++ parked s2)
      as (s2 & Hs2 & Hlog2 & Hp2).
    { unfold released_before. destruct (_ && Finality.satisfies _ _) eqn:Hcond.
      - unfold checked_sub in Hrelease. destruct (Z.leb_spec 1 (cursor_block_number cursor)) as [H1|H1].
        + apply on_delivery_Ok in Hrelease as (s & Hs & ->).
          exists s. split; [done|]. apply release_deferred_perm in Hs as [Hf Hperm]; [|done|lia].
          by apply release_rows_log in Hf.
        + apply lift_Ok in Hrelease as [-> _].
          eexists. split; [done|]. by split; [apply log_grows_nil|].
      - apply lift_Ok in Hrelease as [-> _]. cbn [andb].
        eexists. split; [done|]. by split; [apply log_grows_nil|]. }
    destruct (delivery_enabled d) eqn:Hen.
    + apply on_delivery_Ok in Happend as (s & Hs & ->). rewrite Hs2 in Hs.
      apply append_changes_log in Hs as [Hlog Hp]. cbn [andb] in *. cbn [lane_delivery with_lane_delivery with_registry].
      split; [by eapply log_grows_app|]. cbn. rewrite Hp. done.
    + apply lift_Ok in Happend as [-> _]. cbn [andb announce fmap list_fmap]. rewrite Hs2, app_nil_r. done.
Qed.

Lemma prepare_delivery p instance cursor delta publish stream origin artifact :
  keeps (λ l l', lane_delivery l' = lane_delivery l)
    (prepare env p instance cursor delta publish stream origin artifact).
Proof.
  assert (PreOrder (λ l l', lane_delivery l' = lane_delivery l)) by (split; [done|intros ? ? ? -> ->; done]).
  unfold prepare. keeps_all; by apply keeps_zoom.
Qed.

(** What goes out before a block, and in which order. *)
Lemma released_before_order d cursor s :
  parked_ok s →
  StronglySorted goes_before (released_before d cursor true s) ∧
  ∀ row, row ∈ released_before d cursor true s →
    deferred_instance row = processor_instance d ∧ deferred_number row < cursor_block_number cursor.
Proof.
  intros Hok. unfold released_before. destruct (_ && _); [|split; [constructor|by intros ? ?%elem_of_nil]].
  destruct (due_rows_exact (processor_instance d) (cursor_block_number cursor - 1) s Hok) as (_ & _ & Hin & _ & Hsorted).
  split; [done|]. intros row [Hi Hn]%Hin. split; [done|lia].
Qed.

(** A block that is final enough leaves no older block of a canonical
    processor parked. *)
Lemma released_before_all d cursor s rest row :
  parked_ok s → (∀ row, row ∈ parked s → 0 ≤ deferred_number row) → delivery_enabled d = true →
  Finality.satisfies (cursor_finality cursor) (PublicationPolicy.first_level (publication d)) = true →
  PublicationPolicy.first_level (publication d) ≠ Unattested → delivery_ordering d = Canonical →
  deferred_instance row = processor_instance d →
  parked s ≡ₚ released_before d cursor true s ++ rest → row ∈ rest → cursor_block_number cursor ≤ deferred_number row.
Proof.
  intros Hok Hheights Hdelivery Hsat Hfirst Hcanonical Hinst Hperm Hrow.
  assert (row ∈ parked s) as Hin by (rewrite Hperm; apply elem_of_app; by right).
  assert (levels_below Unattested (PublicationPolicy.first_level (publication d)) = true) as Hl
    by by destruct (PublicationPolicy.first_level _).
  assert (NoDup (released_before d cursor true s ++ rest)) as (_ & Hdisjoint & _)%NoDup_app
    by (rewrite <-Hperm; by eapply NoDup_fmap_1).
  destruct (Z.le_gt_cases (cursor_block_number cursor) (deferred_number row)) as [|Hlt]; [done|]. exfalso.
  apply (Hdisjoint row); [|done]. unfold released_before.
  rewrite Hl, (bool_decide_eq_true_2 _ Hcanonical), Hdelivery, Hsat. cbn [andb].
  specialize (Hheights row Hin). rewrite (proj2 (Z.leb_le _ _)) by lia.
  apply elem_of_due_rows. split; [done|]. unfold due. rewrite bool_decide_eq_true_2 by done. cbn. apply Z.leb_le. lia.
Qed.

(** C16: what one block publishes, and in which order. Applying a block that
    is not yet final enough for its processor parks its changes, whole, and
    publishes nothing. Otherwise its changes are published once each and in
    order, at the block's own level. Under canonical ordering with a level
    above the lowest, every block of the processor that was parked below it
    goes out before it, in block order, whole and once, and only what goes
    out is taken off the parked blocks, so that no older block is lost or
    can follow it; without, no parked block goes out. *)
Theorem publishes_in_order p cursor delta sinks stream origin l l' c first last st
    (Hparked : parked_ok (lane_delivery l)) (Hnumber : 0 ≤ cursor_block_number cursor)
    (Hheights : ∀ row, row ∈ parked (lane_delivery l) → 0 ≤ deferred_number row)
    (Hregistered : registered_as (processor_descriptor p) (lane_registry l))
    (Hstream : streams (lane_delivery l) !! stream = Some st) (Hkind : is_backfill st = false)
    (Hdelivery : delivery_enabled (processor_descriptor p) = true)
    (Happly : apply_with_origin_to_stream env p cursor delta sinks true stream origin l
       = (l', Ok (BlockApplied c first last))) :
  let d := processor_descriptor p in
  let level := PublicationPolicy.first_level (publication d) in
  ∃ batch, reduce_block (lane_tables l) (processor_reduce p cursor delta) = Ok batch ∧
  if levels_below (cursor_finality cursor) level
  then change_log (lane_delivery l') = change_log (lane_delivery l) ∧
    ∃ row, parked (lane_delivery l') = parked (lane_delivery l) ++ [row] ∧
      parks row d cursor delta stream (changes batch)
  else ∃ held,
    log_grows (lane_delivery l) (lane_delivery l')
      (announce_parked (cursor_finality cursor) held ++
       announce stream (delta_block delta) (cursor_finality cursor) DirApply (changes batch)) ∧
    parked (lane_delivery l) ≡ₚ held ++ parked (lane_delivery l') ∧
    StronglySorted goes_before held ∧
    (∀ row, row ∈ held → deferred_instance row = processor_instance d ∧
       deferred_number row < cursor_block_number cursor) ∧
    (if decide (level ≠ Unattested ∧ delivery_ordering d = Canonical)
     then ∀ row, row ∈ parked (lane_delivery l') → deferred_instance row = processor_instance d →
       cursor_block_number cursor ≤ deferred_number row
     else held = []).
Proof.
  cbn zeta. set (d := processor_descriptor p) in *. apply apply_cases in Happly; [|apply _].
  remember (Ok (BlockApplied c first last)) as r eqn:Hr.
  destruct Happly as [e Hreg|l1 row Hreg Hset _|l1 l2 instance origin' artifact q out Hreg1 Hreg2 Hfresh Hregister _ Hvalid -> Hprep Hcom];
    [done|done|]. injection Hr as ->. fold d in Hregister, Hprep, Hcom.
  pose proof (register_feed _ _ _ _ Hregistered Hregister) as (Hst & Hlog & _ & _ & Hpark).
  pose proof (prepare_delivery _ _ _ _ _ _ _ _ _ _ _ Hprep) as Hdel.
  apply prepare_Ok in Hprep. destruct Hprep as [Hbatch Hdefer _ _ _ Hprogress]. fold d in Hdefer, Hprogress.
  exists (prepared_batch q). split; [unfold only_registry in Hreg1; by rewrite Hreg1 in Hbatch|].
  assert (prepared_progress q = false) as Hnoprogress.
  { rewrite Hdelivery in Hprogress. unfold delivery_stream_is_backfill in Hprogress.
    unfold lane_delivery at 1 in Hprogress. rewrite (lookup_weaken _ _ _ _ Hstream Hst) in Hprogress.
    cbn in Hprogress. injection Hprogress as <-. done. }
  destruct Hcom as [_ Hcov (l3 & l4 & f & la & H3 & Hwrite & H4 & _) _].
  assert (change_log (lane_delivery l3) = change_log (lane_delivery l) ∧
    parked (lane_delivery l3) = parked (lane_delivery l)) as [Hlog3 Hpark3].
  { unfold lane_delivery at 1 3. rewrite H3. fold (lane_delivery l2). rewrite Hdel. done. }
  assert (lane_delivery l' = lane_delivery l4) as Hdel4 by (unfold lane_delivery; by rewrite H4).
  assert (released_before d cursor true (lane_delivery l3) = released_before d cursor true (lane_delivery l)) as Hrel3
    by (unfold released_before, due_rows; by rewrite Hpark3).
  apply write_changes_Ok in Hwrite; [|by unfold parked_ok; rewrite Hpark3|split; [done|apply Hcov]|done|done].
  rewrite Hdefer in Hwrite. unfold delivery_of in Hwrite. rewrite Hdelivery, !andb_true_r in Hwrite.
  rewrite Hdel4. destruct (levels_below _ _) eqn:Hlevel.
  - rewrite Hlog3, Hpark3 in Hwrite. destruct Hwrite as (Hw & row & Hrow & Hp & _). split; [done|]. by exists row.
  - rewrite Hrel3, Hpark3 in Hwrite. destruct Hwrite as [(rows & Hrows & Hann) Hperm].
    exists (released_before d cursor true (lane_delivery l)).
    destruct (released_before_order d cursor (lane_delivery l) Hparked) as [Hsorted Hheld].
    split; [exists rows; rewrite Hrows, Hlog3; done|]. split; [exact Hperm|]. split; [done|]. split; [done|].
    unfold levels_below in Hlevel. apply negb_false_iff in Hlevel.
    case_decide as Hcanonical.
    + destruct Hcanonical as [Hfirst Hcanonical]. intros row Hrow Hinst.
      eapply released_before_all; [done..|exact Hperm|exact Hrow].
    + unfold released_before. destruct (levels_below Unattested _) eqn:Hbelow; [|done].
      rewrite bool_decide_eq_false_2; [done|]. intros Hc. apply Hcanonical. split; [|done].
      intros Hf. by rewrite Hf in Hbelow.
Qed.

(** ** A block is taken in once *)

(** Take a run past a check. *)
Ltac run_check H Heq :=
  unfold mbind at 1, eff_bind at 1, lift at 1 in H;
  match type of H with match ?c with _ => _ end = _ => destruct c eqn:Heq end.

(** What applying a block again can touch: its pending delta, its artifact
    and registration rows, but nothing consumers see. *)
Definition untouched (l l' : Lane) : Prop :=
  only_settled l l' ∧ same_feed (lane_delivery l) (lane_delivery l').

#[local] Instance untouched_preorder : PreOrder untouched.
Proof.
  split; [intros []; by split|]. intros l1 l2 l3 [H12 F12] [H23 F23]. split; [|by etrans].
  unfold only_settled in *. rewrite H23, H12. done.
Qed.

Lemma settle_applied_untouched d instance cursor delta artifact :
  keeps untouched (settle_applied env d instance cursor delta artifact).
Proof. unfold settle_applied. keeps_all; first [by apply keeps_zoom|by apply keeps_modify]. Qed.

Lemma apply_known p cursor delta sinks publish stream origin l l' r row :
  registered_as (processor_descriptor p) (lane_registry l) → lane_applied l !! block_key cursor = Some row →
  apply_with_origin_to_stream env p cursor delta sinks publish stream origin l = (l', r) → untouched l l'.
Proof.
  intros Hregistered Hrow Hrun. unfold apply_with_origin_to_stream in Hrun.
  do 3 (run_check Hrun Hchecked; [|by injection Hrun as <- _]; clear Hchecked).
  unfold mbind at 1, eff_bind at 1, zoom at 1 in Hrun.
  destruct (register_processor _ _ _) as [r1 res] eqn:Hregister.
  pose proof (register_feed _ _ _ _ Hregistered Hregister) as Hfeed.
  assert (untouched l (with_registry l r1)) as Huntouched by by split.
  destruct res as [instance|e]; [|by injection Hrun as <- _]. etrans; [exact Huntouched|]. clear Hregister Huntouched.
  assert (lane_applied (with_registry l r1) !! block_key cursor = Some row) as Hrow1 by done.
  revert Hrow1 Hrun. generalize (with_registry l r1) as l1. intros l1 Hrow1 Hrun. clear -Hrow1 Hrun H0.
  unfold mbind at 1, eff_bind at 1, gets at 1 in Hrun. cbn [id] in Hrun.
  run_check Hrun Hstream; [|by injection Hrun as <- _]. run_check Hrun Hn; [|by injection Hrun as <- _].
  apply u64_i64_Ok in Hn as [-> _]. fold (block_key cursor) in Hrun. rewrite Hrow1 in Hrun. cbn [is_some_and] in Hrun.
  destruct (bool_decide _); [by injection Hrun as <- _|].
  unfold mbind at 1, eff_bind at 1, lift at 1 in Hrun. by eapply settle_applied_untouched.
Qed.

(** C18: exactly once. While a block counts as applied, applying it again can
    never commit it: whatever the outcome, rows, cursor, coverage, applied
    blocks, undo journal and checkpoints stay as they are and nothing is
    published, parked or released. It is answered as applied already only
    with the delta that was applied; and on a current registration without
    artifacts it always is, while another delta for the block is refused
    with nothing changed at all. *)
Theorem applied_once p cursor delta sinks publish stream origin l l' r row
    (Hregistered : registered_as (processor_descriptor p) (lane_registry l))
    (Hrow : lane_applied l !! block_key cursor = Some row)
    (Happly : apply_with_origin_to_stream env p cursor delta sinks publish stream origin l = (l', r)) :
  let d := processor_descriptor p in
  untouched l l' ∧
  match r with
  | Ok (BlockApplied _ _ _) => False
  | Ok AlreadyApplied => delta_checksum_of row = delta_checksum delta
  | Err _ => True
  end ∧
  (EncodedDelta.validate delta d = Ok () → validate_cursor cursor d delta = Ok () →
   artifact_mode (lifecycle_artifacts (lifecycle d)) = ArtifactNone →
   register_processor (env_now env) d (lane_registry l) = (lane_registry l, Ok (processor_instance d)) →
   validate_delivery_stream (processor_instance d) stream (lane_delivery l) = Ok () → cursor_block_number cursor ≤ i64_max →
   (l', r) = if bool_decide (delta_checksum_of row = delta_checksum delta)
             then (with_pending l (delete (block_key cursor) (lane_pending l)), Ok AlreadyApplied)
             else (l, Err (ConflictingApply (cursor_block_number cursor)))).
Proof.
  cbn zeta. split_and!.
  - by eapply apply_known.
  - apply apply_cases in Happly; [|apply _].
    destruct Happly as [e _|l1 row' _ _ [[Hrow' Heq]|[Hnone _]]|l1 l2 i o a q out _ _ [_ Hnone _ _] _ _ _ _ _ _]; [done|congruence..].
  - intros Hvalid Hcursor Hartifact Hregister Hstream Hn. rewrite <-Happly.
    unfold apply_with_origin_to_stream. rewrite Hvalid, Hcursor, Hartifact.
    unfold mbind, eff_bind, lift, gets, zoom. cbn [map_err bool_decide id]. rewrite bool_decide_eq_true_2 by done.
    rewrite Hregister. replace (with_registry l (lane_registry l)) with l by by destruct l.
    rewrite Hstream. replace (if delivery_enabled _ then Ok () else Ok ()) with (@Ok StoreError () ()) by by destruct (delivery_enabled _).
    rewrite u64_i64_fits by done. fold (block_key cursor). rewrite Hrow. cbn [is_some_and].
    destruct (decide (delta_checksum_of row = delta_checksum delta)) as [Hsame|Hsame].
    + rewrite (bool_decide_eq_true_2 (delta_checksum_of row = _)) by done.
      rewrite bool_decide_eq_false_2 by (intros Hne; by apply Hne).
      unfold settle_applied, atomic, mbind, eff_bind, lift, modify. by rewrite u64_i64_fits.
    + rewrite (bool_decide_eq_false_2 (delta_checksum_of row = _)) by done. by rewrite bool_decide_eq_true_2.
Qed.
End publication.

(** ** On a concrete lane *)

(** A finalized block 11 on the lane where block 10 waits to be attested. *)
Definition released : Lane * result StoreError ApplyOutcome :=
  apply scenario_env scenario_processor (scenario_cursor 11 x0b Finalized) (scenario_delta 11 x0b x0a) [] one_block.

Definition scenario_change (b : byte) : DomainChange := MkChange "e" [x01] Upsert [b].

Lemma publishes_in_order_witness :
  announcement <$> change_log (lane_delivery released.1) =
    [("erc20:canonical"%string, scenario_block 10 x0a x09, Finalized, DirApply, scenario_change x0a);
     ("erc20:canonical"%string, scenario_block 11 x0b x0a, Finalized, DirApply, scenario_change x0b)] ∧
  ∃ batch held, log_grows (lane_delivery one_block) (lane_delivery released.1)
      (announce_parked Finalized held ++
       announce "erc20:canonical" (scenario_block 11 x0b x0a) Finalized DirApply (changes batch)) ∧
    parked (lane_delivery one_block) ≡ₚ held ++ parked (lane_delivery released.1).
Proof.
  split; [vm_compute; reflexivity|].
  destruct (publishes_in_order scenario_env scenario_processor (scenario_cursor 11 x0b Finalized)
    (scenario_delta 11 x0b x0a) [] "erc20:canonical" None one_block released.1 (scenario_cursor 11 x0b Finalized)
    (Some 2) (Some 2) (MkStream "erc20" StreamCanonical 1 0 0))
    as (batch & _ & held & Hlog & Hperm & _).
  - vm_compute. repeat constructor. by intros ?%elem_of_nil.
  - done.
  - intros row Hrow. revert row Hrow. apply list.Forall_forall. vm_compute. repeat constructor; discriminate.
  - eexists. split; vm_compute; reflexivity.
  - vm_compute. reflexivity.
  - reflexivity.
  - reflexivity.
  - refine (eq_trans (surjective_pairing _) (f_equal2 pair eq_refl _)). vm_compute. reflexivity.
  - by exists batch, held.
Defined.

(** Another delta for the block that was applied. *)
Definition other_delta : EncodedDelta :=
  EncodedDelta.new sample_descriptor 1 (scenario_block 10 x0a x09) [x0f].
Definition applied_row : Applied := MkApplied (delta_checksum (scenario_delta 10 x0a x09)) 1000.

Lemma with_pending_same l : with_pending l (lane_pending l) = l.
Proof. by destruct l. Qed.

Lemma applied_once_witness :
  apply scenario_env scenario_processor (scenario_cursor 10 x0a Unattested) (scenario_delta 10 x0a x09) [] one_block
    = (one_block, Ok AlreadyApplied) ∧
  apply scenario_env scenario_processor (scenario_cursor 10 x0a Unattested) other_delta [] one_block
    = (one_block, Err (ConflictingApply 10)).
Proof.
  assert (registered_as sample_descriptor (lane_registry one_block)) as Hregistered
    by (eexists; split; vm_compute; reflexivity).
  assert (lane_applied one_block !! block_key (scenario_cursor 10 x0a Unattested) = Some applied_row) as Hrow
    by (vm_compute; reflexivity).
  assert (register_processor (env_now scenario_env) sample_descriptor (lane_registry one_block)
    = (lane_registry one_block, Ok (processor_instance sample_descriptor))) as Hregister by (vm_compute; reflexivity).
  split.
  - destruct (applied_once scenario_env scenario_processor _ (scenario_delta 10 x0a x09) [] true
      "erc20:canonical" None one_block _ _ _ Hregistered Hrow (surjective_pairing _)) as (_ & _ & Hexact).
    refine (eq_trans (surjective_pairing _) (eq_trans (Hexact _ _ _ Hregister _ _) _));
      [vm_compute; reflexivity..|vm_compute; discriminate|].
    replace (delete _ _) with (lane_pending one_block) by (vm_compute; reflexivity).
    by rewrite with_pending_same.
  - destruct (applied_once scenario_env scenario_processor _ other_delta [] true
      "erc20:canonical" None one_block _ _ _ Hregistered Hrow (surjective_pairing _)) as (_ & _ & Hexact).
    refine (eq_trans (surjective_pairing _) (eq_trans (Hexact _ _ _ Hregister _ _) _));
      [vm_compute; reflexivity..|vm_compute; discriminate|].
    reflexivity.
Defined.
