(* ===== verification/Requests.v ===== *)
(** * What the runtime asks of a source

    Models the requests of [crates/runtime/src/lib.rs]: the request of a live
    lane and of a historical job from the requirements of their processors,
    the filter scope pushed down for all of them, and the block ranges of a
    stored job. *)
From Stdlib Require Import ZArith Lia Strings.Byte.
From stdpp Require Import gmap strings list list_numbers fin_maps sorting pretty.
From S2P Require Import Prelude Bytes Chain Capability Material Provenance Frame SourceContract Planner Durable Descriptor Delta Rows Ranges.

(** The errors these functions return. *)
Inductive RuntimeError := InvalidRuntimeConfig (detail : string).

#[export] Instance RuntimeError_eq_dec : EqDecision RuntimeError.
Proof. solve_decision. Defined.

(** [leani_source_api::LiveStart]. *)
Inductive LiveStart :=
  | StartHead
  | StartBlock (block : BlockRef)
  | StartOverlap (anchor : BlockRef) (overlap_blocks : Z)
  | StartRetained (canonical : list BlockRef)
  | StartCursor (cursor : SourceCursor).

(** ** The scope pushed down *)

Section values.
Context `{EqDecision A}.

Definition extend_unique (retained incoming : list A) : list A :=
  fold_left (λ retained value, if list_contains retained value then retained else retained ++ [value]) incoming retained.

Definition union_values (retained incoming : list A) : list A :=
  if bool_decide (incoming = []) then []
  else if bool_decide (retained = []) then retained
  else extend_unique retained incoming.

Lemma elem_of_extend_unique retained incoming v :
  v ∈ extend_unique retained incoming ↔ v ∈ retained ∨ v ∈ incoming.
Proof.
  unfold extend_unique. revert retained. induction incoming as [|x incoming IH]; intros retained; cbn [fold_left].
  { rewrite elem_of_nil. tauto. }
  rewrite IH, elem_of_cons. destruct (list_contains retained x) eqn:Hx.
  - apply list_contains_spec in Hx. naive_solver.
  - rewrite elem_of_app, list_elem_of_singleton. tauto.
Qed.
End values.

(** A topic's alternatives with those of the incoming topics at its position. *)
Definition union_topic (incoming : list TopicFilter) (topic : TopicFilter) : TopicFilter :=
  MkTopicFilter (position topic)
    (fold_left (λ values other, extend_unique values (alternatives other))
       (List.filter (λ other, position other =? position topic) incoming) (alternatives topic)).

Definition union_topics (retained incoming : list TopicFilter) : list TopicFilter :=
  union_topic incoming <$> List.filter (λ topic, existsb (λ other, position other =? position topic) incoming) retained.

Definition union_range (retained incoming : option BlockRange) : option BlockRange :=
  match retained, incoming with
  | Some r, Some i =>
      match BlockRange.new (Z.min (range_start r) (range_start i)) (Z.max (range_end r) (range_end i)) with
      | Ok hull => Some hull
      | Err _ => None
      end
  | _, _ => None
  end.

Definition union_filter_scope (retained incoming : FilterScope) : FilterScope :=
  MkFilterScope (union_range (block_range retained) (block_range incoming))
    (union_values (addresses retained) (addresses incoming))
    (union_topics (topics retained) (topics incoming))
    (union_values (transaction_hashes retained) (transaction_hashes incoming))
    (union_values (transaction_types retained) (transaction_types incoming))
    (union_values (senders retained) (senders incoming))
    (union_values (recipients retained) (recipients incoming)).

Definition covering_filter_scope (filters : list FilterScope) : FilterScope :=
  match filters with
  | [] => scope_default
  | first :: rest => fold_left union_filter_scope rest first
  end.

(** ** Requests *)

Definition projection_default : FieldProjection := MkFieldProjection [] [] [] [].
Definition filters_default : FilterSet := MkFilterSet scope_default [] [].

(** The request for all of the requirements, as both callers spell it out. *)
Definition requirements_request (requirements : list DataRequirement) (chain_id : ChainId) (range : BlockRange)
    (policy : VerificationPolicy) : DataRequest :=
  let required := fold_left (λ all r, CapabilitySet.union all (capabilities r)) requirements CapabilitySet.NONE in
  let log_fields := fold_left (λ all r, LogFieldSet.union all (log_fields r)) requirements LogFieldSet.NONE in
  let minimum_finality := fold_left (λ all r, Finality.max all (minimum_finality r)) requirements Unattested in
  let allow := forallb allow_filtered requirements in
  let filters :=
    if allow then
      let scope := covering_filter_scope (filter <$> requirements) in
      MkFilterSet scope (senders scope) (recipients scope)
    else filters_default in
  MkDataRequest chain_id range required log_fields allow projection_default filters minimum_finality policy.

Definition range_of (start end_ : BlockNumber) : result RuntimeError BlockRange :=
  map_err (InvalidRuntimeConfig ∘ range_error_text) (BlockRange.new start end_).

(** The processors enter through their descriptors. *)
Definition compile_live_request (processors : list ProcessorDescriptor) (chain_id : ChainId) (start : LiveStart)
    : result RuntimeError DataRequest :=
  range ← match start with
    | StartHead => Ok (BlockRange.single 0)
    | StartBlock block => Ok (BlockRange.single (ref_number block))
    | StartOverlap anchor overlap_blocks =>
        range_of (sat_sub (ref_number anchor) (sat_sub overlap_blocks 1)) (ref_number anchor)
    | StartRetained canonical =>
        match head canonical, last canonical with
        | Some first, Some last => range_of (ref_number first) (ref_number last)
        | _, _ => Err (InvalidRuntimeConfig "retained live start requires a non-empty canonical suffix")
        end
    | StartCursor cursor => Ok (BlockRange.single (source_block_number cursor))
    end;
  let requirements := processors ≫= requirements in
  if bool_decide (requirements = [])
  then Err (InvalidRuntimeConfig "live processors require at least one data requirement")
  else Ok (requirements_request requirements chain_id range CompleteCryptographic).

(** ** Historical jobs *)

Inductive HistoricalJobOwner := Materialization | SubscriptionJob.
Inductive BackfillMode := FillMissing | Recompute.

#[export] Instance HistoricalJobOwner_eq_dec : EqDecision HistoricalJobOwner.
Proof. solve_decision. Defined.
#[export] Instance BackfillMode_eq_dec : EqDecision BackfillMode.
Proof. solve_decision. Defined.
#[export] Instance FieldProjection_eq_dec : EqDecision FieldProjection.
Proof. solve_decision. Defined.
#[export] Instance FilterSet_eq_dec : EqDecision FilterSet.
Proof. solve_decision. Defined.
#[export] Instance VerificationPolicy_eq_dec : EqDecision VerificationPolicy.
Proof. solve_decision. Defined.
#[export] Instance DataRequest_eq_dec : EqDecision DataRequest.
Proof. solve_decision. Defined.

Record BackfillJob := MkBackfillJob {
  job_id : string;
  job_owner : HistoricalJobOwner;
  job_processor_instance : string;
  job_mode : BackfillMode;
  job_delivery_stream_id : option string;
  job_ranges : list BlockRange;
  job_request : DataRequest;
  job_sink_ids : list string;
}.

#[export] Instance BackfillJob_eq_dec : EqDecision BackfillJob.
Proof. solve_decision. Defined.

Definition job_kind (owner : HistoricalJobOwner) : string :=
  match owner with Materialization => "materialization_job" | SubscriptionJob => "backfill_subscription_job" end.

(** One iteration of the merging loop. *)
Definition normalize_backfill_step (normalized : list BlockRange) (range : BlockRange)
    : result RuntimeError (list BlockRange) :=
  match last normalized with
  | Some previous =>
      if range_start range <=? sat_add (range_end previous) 1
      then
        merged ← range_of (range_start previous) (Z.max (range_end previous) (range_end range));
        Ok (removelast normalized ++ [merged])
      else Ok (normalized ++ [range])
  | None => Ok (normalized ++ [range])
  end.

Definition normalize_backfill_ranges (ranges : list BlockRange) : result RuntimeError (list BlockRange) :=
  if bool_decide (ranges = []) then Err (InvalidRuntimeConfig "backfill range set must not be empty")
  else fold_result normalize_backfill_step [] (sort_by (cmp_leb range_cmp) ranges).

(** The first range's start and the last one's end. *)
Definition bounding (empty : string) (ranges : list BlockRange) : result RuntimeError BlockRange :=
  match head ranges, last ranges with
  | Some first, Some last => range_of (range_start first) (range_end last)
  | _, _ => Err (InvalidRuntimeConfig empty)
  end.

Definition for_processor_ranges (id : string) (processor : ProcessorDescriptor) (chain_id : ChainId)
    (ranges : list BlockRange) (policy : VerificationPolicy) : result RuntimeError BackfillJob :=
  ranges ← normalize_backfill_ranges ranges;
  bounding_range ← bounding "backfill range set must not be empty" ranges;
  if bool_decide (requirements processor = [])
  then Err (InvalidRuntimeConfig "processor has no data requirements")
  else
    Ok (MkBackfillJob id Materialization (instance_id (descriptor_instance processor)) FillMissing None ranges
          (requirements_request (requirements processor) chain_id bounding_range policy) []).

Definition for_processor (id : string) (processor : ProcessorDescriptor) (chain_id : ChainId) (range : BlockRange)
    (policy : VerificationPolicy) : result RuntimeError BackfillJob :=
  for_processor_ranges id processor chain_id [range] policy.

Definition requested_ranges (job : BackfillJob) : result RuntimeError (list BlockRange) :=
  normalized ← normalize_backfill_ranges (job_ranges job);
  if negb (bool_decide (normalized = job_ranges job))
  then Err (InvalidRuntimeConfig "durable backfill ranges are not normalized")
  else
    range ← bounding "durable backfill range set must not be empty" normalized;
    if negb (bool_decide (range = request_range (job_request job)))
    then Err (InvalidRuntimeConfig "durable backfill bounding range does not match its range set")
    else Ok normalized.

Definition with_required (request : DataRequest) (caps : CapabilitySet) : DataRequest :=
  MkDataRequest (request_chain_id request) (request_range request) caps (request_log_fields request)
    (request_allow_filtered request) (request_projection request) (filters request)
    (request_minimum_finality request) (verification_policy request).

Definition narrows_job (stored job : BackfillJob) : bool :=
  let normalized :=
    MkBackfillJob (job_id stored) (job_owner stored) (job_processor_instance stored) (job_mode stored)
      (job_delivery_stream_id stored) (job_ranges stored)
      (with_required (job_request stored) (required (job_request job))) (job_sink_ids stored) in
  CapabilitySet.contains_all (CapabilitySet.with_derivable (required (job_request stored))) (required (job_request job))
  && bool_decide (normalized = job).

(** ** The pushed scope covers every filter *)

Lemma union_values_covers {A} `{Countable A} (retained incoming : list A) :
  list_covers (union_values retained incoming) retained = true
  ∧ list_covers (union_values retained incoming) incoming = true.
Proof.
  rewrite !list_covers_spec. unfold union_values.
  case_bool_decide; [naive_solver|]. case_bool_decide; [naive_solver|].
  setoid_rewrite elem_of_extend_unique. naive_solver.
Qed.

Lemma elem_of_union_topic incoming topic v :
  v ∈ alternatives (union_topic incoming topic) ↔
  v ∈ alternatives topic ∨ ∃ other, other ∈ incoming ∧ position other = position topic ∧ v ∈ alternatives other.
Proof.
  unfold union_topic. cbn [alternatives].
  assert (∀ others values, v ∈ fold_left (λ values other, extend_unique values (alternatives other)) others values
    ↔ v ∈ values ∨ ∃ other, other ∈ others ∧ v ∈ alternatives other) as ->.
  { intros others. induction others as [|o others IH]; intros values; cbn [fold_left]; [set_solver|].
    rewrite IH, elem_of_extend_unique. set_solver. }
  setoid_rewrite elem_of_filter_list. setoid_rewrite Z.eqb_eq. naive_solver.
Qed.

Lemma elem_of_union_topics retained incoming topic :
  topic ∈ union_topics retained incoming →
  ∃ old other, topic = union_topic incoming old ∧ old ∈ retained ∧ other ∈ incoming ∧ position other = position old.
Proof.
  intros (old & -> & (Hold & (other & Ho & Hp%Z.eqb_eq)%existsb_spec)%elem_of_filter_list)%list_elem_of_fmap. eauto 6.
Qed.

Lemma union_topics_covers retained incoming :
  topics_cover (union_topics retained incoming) retained = true
  ∧ topics_cover (union_topics retained incoming) incoming = true.
Proof.
  rewrite !topics_cover_spec.
  split; intros topic (old & other & -> & Hold & Ho & Hp)%elem_of_union_topics; split.
  - by exists old.
  - intros v Hv. rewrite elem_of_union_topic. left. by apply Hv.
  - by exists other.
  - intros v Hv. rewrite elem_of_union_topic. right. exists other. split_and!; [done|done|]. by apply Hv.
Qed.

Lemma union_filter_scope_covers retained incoming :
  FilterScope.covers (union_filter_scope retained incoming) retained = true
  ∧ FilterScope.covers (union_filter_scope retained incoming) incoming = true.
Proof.
  unfold FilterScope.covers. rewrite !andb_true_iff, !Covers.covers_values_spec. cbn.
  assert (∀ r i : option BlockRange,
    match union_range r i, r with None, _ => true | Some _, None => false
      | Some s, Some f => (range_start s <=? range_start f) && (range_end f <=? range_end s) end = true
    ∧ match union_range r i, i with None, _ => true | Some _, None => false
      | Some s, Some f => (range_start s <=? range_start f) && (range_end f <=? range_end s) end = true) as Hrange.
  { intros [r|] [i|]; cbn; try done. destruct (BlockRange.new _ _) as [hull|] eqn:Hnew; [|done].
    apply BlockRange.new_Ok in Hnew as [-> _]. cbn. lia. }
  destruct (Hrange (block_range retained) (block_range incoming)).
  destruct (union_topics_covers (topics retained) (topics incoming)).
  destruct (union_values_covers (addresses retained) (addresses incoming)).
  destruct (union_values_covers (transaction_hashes retained) (transaction_hashes incoming)).
  destruct (union_values_covers (transaction_types retained) (transaction_types incoming)).
  destruct (union_values_covers (senders retained) (senders incoming)).
  destruct (union_values_covers (recipients retained) (recipients incoming)).
  split_and!; done.
Qed.

Lemma covering_fold_covers rest first f :
  FilterScope.covers first f = true ∨ f ∈ rest →
  FilterScope.covers (fold_left union_filter_scope rest first) f = true.
Proof.
  revert first. induction rest as [|g rest IH]; intros first; cbn [fold_left]; [intros [|?%elem_of_nil]; done|].
  intros Hf. apply IH. destruct (union_filter_scope_covers first g) as [Hr Hi].
  destruct Hf as [Hf|[->|Hf]%elem_of_cons]; [left|by left|by right].
  destruct Covers.covers_preorder as (_ & _ & Htrans). exact (Htrans _ _ _ Hr Hf).
Qed.

Lemma covering_filter_scope_covers filters f :
  f ∈ filters → FilterScope.covers (covering_filter_scope filters) f = true.
Proof.
  destruct filters as [|first rest]; [by intros ?%elem_of_nil|]. intros Hf. apply covering_fold_covers.
  apply elem_of_cons in Hf as [->|]; [left|by right]. apply Covers.covers_preorder.
Qed.

(** ** The request covers every requirement *)

Section union.
Context {A : Type} (f : A → Z).

Lemma fold_lor_nonneg l z : 0 ≤ z → Forall (λ x, 0 ≤ f x) l → 0 ≤ fold_left (λ all x, Z.lor all (f x)) l z.
Proof. intros Hz Hl. revert z Hz. induction Hl as [|x l Hx Hl IH]; intros z Hz; [done|]. by apply IH, Z.lor_nonneg. Qed.

Lemma fold_lor_testbit l z i :
  Z.testbit (fold_left (λ all x, Z.lor all (f x)) l z) i = Z.testbit z i || existsb (λ x, Z.testbit (f x) i) l.
Proof.
  revert z. induction l as [|x l IH]; intros z; cbn; [by rewrite orb_false_r|].
  by rewrite IH, Z.lor_spec, orb_assoc.
Qed.
End union.

Lemma fold_finality_max requirements level r :
  (r ∈ requirements → Finality.satisfies (fold_left (λ all r, Finality.max all (minimum_finality r)) requirements level)
                        (minimum_finality r) = true)
  ∧ Finality.satisfies (fold_left (λ all r, Finality.max all (minimum_finality r)) requirements level) level = true.
Proof.
  assert (∀ a b, Finality.satisfies (Finality.max a b) a = true ∧ Finality.satisfies (Finality.max a b) b = true) as Hmax
    by (intros [] []; split; reflexivity).
  revert level. induction requirements as [|x requirements IH]; intros level; cbn [fold_left].
  { split; [set_solver|apply Finality.satisfies_refl]. }
  destruct (IH (Finality.max level (minimum_finality x))) as [Hr Hlevel]. split.
  - intros [->|Hin]%elem_of_cons; [|by apply Hr]. eapply Finality.satisfies_trans; [exact Hlevel|]. apply Hmax.
  - eapply Finality.satisfies_trans; [exact Hlevel|]. apply Hmax.
Qed.

(** What a request must ask for so that a requirement is met. *)
Record asks (request : DataRequest) (r : DataRequirement) : Prop := {
  asks_capability c : CapabilitySet.contains (capabilities r) c = true → CapabilitySet.contains (required request) c = true;
  asks_log_field field : LogFieldSet.contains (log_fields r) field = true →
    LogFieldSet.contains (request_log_fields request) field = true;
  asks_finality : Finality.satisfies (request_minimum_finality request) (minimum_finality r) = true;
  asks_filter scope : filter_scope request = Some scope → allow_filtered r = true ∧ FilterScope.covers scope (filter r) = true;
}.

Lemma requirements_request_asks requirements chain_id range policy r :
  r ∈ requirements → asks (requirements_request requirements chain_id range policy) r.
Proof.
  intros Hr. split.
  - intros c Hc. rewrite !CapabilitySet.contains_testbit in *. cbn [required requirements_request].
    unfold CapabilitySet.union. rewrite fold_lor_testbit. apply orb_true_iff. right. apply existsb_spec. eauto.
  - intros [] Hf. cbn [request_log_fields requirements_request]. unfold LogFieldSet.contains, LogFieldSet.union in *.
    change (log_field_bit LogTransactionHash) with 1 in *.
    assert (∀ z, negb (Z.land z 1 =? 0) = Z.testbit z 0) as Hbit.
    { intros z. change 1 with (Z.ones 1) at 1. rewrite Z.land_ones by lia. change (2 ^ 1) with 2.
      rewrite <-Z.bit0_mod. by destruct (Z.testbit z 0). }
    rewrite Hbit in *. rewrite fold_lor_testbit. apply orb_true_iff. right. apply existsb_spec. eauto.
  - by apply fold_finality_max.
  - intros scope. unfold filter_scope. cbn [requirements_request request_allow_filtered filters].
    destruct (forallb allow_filtered requirements) eqn:Hall; [|done].
    assert (effective_scope (MkFilterSet (covering_filter_scope (filter <$> requirements))
      (senders (covering_filter_scope (filter <$> requirements))) (recipients (covering_filter_scope (filter <$> requirements))))
      = covering_filter_scope (filter <$> requirements)) as ->.
    { unfold effective_scope. cbn. repeat case_bool_decide; by destruct (covering_filter_scope _). }
    case_bool_decide; [|done]. intros [= <-]. split.
    + rewrite forallb_spec in Hall. by apply Hall.
    + apply covering_filter_scope_covers. by apply list_elem_of_fmap_2.
Qed.

Lemma compile_live_request_asks processors chain_id start request p r :
  compile_live_request processors chain_id start = Ok request → p ∈ processors → r ∈ requirements p → asks request r.
Proof.
  unfold compile_live_request. rewrite result_bind_Ok. intros (range & _ & Hreq) Hp Hr.
  case_bool_decide; [done|]. injection Hreq as <-. apply requirements_request_asks. apply list_elem_of_bind. eauto.
Qed.

Lemma for_processor_ranges_asks id p chain_id ranges policy job r :
  for_processor_ranges id p chain_id ranges policy = Ok job → r ∈ requirements p → asks (job_request job) r.
Proof.
  unfold for_processor_ranges. rewrite result_bind_Ok. intros (? & _ & Hjob) Hr.
  apply result_bind_Ok in Hjob as (range & _ & Hjob). case_bool_decide; [done|].
  injection Hjob as <-. by apply requirements_request_asks.
Qed.

(** C4: what a processor filters for is asked of the source. Whatever log of
    whatever transaction the filter of some requirement of some processor of
    a lane selects, the scope pushed down in the lane's request selects, if
    one is pushed down at all; then every requirement allows filtering; and
    the request asks for every capability and log field of each requirement
    and for its finality. The same holds of a historical job. *)
Theorem request_covers_requirements processors chain_id start request p r i
    (Hrequest : compile_live_request processors chain_id start = Ok request ∧ p ∈ processors
      ∨ ∃ id ranges policy job, for_processor_ranges id p chain_id ranges policy = Ok job ∧ request = job_request job)
    (Hr : r ∈ requirements p) (Hitem : matches (filter r) i = true) :
  match filter_scope request with Some scope => allow_filtered r = true ∧ matches scope i = true | None => True end
  ∧ (∀ c, CapabilitySet.contains (capabilities r) c = true → CapabilitySet.contains (required request) c = true)
  ∧ (∀ f, LogFieldSet.contains (log_fields r) f = true → LogFieldSet.contains (request_log_fields request) f = true)
  ∧ Finality.satisfies (request_minimum_finality request) (minimum_finality r) = true.
Proof.
  assert (asks request r) as Hasks.
  { destruct Hrequest as [[Hlive Hp]|(id & ranges & policy & job & Hjob & ->)];
      [by eapply compile_live_request_asks|by eapply for_processor_ranges_asks]. }
  split_and!; [|apply Hasks..]. destruct (filter_scope request) as [scope|] eqn:Hscope; [|done].
  destruct (asks_filter _ _ Hasks scope Hscope) as [Hallow Hcover]. split; [done|].
  assert (FilterScope.matches_block (filter r) (item_block i) = true) as Hb
    by (unfold matches in Hitem; by apply andb_true_iff in Hitem as [[[? _]%andb_true_iff _]%andb_true_iff _]).
  unfold FilterScope.covers in Hcover. apply andb_true_iff in Hcover as [Hrange Hvalues].
  eapply Covers.covers_values_matches; [exact Hvalues| |exact Hitem].
  eapply (Covers.covers_range _ (filter r)); [|exact Hb]. unfold FilterScope.covers. by rewrite Hrange, Hvalues.
Qed.

(** ** A job's ranges *)

(** A store's refusal as the runtime's. *)
Definition runtime_error (e : StoreError) : RuntimeError :=
  match e with InvalidConfig detail => InvalidRuntimeConfig detail | _ => InvalidRuntimeConfig "" end.

(** The runtime merges ranges the way the store does. *)
Lemma normalize_backfill_store ranges :
  ranges ≠ [] → normalize_backfill_ranges ranges = map_err runtime_error (normalize_ranges ranges).
Proof.
  intros Hne. unfold normalize_backfill_ranges, normalize_ranges. rewrite bool_decide_false by done.
  generalize (@nil BlockRange). induction (sort_by _ ranges) as [|r rs IH]; intros acc; [done|]. cbn [fold_result].
  assert (normalize_backfill_step acc r = map_err runtime_error (normalize_step acc r)) as ->.
  { unfold normalize_backfill_step, normalize_step, range_of. destruct (last acc) as [p|]; [|done].
    destruct (_ <=? _); [|done]. by destruct (BlockRange.new _ _). }
  destruct (normalize_step acc r) as [acc'|e]; cbn; [apply IH|done].
Qed.

Lemma normalize_backfill_spec ranges :
  ranges ≠ [] → Forall range_ok ranges →
  ∃ out, normalize_backfill_ranges ranges = Ok out ∧ out ≠ [] ∧ canonical_from 0 out
    ∧ (∀ b, in_ranges out b ↔ in_ranges ranges b).
Proof.
  intros Hne Hok. destruct (normalize_ranges_spec ranges Hok) as (out & Hout & Hc & Hb). exists out.
  split_and!; [by rewrite normalize_backfill_store, Hout|  |done|done]. intros ->.
  destruct ranges as [|r ranges]; [done|]. apply Forall_cons in Hok as [[Hr _] _].
  apply (in_ranges_nil (range_start r)), Hb, in_ranges_cons. left. lia.
Qed.

Lemma canonical_end lo r rs l b :
  canonical_from lo (r :: rs) → last (r :: rs) = Some l → in_ranges (r :: rs) b → b ≤ range_end l.
Proof.
  revert lo r b. induction rs as [|x rs IH]; intros lo r b Hc Hl Hb; apply in_ranges_cons in Hb.
  - injection Hl as <-. destruct Hb as [|?%in_ranges_nil]; [lia|done].
  - rewrite last_cons_cons in Hl. destruct Hc as [Hr Hrs]. destruct Hb as [Hb|Hb]; [|by apply (IH _ _ _ Hrs Hl)].
    assert (range_end x ≤ range_end l); [|destruct Hrs; lia].
    apply (IH _ _ _ Hrs Hl), in_ranges_cons. left. destruct Hrs. lia.
Qed.

Lemma canonical_start lo r rs b : canonical_from lo (r :: rs) → in_ranges (r :: rs) b → range_start r ≤ b.
Proof.
  intros [Hr Hrs] [|Hb]%in_ranges_cons; [lia|]. pose proof (canonical_lower _ _ _ Hrs Hb). lia.
Qed.

Lemma in_ranges_last lo r rs l : canonical_from lo (r :: rs) → last (r :: rs) = Some l → range_start r ≤ range_end l.
Proof.
  revert lo r. induction rs as [|x rs IH]; intros lo r.
  - intros [Hr _] [= <-]. lia.
  - intros [Hr Hrs] Hl. rewrite last_cons_cons in Hl. specialize (IH _ x Hrs Hl). destruct Hrs as [Hx _]. lia.
Qed.

Lemma canonical_valid lo rs r : canonical_from lo rs → r ∈ rs → lo ≤ range_start r ≤ range_end r.
Proof.
  revert lo. induction rs as [|x rs IH]; intros lo; [set_solver|]. intros [Hx Hrs] [->|Hr]%elem_of_cons; [lia|].
  specialize (IH _ Hrs Hr). lia.
Qed.

Lemma canonical_ok rs ranges :
  canonical_from 0 rs → (∀ b, in_ranges rs b ↔ in_ranges ranges b) → Forall range_ok ranges → Forall range_ok rs.
Proof.
  intros Hc Hb Hok. apply Forall_forall. intros r Hr. pose proof (canonical_valid _ _ _ Hc Hr) as Hv.
  split; [lia|]. assert (in_ranges rs (range_end r)) as Hin.
  { apply in_ranges_elem. exists r. split; [done|]. apply BlockRange.contains_spec. lia. }
  apply Hb, in_ranges_elem in Hin as (x & Hx & Hin).
  rewrite Forall_forall in Hok. destruct (Hok x Hx) as [_ Hmax]. apply BlockRange.contains_spec in Hin. lia.
Qed.

(** C40: A historical job is what was asked for, and stays it. A job built
    for at least one range of a processor with requirements stores the
    separated ranges, in order, of exactly their blocks, however they
    overlapped; reading the job back gives those very ranges; and its request
    spans them. *)
Theorem built_job_ranges id p chain_id ranges policy
    (Hne : ranges ≠ []) (Hok : Forall range_ok ranges) (Hp : requirements p ≠ []) :
  ∃ job, for_processor_ranges id p chain_id ranges policy = Ok job
  ∧ canonical_from 0 (job_ranges job) ∧ (∀ b, in_ranges (job_ranges job) b ↔ in_ranges ranges b)
  ∧ requested_ranges job = Ok (job_ranges job)
  ∧ (∀ b, in_ranges ranges b → BlockRange.contains (request_range (job_request job)) b = true).
Proof.
  destruct (normalize_backfill_spec ranges Hne Hok) as (out & Hout & Houtne & Hc & Hb).
  unfold for_processor_ranges. rewrite Hout. cbn [mbind result_bind].
  destruct out as [|r rs]; [done|]. destruct (last (r :: rs)) as [l|] eqn:Hl; [|by apply last_None in Hl].
  pose proof (in_ranges_last _ _ _ _ Hc Hl) as Hle.
  assert (∀ text, bounding text (r :: rs) = Ok (MkBlockRange (range_start r) (range_end l))) as Hbound.
  { intros text. unfold bounding. rewrite Hl. cbn. unfold range_of. by rewrite (proj2 (BlockRange.new_Ok _ _ _) (conj eq_refl Hle)). }
  rewrite Hbound. cbn [mbind result_bind]. rewrite bool_decide_false by done.
  eexists. split; [done|]. cbn [job_ranges]. split_and!; [done|done| |].
  - unfold requested_ranges. cbn [job_ranges job_request].
    destruct (normalize_backfill_spec (r :: rs)) as (out & Hout' & _ & Hc' & Hb'); [done|by eapply canonical_ok|].
    assert (out = r :: rs) as -> by (eapply canonical_unique; [exact Hc'|exact Hc|exact Hb']).
    rewrite Hout'. cbn [mbind result_bind]. rewrite bool_decide_true by done. cbn [negb]. rewrite Hbound.
    cbn [mbind result_bind requirements_request request_range]. by rewrite bool_decide_true.
  - intros b Hin%Hb. cbn. apply BlockRange.contains_spec. cbn.
    split; [by apply (canonical_start _ _ _ _ Hc)|by apply (canonical_end _ _ _ _ _ Hc)].
Qed.
