(* ===== verification/FairCommits.v ===== *)
(** * Fair turns at the writer

    Models the commit scheduler of historical jobs in
    [crates/runtime/src/lib.rs] ([HistoricalFairCommitScheduler]): deficit
    round robin over the jobs that wait for a turn, one turn at a time. Every
    block of the code that holds the scheduler's lock is one operation here;
    a run interleaves them as the tasks do, and the permits and registrations
    that release on drop are events of the run. *)
From Stdlib Require Import ZArith Lia Strings.Byte Strings.Ascii Strings.String.
From stdpp Require Import gmap strings list list_numbers fin_maps pretty.
From S2P Require Import Prelude Bytes Chain Capability Material Provenance Frame SourceContract Planner Durable Descriptor Delta Rows Ranges Requests.

Definition HISTORICAL_FAIR_COMMIT_QUANTUM_BYTES : Z := 1024 * 1024.

Definition i128_max : Z := 2 ^ 127 - 1.
Definition i128_min : Z := - 2 ^ 127.
Definition sat_add_i128 (a b : Z) : Z := Z.max i128_min (Z.min i128_max (a + b)).
Definition sat_sub_i128 (a b : Z) : Z := Z.max i128_min (Z.min i128_max (a - b)).

(** The [{:?}] of a job's id: in quotes, with the escapes of ASCII text. *)
Definition escape_debug (c : Ascii.ascii) : string :=
  let n := Ascii.nat_of_ascii c in
  let backslash := Ascii.ascii_of_nat 92 in
  let escaped (code : nat) := String backslash (String (Ascii.ascii_of_nat code) EmptyString) in
  if (n =? 34)%nat || (n =? 92)%nat then escaped n
  else if (n =? 0)%nat then escaped 48%nat
  else if (n =? 9)%nat then escaped 116%nat
  else if (n =? 10)%nat then escaped 110%nat
  else if (n =? 13)%nat then escaped 114%nat
  else if (n <? 32)%nat || (n =? 127)%nat
  then escaped 117%nat +:+ "{" +:+ (if (n <? 16)%nat then EmptyString else hex_digit (Z.of_nat n / 16))
         +:+ hex_digit (Z.of_nat n mod 16) +:+ "}"
  else String c EmptyString.
Fixpoint escape_text (s : string) : string :=
  match s with EmptyString => EmptyString | String c s => escape_debug c +:+ escape_text s end.
Definition debug (s : string) : string :=
  let quote := String (Ascii.ascii_of_nat 34) EmptyString in quote +:+ escape_text s +:+ quote.

(** [HistoricalFairCommitJob], its fields in the order of the model. *)
Record FairJob := MkFairJob {
  deficit_bytes : Z;
  registered : bool;
  waiting : bool;
}.

Definition fair_job_default : FairJob := MkFairJob 0 false false.

Record FairState := MkFairState {
  fair_active : bool;
  selected : option string;
  order : list string;
  jobs : gmap string FairJob;
}.

Definition fair_default : FairState := MkFairState false None [] ∅.

Definition set_order (s : FairState) (order : list string) : FairState :=
  MkFairState (fair_active s) (selected s) order (jobs s).
Definition set_job (s : FairState) (id : string) (job : FairJob) : FairState :=
  MkFairState (fair_active s) (selected s) (order s) (<[id := job]> (jobs s)).
Definition set_selected (s : FairState) (id : option string) : FairState :=
  MkFairState (fair_active s) id (order s) (jobs s).

Definition register_job (id : string) (s : FairState) : result RuntimeError FairState :=
  let job := default fair_job_default (jobs s !! id) in
  if registered job
  then Err (InvalidRuntimeConfig ("historical job " +:+ debug id +:+ " is already registered with the fair scheduler"))
  else Ok (set_job s id (MkFairJob (deficit_bytes job) true (waiting job))).

(** [acquire] up to its loop: the job waits. *)
Definition enter (id : string) (s : FairState) : result RuntimeError FairState :=
  match jobs s !! id with
  | None => Err (InvalidRuntimeConfig ("historical job " +:+ debug id +:+ " has no fair scheduler registration"))
  | Some job =>
      if negb (registered job)
      then Err (InvalidRuntimeConfig ("historical job " +:+ debug id +:+ " has an inactive fair scheduler registration"))
      else if waiting job
      then Err (InvalidRuntimeConfig ("historical job " +:+ debug id +:+ " requested concurrent fair commit turns"))
      else Ok (set_order (set_job s id (MkFairJob (deficit_bytes job) (registered job) true)) (order s ++ [id]))
  end.

Section scheduler.
Context (quantum_bytes : Z).

(** What one visit to the head of the queue comes to. *)
Inductive Visit := Chosen (id : string) | NoHead | GoOn.

Definition visit (s : FairState) : FairState * Visit :=
  match order s with
  | [] => (s, NoHead)
  | id :: rest =>
      let s := set_order s rest in
      match jobs s !! id with
      | None => (s, GoOn)
      | Some job =>
          if negb (waiting job) then (s, GoOn)
          else
            let deficit := sat_add_i128 (deficit_bytes job) quantum_bytes in
            let s := set_job s id (MkFairJob deficit (registered job) (waiting job)) in
            if 0 <? deficit then (s, Chosen id) else (set_order s (order s ++ [id]), GoOn)
      end
  end.

(** The inner loop. *)
Fixpoint visit_candidates (candidates : nat) (s : FairState) : FairState * Visit :=
  match candidates with
  | O => (s, GoOn)
  | S candidates =>
      match visit s with
      | (s, GoOn) => visit_candidates candidates s
      | done => done
      end
  end.

(** The outer loop; [None] is a loop that has not ended within the fuel. *)
Fixpoint select_loop (fuel : nat) (s : FairState) : option (FairState * option string) :=
  match order s, fuel with
  | [], _ => Some (s, None)
  | _, O => None
  | _, S fuel =>
      match visit_candidates (length (order s)) s with
      | (s, Chosen id) => Some (s, Some id)
      | (s, NoHead) => Some (s, None)
      | (s, GoOn) => select_loop fuel s
      end
  end.

(** The most a job owes. *)
Definition largest_debt (s : FairState) : Z :=
  foldr (λ job debt, Z.max debt (- deficit_bytes job.2)) 0 (map_to_list (jobs s)).

(** As many rounds as the most indebted job takes to owe nothing, and one. *)
Definition select_fair_commit_job (s : FairState) : option (FairState * option string) :=
  select_loop (S (S (Z.to_nat (largest_debt s / quantum_bytes)))) s.

(** The first half of a round of the loop of [acquire]: an idle scheduler
    selects. *)
Definition offer (s : FairState) : option FairState :=
  if negb (fair_active s) && bool_decide (selected s = None)
  then '(s, chosen) ← select_fair_commit_job s; Some (set_selected s chosen)
  else Some s.

(** One round of the loop: whether the turn is this job's. The state is the
    one the notified tasks find. *)
Definition try_acquire (id : string) (s : FairState) : option (FairState * bool) :=
  s ← offer s;
  if negb (fair_active s) && bool_decide (selected s = Some id)
  then
    let jobs := alter (λ job, MkFairJob (deficit_bytes job) (registered job) false) id (jobs s) in
    Some (MkFairState true None (order s) jobs, true)
  else Some (s, false).

Definition forget (id : string) (s : FairState) : FairState :=
  let s := if bool_decide (selected s = Some id) then set_selected s None else s in
  set_order s (List.filter (λ queued, negb (bool_decide (queued = id))) (order s)).

Definition cancel_waiter (id : string) (s : FairState) : FairState :=
  let s := forget id s in
  MkFairState (fair_active s) (selected s) (order s)
    (alter (λ job, MkFairJob (deficit_bytes job) (registered job) false) id (jobs s)).

Definition release (id : string) (charged_bytes : Z) (s : FairState) : FairState :=
  MkFairState false (selected s) (order s)
    (alter (λ job, MkFairJob (sat_sub_i128 (deficit_bytes job) charged_bytes) (registered job) (waiting job)) id (jobs s)).

(** [Drop for HistoricalFairJobRegistration]. *)
Definition drop_registration (id : string) (s : FairState) : FairState :=
  let s := forget id s in
  MkFairState (fair_active s) (selected s) (order s) (delete id (jobs s)).

(** ** Runs *)

Fixpoint drop_permit (id : string) (permits : list string) : list string :=
  match permits with
  | [] => []
  | held :: permits => if bool_decide (held = id) then permits else held :: drop_permit id permits
  end.

(** The scheduler with the permits held. *)
Record FairSystem := MkFairSystem { fair_state : FairState; permits : list string }.

Inductive FairEvent :=
  | Register (id : string)
  | Enter (id : string)
  | Try (id : string)
  | CancelWait (id : string)
  | CompleteTurn (id : string) (charged_bytes : Z)
  | DropTurn (id : string)
  | DropRegistration (id : string).

Definition is_waiting (s : FairState) (id : string) : bool := is_some_and (jobs s !! id) waiting.

(** One event and whether it granted a turn; [None] is an event that cannot
    happen: only a waiting job tries or gives up, and only a holder releases. *)
Definition fair_event (e : FairEvent) (sys : FairSystem) : option (FairSystem * option string) :=
  let s := fair_state sys in
  match e with
  | Register id =>
      match register_job id s with Ok s => Some (MkFairSystem s (permits sys), None) | Err _ => Some (sys, None) end
  | Enter id =>
      match enter id s with Ok s => Some (MkFairSystem s (permits sys), None) | Err _ => Some (sys, None) end
  | Try id =>
      if is_waiting s id then
        '(s, granted) ← try_acquire id s;
        if granted : bool then Some (MkFairSystem s (id :: permits sys), Some id)
        else Some (MkFairSystem s (permits sys), None)
      else None
  | CancelWait id =>
      if is_waiting s id then Some (MkFairSystem (cancel_waiter id s) (permits sys), None) else None
  | CompleteTurn id charged =>
      if bool_decide (id ∈ permits sys)
      then Some (MkFairSystem (release id (Z.max charged 1) s) (drop_permit id (permits sys)), None) else None
  | DropTurn id =>
      if bool_decide (id ∈ permits sys)
      then Some (MkFairSystem (release id 0 s) (drop_permit id (permits sys)), None) else None
  | DropRegistration id =>
      if is_some_and (jobs s !! id) registered
      then Some (MkFairSystem (drop_registration id s) (permits sys), None) else None
  end.

(** A run: the system after the events, and the turns granted. *)
Fixpoint fair_run (events : list FairEvent) (sys : FairSystem) : option (FairSystem * list string) :=
  match events with
  | [] => Some (sys, [])
  | e :: events =>
      '(sys, granted) ← fair_event e sys;
      '(sys, grants) ← fair_run events sys;
      Some (sys, match granted with Some id => id :: grants | None => grants end)
  end.

Definition fair_start : FairSystem := MkFairSystem fair_default [].

(** ** What every run keeps *)

Record fair_ok (s : FairState) : Prop := {
  fair_nodup : NoDup (order s);
  fair_order id : id ∈ order s → is_waiting s id = true;
  fair_selected id : selected s = Some id → is_waiting s id = true ∧ id ∉ order s;
  fair_waiting id : is_waiting s id = true → id ∈ order s ∨ selected s = Some id;
  fair_registered id job : jobs s !! id = Some job → registered job = true;
  fair_idle : fair_active s = true → selected s = None;
}.

Definition system_ok (sys : FairSystem) : Prop :=
  fair_ok (fair_state sys) ∧ length (permits sys) = (if fair_active (fair_state sys) then 1 else 0)%nat.

Lemma is_waiting_alter s s' id id' f :
  jobs s' = alter f id (jobs s) →
  is_waiting s' id' = if bool_decide (id' = id) then is_some_and (jobs s !! id) (λ job, waiting (f job)) else is_waiting s id'.
Proof.
  unfold is_waiting. intros ->. case_bool_decide as Hid.
  - subst. rewrite lookup_alter_eq. by destruct (jobs s !! id).
  - by rewrite lookup_alter_ne.
Qed.

(** Selecting visits the queue: what every visit keeps, selecting keeps. *)
Section select.
Context (P : FairState → Prop) (R : FairState → string → Prop).
Context (Hvisit : ∀ s, P s → match visit s with (s', Chosen id) => R s' id | (s', _) => P s' end).

Lemma visit_NoHead s s' : visit s = (s', NoHead) → order s' = [].
Proof.
  unfold visit. destruct (order s) as [|h rest] eqn:Ho; [by intros [= <-]|].
  cbn [jobs set_order]. destruct (jobs s !! h) as [job|]; [|done]. destruct (negb (waiting job)); [done|].
  by destruct (0 <? _).
Qed.

Lemma visit_candidates_keeps n s :
  P s →
  match visit_candidates n s with
  | (s', Chosen id) => R s' id
  | (s', NoHead) => P s' ∧ order s' = []
  | (s', GoOn) => P s'
  end.
Proof.
  revert s. induction n as [|n IH]; intros s Hs; [done|]. cbn [visit_candidates].
  specialize (Hvisit s Hs). destruct (visit s) as [s' [id| |]] eqn:Hv; [done| |by apply IH].
  split; [done|by eapply visit_NoHead].
Qed.

Lemma select_loop_keeps fuel s s' chosen :
  P s → select_loop fuel s = Some (s', chosen) →
  match chosen with Some id => R s' id | None => P s' ∧ order s' = [] end.
Proof.
  revert s. induction fuel as [|fuel IH]; intros s Hs; cbn [select_loop].
  { destruct (order s) eqn:Ho; [|done]. intros [= <- <-]. by split. }
  destruct (order s) as [|h rest] eqn:Ho; [intros [= <- <-]; by split|].
  pose proof (visit_candidates_keeps (length (h :: rest)) s Hs) as Hv.
  destruct (visit_candidates _ s) as [t [id| |]]; [by intros [= <- <-]|by intros [= <- <-]|]. by apply IH.
Qed.
End select.

(** ** Selecting ends *)

Context (Hquantum : 0 < quantum_bytes).

Definition deficit_of (s : FairState) (id : string) : Z := map_or 0 deficit_bytes (jobs s !! id).

(** The visits after which a job with a deficit is chosen. *)
Definition visits (deficit : Z) : Z := Z.max 1 (- deficit / quantum_bytes + 1).

Lemma visits_positive deficit : 1 ≤ visits deficit.
Proof. unfold visits. lia. Qed.

(** A visit that does not choose a job brings it one nearer. *)
Lemma visits_step deficit :
  sat_add_i128 deficit quantum_bytes ≤ 0 →
  deficit + quantum_bytes ≤ sat_add_i128 deficit quantum_bytes
  ∧ visits (sat_add_i128 deficit quantum_bytes) + 1 ≤ visits deficit.
Proof.
  intros Hd. assert (deficit + quantum_bytes ≤ sat_add_i128 deficit quantum_bytes) as Hle.
  { revert Hd. unfold sat_add_i128, i128_max, i128_min. lia. }
  split; [done|]. set (d := sat_add_i128 _ _) in *. unfold visits.
  assert (- d / quantum_bytes ≤ - deficit / quantum_bytes - 1).
  { replace (- deficit / quantum_bytes - 1) with ((- deficit + (-1) * quantum_bytes) / quantum_bytes)
      by (rewrite Z.div_add by lia; lia). apply Z.div_le_mono; lia. }
  assert (0 ≤ - d / quantum_bytes) by (apply Z.div_pos; lia). lia.
Qed.

(** A state whose queued jobs wait, once each. *)
Definition queue_ok (s : FairState) : Prop := NoDup (order s) ∧ ∀ id, id ∈ order s → is_waiting s id = true.

(** A visit to a waiting job. *)
Lemma visit_waiting s h rest :
  order s = h :: rest → is_waiting s h = true →
  ∃ job, jobs s !! h = Some job ∧ waiting job = true ∧
  visit s =
    let deficit := sat_add_i128 (deficit_bytes job) quantum_bytes in
    let s' := MkFairState (fair_active s) (selected s) rest (<[h := MkFairJob deficit (registered job) true]> (jobs s)) in
    if 0 <? deficit then (s', Chosen h) else (set_order s' (rest ++ [h]), GoOn).
Proof.
  intros Ho Hw. unfold is_waiting in Hw. destruct (jobs s !! h) as [job|] eqn:Hj; [|done]. cbn in Hw.
  exists job. split_and!; [done|done|]. unfold visit. rewrite Ho. cbn [jobs set_order]. rewrite Hj, Hw. done.
Qed.

Lemma is_waiting_insert s s' h job id :
  jobs s' = <[h := MkFairJob job (registered (default fair_job_default (jobs s !! h))) true]> (jobs s) →
  is_waiting s h = true → is_waiting s' id = is_waiting s id.
Proof.
  intros Hj Hw. unfold is_waiting in *. rewrite Hj. destruct (decide (id = h)) as [->|Hne].
  - rewrite lookup_insert_eq. by destruct (jobs s !! h).
  - by rewrite lookup_insert_ne.
Qed.

(** A pass that chooses nothing visits every job of the queue. *)
Lemma visit_candidates_pass n s s' :
  queue_ok s → (n ≤ length (order s))%nat → visit_candidates n s = (s', GoOn) →
  queue_ok s' ∧ order s' = drop n (order s) ++ take n (order s)
  ∧ (∀ id, id ∈ take n (order s) → deficit_of s' id ≤ 0 ∧ visits (deficit_of s' id) + 1 ≤ visits (deficit_of s id))
  ∧ (∀ id, id ∉ take n (order s) → jobs s' !! id = jobs s !! id).
Proof.
  revert s. induction n as [|n IH]; intros s Hok Hn; cbn [visit_candidates].
  { intros [= <-]. rewrite take_0, drop_0, app_nil_r. split_and!; [apply Hok..|done| |done]. by intros id ?%elem_of_nil. }
  destruct Hok as [Hnd Hall]. destruct (order s) as [|h rest] eqn:Ho; [cbn in Hn; lia|]. cbn [length] in Hn.
  destruct (visit_waiting s h rest Ho) as (job & Hj & Hw & ->); [apply Hall; by left|]. cbv zeta.
  destruct (Z.ltb_spec 0 (sat_add_i128 (deficit_bytes job) quantum_bytes)) as [|Hd]; [done|]. cbn [set_order].
  intros Hpass. set (s1 := MkFairState _ _ _ _) in Hpass.
  assert (∀ id, is_waiting s1 id = is_waiting s id) as Hsame.
  { intros id. unfold is_waiting, s1. cbn [jobs]. destruct (decide (id = h)) as [->|].
    - rewrite lookup_insert_eq, Hj. cbn. by rewrite Hw.
    - by rewrite lookup_insert_ne. }
  apply NoDup_cons in Hnd as [Hh Hnd].
  apply IH in Hpass as (Hok' & Horder & Hvis & Hrest); cycle 1.
  { split; cbn [set_order order].
    - apply NoDup_app. split_and!; [done| |apply NoDup_singleton]. intros x Hx ->%list_elem_of_singleton. done.
    - intros id Hid. change (is_waiting s1 id = true). rewrite Hsame. apply Hall. cbn [set_order order] in Hid. set_solver. }
  { cbn [set_order order]. rewrite length_app. cbn. lia. }
  cbn [set_order order] in Horder, Hvis, Hrest.
  rewrite take_app_le in Hvis, Hrest by lia. rewrite drop_app_le, take_app_le in Horder by lia.
  split; [done|]. split; [by rewrite Horder, <-app_assoc|]. cbn [take].
  assert (h ∉ take n rest) as Hh' by (intros Hx; apply Hh; rewrite <-(take_drop n rest); set_solver).
  split.
  - intros id [->|Hid]%elem_of_cons.
    + unfold deficit_of. rewrite Hrest by done. cbn [set_order s1 jobs]. rewrite lookup_insert_eq, Hj. cbn.
      split; [done|]. by apply visits_step.
    + destruct (Hvis id Hid) as [? Hv]. split; [done|]. unfold deficit_of in Hv |- *. cbn [set_order s1 jobs] in Hv.
      rewrite lookup_insert_ne in Hv; [done|]. intros ->. done.
  - intros id Hid. rewrite not_elem_of_cons in Hid. destruct Hid as [Hne Hid]. rewrite Hrest by done.
    cbn [set_order s1 jobs]. by rewrite lookup_insert_ne.
Qed.

Lemma select_loop_ends fuel s id :
  queue_ok s → id ∈ order s → visits (deficit_of s id) ≤ Z.of_nat fuel → select_loop fuel s ≠ None.
Proof.
  revert s. induction fuel as [|fuel IH]; intros s Hok Hid Hv; [pose proof (visits_positive (deficit_of s id)); lia|].
  cbn [select_loop]. destruct (order s) as [|h rest] eqn:Ho; [done|].
  destruct (visit_candidates (length (h :: rest)) s) as [s' [chosen| |]] eqn:Hpass; [done|done|].
  apply visit_candidates_pass in Hpass as (Hok' & Horder & Hvis & _); [|done|by rewrite Ho].
  rewrite Ho, drop_ge, take_ge in Horder by done. rewrite Ho, take_ge in Hvis by done.
  apply IH; [done|by rewrite Horder|]. destruct (Hvis id Hid). lia.
Qed.

Lemma largest_debt_spec s id : - deficit_of s id ≤ largest_debt s ∧ 0 ≤ largest_debt s.
Proof.
  unfold deficit_of, largest_debt. assert (∀ (l : list (string * FairJob)) job,
    (job ∈ l → - deficit_bytes job.2 ≤ foldr (λ job debt, Z.max debt (- deficit_bytes job.2)) 0 l)
    ∧ 0 ≤ foldr (λ job debt, Z.max debt (- deficit_bytes job.2)) 0 l) as Hl.
  { intros l job. induction l as [|x l [IH IH0]]; cbn [foldr]; [split; [set_solver|lia]|].
    split; [|lia]. intros [->|Hin]%elem_of_cons; [lia|]. specialize (IH Hin). lia. }
  destruct (jobs s !! id) as [job|] eqn:Hj; cbn.
  - apply elem_of_map_to_list in Hj. split; [by apply (Hl _ (id, job))|apply (Hl _ (id, job))].
  - destruct (Hl (map_to_list (jobs s)) (id, fair_job_default)) as [_ ?]. lia.
Qed.

Lemma select_ends s : queue_ok s → select_fair_commit_job s ≠ None.
Proof.
  intros Hok. unfold select_fair_commit_job. destruct (order s) as [|h rest] eqn:Ho.
  { cbn [select_loop]. by rewrite Ho. }
  apply (select_loop_ends _ s h Hok); [rewrite Ho; by left|].
  destruct (largest_debt_spec s h) as [Hd Hpos].
  assert (- deficit_of s h / quantum_bytes ≤ largest_debt s / quantum_bytes) by (apply Z.div_le_mono; lia).
  assert (0 ≤ largest_debt s / quantum_bytes) by (apply Z.div_pos; lia). unfold visits. lia.
Qed.

(** ** How long a job waits

    The turns another job can take before a waiting one: as many as the
    waiting job needs further visits, and one more while it is ahead. *)

Fixpoint before (k j : string) (queue : list string) : bool :=
  match queue with
  | [] => false
  | x :: queue => if bool_decide (x = j) then false else if bool_decide (x = k) then true else before k j queue
  end.

Definition turns_ahead (s : FairState) (j k : string) : Z :=
  if bool_decide (selected s = Some j) then 0
  else visits (deficit_of s j) - 1 + (if bool_decide (selected s = Some k) || before k j (order s) then 1 else 0).

Lemma turns_ahead_nonneg s j k : 0 ≤ turns_ahead s j k.
Proof. unfold turns_ahead. pose proof (visits_positive (deficit_of s j)). repeat case_bool_decide; repeat case_match; lia. Qed.

Lemma before_app k j queue rest : j ∈ queue → before k j (queue ++ rest) = before k j queue.
Proof.
  induction queue as [|x queue IH]; [set_solver|]. cbn [before app]. intros Hj. repeat case_bool_decide; [done|done|].
  apply IH. set_solver.
Qed.

Lemma before_forget k j id queue :
  id ≠ j → before k j (List.filter (λ queued, negb (bool_decide (queued = id))) queue) = true → before k j queue = true.
Proof.
  intros Hne. induction queue as [|x queue IH]; [done|]. cbn [List.filter before].
  destruct (decide (x = id)) as [->|Hx].
  - rewrite (bool_decide_true (id = id)) by done. cbn [negb]. intros H. rewrite (bool_decide_false (id = j)) by done.
    case_bool_decide; [done|by apply IH].
  - rewrite (bool_decide_false (x = id)) by done. cbn [negb before]. repeat case_bool_decide; [done|done|apply IH].
Qed.

(** What selecting from [s0] has come to. *)
Record selecting (s0 s : FairState) : Prop := {
  sel_idle : fair_active s = fair_active s0 ∧ selected s = None;
  sel_nodup : NoDup (order s);
  sel_members id : id ∈ order s ↔ id ∈ order s0;
  sel_waiting id : is_waiting s id = is_waiting s0 id;
  sel_registered id job : jobs s !! id = Some job → registered job = true;
  sel_turns j k : j ∈ order s0 → turns_ahead s j k ≤ turns_ahead s0 j k;
}.

(** And what it ends with. *)
Record chosen_from (s0 s : FairState) (id : string) : Prop := {
  ch_idle : fair_active s = fair_active s0;
  ch_member : id ∈ order s0;
  ch_nodup : NoDup (order s);
  ch_members x : x ∈ order s ↔ x ∈ order s0 ∧ x ≠ id;
  ch_waiting x : is_waiting s x = is_waiting s0 x;
  ch_registered x job : jobs s !! x = Some job → registered job = true;
  ch_turns j k : j ∈ order s0 → j ≠ k → turns_ahead (set_selected s (Some id)) j k ≤ turns_ahead s0 j k;
}.

Lemma visit_selects s0 s (Hwaits : ∀ id, id ∈ order s0 → is_waiting s0 id = true) :
  selecting s0 s →
  match visit s with (s', Chosen id) => chosen_from s0 s' id | (s', _) => selecting s0 s' end.
Proof.
  intros [[Ha Hs] Hnd Hmem Hw Hreg Hturns]. destruct (order s) as [|h rest] eqn:Ho.
  { unfold visit. rewrite Ho. by split; rewrite ?Ho. }
  destruct (visit_waiting s h rest Ho) as (job & Hj & Hwait & ->); [rewrite Hw; apply Hwaits, Hmem; by left|].
  apply NoDup_cons in Hnd as [Hh Hnd]. cbv zeta.
  set (s1 := MkFairState (fair_active s) (selected s) rest
    (<[h := MkFairJob (sat_add_i128 (deficit_bytes job) quantum_bytes) (registered job) true]> (jobs s))).
  assert (∀ id, is_waiting s1 id = is_waiting s id) as Hsame.
  { intros id. unfold is_waiting, s1. cbn [jobs]. destruct (decide (id = h)) as [->|].
    - rewrite lookup_insert_eq, Hj. cbn. by rewrite Hwait.
    - by rewrite lookup_insert_ne. }
  assert (∀ id j, jobs s1 !! id = Some j → registered j = true) as Hreg1.
  { intros id j. cbn. destruct (decide (id = h)) as [->|].
    - rewrite lookup_insert_eq. intros [= <-]. exact (Hreg h job Hj).
    - rewrite lookup_insert_ne by done. apply Hreg. }
  assert (∀ id, id ≠ h → deficit_of s1 id = deficit_of s id) as Hdef.
  { intros id Hne. unfold deficit_of. cbn. by rewrite lookup_insert_ne. }
  assert (deficit_of s h = deficit_bytes job) as Hdj by (unfold deficit_of; by rewrite Hj).
  assert (deficit_of s1 h = sat_add_i128 (deficit_bytes job) quantum_bytes) as Hdh.
  { unfold deficit_of. cbn. by rewrite lookup_insert_eq. }
  destruct (Z.ltb_spec 0 (sat_add_i128 (deficit_bytes job) quantum_bytes)) as [|Hd].
  - split; try done.
    + apply Hmem. by left.
    + intros x. rewrite <-Hmem, elem_of_cons. cbn. naive_solver.
    + intros x. by rewrite Hsame.
    + intros j k Hjm Hjk. etrans; [|by apply (Hturns j k)]. unfold turns_ahead. cbn [selected set_selected order s1].
      rewrite Hs, !(bool_decide_false (None = Some _)), Ho by done. cbn [orb before].
      destruct (decide (h = j)) as [->|Hne].
      { rewrite bool_decide_true by done. pose proof (visits_positive (deficit_of s j)). rewrite bool_decide_true by done. lia. }
      rewrite (bool_decide_false (Some h = Some j)), (bool_decide_false (h = j)) by congruence.
      change (deficit_of (set_selected s1 (Some h)) j) with (deficit_of s1 j). rewrite Hdef by done.
      destruct (decide (h = k)) as [->|Hk].
      * rewrite !(bool_decide_true (_ = _)) by done. cbn. lia.
      * rewrite (bool_decide_false (Some h = Some k)), (bool_decide_false (h = k)) by congruence. done.
  - split; cbn [fair_active selected order set_order jobs]; try done.
    + apply NoDup_app. split_and!; [done| |apply NoDup_singleton]. by intros x Hx ->%list_elem_of_singleton.
    + intros x. rewrite <-Hmem. set_solver.
    + intros x. change (is_waiting s1 x = is_waiting s0 x). by rewrite Hsame.
    + intros j k Hjm. etrans; [|by apply (Hturns j k)]. unfold turns_ahead. cbn [selected set_order order s1].
      rewrite Hs, !(bool_decide_false (None = Some _)), Ho by done. cbn [orb before].
      change (deficit_of (set_order _ _) j) with (deficit_of s1 j).
      destruct (decide (h = j)) as [->|Hne].
      { rewrite bool_decide_true by done. rewrite Hdh, Hdj. destruct (visits_step (deficit_bytes job) Hd) as [_ Hv].
        case_match; lia. }
      rewrite (bool_decide_false (h = j)) by done. rewrite Hdef by done.
      rewrite before_app by (apply Hmem in Hjm; set_solver). case_bool_decide; [case_match; lia|done].
Qed.

Lemma fair_ok_queue s : fair_ok s → queue_ok s.
Proof. intros [Hnd Ho _ _ _ _]. by split. Qed.

(** Selecting from a state that has nobody selected. *)
Lemma select_spec s :
  fair_ok s → selected s = None →
  ∃ s' chosen, select_fair_commit_job s = Some (s', chosen)
  ∧ match chosen with Some id => chosen_from s s' id | None => selecting s s' ∧ order s = [] end.
Proof.
  intros Hok Hs. destruct (select_fair_commit_job s) as [[s' chosen]|] eqn:Hsel; [|by destruct (select_ends s (fair_ok_queue s Hok))].
  exists s', chosen. split; [done|]. unfold select_fair_commit_job in Hsel.
  apply (select_loop_keeps (selecting s) (chosen_from s)) in Hsel.
  - destruct chosen as [id|]; [done|]. destruct Hsel as [Hsel Ho]. split; [done|].
    destruct (order s) as [|h rest] eqn:Hs'; [done|]. pose proof (proj2 (sel_members _ _ Hsel h)) as Hh.
    rewrite Ho, Hs' in Hh. exfalso. apply (not_elem_of_nil h), Hh. by left.
  - intros t Ht. apply visit_selects; [apply Hok|done].
  - by split; [|apply Hok| | |apply Hok|].
Qed.

(** Nobody is left out: an idle scheduler with a waiting job has one
    selected. *)
Record offered (s s' : FairState) : Prop := {
  of_ok : fair_ok s';
  of_active : fair_active s' = fair_active s;
  of_waiting id : is_waiting s' id = is_waiting s id;
  of_selected id : fair_active s = false → is_waiting s id = true → ∃ chosen, selected s' = Some chosen;
  of_turns j k : is_waiting s j = true → j ≠ k → turns_ahead s' j k ≤ turns_ahead s j k;
}.

Lemma offer_spec s : fair_ok s → ∃ s', offer s = Some s' ∧ offered s s'.
Proof.
  intros Hok. unfold offer. destruct (fair_active s) eqn:Ha; cbn [negb andb].
  { exists s. split; [done|]. split; try done. by rewrite Ha. }
  case_bool_decide as Hs; cycle 1.
  { exists s. split; [done|]. split; try done. intros id _ _. destruct (selected s); [by eexists|done]. }
  destruct (select_spec s Hok Hs) as (s' & [id|] & -> & Hsel); cbn; eexists; (split; [done|]).
  - destruct Hsel as [Hact Hm Hnd Hmem Hw Hreg Hturns]. split; [|done|done|by eexists|].
    + split; cbn [order set_selected selected fair_active jobs]; [done| | | |done|congruence].
      * intros x [Hx _]%Hmem. change (is_waiting s' x = true). rewrite Hw. by apply Hok.
      * intros x [= <-]. change (is_waiting s' id = true ∧ id ∉ order s'). rewrite Hw, Hmem. split; [by apply Hok|naive_solver].
      * intros x. change (is_waiting s' x = true → x ∈ order s' ∨ Some id = Some x). rewrite Hw, Hmem. intros Hx.
        destruct (decide (x = id)) as [->|]; [by right|left]. destruct (fair_waiting s Hok x Hx); [done|congruence].
    + intros j k Hj Hjk. apply Hturns; [|done]. destruct (fair_waiting s Hok j Hj); [done|congruence].
  - destruct Hsel as [[[Hact Hn] Hnd Hmem Hw Hreg Hturns] Ho].
    assert (∀ x, is_waiting s x = true → False) as Hnone.
    { intros x Hx. destruct (fair_waiting s Hok x Hx) as [Hx'|]; [rewrite Ho in Hx'; by apply elem_of_nil in Hx'|congruence]. }
    split; [|done|done|intros id _ Hx; by destruct (Hnone id)|intros j k Hj; by destruct (Hnone j)].
    split; cbn [order set_selected selected fair_active jobs]; [done| |done| |done|congruence].
    + intros x Hx%Hmem. rewrite Ho in Hx. by apply elem_of_nil in Hx.
    + intros x. change (is_waiting s' x = true → x ∈ order s' ∨ None = Some x). rewrite Hw. intros Hx. by destruct (Hnone x).
Qed.

Lemma before_absent k j queue : k ∉ queue → before k j queue = false.
Proof.
  induction queue as [|x queue IH]; [done|]. rewrite not_elem_of_cons. intros [Hx Hq]. cbn [before].
  case_bool_decide; [done|]. rewrite bool_decide_false by done. by apply IH.
Qed.

(** What an event leaves of a scheduler, seen from a waiting job. *)
Record moves (s s' : FairState) (granted : option string) (j : string) : Prop := {
  mv_waiting : is_waiting s' j = true;
  mv_turns k : j ≠ k → turns_ahead s' j k + (if bool_decide (granted = Some k) then 1 else 0) ≤ turns_ahead s j k;
}.

Lemma moves_same s s' granted j :
  is_waiting s j = true → granted = None → is_waiting s' j = is_waiting s j →
  (∀ k, j ≠ k → turns_ahead s' j k ≤ turns_ahead s j k) → moves s s' granted j.
Proof.
  intros Hj -> Hw Hturns. split; [by rewrite Hw|]. intros k Hk. rewrite bool_decide_false by done.
  specialize (Hturns k Hk). lia.
Qed.

(** The same queue and choice, and no less due to the job. *)
Lemma turns_ahead_le s s' j k :
  selected s' = selected s → order s' = order s → deficit_of s' j = deficit_of s j → turns_ahead s' j k ≤ turns_ahead s j k.
Proof. intros Hs Ho Hd. unfold turns_ahead. by rewrite Hs, Ho, Hd. Qed.

Lemma deficit_of_alter s s' f id :
  jobs s' = alter f id (jobs s) → (∀ job, deficit_bytes (f job) = deficit_bytes job) →
  ∀ x, deficit_of s' x = deficit_of s x.
Proof.
  intros Hj Hf x. unfold deficit_of. rewrite Hj. destruct (decide (x = id)) as [->|].
  - rewrite lookup_alter_eq. destruct (jobs s !! id); [|done]. cbn. apply Hf.
  - by rewrite lookup_alter_ne.
Qed.

Lemma try_spec id s :
  fair_ok s → is_waiting s id = true →
  ∃ s' granted, try_acquire id s = Some (s', granted) ∧ fair_ok s'
  ∧ fair_active s' = (fair_active s || granted) ∧ (fair_active s = true → granted = false)
  ∧ (∀ j, is_waiting s j = true → (granted = true → j ≠ id) → moves s s' (if granted then Some id else None) j)
  ∧ (fair_active s = false → granted = true ∨ ∃ chosen, selected s' = Some chosen).
Proof.
  intros Hok Hid. unfold try_acquire. destruct (offer_spec s Hok) as (t & -> & [Hokt Ha Hw Hsel Hturns]). cbn [mbind option_bind].
  destruct (fair_active t) eqn:Hat; cbn [negb andb].
  { exists t, false. split_and!; [done|done|by rewrite <-Ha|done| |congruence].
    intros j Hj _. apply moves_same; [done|done|apply Hw|]. intros k. by apply Hturns. }
  case_bool_decide as Hs; cycle 1.
  { exists t, false. split_and!; [done|done|by rewrite Hat, <-Ha|done| |intros Hf; right; by apply (Hsel id)].
    intros j Hj _. apply moves_same; [done|done|apply Hw|]. intros k. by apply Hturns. }
  eexists _, true. split; [done|]. set (s' := MkFairState _ _ _ _).
  destruct (fair_selected t Hokt id Hs) as [Hwt Hnot].
  assert (∀ x, is_waiting s' x = if bool_decide (x = id) then false else is_waiting t x) as Hw'.
  { intros x. rewrite (is_waiting_alter t s' id x _ eq_refl). case_bool_decide; [|done]. by destruct (jobs t !! id). }
  split_and!; [|by rewrite orb_true_r|congruence| |by left].
  - split; cbn [s' order selected fair_active jobs]; [apply Hokt| |done| | |done].
    + intros x Hx. rewrite Hw', bool_decide_false by congruence. by apply Hokt.
    + intros x. rewrite Hw'. case_bool_decide; [done|]. intros Hx. destruct (fair_waiting t Hokt x Hx); [by left|congruence].
    + intros x job Hx. apply lookup_alter_Some in Hx as [(-> & job' & Hx & ->)|[_ Hx]]; [|by eapply (fair_registered t)].
      cbn. by eapply (fair_registered t).
  - intros j Hj Hne. specialize (Hne eq_refl). split; [by rewrite Hw', bool_decide_false, Hw|]. intros k Hk.
    etrans; [|by apply (Hturns j k Hj)]. unfold turns_ahead. cbn [s' selected order]. rewrite Hs.
    rewrite (bool_decide_false (None = _)), (bool_decide_false (Some id = Some j)), (bool_decide_false (None = Some k)) by congruence.
    rewrite (deficit_of_alter t s' _ id eq_refl) by done.
    case_bool_decide as Hik; cbn [orb]; [|lia]. injection Hik as ->. rewrite before_absent by done. lia.
Qed.

Lemma register_spec id s s' :
  fair_ok s → register_job id s = Ok s' →
  fair_ok s' ∧ fair_active s' = fair_active s ∧ ∀ j, is_waiting s j = true → moves s s' None j.
Proof.
  intros Hok. unfold register_job. destruct (registered _) eqn:Hr; [done|]. intros [= <-].
  assert (jobs s !! id = None) as Hnone.
  { destruct (jobs s !! id) as [job|] eqn:Hj; [|done]. cbn in Hr. by rewrite (fair_registered s Hok id job Hj) in Hr. }
  rewrite Hnone. cbn [default deficit_bytes waiting fair_job_default]. set (s' := set_job _ _ _).
  assert (∀ x, is_waiting s' x = is_waiting s x) as Hw.
  { intros x. unfold is_waiting. cbn. destruct (decide (x = id)) as [->|]; [by rewrite lookup_insert_eq, Hnone|by rewrite lookup_insert_ne]. }
  split_and!; [|done|].
  - split; cbn [s' set_job order selected fair_active jobs]; [apply Hok| | | | |apply Hok].
    + intros x. rewrite Hw. apply Hok.
    + intros x. rewrite Hw. apply Hok.
    + intros x. rewrite Hw. apply Hok.
    + intros x job [[<- <-]|[_ Hx]]%lookup_insert_Some; [done|by eapply (fair_registered s)].
  - intros j Hj. apply moves_same; [done|done|apply Hw|]. intros k _. apply turns_ahead_le; [done|done|].
    unfold deficit_of. cbn. rewrite lookup_insert_ne; [done|]. intros <-. unfold is_waiting in Hj. by rewrite Hnone in Hj.
Qed.

Lemma enter_spec id s s' :
  fair_ok s → enter id s = Ok s' →
  fair_ok s' ∧ fair_active s' = fair_active s ∧ ∀ j, is_waiting s j = true → moves s s' None j.
Proof.
  intros Hok. unfold enter. destruct (jobs s !! id) as [job|] eqn:Hj; [|done].
  destruct (negb (registered job)); [done|]. destruct (waiting job) eqn:Hwait; [done|]. intros [= <-].
  set (s' := set_order _ _).
  assert (is_waiting s id = false) as Hid by (unfold is_waiting; by rewrite Hj).
  assert (∀ x, is_waiting s' x = if bool_decide (x = id) then true else is_waiting s x) as Hw.
  { intros x. unfold is_waiting. cbn. case_bool_decide; [subst; by rewrite lookup_insert_eq|by rewrite lookup_insert_ne]. }
  assert (id ∉ order s) as Hnot by (intros Hin%(fair_order s Hok); congruence).
  split_and!; [|done|].
  - split; cbn [s' set_job set_order order selected fair_active jobs].
    + apply NoDup_app. split_and!; [apply Hok| |apply NoDup_singleton]. by intros x Hx ->%list_elem_of_singleton.
    + intros x. rewrite Hw, elem_of_app, list_elem_of_singleton. case_bool_decide; [done|].
      intros [Hx|]; [by apply Hok|done].
    + intros x Hx. destruct (fair_selected s Hok x Hx) as [Hwx Hx']. rewrite Hw, elem_of_app, list_elem_of_singleton.
      case_bool_decide; [subst; congruence|]. naive_solver.
    + intros x. rewrite Hw, elem_of_app, list_elem_of_singleton. case_bool_decide; [tauto|].
      intros Hx. destruct (fair_waiting s Hok x Hx); tauto.
    + intros x job' [[<- <-]|[_ Hx]]%lookup_insert_Some; [|by eapply (fair_registered s)]. cbn. by eapply (fair_registered s).
    + apply Hok.
  - intros j Hjw. assert (j ≠ id) as Hne by congruence.
    apply moves_same; [done|done|by rewrite Hw, bool_decide_false|]. intros k _.
    unfold turns_ahead. cbn [s' set_order set_job selected order].
    assert (deficit_of s' j = deficit_of s j) as -> by (unfold deficit_of; cbn; by rewrite lookup_insert_ne).
    destruct (fair_waiting s Hok j Hjw) as [Hin|Hsel]; [by rewrite before_app|by rewrite Hsel, !bool_decide_true].
Qed.

Lemma release_spec id charged s :
  fair_ok s → fair_active s = true →
  fair_ok (release id charged s) ∧ fair_active (release id charged s) = false
  ∧ ∀ j, is_waiting s j = true → j ≠ id → moves s (release id charged s) None j.
Proof.
  intros Hok Ha. set (s' := release id charged s).
  assert (∀ x, is_waiting s' x = is_waiting s x) as Hw.
  { intros x. rewrite (is_waiting_alter s s' id x _ eq_refl). case_bool_decide; [|done]. subst. done. }
  split_and!; [|done|].
  - split; cbn [s' release order selected fair_active jobs]; [apply Hok| | | | |done].
    + intros x. rewrite Hw. apply Hok.
    + intros x. rewrite Hw. apply Hok.
    + intros x. rewrite Hw. apply Hok.
    + intros x job Hx. apply lookup_alter_Some in Hx as [(-> & job' & Hx & ->)|[_ Hx]]; cbn; by eapply (fair_registered s).
  - intros j Hj Hne. apply moves_same; [done|done|apply Hw|]. intros k _. apply turns_ahead_le; [done|done|].
    unfold deficit_of. cbn. by rewrite lookup_alter_ne.
Qed.

(** A job that stops waiting, given up or unregistered. *)
Lemma forget_spec id s s' :
  fair_ok s → order s' = order (forget id s) → selected s' = selected (forget id s) → fair_active s' = fair_active s →
  (∀ x job, jobs s' !! x = Some job → registered job = true) →
  (∀ x, x ≠ id → jobs s' !! x = jobs s !! x) → is_waiting s' id = false →
  fair_ok s' ∧ ∀ j, is_waiting s j = true → j ≠ id → moves s s' None j.
Proof.
  intros Hok Ho Hs Ha Hreg Hjobs Hid.
  assert (∀ x, x ≠ id → is_waiting s' x = is_waiting s x) as Hw by (intros x Hx; unfold is_waiting; by rewrite Hjobs).
  assert (order s' = List.filter (λ queued, negb (bool_decide (queued = id))) (order s)) as Ho'.
  { rewrite Ho. unfold forget. by case_bool_decide. }
  assert (selected s' = if bool_decide (selected s = Some id) then None else selected s) as Hs'.
  { rewrite Hs. unfold forget. by case_bool_decide. }
  assert (∀ x, x ∈ order s' ↔ x ∈ order s ∧ x ≠ id) as Hmem.
  { intros x. rewrite Ho', elem_of_filter_list. cbv beta. destruct (bool_decide_reflect (x = id)); naive_solver. }
  split.
  - split.
    + rewrite Ho'. apply NoDup_filter_list, Hok.
    + intros x [Hx Hne]%Hmem. rewrite Hw by done. by apply Hok.
    + intros x. rewrite Hs', Hmem. case_bool_decide; [done|]. intros Hx. rewrite Hw by congruence.
      destruct (fair_selected s Hok x Hx). naive_solver.
    + intros x Hx. destruct (decide (x = id)) as [->|Hne]; [congruence|]. rewrite Hw in Hx by done. rewrite Hmem, Hs'.
      destruct (fair_waiting s Hok x Hx) as [|Hsel]; [by left|right]. rewrite bool_decide_false by congruence. done.
    + done.
    + rewrite Ha, Hs'. intros Hact. case_bool_decide; [done|]. by apply Hok.
  - intros j Hj Hne. apply moves_same; [done|done|by apply Hw|]. intros k _. unfold turns_ahead.
    assert (deficit_of s' j = deficit_of s j) as -> by (unfold deficit_of; by rewrite Hjobs).
    pose proof (visits_positive (deficit_of s j)). rewrite Hs', Ho'. clear Hs' Ho' Hmem Hs Ho.
    pose proof (before_forget k j id (order s) (not_eq_sym Hne)) as Hbefore.
    destruct (decide (selected s = Some id)) as [Hsid|Hsid].
    + rewrite (bool_decide_true (selected s = Some id)), Hsid by done.
      rewrite !(bool_decide_false (None = _)), (bool_decide_false (Some id = Some j)) by congruence. cbn [orb].
      destruct (before k j (List.filter _ _)); [rewrite Hbefore by done|]; repeat case_bool_decide; cbn; repeat case_match; lia.
    + rewrite (bool_decide_false (selected s = Some id)) by done. case_bool_decide; [lia|].
      destruct (before k j (List.filter _ _)); [rewrite Hbefore by done|]; repeat case_bool_decide; cbn; repeat case_match; lia.
Qed.

Lemma length_drop_permit id held : id ∈ held → length held = S (length (drop_permit id held)).
Proof.
  induction held as [|x held IH]; [by intros ?%elem_of_nil|]. cbn [drop_permit]. intros Hid. case_bool_decide; [done|].
  cbn. rewrite <-IH; [done|]. set_solver.
Qed.

Lemma elem_of_drop_permit j id held : j ∈ drop_permit id held → j ∈ held.
Proof.
  induction held as [|x held IH]; [done|]. cbn [drop_permit]. case_bool_decide; set_solver.
Qed.

(** A turn that ends. *)
Lemma end_turn_spec id charged sys :
  system_ok sys → id ∈ permits sys →
  let sys' := MkFairSystem (release id charged (fair_state sys)) (drop_permit id (permits sys)) in
  system_ok sys' ∧ ∀ j, is_waiting (fair_state sys) j = true → j ∉ permits sys →
    moves (fair_state sys) (fair_state sys') None j.
Proof.
  intros [Hok Hlen] Hid. pose proof (length_drop_permit _ _ Hid) as Hdrop.
  destruct (fair_active (fair_state sys)) eqn:Ha; [|lia].
  destruct (release_spec id charged _ Hok Ha) as (Hok' & Ha' & Hmoves). split.
  - split; [done|]. cbn [fair_state permits]. rewrite Ha'. lia.
  - intros j Hj Hnot. apply Hmoves; [done|]. by intros ->.
Qed.

(** Whether an event ends a job's wait from outside. *)
Definition gives_up (e : FairEvent) (j : string) : bool :=
  match e with CancelWait id | DropRegistration id => bool_decide (id = j) | _ => false end.

Lemma fair_event_spec e sys sys' granted :
  system_ok sys → fair_event e sys = Some (sys', granted) →
  system_ok sys'
  ∧ ∀ j, is_waiting (fair_state sys) j = true → j ∉ permits sys → granted ≠ Some j → gives_up e j = false →
    (j ∉ permits sys') ∧ moves (fair_state sys) (fair_state sys') granted j.
Proof.
  intros [Hok Hlen] He.
  assert (∀ j, is_waiting (fair_state sys) j = true → moves (fair_state sys) (fair_state sys) None j) as Hstay
    by (intros j Hj; by apply moves_same).
  destruct e as [id|id|id|id|id charged|id|id]; cbn [fair_event gives_up] in He |- *.
  - destruct (register_job id (fair_state sys)) as [s'|] eqn:Hr; injection He as <- <-; [|split; [by split|naive_solver]].
    destruct (register_spec id _ _ Hok Hr) as (Hok' & Ha & Hm). split; [split; [done|by cbn; rewrite Ha]|naive_solver].
  - destruct (enter id (fair_state sys)) as [s'|] eqn:Hr; injection He as <- <-; [|split; [by split|naive_solver]].
    destruct (enter_spec id _ _ Hok Hr) as (Hok' & Ha & Hm). split; [split; [done|by cbn; rewrite Ha]|naive_solver].
  - destruct (is_waiting (fair_state sys) id) eqn:Hw; [|done].
    destruct (try_spec id _ Hok Hw) as (s' & g & Ht & Hok' & Ha & Hidle & Hm & _). rewrite Ht in He. cbn in He.
    destruct g; injection He as <- <-; (split; [split; [done|cbn [permits fair_state]; rewrite Ha]|]).
    + destruct (fair_active (fair_state sys)); [by specialize (Hidle eq_refl)|]. cbn. lia.
    + intros j Hj Hp Hg _. assert (j ≠ id) by congruence. split; [cbn; set_solver|by apply Hm].
    + by rewrite orb_false_r.
    + intros j Hj Hp _ _. split; [done|by apply Hm].
  - destruct (is_waiting (fair_state sys) id) eqn:Hw; [|done]. injection He as <- <-.
    destruct (forget_spec id (fair_state sys) (cancel_waiter id (fair_state sys)) Hok) as [Hok' Hm]; try done.
    + cbn. unfold forget. by case_bool_decide.
    + intros x job Hx. unfold cancel_waiter in Hx. cbn [jobs] in Hx. assert (jobs (forget id (fair_state sys)) = jobs (fair_state sys)) as Hj
        by (unfold forget; by case_bool_decide). rewrite Hj in Hx.
      apply lookup_alter_Some in Hx as [(-> & job' & Hx & ->)|[_ Hx]]; cbn; by eapply (fair_registered (fair_state sys)).
    + intros x Hx. unfold cancel_waiter. cbn [jobs]. rewrite lookup_alter_ne by done. unfold forget. by case_bool_decide.
    + unfold is_waiting, cancel_waiter. cbn [jobs]. rewrite lookup_alter_eq. by destruct (jobs _ !! id).
    + split; [split; [done|]|].
      * cbn. rewrite Hlen. unfold forget. by case_bool_decide.
      * intros j Hj Hp _ Hg%bool_decide_eq_false. split; [done|]. apply Hm; congruence.
  - case_bool_decide as Hid; [|done]. injection He as <- <-.
    destruct (end_turn_spec id (Z.max charged 1) sys (conj Hok Hlen) Hid) as [Hok' Hm].
    split; [done|]. intros j Hj Hp _ _. split; [by intros ?%elem_of_drop_permit|by apply Hm].
  - case_bool_decide as Hid; [|done]. injection He as <- <-.
    destruct (end_turn_spec id 0 sys (conj Hok Hlen) Hid) as [Hok' Hm].
    split; [done|]. intros j Hj Hp _ _. split; [by intros ?%elem_of_drop_permit|by apply Hm].
  - destruct (is_some_and _ registered) eqn:Hreg; [|done]. injection He as <- <-.
    assert (jobs (forget id (fair_state sys)) = jobs (fair_state sys)) as Hfj by (unfold forget; by case_bool_decide).
    destruct (forget_spec id (fair_state sys) (drop_registration id (fair_state sys)) Hok) as [Hok' Hm]; try done.
    + cbn. unfold forget. by case_bool_decide.
    + intros x job Hx. unfold drop_registration in Hx. cbn [jobs] in Hx. rewrite Hfj in Hx. apply lookup_delete_Some in Hx as [_ Hx].
      by eapply (fair_registered (fair_state sys)).
    + intros x Hx. unfold drop_registration. cbn [jobs]. by rewrite Hfj, lookup_delete_ne.
    + unfold is_waiting, drop_registration. cbn [jobs]. by rewrite lookup_delete_eq.
    + split; [split; [done|]|].
      * cbn. rewrite Hlen. unfold forget. by case_bool_decide.
      * intros j Hj Hp _ Hg%bool_decide_eq_false. split; [done|]. apply Hm; congruence.
Qed.

Lemma fair_run_ok events sys sys' grants :
  system_ok sys → fair_run events sys = Some (sys', grants) → system_ok sys'.
Proof.
  revert sys grants. induction events as [|e events IH]; intros sys grants Hok; [by intros [= <- <-]|]. cbn [fair_run].
  destruct (fair_event e sys) as [[t g]|] eqn:He; [|done]. cbn.
  destruct (fair_run events t) as [[t' gs]|] eqn:Hrun; [|done]. cbn. intros [= <- <-].
  eapply IH; [|exact Hrun]. by eapply fair_event_spec.
Qed.

Lemma fair_start_ok : system_ok fair_start.
Proof.
  split; [|done]. split; cbn; [constructor| |done| |done|done].
  - by intros id ?%elem_of_nil.
  - intros id Hid. unfold is_waiting in Hid. cbn in Hid. by rewrite lookup_empty in Hid.
Qed.

(** C13: one turn at a time, and always a next one. Whatever jobs come and go,
    wait, give up, finish or are dropped in the middle of a turn, at most one
    permit is held; a waiting job's attempt always ends, since the search for
    the next job does, however much the jobs owe; and while no permit is held
    it gets the turn, or leaves one selected whose own attempt then gets it:
    the scheduler never stalls with a job waiting. *)
Theorem turns_go_on events sys grants
    (Hrun : fair_run events fair_start = Some (sys, grants)) :
  (length (permits sys) ≤ 1)%nat
  ∧ ∀ id, is_waiting (fair_state sys) id = true →
    ∃ sys1 g, fair_event (Try id) sys = Some (sys1, g)
    ∧ (permits sys = [] → g = Some id ∨ ∃ next sys2, fair_event (Try next) sys1 = Some (sys2, Some next)).
Proof.
  pose proof (fair_run_ok _ _ _ _ fair_start_ok Hrun) as [Hok Hlen].
  split; [destruct (fair_active _); lia|]. intros id Hid. cbn [fair_event]. rewrite Hid.
  destruct (try_spec id _ Hok Hid) as (s' & g & -> & Hok' & Ha & _ & _ & Hnext). cbn.
  destruct g; eexists _, _; (split; [done|]); [by left|]. intros Hp. rewrite Hp in Hlen.
  destruct (fair_active (fair_state sys)) eqn:Hact; [done|]. right.
  destruct (Hnext eq_refl) as [|[next Hsel]]; [done|]. exists next.
  destruct (fair_selected s' Hok' next Hsel) as [Hw _]. cbn [fair_state]. rewrite Hw.
  unfold try_acquire, offer. rewrite Ha, Hsel. cbn. rewrite Ha. cbn. rewrite Hsel, bool_decide_true by done. by eexists.
Qed.

(** C12: no job is starved. While a job waits for its turn, any other job gets
    at most as many turns as the waiting job's debt is worth in quanta, and
    one: whatever arrives, finishes, is charged or gives up in the meantime.
    In particular a job that owes nothing is served before any other job is
    served twice. *)
Theorem waiting_is_bounded before_events sys0 grants0 events sys grants j k
    (Hstart : fair_run before_events fair_start = Some (sys0, grants0))
    (Hwait : is_waiting (fair_state sys0) j = true) (Hfree : j ∉ permits sys0)
    (Hrun : fair_run events sys0 = Some (sys, grants))
    (Hstill : j ∉ grants) (Hkeep : ∀ e, e ∈ events → gives_up e j = false) (Hjk : j ≠ k) :
  Z.of_nat (length (List.filter (λ id, bool_decide (id = k)) grants)) ≤ visits (deficit_of (fair_state sys0) j)
  ∧ (0 ≤ deficit_of (fair_state sys0) j → visits (deficit_of (fair_state sys0) j) = 1).
Proof.
  pose proof (fair_run_ok _ _ _ _ fair_start_ok Hstart) as Hok.
  split; cycle 1.
  { intros Hd. unfold visits. assert (- deficit_of (fair_state sys0) j / quantum_bytes ≤ 0); [|lia].
    apply Z.div_le_upper_bound; lia. }
  assert (turns_ahead (fair_state sys0) j k ≤ visits (deficit_of (fair_state sys0) j)) as Hinit.
  { unfold turns_ahead. pose proof (visits_positive (deficit_of (fair_state sys0) j)). repeat case_match; lia. }
  etrans; [|exact Hinit]. clear Hinit Hstart. revert sys0 grants Hok Hwait Hfree Hrun Hstill.
  induction events as [|e events IH]; intros sys0 grants Hok Hwait Hfree Hrun Hstill; cbn [fair_run] in Hrun.
  { injection Hrun as _ <-. cbn. apply turns_ahead_nonneg. }
  destruct (fair_event e sys0) as [[t g]|] eqn:He; [|done]. cbn in Hrun.
  destruct (fair_run events t) as [[t' gs]|] eqn:Hrest; [|done]. cbn in Hrun. injection Hrun as -> <-.
  destruct (fair_event_spec e _ _ _ Hok He) as [Hokt Hmoves].
  assert (g ≠ Some j ∧ j ∉ gs) as [Hg Hgs] by (destruct g; set_solver).
  destruct (Hmoves j Hwait Hfree Hg) as [Hfree' [Hwait' Hturns]]; [apply Hkeep; by left|]. specialize (Hturns k Hjk).
  assert (∀ e, e ∈ events → gives_up e j = false) as Hkeep' by (intros; apply Hkeep; by right).
  specialize (IH Hkeep' t gs Hokt Hwait' Hfree' Hrest Hgs).
  destruct g as [id|]; [|rewrite bool_decide_false in Hturns by done; lia]. cbn [List.filter].
  destruct (decide (id = k)) as [->|Hne].
  - rewrite bool_decide_true in Hturns |- * by done. cbn [length]. lia.
  - rewrite bool_decide_false in Hturns by congruence. rewrite bool_decide_false by done. lia.
Qed.

End scheduler.

(** ** A job in debt

    A job takes a turn worth five quanta and waits again; another takes one
    small turn after the other until the debt is worked off. *)

Definition debt_events : list FairEvent :=
  [Register "indebted"; Enter "indebted"; Try "indebted"; Register "other"; Enter "other"; Try "other";
   CompleteTurn "indebted" (5 * HISTORICAL_FAIR_COMMIT_QUANTUM_BYTES); Enter "indebted"].
Definition small_turn : list FairEvent := [Try "other"; CompleteTurn "other" 1; Enter "other"].
Definition small_turns : list FairEvent := small_turn ++ small_turn ++ small_turn ++ small_turn ++ small_turn.

Definition run_from (events : list FairEvent) (sys : FairSystem) : FairSystem * list string :=
  default (sys, []) (fair_run HISTORICAL_FAIR_COMMIT_QUANTUM_BYTES events sys).

Definition in_debt : FairSystem := (run_from debt_events fair_start).1.

Example debt_served : (run_from (small_turns ++ [Try "other"; Try "indebted"]) in_debt).2
  = ["other"; "other"; "other"; "other"; "other"; "indebted"].
Proof. vm_compute. reflexivity. Qed.

Lemma turns_go_on_witness :
  let sys := (run_from (debt_events ++ small_turn) fair_start).1 in
  (length (permits sys) ≤ 1)%nat ∧ is_waiting (fair_state sys) "indebted" = true.
Proof.
  cbv zeta. split; [|vm_compute; reflexivity].
  eapply (turns_go_on HISTORICAL_FAIR_COMMIT_QUANTUM_BYTES ltac:(done) (debt_events ++ small_turn) _
    (run_from (debt_events ++ small_turn) fair_start).2).
  vm_compute. reflexivity.
Defined.

Lemma waiting_is_bounded_witness :
  let served := List.filter (λ id, bool_decide (id = "other")) (run_from small_turns in_debt).2 in
  Z.of_nat (length served) ≤ visits HISTORICAL_FAIR_COMMIT_QUANTUM_BYTES (deficit_of (fair_state in_debt) "indebted")
  ∧ visits HISTORICAL_FAIR_COMMIT_QUANTUM_BYTES (deficit_of (fair_state in_debt) "indebted") = 5.
Proof.
  cbv zeta. split; [|vm_compute; reflexivity].
  eapply (waiting_is_bounded HISTORICAL_FAIR_COMMIT_QUANTUM_BYTES ltac:(done) debt_events in_debt
    (run_from debt_events fair_start).2 small_turns (run_from small_turns in_debt).1 _ "indebted" "other").
  - vm_compute. reflexivity.
  - vm_compute. reflexivity.
  - apply (bool_decide_unpack _). vm_compute. exact I.
  - vm_compute. reflexivity.
  - apply (bool_decide_unpack _). vm_compute. exact I.
  - intros e He. repeat (apply elem_of_cons in He as [->|He]; [reflexivity|]). by apply elem_of_nil in He.
  - done.
Defined.
