(* ===== verification/Cadence.v ===== *)
(** * Chains, their slots and their forks

    Models [crates/chain/src/lib.rs], [beacon.rs] and [op_stack.rs]: the
    cadence of a chain's slots, the beacon network's forks and digests, the
    op-stack network built from its registry config, chain entries and the
    registry's lookup. The TOML and YAML texts are read by third-party code
    and by a line reader that is not modelled, so entries, registry configs
    and the keys of a beacon config come in parsed; sha2 is a class. *)
From Stdlib Require Import ZArith Lia Strings.Byte Strings.Ascii.
From stdpp Require Import gmap strings list list_numbers fin_maps sorting pretty.
From S2P Require Import Prelude Bytes Chain Material Provenance Frame.

Inductive ChainError :=
  | InvalidEntry (message : string)
  | UnknownChain (name known : string)
  | UnsupportedChain (message : string).

Inductive Family := EthereumFamily | OpStackFamily | ArbitrumFamily.

#[export] Instance Family_eq_dec : EqDecision Family.
Proof. solve_decision. Defined.

Definition family_name (f : Family) : string :=
  match f with EthereumFamily => "ethereum" | OpStackFamily => "op-stack" | ArbitrumFamily => "arbitrum" end.

(** ** Slots *)

Record Cadence := MkCadence {
  genesis_time : Z;
  seconds : Z;
  first_block : option Z;
  fast_from : option Z;
}.

#[export] Instance Cadence_eq_dec : EqDecision Cadence.
Proof. solve_decision. Defined.

Module Cadence.

Definition FAST_SLOT_MS : Z := 200.

Definition first (c : Cadence) : Z := default 0 (first_block c).

(** The closure [legacy]. *)
Definition legacy (c : Cadence) (slot : Z) : Z :=
  sat_mul (sat_add (genesis_time c) (sat_mul (sat_sub slot (first c)) (seconds c))) 1000.

Definition slot_start_ms (c : Cadence) (slot : Z) : Z :=
  match fast_from c with
  | Some fast =>
      if fast <? slot then sat_add (legacy c fast) (sat_mul (slot - fast) FAST_SLOT_MS) else legacy c slot
  | None => legacy c slot
  end.

Definition slot_start (c : Cadence) (slot : Z) : Z := slot_start_ms c slot / 1000.

Definition slot_ms (c : Cadence) (slot : Z) : Z :=
  match fast_from c with
  | Some fast => if fast <=? slot then FAST_SLOT_MS else sat_mul (seconds c) 1000
  | None => sat_mul (seconds c) 1000
  end.

Definition slot_starting_at (c : Cadence) (timestamp : Z) : option Z :=
  if is_some_and (fast_from c) (λ fast, slot_start c fast <=? timestamp) then None
  else
    since ← checked_sub timestamp (genesis_time c);
    if since mod seconds c =? 0 then Some (first c + since / seconds c) else None.

Definition slot_at (c : Cadence) (timestamp : Z) : Z :=
  let legacy_slot := first c + sat_sub timestamp (genesis_time c) / seconds c in
  match fast_from c with
  | Some fast =>
      let start := slot_start_ms c fast in
      let now := sat_mul timestamp 1000 in
      if start <=? now then fast + (now - start) / FAST_SLOT_MS else legacy_slot
  | None => legacy_slot
  end.

Definition header_slot (c : Cadence) (number timestamp : Z) : option Z :=
  match first_block c with
  | Some first => if (first <=? number) && (slot_start c number =? timestamp) then Some number else None
  | None => slot_starting_at c timestamp
  end.

Definition next_slot_start_ms (c : Cadence) (number timestamp : Z) : Z :=
  match first_block c with
  | Some _ => slot_start_ms c (sat_add number 1)
  | None => sat_mul (sat_add timestamp (seconds c)) 1000
  end.

End Cadence.

(** ** Beacon networks *)

(** [sha2::Sha256::digest]. *)
Class Sha256 := sha256 : list byte → array 32.

Definition SLOTS_PER_EPOCH : Z := 32.
Definition FAR_FUTURE_EPOCH : Z := u64_max.

Record BeaconFork := MkBeaconFork {
  beacon_fork_name : string;
  fork_version : array 4;
  fork_epoch : Z;
}.

Record BeaconNetwork := MkBeaconNetwork {
  config_name : string;
  beacon_genesis_time : Z;
  seconds_per_slot : Z;
  genesis_validators_root : array 32;
  beacon_forks : list BeaconFork;
  max_blobs_per_block_electra : Z;
  blob_schedule : list (Z * Z);
}.

(** The keys of a [config.yaml], as its lines are read. *)
Record BeaconKeys := MkBeaconKeys {
  keys_config_name : option string;
  keys_seconds_per_slot : option Z;
  keys_max_blobs_electra : option Z;
  keys_versions : list (string * array 4);
  keys_epochs : list (string * Z);
  keys_blob_schedule : list (Z * Z);
}.

Module BeaconNetwork.

(** One version: its fork, unless it is named but not scheduled. *)
Definition fork_of (epochs : list (string * Z)) (forks : list BeaconFork) (version : string * array 4)
    : result ChainError (list BeaconFork) :=
  let '(name, version) := version in
  epoch ← (if bool_decide (name = "genesis") then Ok 0
           else ok_or (snd <$> List.find (λ e, bool_decide (e.1 = name)) epochs)
                  (InvalidEntry ("fork " +:+ name +:+ " has a version but no epoch")));
  if epoch =? FAR_FUTURE_EPOCH then Ok forks
  else Ok (forks ++ [MkBeaconFork (if bool_decide (name = "genesis") then "phase0" else name) version epoch]).

Definition from_keys (genesis_time : Z) (genesis_validators_root : array 32) (keys : BeaconKeys)
    : result ChainError BeaconNetwork :=
  forks ← fold_result (fork_of (keys_epochs keys)) [] (keys_versions keys);
  let forks := sort_by (λ a b, fork_epoch a <=? fork_epoch b) forks in
  if match forks with [] => true | fork :: _ => negb (bool_decide (beacon_fork_name fork = "phase0")) end
  then Err (InvalidEntry "beacon config has no genesis fork version")
  else
    config_name ← ok_or (keys_config_name keys) (InvalidEntry "missing CONFIG_NAME");
    seconds ← ok_or (seconds ← keys_seconds_per_slot keys; if 0 <? seconds then Some seconds else None)
      (InvalidEntry "missing SECONDS_PER_SLOT");
    Ok (MkBeaconNetwork config_name genesis_time seconds genesis_validators_root forks
      (default 0 (keys_max_blobs_electra keys)) (keys_blob_schedule keys)).

Definition cadence (n : BeaconNetwork) : Cadence :=
  MkCadence (beacon_genesis_time n) (seconds_per_slot n) None None.

Definition slot_start (n : BeaconNetwork) (slot : Z) : Z :=
  sat_add (beacon_genesis_time n) (sat_mul slot (seconds_per_slot n)).

Definition slot_starting_at (n : BeaconNetwork) (timestamp : Z) : option Z :=
  match checked_sub timestamp (beacon_genesis_time n) with
  | Some since => if since mod seconds_per_slot n =? 0 then Some (since / seconds_per_slot n) else None
  | None => None
  end.

Definition slot_at (n : BeaconNetwork) (timestamp : Z) : Z :=
  sat_sub timestamp (beacon_genesis_time n) / seconds_per_slot n.

Definition fork (n : BeaconNetwork) (name : string) : option BeaconFork :=
  List.find (λ fork, bool_decide (beacon_fork_name fork = name)) (beacon_forks n).

(** [None] is the panic of an empty list, which [from_keys] refuses. *)
Definition fork_at_epoch (n : BeaconNetwork) (epoch : Z) : option BeaconFork :=
  match List.find (λ fork, fork_epoch fork <=? epoch) (rev (beacon_forks n)) with
  | Some fork => Some fork
  | None => head (beacon_forks n)
  end.

(** [u64::to_le_bytes]. *)
Definition le_bytes (z : Z) : list byte := rev (be_bytes 8 z).

Definition xor_bytes (a b : list byte) : list byte :=
  zip_with (λ x y, byte_of_Z (Z.lxor (byte_Z x) (byte_Z y))) a b.

(** The blob parameters in force at an epoch. *)
Definition blob_parameters (n : BeaconNetwork) (epoch : Z) : Z * Z :=
  let electra := match fork n "electra" with Some fork => fork_epoch fork | None => 0 end in
  default (electra, max_blobs_per_block_electra n)
    (List.find (λ entry, entry.1 <=? epoch) (rev (blob_schedule n))).

Definition fork_digest `{!Sha256} (n : BeaconNetwork) (slot : Z) : option (list byte) :=
  let epoch := slot / SLOTS_PER_EPOCH in
  active ← fork_at_epoch n epoch;
  let fork_data := bytes_of (fork_version active) ++ replicate 28 x00 ++ bytes_of (genesis_validators_root n) in
  let digest := bytes_of (sha256 fork_data) in
  let digest :=
    if is_some_and (fork n "fulu") (λ fulu, fork_epoch fulu <=? epoch) then
      let '(parameter_epoch, maximum_blobs) := blob_parameters n epoch in
      xor_bytes digest (bytes_of (sha256 (le_bytes parameter_epoch ++ le_bytes maximum_blobs)))
    else digest in
  Some (take 4 digest).

End BeaconNetwork.

(** ** Op-stack networks *)

Definition EXECUTION_FORKS : list string :=
  ["regolith"; "canyon"; "ecotone"; "fjord"; "granite"; "holocene"; "isthmus"; "jovian"; "karst";
   "azul"; "beryl"; "cobalt"; "denim"].
Definition CONSENSUS_ONLY_FORKS : list string := ["delta"].

Record OpStackNetwork := MkOpStack {
  block_time : Z;
  op_first_block : Z;
  first_block_time : Z;
  op_forks : list (string * Z);
  block_forks : list (string * Z);
  sequencer_signer : Address;
  system_config : Address;
  consensus_bootnodes : list string;
}.

Record OpStackEntry := MkOpStackEntry {
  entry_sequencer_signer : Address;
  entry_consensus_bootnodes : list string;
  entry_block_forks : gmap string Z;
}.

(** A parsed registry config; a hard fork's value is its [as_integer]. *)
Record RegistryChain := MkRegistryChain {
  registry_chain_id : Z;
  registry_block_time : Z;
  hardforks : gmap string (option Z);
  genesis_l2_time : Z;
  genesis_l2_hash : array 32;
  genesis_l2_number : Z;
  registry_system_config : Address;
}.

(** The byte order of [String], which orders a [BTreeMap]. *)
Definition string_cmp (a b : string) : comparison := bytes_cmp (string_bytes a) (string_bytes b).

#[export] Instance string_comparator : Comparator string_cmp.
Proof. apply (on_comparator string_bytes bytes_cmp _). Qed.
#[export] Instance string_eq_comparator : EqComparator string_cmp.
Proof. intros a b H%(cmp_eq (cmp:=bytes_cmp)). by apply string_bytes_inj. Qed.

(** [str::strip_suffix]. *)
Definition strip_suffix (suffix s : string) : option string :=
  let n := (String.length s - String.length suffix)%nat in
  if bool_decide (String.substring 0 n s +:+ suffix = s) then Some (String.substring 0 n s) else None.

Module OpStackNetwork.

(** One hard fork of the registry. *)
Definition read_fork (forks : list (string * Z)) (entry : string * option Z)
    : result ChainError (list (string * Z)) :=
  let '(key, value) := entry in
  match strip_suffix "_time" key with
  | None => Ok forks
  | Some name =>
      if bool_decide (name ∈ CONSENSUS_ONLY_FORKS) then Ok forks
      else
        name ← ok_or (List.find (λ known, bool_decide (known = name)) EXECUTION_FORKS)
          (InvalidEntry ("unknown op-stack fork " +:+ name));
        timestamp ← ok_or (value ← value; if 0 <=? value then Some value else None)
          (InvalidEntry (key +:+ " is not a timestamp"));
        Ok (forks ++ [(name, timestamp)])
  end.

Definition read_block_fork (forks : list (string * Z)) (entry : string * Z)
    : result ChainError (list (string * Z)) :=
  let '(name, block) := entry in
  known ← ok_or (List.find (λ known, bool_decide (known = name)) ["berlin"; "bedrock"])
    (InvalidEntry ("unknown block fork " +:+ name));
  Ok (forks ++ [(known, block)]).

Definition from_registry (chain_id : Z) (entry : OpStackEntry) (registry : RegistryChain)
    : result ChainError OpStackNetwork :=
  if negb (registry_chain_id registry =? chain_id)
  then Err (InvalidEntry ("registry config is for chain " +:+ pretty (registry_chain_id registry) +:+ ", not "
                          +:+ pretty chain_id))
  else if registry_block_time registry =? 0 then Err (InvalidEntry "block_time must be positive")
  else
    forks ← fold_result read_fork [] (map_entries (cmp_le string_cmp) (hardforks registry));
    let forks := sort_by (λ a b, a.2 <=? b.2) forks in
    block_forks ← fold_result read_block_fork [] (map_entries (cmp_le string_cmp) (entry_block_forks entry));
    if bool_decide (genesis_l2_hash registry = array_fill 32 x00)
    then Err (InvalidEntry "genesis l2 hash is zero")
    else
      Ok (MkOpStack (registry_block_time registry) (genesis_l2_number registry) (genesis_l2_time registry) forks
        block_forks (entry_sequencer_signer entry) (registry_system_config registry)
        (entry_consensus_bootnodes entry)).

Definition activation (n : OpStackNetwork) (fork : string) : option Z :=
  snd <$> List.find (λ x, bool_decide (x.1 = fork)) (op_forks n).

(** [u64::div_ceil]. *)
Definition div_ceil (a b : Z) : Z := a / b + (if 0 <? a mod b then 1 else 0).

Definition denim_block (n : OpStackNetwork) : option Z :=
  denim ← activation n "denim";
  Some (op_first_block n + div_ceil (sat_sub denim (first_block_time n)) (block_time n)).

Definition cadence (n : OpStackNetwork) : Cadence :=
  MkCadence (first_block_time n) (block_time n) (Some (op_first_block n)) (denim_block n).

End OpStackNetwork.

(** ** Chain entries *)

(** [url::Url], kept as its text. *)
Abbreviation Url := string.

Record ExecutionNetwork := MkExecutionNetwork {
  dns_tree : option string;
  bootnodes : list string;
  discv4 : bool;
  discv5_protocol_id : option string;
}.

Record ChainDefaults := MkChainDefaults {
  beacon_endpoints : list Url;
  checkpoint_providers : list Url;
  history_sources : list string;
  rpc_endpoints : list Url;
}.

Inductive DatasetLayout := AwsEthereumV1 | SonarxEvmV1.

Record PublicDataset := MkPublicDataset {
  layout : DatasetLayout;
  dataset_prefix : string;
  dataset_first_block : Z;
  chunk_blocks : option Z;
}.

Inductive GameClaims := OutputRoots | SuperRoots.

Inductive L1Anchor :=
  | DisputeGames (factory registry : Address) (game_type : Z) (claims : GameClaims)
  | NitroRollup (rollup : Address).

Record SequencerFeed := MkSequencerFeed {
  feed_url : Url;
  feed_signer : Address;
  feed_first_block : Z;
}.

Record Chain := MkChain {
  chain_name : string;
  aliases : list string;
  family : Family;
  chain_chain_id : Z;
  genesis_hash : array 32;
  merge_block : option Z;
  execution : ExecutionNetwork;
  beacon : option BeaconNetwork;
  op_stack : option OpStackNetwork;
  public_dataset : option PublicDataset;
  l1_anchor : option L1Anchor;
  sequencer_feed : option SequencerFeed;
  chain_defaults : ChainDefaults;
}.

(** A parsed entry file; [entry_beacon] is its genesis time and validators
    root. *)
Record EntryFile := MkEntryFile {
  entry_name : string;
  entry_aliases : list string;
  entry_family : Family;
  entry_chain_id : Z;
  entry_genesis_hash : array 32;
  entry_merge_block : option Z;
  entry_execution : ExecutionNetwork;
  entry_beacon : option (Z * array 32);
  entry_op_stack : option OpStackEntry;
  entry_public_dataset : option PublicDataset;
  entry_l1_anchor : option L1Anchor;
  entry_sequencer_feed : option SequencerFeed;
  entry_defaults : ChainDefaults;
}.

(** [char::to_ascii_lowercase], on bytes. *)
Definition ascii_lower (b : byte) : byte :=
  if (65 <=? byte_Z b) && (byte_Z b <=? 90) then byte_of_Z (byte_Z b + 32) else b.
Definition eq_ignore_ascii_case (a b : string) : bool :=
  bool_decide (ascii_lower <$> string_bytes a = ascii_lower <$> string_bytes b).

Section chain_entry.
(** The readers of the three texts. *)
Context (parse_entry : string → result string EntryFile)
  (parse_registry : string → result string RegistryChain)
  (parse_keys : string → result ChainError BeaconKeys).

Definition entry_network (entry : EntryFile) (registry : option string) : result ChainError (option OpStackNetwork) :=
  match entry_op_stack entry, registry with
  | Some op_stack, Some registry =>
      registry ← map_err (λ error, InvalidEntry ("superchain registry config: " +:+ error)) (parse_registry registry);
      Some <$> OpStackNetwork.from_registry (entry_chain_id entry) op_stack registry
  | None, None =>
      if negb (bool_decide (entry_family entry = OpStackFamily)) then Ok None
      else Err (InvalidEntry (entry_name entry +:+ " needs an [op_stack] section and its registry config"))
  | _, _ => Err (InvalidEntry (entry_name entry +:+ " needs an [op_stack] section and its registry config"))
  end.

Definition entry_beacon_network (entry : EntryFile) (config : option string) : result ChainError (option BeaconNetwork) :=
  match entry_beacon entry, config with
  | Some (genesis_time, root), Some yaml =>
      keys ← parse_keys yaml;
      Some <$> BeaconNetwork.from_keys genesis_time root keys
  | None, None => Ok None
  | Some _, None => Err (InvalidEntry (entry_name entry +:+ " has a [beacon] section but no beacon config"))
  | None, Some _ => Err (InvalidEntry (entry_name entry +:+ " has a beacon config but no [beacon] section"))
  end.

Definition anchor_settles (anchor : option L1Anchor) (f : Family) : bool :=
  match anchor, f with
  | None, _ => true
  | Some (DisputeGames _ _ _ _), OpStackFamily => true
  | Some (NitroRollup _), ArbitrumFamily => true
  | Some _, _ => false
  end.

Definition from_entry (entry : string) (upstream : option string) : result ChainError Chain :=
  entry ← map_err InvalidEntry (parse_entry entry);
  let '(beacon_config, registry) := match entry_family entry with
    | EthereumFamily => (upstream, None)
    | OpStackFamily => (None, upstream)
    | ArbitrumFamily => (None, None)
    end in
  op_stack ← entry_network entry registry;
  beacon ← entry_beacon_network entry beacon_config;
  if negb (anchor_settles (entry_l1_anchor entry) (entry_family entry))
  then Err (InvalidEntry (entry_name entry +:+ ": that l1_anchor kind does not settle "
                          +:+ family_name (entry_family entry) +:+ " chains"))
  else if is_some_and (entry_sequencer_feed entry) (λ _, true) && negb (bool_decide (entry_family entry = ArbitrumFamily))
  then Err (InvalidEntry (entry_name entry +:+ ": only Nitro chains publish a sequencer feed"))
  else
    Ok (MkChain (entry_name entry) (entry_aliases entry) (entry_family entry) (entry_chain_id entry)
      (entry_genesis_hash entry) (entry_merge_block entry) (entry_execution entry) beacon op_stack
      (entry_public_dataset entry) (entry_l1_anchor entry) (entry_sequencer_feed entry) (entry_defaults entry)).

End chain_entry.

Definition chain_cadence (c : Chain) : result ChainError Cadence :=
  match beacon c, op_stack c with
  | Some beacon, _ => Ok (BeaconNetwork.cadence beacon)
  | None, Some op_stack => Ok (OpStackNetwork.cadence op_stack)
  | None, None => Err (UnsupportedChain (chain_name c +:+ " has no whole-second block cadence"))
  end.

Definition answers_to (c : Chain) (name : string) : bool :=
  eq_ignore_ascii_case (chain_name c) name || existsb (λ alias, eq_ignore_ascii_case alias name) (aliases c).

Definition chain_beacon (c : Chain) : result ChainError BeaconNetwork :=
  ok_or (beacon c) (UnsupportedChain (chain_name c +:+ " has no beacon chain")).

Definition registry_names (chains : list Chain) : list string := chain_name <$> chains.

(** [ChainRegistry::get]. *)
Definition registry_get (chains : list Chain) (name : string) : result ChainError Chain :=
  ok_or (List.find (λ c, answers_to c name) chains)
    (UnknownChain name (String.concat ", " (registry_names chains))).

(** ** What a cadence promises *)

(** A cadence that can be used: its slots have a length, its fast slots come
    after its first, and no start of a slot up to [limit] exceeds the width. *)
Record cadence_ok (limit : Z) (c : Cadence) : Prop := {
  ok_genesis : 0 ≤ genesis_time c;
  ok_seconds : 0 < seconds c;
  ok_first : 0 ≤ Cadence.first c;
  ok_fast fast : fast_from c = Some fast → Cadence.first c ≤ fast ≤ limit;
  ok_width : (genesis_time c + limit * seconds c) * 1000 + limit * 200 ≤ u64_max;
}.

Section cadence.
Context (c : Cadence) (limit : Z) (Hok : cadence_ok limit c).

Lemma legacy_exact slot : Cadence.first c ≤ slot ≤ limit →
  Cadence.legacy c slot = (genesis_time c + (slot - Cadence.first c) * seconds c) * 1000.
Proof.
  intros Hs. destruct Hok as [Hg Hsec Hf _ Hw]. unfold Cadence.legacy.
  assert (0 ≤ (slot - Cadence.first c) * seconds c ≤ limit * seconds c) by nia.
  replace (sat_sub slot (Cadence.first c)) with (slot - Cadence.first c) by uints. uints.
Qed.

(** The start of a slot, in exact arithmetic. *)
Definition exact_start (slot : Z) : Z :=
  match fast_from c with
  | Some fast =>
      if fast <? slot then (genesis_time c + (fast - Cadence.first c) * seconds c) * 1000 + (slot - fast) * 200
      else (genesis_time c + (slot - Cadence.first c) * seconds c) * 1000
  | None => (genesis_time c + (slot - Cadence.first c) * seconds c) * 1000
  end.

Lemma slot_start_exact slot : Cadence.first c ≤ slot ≤ limit → Cadence.slot_start_ms c slot = exact_start slot.
Proof.
  intros Hs. unfold Cadence.slot_start_ms, exact_start.
  destruct (fast_from c) as [fast|] eqn:Hf; [|by apply legacy_exact].
  pose proof (ok_fast _ _ Hok fast Hf). destruct (Z.ltb_spec fast slot); [|by apply legacy_exact].
  rewrite legacy_exact by lia. destruct Hok as [Hg Hsec Hf0 _ Hw]. unfold Cadence.FAST_SLOT_MS.
  assert (0 ≤ (fast - Cadence.first c) * seconds c ≤ limit * seconds c) by nia. uints.
Qed.

(** The next slot starts when this one has lasted. *)
Lemma slot_length slot : Cadence.first c ≤ slot → slot + 1 ≤ limit →
  Cadence.slot_start_ms c (slot + 1) = Cadence.slot_start_ms c slot + Cadence.slot_ms c slot.
Proof.
  intros Hs Hl. rewrite !slot_start_exact by lia. destruct Hok as [Hg Hsec Hf0 Hfast Hw].
  assert (sat_mul (seconds c) 1000 = seconds c * 1000) as Hsat by (assert (1 ≤ limit) by lia; uints; nia).
  unfold exact_start, Cadence.slot_ms, Cadence.FAST_SLOT_MS. rewrite Hsat.
  destruct (fast_from c) as [fast|]; [|lia].
  destruct (Z.ltb_spec fast (slot + 1)), (Z.ltb_spec fast slot), (Z.leb_spec fast slot); try lia.
  all: assert (slot = fast) as -> by lia; lia.
Qed.

(** The slot in progress at a second has started and the next has not. *)
Lemma slot_at_in_progress timestamp : genesis_time c ≤ timestamp → timestamp * 1000 ≤ u64_max →
  Cadence.slot_at c timestamp + 1 ≤ limit →
  Cadence.first c ≤ Cadence.slot_at c timestamp
  ∧ Cadence.slot_start_ms c (Cadence.slot_at c timestamp) ≤ timestamp * 1000
    < Cadence.slot_start_ms c (Cadence.slot_at c timestamp + 1).
Proof.
  intros Ht Hw Hl. pose proof Hok as [Hg Hsec Hf0 Hfast Hwidth].
  set (since := timestamp - genesis_time c).
  assert (Cadence.slot_at c timestamp =
    match fast_from c with
    | Some fast =>
        if Cadence.slot_start_ms c fast <=? timestamp * 1000
        then fast + (timestamp * 1000 - Cadence.slot_start_ms c fast) / 200
        else Cadence.first c + since / seconds c
    | None => Cadence.first c + since / seconds c
    end) as Hslot.
  { unfold Cadence.slot_at. replace (sat_sub timestamp (genesis_time c)) with since by (subst since; uints).
    replace (sat_mul timestamp 1000) with (timestamp * 1000) by uints. done. }
  pose proof (Z.div_mod since (seconds c) ltac:(lia)) as Hdiv.
  pose proof (Z.mod_pos_bound since (seconds c) ltac:(lia)) as Hmod.
  assert (0 ≤ since / seconds c) by (apply Z.div_pos; subst since; lia).
  destruct (fast_from c) as [fast|] eqn:Hf.
  - specialize (Hfast fast eq_refl). destruct (Z.leb_spec (Cadence.slot_start_ms c fast) (timestamp * 1000)) as [Hle|Hlt].
    + set (ahead := timestamp * 1000 - Cadence.slot_start_ms c fast) in *.
      pose proof (Z.div_mod ahead 200 ltac:(lia)). pose proof (Z.mod_pos_bound ahead 200 ltac:(lia)).
      assert (0 ≤ ahead / 200) by (apply Z.div_pos; subst ahead; lia).
      rewrite Hslot in Hl |- *. split; [lia|].
      pose proof (slot_start_exact fast ltac:(lia)) as Hs. unfold exact_start in Hs. rewrite Hf, Z.ltb_irrefl in Hs.
      rewrite !slot_start_exact by lia. unfold exact_start. rewrite Hf.
      rewrite (proj2 (Z.ltb_lt fast (fast + ahead / 200 + 1))) by lia.
      destruct (Z.ltb_spec fast (fast + ahead / 200)); subst ahead; lia.
    + rewrite Hslot in Hl |- *. split; [lia|].
      rewrite slot_start_exact in Hlt by lia. rewrite !slot_start_exact by lia.
      revert Hlt. unfold exact_start. rewrite Hf, Z.ltb_irrefl. intros Hlt.
      assert (Cadence.first c + since / seconds c < fast) as Hbefore.
      { assert (since / seconds c < fast - Cadence.first c) as Hq; [|lia].
        apply Z.div_lt_upper_bound; [lia|]. subst since. lia. }
      rewrite !(proj2 (Z.ltb_ge _ _)) by lia. subst since. nia.
  - rewrite Hslot in Hl |- *. split; [lia|]. rewrite !slot_start_exact by lia. unfold exact_start. rewrite Hf.
    subst since. nia.
Qed.

(** The slot a whole second starts, on the whole-second part. *)
Lemma slot_starting_exact timestamp slot : 0 ≤ timestamp ≤ u64_max → slot ≤ limit →
  Cadence.slot_starting_at c timestamp = Some slot ↔
  Cadence.first c ≤ slot ∧ Cadence.slot_start_ms c slot = timestamp * 1000
  ∧ (∀ fast, fast_from c = Some fast → slot < fast).
Proof.
  intros Ht Hl. pose proof Hok as [Hg Hsec Hf0 Hfast Hwidth]. unfold Cadence.slot_starting_at, Cadence.slot_start.
  assert (∀ s, Cadence.first c ≤ s ≤ limit → (∀ fast, fast_from c = Some fast → s ≤ fast) →
    Cadence.slot_start_ms c s = (genesis_time c + (s - Cadence.first c) * seconds c) * 1000) as Hlegacy.
  { intros s Hs Hb. rewrite slot_start_exact by done. unfold exact_start. destruct (fast_from c) as [fast|]; [|done].
    specialize (Hb fast eq_refl). by rewrite (proj2 (Z.ltb_ge _ _)). }
  split.
  - destruct (is_some_and (fast_from c) _) eqn:Hpast; [done|]. intros (since & Hsince & Hmod)%bind_Some.
    apply checked_sub_Some in Hsince as [-> Hge].
    destruct (Z.eqb_spec ((timestamp - genesis_time c) mod seconds c) 0) as [Hz|]; [|done]. injection Hmod as <-.
    pose proof (Z.div_mod (timestamp - genesis_time c) (seconds c) ltac:(lia)) as Hdiv. rewrite Hz in Hdiv.
    assert (0 ≤ (timestamp - genesis_time c) / seconds c) by (apply Z.div_pos; lia).
    assert (∀ fast, fast_from c = Some fast → Cadence.first c + (timestamp - genesis_time c) / seconds c < fast) as Hbefore.
    { intros fast Hf. rewrite Hf in Hpast. cbn in Hpast. apply Z.leb_gt in Hpast.
      specialize (Hfast fast Hf). rewrite Hlegacy in Hpast; [|lia|intros ? [= <-]%(eq_trans (eq_sym Hf)); lia].
      rewrite Z.div_mul in Hpast by done. nia. }
    split; [lia|]. split; [|done]. rewrite Hlegacy; [nia|lia|]. intros fast Hf. specialize (Hbefore fast Hf). lia.
  - intros (Hs & Hstart & Hbefore).
    rewrite Hlegacy in Hstart; [|lia|intros fast Hf; specialize (Hbefore fast Hf); lia].
    assert (timestamp = genesis_time c + (slot - Cadence.first c) * seconds c) as -> by lia.
    assert (is_some_and (fast_from c) (λ fast, Cadence.slot_start_ms c fast / 1000 <=?
        genesis_time c + (slot - Cadence.first c) * seconds c) = false) as ->.
    { destruct (fast_from c) as [fast|] eqn:Hf; [|done]. cbn. apply Z.leb_gt.
      specialize (Hfast fast eq_refl). specialize (Hbefore fast eq_refl).
      rewrite Hlegacy, Z.div_mul; [nia|done|lia|]. intros ? [= <-]. lia. }
    unfold checked_sub. rewrite (proj2 (Z.leb_le _ _)) by nia. cbn.
    replace (genesis_time c + (slot - Cadence.first c) * seconds c - genesis_time c)
      with ((slot - Cadence.first c) * seconds c) by lia.
    rewrite Z.mod_mul, Z.div_mul by lia. cbn. f_equal. lia.
Qed.

End cadence.

(** C27: a cadence's slots tile time: on any cadence whose starts fit the
    width, a slot's successor starts exactly when the slot's own length has
    passed, 200 ms from the first fast slot on; the slot the code reports in
    progress at a second has started by then and its successor has not; and
    a header is given a slot exactly when its timestamp is the second that
    slot starts in, its own number on an op-stack chain and otherwise the
    whole-second slot the timestamp starts, never one past the slot in
    progress on a chain without fast slots. *)
Theorem cadence_exact c limit (Hok : cadence_ok limit c) :
  (∀ slot, Cadence.first c ≤ slot → slot + 1 ≤ limit →
    Cadence.slot_start_ms c (slot + 1) = Cadence.slot_start_ms c slot + Cadence.slot_ms c slot
    ∧ 0 < Cadence.slot_ms c slot)
  ∧ (∀ timestamp, genesis_time c ≤ timestamp → timestamp * 1000 ≤ u64_max → Cadence.slot_at c timestamp + 1 ≤ limit →
    Cadence.first c ≤ Cadence.slot_at c timestamp
    ∧ Cadence.slot_start_ms c (Cadence.slot_at c timestamp) ≤ timestamp * 1000
      < Cadence.slot_start_ms c (Cadence.slot_at c timestamp + 1))
  ∧ (∀ number timestamp slot, 0 ≤ timestamp ≤ u64_max → slot ≤ limit →
    Cadence.header_slot c number timestamp = Some slot ↔
    match first_block c with
    | Some first => slot = number ∧ first ≤ number ∧ Cadence.slot_start_ms c number / 1000 = timestamp
    | None => 0 ≤ slot ∧ Cadence.slot_start_ms c slot = timestamp * 1000
              ∧ ∀ fast, fast_from c = Some fast → slot < fast
    end)
  ∧ (∀ number timestamp slot, fast_from c = None → first_block c = None →
    0 ≤ timestamp → timestamp * 1000 ≤ u64_max → slot ≤ limit → Cadence.slot_at c timestamp + 1 ≤ limit →
    Cadence.header_slot c number timestamp = Some slot → slot = Cadence.slot_at c timestamp).
Proof.
  split; [|split; [|split]].
  - intros slot Hs Hl. split; [by apply (slot_length c limit)|]. destruct Hok as [Hg Hsec Hf0 _ Hw].
    unfold Cadence.slot_ms, Cadence.FAST_SLOT_MS.
    assert (0 < sat_mul (seconds c) 1000) by uints. destruct (fast_from c) as [fast|]; [destruct (fast <=? slot)|]; lia.
  - intros timestamp Ht Hw Hl. by apply (slot_at_in_progress c limit).
  - intros number timestamp slot Ht Hl. unfold Cadence.header_slot.
    pose proof (slot_starting_exact c limit Hok timestamp slot Ht Hl) as Hstart. unfold Cadence.first in Hstart.
    destruct (first_block c) as [first|]; [|exact Hstart]. unfold Cadence.slot_start.
    generalize (Cadence.slot_start_ms c number / 1000). intros start.
    destruct (Z.leb_spec first number), (Z.eqb_spec start timestamp); cbn [andb].
    + split; [intros [= <-]; auto|intros (-> & _); reflexivity].
    + split; [discriminate|intros (_ & _ & ?); contradiction].
    + split; [discriminate|intros (_ & ? & _); lia].
    + split; [discriminate|intros (_ & ? & _); lia].
  - intros number timestamp slot Hfast Hfirst Ht Hw Hl Hat. unfold Cadence.header_slot. rewrite Hfirst.
    unfold Cadence.slot_starting_at, Cadence.slot_at. rewrite Hfast. cbn.
    intros (since & [-> Hge]%checked_sub_Some & Hmod)%bind_Some.
    destruct (Z.eqb_spec ((timestamp - genesis_time c) mod seconds c) 0); [|done]. injection Hmod as <-.
    destruct Hok as [Hg _ _ _ _]. by replace (sat_sub timestamp (genesis_time c)) with (timestamp - genesis_time c) by uints.
Qed.

(** An op-stack chain's cadence, of two-second blocks until its 200 ms
    ones. *)
Definition denim_network : OpStackNetwork :=
  MkOpStack 2 0 1686789347 [("denim", 1793901601)] [] (array_fill 20 x01) (array_fill 20 x02) [].

Lemma cadence_exact_witness :
  let c := OpStackNetwork.cadence denim_network in
  fast_from c = Some 53556127
  ∧ Cadence.slot_start_ms c 53556128 = Cadence.slot_start_ms c 53556127 + 200
  ∧ Cadence.header_slot c 53556128 1793901601 = Some 53556128.
Proof.
  cbv zeta. assert (OpStackNetwork.cadence denim_network = MkCadence 1686789347 2 (Some 0) (Some 53556127)) as ->
    by (by vm_compute).
  set (c := MkCadence 1686789347 2 (Some 0) (Some 53556127)).
  assert (cadence_ok 10000000000 c) as Hok.
  { split; cbn; [lia|lia|lia|intros fast [= <-]; lia|unfold u64_max; lia]. }
  destruct (cadence_exact c 10000000000 Hok) as (Hlength & _ & Hheader & _). split; [done|]. split.
  - destruct (Hlength 53556127) as [H _]; [cbn; lia|lia|].
    change (53556127 + 1) with 53556128 in H. rewrite H. by vm_compute.
  - apply Hheader; [unfold u64_max; lia|lia|]. cbn [first_block c]. split; [done|]. split; [lia|]. by vm_compute.
Defined.
