(* ===== verification/LiveHead.v ===== *)
(** * The head of the live lane

    Models [crates/source-p2p/src/live_head.rs] and [header_rules.rs]: the
    gate in front of unattested blocks, the votes of peers on a header, the
    tail of blocks delivered unattested, and the rules a header and a branch
    must pass. alloy's header and its hash are the class [AlloyHeader];
    reth's consensus rules are the record [Consensus]. *)
From Stdlib Require Import ZArith Lia Strings.Byte.
From stdpp Require Import gmap strings list list_numbers fin_maps sorting pretty.
From S2P Require Import Prelude Bytes Chain Material Provenance Frame SourceContract Cadence.

(** [alloy_consensus::Header], its fields the source reads, [hash_slow] and
    its RLP coding. *)
Class AlloyHeader := {
  Header : Type;
  header_number : Header → Z;
  header_parent_hash : Header → BlockHash;
  header_timestamp : Header → Z;
  header_slot_number : Header → option Z;
  header_parent_beacon_block_root : Header → option (array 32);
  alloy_transactions_root : Header → BlockHash;
  alloy_receipts_root : Header → BlockHash;
  alloy_withdrawals_root : Header → option BlockHash;
  alloy_gas_limit : Header → Z;
  alloy_gas_used : Header → Z;
  alloy_base_fee_per_gas : Header → option Z;
  alloy_blob_gas_used : Header → option Z;
  alloy_excess_blob_gas : Header → option Z;
  hash_slow : Header → BlockHash;
  rlp_encode : Header → list byte;
  rlp_decode : list byte → option Header;
}.

(** A block number is a [u64], and no chain is [2^63] blocks long. *)
Class AlloyHeaderLaws `{!AlloyHeader} : Prop :=
  header_number_range header : 0 ≤ header_number header < i64_max.

(** [alloy_primitives::B512], a peer id. *)
Definition B512 := array 64.
#[export] Instance B512_eq_dec : EqDecision B512 := array_eq_dec 64.
#[export] Instance B512_countable : Countable B512 := array_countable 64.

Definition MAX_UNATTESTED_SLOTS : Z := 2.
Definition HEAD_PEER_QUORUM : nat := 2.
(** Durations: [LATE_REVEAL_AFTER] and [HEAD_UNDO_GRACE] in seconds, the poll
    offsets in milliseconds. *)
Definition LATE_REVEAL_AFTER : Z := 7.
Definition HEAD_UNDO_GRACE : Z := 60.
Definition HEAD_FIRST_POLL_OFFSET : Z := 1000.
Definition HEAD_POLL_RETRY : Z := 500.

(** ** The gate *)

Record HeadGate := MkHeadGate { gate_enabled : bool; wall_slot : Z }.

Definition allows (g : HeadGate) (attested : option AttestedHead) : bool :=
  gate_enabled g
  && is_some_and attested (λ a, sat_sub (wall_slot g) (head_beacon_slot a) <=? MAX_UNATTESTED_SLOTS).

(** ** The unattested tail, oldest first *)

Inductive Attestation :=
  | NoAttestation
  | Confirm (block : BlockRef)
  | Conflict (number : BlockNumber) (hash : BlockHash).

Module UnattestedTail.

Definition push (tail : list BlockRef) (block : BlockRef) : list BlockRef := tail ++ [block].
Definition newest (tail : list BlockRef) : option BlockRef := last tail.

Definition attestation (tail : list BlockRef) (attested : AttestedHead) : Attestation :=
  match List.find (λ block, ref_number block =? head_block_number attested) tail with
  | Some block =>
      if bool_decide (ref_hash block = head_block_hash attested) then Confirm block
      else Conflict (head_block_number attested) (head_block_hash attested)
  | None => NoAttestation
  end.

Fixpoint confirm_through (tail : list BlockRef) (number : BlockNumber) : list BlockRef :=
  match tail with
  | block :: rest => if ref_number block <=? number then confirm_through rest number else tail
  | [] => []
  end.

Definition expired (tail : list BlockRef) (now : Z) : option (list BlockRef) :=
  oldest ← head tail;
  if HEAD_UNDO_GRACE <? sat_sub now (ref_timestamp oldest) then Some (rev tail) else None.

Definition contains_all (tail reverted : list BlockRef) : bool :=
  forallb (λ block, bool_decide (block ∈ tail)) reverted.

Definition remove (tail reverted : list BlockRef) : list BlockRef :=
  List.filter (λ block, negb (bool_decide (block ∈ reverted))) tail.

End UnattestedTail.

Definition late_reveal (slot_start seen : Z) : bool := LATE_REVEAL_AFTER <? sat_sub seen slot_start.

(** The pause, in milliseconds; the sum is plain [u64] arithmetic. *)
Definition head_poll_delay (slot_start_ms slot_ms now_ms : Z) : Z :=
  let offset := Z.min HEAD_FIRST_POLL_OFFSET (slot_ms / 2) in
  sat_sub (slot_start_ms + offset) now_ms.

(** ** reth's consensus rules *)

(** [reth_consensus::ConsensusError], with the two errors the rules tell
    apart. *)
Inductive ConsensusError :=
  | SlotNumberUnexpected
  | BlockAccessListHashUnexpected
  | OtherConsensusError (message : string).

Section live_head.
Context `{!AlloyHeader}.

(** [EthBeaconConsensus<ChainSpec>], and its errors' [to_string]. *)
Record Consensus := MkConsensus {
  validate_header : Header → result ConsensusError unit;
  validate_header_against_parent : Header → Header → result ConsensusError unit;
  consensus_message : ConsensusError → string;
}.

Inductive HeaderVerdict :=
  | Valid
  | UnknownFork (reason : string)
  | Invalid (reason : string).

Record HeaderRules := MkHeaderRules {
  rules_consensus : option Consensus;
  rules_cadence : Cadence;
}.

Definition cadence_only (cadence : Cadence) : HeaderRules := MkHeaderRules None cadence.

Definition MAX_CLOCK_SKEW_SECONDS : Z := 2.

(** The checks of a slot number against the slot and the parent's. *)
Definition slot_number_fault (header parent : Header) (slot : Z) : option string :=
  number ← header_slot_number header;
  if negb (number =? slot)
  then Some ("slot number " +:+ pretty number +:+ " is not the timestamp's slot " +:+ pretty slot)
  else if is_some_and (header_slot_number parent) (λ p, number <=? p)
  then Some ("slot number " +:+ pretty number +:+ " does not follow its parent's")
  else None.

Definition consensus_verdict (c : Consensus) (header parent : Header) (attested_parent_root : option (array 32))
    : HeaderVerdict :=
  if match attested_parent_root, header_parent_beacon_block_root header with
     | Some expected, Some root => negb (bool_decide (root = expected))
     | _, _ => false
     end
  then Invalid "parent beacon block root is not the attested one"
  else
    match (_ ← validate_header c header; validate_header_against_parent c header parent) with
    | Ok _ => Valid
    | Err ((SlotNumberUnexpected | BlockAccessListHashUnexpected) as error) =>
        UnknownFork (consensus_message c error)
    | Err error => Invalid (consensus_message c error)
    end.

Definition check (rules : HeaderRules) (header parent : Header) (now : Z) (attested_parent_root : option (array 32))
    : HeaderVerdict :=
  match Cadence.header_slot (rules_cadence rules) (header_number header) (header_timestamp header) with
  | None =>
      Invalid ("timestamp " +:+ pretty (header_timestamp header) +:+ " is not the start of block "
               +:+ pretty (header_number header) +:+ "'s slot")
  | Some slot =>
      if sat_add now MAX_CLOCK_SKEW_SECONDS <? header_timestamp header
      then Invalid ("slot " +:+ pretty slot +:+ " has not started")
      else
        match slot_number_fault header parent slot with
        | Some reason => Invalid reason
        | None =>
            match rules_consensus rules with
            | None =>
                if (header_number header =? header_number parent + 1)
                   && bool_decide (header_parent_hash header = hash_slow parent)
                then Valid else Invalid "header does not follow its parent"
            | Some consensus => consensus_verdict consensus header parent attested_parent_root
            end
        end
  end.

Definition is_valid (v : HeaderVerdict) : bool := match v with Valid => true | _ => false end.

(** [slice::windows(2)]. *)
Fixpoint windows2 {A} (xs : list A) : list (A * A) :=
  match xs with
  | a :: ((b :: _) as rest) => (a, b) :: windows2 rest
  | _ => []
  end.

Definition branch_step_ok (rules : HeaderRules) (attested : AttestedHead) (now : Z) (pair : Header * Header) : bool :=
  is_some_and
    (Cadence.header_slot (rules_cadence rules) (header_number pair.2) (header_timestamp pair.2))
    (λ slot, sat_sub slot (head_beacon_slot attested) <=? MAX_UNATTESTED_SLOTS)
  && is_valid (check rules pair.2 pair.1 now None).

Definition accepts_branch (rules : HeaderRules) (headers : list Header) (attested : option AttestedHead) (now : Z)
    : bool :=
  match attested, last headers with
  | Some attested, Some tip =>
      (2 <=? length headers)%nat
      && negb (late_reveal (header_timestamp tip) now)
      && forallb (branch_step_ok rules attested now) (windows2 headers)
  | _, _ => false
  end.

Definition DATA_GAS_PER_BLOB : Z := 131072.

Definition blob_gas_matches (header : Header) (blobs : Z) : bool :=
  default 0 (alloy_blob_gas_used header) =? sat_mul blobs DATA_GAS_PER_BLOB.

(** ** Votes *)

Record HeadVotes := MkHeadVotes {
  votes_block : option BlockNumber;
  by_hash : gmap BlockHash (Header * gset B512);
}.

Definition no_votes : HeadVotes := MkHeadVotes None ∅.

Definition record_vote (votes : HeadVotes) (block : BlockNumber) (peer : B512) (header : Header) (quorum : nat)
    : HeadVotes * option Header :=
  let votes := if bool_decide (votes_block votes = Some block) then votes else MkHeadVotes (Some block) ∅ in
  let '(agreed, peers) := default (header, ∅) (by_hash votes !! hash_slow header) in
  let peers := {[peer]} ∪ peers in
  (MkHeadVotes (votes_block votes) (<[hash_slow header := (agreed, peers)]> (by_hash votes)),
   if (quorum <=? size peers)%nat then Some agreed else None).

(** ** What the votes count *)

Definition Vote : Type := BlockNumber * B512 * Header.

(** The votes of a round: those since the last one for another block, newest
    first. *)
Fixpoint since_block (block : BlockNumber) (newest_first : list Vote) : list Vote :=
  match newest_first with
  | v :: older => if v.1.1 =? block then v :: since_block block older else []
  | [] => []
  end.

(** The distinct peers that served a header with [hash] in a round. *)
Definition voters (hash : BlockHash) (round : list Vote) : gset B512 :=
  list_to_set ((λ v, v.1.2) <$> List.filter (λ v, bool_decide (hash_slow v.2 = hash)) round).

Definition after_votes (quorum : nat) (votes : list Vote) : HeadVotes :=
  fold_left (λ s v, (record_vote s v.1.1 v.1.2 v.2 quorum).1) votes no_votes.

(** The recorded votes are those of the round. *)
Definition counts (s : HeadVotes) (votes : list Vote) : Prop :=
  match rev votes with
  | [] => s = no_votes
  | v :: _ =>
      votes_block s = Some v.1.1
      ∧ ∀ hash, match by_hash s !! hash with
                | Some (agreed, peers) => hash_slow agreed = hash ∧ peers = voters hash (since_block v.1.1 (rev votes))
                | None => voters hash (since_block v.1.1 (rev votes)) = ∅
                end
  end.

Lemma voters_cons hash v round :
  voters hash (v :: round) = (if bool_decide (hash_slow v.2 = hash) then {[v.1.2]} else ∅) ∪ voters hash round.
Proof. unfold voters. cbn [List.filter]. case_bool_decide; cbn; set_solver. Qed.

(** The table a vote is recorded in: this round's, or none yet. *)
Lemma counts_round s votes block (Hs : counts s votes) hash :
  match by_hash (if bool_decide (votes_block s = Some block) then s else MkHeadVotes (Some block) ∅) !! hash with
  | Some (agreed, peers) => hash_slow agreed = hash ∧ peers = voters hash (since_block block (rev votes))
  | None => voters hash (since_block block (rev votes)) = ∅
  end.
Proof.
  unfold counts in Hs. destruct (rev votes) as [|v older].
  { subst s. by rewrite bool_decide_false. }
  destruct Hs as [Hblock Hs]. rewrite Hblock. cbn [since_block].
  destruct (Z.eqb_spec v.1.1 block) as [<-|Hne].
  - rewrite bool_decide_true by done. specialize (Hs hash). cbn [since_block] in Hs. by rewrite Z.eqb_refl in Hs.
  - rewrite bool_decide_false by congruence. done.
Qed.

Lemma record_counts s votes block peer header quorum (Hs : counts s votes) :
  counts (record_vote s block peer header quorum).1 (votes ++ [(block, peer, header)]).
Proof.
  pose proof (counts_round s votes block Hs) as Hround. unfold counts, record_vote. rewrite rev_unit.
  cbn [since_block fst snd]. rewrite Z.eqb_refl.
  set (t := if bool_decide (votes_block s = Some block) then s else MkHeadVotes (Some block) ∅) in *.
  assert (votes_block t = Some block) as Ht by (subst t; case_bool_decide; done).
  destruct (default (header, ∅) (by_hash t !! hash_slow header)) as [agreed peers] eqn:Hd.
  cbn [fst snd by_hash votes_block]. split; [done|]. intros hash. rewrite voters_cons. cbn [fst snd].
  destruct (decide (hash_slow header = hash)) as [<-|Hne].
  - rewrite lookup_insert_eq, bool_decide_true by done. specialize (Hround (hash_slow header)).
    destruct (by_hash t !! hash_slow header) as [[a p]|]; cbn in Hd; injection Hd as <- <-.
    + destruct Hround as [? ->]. done.
    + split; [done|]. f_equal. symmetry. exact Hround.
  - rewrite lookup_insert_ne, bool_decide_false by done. specialize (Hround hash).
    destruct (by_hash t !! hash) as [[a p]|]; [|set_solver]. destruct Hround as [? ->]. split; [done|set_solver].
Qed.

Lemma after_votes_counts quorum votes : counts (after_votes quorum votes) votes.
Proof.
  unfold after_votes. induction votes as [|[[block peer] header] votes IH] using rev_ind; [done|].
  rewrite fold_left_app. by apply record_counts.
Qed.

(** A header is agreed on exactly when a quorum of distinct peers served
    it in one round: whatever votes came before, for whatever blocks, the
    vote recorded last returns a header, one with the same hash, when the
    peers that served that hash for this block since the lane last asked for
    another one number the quorum, and nothing otherwise. A peer that
    repeats itself counts once, votes for other headers count for nothing,
    and a new block starts over. *)
Theorem quorum_exact votes block peer header quorum :
  let supporters := voters (hash_slow header) (since_block block (rev (votes ++ [(block, peer, header)]))) in
  match (record_vote (after_votes quorum votes) block peer header quorum).2 with
  | Some agreed => hash_slow agreed = hash_slow header ∧ (quorum ≤ size supporters)%nat
  | None => (size supporters < quorum)%nat
  end.
Proof.
  cbv zeta. rewrite rev_unit. cbn [since_block fst snd]. rewrite Z.eqb_refl, voters_cons. cbn [fst snd].
  rewrite bool_decide_true by done.
  pose proof (counts_round _ votes block (after_votes_counts quorum votes) (hash_slow header)) as Hround.
  unfold record_vote. set (t := if bool_decide _ then _ else _) in *.
  destruct (by_hash t !! hash_slow header) as [[agreed peers]|]; cbn.
  - destruct Hround as [? ->]. destruct (quorum <=? _)%nat eqn:Hq; [apply Nat.leb_le in Hq|apply Nat.leb_gt in Hq]; done.
  - replace (voters (hash_slow header) (since_block block (rev votes))) with (∅ : gset B512) by (symmetry; exact Hround).
    destruct (quorum <=? _)%nat eqn:Hq; [apply Nat.leb_le in Hq|apply Nat.leb_gt in Hq]; done.
Qed.

(** ** What an accepted branch is *)

(** What [validate_header_against_parent] documents: the parent's hash and
    number are checked. *)
Definition consensus_links (c : Consensus) : Prop :=
  ∀ header parent, validate_header_against_parent c header parent = Ok tt →
    header_number header = header_number parent + 1 ∧ header_parent_hash header = hash_slow parent.

Definition rules_link (rules : HeaderRules) : Prop :=
  match rules_consensus rules with Some c => consensus_links c | None => True end.

Lemma check_Valid rules header parent now root (Hlink : rules_link rules) :
  check rules header parent now root = Valid →
  ∃ slot, Cadence.header_slot (rules_cadence rules) (header_number header) (header_timestamp header) = Some slot
  ∧ header_timestamp header ≤ sat_add now MAX_CLOCK_SKEW_SECONDS
  ∧ header_number header = header_number parent + 1 ∧ header_parent_hash header = hash_slow parent
  ∧ (∀ number, header_slot_number header = Some number →
      number = slot ∧ ∀ p, header_slot_number parent = Some p → p < number).
Proof.
  unfold check. destruct (Cadence.header_slot _ _ _) as [slot|]; [|done].
  destruct (Z.ltb_spec (sat_add now MAX_CLOCK_SKEW_SECONDS) (header_timestamp header)); [done|].
  destruct (slot_number_fault header parent slot) as [reason|] eqn:Hfault; [done|]. intros Hvalid.
  exists slot. split; [done|]. split; [lia|].
  assert (header_number header = header_number parent + 1 ∧ header_parent_hash header = hash_slow parent) as [Hn Hh].
  { unfold rules_link in Hlink. destruct (rules_consensus rules) as [c|].
    - unfold consensus_verdict in Hvalid. destruct (match root with Some _ => _ | None => _ end) in Hvalid; [done|].
      destruct (validate_header c header) as [[]|e]; cbn in Hvalid; [|by destruct e].
      destruct (validate_header_against_parent c header parent) as [[]|e] eqn:Hv; [|by destruct e]. by apply Hlink.
    - destruct (Z.eqb_spec (header_number header) (header_number parent + 1)); [|done].
      case_bool_decide; [done|done]. }
  split; [done|]. split; [done|]. intros number Hnumber. unfold slot_number_fault in Hfault. rewrite Hnumber in Hfault.
  cbn in Hfault. destruct (Z.eqb_spec number slot); [|done]. cbn in Hfault. split; [done|]. intros p Hp. rewrite Hp in Hfault.
  cbn in Hfault. destruct (Z.leb_spec number p); [done|lia].
Qed.

Lemma windows2_lookup {A} (xs : list A) i a b :
  xs !! i = Some a → xs !! S i = Some b → (a, b) ∈ windows2 xs.
Proof.
  revert i. induction xs as [|x [|y xs] IH]; intros i Ha Hb; [done|by destruct i|].
  destruct i as [|i]; [injection Ha as ->; injection Hb as ->; left|right]. by apply (IH i).
Qed.

(** C24: a branch that peers serve without verified evidence joins the tail
    only as a chain that could be the head's: every header after the common
    ancestor carries its predecessor's hash and the next number, fills a slot
    of the cadence at most two past the attested one and at most two seconds
    ahead of the clock, and restates that slot, above its predecessor's, when
    it states one; and the tip was not first seen more than seven seconds
    into its slot. Without an attested head nothing is accepted. *)
Theorem accepts_branch_sound rules headers attested now (Hlink : rules_link rules)
    (Haccepts : accepts_branch rules headers attested now = true) :
  ∃ head tip, attested = Some head ∧ last headers = Some tip ∧ (2 ≤ length headers)%nat
  ∧ sat_sub now (header_timestamp tip) ≤ LATE_REVEAL_AFTER
  ∧ ∀ i parent child, headers !! i = Some parent → headers !! S i = Some child →
    header_parent_hash child = hash_slow parent ∧ header_number child = header_number parent + 1
    ∧ header_timestamp child ≤ sat_add now MAX_CLOCK_SKEW_SECONDS
    ∧ ∃ slot, Cadence.header_slot (rules_cadence rules) (header_number child) (header_timestamp child) = Some slot
      ∧ slot ≤ head_beacon_slot head + MAX_UNATTESTED_SLOTS
      ∧ ∀ number, header_slot_number child = Some number →
        number = slot ∧ ∀ p, header_slot_number parent = Some p → p < number.
Proof.
  unfold accepts_branch in Haccepts. destruct attested as [head|]; [|done].
  destruct (last headers) as [tip|]; [|done]. exists head, tip. split; [done|]. split; [done|].
  apply andb_prop in Haccepts as [[Hlen%Nat.leb_le Hlate]%andb_prop Hall].
  split; [done|]. unfold late_reveal in Hlate. apply negb_true_iff, Z.ltb_ge in Hlate. split; [done|].
  intros i parent child Hp Hc. rewrite forallb_forall in Hall.
  specialize (Hall (parent, child)). rewrite <-list_elem_of_In in Hall.
  specialize (Hall (windows2_lookup _ _ _ _ Hp Hc)). unfold branch_step_ok in Hall.
  apply andb_prop in Hall as [Hslot Hvalid]. cbn in Hslot, Hvalid.
  destruct (check rules child parent now None) eqn:Hcheck; [|done|done].
  apply (check_Valid _ _ _ _ _ Hlink) in Hcheck as (slot & Heq & Ht & Hn & Hh & Hnumber).
  split; [done|]. split; [done|]. split; [done|]. exists slot. split; [done|]. split; [|done].
  rewrite Heq in Hslot. cbn in Hslot. apply Z.leb_le in Hslot. uints.
Qed.

End live_head.
