(* ===== verification/LiveChain.v ===== *)
(** * Header chains of the live lane

    Models the deterministic parts of [crates/source-p2p/src/lib.rs] that the
    live lane builds its chain from: the validation of header replies, the
    frames of verified headers, the proven ancestry of an attested head, what
    the lane fetches next, the plan of a reorg, and what failures cost. *)
From Stdlib Require Import ZArith Lia Strings.Byte.
From stdpp Require Import gmap strings list list_numbers fin_maps sorting pretty.
From S2P Require Import Prelude Bytes Chain Capability Material Provenance Frame SourceContract Durable Cadence LiveHead.

Inductive P2pError :=
  | InvalidConfig (detail : string)
  | RangeTooLarge (requested maximum : Z)
  | ReorgTooDeep (maximum : Z)
  | Network (detail : string)
  | Cancelled
  | PeerTimeout (minimum connected : Z)
  | Timeout (component : string)
  | Request (component detail : string)
  | InvalidResponse (detail : string)
  | ExpectationMismatch (detail : string)
  | IncompleteResponse (component : string) (returned expected : Z)
  | SourceFailure (resource : string) (limit observed : Z).

Inductive ExpectationTrust := VerifiedExpectation | UnverifiedExpectation.

#[export] Instance ExpectationTrust_eq_dec : EqDecision ExpectationTrust.
Proof. solve_decision. Defined.

Record ExpectedTip := MkExpectedTip { tip_hash : BlockHash; tip_trust : ExpectationTrust }.

Inductive ResponseFault := InvalidFault | Disagreement.

Definition classify_response_failure (error : P2pError) (expectation : ExpectationTrust) : ResponseFault :=
  match error with
  | InvalidResponse _ => InvalidFault
  | ExpectationMismatch _ =>
      match expectation with VerifiedExpectation => InvalidFault | UnverifiedExpectation => Disagreement end
  | _ => Disagreement
  end.

Inductive HeaderReplyCost := Ban | Cooldown | NotYetCost.

Definition live_header_reply_cost (error : P2pError) (expectation : ExpectationTrust) (head_poll : bool)
    : HeaderReplyCost :=
  match classify_response_failure error expectation with
  | InvalidFault => Ban
  | Disagreement =>
      match head_poll, error with
      | true, IncompleteResponse _ _ _ => NotYetCost
      | _, _ => Cooldown
      end
  end.

Definition verified_tip (expected_tip : option ExpectedTip) : option BlockHash :=
  tip ← expected_tip;
  match tip_trust tip with VerifiedExpectation => Some (tip_hash tip) | UnverifiedExpectation => None end.

(** ** The rotation over polled peers

    Instants are a clock's readings, durations their differences. *)

Record HeadPollRotation := MkRotation {
  rotation_block : option BlockNumber;
  asked : gset B512;
  polling : gset B512;
  not_yet : gmap B512 Z;
  served_at : option Z;
  not_yet_tolerance : Z;
}.

Module HeadPollRotation.

Definition HEAD_POLL_NOT_YET_TOLERANCE : Z := 250.

Definition new (retry_backoff : Z) : HeadPollRotation :=
  MkRotation None ∅ ∅ ∅ None (Z.min HEAD_POLL_NOT_YET_TOLERANCE retry_backoff).

(** The peers are returned sorted; the set is what its order does not
    change. *)
Definition begin_poll (r : HeadPollRotation) (block : BlockNumber) : HeadPollRotation * gset B512 :=
  if bool_decide (rotation_block r = Some block)
  then (MkRotation (rotation_block r) (asked r) ∅ (not_yet r) (served_at r) (not_yet_tolerance r), ∅)
  else
    let moved_on := is_some_and (rotation_block r) (λ polled, polled <? block) in
    (MkRotation (Some block) ∅ ∅ ∅ None (not_yet_tolerance r),
     match served_at r with
     | Some served_at =>
         if moved_on
         then dom (filter (λ answered : B512 * Z, Z.max 0 (served_at - answered.2) ≤ not_yet_tolerance r) (not_yet r))
         else ∅
     | None => ∅
     end).

Definition record_asked (r : HeadPollRotation) (peer : B512) : HeadPollRotation :=
  MkRotation (rotation_block r) ({[peer]} ∪ asked r) ({[peer]} ∪ polling r) (not_yet r) (served_at r) (not_yet_tolerance r).

Definition start_over (r : HeadPollRotation) : HeadPollRotation * bool :=
  if (size (asked r) =? size (polling r))%nat then (r, false)
  else (MkRotation (rotation_block r) (polling r) (polling r) (not_yet r) (served_at r) (not_yet_tolerance r), true).

Definition record_not_yet (r : HeadPollRotation) (peer : B512) (at_ : Z) : HeadPollRotation :=
  MkRotation (rotation_block r) (asked r) (polling r) (<[peer := at_]> (not_yet r)) (served_at r) (not_yet_tolerance r).

Definition record_served (r : HeadPollRotation) (peer : B512) (at_ : Z) : HeadPollRotation :=
  MkRotation (rotation_block r) (asked r) (polling r) (delete peer (not_yet r)) (Some at_) (not_yet_tolerance r).

Definition serve_failed (r : HeadPollRotation) : HeadPollRotation :=
  MkRotation (rotation_block r) (asked r) (polling r) (not_yet r) None (not_yet_tolerance r).

End HeadPollRotation.

(** ** Failures *)

(** The fields of the configuration that the live lane reads; [expected_lag]
    is the source descriptor's. *)
Record RethP2pConfig := MkP2pConfig {
  retries : nat;
  retry_backoff : Z;
  retry_backoff_max : Z;
  session_retries : Z;
  persistent_retries : bool;
  poll_interval : Z;
  expected_lag : Z;
  max_reorg_depth : nat;
}.

Definition session_retry_delay (config : RethP2pConfig) (attempts : Z) : Z :=
  let exponent := Z.min (Z.max 0 (attempts - 1)) 16 in
  Z.min (retry_backoff config * Z.shiftl 1 exponent) (retry_backoff_max config).

Definition should_retry_session (config : RethP2pConfig) (attempts : Z) : bool :=
  persistent_retries config || (attempts <? session_retries config).

Definition should_retry_session_error (config : RethP2pConfig) (attempts : Z) (error : P2pError) : bool :=
  match error with
  | Network _ | PeerTimeout _ _ | Timeout _ | Request _ _ | InvalidResponse _ | ExpectationMismatch _
  | IncompleteResponse _ _ _ => should_retry_session config attempts
  | _ => false
  end.

(** A failed head poll that heard from no peer. *)
Definition silent_head_poll (error : P2pError) : bool :=
  match error with
  | Timeout component | Request component _ => bool_decide (component = "headers")
  | _ => false
  end.

(** The new count of attempts, and the pause. *)
Definition pending_live_material_delay (config : RethP2pConfig) (attempts : Z) (error : P2pError)
    (head_poll manager_current : bool) : Z * option Z :=
  let waits := match error with
    | IncompleteResponse component _ _ => bool_decide (component ∈ ["headers"; "bodies"; "receipts"])
    | _ => false
    end || (head_poll && silent_head_poll error) in
  if negb waits || negb manager_current then (attempts, None)
  else
    let attempts := sat_add attempts 1 in
    (attempts, Some (Z.min (session_retry_delay config attempts) (poll_interval config))).

(** How long the head has been unavailable, and since when. *)
Definition head_unavailable_for (since : option Z) (now : Z) : option Z * Z :=
  let since := default now since in (Some since, Z.max 0 (now - since)).

Inductive HeadUnavailable := HeadRetry | HeadReport | HeadReconnect.

Definition head_unavailable (manager_current : bool) (unavailable_for grace : Z) : HeadUnavailable :=
  if negb manager_current then HeadReconnect
  else if unavailable_for <? grace then HeadRetry else HeadReport.

Inductive HeadPollFailure := PollRetry (delay : Z) | PollReport (delay : Z) | PollReconnect.

Definition head_poll_failure (config : RethP2pConfig) (attempts : Z) (silent_since : option Z) (now grace : Z)
    (error : P2pError) (manager_current : bool) : Z * option Z * HeadPollFailure :=
  match pending_live_material_delay config attempts error true manager_current with
  | (attempts, None) => (attempts, silent_since, PollReconnect)
  | (attempts, Some delay) =>
      if negb (silent_head_poll error) then (attempts, None, PollRetry delay)
      else
        let '(silent_since, silent_for) := head_unavailable_for silent_since now in
        (attempts, silent_since, if silent_for <? grace then PollRetry delay else PollReport delay)
  end.

Inductive ReorgFailure := ReorgReset | ReorgReport | ReorgRetry.

(** What the lane does, and whether it has reported itself disconnected. *)
Definition reorg_failure (error : P2pError) (evidence : ExpectationTrust) (disconnect_reported : bool)
    : ReorgFailure * bool :=
  match error, evidence with
  | ReorgTooDeep _, VerifiedExpectation => (ReorgReset, disconnect_reported)
  | _, _ => if disconnect_reported then (ReorgRetry, true) else (ReorgReport, true)
  end.

(** The milliseconds of [ATTESTED_HEAD_GRACE]. *)
Definition ATTESTED_HEAD_GRACE : Z := 48000.
Definition MAX_FIXED_RANGE_BLOCKS : Z := 64.
Definition MAX_ANCESTRY_HEADERS : Z := 1024.

(** The block a reorg is reconstructed from. *)
Definition reorg_reconstruction_tip (last mismatching : BlockRef) : BlockNumber * BlockHash :=
  (ref_number last, ref_parent_hash mismatching).

Definition continues (parent child : BlockRef) : bool :=
  (ref_number child =? sat_add (ref_number parent) 1) && bool_decide (ref_parent_hash child = ref_hash parent).

(** The errors' texts are left out. *)
Definition validate_retained_canonical (canonical : list BlockRef) (max_reorg_depth : nat) : bool :=
  negb (bool_decide (canonical = [])) && (length canonical <=? max_reorg_depth + 1)%nat
  && forallb (λ pair, continues pair.1 pair.2) (windows2 canonical).

Section live_chain.
Context `{!AlloyHeader}.

(** ** Replies to header requests *)

Definition header_block_ref (header : Header) : BlockRef :=
  MkBlockRef (header_number header) (hash_slow header) (header_parent_hash header) (header_timestamp header).

(** The check of one header against its number and its predecessor. *)
Definition validate_header_at (previous : option Header) (number : Z) (offset : nat) (header : Header)
    : result P2pError unit :=
  if negb (header_number header =? number)
  then Err (InvalidResponse ("header at offset " +:+ pretty offset +:+ " has block " +:+ pretty (header_number header)
                             +:+ ", expected " +:+ pretty number))
  else if is_some_and previous (λ p, negb (bool_decide (header_parent_hash header = hash_slow p)))
  then Err (InvalidResponse ("header parent continuity failed at block " +:+ pretty number))
  else Ok tt.

Fixpoint validate_headers_from (start : Z) (offset : nat) (previous : option Header) (headers : list Header)
    : result P2pError unit :=
  match headers with
  | [] => Ok tt
  | header :: rest =>
      _ ← validate_header_at previous (sat_add start (Z.of_nat offset)) offset header;
      validate_headers_from start (S offset) (Some header) rest
  end.

(** [show] is the hash's text. *)
Definition validate_headers (show : BlockHash → string) (range : BlockRange) (headers : list Header)
    (expected_tip : option BlockHash) : result P2pError unit :=
  let returned := Z.of_nat (length headers) in
  if negb (returned =? BlockRange.len range)
  then Err (IncompleteResponse "headers" returned (BlockRange.len range))
  else
    _ ← validate_headers_from (range_start range) 0 None headers;
    match expected_tip, last headers with
    | Some expected, Some tip =>
        if bool_decide (hash_slow tip = expected) then Ok tt
        else Err (ExpectationMismatch ("tip hash " +:+ show (hash_slow tip) +:+ ", expected " +:+ show expected))
    | _, _ => Ok tt
    end.

Definition descends (pair : Header * Header) : bool :=
  (header_number pair.1 =? sat_add (header_number pair.2) 1)
  && bool_decide (header_parent_hash pair.1 = hash_slow pair.2).

Definition validate_descending_headers (head_number : BlockNumber) (head_hash : BlockHash) (headers : list Header)
    : result P2pError unit :=
  match headers with
  | [] => Err (IncompleteResponse "reorg headers" 0 1)
  | first :: _ =>
      if negb (bool_decide (hash_slow first = head_hash))
      then Err (InvalidResponse "descending header response does not start at the requested head")
      else if negb (header_number first =? head_number)
      then Err (ExpectationMismatch ("requested head is block " +:+ pretty (header_number first) +:+ ", expected "
                                     +:+ pretty head_number))
      else
        match List.find (λ pair, negb (descends pair)) (windows2 headers) with
        | Some link =>
            Err (InvalidResponse ("descending header continuity failed below block " +:+ pretty (header_number link.1)))
        | None => Ok tt
        end
  end.

Definition validate_live_headers (show : BlockHash → string) (range : BlockRange) (expected_tip : option ExpectedTip)
    (headers : list Header) : result P2pError (list Header) :=
  match verified_tip expected_tip with
  | None => _ ← validate_headers show range headers (tip_hash <$> expected_tip); Ok headers
  | Some tip =>
      let expected := BlockRange.len range in
      let returned := Z.of_nat (length headers) in
      if expected <? returned
      then Err (InvalidResponse (pretty returned +:+ " headers for " +:+ pretty expected +:+ " requested"))
      else if bool_decide (headers = []) then Err (IncompleteResponse "headers" 0 expected)
      else
        _ ← validate_descending_headers (range_end range) tip headers;
        if returned <? expected then Err (IncompleteResponse "headers" returned expected) else Ok (rev headers)
  end.

(** A peer's one reply to the request for a header by its hash. *)
Definition validate_target_header (target : BlockRef) (headers : list Header) : result P2pError Header :=
  match rev headers with
  | [] => Err (IncompleteResponse "headers" 0 1)
  | header :: rest =>
      if negb (bool_decide (rest = [])) || negb (header_number header =? ref_number target)
         || negb (bool_decide (hash_slow header = ref_hash target))
      then Err (InvalidResponse "peer returned a mismatched verified anchor header")
      else Ok header
  end.

(** ** Reorgs *)

Definition known_block (recent : list BlockRef) (header : Header) : option BlockRef :=
  List.find (λ known, (ref_number known =? header_number header) && bool_decide (ref_hash known = hash_slow header))
    (rev recent).

Fixpoint find_map {A B} (f : A → option B) (xs : list A) : option B :=
  match xs with
  | [] => None
  | x :: xs => match f x with Some y => Some y | None => find_map f xs end
  end.

Fixpoint take_while {A} (f : A → bool) (xs : list A) : list A :=
  match xs with
  | [] => []
  | x :: xs => if f x then x :: take_while f xs else []
  end.

Definition plan_reorg (recent : list BlockRef) (descending : list Header)
    : result P2pError (BlockRef * list BlockRef) :=
  match find_map (known_block recent) descending with
  | None =>
      match last descending, head recent with
      | Some reached, Some oldest =>
          if ref_number oldest <? header_number reached
          then Err (IncompleteResponse "reorg headers" (Z.of_nat (length descending))
                      (sat_add (Z.of_nat (length descending)) (sat_sub (header_number reached) (ref_number oldest))))
          else Err (ReorgTooDeep (sat_sub (Z.of_nat (length recent)) 1))
      | _, _ => Err (ReorgTooDeep (sat_sub (Z.of_nat (length recent)) 1))
      end
  | Some ancestor =>
      let reverted := take_while (λ block, ref_number ancestor <? ref_number block) (rev recent) in
      if bool_decide (reverted = [])
      then Err (InvalidResponse "replacement branch did not revert an emitted block")
      else Ok (ancestor, reverted)
  end.

(** ** The attested head's ancestry *)

Record HeaderServe := MkServe {
  serve_peer_id : B512;
  serve_block : Z;
  serve_elapsed : Z;
  serve_anchored : bool;
}.

Record AttestedAncestry := MkAncestry {
  ancestry_head : option AttestedHead;
  ancestry_headers : list Header;
  header_peer : option B512;
  ancestry_serve : option HeaderServe;
  rungs : list AttestedHead;
}.

Definition ancestry_empty : AttestedAncestry := MkAncestry None [] None None [].

Definition ancestry_proven (head : AttestedHead) (serve : HeaderServe) (headers : list Header) : AttestedAncestry :=
  MkAncestry (Some head) headers (Some (serve_peer_id serve)) (Some serve) [].

Definition ancestry_advance (self proven : AttestedAncestry) : AttestedAncestry :=
  let top := match ancestry_head proven with Some head => head_block_number head | None => 0 end in
  MkAncestry (ancestry_head proven) (ancestry_headers proven) (header_peer proven) (ancestry_serve proven)
    (rungs proven ++ List.filter (λ rung, top <? head_block_number rung) (rungs self)).

Definition ancestry_first (self : AttestedAncestry) : option Z := header_number <$> head (ancestry_headers self).

Definition ancestry_take (self : AttestedAncestry) (count : Z)
    : AttestedAncestry * (list Header * option B512 * option HeaderServe) :=
  let count := Z.to_nat count in
  (MkAncestry (ancestry_head self) (drop count (ancestry_headers self)) (header_peer self) None (rungs self),
   (List.firstn count (ancestry_headers self), header_peer self, ancestry_serve self)).

Definition ancestry_invalidate (self : AttestedAncestry) : AttestedAncestry := ancestry_empty.

Inductive LiveStep :=
  | StepWait
  | StepPoll (block : BlockNumber) (tip : ExpectedTip)
  | StepCatchUp (range : BlockRange)
  | StepAnchor (from : BlockNumber) (head : AttestedHead)
  | StepHead (block : BlockNumber).

(** The batch of proven headers to catch up on, if the next one is held. *)
Definition catch_up_range (next : Z) (head : AttestedHead) (ancestry : AttestedAncestry) (batch_blocks : Z)
    : option BlockRange :=
  if bool_decide (ancestry_first ancestry = Some next) then
    let proven := Z.of_nat (length (ancestry_headers ancestry)) in
    let end_ := Z.min (sat_add next (Z.min (Z.max batch_blocks 1) proven - 1)) (head_block_number head) in
    match BlockRange.new next end_ with Ok range => Some range | Err _ => None end
  else None.

Definition live_step (last : BlockRef) (attested : option AttestedHead) (ancestry : AttestedAncestry)
    (batch_blocks : Z) (gate : HeadGate) : LiveStep :=
  match attested with
  | Some head =>
      if ref_number last <? head_block_number head then
        let next := sat_add (ref_number last) 1 in
        match catch_up_range next head ancestry batch_blocks with
        | Some range => StepCatchUp range
        | None =>
            if head_block_number head =? next
            then StepPoll next (MkExpectedTip (head_block_hash head) VerifiedExpectation)
            else StepAnchor next
                   (default head (List.find (λ rung, next <=? head_block_number rung) (rungs ancestry)))
        end
      else if allows gate attested then StepHead (sat_add (ref_number last) 1) else StepWait
  | None => if allows gate attested then StepHead (sat_add (ref_number last) 1) else StepWait
  end.

(** [{ block_number, block_hash, ..head }]. *)
Definition rung_of (head : AttestedHead) (number : BlockNumber) (hash : BlockHash) : AttestedHead :=
  MkAttestedHead (head_beacon_slot head) (head_beacon_block_root head) number hash.

(** The loop over the windows, top down; [None] is a loop that has not ended
    within the fuel. The rungs are kept in the order they are pushed. *)
Fixpoint prove_windows (fetch_window : BlockRange → BlockHash → result P2pError (HeaderServe * list Header))
    (from : BlockNumber) (head : AttestedHead) (fuel : nat) (size top : Z) (top_hash : BlockHash)
    (rungs : list AttestedHead) : option (result P2pError AttestedAncestry) :=
  match fuel with
  | O => None
  | S fuel =>
      let start := Z.max (sat_sub top (size - 1)) from in
      match BlockRange.new start top with
      | Err _ => Some (Err (InvalidConfig "block range"))
      | Ok range =>
          let rungs :=
            if MAX_ANCESTRY_HEADERS <=? head_block_number head - top then rungs ++ [rung_of head top top_hash]
            else rungs in
          match fetch_window range top_hash with
          | Err error => Some (Err error)
          | Ok (serve, headers) =>
              match headers with
              | [] => Some (Err (IncompleteResponse "headers" 0 1))
              | lowest :: _ =>
                  if start =? from then
                    let proven := ancestry_proven head serve headers in
                    Some (Ok (MkAncestry (ancestry_head proven) (ancestry_headers proven) (header_peer proven)
                                (ancestry_serve proven) (rev rungs)))
                  else
                    prove_windows fetch_window from head fuel MAX_ANCESTRY_HEADERS (start - 1)
                      (header_parent_hash lowest) rungs
              end
          end
      end
  end.

(** One window more than the full ones. *)
Definition ancestry_fuel (from : BlockNumber) (head : AttestedHead) : nat :=
  S (Z.to_nat ((head_block_number head - from) / MAX_ANCESTRY_HEADERS)).

Definition prove_attested_ancestry (fetch_window : BlockRange → BlockHash → result P2pError (HeaderServe * list Header))
    (from : BlockNumber) (head : AttestedHead) : option (result P2pError AttestedAncestry) :=
  match checked_sub (head_block_number head) from with
  | None =>
      Some (Err (InvalidConfig ("attested head " +:+ pretty (head_block_number head) +:+ " is below block "
                                +:+ pretty from)))
  | Some above =>
      let total := sat_add above 1 in
      prove_windows fetch_window from head (ancestry_fuel from head) ((total - 1) mod MAX_ANCESTRY_HEADERS + 1)
        (head_block_number head) (head_block_hash head) []
  end.

(** ** Live headers from the peers *)

(** What the peers do during one request, in order: one is leased, the
    rotation starts over, or one replies at an instant, after a time. *)
Inductive PoolEvent :=
  | PeerAsked (peer : B512)
  | StartedOver
  | PeerReplied (peer : B512) (at_ elapsed : Z) (reply : result P2pError (list Header)).

(** A request's events, and the error the pool ends it with. *)
Record Pool := MkPool { pool_events : list PoolEvent; pool_ending : P2pError }.

Definition serve_of (range : BlockRange) (expected_tip : option ExpectedTip) (peer : B512) (elapsed : Z) : HeaderServe :=
  MkServe peer (range_end range) elapsed
    (match expected_tip with Some tip => bool_decide (tip_trust tip = VerifiedExpectation) | None => false end).

(** The trust a reply is judged with. *)
Definition expectation_of (expected_tip : option ExpectedTip) : ExpectationTrust :=
  match expected_tip with Some tip => tip_trust tip | None => UnverifiedExpectation end.

Definition on_rotation (f : HeadPollRotation → HeadPollRotation) (r : option HeadPollRotation) : option HeadPollRotation :=
  f <$> r.

(** A reply that failed validation, on the rotation. *)
Definition refuse_reply (error : P2pError) (expected_tip : option ExpectedTip) (peer : B512) (at_ : Z)
    (rotation : option HeadPollRotation) : option HeadPollRotation :=
  match live_header_reply_cost error (expectation_of expected_tip) (is_some_and rotation (λ _, true)) with
  | NotYetCost => on_rotation (λ r, HeadPollRotation.record_not_yet r peer at_) rotation
  | Ban | Cooldown => rotation
  end.

Fixpoint take_replies (show : BlockHash → string) (range : BlockRange) (expected_tip : option ExpectedTip)
    (ending : P2pError) (events : list PoolEvent) (last_error : option P2pError)
    (rotation : option HeadPollRotation) (votes : option HeadVotes)
    : option HeadPollRotation * option HeadVotes * result P2pError (HeaderServe * list Header) :=
  match events with
  | [] =>
      (rotation, votes, Err match ending with Cancelled => Cancelled | _ => default ending last_error end)
  | PeerAsked peer :: rest =>
      take_replies show range expected_tip ending rest last_error
        (on_rotation (λ r, HeadPollRotation.record_asked r peer) rotation) votes
  | StartedOver :: rest =>
      take_replies show range expected_tip ending rest last_error
        (on_rotation (λ r, (HeadPollRotation.start_over r).1) rotation) votes
  | PeerReplied peer at_ elapsed (Err Cancelled) :: _ => (rotation, votes, Err Cancelled)
  | PeerReplied peer at_ elapsed (Err error) :: rest =>
      take_replies show range expected_tip ending rest (Some error) rotation votes
  | PeerReplied peer at_ elapsed (Ok reply) :: rest =>
      match validate_live_headers show range expected_tip reply with
      | Err error =>
          take_replies show range expected_tip ending rest (Some error)
            (refuse_reply error expected_tip peer at_ rotation) votes
      | Ok headers =>
          let rotation := on_rotation (λ r, HeadPollRotation.record_served r peer at_) rotation in
          let serve := serve_of range expected_tip peer elapsed in
          match votes, last headers with
          | Some v, Some header =>
              match record_vote v (range_end range) peer header HEAD_PEER_QUORUM with
              | (v, Some agreed) => (rotation, Some v, Ok (serve, [agreed]))
              | (v, None) =>
                  take_replies show range expected_tip ending rest
                    (Some (IncompleteResponse "headers" 1 (Z.of_nat HEAD_PEER_QUORUM))) rotation (Some v)
              end
          | _, _ => (rotation, votes, Ok (serve, headers))
          end
      end
  end.

Definition fetch_live_headers_from_untried_peers (show : BlockHash → string) (range : BlockRange)
    (expected_tip : option ExpectedTip) (rotation : option HeadPollRotation) (votes : option HeadVotes) (pool : Pool)
    : option HeadPollRotation * option HeadVotes * result P2pError (HeaderServe * list Header) :=
  take_replies show range expected_tip (pool_ending pool) (pool_events pool) None rotation votes.

(** [anchor_attested_ancestry]: each window by the hash of its top block. *)
Definition fetch_window (show : BlockHash → string) (peers : BlockRange → BlockHash → Pool) (range : BlockRange)
    (top_hash : BlockHash) : result P2pError (HeaderServe * list Header) :=
  (fetch_live_headers_from_untried_peers show range (Some (MkExpectedTip top_hash VerifiedExpectation)) None None
     (peers range top_hash)).2.

Definition anchor_attested_ancestry (show : BlockHash → string) (peers : BlockRange → BlockHash → Pool)
    (from : BlockNumber) (head : AttestedHead) : option (result P2pError AttestedAncestry) :=
  prove_attested_ancestry (fetch_window show peers) from head.

(** ** Linked blocks, oldest first *)

Fixpoint extends (tip : BlockRef) (blocks : list BlockRef) : Prop :=
  match blocks with
  | [] => True
  | b :: rest => ref_number b = ref_number tip + 1 ∧ ref_parent_hash b = ref_hash tip ∧ extends b rest
  end.

Definition linked (blocks : list BlockRef) : Prop :=
  match blocks with [] => True | b :: rest => extends b rest end.

Lemma extends_app tip xs ys :
  extends tip (xs ++ ys) ↔ extends tip xs ∧ extends (default tip (last xs)) ys.
Proof.
  revert tip. induction xs as [|x xs IH]; intros tip; [cbn; tauto|]. cbn [extends app]. rewrite IH.
  rewrite last_cons. destruct (last xs); cbn; tauto.
Qed.

Lemma linked_cons tip xs : linked (tip :: xs) ↔ extends tip xs.
Proof. done. Qed.

Lemma linked_snoc xs tip b :
  last xs = Some tip → linked xs → extends tip [b] → linked (xs ++ [b]).
Proof.
  destruct xs as [|x xs]; [done|]. rewrite last_cons. cbn [linked app]. rewrite extends_app. intros Hlast Hx Hb.
  split; [done|]. by destruct (last xs); injection Hlast as ->.
Qed.

Lemma linked_app xs tip ys : last xs = Some tip → linked xs → extends tip ys → linked (xs ++ ys).
Proof.
  destruct xs as [|x xs]; [done|]. rewrite last_cons. cbn [linked app]. rewrite extends_app. intros Hlast Hx Hb.
  split; [done|]. by destruct (last xs); injection Hlast as ->.
Qed.

Lemma linked_app_l xs ys : linked (xs ++ ys) → linked xs.
Proof. destruct xs; [done|]. cbn. by intros [? _]%extends_app. Qed.

Lemma linked_app_r xs ys : linked (xs ++ ys) → linked ys.
Proof.
  destruct xs as [|x xs]; [done|]. cbn [app linked]. rewrite extends_app. intros [_ Hy].
  destruct ys; [done|]. by destruct Hy as (_ & _ & ?).
Qed.

Lemma extends_number tip xs b : extends tip xs → b ∈ xs → ref_number tip < ref_number b.
Proof.
  revert tip. induction xs as [|x xs IH]; intros tip; [set_solver|]. intros (Hn & _ & Hx) [->|Hb]%elem_of_cons; [lia|].
  specialize (IH x Hx Hb). lia.
Qed.

Lemma extends_linked tip xs : extends tip xs → linked xs.
Proof. destruct xs; [done|]. by intros (_ & _ & ?). Qed.

Lemma extends_last tip xs : extends tip xs → ref_number (default tip (last xs)) = ref_number tip + Z.of_nat (length xs).
Proof.
  revert tip. induction xs as [|x xs IH]; intros tip; [cbn; lia|]. intros (Hn & _ & Hx). rewrite last_cons.
  specialize (IH x Hx). cbn [length]. destruct (last xs); cbn in IH |- *; lia.
Qed.

(** ** What validated replies are *)

(** A header's parent, by hash. *)
Definition parent_of (child parent : BlockHash) : Prop :=
  ∃ header, hash_slow header = child ∧ header_parent_hash header = parent.

(** The headers of consecutive blocks from [number] on, oldest first. *)
Record chain_of (number : Z) (headers : list Header) : Prop := {
  chain_linked : linked (header_block_ref <$> headers);
  chain_first header : head headers = Some header → header_number header = number;
}.

Lemma extends_ancestors header headers tip :
  extends (header_block_ref header) (header_block_ref <$> headers) →
  last (header :: headers) = Some tip →
  ∀ h, h ∈ header :: headers → rtc parent_of (hash_slow tip) (hash_slow h).
Proof.
  revert header. induction headers as [|x headers IH]; intros header.
  - intros _ [= ->] h [->|?%elem_of_nil]%elem_of_cons; [apply rtc_refl|done].
  - intros (_ & Hp & Hx) Hlast h Hin. rewrite last_cons_cons in Hlast.
    assert (rtc parent_of (hash_slow tip) (hash_slow x)) as Htip by (apply (IH x Hx Hlast); set_solver).
    apply elem_of_cons in Hin as [->|Hin]; [|by apply (IH x)].
    eapply rtc_r; [exact Htip|]. exists x. split; [done|exact Hp].
Qed.

Lemma linked_ancestors headers tip h :
  linked (header_block_ref <$> headers) → last headers = Some tip → h ∈ headers →
  rtc parent_of (hash_slow tip) (hash_slow h).
Proof.
  intros Hl Hlast Hin. destruct headers as [|x headers]; [set_solver|].
  eapply extends_ancestors; [exact Hl|exact Hlast|exact Hin].
Qed.

Lemma chain_ancestors number headers tip h :
  chain_of number headers → last headers = Some tip → h ∈ headers →
  rtc parent_of (hash_slow tip) (hash_slow h).
Proof. intros [Hl _]. by apply linked_ancestors. Qed.

Lemma extends_lookup x headers i h :
  extends (header_block_ref x) (header_block_ref <$> headers) → (x :: headers) !! i = Some h →
  header_number h = header_number x + Z.of_nat i.
Proof.
  revert x i. induction headers as [|y headers IH]; intros x i.
  - intros _ Hi. destruct i; [injection Hi as ->; lia|done].
  - intros (Hn & _ & Hx) Hi. destruct i as [|i]; [injection Hi as ->; lia|]. cbn in Hn.
    rewrite (IH y i Hx Hi), Hn. lia.
Qed.

Lemma chain_number number headers i h :
  chain_of number headers → headers !! i = Some h → header_number h = number + Z.of_nat i.
Proof.
  intros [Hl Hf] Hi. destruct headers as [|x headers]; [done|]. rewrite <-(Hf x eq_refl).
  by apply (extends_lookup x headers).
Qed.

Lemma chain_of_drop number headers n : chain_of number headers → chain_of (number + Z.of_nat n) (drop n headers).
Proof.
  intros Hc. split.
  - destruct Hc as [Hl _]. rewrite <-(take_drop n headers), fmap_app in Hl. by apply linked_app_r in Hl.
  - intros h Hh. apply (chain_number _ _ n _ Hc). by rewrite head_lookup, lookup_drop, Nat.add_0_r in Hh.
Qed.

Lemma chain_of_take number headers n : chain_of number headers → chain_of number (List.firstn n headers).
Proof.
  intros [Hl Hf]. split.
  - rewrite <-(take_drop n headers), fmap_app in Hl. by apply linked_app_l in Hl.
  - intros h Hh. apply Hf. destruct n; [done|]. by destruct headers.
Qed.

Context `{!AlloyHeaderLaws}.

Lemma header_next (header : Header) number : header_number header = sat_add number 1 → header_number header = number + 1.
Proof. intros Hn. pose proof (header_number_range header). revert Hn. uints. Qed.

Lemma validate_headers_from_extends start offset p headers :
  validate_headers_from start offset (Some p) headers = Ok tt →
  header_number p = start + Z.of_nat offset - 1 → extends (header_block_ref p) (header_block_ref <$> headers).
Proof.
  revert offset p. induction headers as [|h headers IH]; intros offset p; [done|].
  cbn [validate_headers_from]. unfold validate_header_at.
  destruct (Z.eqb_spec (header_number h) (sat_add start (Z.of_nat offset))) as [Hn|]; [|done].
  cbn. destruct (bool_decide (header_parent_hash h = hash_slow p)) eqn:Hp; [|done]. cbn. intros Hrest Hprev.
  apply bool_decide_eq_true in Hp. pose proof (header_number_range h).
  assert (header_number h = start + Z.of_nat offset) by (revert Hn; uints).
  split_and!; [cbn; lia|done|]. apply (IH (S offset)); [done|lia].
Qed.

Lemma validate_headers_from_chain start headers :
  validate_headers_from start 0 None headers = Ok tt → chain_of start headers.
Proof.
  destruct headers as [|h headers]; [by split|].
  cbn [validate_headers_from]. unfold validate_header_at.
  destruct (Z.eqb_spec (header_number h) (sat_add start (Z.of_nat 0))) as [Hn|]; [|done]. cbn. intros Hrest.
  pose proof (header_number_range h). assert (header_number h = start) by (revert Hn; uints).
  split; [|by intros ? [= <-]]. apply (validate_headers_from_extends start 1); [done|lia].
Qed.

Lemma validate_headers_Ok show range headers expected :
  validate_headers show range headers expected = Ok tt →
  Z.of_nat (length headers) = BlockRange.len range ∧ chain_of (range_start range) headers
  ∧ ∀ hash, expected = Some hash → ∀ tip, last headers = Some tip → hash_slow tip = hash.
Proof.
  unfold validate_headers. destruct (Z.eqb_spec (Z.of_nat (length headers)) (BlockRange.len range)); [|done]. cbn [negb].
  intros ([] & Hfrom & Htip)%result_bind_Ok. split; [done|]. split.
  - by apply validate_headers_from_chain.
  - intros hash -> tip Hlast. rewrite Hlast in Htip. by case_bool_decide.
Qed.

Lemma descending_linked headers :
  List.find (λ link, negb (descends link)) (windows2 headers) = None →
  linked (header_block_ref <$> rev headers).
Proof.
  induction headers as [|a headers IH]; [done|]. destruct headers as [|b headers]; [done|]. cbn [windows2 List.find].
  destruct (descends (a, b)) eqn:Hd; [|done]. cbn [negb]. intros Hrest. specialize (IH Hrest).
  unfold descends in Hd. cbn in Hd. apply andb_prop in Hd as [Hn%Z.eqb_eq Hp%bool_decide_eq_true].
  apply header_next in Hn. cbn [rev]. cbn [rev] in IH. rewrite fmap_app. eapply linked_snoc; [|exact IH|].
  - rewrite fmap_app. apply last_snoc.
  - cbn. done.
Qed.

Lemma validate_descending_headers_Ok number hash headers :
  validate_descending_headers number hash headers = Ok tt →
  linked (header_block_ref <$> rev headers)
  ∧ ∃ first, head headers = Some first ∧ hash_slow first = hash ∧ header_number first = number.
Proof.
  unfold validate_descending_headers. destruct headers as [|first headers]; [done|].
  case_bool_decide; [|done]. cbn [negb]. destruct (Z.eqb_spec (header_number first) number); [|done]. cbn [negb].
  destruct (List.find _ _) eqn:Hfind; [done|]. intros _. split; [by apply descending_linked|]. by exists first.
Qed.

Lemma length_range range : BlockRange.valid range → BlockRange.len range < u64_max →
  BlockRange.len range = range_end range - range_start range + 1.
Proof. unfold BlockRange.valid, BlockRange.len. uints. Qed.

(** The headers of a range, as every validated reply has them. *)
Record range_chain (range : BlockRange) (headers : list Header) : Prop := {
  range_chain_of : chain_of (range_start range) headers;
  range_chain_len : Z.of_nat (length headers) = BlockRange.len range;
}.

Lemma validate_live_headers_Ok show range expected reply headers :
  BlockRange.valid range → range_end range < u64_max →
  validate_live_headers show range expected reply = Ok headers →
  range_chain range headers
  ∧ ∀ tip, expected = Some tip → ∀ h, last headers = Some h → hash_slow h = tip_hash tip.
Proof.
  intros Hvalid Hend. assert (BlockRange.len range = range_end range - range_start range + 1) as Hlen.
  { unfold BlockRange.valid, BlockRange.len in *. uints. }
  unfold validate_live_headers. destruct (verified_tip expected) as [tip|] eqn:Htip.
  - destruct (Z.ltb_spec (BlockRange.len range) (Z.of_nat (length reply))); [done|].
    case_bool_decide; [done|]. intros ([] & Hd & Hlength)%result_bind_Ok.
    destruct (Z.ltb_spec (Z.of_nat (length reply)) (BlockRange.len range)); [done|]. injection Hlength as <-.
    apply validate_descending_headers_Ok in Hd as (Hl & first & Hfirst & Hhash & Hnumber).
    destruct reply as [|x reply]; [done|]. injection Hfirst as ->.
    assert (last (rev (first :: reply)) = Some first) as Hlast by apply last_snoc.
    split; [split|].
    + split; [done|]. intros h Hh.
      destruct (rev (first :: reply)) as [|y ys] eqn:Hrev; [done|]. injection Hh as ->.
      pose proof (length_rev (first :: reply)) as Hlr. rewrite Hrev in Hlr. cbn [length] in Hlr.
      rewrite last_lookup in Hlast. cbn [length pred] in Hlast.
      pose proof (extends_lookup _ _ _ _ Hl Hlast). cbn [length] in *. lia.
    + rewrite length_rev. lia.
    + intros t -> h Hh. rewrite Hlast in Hh. injection Hh as <-. rewrite Hhash. cbn in Htip.
      destruct (tip_trust t); congruence.
  - intros ([] & Hv & [= <-])%result_bind_Ok. apply validate_headers_Ok in Hv as (Hl & Hc & Ht).
    split; [by split|]. intros t -> h Hh. by apply (Ht (tip_hash t)).
Qed.

(** ** Reorg plans *)

Lemma find_map_Some {A B} (f : A → option B) xs y : find_map f xs = Some y → ∃ x, x ∈ xs ∧ f x = Some y.
Proof.
  induction xs as [|x xs IH]; [done|]. cbn. destruct (f x) eqn:Hf; [intros [= <-]; exists x; set_solver|].
  intros (z & ? & ?)%IH. exists z. set_solver.
Qed.

Lemma known_block_Some recent header b :
  known_block recent header = Some b →
  b ∈ recent ∧ ref_number b = header_number header ∧ ref_hash b = hash_slow header.
Proof.
  unfold known_block. intros [Hin%List.in_rev Hb]%List.find_some.
  apply andb_prop in Hb as [Hn%Z.eqb_eq Hh%bool_decide_eq_true].
  split; [by apply list_elem_of_In|done].
Qed.

(** Above a block of a linked list are the blocks after it. *)
Lemma take_while_above ancestor pre above :
  extends ancestor above →
  take_while (λ b, ref_number ancestor <? ref_number b) (rev (pre ++ ancestor :: above)) = rev above.
Proof.
  intros Habove. rewrite rev_app_distr. cbn [rev]. rewrite <-app_assoc. cbn [app].
  assert (∀ b, b ∈ rev above → ref_number ancestor < ref_number b) as Hall.
  { intros b Hb. apply (extends_number _ above); [done|]. by apply list_elem_of_In, List.in_rev, list_elem_of_In. }
  generalize dependent (rev above). clear Habove above. intros xs Hall. induction xs as [|x xs IH].
  - cbn. by rewrite Z.ltb_irrefl.
  - cbn. rewrite (proj2 (Z.ltb_lt _ _)) by (apply Hall; set_solver). f_equal. apply IH. set_solver.
Qed.

Lemma plan_reorg_Ok recent descending ancestor reverted :
  linked recent → plan_reorg recent descending = Ok (ancestor, reverted) →
  ∃ pre, recent = pre ++ ancestor :: rev reverted ∧ reverted ≠ []
  ∧ ∃ header, header ∈ descending ∧ header_number header = ref_number ancestor ∧ hash_slow header = ref_hash ancestor.
Proof.
  intros Hl. unfold plan_reorg. destruct (find_map _ _) as [a|] eqn:Hfind.
  - case_bool_decide as Hne; [done|]. intros [= <- <-]. apply find_map_Some in Hfind as (header & Hin & Hk).
    apply known_block_Some in Hk as (Ha & Hn & Hh). apply list_elem_of_split in Ha as (pre & above & ->).
    assert (extends a above) as Hext by (apply linked_app_r in Hl; exact Hl).
    rewrite take_while_above in Hne |- * by done. exists pre. rewrite rev_involutive. split; [done|].
    split; [done|]. by exists header.
  - destruct (last descending), (head recent); try done. by destruct (_ <? _).
Qed.

(** ** What the peers' headers are *)

(** Votes the lane can hold: recorded ones, each for a header of its block. *)
Definition counted (v : HeadVotes) : Prop :=
  (∃ votes, counts v votes)
  ∧ ∀ hash header peers, by_hash v !! hash = Some (header, peers) → votes_block v = Some (header_number header).

Lemma no_votes_counted : counted no_votes.
Proof. split; [by exists []|]. intros hash header peers Hv. cbn in Hv. by rewrite lookup_empty in Hv. Qed.

Lemma record_counted v block peer header quorum :
  counted v → header_number header = block →
  counted (record_vote v block peer header quorum).1
  ∧ ∀ agreed, (record_vote v block peer header quorum).2 = Some agreed → header_number agreed = block.
Proof.
  intros [[votes Hv] Hnumbers] Hn. split; [split; [eexists; by apply record_counts|]|].
  - intros hash a p. unfold record_vote. case_bool_decide as Hblock; cbn [by_hash].
    + destruct (default _ _) as [a' p'] eqn:Hd. cbn. destruct (decide (hash = hash_slow header)) as [->|Hne].
      * rewrite lookup_insert_eq. intros [= <- <-]. destruct (by_hash v !! hash_slow header) as [[a1 p1]|] eqn:Hl.
        -- cbn in Hd. injection Hd as -> ->. by eapply Hnumbers.
        -- cbn in Hd. injection Hd as <- <-. by rewrite Hblock, Hn.
      * rewrite lookup_insert_ne by done. by apply Hnumbers.
    + rewrite lookup_empty. cbn. destruct (decide (hash = hash_slow header)) as [->|Hne].
      * rewrite lookup_insert_eq. intros [= <- <-]. by rewrite Hn.
      * rewrite lookup_insert_ne by done. by rewrite lookup_empty.
  - intros agreed. unfold record_vote. case_bool_decide as Hblock; cbn [by_hash].
    + destruct (by_hash v !! hash_slow header) as [[a1 p1]|] eqn:Hl; cbn; destruct (_ <=? _)%nat; try done; intros [= <-]; [|done].
      apply Hnumbers in Hl. congruence.
    + rewrite lookup_empty. cbn. destruct (_ <=? _)%nat; [|done]. by intros [= <-].
Qed.

Lemma range_chain_last range headers tip :
  BlockRange.valid range → range_end range < u64_max → range_chain range headers → last headers = Some tip →
  header_number tip = range_end range.
Proof.
  intros Hvalid Hend [Hc Hlen] Hlast. rewrite last_lookup in Hlast. pose proof (chain_number _ _ _ _ Hc Hlast) as Hn.
  unfold BlockRange.valid, BlockRange.len in *.
  assert (Z.of_nat (length headers) = range_end range - range_start range + 1) by (rewrite Hlen; uints).
  rewrite Hn. destruct headers; [done|]. cbn [length pred] in *. lia.
Qed.

(** Without votes, a reply that was validated; with them, a header of the
    range's last block. *)
Definition served_by (show : BlockHash → string) (range : BlockRange) (expected_tip : option ExpectedTip)
    (voting : bool) (headers : list Header) : Prop :=
  if voting then ∃ agreed, headers = [agreed] ∧ header_number agreed = range_end range
  else ∃ reply, validate_live_headers show range expected_tip reply = Ok headers.

Lemma take_replies_served show range expected_tip ending events last_error rotation votes rotation' votes' r :
  BlockRange.valid range → range_end range < u64_max →
  (∀ v, votes = Some v → counted v) →
  take_replies show range expected_tip ending events last_error rotation votes = (rotation', votes', r) →
  (∀ v, votes' = Some v → counted v)
  ∧ ∀ serve headers, r = Ok (serve, headers) → served_by show range expected_tip (is_some_and votes (λ _, true)) headers.
Proof.
  intros Hvalid Hend. revert last_error rotation votes.
  induction events as [|[peer| |peer at_ elapsed reply] events IH]; intros last_error rotation votes Hvotes;
    [by intros [= <- <- <-]|by apply IH|by apply IH|].
  cbn [take_replies]. destruct reply as [reply|e]; [|destruct e; try (by intros [= <- <- <-]); by apply IH].
  destruct (validate_live_headers show range expected_tip reply) as [validated|e] eqn:Hv; [|by apply IH].
  pose proof (validate_live_headers_Ok _ _ _ _ _ Hvalid Hend Hv) as [Hchain _].
  destruct votes as [v|]; [destruct (last validated) as [header|] eqn:Hlast|].
  - pose proof (range_chain_last _ _ _ Hvalid Hend Hchain Hlast) as Hnumber.
    destruct (record_counted v (range_end range) peer header HEAD_PEER_QUORUM (Hvotes v eq_refl) Hnumber) as [Hcounted Hagreed].
    destruct (record_vote v (range_end range) peer header HEAD_PEER_QUORUM) as [v' [agreed|]].
    + intros [= <- <- <-]. split; [by intros ? [= <-]|]. intros serve headers [= _ <-]. exists agreed. split; [done|by apply Hagreed].
    + intros Hrest. apply IH in Hrest; [exact Hrest|by intros ? [= <-]].
  - destruct Hchain as [_ Hlen]. rewrite last_None in Hlast. subst validated.
    exfalso. unfold BlockRange.valid, BlockRange.len in *. revert Hlen. cbn. uints.
  - intros [= <- <- <-]. split; [done|]. intros serve headers [= _ <-]. by exists reply.
Qed.

(** Headers fetched without votes. *)
Lemma fetch_live_headers_Ok show range expected_tip rotation pool rotation' votes' serve headers :
  BlockRange.valid range → range_end range < u64_max →
  fetch_live_headers_from_untried_peers show range expected_tip rotation None pool = (rotation', votes', Ok (serve, headers)) →
  range_chain range headers ∧ ∀ tip, expected_tip = Some tip → ∀ h, last headers = Some h → hash_slow h = tip_hash tip.
Proof.
  intros Hvalid Hend Hfetch. apply take_replies_served in Hfetch as [_ Hserved]; [|done..].
  destruct (Hserved _ _ eq_refl) as [reply Hv]. by eapply validate_live_headers_Ok.
Qed.

(** ** The ancestry is proven *)

Lemma fetch_window_Ok show peers range top serve headers :
  BlockRange.valid range → range_end range < u64_max →
  fetch_window show peers range top = Ok (serve, headers) →
  range_chain range headers ∧ ∀ h, last headers = Some h → hash_slow h = top.
Proof.
  intros Hvalid Hend. unfold fetch_window.
  destruct (fetch_live_headers_from_untried_peers _ _ _ _ _ _) as [[r v] o] eqn:Hfetch. cbn. intros ->.
  apply fetch_live_headers_Ok in Hfetch as [Hc Ht]; [|done..]. split; [done|]. intros h. by apply (Ht _ eq_refl).
Qed.

(** What a proof of [head]'s chain down to [from] holds. *)
Record proves (from : BlockNumber) (head : AttestedHead) (a : AttestedAncestry) : Prop := {
  proves_head : ancestry_head a = Some head;
  proves_chain : chain_of from (ancestry_headers a);
  proves_len : Z.of_nat (length (ancestry_headers a)) = Z.min (head_block_number head - from + 1) MAX_ANCESTRY_HEADERS;
  proves_headers h : h ∈ ancestry_headers a → rtc parent_of (head_block_hash head) (hash_slow h);
  proves_rungs r : r ∈ rungs a →
    rtc parent_of (head_block_hash head) (head_block_hash r)
    ∧ from ≤ head_block_number r ≤ head_block_number head - MAX_ANCESTRY_HEADERS;
}.

(** The invariant of the loop: a whole number of windows below this one. *)
Record window_ok (from : BlockNumber) (head : AttestedHead) (size top : Z) (top_hash : BlockHash)
    (rungs : list AttestedHead) : Prop := {
  window_size : 0 < size ≤ MAX_ANCESTRY_HEADERS;
  window_below : ∃ k, 0 ≤ k ∧ top - from + 1 = size + MAX_ANCESTRY_HEADERS * k;
  window_top : from ≤ top ≤ head_block_number head;
  window_full : top ≠ head_block_number head → size = MAX_ANCESTRY_HEADERS;
  window_hash : rtc parent_of (head_block_hash head) top_hash;
  window_rungs r : r ∈ rungs → rtc parent_of (head_block_hash head) (head_block_hash r)
    ∧ from ≤ head_block_number r ≤ head_block_number head - MAX_ANCESTRY_HEADERS;
}.

Lemma prove_windows_proves show peers from head fuel size top top_hash rungs :
  0 ≤ from → head_block_number head < u64_max → window_ok from head size top top_hash rungs →
  (top - from) / MAX_ANCESTRY_HEADERS < Z.of_nat fuel →
  ∃ r, prove_windows (fetch_window show peers) from head fuel size top top_hash rungs = Some r
  ∧ ∀ a, r = Ok a → proves from head a.
Proof.
  intros Hfrom Hhead. revert size top top_hash rungs.
  induction fuel as [|fuel IH]; intros size top top_hash rungs [Hsize (k & Hk & Hbelow) Htop Hfull Hhash Hrungs] Hfuel.
  { exfalso. assert (0 ≤ (top - from) / MAX_ANCESTRY_HEADERS) by (apply Z.div_pos; unfold MAX_ANCESTRY_HEADERS in *; lia). lia. }
  cbn [prove_windows]. unfold MAX_ANCESTRY_HEADERS in *.
  assert (Z.max (sat_sub top (size - 1)) from = top - size + 1) as -> by (unfold sat_sub; lia).
  unfold BlockRange.new. rewrite (proj2 (Z.leb_le _ _)) by lia.
  set (rungs' := if 1024 <=? head_block_number head - top then _ else rungs).
  assert (∀ r, r ∈ rungs' → rtc parent_of (head_block_hash head) (head_block_hash r)
    ∧ from ≤ head_block_number r ≤ head_block_number head - 1024) as Hrungs'.
  { subst rungs'. intros r. destruct (Z.leb_spec 1024 (head_block_number head - top)); [|by apply Hrungs].
    intros [Hr|Hr]%elem_of_app; [by apply Hrungs|]. apply list_elem_of_singleton in Hr as ->. cbn. split; [done|lia]. }
  assert (BlockRange.valid (MkBlockRange (top - size + 1) top)) as Hvalid by (unfold BlockRange.valid; cbn; uints).
  destruct (fetch_window show peers _ top_hash) as [[serve headers]|e] eqn:Hfetch; [|by eexists].
  apply fetch_window_Ok in Hfetch as [[Hc Hlen] Hlast]; [|done|cbn; lia].
  assert (BlockRange.len (MkBlockRange (top - size + 1) top) = size) as Heq by (unfold BlockRange.len; cbn; uints).
  rewrite Heq in Hlen. cbn [range_start] in Hc.
  destruct headers as [|lowest headers]; [cbn in Hlen; lia|].
  destruct (last (lowest :: headers)) as [tip|] eqn:Htip; [|by apply last_None in Htip].
  assert (∀ h, h ∈ lowest :: headers → rtc parent_of (head_block_hash head) (hash_slow h)) as Hreach.
  { intros h Hh. etrans; [exact Hhash|]. rewrite <-(Hlast tip eq_refl). by eapply chain_ancestors. }
  destruct (Z.eqb_spec (top - size + 1) from) as [Hdone|Hmore].
  - eexists. split; [done|]. intros a [= <-]. split; cbn [ancestry_proven ancestry_head ancestry_headers].
    + done.
    + by rewrite <-Hdone.
    + rewrite Hlen. unfold MAX_ANCESTRY_HEADERS. destruct (decide (top = head_block_number head)); [lia|].
      specialize (Hfull ltac:(done)). lia.
    + done.
    + intros r Hr. apply list_elem_of_In, List.in_rev, list_elem_of_In in Hr. by apply Hrungs'.
  - apply IH.
    + split; unfold MAX_ANCESTRY_HEADERS; try done; try lia.
      * exists (k - 1). lia.
      * eapply rtc_r; [apply (Hreach lowest); set_solver|]. by exists lowest.
    + assert ((top - from) / 1024 = (top - size - from) / 1024 + 1); [|replace (top - size + 1 - 1) with (top - size) by lia; lia].
      assert (1 ≤ k) by lia.
      replace (top - from) with ((size - 1) + k * 1024) by lia. replace (top - size - from) with (1023 + (k - 1) * 1024) by lia.
      rewrite !Z.div_add by lia. rewrite !Z.div_small by lia. lia.
Qed.

Lemma anchor_proves show peers from head :
  0 ≤ from ≤ head_block_number head → head_block_number head < u64_max →
  ∃ r, anchor_attested_ancestry show peers from head = Some r ∧ ∀ a, r = Ok a → proves from head a.
Proof.
  intros [Hfrom Hle] Hhead. unfold anchor_attested_ancestry, prove_attested_ancestry, checked_sub.
  rewrite (proj2 (Z.leb_le _ _) Hle).
  pose proof (Z.div_mod (head_block_number head - from) 1024 ltac:(lia)) as Hdiv.
  pose proof (Z.mod_pos_bound (head_block_number head - from) 1024 ltac:(lia)) as Hmod.
  assert (0 ≤ (head_block_number head - from) / 1024) by (apply Z.div_pos; lia).
  assert (sat_add (head_block_number head - from) 1 - 1 = head_block_number head - from) as -> by uints.
  apply prove_windows_proves; [done|done| |].
  - split; unfold MAX_ANCESTRY_HEADERS; try done; try lia.
    + exists ((head_block_number head - from) / 1024). lia.
    + intros r Hr. by apply elem_of_nil in Hr.
  - unfold ancestry_fuel, MAX_ANCESTRY_HEADERS. lia.
Qed.

(** C23: the proof of an attested head's chain ends, and proves it: whatever
    the peers answer, the windows requested down from the head come to an end
    within one more than a 1,024th of the distance, and if no request failed
    they leave the headers from the first wanted block on, consecutive and
    linked, at most 1,024 of them and all of them when they are fewer, each an
    ancestor by hash of the attested head; and every rung kept for the next
    proof is an ancestor of it too, between the first block and a window below
    the head. *)
Theorem ancestry_ends_proven show peers from head :
  0 ≤ from → head_block_number head < u64_max →
  ∃ r, anchor_attested_ancestry show peers from head = Some r
  ∧ (head_block_number head < from → ∃ e, r = Err e)
  ∧ ∀ a, r = Ok a → from ≤ head_block_number head ∧ proves from head a.
Proof.
  intros Hfrom Hhead. destruct (Z.leb_spec from (head_block_number head)) as [Hle|Hgt].
  - destruct (anchor_proves show peers from head) as (r & Hr & Ha); [lia|done|].
    exists r. split; [done|]. split; [lia|]. intros a Hra. split; [done|by apply Ha].
  - unfold anchor_attested_ancestry, prove_attested_ancestry, checked_sub.
    rewrite (proj2 (Z.leb_gt _ _) Hgt). eexists. split; [done|]. split; [by eexists|done].
Qed.

End live_chain.
