(* ===== verification/LiveMaterial.v ===== *)
(** * Material that subscriptions share

    Models [crates/source-p2p/src/live_material.rs]: the bodies or receipts
    that the live subscriptions of one source share. A call of
    [get_or_fetch] reads the recent blocks, claims the blocks nobody is
    downloading, waits for those another call is, and downloads the ones it
    was left alone with. Calls interleave at every await: the model runs them
    one event at a time over the shared store and its channels. *)
From Stdlib Require Import ZArith Lia Strings.Byte.
From stdpp Require Import gmap strings list list_numbers fin_maps sorting pretty.
From S2P Require Import Prelude Bytes Chain Material SourceContract Cadence LiveHead LiveChain.

Definition RECENT_BLOCKS : nat := 32.

Definition incomplete (returned expected : nat) : P2pError :=
  IncompleteResponse "live material" (Z.of_nat returned) (Z.of_nat expected).

Section material.
Context {V : Type}.

(** A [watch] channel: nothing sent yet, a value, or closed without one. *)
Inductive Channel := ChannelOpen | ChannelTold (value : V) | ChannelClosed.

(** The store: the recent blocks, oldest first, and the channels, by number,
    of the blocks being downloaded. *)
Record SharedStore := MkStore {
  recent_blocks : list (BlockHash * V);
  pending_blocks : gmap BlockHash nat;
}.

(** Where a call is: awaiting what it claimed, each block with its index and
    channel, before it waits; awaiting the first of the channels it waits on,
    with the blocks it has been left alone with; awaiting those; or done, with
    what it returned, [None] if it panicked, or dropped. *)
Inductive Stage :=
  | Downloading (claim : list (nat * BlockHash * nat)) (waiting : list (nat * nat))
  | WaitingOn (index channel : nat) (waiting : list (nat * nat)) (abandoned : list nat)
  | Redownloading (abandoned : list nat)
  | Returned (answer : option (result P2pError (list V)))
  | DroppedCall.

Record Call := MkCall {
  call_hashes : list BlockHash;
  call_material : list (option V);
  call_stage : Stage;
}.

Record MaterialSystem := MkSystem {
  shared_store : SharedStore;
  channels : list Channel;
  calls : list Call;
}.

Definition keep (hash : BlockHash) (value : V) (recent : list (BlockHash * V)) : list (BlockHash * V) :=
  if existsb (λ held, bool_decide (held.1 = hash)) recent then recent
  else (if (length recent =? RECENT_BLOCKS)%nat then tail recent else recent) ++ [(hash, value)].

(** What the loop under the lock has found so far. *)
Record Found := MkFound {
  found_material : list (option V);
  found_waiting : list (nat * nat);
  found_claim : list (nat * BlockHash * nat);
  found_pending : gmap BlockHash nat;
  found_channels : list Channel;
}.

Definition find_block (recent : list (BlockHash * V)) (found : Found) (item : nat * BlockHash) : Found :=
  match List.find (λ held, bool_decide (held.1 = item.2)) recent with
  | Some held =>
      MkFound (<[item.1 := Some held.2]> (found_material found)) (found_waiting found) (found_claim found)
        (found_pending found) (found_channels found)
  | None =>
      match found_pending found !! item.2 with
      | Some receiver =>
          MkFound (found_material found) (found_waiting found ++ [(item.1, receiver)]) (found_claim found)
            (found_pending found) (found_channels found)
      | None =>
          let channel := length (found_channels found) in
          MkFound (found_material found) (found_waiting found) (found_claim found ++ [(item.1, item.2, channel)])
            (<[item.2 := channel]> (found_pending found)) (found_channels found ++ [ChannelOpen])
      end
  end.

Definition find_blocks (sys : MaterialSystem) (hashes : list BlockHash) : Found :=
  fold_left (find_block (recent_blocks (shared_store sys))) (imap pair hashes)
    (MkFound (replicate (length hashes) None) [] [] (pending_blocks (shared_store sys)) (channels sys)).

(** [material.into_iter().collect::<Option<Vec<_>>>().expect(...)]. *)
Definition collected (material : list (option V)) : Stage := Returned (Ok <$> mapM id material).

(** The next wait, or what follows the last. *)
Definition next_wait (material : list (option V)) (waiting : list (nat * nat)) (abandoned : list nat) : Stage :=
  match waiting with
  | (index, channel) :: waiting => WaitingOn index channel waiting abandoned
  | [] => if bool_decide (abandoned = []) then collected material else Redownloading abandoned
  end.

Definition with_call (sys : MaterialSystem) (id : nat) (call : Call) : MaterialSystem :=
  MkSystem (shared_store sys) (channels sys) (<[id := call]> (calls sys)).

(** The call of [get_or_fetch], up to its first await. *)
Definition begin_call (hashes : list BlockHash) (sys : MaterialSystem) : MaterialSystem :=
  let found := find_blocks sys hashes in
  let stage :=
    if bool_decide (found_claim found = []) then next_wait (found_material found) (found_waiting found) []
    else Downloading (found_claim found) (found_waiting found) in
  MkSystem (MkStore (recent_blocks (shared_store sys)) (found_pending found)) (found_channels found)
    (calls sys ++ [MkCall hashes (found_material found) stage]).

(** [Claim::drop]: the blocks go back, and their channels close. *)
Definition hand_back (claim : list (nat * BlockHash * nat)) (sys : MaterialSystem) : MaterialSystem :=
  fold_left (λ sys block,
    MkSystem (MkStore (recent_blocks (shared_store sys)) (delete block.1.2 (pending_blocks (shared_store sys))))
      (<[block.2 := ChannelClosed]> (channels sys)) (calls sys)) claim sys.

(** One block of [Claim::complete]: it is no longer pending, it is recent,
    and the calls that wait for it are told. *)
Definition complete_block (state : MaterialSystem * list (option V)) (item : nat * BlockHash * nat * V)
    : MaterialSystem * list (option V) :=
  let '(sys, material) := state in
  let '(index, hash, channel, value) := item in
  (MkSystem (MkStore (keep hash value (recent_blocks (shared_store sys))) (delete hash (pending_blocks (shared_store sys))))
     (<[channel := ChannelTold value]> (channels sys)) (calls sys),
   <[index := Some value]> material).

Definition complete (claim : list (nat * BlockHash * nat)) (fetched : list V) (sys : MaterialSystem)
    (material : list (option V)) : MaterialSystem * list (option V) :=
  fold_left complete_block (zip claim fetched) (sys, material).

(** One block downloaded after a wait for it failed. *)
Definition keep_abandoned (hashes : list BlockHash) (state : MaterialSystem * list (option V)) (item : nat * V)
    : MaterialSystem * list (option V) :=
  let '(sys, material) := state in
  let recent := recent_blocks (shared_store sys) in
  (MkSystem (MkStore (match hashes !! item.1 with Some hash => keep hash item.2 recent | None => recent end)
     (pending_blocks (shared_store sys))) (channels sys) (calls sys),
   <[item.1 := Some item.2]> material).

Definition failed (call : Call) (error : P2pError) : Call :=
  MkCall (call_hashes call) (call_material call) (Returned (Some (Err error))).

(** The fetch a call awaits answers. *)
Definition answer_call (id : nat) (answer : result P2pError (list V)) (sys : MaterialSystem) : option MaterialSystem :=
  call ← calls sys !! id;
  match call_stage call with
  | Downloading claim waiting =>
      Some match answer with
      | Ok fetched =>
          if negb (length fetched =? length claim)%nat
          then with_call (hand_back claim sys) id (failed call (incomplete (length fetched) (length claim)))
          else
            let '(sys, material) := complete claim fetched sys (call_material call) in
            with_call sys id (MkCall (call_hashes call) material (next_wait material waiting []))
      | Err error => with_call (hand_back claim sys) id (failed call error)
      end
  | Redownloading abandoned =>
      Some match answer with
      | Ok fetched =>
          if negb (length fetched =? length abandoned)%nat
          then with_call sys id (failed call (incomplete (length fetched) (length abandoned)))
          else
            let '(sys, material) :=
              fold_left (keep_abandoned (call_hashes call)) (zip abandoned fetched) (sys, call_material call) in
            with_call sys id (MkCall (call_hashes call) material (collected material))
      | Err error => with_call sys id (failed call error)
      end
  | _ => None
  end.

(** The wait a call is in ends: with what its channel says, or with the
    deadline, which counts only while the channel says nothing, or with the
    cancellation. *)
Inductive WaitResult := ChannelSays | DeadlinePassed | WaitCancel.

Definition end_wait (id : nat) (end_ : WaitResult) (sys : MaterialSystem) : option MaterialSystem :=
  call ← calls sys !! id;
  match call_stage call with
  | WaitingOn index channel waiting abandoned =>
      let got value :=
        let material := <[index := Some value]> (call_material call) in
        Some (with_call sys id (MkCall (call_hashes call) material (next_wait material waiting abandoned))) in
      let left_alone :=
        Some (with_call sys id (MkCall (call_hashes call) (call_material call)
          (next_wait (call_material call) waiting (abandoned ++ [index])))) in
      match end_, channels sys !! channel with
      | WaitCancel, _ => Some (with_call sys id (failed call Cancelled))
      | ChannelSays, Some (ChannelTold value) => got value
      | ChannelSays, Some ChannelClosed => left_alone
      | DeadlinePassed, Some ChannelOpen => left_alone
      | _, _ => None
      end
  | _ => None
  end.

(** The future of a call is dropped at the await it is in. *)
Definition drop_call (id : nat) (sys : MaterialSystem) : option MaterialSystem :=
  call ← calls sys !! id;
  let dropped sys := Some (with_call sys id (MkCall (call_hashes call) (call_material call) DroppedCall)) in
  match call_stage call with
  | Downloading claim _ => dropped (hand_back claim sys)
  | WaitingOn _ _ _ _ | Redownloading _ => dropped sys
  | Returned _ | DroppedCall => None
  end.

Inductive MaterialEvent :=
  | Begin (hashes : list BlockHash)
  | Answer (id : nat) (answer : result P2pError (list V))
  | EndWait (id : nat) (end_ : WaitResult)
  | DropCall (id : nat).

Definition material_event (e : MaterialEvent) (sys : MaterialSystem) : option MaterialSystem :=
  match e with
  | Begin hashes => Some (begin_call hashes sys)
  | Answer id answer => answer_call id answer sys
  | EndWait id end_ => end_wait id end_ sys
  | DropCall id => drop_call id sys
  end.

Definition material_start : MaterialSystem := MkSystem (MkStore [] ∅) [] [].

Fixpoint material_run (events : list MaterialEvent) (sys : MaterialSystem) : option MaterialSystem :=
  match events with
  | [] => Some sys
  | e :: events => sys ← material_event e sys; material_run events sys
  end.
End material.
Arguments Channel : clear implicits.
Arguments Stage : clear implicits.
Arguments Call : clear implicits.
Arguments MaterialSystem : clear implicits.
Arguments MaterialEvent : clear implicits.

(** ** What every interleaving keeps *)

Section facts.
Context {V : Type} (good : BlockHash → V → Prop).

Definition claim_of (stage : Stage V) : list (nat * BlockHash * nat) :=
  match stage with Downloading claim _ => claim | _ => [] end.
Definition waits_of (stage : Stage V) : list (nat * nat) :=
  match stage with
  | Downloading _ waiting => waiting
  | WaitingOn index channel waiting _ => (index, channel) :: waiting
  | _ => []
  end.
Definition left_of (stage : Stage V) : list nat :=
  match stage with WaitingOn _ _ _ abandoned | Redownloading abandoned => abandoned | _ => [] end.
Definition is_done (stage : Stage V) : bool := match stage with Returned _ | DroppedCall => true | _ => false end.

(** A call downloads a block for the others. *)
Definition owns (sys : MaterialSystem V) (id : nat) (block : nat * BlockHash * nat) : Prop :=
  ∃ call, calls sys !! id = Some call ∧ block ∈ claim_of (call_stage call).

(** The hashes a call awaits the material of. *)
Definition asked (call : Call V) : list BlockHash :=
  match call_stage call with
  | Downloading claim _ => (λ block, block.1.2) <$> claim
  | Redownloading abandoned => omap (λ index, call_hashes call !! index) abandoned
  | _ => []
  end.

(** What a fetch answers with is material of the hashes asked for. *)
Definition answers_well (sys : MaterialSystem V) (e : MaterialEvent V) : Prop :=
  match e with
  | Answer id (Ok fetched) => ∀ call i hash value, calls sys !! id = Some call → asked call !! i = Some hash →
      fetched !! i = Some value → good hash value
  | _ => True
  end.

(** The systems that calls and their fetches can reach. *)
Inductive reached : MaterialSystem V → Prop :=
  | reached_start : reached material_start
  | reached_event sys e sys' : reached sys → answers_well sys e → material_event e sys = Some sys' → reached sys'.

(** Every index of a call has its material or is on its way. *)
Definition covered (call : Call V) (i : nat) : Prop :=
  is_Some (mjoin (call_material call !! i)) ∨ i ∈ (λ block, block.1.1) <$> claim_of (call_stage call)
  ∨ i ∈ fst <$> waits_of (call_stage call) ∨ i ∈ left_of (call_stage call).

(** [labels] are the hashes the channels are for. *)
Record call_ok (labels : list BlockHash) (chans : list (Channel V)) (call : Call V) : Prop := {
  call_length : length (call_material call) = length (call_hashes call);
  call_good i hash value : call_hashes call !! i = Some hash → mjoin (call_material call !! i) = Some value → good hash value;
  call_claims : NoDup ((λ block, block.1.2) <$> claim_of (call_stage call));
  call_claim i hash channel : (i, hash, channel) ∈ claim_of (call_stage call) →
    call_hashes call !! i = Some hash ∧ labels !! channel = Some hash ∧ chans !! channel = Some ChannelOpen;
  call_wait i channel : (i, channel) ∈ waits_of (call_stage call) →
    ∃ hash, call_hashes call !! i = Some hash ∧ labels !! channel = Some hash;
  call_left i : i ∈ left_of (call_stage call) → (i < length (call_hashes call))%nat;
  call_covered i : (i < length (call_hashes call))%nat → is_done (call_stage call) = false → covered call i;
  call_answer answer : call_stage call = Returned answer →
    ∃ r, answer = Some r ∧ ∀ material, r = Ok material → Forall2 good (call_hashes call) material;
}.

Record recent_ok (recent : list (BlockHash * V)) : Prop := {
  recent_unique : NoDup (fst <$> recent);
  recent_length : (length recent ≤ RECENT_BLOCKS)%nat;
  recent_good hash value : (hash, value) ∈ recent → good hash value;
}.

Record system_ok (labels : list BlockHash) (sys : MaterialSystem V) : Prop := {
  sys_labels : length labels = length (channels sys);
  sys_recent : recent_ok (recent_blocks (shared_store sys));
  sys_told channel hash value : channels sys !! channel = Some (ChannelTold value) → labels !! channel = Some hash →
    good hash value;
  sys_pending hash channel : pending_blocks (shared_store sys) !! hash = Some channel →
    ∃ id i, owns sys id (i, hash, channel);
  sys_owned id i hash channel : owns sys id (i, hash, channel) →
    pending_blocks (shared_store sys) !! hash = Some channel;
  sys_owner id id' i i' hash channel : owns sys id (i, hash, channel) → owns sys id' (i', hash, channel) → id = id';
  sys_open hash channel : channels sys !! channel = Some ChannelOpen → labels !! channel = Some hash →
    pending_blocks (shared_store sys) !! hash = Some channel;
  sys_calls id call : calls sys !! id = Some call → call_ok labels (channels sys) call;
}.

Lemma keep_ok hash value recent : good hash value → recent_ok recent → recent_ok (keep hash value recent).
Proof.
  intros Hgood [Hnd Hlen Hall]. unfold keep. destruct (existsb _ recent) eqn:Hheld; [by split|].
  assert (∀ held, NoDup (fst <$> held) → (∀ b, b ∈ held → b ∈ recent) → NoDup (fst <$> (held ++ [(hash, value)]))) as Hnew.
  { intros held Hheldnd Hsub. rewrite fmap_app. apply NoDup_app. split; [done|split; [|by apply NoDup_singleton]].
    intros x Hx ->%list_elem_of_singleton. apply list_elem_of_fmap in Hx as (b & Hb & Hin). cbn in Hb.
    apply not_true_iff_false in Hheld. apply Hheld, existsb_spec. exists b. split; [by apply Hsub|].
    by apply bool_decide_eq_true. }
  assert (∀ b, b ∈ tail recent → b ∈ recent) as Hin by (destruct recent; [done|by right]).
  assert (NoDup (fst <$> tail recent)) as Htail by (destruct recent; [done|by apply NoDup_cons in Hnd as [_ ?]]).
  destruct (Nat.eqb_spec (length recent) RECENT_BLOCKS) as [Hfull|Hroom]; split.
  - by apply Hnew.
  - rewrite length_app. cbn. rewrite length_tl. unfold RECENT_BLOCKS in *. lia.
  - intros h v [Hold|Hnew']%elem_of_app; [by apply Hall, Hin|]. apply list_elem_of_singleton in Hnew'. by injection Hnew' as -> ->.
  - by apply Hnew.
  - rewrite length_app. cbn. lia.
  - intros h v [Hold|Hnew']%elem_of_app; [by apply Hall|]. apply list_elem_of_singleton in Hnew'. by injection Hnew' as -> ->.
Qed.

(** *** A call releases what it claimed *)

Definition hashes_of (claim : list (nat * BlockHash * nat)) : list BlockHash := (λ block, block.1.2) <$> claim.
Definition channels_of (claim : list (nat * BlockHash * nat)) : list nat := snd <$> claim.

Lemma owns_insert (calls : list (Call V)) shared chans shared' chans' id call' id' block :
  claim_of (call_stage call') = [] →
  owns (MkSystem shared' chans' (<[id := call']> calls)) id' block ↔
  id' ≠ id ∧ owns (MkSystem shared chans calls) id' block.
Proof.
  intros Hnone. unfold owns. cbn. split.
  - intros (call & Hcall & Hblock). destruct (decide (id' = id)) as [->|Hne].
    + apply list_lookup_insert_Some in Hcall as [(_ & <- & _)|[? _]]; [|done]. by rewrite Hnone in Hblock; apply elem_of_nil in Hblock.
    + rewrite list_lookup_insert_ne in Hcall by done. eauto.
  - intros (Hne & call & Hcall & Hblock). exists call. by rewrite list_lookup_insert_ne.
Qed.

(** A channel that another call claimed is not one this call did. *)
Lemma owned_elsewhere labels sys id id' call block i hash channel :
  system_ok labels sys → calls sys !! id = Some call → owns sys id' (i, hash, channel) → id' ≠ id →
  block ∈ claim_of (call_stage call) → block.1.2 ≠ hash ∧ block.2 ≠ channel.
Proof.
  intros Hsys Hcall Howns Hne Hblock. destruct block as [[i' hash'] channel']. cbn.
  assert (owns sys id (i', hash', channel')) as Hmine by (by exists call).
  pose proof Howns as (call' & Hcall' & Hin').
  destruct (call_claim _ _ _ (sys_calls _ _ Hsys _ _ Hcall') _ _ _ Hin') as (_ & Hlabel' & _).
  destruct (call_claim _ _ _ (sys_calls _ _ Hsys _ _ Hcall) _ _ _ Hblock) as (_ & Hlabel & _).
  assert (hash' ≠ hash) as Hh.
  { intros ->. apply Hne. pose proof (sys_owned _ _ Hsys _ _ _ _ Howns) as H1.
    rewrite (sys_owned _ _ Hsys _ _ _ _ Hmine) in H1. injection H1 as ->. by eapply (sys_owner _ _ Hsys). }
  split; [done|]. intros ->. by rewrite Hlabel in Hlabel'; injection Hlabel' as ->.
Qed.

Lemma release_ok labels sys id call call' recent' pending' chans' :
  system_ok labels sys → calls sys !! id = Some call → claim_of (call_stage call') = [] →
  recent_ok recent' →
  (∀ hash, pending' !! hash =
    (if bool_decide (hash ∈ hashes_of (claim_of (call_stage call))) then None
     else pending_blocks (shared_store sys) !! hash)) →
  length chans' = length (channels sys) →
  (∀ channel, channel ∉ channels_of (claim_of (call_stage call)) → chans' !! channel = channels sys !! channel) →
  (∀ channel, channel ∈ channels_of (claim_of (call_stage call)) → chans' !! channel ≠ Some ChannelOpen) →
  (∀ channel hash value, chans' !! channel = Some (ChannelTold value) → labels !! channel = Some hash → good hash value) →
  call_ok labels chans' call' →
  system_ok labels (MkSystem (MkStore recent' pending') chans' (<[id := call']> (calls sys))).
Proof.
  intros Hsys Hcall Hnone Hrecent Hpending Hlen Hsame Hclosed Htold Hok.
  pose proof (owns_insert (calls sys) (shared_store sys) (channels sys) (MkStore recent' pending') chans' id call') as Howns.
  assert (∀ id' i hash channel, id' ≠ id → owns sys id' (i, hash, channel) →
    (hash ∉ hashes_of (claim_of (call_stage call))) ∧ (channel ∉ channels_of (claim_of (call_stage call)))) as Hother.
  { intros id' i hash channel Hne Ho. split; intros (b & -> & Hb)%list_elem_of_fmap; (by destruct (owned_elsewhere _ _ _ _ _ _ _ _ _ Hsys Hcall Ho Hne Hb)). }
  split; cbn [shared_store channels calls recent_blocks pending_blocks].
  - by rewrite Hlen, (sys_labels _ _ Hsys).
  - done.
  - done.
  - intros hash channel Hp. rewrite Hpending in Hp. case_bool_decide as Hin; [done|].
    apply (sys_pending _ _ Hsys) in Hp as (id' & i & Ho). exists id', i. rewrite Howns by done.
    destruct sys. split; [|exact Ho]. intros ->. destruct Ho as (c & Hc & Hb). rewrite Hcall in Hc. injection Hc as <-.
    apply Hin, list_elem_of_fmap. by exists (i, hash, channel).
  - intros id' i hash channel Ho. rewrite Howns in Ho by done. destruct Ho as [Hne Ho]. destruct sys.
    destruct (Hother _ _ _ _ Hne Ho) as [Hh _]. rewrite Hpending, bool_decide_false by done. by eapply (sys_owned _ _ Hsys).
  - intros id' id'' i i' hash channel Ho Ho'. rewrite Howns in Ho, Ho' by done. destruct Ho as [_ Ho], Ho' as [_ Ho'].
    destruct sys. by eapply (sys_owner _ _ Hsys).
  - intros hash channel Hopen Hlabel. assert (channel ∉ channels_of (claim_of (call_stage call))) as Hin by naive_solver.
    rewrite Hsame in Hopen by done. pose proof (sys_open _ _ Hsys _ _ Hopen Hlabel) as Hp.
    rewrite Hpending, bool_decide_false; [done|]. intros (b & -> & Hb)%list_elem_of_fmap. destruct b as [[i h] c]. cbn in Hp.
    assert (owns sys id (i, h, c)) as Ho by (by exists call). rewrite (sys_owned _ _ Hsys _ _ _ _ Ho) in Hp. injection Hp as ->.
    apply Hin, list_elem_of_fmap. by exists (i, h, channel).
  - intros id' c Hc. apply list_lookup_insert_Some in Hc as [(-> & -> & _)|[Hne Hc]]; [done|].
    pose proof (sys_calls _ _ Hsys _ _ Hc) as Hcok. split; try apply Hcok.
    intros i hash channel Hin. pose proof (call_claim _ _ _ Hcok _ _ _ Hin) as (Hh & Hl & Ho). split_and!; [done|done|].
    assert (owns sys id' (i, hash, channel)) as Howned by (by exists c).
    rewrite Hsame; [done|]. by eapply Hother.
Qed.

(** A call that claims nothing moves on. *)
Lemma move_ok labels sys id call call' recent' :
  system_ok labels sys → calls sys !! id = Some call → claim_of (call_stage call) = [] → claim_of (call_stage call') = [] →
  recent_ok recent' → call_ok labels (channels sys) call' →
  system_ok labels (MkSystem (MkStore recent' (pending_blocks (shared_store sys))) (channels sys) (<[id := call']> (calls sys))).
Proof.
  intros Hsys Hcall Hnone Hnone' Hrecent Hok.
  eapply release_ok; rewrite ?Hnone; try done; [by set_solver|]. intros channel hash value. apply (sys_told _ _ Hsys).
Qed.

(** Handing back and completing, block by block. *)
Lemma hand_back_spec claim (sys : MaterialSystem V) :
  let sys' := hand_back claim sys in
  calls sys' = calls sys ∧ recent_blocks (shared_store sys') = recent_blocks (shared_store sys)
  ∧ (∀ hash, pending_blocks (shared_store sys') !! hash =
      (if bool_decide (hash ∈ hashes_of claim) then None else pending_blocks (shared_store sys) !! hash))
  ∧ length (channels sys') = length (channels sys)
  ∧ (∀ channel, channel ∉ channels_of claim → channels sys' !! channel = channels sys !! channel)
  ∧ (∀ channel, channel ∈ channels_of claim → channels sys' !! channel ≠ Some ChannelOpen)
  ∧ (∀ channel value, channels sys' !! channel = Some (ChannelTold value) → channels sys !! channel = Some (ChannelTold value)).
Proof.
  cbv zeta. revert sys. induction claim as [|[[i h] c] claim IH]; intros sys; cbn [hand_back fold_left].
  { split_and!; try done. by intros channel ?%elem_of_nil. }
  destruct (IH (MkSystem (MkStore (recent_blocks (shared_store sys)) (delete h (pending_blocks (shared_store sys))))
    (<[c := ChannelClosed]> (channels sys)) (calls sys))) as (Hcalls & Hrecent & Hpending & Hlen & Hsame & Hclosed & Htold).
  cbn [calls shared_store recent_blocks channels] in *. unfold hand_back in *. cbn [fst snd].
  split_and!; [done|done| |by rewrite Hlen, length_insert| | |].
  - intros hash. rewrite Hpending. change (hashes_of ((i, h, c) :: claim)) with (h :: hashes_of claim). cbn [pending_blocks].
    destruct (decide (hash = h)) as [->|Hne].
    + rewrite lookup_delete_eq. rewrite (bool_decide_true (_ ∈ _ :: _)) by set_solver. by case_bool_decide.
    + rewrite lookup_delete_ne by done. repeat case_bool_decide; try done; set_solver.
  - intros channel [Hne Hin]%not_elem_of_cons. rewrite Hsame by done. by rewrite list_lookup_insert_ne.
  - intros channel Hin. destruct (decide (channel ∈ channels_of claim)) as [|Hout]; [by apply Hclosed|].
    rewrite Hsame by done. apply elem_of_cons in Hin as [->|]; [|done]. cbn.
    intros Hc%list_lookup_insert_Some. naive_solver.
  - intros channel value Hv%Htold. apply list_lookup_insert_Some in Hv. naive_solver.
Qed.

Lemma complete_spec claim fetched (sys : MaterialSystem V) material :
  length fetched = length claim → (∀ i block, claim !! i = Some block → ∀ value, fetched !! i = Some value → good block.1.2 value) →
  recent_ok (recent_blocks (shared_store sys)) →
  let sys' := (complete claim fetched sys material).1 in
  let material' := (complete claim fetched sys material).2 in
  calls sys' = calls sys ∧ recent_ok (recent_blocks (shared_store sys'))
  ∧ (∀ hash, pending_blocks (shared_store sys') !! hash =
      (if bool_decide (hash ∈ hashes_of claim) then None else pending_blocks (shared_store sys) !! hash))
  ∧ length (channels sys') = length (channels sys)
  ∧ (∀ channel, channel ∉ channels_of claim → channels sys' !! channel = channels sys !! channel)
  ∧ (∀ channel, channel ∈ channels_of claim → channels sys' !! channel ≠ Some ChannelOpen)
  ∧ (∀ channel value, channels sys' !! channel = Some (ChannelTold value) →
      channels sys !! channel = Some (ChannelTold value) ∨ ∃ block, block ∈ claim ∧ block.2 = channel ∧ good block.1.2 value)
  ∧ length material' = length material
  ∧ (∀ i value, mjoin (material' !! i) = Some value →
      mjoin (material !! i) = Some value ∨ ∃ block, block ∈ claim ∧ block.1.1 = i ∧ good block.1.2 value)
  ∧ (∀ i, (i < length material)%nat → is_Some (mjoin (material !! i)) ∨ i ∈ (λ block, block.1.1) <$> claim →
      is_Some (mjoin (material' !! i))).
Proof.
  unfold complete. revert fetched sys material.
  induction claim as [|[[i h] c] claim IH]; intros [|v fetched] sys material Hlength Hgood Hrecent; try done.
  { cbn. split_and!; try done; [by intros channel ?%elem_of_nil|by left|by left|]. intros i _ [|?%elem_of_nil]; done. }
  cbn [zip zip_with fold_left complete_block].
  injection Hlength as Hlength. assert (good h v) as Hv by (by apply (Hgood 0%nat (i, h, c))).
  destruct (IH fetched (MkSystem (MkStore (keep h v (recent_blocks (shared_store sys)))
    (delete h (pending_blocks (shared_store sys)))) (<[c := ChannelTold v]> (channels sys)) (calls sys))
    (<[i := Some v]> material)) as (Hcalls & Hrec & Hpending & Hlen & Hsame & Hclosed & Htold & Hmlen & Hmat & Hcov);
    [done|intros j b Hb; by apply (Hgood (S j))|by apply keep_ok|].
  cbn [calls shared_store recent_blocks channels pending_blocks] in *. split_and!.
  - exact Hcalls.
  - exact Hrec.
  - intros hash. rewrite Hpending. change (hashes_of ((i, h, c) :: claim)) with (h :: hashes_of claim). cbn [pending_blocks shared_store].
    destruct (decide (hash = h)) as [->|Hne].
    + rewrite lookup_delete_eq. rewrite (bool_decide_true (_ ∈ _ :: _)) by set_solver. by case_bool_decide.
    + rewrite lookup_delete_ne by done. repeat case_bool_decide; try done; set_solver.
  - by rewrite Hlen, length_insert.
  - intros channel [Hne Hin]%not_elem_of_cons. rewrite Hsame by done. by rewrite list_lookup_insert_ne.
  - intros channel Hin. destruct (decide (channel ∈ channels_of claim)) as [|Hout]; [by apply Hclosed|].
    rewrite Hsame by done. apply elem_of_cons in Hin as [->|]; [|done]. cbn. intros Hc%list_lookup_insert_Some. naive_solver.
  - intros channel value [Hval|(b & Hb & ?)]%Htold; [|right; exists b; split; [by right|done]].
    apply list_lookup_insert_Some in Hval as [(-> & [= <-] & _)|[_ ?]]; [|by left].
    right. exists (i, h, channel). split; [by left|done].
  - by rewrite Hmlen, length_insert.
  - intros j value [Hval|(b & Hb & ?)]%Hmat; [|right; exists b; split; [by right|done]].
    destruct (<[i:=Some v]> material !! j) as [o|] eqn:Ho; [|done]. cbn in Hval.
    apply list_lookup_insert_Some in Ho as [(-> & <- & _)|[_ Ho]]; [|left; by rewrite Ho].
    cbn in Hval. injection Hval as <-. right. exists (j, h, c). split; [by left|done].
  - intros j Hj Hcase. apply Hcov; [by rewrite length_insert|]. destruct (decide (j = i)) as [->|Hne].
    + left. by rewrite list_lookup_insert_eq.
    + rewrite list_lookup_insert_ne by done. rewrite fmap_cons, elem_of_cons in Hcase. cbn in Hcase. naive_solver.
Qed.

Lemma abandoned_spec hashes abandoned fetched (sys : MaterialSystem V) material :
  length fetched = length abandoned →
  (∀ p i hash value, abandoned !! p = Some i → hashes !! i = Some hash → fetched !! p = Some value → good hash value) →
  recent_ok (recent_blocks (shared_store sys)) →
  let sys' := (fold_left (keep_abandoned hashes) (zip abandoned fetched) (sys, material)).1 in
  let material' := (fold_left (keep_abandoned hashes) (zip abandoned fetched) (sys, material)).2 in
  calls sys' = calls sys ∧ channels sys' = channels sys
  ∧ pending_blocks (shared_store sys') = pending_blocks (shared_store sys)
  ∧ recent_ok (recent_blocks (shared_store sys'))
  ∧ length material' = length material
  ∧ (∀ i hash value, hashes !! i = Some hash → mjoin (material' !! i) = Some value →
      mjoin (material !! i) = Some value ∨ good hash value)
  ∧ (∀ i, (i < length material)%nat → is_Some (mjoin (material !! i)) ∨ i ∈ abandoned → is_Some (mjoin (material' !! i))).
Proof.
  revert fetched sys material.
  induction abandoned as [|i abandoned IH]; intros [|v fetched] sys material Hlength Hgood Hrecent; try done.
  { cbn. split_and!; try done; [by left|]. intros j _ [|?%elem_of_nil]; done. }
  cbn [zip zip_with fold_left keep_abandoned fst snd]. injection Hlength as Hlength.
  set (recent := match hashes !! i with Some hash => keep hash v (recent_blocks (shared_store sys))
                 | None => recent_blocks (shared_store sys) end).
  assert (recent_ok recent) as Hrecent'.
  { unfold recent. destruct (hashes !! i) as [h|] eqn:Hh; [|done]. apply keep_ok; [by apply (Hgood 0%nat i h v)|done]. }
  destruct (IH fetched (MkSystem (MkStore recent (pending_blocks (shared_store sys))) (channels sys) (calls sys))
    (<[i := Some v]> material) Hlength (λ p, Hgood (S p)) Hrecent') as (Hcalls & Hchans & Hpending & Hrec & Hmlen & Hmat & Hcov).
  split_and!; [exact Hcalls|exact Hchans|exact Hpending|exact Hrec|by rewrite Hmlen, length_insert| |].
  - intros j hash value Hh Hval. apply (Hmat j hash value Hh) in Hval as [Hval|]; [|by right].
    destruct (<[i:=Some v]> material !! j) as [o|] eqn:Ho; [|done]. cbn in Hval.
    apply list_lookup_insert_Some in Ho as [(<- & <- & _)|[_ Ho]]; [|left; by rewrite Ho].
    cbn in Hval. injection Hval as <-. right. by apply (Hgood 0%nat i hash v).
  - intros j Hj Hcase. apply Hcov; [by rewrite length_insert|]. destruct (decide (j = i)) as [->|Hne].
    + left. by rewrite list_lookup_insert_eq.
    + rewrite list_lookup_insert_ne by done. rewrite elem_of_cons in Hcase. naive_solver.
Qed.

(** *** A call moves to its next wait *)

Lemma collected_all (material : list (option V)) :
  (∀ i, (i < length material)%nat → is_Some (mjoin (material !! i))) → ∃ values, mapM id material = Some values.
Proof.
  induction material as [|[v|] material IH]; intros Hall; [by exists []| |].
  - destruct IH as [values Hv]; [intros i Hi; apply (Hall (S i)); cbn; lia|]. exists (v :: values). cbn. by rewrite Hv.
  - destruct (Hall 0%nat) as [? [=]]. cbn. lia.
Qed.

(** The call at its next wait, or past the last. *)
Lemma next_wait_ok labels chans hashes material waiting abandoned :
  length material = length hashes →
  (∀ i hash value, hashes !! i = Some hash → mjoin (material !! i) = Some value → good hash value) →
  (∀ i channel, (i, channel) ∈ waiting → ∃ hash, hashes !! i = Some hash ∧ labels !! channel = Some hash) →
  (∀ i, i ∈ abandoned → (i < length hashes)%nat) →
  (∀ i, (i < length hashes)%nat → is_Some (mjoin (material !! i)) ∨ i ∈ fst <$> waiting ∨ i ∈ abandoned) →
  call_ok labels chans (MkCall hashes material (next_wait material waiting abandoned))
  ∧ claim_of (next_wait material waiting abandoned) = [].
Proof.
  intros Hlen Hgood Hwait Hleft Hcov. unfold next_wait. destruct waiting as [|[index channel] waiting].
  - case_bool_decide as Hnil.
    + subst. assert (∀ i, (i < length material)%nat → is_Some (mjoin (material !! i))) as Hall.
      { intros i Hi. rewrite Hlen in Hi. destruct (Hcov i Hi) as [?|[?%elem_of_nil|?%elem_of_nil]]; done. }
      destruct (collected_all _ Hall) as [values Hvalues]. unfold collected. rewrite Hvalues.
      split; [|done]. split; cbn [call_hashes call_material call_stage claim_of waits_of left_of is_done]; try done;
        [by apply NoDup_nil_2|intros ??? ?%elem_of_nil; done|].
      intros answer [= <-]. eexists. split; [done|]. intros m [= <-]. apply mapM_Some_1 in Hvalues.
      apply Forall2_same_length_lookup_2.
      { rewrite <-(Forall2_length _ _ _ Hvalues). by rewrite Hlen. }
      intros i hash value Hh Hv. apply (Hgood i); [done|].
      destruct (Forall2_lookup_r _ _ _ _ _ Hvalues Hv) as (o & Ho & Hov). rewrite Ho. cbn. cbn in Hov. by subst o.
    + split; [|done]. split; cbn [call_hashes call_material call_stage claim_of waits_of left_of is_done]; try done;
        [by apply NoDup_nil_2|intros ??? ?%elem_of_nil; done|].
      intros i Hi _. unfold covered. cbn. destruct (Hcov i Hi) as [|[?%elem_of_nil|]]; [by left|done|]. by right; right; right.
  - split; [|done]. split; cbn [call_hashes call_material call_stage claim_of waits_of left_of is_done]; try done;
      [by apply NoDup_nil_2|intros ??? ?%elem_of_nil; done|].
    intros i Hi _. unfold covered. cbn. destruct (Hcov i Hi) as [|[|]]; [by left|by right; right; left|by right; right; right].
Qed.

(** *** A call begins *)

Lemma labelled_pending labels sys hash channel :
  system_ok labels sys → pending_blocks (shared_store sys) !! hash = Some channel → labels !! channel = Some hash.
Proof.
  intros Hsys (id & i & call & Hcall & Hin)%(sys_pending _ _ Hsys).
  by destruct (call_claim _ _ _ (sys_calls _ _ Hsys _ _ Hcall) _ _ _ Hin) as (_ & Hlabel & _).
Qed.

Section begin.
Context (labels : list BlockHash) (sys : MaterialSystem V) (hashes : list BlockHash) (Hsys : system_ok labels sys).

(** What the loop has found after [k] hashes. *)
Record found_ok (k : nat) (found : @Found V) : Prop := {
  found_open : found_channels found = channels sys ++ replicate (length (found_claim found)) ChannelOpen;
  found_length : length (found_material found) = length hashes;
  found_good i hash value : hashes !! i = Some hash → mjoin (found_material found !! i) = Some value → good hash value;
  found_once : NoDup (hashes_of (found_claim found));
  found_at p i hash channel : found_claim found !! p = Some (i, hash, channel) →
    hashes !! i = Some hash ∧ channel = (length (channels sys) + p)%nat ∧ pending_blocks (shared_store sys) !! hash = None;
  found_downloading hash channel : found_pending found !! hash = Some channel ↔
    pending_blocks (shared_store sys) !! hash = Some channel ∨ ∃ i, (i, hash, channel) ∈ found_claim found;
  found_labelled i channel : (i, channel) ∈ found_waiting found →
    ∃ hash, hashes !! i = Some hash ∧ (labels ++ hashes_of (found_claim found)) !! channel = Some hash;
  found_covered i : (i < k)%nat → is_Some (mjoin (found_material found !! i))
    ∨ i ∈ (λ block, block.1.1) <$> found_claim found ∨ i ∈ fst <$> found_waiting found;
}.

Lemma claim_label found k p i hash channel :
  found_ok k found → found_claim found !! p = Some (i, hash, channel) →
  (labels ++ hashes_of (found_claim found)) !! channel = Some hash.
Proof.
  intros Hok Hp. destruct (found_at _ _ Hok _ _ _ _ Hp) as (_ & -> & _).
  rewrite lookup_app_r; rewrite (sys_labels _ _ Hsys); [|lia].
  replace (length (channels sys) + p - length (channels sys))%nat with p by lia.
  unfold hashes_of. by rewrite list_lookup_fmap, Hp.
Qed.

Lemma find_block_ok k hash found :
  hashes !! k = Some hash → found_ok k found →
  found_ok (S k) (find_block (recent_blocks (shared_store sys)) found (k, hash)).
Proof.
  intros Hk Hok. unfold find_block. cbn [fst snd].
  destruct (List.find _ _) as [[h v]|] eqn:Hfind.
  { apply List.find_some in Hfind as [Hin%list_elem_of_In Hh%bool_decide_eq_true]. cbn in Hh. subst h.
    pose proof (recent_good _ (sys_recent _ _ Hsys) _ _ Hin) as Hgood. cbn [fst snd].
    destruct Hok. split; cbn [found_material found_waiting found_claim found_pending found_channels]; try done.
    - by rewrite length_insert.
    - intros i h v' Hh Hv. destruct (<[k:=Some v]> (found_material found) !! i) as [o|] eqn:Ho; [cbn in Hv|done].
      apply list_lookup_insert_Some in Ho as [(<- & <- & _)|[_ Ho]].
      + cbn in Hv. rewrite Hk in Hh. injection Hh as <-. by injection Hv as <-.
      + apply (found_good0 i); [done|]. by rewrite Ho.
    - intros i Hi. destruct (decide (i = k)) as [->|Hne].
      + left. rewrite list_lookup_insert_eq; [done|]. rewrite found_length0. by eapply lookup_lt_Some.
      + rewrite list_lookup_insert_ne by done. apply found_covered0. lia. }
  destruct (found_pending found !! hash) as [receiver|] eqn:Hpending.
  { assert ((labels ++ hashes_of (found_claim found)) !! receiver = Some hash) as Hlabel.
    { apply (found_downloading _ _ Hok) in Hpending as [Hp|[i (p & Hp)%list_elem_of_lookup]].
      - apply lookup_app_l_Some. by eapply labelled_pending.
      - by eapply claim_label. }
    destruct Hok. split; cbn [found_material found_waiting found_claim found_pending found_channels]; try done.
    - intros i channel [Hin|Hin]%elem_of_app; [by apply found_labelled0|].
      apply list_elem_of_singleton in Hin. injection Hin as -> ->. eauto.
    - intros i Hi. rewrite fmap_app, elem_of_app. destruct (decide (i = k)) as [->|Hne].
      + right; right; right. by left.
      + destruct (found_covered0 i) as [|[|]]; [lia|by left|by right; left|by right; right; left]. }
  assert (pending_blocks (shared_store sys) !! hash = None ∧ ∀ i channel, (i, hash, channel) ∉ found_claim found)
    as [Hfree Hunclaimed].
  { split.
    - destruct (pending_blocks (shared_store sys) !! hash) as [c|] eqn:Hp; [|done].
      rewrite (proj2 (found_downloading _ _ Hok hash c)) in Hpending by (by left). done.
    - intros i c Hin. rewrite (proj2 (found_downloading _ _ Hok hash c)) in Hpending by eauto. done. }
  assert (length (found_channels found) = (length (channels sys) + length (found_claim found))%nat) as Hchannel.
  { rewrite (found_open _ _ Hok), length_app, length_replicate. done. }
  destruct Hok. split; cbn [found_material found_waiting found_claim found_pending found_channels]; try done.
  - rewrite found_open0 at 1. rewrite length_app. cbn. rewrite replicate_add. by rewrite app_assoc.
  - unfold hashes_of. rewrite fmap_app. apply NoDup_app. split; [done|]. split; [|by apply NoDup_singleton].
    intros h Hin ->%list_elem_of_singleton. apply list_elem_of_fmap in Hin as ([[i h] c] & Hh & Hin). cbn in Hh. subst h.
    by eapply Hunclaimed.
  - intros p i h c Hp. apply lookup_app_Some in Hp as [Hp|[Hlen Hp]]; [by apply found_at0|].
    apply list_lookup_singleton_Some in Hp as [Hp Heq]. injection Heq as <- <- <-. split_and!; [done|lia|done].
  - intros h c. destruct (decide (h = hash)) as [->|Hne].
    + rewrite lookup_insert_eq. split.
      * intros [= <-]. right. exists k. apply elem_of_app. right. by left.
      * intros [Hp|[i Hin]]; [congruence|]. apply elem_of_app in Hin as [Hin|Hin]; [by apply Hunclaimed in Hin|].
        apply list_elem_of_singleton in Hin. by injection Hin as _ <-.
    + rewrite lookup_insert_ne by done. rewrite found_downloading0. setoid_rewrite elem_of_app.
      setoid_rewrite list_elem_of_singleton. split; [naive_solver|]. intros [?|[i [?|[= ]]]]; [by left|eauto|done].
  - intros i c (h & Hh & Hl)%found_labelled0. exists h. split; [done|]. unfold hashes_of. rewrite fmap_app, app_assoc.
    by apply lookup_app_l_Some.
  - intros i Hi. rewrite fmap_app, elem_of_app. destruct (decide (i = k)) as [->|Hne].
    + right; left; right. by left.
    + destruct (found_covered0 i) as [|[|]]; [lia|by left|by right; left; left|by right; right].
Qed.

Lemma find_blocks_ok : found_ok (length hashes) (find_blocks sys hashes).
Proof.
  assert (∀ rest k found, drop k hashes = rest → found_ok k found →
    found_ok (k + length rest) (fold_left (find_block (recent_blocks (shared_store sys)))
      (imap (λ n hash, ((k + n)%nat, hash)) rest) found)) as Hloop.
  { induction rest as [|hash rest IH]; intros k found Hdrop Hok; [by rewrite Nat.add_0_r|].
    cbn [imap fold_left length]. rewrite Nat.add_0_r.
    assert (hashes !! k = Some hash) as Hk by (rewrite <-(Nat.add_0_r k), <-lookup_drop, Hdrop; done).
    replace (k + S (length rest))%nat with (S k + length rest)%nat by lia.
    rewrite (imap_ext _ (λ n hash, ((S k + n)%nat, hash))) by (intros; cbn; f_equal; lia).
    apply IH; [|by apply find_block_ok].
    rewrite (drop_S _ hash k Hk) in Hdrop. by injection Hdrop. }
  apply (Hloop hashes 0%nat); [done|]. split; cbn [found_material found_waiting found_claim found_pending found_channels].
  - by rewrite app_nil_r.
  - apply length_replicate.
  - intros i hash value Hh Hv. apply lookup_lt_Some in Hh. by rewrite lookup_replicate_2 in Hv.
  - constructor.
  - done.
  - intros hash channel. split; [by left|]. intros [|[i ?%elem_of_nil]]; done.
  - by intros i channel ?%elem_of_nil.
  - lia.
Qed.
End begin.

(** What a call knows stays true as channels are added. *)
Lemma call_ok_mono labels more chans more' call :
  length labels = length chans → call_ok labels chans call → call_ok (labels ++ more) (chans ++ more') call.
Proof.
  intros Hlen Hok. split; try apply Hok.
  - intros i hash channel Hin. destruct (call_claim _ _ _ Hok _ _ _ Hin) as (Hh & Hl & Hc).
    split_and!; [done|by apply lookup_app_l_Some|by apply lookup_app_l_Some].
  - intros i channel Hin. destruct (call_wait _ _ _ Hok _ _ Hin) as (hash & Hh & Hl). exists hash.
    split; [done|by apply lookup_app_l_Some].
Qed.

Lemma begin_ok labels sys hashes :
  system_ok labels sys → ∃ labels', system_ok labels' (begin_call hashes sys).
Proof.
  intros Hsys. pose proof (find_blocks_ok labels sys hashes Hsys) as Hok. set (found := find_blocks sys hashes) in *.
  exists (labels ++ hashes_of (found_claim found)).
  assert (∃ call, calls (begin_call hashes sys) = calls sys ++ [call]
    ∧ claim_of (call_stage call) = found_claim found
    ∧ call_ok (labels ++ hashes_of (found_claim found)) (found_channels found) call) as (call & Hcalls & Hclaim & Hcall).
  { eexists. split; [reflexivity|]. fold found. case_bool_decide as Hnil.
    - destruct (next_wait_ok (labels ++ hashes_of (found_claim found)) (found_channels found) hashes (found_material found)
        (found_waiting found) []) as [Hnext Hnone]; [apply Hok..|by intros i ?%elem_of_nil| |].
      + intros i Hi. destruct (found_covered _ _ _ _ _ Hok i Hi) as [|[Hin|]]; [by left| |by right; left].
        rewrite Hnil in Hin. by apply elem_of_nil in Hin.
      + cbn [call_stage]. by rewrite Hnil in *.
    - split; [done|].
      split; cbn [call_hashes call_material call_stage claim_of waits_of left_of is_done]; try apply Hok; try done.
      + intros i hash channel (p & Hp)%list_elem_of_lookup. split; [by eapply found_at|]. split; [by eapply claim_label|].
        destruct (found_at _ _ _ _ _ Hok _ _ _ _ Hp) as (_ & -> & _). rewrite (found_open _ _ _ _ _ Hok).
        rewrite lookup_app_r by lia. apply lookup_replicate_2. apply lookup_lt_Some in Hp. lia.
      + by intros i ?%elem_of_nil.
      + intros i Hi _. unfold covered. cbn. destruct (found_covered _ _ _ _ _ Hok i Hi) as [|[|]]; tauto. }
  assert (∀ id i hash channel, owns (begin_call hashes sys) id (i, hash, channel) ↔
    owns sys id (i, hash, channel) ∨ id = length (calls sys) ∧ (i, hash, channel) ∈ found_claim found) as Howns.
  { intros id i hash channel. unfold owns. rewrite Hcalls. split.
    - intros (c & [Hc|[Hle Hc]]%lookup_app_Some & Hin); [left; eauto|]. right.
      apply list_lookup_singleton_Some in Hc as [Hc <-]. rewrite Hclaim in Hin. split; [lia|done].
    - intros [(c & Hc & Hin)|[-> Hin]].
      + exists c. split; [by apply lookup_app_l_Some|done].
      + exists call. rewrite Hclaim. split; [|done]. by rewrite lookup_app_r, Nat.sub_diag. }
  assert (∀ id i hash channel, owns sys id (i, hash, channel) → ∀ i', (i', hash, channel) ∉ found_claim found) as Hfresh.
  { intros id i hash channel Ho i' (p & Hp)%list_elem_of_lookup. apply (sys_owned _ _ Hsys) in Ho.
    destruct (found_at _ _ _ _ _ Hok _ _ _ _ Hp) as (_ & _ & Hfree). congruence. }
  split; try (rewrite Hcalls); cbn [begin_call shared_store channels recent_blocks pending_blocks]; fold found.
  - rewrite (found_open _ _ _ _ _ Hok), !length_app, length_replicate, (sys_labels _ _ Hsys). unfold hashes_of. by rewrite length_fmap.
  - apply Hsys.
  - intros channel hash value Ht Hl. rewrite (found_open _ _ _ _ _ Hok) in Ht.
    apply lookup_app_Some in Ht as [Ht|[_ Ht]]; [|by apply lookup_replicate in Ht as [? _]].
    apply (sys_told _ _ Hsys channel); [done|]. rewrite lookup_app_l in Hl; [done|]. rewrite (sys_labels _ _ Hsys).
    by eapply lookup_lt_Some.
  - intros hash channel [Hp|[i Hin]]%(found_downloading _ _ _ _ _ Hok).
    + apply (sys_pending _ _ Hsys) in Hp as (id & i & Ho). exists id, i. rewrite Howns. by left.
    + exists (length (calls sys)), i. rewrite Howns. by right.
  - intros id i hash channel Ho. rewrite Howns in Ho. apply (found_downloading _ _ _ _ _ Hok).
    destruct Ho as [Ho|[_ Ho]]; [left; by eapply (sys_owned _ _ Hsys)|right; eauto].
  - intros id id' i i' hash channel Ho Ho'. rewrite Howns in Ho, Ho'.
    destruct Ho as [Ho|[-> Ho]], Ho' as [Ho'|[-> Ho']]; [by eapply (sys_owner _ _ Hsys)| | |done].
    + by apply (Hfresh _ _ _ _ Ho) in Ho'.
    + by apply (Hfresh _ _ _ _ Ho') in Ho.
  - intros hash channel Hopen Hl. apply (found_downloading _ _ _ _ _ Hok).
    destruct (decide (channel < length labels)%nat) as [Hlt|Hge].
    + left. apply (sys_open _ _ Hsys); [|by rewrite lookup_app_l in Hl].
      rewrite (found_open _ _ _ _ _ Hok), lookup_app_l in Hopen; [done|]. by rewrite <-(sys_labels _ _ Hsys).
    + right. rewrite lookup_app_r in Hl by lia. unfold hashes_of in Hl. apply list_lookup_fmap_Some in Hl as ([[i h] c] & Hh & Hp).
      cbn in Hh. destruct (found_at _ _ _ _ _ Hok _ _ _ _ Hp) as (_ & Hc & _). rewrite <-Hh in Hp.
      rewrite (sys_labels _ _ Hsys) in Hc, Hge. replace c with channel in Hp by lia. eauto using list_elem_of_lookup_2.
  - intros id c [Hc|[_ Hc]]%lookup_app_Some.
    + rewrite (found_open _ _ _ _ _ Hok). apply call_ok_mono; [by apply Hsys|by eapply (sys_calls _ _ Hsys)].
    + apply list_lookup_singleton_Some in Hc as [_ <-]. done.
Qed.

(** *** Every event keeps the system *)

(** A call that ends without an answer. *)
Lemma ended_ok labels chans call stage :
  (stage = DroppedCall ∨ ∃ error, stage = Returned (Some (Err error))) →
  length (call_material call) = length (call_hashes call) →
  (∀ i hash value, call_hashes call !! i = Some hash → mjoin (call_material call !! i) = Some value → good hash value) →
  call_ok labels chans (MkCall (call_hashes call) (call_material call) stage).
Proof.
  intros Hstage Hlen Hgood. assert (claim_of stage = [] ∧ waits_of stage = [] ∧ left_of stage = [] ∧ is_done stage = true)
    as (Hc & Hw & Hl & Hd) by (by destruct Hstage as [->|[? ->]]).
  split; cbn [call_hashes call_material call_stage]; rewrite ?Hc, ?Hw, ?Hl, ?Hd; try done;
    [by apply NoDup_nil_2|by intros ??? ?%elem_of_nil|by intros ?? ?%elem_of_nil|by intros ? ?%elem_of_nil|].
  intros answer Ha. destruct Hstage as [->|[error ->]]; [done|]. injection Ha as <-. eexists. split; [done|]. done.
Qed.

Lemma hand_back_ok labels sys id call claim stage :
  system_ok labels sys → calls sys !! id = Some call → claim_of (call_stage call) = claim →
  (stage = DroppedCall ∨ ∃ error, stage = Returned (Some (Err error))) →
  system_ok labels (with_call (hand_back claim sys) id (MkCall (call_hashes call) (call_material call) stage)).
Proof.
  intros Hsys Hcall Hclaim Hstage. pose proof (sys_calls _ _ Hsys _ _ Hcall) as Hok.
  destruct (hand_back_spec claim sys) as (Hcalls & Hrecent & Hpending & Hlen & Hsame & Hclosed & Htold).
  unfold with_call. rewrite Hcalls. destruct (hand_back claim sys) as [[recent pending] chans calls']. cbn in *. subst recent claim.
  eapply release_ok; [done|done|by destruct Hstage as [->|[? ->]]|apply Hsys|done|done|done|done| |].
  - intros channel hash value Hv Hl. eapply (sys_told _ _ Hsys); [by apply Htold|done].
  - apply ended_ok; [done|apply Hok|apply Hok].
Qed.

(** A call that claims nothing ends. *)
Lemma ended_call_ok labels sys id call stage :
  system_ok labels sys → calls sys !! id = Some call → claim_of (call_stage call) = [] →
  (stage = DroppedCall ∨ ∃ error, stage = Returned (Some (Err error))) →
  system_ok labels (with_call sys id (MkCall (call_hashes call) (call_material call) stage)).
Proof. intros Hsys Hcall Hclaim Hstage. by apply (hand_back_ok labels sys id call []). Qed.

Lemma completed_ok labels sys id call claim waiting fetched :
  system_ok labels sys → calls sys !! id = Some call → call_stage call = Downloading claim waiting →
  length fetched = length claim → answers_well sys (Answer id (Ok fetched)) →
  let '(sys', material) := complete claim fetched sys (call_material call) in
  system_ok labels (with_call sys' id (MkCall (call_hashes call) material (next_wait material waiting []))).
Proof.
  intros Hsys Hcall Hstage Hlength Hwell. pose proof (sys_calls _ _ Hsys _ _ Hcall) as Hok.
  assert (∀ i block, claim !! i = Some block → ∀ value, fetched !! i = Some value → good block.1.2 value) as Hgood.
  { intros i block Hb value Hv. apply (Hwell call i block.1.2 value Hcall); [|done].
    unfold asked. by rewrite Hstage, list_lookup_fmap, Hb. }
  assert (∀ block, block ∈ claim → call_hashes call !! block.1.1 = Some block.1.2 ∧ labels !! block.2 = Some block.1.2) as Hat.
  { intros [[i h] c] Hb. cbn. destruct (call_claim _ _ _ Hok i h c) as (? & ? & _); [by rewrite Hstage|done]. }
  pose proof (complete_spec claim fetched sys (call_material call) Hlength Hgood (sys_recent _ _ Hsys)) as Hspec.
  destruct (complete claim fetched sys (call_material call)) as [sys' material]. cbn [fst snd] in Hspec.
  destruct Hspec as (Hcalls & Hrecent & Hpending & Hlen & Hsame & Hclosed & Htold & Hmlen & Hmat & Hcov).
  unfold with_call. rewrite Hcalls. destruct sys' as [[recent pending] chans calls']. cbn in *.
  destruct (next_wait_ok labels chans (call_hashes call) material waiting []) as [Hnext Hnone].
  - rewrite Hmlen. apply Hok.
  - intros i hash value Hh [Hval|(b & Hb & <- & Hgb)]%Hmat; [by eapply (call_good _ _ _ Hok)|].
    destruct (Hat b Hb) as [Hh' _]. rewrite Hh' in Hh. by injection Hh as <-.
  - intros i channel Hin. apply (call_wait _ _ _ Hok). by rewrite Hstage.
  - by intros i ?%elem_of_nil.
  - intros i Hi. assert (i < length (call_material call))%nat as Hi' by (by rewrite (call_length _ _ _ Hok)).
    destruct (call_covered _ _ _ Hok i Hi) as [Hm|[Hm|[Hw|Hl]]]; rewrite ?Hstage in *; [done|..].
    + left. apply Hcov; [done|by left].
    + left. apply Hcov; [done|by right].
    + by right; left.
    + by apply elem_of_nil in Hl.
  - eapply release_ok; rewrite ?Hstage; try done.
    intros channel hash value [Hv|(b & Hb & <- & Hgb)]%Htold Hl; [by eapply (sys_told _ _ Hsys)|].
    destruct (Hat b Hb) as [_ Hl']. rewrite Hl' in Hl. by injection Hl as <-.
Qed.

Lemma redownloaded_ok labels sys id call abandoned fetched :
  system_ok labels sys → calls sys !! id = Some call → call_stage call = Redownloading abandoned →
  length fetched = length abandoned → answers_well sys (Answer id (Ok fetched)) →
  let '(sys', material) := fold_left (keep_abandoned (call_hashes call)) (zip abandoned fetched) (sys, call_material call) in
  system_ok labels (with_call sys' id (MkCall (call_hashes call) material (collected material))).
Proof.
  intros Hsys Hcall Hstage Hlength Hwell. pose proof (sys_calls _ _ Hsys _ _ Hcall) as Hok.
  assert (∀ i, i ∈ abandoned → (i < length (call_hashes call))%nat) as Hin.
  { intros i Hi. apply (call_left _ _ _ Hok). by rewrite Hstage. }
  assert (∀ p i hash value, abandoned !! p = Some i → call_hashes call !! i = Some hash → fetched !! p = Some value →
    good hash value) as Hgood.
  { intros p i hash value Hp Hi Hv. apply (Hwell call p hash value Hcall); [|done].
    unfold asked. rewrite Hstage, lookup_omap_all; [by rewrite Hp|]. intros x Hx. by apply lookup_lt_is_Some_2, Hin. }
  pose proof (abandoned_spec (call_hashes call) abandoned fetched sys (call_material call) Hlength Hgood (sys_recent _ _ Hsys))
    as Hspec.
  destruct (fold_left _ _ _) as [sys' material]. cbn [fst snd] in Hspec.
  destruct Hspec as (Hcalls & Hchans & Hpending & Hrecent & Hmlen & Hmat & Hcov).
  destruct (next_wait_ok labels (channels sys) (call_hashes call) material [] []) as [Hnext Hnone].
  - rewrite Hmlen. apply Hok.
  - intros i hash value Hh [Hval|]%(Hmat _ _ _ Hh); [by eapply (call_good _ _ _ Hok)|done].
  - by intros i c ?%elem_of_nil.
  - by intros i ?%elem_of_nil.
  - intros i Hi. left. apply Hcov; [by rewrite (call_length _ _ _ Hok)|].
    destruct (call_covered _ _ _ Hok i Hi) as [|[Hl|[Hl|]]]; rewrite ?Hstage in *; [done|by left|..|by right]; by apply elem_of_nil in Hl.
  - unfold with_call. rewrite Hcalls, Hchans. destruct sys' as [[recent pending] chans calls']. cbn in *. subst pending.
    by eapply move_ok; rewrite ?Hstage.
Qed.

(** A wait that ends with a value, or with the call left alone. *)
Lemma waited_ok labels sys id call index channel waiting abandoned material abandoned' :
  system_ok labels sys → calls sys !! id = Some call → call_stage call = WaitingOn index channel waiting abandoned →
  (material = call_material call ∧ abandoned' = abandoned ++ [index]
   ∨ ∃ value, channels sys !! channel = Some (ChannelTold value) ∧ material = <[index := Some value]> (call_material call)
     ∧ abandoned' = abandoned) →
  system_ok labels (with_call sys id (MkCall (call_hashes call) material (next_wait material waiting abandoned'))).
Proof.
  intros Hsys Hcall Hstage Hcase. pose proof (sys_calls _ _ Hsys _ _ Hcall) as Hok.
  destruct (call_wait _ _ _ Hok index channel) as (hash & Hhash & Hlabel); [rewrite Hstage; by left|].
  assert (Hlen : length (call_material call) = length (call_hashes call)) by apply Hok.
  destruct (next_wait_ok labels (channels sys) (call_hashes call) material waiting abandoned') as [Hnext Hnone].
  - destruct Hcase as [[-> _]|(value & _ & -> & _)]; [done|by rewrite length_insert].
  - intros i h value Hh Hv. destruct Hcase as [[-> _]|(v & Hv' & -> & _)]; [by eapply (call_good _ _ _ Hok)|].
    destruct (decide (i = index)) as [->|Hne].
    + rewrite list_lookup_insert_eq in Hv by (rewrite Hlen; by eapply lookup_lt_Some).
      injection Hv as <-. rewrite Hhash in Hh. injection Hh as <-. by eapply (sys_told _ _ Hsys).
    + rewrite list_lookup_insert_ne in Hv by done. by eapply (call_good _ _ _ Hok).
  - intros i c Hin. apply (call_wait _ _ _ Hok). rewrite Hstage. by right.
  - intros i Hin. assert (i ∈ abandoned ∨ i = index) as [Ha| ->]; [|by apply (call_left _ _ _ Hok); rewrite Hstage|
      by eapply lookup_lt_Some].
    destruct Hcase as [[_ ->]|(_ & _ & _ & ->)]; [|by left]. apply elem_of_app in Hin as [|?%list_elem_of_singleton]; tauto.
  - intros i Hi. destruct (decide (i = index)) as [->|Hne].
    + destruct Hcase as [[_ ->]|(value & _ & -> & _)]; [right; right; apply elem_of_app; right; by left|left].
      rewrite list_lookup_insert_eq; [done|]. by rewrite Hlen.
    + destruct (call_covered _ _ _ Hok i Hi) as [Hm|[Hl|[Hl|Hl]]]; rewrite ?Hstage in *; [done|left|..].
      * destruct Hcase as [[-> _]|(value & _ & -> & _)]; [done|]. by rewrite list_lookup_insert_ne.
      * by apply elem_of_nil in Hl.
      * cbn in Hl. apply elem_of_cons in Hl as [?|Hl]; [done|]. by right; left.
      * right; right. destruct Hcase as [[_ ->]|(_ & _ & _ & ->)]; [apply elem_of_app; by left|done].
  - unfold with_call. destruct sys as [[recent pending] chans calls']. cbn in *.
    apply (move_ok labels (MkSystem (MkStore recent pending) chans calls') id call); try done; [by rewrite Hstage|apply Hsys].
Qed.

Lemma event_ok labels sys e sys' :
  system_ok labels sys → answers_well sys e → material_event e sys = Some sys' → ∃ labels', system_ok labels' sys'.
Proof.
  intros Hsys Hwell. destruct e as [hashes|id answer|id end_|id]; cbn [material_event].
  { intros [= <-]. by eapply begin_ok. }
  all: intros He; exists labels; revert He.
  - unfold answer_call. destruct (calls sys !! id) as [call|] eqn:Hcall; [|done]. cbn [mbind option_bind].
    destruct (call_stage call) as [claim waiting| |abandoned| |] eqn:Hstage; try done; intros [= <-].
    + destruct answer as [fetched|error]; [|eapply hand_back_ok; rewrite ?Hstage; eauto].
      destruct (Nat.eqb_spec (length fetched) (length claim)) as [Hlen|]; cbn [negb];
        [|eapply hand_back_ok; rewrite ?Hstage; eauto].
      pose proof (completed_ok _ _ _ _ _ _ _ Hsys Hcall Hstage Hlen Hwell) as Hdone. by destruct (complete _ _ _ _).
    + destruct answer as [fetched|error]; [|eapply ended_call_ok; rewrite ?Hstage; eauto].
      destruct (Nat.eqb_spec (length fetched) (length abandoned)) as [Hlen|]; cbn [negb];
        [|eapply ended_call_ok; rewrite ?Hstage; eauto].
      pose proof (redownloaded_ok _ _ _ _ _ _ Hsys Hcall Hstage Hlen Hwell) as Hdone. by destruct (fold_left _ _ _).
  - unfold end_wait. destruct (calls sys !! id) as [call|] eqn:Hcall; [|done]. cbn [mbind option_bind].
    destruct (call_stage call) as [|index channel waiting abandoned| | |] eqn:Hstage; try done.
    destruct end_; [| |intros [= <-]; eapply ended_call_ok; rewrite ?Hstage; eauto].
    + destruct (channels sys !! channel) as [[|value|]|] eqn:Hchannel; try done; intros [= <-]; eapply waited_ok; eauto 6.
    + destruct (channels sys !! channel) as [[|value|]|] eqn:Hchannel; try done; intros [= <-]; eapply waited_ok; eauto 6.
  - unfold drop_call. destruct (calls sys !! id) as [call|] eqn:Hcall; [|done]. cbn [mbind option_bind].
    destruct (call_stage call) as [claim waiting| | | |] eqn:Hstage; try done; intros [= <-].
    + eapply hand_back_ok; rewrite ?Hstage; eauto.
    + eapply ended_call_ok; rewrite ?Hstage; eauto.
    + eapply ended_call_ok; rewrite ?Hstage; eauto.
Qed.

Lemma reached_ok sys : reached sys → ∃ labels, system_ok labels sys.
Proof.
  induction 1 as [|sys e sys' _ [labels Hsys] Hwell He]; [|by eapply event_ok]. exists [].
  assert (∀ id block, ¬ owns material_start id block) as Hnone by (by intros id block (? & ? & _)).
  split; try done; [split; [by apply NoDup_nil_2|cbn; lia|by intros ?? ?%elem_of_nil]|..].
  - intros id i hash channel Ho. by apply Hnone in Ho.
  - intros id id' i i' hash channel Ho. by apply Hnone in Ho.
Qed.

(** C9: shared material is the right material. However the calls of the
    subscriptions interleave, whatever fetches fail, come short, are waited
    for too long, cancelled or dropped, a call that returns material returns
    one of every hash it was called with, in their order, each material of
    that very hash, although most of it may be what other calls fetched for
    other lists of hashes; no call panics; and the store keeps at most 32
    blocks, each once. Fetches are assumed to answer with material of the
    hashes they were asked for, which is what they verify. *)
Theorem shared_material_right sys id call answer (Hreached : reached sys)
    (Hcall : calls sys !! id = Some call) (Hanswer : call_stage call = Returned answer) :
  (∃ r, answer = Some r ∧ ∀ material, r = Ok material → Forall2 good (call_hashes call) material)
  ∧ NoDup (fst <$> recent_blocks (shared_store sys))
  ∧ (length (recent_blocks (shared_store sys)) ≤ RECENT_BLOCKS)%nat.
Proof.
  apply reached_ok in Hreached as [labels Hsys]. split; [|split; apply (sys_recent _ _ Hsys)].
  by eapply call_answer; [eapply (sys_calls _ _ Hsys)|].
Qed.

(** *** Who downloads what *)

Lemma hand_back_calls claim (sys : MaterialSystem V) : calls (hand_back claim sys) = calls sys.
Proof. unfold hand_back. revert sys. induction claim as [|block claim IH]; intros sys; [done|]. cbn. by rewrite IH. Qed.

Lemma complete_calls claim fetched (sys : MaterialSystem V) material :
  calls (complete claim fetched sys material).1 = calls sys.
Proof.
  unfold complete. revert sys material. induction (zip claim fetched) as [|[[[i h] c] v] l IH]; intros sys material; [done|].
  cbn [fold_left]. unfold complete_block at 2. by rewrite IH.
Qed.

Lemma keep_abandoned_calls hashes l (sys : MaterialSystem V) material :
  calls (fold_left (keep_abandoned hashes) l (sys, material)).1 = calls sys.
Proof.
  revert sys material. induction l as [|[i v] l IH]; intros sys material; [done|].
  cbn [fold_left]. unfold keep_abandoned at 2. by rewrite IH.
Qed.

Lemma left_of_next (material : list (option V)) waiting abandoned index :
  index ∈ left_of (next_wait material waiting abandoned) → index ∈ abandoned.
Proof. destruct waiting as [|[i c] waiting]; cbn; [|done]. case_bool_decide; cbn; [by intros ?%elem_of_nil|done]. Qed.

Lemma claim_of_next (material : list (option V)) waiting abandoned : claim_of (next_wait material waiting abandoned) = [].
Proof. destruct waiting as [|[i c] waiting]; [|done]. cbn. by case_bool_decide. Qed.

(** A wait for a block is given up: its channel closed, as the call that
    claimed it failed or was dropped, or says nothing at the deadline. *)
Inductive gives_up (sys : MaterialSystem V) (id index : nat) : MaterialEvent V → Prop :=
  | gives_up_wait call channel waiting abandoned end_ :
      calls sys !! id = Some call → call_stage call = WaitingOn index channel waiting abandoned →
      end_ = ChannelSays ∧ channels sys !! channel = Some ChannelClosed
      ∨ end_ = DeadlinePassed ∧ channels sys !! channel = Some ChannelOpen →
      gives_up sys id index (EndWait id end_).

(** An event that does not begin a call moves one call, which then claims
    nothing and is left with a block only after giving up the wait for it. *)
Definition moves (sys sys' : MaterialSystem V) (e : MaterialEvent V) : Prop :=
  ∃ id call call', calls sys !! id = Some call ∧ calls sys' = <[id := call']> (calls sys)
    ∧ claim_of (call_stage call') = []
    ∧ ∀ index, index ∈ left_of (call_stage call') → index ∈ left_of (call_stage call) ∨ gives_up sys id index e.

Lemma answer_moves id answer (sys sys' : MaterialSystem V) :
  answer_call id answer sys = Some sys' → moves sys sys' (Answer id answer).
Proof.
  intros (call & Hcall & Hstep)%bind_Some.
  assert (∀ sys1 call', calls sys1 = calls sys → Some (with_call sys1 id call') = Some sys' →
    claim_of (call_stage call') = [] → left_of (call_stage call') = [] → moves sys sys' (Answer id answer)) as Hmoves.
  { intros sys1 call' Hcalls [= <-] Hclaim Hleft. exists id, call, call'. cbn. rewrite Hcalls, Hleft.
    split_and!; [done..|]. by intros ? ?%elem_of_nil. }
  destruct (call_stage call) as [claim waiting| |abandoned| |]; try discriminate Hstep.
  - destruct answer as [fetched|error]; [destruct (negb _)|].
    + eapply Hmoves; [|exact Hstep|done|done]. apply hand_back_calls.
    + pose proof (complete_calls claim fetched sys (call_material call)) as Hcalls.
      destruct (complete _ _ _ _) as [sys1 material]. eapply Hmoves; [exact Hcalls|exact Hstep|apply claim_of_next|].
      apply elem_of_nil_inv. by intros ? ?%left_of_next%elem_of_nil.
    + eapply Hmoves; [|exact Hstep|done|done]. apply hand_back_calls.
  - destruct answer as [fetched|error]; [destruct (negb _)|]; [by eapply Hmoves..| |by eapply Hmoves].
    pose proof (keep_abandoned_calls (call_hashes call) (zip abandoned fetched) sys (call_material call)) as Hcalls.
    destruct (fold_left _ _ _) as [sys1 material]. by eapply Hmoves; [exact Hcalls|exact Hstep|..].
Qed.

Lemma end_wait_moves id end_ (sys sys' : MaterialSystem V) :
  end_wait id end_ sys = Some sys' → moves sys sys' (EndWait id end_).
Proof.
  intros (call & Hcall & Hstep)%bind_Some.
  destruct (call_stage call) as [|index channel waiting abandoned| | |] eqn:Hstage; try discriminate Hstep.
  assert (∀ call', Some (with_call sys id call') = Some sys' → claim_of (call_stage call') = [] →
    (∀ i, i ∈ left_of (call_stage call') → i ∈ abandoned ∨ gives_up sys id i (EndWait id end_)) →
    moves sys sys' (EndWait id end_)) as Hmoves.
  { intros call' [= <-] Hclaim Hleft. exists id, call, call'. rewrite Hstage. by split_and!. }
  assert (∀ call', call_stage call' = next_wait (call_material call) waiting (abandoned ++ [index]) →
    Some (with_call sys id call') = Some sys' →
    end_ = ChannelSays ∧ channels sys !! channel = Some ChannelClosed
      ∨ end_ = DeadlinePassed ∧ channels sys !! channel = Some ChannelOpen →
    moves sys sys' (EndWait id end_)) as Halone.
  { intros call' Hnext Hsys' Hend. eapply Hmoves; [exact Hsys'|rewrite Hnext; apply claim_of_next|].
    rewrite Hnext. intros i [Hin| ->%list_elem_of_singleton]%left_of_next%elem_of_app; [by left|right].
    by eapply gives_up_wait. }
  destruct end_, (channels sys !! channel) as [[|value|]|]; try discriminate Hstep.
  - eapply Hmoves; [exact Hstep|apply claim_of_next|]. cbn. intros i Hin%left_of_next. by left.
  - eapply Halone; [|exact Hstep|by left]. done.
  - eapply Halone; [|exact Hstep|by right]. done.
  - eapply Hmoves; [exact Hstep|done|]. by intros ? ?%elem_of_nil.
  - eapply Hmoves; [exact Hstep|done|]. by intros ? ?%elem_of_nil.
  - eapply Hmoves; [exact Hstep|done|]. by intros ? ?%elem_of_nil.
  - eapply Hmoves; [exact Hstep|done|]. by intros ? ?%elem_of_nil.
Qed.

Lemma drop_moves id (sys sys' : MaterialSystem V) : drop_call id sys = Some sys' → moves sys sys' (DropCall id).
Proof.
  intros (call & Hcall & Hstep)%bind_Some. exists id, call, (MkCall (call_hashes call) (call_material call) DroppedCall).
  destruct (call_stage call); try discriminate Hstep; injection Hstep as <-; cbn [with_call calls];
    rewrite ?hand_back_calls; (split; [done|split; [done|split; [done|]]]); by intros ? ?%elem_of_nil.
Qed.

Lemma event_moves e (sys sys' : MaterialSystem V) :
  material_event e sys = Some sys' → (∃ hashes, e = Begin hashes ∧ sys' = begin_call hashes sys) ∨ moves sys sys' e.
Proof.
  destruct e as [hashes|id answer|id end_|id]; cbn; [intros [= <-]; left; by exists hashes|right..].
  - by apply answer_moves.
  - by apply end_wait_moves.
  - by apply drop_moves.
Qed.

(** The loop claims only what is not recent. *)
Lemma find_blocks_missing (sys : MaterialSystem V) hashes i hash channel :
  (i, hash, channel) ∈ found_claim (find_blocks sys hashes) → (hash ∉ (fst <$> recent_blocks (shared_store sys))).
Proof.
  unfold find_blocks. set (recent := recent_blocks (shared_store sys)).
  assert (∀ l found, (∀ j h c, (j, h, c) ∈ found_claim found → h ∉ (fst <$> recent)) →
    ∀ j h c, (j, h, c) ∈ found_claim (fold_left (find_block recent) l found) → h ∉ (fst <$> recent)) as Hloop.
  { induction l as [|[k key] l IH]; intros found Hfound; [done|]. cbn [fold_left]. apply IH. unfold find_block. cbn [fst snd].
    destruct (List.find _ recent) as [held|] eqn:Hfind; [done|]. destruct (found_pending found !! key); [done|].
    cbn [found_claim]. intros j h c [Hin|Heq%list_elem_of_singleton]%elem_of_app; [by eapply Hfound|].
    injection Heq as -> -> ->. intros ([h v] & Heq & Hin)%list_elem_of_fmap. cbn in Heq. subst h.
    apply list_elem_of_In, (List.find_none _ _ Hfind) in Hin. cbn in Hin. by rewrite bool_decide_eq_true_2 in Hin. }
  apply Hloop. by intros ? ? ? ?%elem_of_nil.
Qed.

(** What a begun call claims: blocks it asks for that are neither recent nor
    claimed. *)
Lemma begin_claims labels sys hashes id i hash channel :
  system_ok labels sys → owns (begin_call hashes sys) id (i, hash, channel) →
  owns sys id (i, hash, channel)
  ∨ id = length (calls sys) ∧ hashes !! i = Some hash ∧ (hash ∉ (fst <$> recent_blocks (shared_store sys)))
    ∧ pending_blocks (shared_store sys) !! hash = None.
Proof.
  intros Hsys (call & Hcall & Hin). unfold begin_call in Hcall. cbn [calls] in Hcall.
  apply lookup_app_Some in Hcall as [Hcall|[Hlen Hcall]]; [left; by exists call|right].
  apply list_lookup_singleton_Some in Hcall as [Hid <-]. cbn [call_stage] in Hin.
  case_bool_decide; [by rewrite claim_of_next in Hin; apply elem_of_nil in Hin|]. cbn [claim_of] in Hin.
  split; [lia|]. pose proof Hin as Hmissing%find_blocks_missing. apply list_elem_of_lookup in Hin as [p Hp].
  pose proof (find_blocks_ok labels sys hashes Hsys) as Hok.
  destruct (found_at _ _ _ _ _ Hok _ _ _ _ Hp) as (Hhash & _ & Hpending). by split_and!.
Qed.

Lemma event_claims labels e sys sys' id i hash channel :
  system_ok labels sys → material_event e sys = Some sys' → owns sys' id (i, hash, channel) →
  owns sys id (i, hash, channel)
  ∨ (∃ hashes, e = Begin hashes ∧ hashes !! i = Some hash) ∧ (hash ∉ (fst <$> recent_blocks (shared_store sys)))
    ∧ ∀ id' i' channel', ¬ owns sys id' (i', hash, channel').
Proof.
  intros Hsys [(hashes & -> & ->)|(id0 & call & call' & Hcall & Hcalls & Hnone & _)]%event_moves Ho.
  - apply (begin_claims labels) in Ho as [Ho|(_ & Hhash & Hmissing & Hpending)]; [by left|right|done].
    split; [by exists hashes|]. split; [done|]. intros id' i' channel' Ho'%(sys_owned _ _ Hsys). congruence.
  - left. destruct Ho as (call1 & Hcall1 & Hin). rewrite Hcalls in Hcall1.
    apply list_lookup_insert_Some in Hcall1 as [(_ & <- & _)|[_ Hcall1]]; [|by exists call1].
    rewrite Hnone in Hin. by apply elem_of_nil in Hin.
Qed.

Lemma event_leaves e (sys sys' : MaterialSystem V) id call' index :
  material_event e sys = Some sys' → calls sys' !! id = Some call' → index ∈ left_of (call_stage call') →
  (∃ call, calls sys !! id = Some call ∧ index ∈ left_of (call_stage call)) ∨ gives_up sys id index e.
Proof.
  intros [(hashes & -> & ->)|(id0 & call & call1 & Hcall & Hcalls & _ & Hleft)]%event_moves Hcall' Hin.
  - left. unfold begin_call in Hcall'. cbn [calls] in Hcall'.
    apply lookup_app_Some in Hcall' as [Hcall'|[_ Hcall']]; [by exists call'|].
    apply list_lookup_singleton_Some in Hcall' as [_ <-]. cbn [call_stage] in Hin.
    case_bool_decide; [apply left_of_next in Hin|]; by apply elem_of_nil in Hin.
  - rewrite Hcalls in Hcall'. apply list_lookup_insert_Some in Hcall' as [(<- & <- & _)|[_ Hcall']]; [|left; by exists call'].
    destruct (Hleft _ Hin); [left; by exists call|by right].
Qed.

(** A wait can end, or is for another call's fetch. *)
Lemma wait_goes_on labels sys id call index channel waiting abandoned :
  system_ok labels sys → calls sys !! id = Some call →
  call_stage call = WaitingOn index channel waiting abandoned →
  is_Some (end_wait id ChannelSays sys)
  ∨ ∃ id' i hash, id' ≠ id ∧ owns sys id' (i, hash, channel) ∧ call_hashes call !! index = Some hash.
Proof.
  intros Hsys Hcall Hstage. unfold end_wait. rewrite Hcall. cbn [mbind option_bind].
  rewrite Hstage. pose proof (sys_calls _ _ Hsys _ _ Hcall) as Hok.
  destruct (call_wait _ _ _ Hok index channel) as (hash & Hhash & Hlabel); [rewrite Hstage; by left|].
  destruct (channels sys !! channel) as [[|value|]|] eqn:Hchannel; [right|left; by eexists..|].
  - apply (sys_open _ _ Hsys) with (hash := hash) in Hchannel; [|done].
    apply (sys_pending _ _ Hsys) in Hchannel as (id' & i & Ho). exists id', i, hash. split_and!; [|done|done].
    intros ->. destruct Ho as (call' & Hcall' & Hin). rewrite Hcall in Hcall'. injection Hcall' as <-.
    rewrite Hstage in Hin. by apply elem_of_nil in Hin.
  - apply lookup_ge_None in Hchannel. apply lookup_lt_Some in Hlabel. rewrite (sys_labels _ _ Hsys) in Hlabel. lia.
Qed.

(** C10: a block has one claim at a time, and nobody waits for nothing. In
    any interleaving no two calls hold a claim on the same block, nor one
    call two; the blocks that count as being downloaded are exactly those
    some call has claimed and is fetching, so a call that fails or is dropped
    leaves none behind. A call comes to download a block in two ways only: by
    claiming it as it begins, when it is neither recent nor claimed, or by
    giving up the wait for it, when the call that claimed it failed, was
    dropped or is still fetching at the deadline; so calls download the same
    block only where a wait was given up. A call that waits can go on by
    itself, its channel having told it or having closed, or waits for another
    call that is fetching the block, which itself waits for its fetch alone:
    calls never wait in a circle. *)
Theorem claims_are_unique sys (Hreached : reached sys) :
  (∀ id id' i i' hash channel channel', owns sys id (i, hash, channel) → owns sys id' (i', hash, channel') →
     id = id' ∧ channel = channel')
  ∧ (∀ id call, calls sys !! id = Some call → NoDup (hashes_of (claim_of (call_stage call))))
  ∧ (∀ hash channel, pending_blocks (shared_store sys) !! hash = Some channel ↔ ∃ id i, owns sys id (i, hash, channel))
  ∧ (∀ e sys', material_event e sys = Some sys' →
      (∀ id i hash channel, owns sys' id (i, hash, channel) →
        owns sys id (i, hash, channel)
        ∨ (∃ hashes, e = Begin hashes ∧ hashes !! i = Some hash) ∧ (hash ∉ (fst <$> recent_blocks (shared_store sys)))
          ∧ ∀ id' i' channel', ¬ owns sys id' (i', hash, channel'))
      ∧ ∀ id call' index, calls sys' !! id = Some call' → index ∈ left_of (call_stage call') →
        (∃ call, calls sys !! id = Some call ∧ index ∈ left_of (call_stage call)) ∨ gives_up sys id index e)
  ∧ ∀ id call index channel waiting abandoned, calls sys !! id = Some call →
      call_stage call = WaitingOn index channel waiting abandoned →
      is_Some (end_wait id ChannelSays sys)
      ∨ ∃ id' i hash, id' ≠ id ∧ owns sys id' (i, hash, channel) ∧ call_hashes call !! index = Some hash.
Proof.
  apply reached_ok in Hreached as [labels Hsys]. split; [|split; [|split; [|split]]].
  - intros id id' i i' hash channel channel' Ho Ho'. pose proof (sys_owned _ _ Hsys _ _ _ _ Ho) as Hp.
    rewrite (sys_owned _ _ Hsys _ _ _ _ Ho') in Hp. injection Hp as ->. split; [|done]. by eapply (sys_owner _ _ Hsys).
  - intros id call Hcall. apply (call_claims _ _ _ (sys_calls _ _ Hsys _ _ Hcall)).
  - intros hash channel. split; [apply (sys_pending _ _ Hsys)|]. intros (id & i & Ho). by eapply (sys_owned _ _ Hsys).
  - intros e sys' Hstep. split.
    + intros id i hash channel Ho. by eapply event_claims.
    + intros id call' index. by eapply event_leaves.
  - intros id call index channel waiting abandoned. by eapply wait_goes_on.
Qed.
End facts.

(** ** A run *)

(** Two calls ask for two blocks each, one of them the same; the second waits
    for the first to download it. *)
Module SharedSample.

Definition block (n : Z) : BlockHash := exist _ (be_bytes 32 n) (length_be_bytes 32 n).
Definition of_block (hash : BlockHash) (value : Z) : Prop := hash = block value.

Definition events : list (MaterialEvent Z) :=
  [Begin [block 1; block 2]; Begin [block 2; block 3]; Answer 1 (Ok [3]); Answer 0 (Ok [1; 2]); EndWait 1 ChannelSays].

(** The run, as long as every fetch answers with the blocks asked for. *)
Definition well (sys : MaterialSystem Z) (e : MaterialEvent Z) : bool :=
  match e with
  | Answer id (Ok fetched) =>
      match calls sys !! id with
      | Some call => forallb (λ item, bool_decide (item.1 = block item.2)) (zip (asked call) fetched)
      | None => true
      end
  | _ => true
  end.
Fixpoint checked_run (events : list (MaterialEvent Z)) (sys : MaterialSystem Z) : option (MaterialSystem Z) :=
  match events with
  | [] => Some sys
  | e :: events => if well sys e then sys ← material_event e sys; checked_run events sys else None
  end.

Lemma well_answers sys e : well sys e = true → answers_well of_block sys e.
Proof.
  destruct e as [|id [fetched|]| |]; try done. cbn. intros Hwell call i hash value Hcall Hhash Hvalue.
  rewrite Hcall in Hwell. rewrite forallb_spec in Hwell. specialize (Hwell (hash, value)).
  cbn in Hwell. apply bool_decide_eq_true in Hwell; [done|]. apply list_elem_of_lookup. exists i.
  rewrite lookup_zip_with, Hhash, Hvalue. done.
Qed.

Lemma checked_reached events sys sys' :
  reached of_block sys → checked_run events sys = Some sys' → reached of_block sys'.
Proof.
  revert sys. induction events as [|e events IH]; intros sys Hreached; cbn [checked_run]; [by intros [= <-]|].
  destruct (well sys e) eqn:Hwell; [|done]. destruct (material_event e sys) as [next|] eqn:He; [|done].
  cbn [mbind option_bind]. apply IH. eapply reached_event; [exact Hreached| |exact He]. by apply well_answers.
Qed.

Definition waiting : MaterialSystem Z := default material_start (checked_run (take 3 events) material_start).
Definition ended : MaterialSystem Z := default material_start (checked_run events material_start).

Lemma waiting_reached : reached of_block waiting.
Proof.
  apply (checked_reached (take 3 events) material_start); [constructor|].
  assert (match checked_run (take 3 events) material_start with Some _ => true | None => false end = true) as Hrun
    by (by vm_compute).
  unfold waiting. by destruct (checked_run _ _).
Qed.

Lemma ended_reached : reached of_block ended.
Proof.
  apply (checked_reached events material_start); [constructor|].
  assert (match checked_run events material_start with Some _ => true | None => false end = true) as Hrun
    by (by vm_compute).
  unfold ended. by destruct (checked_run _ _).
Qed.
End SharedSample.

(** The second call returns the block the first downloaded. *)
Lemma shared_material_right_witness :
  ∃ call, calls SharedSample.ended !! 1%nat = Some call ∧ call_stage call = Returned (Some (Ok [2; 3]))
  ∧ Forall2 SharedSample.of_block (call_hashes call) [2; 3].
Proof.
  destruct (calls SharedSample.ended !! 1%nat) as [call|] eqn:Hcall; [|by vm_compute in Hcall].
  assert (call_stage call = Returned (Some (Ok [2; 3]))) as Hstage.
  { assert (option_map call_stage (calls SharedSample.ended !! 1%nat) = Some (Returned (Some (Ok [2; 3])))) as Hs
      by (by vm_compute). rewrite Hcall in Hs. by injection Hs. }
  exists call. split; [done|]. split; [exact Hstage|].
  destruct (shared_material_right SharedSample.of_block SharedSample.ended 1 call (Some (Ok [2; 3]))
    SharedSample.ended_reached Hcall Hstage) as [(r & [= <-] & Hall) _]. by apply Hall.
Defined.

(** It waits for the first, which is fetching. *)
Lemma claims_are_unique_witness :
  ∃ i hash, owns SharedSample.waiting 0 (i, hash, 1%nat) ∧ hash = SharedSample.block 2.
Proof.
  destruct (claims_are_unique SharedSample.of_block SharedSample.waiting SharedSample.waiting_reached)
    as (_ & _ & _ & _ & Hwait).
  destruct (calls SharedSample.waiting !! 1%nat) as [call|] eqn:Hcall; [|by vm_compute in Hcall].
  assert (option_map (λ call, (call_stage call, call_hashes call)) (calls SharedSample.waiting !! 1%nat)
    = Some (WaitingOn 0 1 [] [], [SharedSample.block 2; SharedSample.block 3])) as Hs by (by vm_compute).
  rewrite Hcall in Hs. injection Hs as Hstage Hhashes.
  destruct (Hwait 1%nat call 0%nat 1%nat [] [] Hcall Hstage) as [[sys Hend]|(id' & i & hash & Hne & Hown & Hhash)].
  - assert (match end_wait 1 ChannelSays SharedSample.waiting with Some _ => true | None => false end = false) as Hnone
      by (by vm_compute). by rewrite Hend in Hnone.
  - exists i, hash. rewrite Hhashes in Hhash. injection Hhash as <-. split; [|done].
    destruct id' as [|[|id']]; [exact Hown|done|]. destruct Hown as (c & Hc & _). by vm_compute in Hc.
Defined.
