(* ===== verification/Batches.v ===== *)
(** * Material in batches

    Models how [crates/source-p2p/src/lib.rs] fetches the bodies or receipts
    of many blocks: in requests of a few blocks each, whose replies may cover
    a part, and block by block where a request of several fails
    ([fetch_bodies_batched], [fetch_direct_receipts_batched]). *)
From Stdlib Require Import ZArith Lia Strings.Byte.
From stdpp Require Import gmap strings list list_numbers fin_maps sorting pretty.
From S2P Require Import Prelude Bytes Chain Material SourceContract Cadence LiveHead LiveChain.

(** [slice::chunks]; a slice has at most as many chunks as elements. *)
Fixpoint chunks_within {A} (fuel : nat) (size : nat) (l : list A) : list (list A) :=
  match l, fuel with
  | [], _ | _, O => []
  | _, S fuel => take size l :: chunks_within fuel size (drop size l)
  end.
Definition chunks {A} (size : nat) (l : list A) : list (list A) := chunks_within (length l) size l.

(** An index past the end, which panics. *)
Definition out_of_bounds : P2pError := InvalidResponse "index out of bounds".

Section batches.
Context `{!AlloyHeader} {A : Type}.

(** Every reply adds a block, so there are at most as many as blocks. *)
Fixpoint fetch_complete_within (fuel blocks : nat) (fetch : nat → result P2pError (list A)) (material : list A)
    : result P2pError (list A) :=
  if negb (length material <? blocks)%nat then Ok material
  else
    served ← fetch (length material);
    if bool_decide (length served = 0%nat)
    then Err (IncompleteResponse "material" 0 (sat_sub (Z.of_nat blocks) (Z.of_nat (length material))))
    else match fuel with
      | O => Ok material
      | S fuel => fetch_complete_within fuel blocks fetch (material ++ served)
      end.
Definition fetch_complete (blocks : nat) (fetch : nat → result P2pError (list A)) : result P2pError (list A) :=
  fetch_complete_within blocks blocks fetch [].

(** The requests: what the peers answer to one, and to one that is a block of
    a request that failed. *)
Context (material_request_blocks : nat) (fetch : bool → list Header → result P2pError (list A)).

Definition fetch_chunk (chunk : list Header) : result P2pError (list A) :=
  fetch_complete (length chunk) (λ offset, fetch false (drop offset chunk)).

(** What is complete, each batch with its first block, and what is to be
    asked for again. *)
Definition settle_chunk (state : list (BlockNumber * list A) * list Header) (chunk : list Header)
    : result P2pError (list (BlockNumber * list A) * list Header) :=
  let '(completed, fallback) := state in
  match fetch_chunk chunk with
  | Ok material =>
      match head chunk with
      | Some first => Ok (completed ++ [(header_number first, material)], fallback)
      | None => Err out_of_bounds
      end
  | Err error => if (1 <? length chunk)%nat then Ok (completed, fallback ++ chunk) else Err error
  end.

Definition settle_block (completed : list (BlockNumber * list A)) (header : Header)
    : result P2pError (list (BlockNumber * list A)) :=
  material ← fetch true [header];
  Ok (completed ++ [(header_number header, material)]).

Definition fetch_batched (headers : list Header) : result P2pError (list A) :=
  '(completed, fallback) ← fold_result settle_chunk ([], []) (chunks material_request_blocks headers);
  completed ← fold_result settle_block completed fallback;
  Ok (sort_by (λ a b, a.1 <=? b.1) completed ≫= snd).

(** ** However the replies are cut *)

Lemma chunks_concat {B} size (l : list B) : (0 < size)%nat →
  mjoin (chunks size l) = l ∧ ∀ chunk, chunk ∈ chunks size l → chunk ≠ [].
Proof.
  intros Hsize. unfold chunks. assert (length l ≤ length l)%nat as Hfuel by lia. revert Hfuel.
  generalize (length l) at 2 3 4. intros fuel. revert l.
  induction fuel as [|fuel IH]; intros [|x l] Hfuel; cbn [length] in Hfuel; try lia; try (split; [done|by intros ? ?%elem_of_nil]).
  cbn [chunks_within]. destruct (IH (drop size (x :: l))) as [Hjoin Hne]; [rewrite length_drop; cbn; lia|].
  split; [change (take size (x :: l) ++ mjoin (chunks_within fuel size (drop size (x :: l))) = x :: l); by rewrite Hjoin, take_drop|].
  intros chunk [->|Hin]%elem_of_cons; [|by apply Hne]. destruct size; [lia|done].
Qed.

Section answers.
Context (material_of : Header → A) (headers : list Header).
Context (Hprefix : ∀ hs got, fetch false hs = Ok got → ∃ n, got = material_of <$> take n hs).
Context (Hone : ∀ single header, header ∈ headers → fetch single [header] = Ok [material_of header]).

Lemma fetch_complete_spec fuel chunk k :
  (∀ header, header ∈ chunk → header ∈ headers) → (length chunk ≤ fuel + k)%nat → (k ≤ length chunk)%nat →
  match fetch_complete_within fuel (length chunk) (λ offset, fetch false (drop offset chunk)) (material_of <$> take k chunk) with
  | Ok material => material = material_of <$> chunk
  | Err _ => (1 < length chunk)%nat
  end.
Proof.
  intros Hchunk. revert k. induction fuel as [|fuel IH]; intros k Hfuel Hk; cbn [fetch_complete_within];
    rewrite length_fmap, length_take, Nat.min_l by lia.
  { destruct (Nat.ltb_spec k (length chunk)); [lia|]. cbn. by rewrite take_ge by lia. }
  destruct (Nat.ltb_spec k (length chunk)) as [Hlt|]; cbn [negb]; [|by rewrite take_ge by lia].
  assert (match fetch false (drop k chunk) with Ok served => ∃ n, served = material_of <$> take n (drop k chunk)
    | Err _ => (1 < length chunk)%nat end ∧ (length chunk = 1%nat → fetch false (drop k chunk) = Ok (material_of <$> drop k chunk)))
    as [Hserved Hsingle].
  { assert (length chunk = 1%nat → fetch false (drop k chunk) = Ok (material_of <$> drop k chunk)) as Hsingle.
    { intros Hlen. destruct chunk as [|header [|]]; try done. destruct k; [|cbn in Hlt; lia]. apply Hone, Hchunk. by left. }
    split; [|done]. destruct (fetch false (drop k chunk)) as [served|e] eqn:Hf; [by apply Hprefix|].
    destruct (decide (length chunk = 1%nat)) as [Hl|]; [specialize (Hsingle Hl); congruence|lia]. }
  destruct (fetch false (drop k chunk)) as [served|e]; cbn [mbind result_bind]; [|done].
  destruct Hserved as [n ->]. rewrite length_fmap, length_take, length_drop.
  case_bool_decide as Hzero.
  { destruct (decide (length chunk = 1%nat)) as [Hl|]; [|lia]. specialize (Hsingle Hl). injection Hsingle as Hsingle.
    apply (f_equal length) in Hsingle. rewrite !length_fmap, length_take, length_drop in Hsingle. lia. }
  rewrite <-fmap_app. assert (take k chunk ++ take n (drop k chunk) = take (Nat.min (k + n) (length chunk)) chunk) as ->.
  { rewrite take_take_drop. destruct (Nat.min_spec (k + n) (length chunk)) as [[_ ->]|[Hge ->]]; [done|].
    by rewrite !take_ge by lia. }
  apply IH; lia.
Qed.

Lemma fetch_chunk_spec chunk :
  (∀ header, header ∈ chunk → header ∈ headers) →
  match fetch_chunk chunk with Ok material => material = material_of <$> chunk | Err _ => (1 < length chunk)%nat end.
Proof.
  intros Hchunk. unfold fetch_chunk, fetch_complete.
  apply (fetch_complete_spec (length chunk) chunk 0 Hchunk); lia.
Qed.

(** What comes of a chunk, as batches in order. *)
Definition segments (chunk : list Header) : list (BlockNumber * list A) :=
  match fetch_chunk chunk, head chunk with
  | Ok material, Some first => [(header_number first, material)]
  | _, _ => (λ header, (header_number header, [material_of header])) <$> chunk
  end.
Definition asked_again (chunk : list Header) : list Header := match fetch_chunk chunk with Ok _ => [] | Err _ => chunk end.

Lemma settle_chunks parts completed fallback :
  (∀ chunk, chunk ∈ parts → chunk ≠ [] ∧ ∀ header, header ∈ chunk → header ∈ headers) →
  ∃ more, fold_result settle_chunk (completed, fallback) parts = Ok (completed ++ more, fallback ++ (parts ≫= asked_again))
  ∧ more ++ ((λ header, (header_number header, [material_of header])) <$> (parts ≫= asked_again)) ≡ₚ parts ≫= segments.
Proof.
  revert completed fallback. induction parts as [|chunk parts IH]; intros completed fallback Hparts.
  { exists []. cbn. by rewrite !app_nil_r. }
  destruct (Hparts chunk) as [Hne Hin]; [by left|]. pose proof (fetch_chunk_spec chunk Hin) as Hspec.
  cbn [fold_result]. rewrite !bind_cons.
  assert (settle_chunk (completed, fallback) chunk = match fetch_chunk chunk, head chunk with
    | Ok material, Some first => Ok (completed ++ [(header_number first, material)], fallback)
    | Ok _, None => Err out_of_bounds
    | Err error, _ => if (1 <? length chunk)%nat then Ok (completed, fallback ++ chunk) else Err error end) as ->
    by (unfold settle_chunk; by destruct (fetch_chunk chunk), (head chunk)).
  unfold segments at 1, asked_again at 1 3. destruct (fetch_chunk chunk) as [material|e].
  - destruct chunk as [|first chunk]; [done|]. cbn [head mbind result_bind].
    destruct (IH (completed ++ [(header_number first, material)]) fallback) as (more & Hrun & Hperm); [set_solver|].
    exists ((header_number first, material) :: more). rewrite Hrun, <-app_assoc. split; [done|]. cbn. by rewrite Hperm.
  - rewrite (proj2 (Nat.ltb_lt _ _)) by done. cbn [mbind result_bind].
    destruct (IH completed (fallback ++ chunk)) as (more & Hrun & Hperm); [set_solver|].
    exists more. rewrite Hrun, <-app_assoc. split; [done|]. rewrite fmap_app, <-Hperm. cbn.
    rewrite !(assoc_L (++)). by rewrite (Permutation_app_comm more).
Qed.

Lemma settle_blocks fallback completed :
  (∀ header, header ∈ fallback → header ∈ headers) →
  fold_result settle_block completed fallback
  = Ok (completed ++ ((λ header, (header_number header, [material_of header])) <$> fallback)).
Proof.
  clear Hprefix. revert completed. induction fallback as [|header fallback IH]; intros completed Hin; cbn [fold_result].
  { by rewrite app_nil_r. }
  assert (settle_block completed header = Ok (completed ++ [(header_number header, [material_of header])])) as ->.
  { unfold settle_block. by rewrite Hone by set_solver. }
  cbn [mbind result_bind]. rewrite IH by set_solver. by rewrite fmap_cons, <-app_assoc.
Qed.

(** The segments of chunks, in order, are the material in order. *)
Lemma segments_in_order parts :
  (∀ chunk, chunk ∈ parts → chunk ≠ [] ∧ ∀ header, header ∈ chunk → header ∈ headers) →
  StronglySorted (λ a b : Header, header_number a < header_number b) (mjoin parts) →
  (parts ≫= segments) ≫= snd = material_of <$> mjoin parts
  ∧ StronglySorted (λ a b, a.1 < b.1) (parts ≫= segments)
  ∧ ∀ segment, segment ∈ parts ≫= segments → ∃ header, header ∈ mjoin parts ∧ segment.1 = header_number header.
Proof.
  induction parts as [|chunk parts IH]; intros Hparts Hsorted.
  { split; [done|]. split; [constructor|by intros ? ?%elem_of_nil]. }
  destruct (Hparts chunk) as [Hne Hin]; [by left|].
  change (mjoin (chunk :: parts)) with (chunk ++ mjoin parts) in *.
  apply StronglySorted_app in Hsorted as (Hacross & Hchunk & Hrest).
  destruct IH as (Hmaterial & Hss & Hkeys); [set_solver|done|].
  assert (segments chunk ≫= snd = material_of <$> chunk
    ∧ StronglySorted (λ a b, a.1 < b.1) (segments chunk)
    ∧ ∀ segment, segment ∈ segments chunk → ∃ header, header ∈ chunk ∧ segment.1 = header_number header) as (Hm & Hs & Hk).
  { assert (let rows := (λ header, (header_number header, [material_of header])) <$> chunk in
      rows ≫= snd = material_of <$> chunk ∧ StronglySorted (λ a b, a.1 < b.1) rows
      ∧ ∀ segment, segment ∈ rows → ∃ header, header ∈ chunk ∧ segment.1 = header_number header) as Hrows.
    { cbv zeta. split; [|split].
      - clear. induction chunk as [|header chunk IH]; [done|]. by rewrite !fmap_cons, bind_cons, IH.
      - clear -Hchunk. induction Hchunk as [|header chunk Hchunk IH Hall]; [constructor|]. rewrite fmap_cons.
        constructor; [done|]. apply Forall_fmap. exact Hall.
      - intros segment (header & -> & Hh)%list_elem_of_fmap. by exists header. }
    pose proof (fetch_chunk_spec chunk Hin) as Hspec. unfold segments. destruct (fetch_chunk chunk) as [material|e]; [|exact Hrows].
    subst material. destruct chunk as [|first chunk]; [done|]. cbn [head]. split; [cbn; by rewrite app_nil_r|].
    split; [by repeat constructor|]. intros segment ->%list_elem_of_singleton. exists first. split; [by left|done]. }
  rewrite bind_cons. split; [|split].
  - rewrite bind_app, Hm, Hmaterial. by rewrite fmap_app.
  - apply StronglySorted_app. split_and!; [|done|done]. intros x y (hx & Hhx & ->)%Hk (hy & Hhy & ->)%Hkeys. by apply Hacross.
  - intros segment [(h & Hh & ->)%Hk|(h & Hh & ->)%Hkeys]%elem_of_app; exists h; (split; [apply elem_of_app; tauto|done]).
Qed.
End answers.

Lemma sorted_keys (rows : list (BlockNumber * list A)) x y :
  StronglySorted (λ a b, a.1 < b.1) rows → x ∈ rows → y ∈ rows → x.1 = y.1 → x = y.
Proof.
  induction 1 as [|row rows _ IH Hall]; [by intros ?%elem_of_nil|]. rewrite Forall_forall in Hall.
  intros [->|Hx]%elem_of_cons [->|Hy]%elem_of_cons Hkey; [done| | |by apply IH].
  - specialize (Hall y Hy). lia.
  - specialize (Hall x Hx). lia.
Qed.

(** C11: batching changes nothing. Whatever the peers do with requests of
    several blocks, cut their replies short anywhere or fail them, in chunks of
    whatever size, fetching in batches ends with the material of every block,
    in the order of the headers, as long as a request for one block is
    answered. *)
Theorem batches_complete (material_of : Header → A) headers
    (Hblocks : (0 < material_request_blocks)%nat)
    (Hsorted : StronglySorted (λ a b : Header, header_number a < header_number b) headers)
    (Hprefix : ∀ hs got, fetch false hs = Ok got → ∃ n, got = material_of <$> take n hs)
    (Hone : ∀ single header, header ∈ headers → fetch single [header] = Ok [material_of header]) :
  fetch_batched headers = Ok (material_of <$> headers).
Proof.
  destruct (chunks_concat material_request_blocks headers Hblocks) as [Hjoin Hne].
  set (parts := chunks material_request_blocks headers) in *.
  assert (∀ chunk, chunk ∈ parts → chunk ≠ [] ∧ ∀ header, header ∈ chunk → header ∈ headers) as Hparts.
  { intros chunk Hchunk. split; [by apply Hne|]. intros header Hh. rewrite <-Hjoin. apply list_elem_of_join. eauto. }
  destruct (settle_chunks material_of headers Hprefix Hone parts [] [] Hparts) as (more & Hrun & Hperm).
  destruct (segments_in_order material_of headers Hprefix Hone parts Hparts) as (Hmaterial & Hss & _); [by rewrite Hjoin|].
  unfold fetch_batched. fold parts. rewrite Hrun. cbn [mbind result_bind app].
  rewrite (settle_blocks material_of headers Hone).
  2: { intros header (chunk & Hh & Hc)%list_elem_of_bind. apply (Hparts chunk Hc).
       unfold asked_again in Hh. by destruct (fetch_chunk chunk); [apply elem_of_nil in Hh|]. }
  cbn [mbind result_bind]. rewrite <-Hjoin, <-Hmaterial. do 2 f_equal.
  apply sort_by_unique; [intros x y; lia|intros x y z; lia| | |exact Hperm].
  - intros x y Hx Hy Hxy Hyx. rewrite Hperm in Hx, Hy. apply (sorted_keys _ _ _ Hss Hx Hy). cbn in *. lia.
  - eapply StronglySorted_weaken; [|exact Hss]. intros x y _ _ Hxy. cbn in *. lia.
Qed.
End batches.
