(* ===== verification/Wire.v ===== *)
(** * Execution wire types

    Models [crates/source-p2p/src/wire.rs]: the transactions and receipts of
    every family the source follows, whose methods delegate to the type they
    wrap. alloy's and op-alloy's types, and what they hash and encode to, are
    the classes of this file. *)
From Stdlib Require Import ZArith Lia Strings.Byte.
From stdpp Require Import gmap strings list list_numbers fin_maps sorting pretty.
From S2P Require Import Prelude Bytes Chain Material Provenance Frame SourceContract Cadence LiveHead.

(** [alloy_primitives::Log]. *)
Record AlloyLog := MkAlloyLog {
  alloy_log_address : Address;
  alloy_log_topics : list (array 32);
  alloy_log_data : list byte;
}.

(** [alloy_eips::eip4895::Withdrawal]. *)
Record AlloyWithdrawal := MkAlloyWithdrawal {
  alloy_withdrawal_index : Z;
  alloy_validator_index : Z;
  alloy_withdrawal_address : Address;
  alloy_withdrawal_amount : Z;
}.

(** What the source reads of a transaction: alloy's [Transaction],
    [Typed2718], [TxHashRef], [SignerRecoverable] and [Encodable2718]. *)
Class AlloyTransaction (T : Type) := {
  tx_ty : T → Z;
  tx_hash_ref : T → TransactionHash;
  tx_recipient : T → option Address;
  tx_nonce_of : T → Z;
  tx_gas_limit_of : T → Z;
  tx_value_of : T → Z;
  tx_input_of : T → list byte;
  tx_max_fee_per_gas : T → Z;
  tx_max_priority_fee_per_gas : T → option Z;
  tx_max_fee_per_blob_gas : T → option Z;
  tx_blob_hashes : T → option (list BlockHash);
  tx_effective_gas_price : T → option Z → Z;
  tx_recover_signer : T → result string Address;
  tx_encoded_2718 : T → list byte;
}.

(** And of a receipt: alloy's [TxReceipt] and its type. *)
Class AlloyReceipt (Bloom R : Type) := {
  receipt_ty : R → Z;
  logs_of : R → list AlloyLog;
  cumulative_gas_of : R → Z;
  status_of : R → bool;
  bloom_of : R → Bloom;
}.
Arguments receipt_ty {Bloom R _} _.
Arguments logs_of {Bloom R _} _.
Arguments cumulative_gas_of {Bloom R _} _.
Arguments status_of {Bloom R _} _.

(** alloy's and op-alloy's types: transactions, receipts, blooms. A bloom
    contains an input as [BloomInput::Raw]; [op_deposit_fields] is the nonce
    and version of a deposit receipt, [None] for the other receipts. *)
Class WireTypes `{!AlloyHeader} := {
  Bloom : Type;
  Bloom_eq_dec :: EqDecision Bloom;
  bloom_zero : Bloom;
  bloom_or : Bloom → Bloom → Bloom;
  contains_input : Bloom → list byte → bool;
  TransactionSigned : Type;
  OpTxEnvelope : Type;
  EthereumReceipt : Type;
  OpReceipt : Type;
  TransactionSigned_tx :: AlloyTransaction TransactionSigned;
  OpTxEnvelope_tx :: AlloyTransaction OpTxEnvelope;
  EthereumReceipt_receipt :: AlloyReceipt Bloom EthereumReceipt;
  OpReceipt_receipt :: AlloyReceipt Bloom OpReceipt;
  op_deposit_fields : OpReceipt → option (option Z * option Z);
  op_clear_deposit_nonce : OpReceipt → OpReceipt;
  default_blob_gas_used : option (list BlockHash) → option Z;
  alloy_ommers_hash : Header → BlockHash;
  alloy_logs_bloom : Header → Bloom;
  alloy_block_access_list_hash : Header → option BlockHash;
}.

Section wire.
Context `{WireTypes}.

Inductive WireTx := EthereumTx (tx : TransactionSigned) | OpStackTx (tx : OpTxEnvelope).
Inductive WireReceipt := EthereumRc (receipt : EthereumReceipt) | OpStackRc (receipt : OpReceipt).

(** [each_tx!] and [each_receipt!]. *)
Definition each_tx {A} (f : TransactionSigned → A) (g : OpTxEnvelope → A) (tx : WireTx) : A :=
  match tx with EthereumTx tx => f tx | OpStackTx tx => g tx end.
Definition each_receipt {A} (f : EthereumReceipt → A) (g : OpReceipt → A) (receipt : WireReceipt) : A :=
  match receipt with EthereumRc receipt => f receipt | OpStackRc receipt => g receipt end.

#[export] Instance WireTx_tx : AlloyTransaction WireTx := {|
  tx_ty := each_tx tx_ty tx_ty;
  tx_hash_ref := each_tx tx_hash_ref tx_hash_ref;
  tx_recipient := each_tx tx_recipient tx_recipient;
  tx_nonce_of := each_tx tx_nonce_of tx_nonce_of;
  tx_gas_limit_of := each_tx tx_gas_limit_of tx_gas_limit_of;
  tx_value_of := each_tx tx_value_of tx_value_of;
  tx_input_of := each_tx tx_input_of tx_input_of;
  tx_max_fee_per_gas := each_tx tx_max_fee_per_gas tx_max_fee_per_gas;
  tx_max_priority_fee_per_gas := each_tx tx_max_priority_fee_per_gas tx_max_priority_fee_per_gas;
  tx_max_fee_per_blob_gas := each_tx tx_max_fee_per_blob_gas tx_max_fee_per_blob_gas;
  tx_blob_hashes := each_tx tx_blob_hashes tx_blob_hashes;
  tx_effective_gas_price := each_tx tx_effective_gas_price tx_effective_gas_price;
  tx_recover_signer := each_tx tx_recover_signer tx_recover_signer;
  tx_encoded_2718 := each_tx tx_encoded_2718 tx_encoded_2718;
|}.

#[export] Instance WireReceipt_receipt : AlloyReceipt Bloom WireReceipt := {|
  receipt_ty := each_receipt receipt_ty receipt_ty;
  logs_of := each_receipt logs_of logs_of;
  cumulative_gas_of := each_receipt cumulative_gas_of cumulative_gas_of;
  status_of := each_receipt status_of status_of;
  bloom_of := each_receipt bloom_of bloom_of;
|}.

Definition is_op_stack (tx : WireTx) : bool := match tx with OpStackTx _ => true | EthereumTx _ => false end.

Definition deposit_fields (receipt : WireReceipt) : option (option Z * option Z) :=
  match receipt with OpStackRc receipt => op_deposit_fields receipt | EthereumRc _ => None end.

Definition without_deposit_nonce (receipt : WireReceipt) : WireReceipt :=
  match receipt with
  | OpStackRc deposit =>
      match op_deposit_fields deposit with Some _ => OpStackRc (op_clear_deposit_nonce deposit) | None => receipt end
  | EthereumRc _ => receipt
  end.

(** The trait's own [blob_gas_used], which the wire type keeps. *)
Definition blob_gas_used_of (tx : WireTx) : option Z := default_blob_gas_used (tx_blob_hashes tx).

(** [alloy_consensus::BlockBody<WireTx>]. *)
Record BlockBody := MkBody {
  body_transactions : list WireTx;
  body_ommers : list Header;
  body_withdrawals : option (list AlloyWithdrawal);
}.
End wire.

(** What alloy hashes and encodes: the roots of a block's parts, the empty
    root, the encoding of a receipt with its bloom and the length of a
    block's. *)
Class WireRoots `{WireTypes} := {
  EMPTY_ROOT_HASH : BlockHash;
  calculate_transaction_root : list WireTx → BlockHash;
  calculate_receipt_root : list WireReceipt → BlockHash;
  calculate_ommers_root : BlockBody → BlockHash;
  calculate_withdrawals_root : BlockBody → option BlockHash;
  encode_with_bloom : WireReceipt → list byte;
  block_rlp_length : Header → BlockBody → nat;
}.

(** What their documentation says: a receipt's bloom contains the address and
    the topics of its logs, a union what its parts contain. *)
Class WireLaws `{WireRoots} : Prop := {
  bloom_address receipt log : log ∈ logs_of (receipt : WireReceipt) →
    contains_input (bloom_of receipt) (bytes_of (alloy_log_address log)) = true;
  bloom_topic receipt log topic : log ∈ logs_of (receipt : WireReceipt) → topic ∈ alloy_log_topics log →
    contains_input (bloom_of receipt) (bytes_of topic) = true;
  bloom_or_left a b input : contains_input a input = true → contains_input (bloom_or a b) input = true;
  bloom_or_right a b input : contains_input b input = true → contains_input (bloom_or a b) input = true;
}.
