(* ===== verification/Verified.v ===== *)
(** * Verified material

    Models the part of [crates/source-p2p/src/lib.rs] that turns what peers
    serve into frames: the validation of bodies and receipts against their
    headers, the normalization of a verified block for a request, and the
    sparse acquisition of logs, which fetches the receipts of the blocks whose
    bloom may match and the bodies of those that do. *)
From Stdlib Require Import ZArith Lia Strings.Byte.
From stdpp Require Import gmap strings list list_numbers fin_maps sorting pretty.
From S2P Require Import Prelude Bytes Chain Capability Material Provenance Frame SourceContract Durable Cadence LiveHead LiveChain Batches Wire.

Definition array_be (n : nat) (z : Z) : array n := exist _ (be_bytes n z) (length_be_bytes n z).

(** [Quantity::new(value.to_be_bytes())] of a 256-bit value. *)
Definition quantity (value : Z) : Quantity := array_be 32 value.

Definition RETH_VERSION : string := "2.5.2".
Definition RETH_REVISION : string := "5a6940e351fed80458fe6c9da8581cbe4b8bd036".

(** [u64::try_from(length).unwrap_or(u64::MAX)], and for [u32]. *)
Definition saturate_u64 (length : nat) : Z := Z.min u64_max (Z.of_nat length).
Definition saturate_u32 (length : nat) : Z := Z.min u32_max (Z.of_nat length).

(** The debug name of a capability in lower case. *)
Definition capability_name (c : Capability) : string :=
  match c with
  | Capability.Header => "header" | Body => "body" | Transactions => "transactions" | Calldata => "calldata"
  | Receipts => "receipts" | Logs => "logs" | Withdrawals => "withdrawals" | BlobSidecars => "blobsidecars"
  | Traces => "traces" | StateDiffs => "statediffs" | ConsensusFinality => "consensusfinality"
  | Mempool => "mempool" | Senders => "senders" | BlobFields => "blobfields" | ReceiptOutcome => "receiptoutcome"
  | BlockSize => "blocksize"
  end.

(** ** What a request needs *)

Definition TRANSACTION_GROUPS : CapabilitySet := CapabilitySet.from_iter [Body; Calldata; Senders; BlobFields].

Definition requested_material (request : option DataRequest) (capability : Capability) : bool :=
  is_none_or request (λ request,
    match capability with
    | Transactions =>
        negb (CapabilitySet.intersection (CapabilitySet.with_derivable (required request)) TRANSACTION_GROUPS
              =? CapabilitySet.NONE)
    | Receipts => CapabilitySet.contains (CapabilitySet.with_derivable (required request)) ReceiptOutcome
    | _ => CapabilitySet.contains (required request) capability
    end).

Definition header_only_request (request : DataRequest) : bool :=
  bool_decide (required request = CapabilitySet.of_cap Capability.Header).

Definition header_and_body_only_request (request : DataRequest) : bool :=
  bool_decide (required request = CapabilitySet.with_cap (CapabilitySet.of_cap Capability.Header) Body).

Definition history_body_only_request (request : DataRequest) : bool :=
  let body_groups := CapabilitySet.with_cap TRANSACTION_GROUPS BlockSize in
  let required := CapabilitySet.with_derivable (required request) in
  negb (CapabilitySet.intersection required body_groups =? CapabilitySet.NONE)
  && CapabilitySet.contains_all
       (CapabilitySet.with_cap (CapabilitySet.with_cap body_groups Capability.Header) Transactions) required.

(** The material a filtered-log request must not ask for. *)
Definition beyond_logs : list Capability :=
  [Body; Transactions; Calldata; Receipts; Withdrawals; BlobSidecars; Traces; StateDiffs; Mempool; Senders;
   BlobFields; ReceiptOutcome; BlockSize].

Definition sparse_log_scope (request : DataRequest) : option FilterScope :=
  let log_only :=
    CapabilitySet.contains (required request) Logs
    && negb (existsb (CapabilitySet.contains (required request)) beyond_logs) in
  if log_only
     && is_some_and (filter_scope request) (λ scope,
          FilterScope.constrains_logs scope && negb (FilterScope.constrains_transactions scope))
  then Some (filter_scope_of (filters request)) else None.

Definition with_hashes (request : DataRequest) : bool :=
  LogFieldSet.contains (request_log_fields request) LogTransactionHash.

Definition source_log_matches (scope : FilterScope) (log : AlloyLog) : bool :=
  FilterScope.matches_log scope (alloy_log_address log) (bytes_of <$> alloy_log_topics log).

Definition normalized_material {A} (value : A) (requested filtered : bool) (scope : option FilterScope) : Material A :=
  if negb requested then Missing NotRequested
  else if filtered then Filtered value (default scope_default scope) VerifiedPredicate
  else Complete value.

(** The frames so far and their bytes, with one frame more. *)
Definition push_normalized_frame (y : Layout) (budget : SourceBudget) (output : list BlockFrame * Z) (frame : BlockFrame)
    : result P2pError (list BlockFrame * Z) :=
  let frame_bytes := estimated_heap_bytes y frame in
  if max_frame_bytes budget <? frame_bytes
  then Err (SourceFailure "frame_bytes" (max_frame_bytes budget) frame_bytes)
  else
    let total_bytes := sat_add output.2 frame_bytes in
    if max_input_bytes budget <? total_bytes
    then Err (SourceFailure "input_bytes" (max_input_bytes budget) total_bytes)
    else if max_resident_bytes budget <? total_bytes
    then Err (SourceFailure "resident_bytes" (max_resident_bytes budget) total_bytes)
    else Ok (output.1 ++ [frame], total_bytes).

Section verified.
Context `{WireRoots}.

(** ** Validation *)

Definition invalid (text : string) (header : Header) : P2pError :=
  InvalidResponse (text +:+ " at block " +:+ pretty (header_number header)).

Definition op_stack_withdrawals_commitment (header : Header) (body : BlockBody) : bool :=
  negb (is_none (alloy_withdrawals_root header))
  && is_some_and (body_withdrawals body) (λ withdrawals, bool_decide (length withdrawals = 0%nat))
  && is_some_and (head (body_transactions body)) is_op_stack.

Definition validate_body (header : Header) (body : BlockBody) : result P2pError unit :=
  if negb (bool_decide (calculate_transaction_root (body_transactions body) = alloy_transactions_root header))
  then Err (invalid "transaction root mismatch" header)
  else if negb (bool_decide (calculate_ommers_root body = alloy_ommers_hash header))
  then Err (invalid "ommers root mismatch" header)
  else if negb (bool_decide (calculate_withdrawals_root body = alloy_withdrawals_root header))
          && negb (op_stack_withdrawals_commitment header body)
  then Err (invalid "withdrawals root mismatch" header)
  else Ok tt.

(** A check of every pair of a header and what belongs to it. *)
Definition check_all {A} (check : A → result P2pError unit) (items : list A) : result P2pError unit :=
  fold_result (λ _ item, check item) tt items.

Definition validate_bodies (headers : list Header) (bodies : list BlockBody) : result P2pError unit :=
  if negb (length bodies =? length headers)%nat
  then Err (IncompleteResponse "bodies" (Z.of_nat (length bodies)) (Z.of_nat (length headers)))
  else check_all (λ item, validate_body item.1 item.2) (zip headers bodies).

Definition validate_body_receipts (header : Header) (body : BlockBody) (receipts : list WireReceipt)
    : result P2pError unit :=
  if negb (length receipts =? length (body_transactions body))%nat
  then Err (invalid ("receipt count " +:+ pretty (length receipts) +:+ " differs from transaction count "
                     +:+ pretty (length (body_transactions body))) header)
  else if forallb (λ item, tx_ty item.1 =? receipt_ty item.2) (zip (body_transactions body) receipts)
  then Ok tt else Err (invalid "transaction/receipt type mismatch" header).

(** The root of an op-stack block between Regolith and Canyon. *)
Definition regolith_receipts_root (receipts : list WireReceipt) : option BlockHash :=
  if existsb (λ receipt, is_some_and (deposit_fields receipt) (λ fields, negb (is_none fields.1))) receipts
  then Some (calculate_receipt_root (without_deposit_nonce <$> receipts)) else None.

Definition gas_step (header : Header) (previous_gas : Z) (receipt : WireReceipt) : result P2pError Z :=
  if cumulative_gas_of receipt <? previous_gas then Err (invalid "receipt cumulative gas regressed" header)
  else Ok (cumulative_gas_of receipt).

(** The receipts hash to the header's root. *)
Definition commits (header : Header) (receipts : list WireReceipt) : bool :=
  bool_decide (calculate_receipt_root receipts = alloy_receipts_root header)
  || bool_decide (regolith_receipts_root receipts = Some (alloy_receipts_root header)).

Definition validate_block_receipts (header : Header) (receipts : list WireReceipt) : result P2pError unit :=
  if negb (commits header receipts) then Err (invalid "receipt root mismatch" header)
  else if negb (bool_decide (fold_left (λ total receipt, bloom_or total (bloom_of receipt)) receipts bloom_zero
                             = alloy_logs_bloom header))
  then Err (invalid "logs bloom mismatch" header)
  else
    previous_gas ← fold_result (gas_step header) 0 receipts;
    if is_none (alloy_block_access_list_hash header) && negb (previous_gas =? alloy_gas_used header)
    then Err (invalid ("final cumulative gas " +:+ pretty previous_gas +:+ " differs from header gas "
                       +:+ pretty (alloy_gas_used header)) header)
    else Ok tt.

Definition validate_receipts_against_headers (headers : list Header) (receipts : list (list WireReceipt))
    : result P2pError unit :=
  if negb (length receipts =? length headers)%nat
  then Err (IncompleteResponse "receipts" (Z.of_nat (length receipts)) (Z.of_nat (length headers)))
  else check_all (λ item, validate_block_receipts item.1 item.2) (zip headers receipts).

Definition validate_receipts (headers : list Header) (bodies : list BlockBody) (receipts : list (list WireReceipt))
    : result P2pError unit :=
  _ ← validate_receipts_against_headers headers receipts;
  if negb (length bodies =? length headers)%nat
  then Err (IncompleteResponse "bodies" (Z.of_nat (length bodies)) (Z.of_nat (length headers)))
  else check_all (λ item, validate_body_receipts item.1.1 item.1.2 item.2) (zip (zip headers bodies) receipts).

Definition has_receipts (header : Header) : bool := negb (bool_decide (alloy_receipts_root header = EMPTY_ROOT_HASH)).

Fixpoint with_known_empty_receipts (headers : list Header) (fetched : list (list WireReceipt)) : list (list WireReceipt) :=
  match headers with
  | [] => fetched
  | header :: headers =>
      if negb (has_receipts header) then [] :: with_known_empty_receipts headers fetched
      else
        match fetched with
        | block :: fetched => block :: with_known_empty_receipts headers fetched
        | [] => []
        end
  end.

Definition header_bloom_matches (scope : FilterScope) (header : Header) : bool :=
  (bool_decide (addresses scope = [])
   || existsb (λ candidate, contains_input (alloy_logs_bloom header) (bytes_of candidate)) (addresses scope))
  && forallb (λ filter,
       bool_decide (alternatives filter ≠ [])
       && existsb (λ candidate, contains_input (alloy_logs_bloom header) (bytes_of candidate)) (alternatives filter))
       (topics scope).

(** ** Normalization

    [show] is the [{:#x}] text of a hash. *)
Section normalize.
Context (show : BlockHash → string) (chain_id : ChainId) (observed_at_unix_ms : Z).

Definition envelope (header : Header) (rlp : option (list byte)) (size_bytes transaction_count : option Z) : HeaderEnvelope :=
  MkHeader rlp (Some (alloy_transactions_root header)) (Some (alloy_receipts_root header))
    (alloy_withdrawals_root header) (Some (alloy_gas_limit header)) (Some (alloy_gas_used header))
    (quantity <$> alloy_base_fee_per_gas header) (alloy_blob_gas_used header) (alloy_excess_blob_gas header)
    size_bytes transaction_count None.

(** A frame's one entry of provenance, and its report. *)
Definition provenance_of (header : Header) (source_id : SourceId) (schema : string) (projection : list string) : Provenance :=
  MkProvenance source_id ExecutionP2p ProtocolVerified (Some (BlockRange.single (header_number header)))
    (Some (MkObjectIdentity ("devp2p://mainnet/block/" +:+ show (hash_slow header))
       (Some ("reth/" +:+ RETH_VERSION +:+ "@" +:+ RETH_REVISION)) (Some (hash_slow header)) (Some schema)))
    observed_at_unix_ms projection.

Definition report (transactions_root receipts_root withdrawals_root : VerificationCheck) : VerificationReport :=
  MkVerification VerificationCheck.VERIFIED VerificationCheck.VERIFIED transactions_root receipts_root withdrawals_root
    VerificationCheck.NOT_CHECKED None.

Definition p2p_source_id : result P2pError SourceId := map_err InvalidConfig (SourceId.new "reth-p2p-mainnet").

Definition normalize_header (source_id : SourceId) (header : Header) : BlockFrame :=
  MkFrame chain_id (header_block_ref header) Attested
    (Complete (envelope header (Some (rlp_encode header)) None None))
    (Missing NotRequested) (Missing NotRequested) (Missing NotRequested) (Missing NotRequested)
    (Missing NotRequested) (Missing Unsupported) (Missing Unsupported)
    [provenance_of header source_id "eth/68-70/header" ["header"]]
    (report VerificationCheck.NOT_CHECKED VerificationCheck.NOT_CHECKED VerificationCheck.NOT_CHECKED).

(** The frames of a list, pushed one by one. *)
Definition push_all {A} (y : Layout) (budget : SourceBudget) (frame_of : A → result P2pError BlockFrame) (items : list A)
    : result P2pError (list BlockFrame) :=
  output ← fold_result (λ output item, frame ← frame_of item; push_normalized_frame y budget output frame) ([], 0) items;
  Ok output.1.

Definition normalize_verified_headers (y : Layout) (headers : list Header) (budget : SourceBudget)
    : result P2pError (list BlockFrame) :=
  push_all y budget (λ header, source_id ← p2p_source_id; Ok (normalize_header source_id header)) headers.

(** The envelope of a transaction. *)
Definition transaction_envelope (index : Z) (from : option Address) (tx : WireTx) : TransactionEnvelope :=
  MkTransaction (tx_hash_ref tx) (tx_ty tx) index (Some (tx_encoded_2718 tx)) from (tx_recipient tx)
    (Some (tx_nonce_of tx)) (Some (tx_gas_limit_of tx)) (Some (quantity (tx_value_of tx))) (Some (tx_input_of tx))
    (Some (quantity (tx_max_fee_per_gas tx))) (quantity <$> tx_max_priority_fee_per_gas tx)
    (quantity <$> tx_max_fee_per_blob_gas tx) (default [] (tx_blob_hashes tx))
    (Some (saturate_u32 (length (tx_encoded_2718 tx)))).

(** [u32::try_from(index)]. *)
Definition index_u32 (text : string) (index : nat) : result P2pError Z :=
  if Z.of_nat index <=? u32_max then Ok (Z.of_nat index) else Err (InvalidResponse text).

Definition normalize_body_transactions (body : BlockBody) : result P2pError (list TransactionEnvelope) :=
  fold_result (λ output item,
    index ← index_u32 "transaction index overflows u32 in verified body" item.1;
    Ok (output ++ [transaction_envelope index None item.2])) [] (imap pair (body_transactions body)).

Definition normalize_body (header : Header) (body : BlockBody) : result P2pError BlockFrame :=
  transactions ← normalize_body_transactions body;
  source_id ← p2p_source_id;
  Ok (MkFrame chain_id (header_block_ref header) Attested
    (Complete (envelope header (Some (rlp_encode header)) (Some (saturate_u64 (block_rlp_length header body)))
       (Some (saturate_u32 (length (body_transactions body))))))
    (Complete transactions) (Missing NotRequested) (Missing NotRequested) (Missing NotRequested)
    (Missing NotRequested) (Missing Unsupported) (Missing Unsupported)
    [provenance_of header source_id "eth/68-70/header+body" ["header"; "body"]]
    (report VerificationCheck.VERIFIED VerificationCheck.NOT_CHECKED VerificationCheck.VERIFIED)).

Definition normalize_verified_bodies (y : Layout) (headers : list Header) (bodies : list BlockBody) (budget : SourceBudget)
    : result P2pError (list BlockFrame) :=
  _ ← validate_bodies headers bodies;
  push_all y budget (λ item, normalize_body item.1 item.2) (zip headers bodies).

(** *** One verified block *)

Section block.
Context (header : Header) (request : option DataRequest).

Definition scope_of : option FilterScope := request ≫= filter_scope.
Definition number_of : BlockNumber := header_number header.
Definition senders_requested : bool :=
  is_none_or request (λ request, CapabilitySet.contains (CapabilitySet.with_derivable (required request)) Senders).
Definition hashes_requested : bool := is_none_or request with_hashes.
Definition transaction_filtered : bool :=
  is_some_and scope_of (λ scope,
    negb (FilterScope.matches_block scope number_of) || FilterScope.constrains_transactions scope).
Definition logs_filtered : bool := transaction_filtered || is_some_and scope_of FilterScope.constrains_logs.

Definition preliminary_match (tx : WireTx) : bool :=
  is_none_or scope_of (λ scope,
    FilterScope.matches_block scope number_of
    && FilterScope.matches_transaction scope (tx_ty tx) (tx_recipient tx) (λ _, tx_hash_ref tx)).

(** The sender, recovered where it is read. *)
Definition sender_of (tx : WireTx) : result P2pError (option Address) :=
  if preliminary_match tx
     && (senders_requested || is_some_and scope_of (λ scope, negb (bool_decide (senders scope = []))))
  then
    sender ← map_err (λ error, InvalidResponse ("cannot recover sender for " +:+ show (tx_hash_ref tx) +:+ ": " +:+ error))
      (tx_recover_signer tx);
    Ok (Some sender)
  else Ok None.

Definition transaction_matches (tx : WireTx) (sender : option Address) : bool :=
  preliminary_match tx && is_none_or scope_of (λ scope, FilterScope.matches_sender scope sender).

Definition log_of (hash : option TransactionHash) (transaction_index log_index : Z) (log : AlloyLog) : Log :=
  MkLog (alloy_log_address log) (alloy_log_topics log) (alloy_log_data log) hash transaction_index log_index.

Definition next_log_index (index : Z) : result P2pError Z :=
  if index <? u32_max then Ok (index + 1) else Err (InvalidResponse "log index overflows u32").

(** One log of a transaction; the state is the receipt's logs, the block's
    and the next index. *)
Definition log_step (hash : TransactionHash) (transaction_index : Z) (matched : bool)
    (state : list Log * list Log * Z) (source_log : AlloyLog) : result P2pError (list Log * list Log * Z) :=
  let '(receipt_logs, logs, index) := state in
  let selected_for_receipt := requested_material request Receipts && matched in
  let selected_for_logs :=
    requested_material request Logs && matched && is_none_or scope_of (λ scope, source_log_matches scope source_log) in
  let log := log_of (if hashes_requested then Some hash else None) transaction_index index source_log in
  next ← next_log_index index;
  Ok (if selected_for_receipt then receipt_logs ++ [log] else receipt_logs,
      if selected_for_logs then logs ++ [log] else logs, next).

Record BlockState := MkBlockState {
  st_transactions : list TransactionEnvelope;
  st_receipts : list ReceiptEnvelope;
  st_logs : list Log;
  st_previous_gas : Z;
  st_log_index : Z;
}.

Definition receipt_envelope (tx : WireTx) (receipt : WireReceipt) (transaction_index gas_used : Z) (logs : list Log)
    : ReceiptEnvelope :=
  MkReceipt (tx_hash_ref tx) (receipt_ty receipt) transaction_index (Some (encode_with_bloom receipt))
    (Some (status_of receipt)) (Some gas_used)
    (Some (quantity (tx_effective_gas_price tx (alloy_base_fee_per_gas header)))) (blob_gas_used_of tx) None logs.

(** One transaction with its receipt, if receipts were fetched. *)
Definition transaction_step (state : BlockState) (item : nat * (WireTx * option WireReceipt)) : result P2pError BlockState :=
  let '(index, (tx, receipt)) := item in
  transaction_index ← index_u32 "transaction index overflows u32" index;
  let gas_used := map_or 0 (λ receipt, sat_sub (cumulative_gas_of receipt) (st_previous_gas state)) receipt in
  let previous_gas := map_or (st_previous_gas state) cumulative_gas_of receipt in
  sender ← sender_of tx;
  let matched := transaction_matches tx sender in
  '(receipt_logs, logs, log_index) ←
    fold_result (log_step (tx_hash_ref tx) transaction_index matched) ([], st_logs state, st_log_index state)
      (map_or [] logs_of receipt);
  let transactions :=
    if requested_material request Transactions && matched
    then st_transactions state ++ [transaction_envelope transaction_index sender tx] else st_transactions state in
  let receipts :=
    match receipt with
    | Some receipt =>
        if requested_material request Receipts && matched
        then st_receipts state ++ [receipt_envelope tx receipt transaction_index gas_used receipt_logs]
        else st_receipts state
    | None => st_receipts state
    end in
  Ok (MkBlockState transactions receipts logs previous_gas log_index).

(** The transactions with their receipts, as many as there are of both. *)
Definition paired (body : BlockBody) (receipts : option (list WireReceipt)) : list (WireTx * option WireReceipt) :=
  match receipts with
  | Some receipts => zip (body_transactions body) (Some <$> receipts)
  | None => (λ tx, (tx, None)) <$> body_transactions body
  end.

Definition withdrawal_of (w : AlloyWithdrawal) : Withdrawal :=
  MkWithdrawal (alloy_withdrawal_index w) (alloy_validator_index w) (alloy_withdrawal_address w) (alloy_withdrawal_amount w).

Definition projection_of : list string :=
  match request with
  | None => ["header"; "body"; "receipts"]
  | Some request => capability_name <$> CapabilitySet.iter (required request)
  end.

Definition normalize_block (body : BlockBody) (receipts : option (list WireReceipt)) : result P2pError BlockFrame :=
  let header_requested := requested_material request Capability.Header in
  state ← fold_result transaction_step (MkBlockState [] [] [] 0 0) (imap pair (paired body receipts));
  source_id ← p2p_source_id;
  let checked := if is_none receipts then VerificationCheck.NOT_CHECKED else VerificationCheck.VERIFIED in
  Ok (MkFrame chain_id (header_block_ref header) Attested
    (if header_requested
     then Complete (envelope header (Some (rlp_encode header)) (Some (saturate_u64 (block_rlp_length header body)))
                      (Some (saturate_u32 (length (body_transactions body)))))
     else Missing NotRequested)
    (normalized_material (st_transactions state) (requested_material request Transactions) transaction_filtered scope_of)
    (normalized_material (st_receipts state) (requested_material request Receipts) transaction_filtered scope_of)
    (normalized_material (st_logs state) (requested_material request Logs) logs_filtered scope_of)
    (normalized_material
       (if requested_material request Withdrawals then withdrawal_of <$> default [] (body_withdrawals body) else [])
       (requested_material request Withdrawals) false None)
    (Missing NotRequested) (Missing Unsupported) (Missing Unsupported)
    [provenance_of header source_id (if is_none receipts then "eth/68-70/header+body" else "eth/68-70") projection_of]
    (report VerificationCheck.VERIFIED checked VerificationCheck.VERIFIED)).
End block.

Definition normalize_verified (y : Layout) (headers : list Header) (bodies : list BlockBody)
    (receipts : list (list WireReceipt)) (budget : SourceBudget) : result P2pError (list BlockFrame) :=
  push_all y budget (λ item, normalize_block item.1.1 None item.1.2 (Some item.2)) (zip (zip headers bodies) receipts).

Definition normalize_verified_for_request (y : Layout) (headers : list Header) (bodies : list BlockBody)
    (receipts : list (list WireReceipt)) (request : DataRequest) (budget : SourceBudget) : result P2pError (list BlockFrame) :=
  push_all y budget (λ item, normalize_block item.1.1 (Some request) item.1.2 (Some item.2))
    (zip (zip headers bodies) receipts).

Definition normalize_history_bodies (y : Layout) (headers : list Header) (bodies : list BlockBody) (request : DataRequest)
    (budget : SourceBudget) : result P2pError (list BlockFrame) :=
  _ ← validate_bodies headers bodies;
  push_all y budget (λ item, normalize_block item.1 (Some request) item.2 None) (zip headers bodies).

(** *** Sparse logs *)

Definition ineligible : P2pError := InvalidConfig "request is not eligible for sparse log acquisition".

Definition normalize_sparse_log_block (header : Header) (request : DataRequest) (receipts_verified : bool) (logs : list Log)
    : result P2pError BlockFrame :=
  match sparse_log_scope request with
  | None => Err ineligible
  | Some scope =>
      source_id ← p2p_source_id;
      Ok (MkFrame chain_id (header_block_ref header) Attested
        (if requested_material (Some request) Capability.Header
         then Complete (envelope header (Some (rlp_encode header)) None None) else Missing NotRequested)
        (Missing NotRequested) (Missing NotRequested) (Filtered logs scope VerifiedPredicate) (Missing NotRequested)
        (Missing NotRequested) (Missing Unsupported) (Missing Unsupported)
        [provenance_of header source_id
           (if receipts_verified then "eth/68-70/logs:receipt-filtered" else "eth/68-70/logs:bloom-negative") ["logs"]]
        (report VerificationCheck.NOT_CHECKED
           (if receipts_verified then VerificationCheck.VERIFIED else VerificationCheck.NOT_CHECKED)
           VerificationCheck.NOT_CHECKED))
  end.

Definition normalize_sparse_empty_log_block (header : Header) (request : DataRequest) (receipts_verified : bool)
    : result P2pError BlockFrame := normalize_sparse_log_block header request receipts_verified [].

(** One log, and one receipt; the state is the logs and the next index. *)
Definition sparse_log_step (scope : FilterScope) (in_range : bool) (transaction_index : Z) (state : list Log * Z)
    (source_log : AlloyLog) : result P2pError (list Log * Z) :=
  let '(logs, index) := state in
  next ← next_log_index index;
  Ok (if in_range && source_log_matches scope source_log
      then logs ++ [log_of None transaction_index index source_log] else logs, next).

Definition sparse_receipt_step (scope : FilterScope) (in_range : bool) (state : list Log * Z) (item : nat * WireReceipt)
    : result P2pError (list Log * Z) :=
  transaction_index ← index_u32 "transaction index overflows u32" item.1;
  fold_result (sparse_log_step scope in_range transaction_index) state (logs_of item.2).

Definition normalize_sparse_receipt_log_block (header : Header) (receipts : list WireReceipt) (request : DataRequest)
    : result P2pError BlockFrame :=
  match sparse_log_scope request with
  | None => Err ineligible
  | Some scope =>
      if with_hashes request
      then Err (InvalidConfig "receipt-only log normalization cannot supply transaction hashes")
      else
        state ← fold_result (sparse_receipt_step scope (FilterScope.matches_block scope (header_number header))) ([], 0)
          (imap pair receipts);
        normalize_sparse_log_block header request true state.1
  end.

(** The vector that holds, at each of [indices], its position among them. *)
Definition positions (size : nat) (indices : list nat) : list (option nat) :=
  fold_left (λ v item, <[item.2 := Some item.1]> v) (imap pair indices) (replicate size None).

(** An index past the end panics. *)
Definition index_into {A} (items : list A) (i : nat) : result P2pError A :=
  match items !! i with Some item => Ok item | None => Err out_of_bounds end.

Section sparse.
Context (y : Layout) (request : DataRequest) (budget : SourceBudget).

Definition sparse_frame (positive_receipts : list (list WireReceipt)) (matching_bodies : list BlockBody)
    (header : Header) (positive_position : option nat) (exact_position : option (nat * nat)) : result P2pError BlockFrame :=
  match exact_position with
  | Some (position, body_position) =>
      receipts ← index_into positive_receipts position;
      if with_hashes request then
        body ← index_into matching_bodies body_position;
        normalize_block header (Some request) body (Some receipts)
      else normalize_sparse_receipt_log_block header receipts request
  | None => normalize_sparse_empty_log_block header request (negb (is_none positive_position))
  end.

Definition normalize_sparse_log_frames (headers : list Header) (bloom_positive_indices : list nat)
    (positive_receipts : list (list WireReceipt)) (exact_match_positions : list nat) (matching_bodies : list BlockBody)
    : result P2pError (list BlockFrame) :=
  let positive_position_by_index := positions (length headers) bloom_positive_indices in
  let body_position_by_positive := positions (length positive_receipts) exact_match_positions in
  push_all y budget (λ item,
    let positive_position := mjoin (positive_position_by_index !! item.1) in
    let exact_position :=
      position ← positive_position;
      body_position ← mjoin (body_position_by_positive !! position);
      Some (position, body_position) in
    sparse_frame positive_receipts matching_bodies item.2 positive_position exact_position) (imap pair headers).

(** The indices of the items that pass. *)
Definition indices_of {A} (f : A → bool) (items : list A) : list nat :=
  fst <$> List.filter (λ item, f item.2) (imap pair items).

(** [indices.iter().map(|index| items[*index].clone())]. *)
Definition pick {A} (items : list A) (indices : list nat) : list A := omap (λ index, items !! index) indices.

Definition exact_matches (scope : FilterScope) (positive_receipts : list (list WireReceipt)) : list nat :=
  indices_of (λ receipts, existsb (source_log_matches scope) (receipts ≫= logs_of)) positive_receipts.

(** What the peers serve: the receipts of blocks that have some, and the
    bodies of blocks, in order, for one request. *)
Context (material_request_blocks : nat).
Context (peers_receipts : bool → list Header → result P2pError (list (list WireReceipt))).
Context (peers_bodies : bool → list Header → result P2pError (list BlockBody)).

Definition fetch_direct_receipts_batched (headers : list Header) : result P2pError (list (list WireReceipt)) :=
  fetched ← fetch_batched material_request_blocks peers_receipts (List.filter has_receipts headers);
  let receipts := with_known_empty_receipts headers fetched in
  _ ← validate_receipts_against_headers headers receipts;
  Ok receipts.

Definition fetch_bodies_batched (headers : list Header) : result P2pError (list BlockBody) :=
  bodies ← fetch_batched material_request_blocks peers_bodies headers;
  _ ← validate_bodies headers bodies;
  Ok bodies.

Definition fetch_sparse_log_bodies (positive_headers : list Header) (positive_receipts : list (list WireReceipt))
    (exact_match_positions : list nat) : result P2pError (list BlockBody) :=
  if bool_decide (exact_match_positions = []) || negb (with_hashes request) then Ok []
  else
    bodies ← fetch_bodies_batched (pick positive_headers exact_match_positions);
    _ ← check_all (λ item,
          header ← index_into positive_headers item.2;
          receipts ← index_into positive_receipts item.2;
          validate_body_receipts header item.1 receipts) (zip bodies exact_match_positions);
    Ok bodies.

Definition fetch_sparse_log_frames_once (headers : list Header) : result P2pError (list BlockFrame) :=
  match sparse_log_scope request with
  | None => Err ineligible
  | Some scope =>
      let bloom_positive_indices := indices_of (header_bloom_matches scope) headers in
      let positive_headers := pick headers bloom_positive_indices in
      positive_receipts ← (if bool_decide (length positive_headers = 0%nat) then Ok []
                           else fetch_direct_receipts_batched positive_headers);
      let exact_match_positions := exact_matches scope positive_receipts in
      matching_bodies ← fetch_sparse_log_bodies positive_headers positive_receipts exact_match_positions;
      normalize_sparse_log_frames headers bloom_positive_indices positive_receipts exact_match_positions matching_bodies
  end.

(** The live lane's, whose receipts other lanes may have fetched; bodies are
    never needed. *)
Definition fetch_sparse_live_frames (live_receipts : list Header → result P2pError (list (list WireReceipt)))
    (headers : list Header) : result P2pError (list BlockFrame) :=
  match sparse_log_scope request with
  | None => Err (InvalidConfig "live request is not eligible for sparse logs")
  | Some scope =>
      let bloom_positive_indices := indices_of (header_bloom_matches scope) headers in
      let positive_headers := pick headers bloom_positive_indices in
      positive_receipts ← (if bool_decide (length positive_headers = 0%nat) then Ok [] else live_receipts positive_headers);
      let exact_match_positions := exact_matches scope positive_receipts in
      normalize_sparse_log_frames headers bloom_positive_indices positive_receipts exact_match_positions []
  end.
End sparse.

(** ** What a normalized block is *)

Section reference.
Context (header : Header) (request : option DataRequest).

(** The items of a list, numbered. *)
Definition number {A} (k : Z) (items : list A) : list (Z * A) := imap (λ i x, (k + Z.of_nat i, x)) items.

Definition signer (tx : WireTx) : option Address :=
  match tx_recover_signer tx with Ok sender => Some sender | Err _ => None end.

(** A log with its transaction, as a filter sees it. *)
Definition item_of (tx : WireTx) (log : AlloyLog) : Item :=
  MkItem (header_number header) (tx_ty tx) (tx_recipient tx) (tx_hash_ref tx) (signer tx) (alloy_log_address log)
    (bytes_of <$> alloy_log_topics log).

Definition selects_tx (tx : WireTx) : bool :=
  is_none_or (scope_of request) (λ scope,
    FilterScope.matches_block scope (header_number header)
    && FilterScope.matches_transaction scope (tx_ty tx) (tx_recipient tx) (λ _, tx_hash_ref tx)
    && FilterScope.matches_sender scope (signer tx)).

Definition selects_log (tx : WireTx) (log : AlloyLog) : bool :=
  is_none_or (scope_of request) (λ scope, matches scope (item_of tx log)).

(** The logs of transactions, each with its transaction and its index. *)
Definition log_rows (items : list (Z * (WireTx * option WireReceipt))) : list (Z * WireTx * AlloyLog) :=
  items ≫= λ item, (λ log, (item.1, item.2.1, log)) <$> map_or [] logs_of item.2.2.

Definition normal_log (row : Z * (Z * WireTx * AlloyLog)) : Log :=
  let '(log_index, (transaction_index, tx, log)) := row in
  log_of (if hashes_requested request then Some (tx_hash_ref tx) else None) transaction_index log_index log.

(** The block's logs that the request's filter selects, each with its
    position among all of the block's logs. *)
Definition selected_logs (body : BlockBody) (receipts : option (list WireReceipt)) : list Log :=
  normal_log <$> List.filter (λ row, selects_log row.2.1.2 row.2.2) (number 0 (log_rows (number 0 (paired body receipts)))).

Lemma number_cons {A} k (x : A) xs : number k (x :: xs) = (k, x) :: number (k + 1) xs.
Proof.
  unfold number. cbn [imap]. f_equal; [f_equal; lia|]. apply imap_ext. intros i y _. cbn. f_equal. lia.
Qed.

Lemma number_app {A} k (xs ys : list A) : number k (xs ++ ys) = number k xs ++ number (k + Z.of_nat (length xs)) ys.
Proof.
  revert k. induction xs as [|x xs IH]; intros k; [cbn; by rewrite Z.add_0_r|].
  cbn [app]. rewrite !number_cons, IH. cbn [app length]. do 2 f_equal. f_equal. lia.
Qed.

Lemma log_rows_cons item items :
  log_rows (item :: items) = ((λ log, (item.1, item.2.1, log)) <$> map_or [] logs_of item.2.2) ++ log_rows items.
Proof. done. Qed.

(** The logs of one transaction. *)
Lemma log_steps hash ti matched logs rl ls n rl' ls' n' :
  fold_result (log_step request hash ti matched) (rl, ls, n) logs = Ok (rl', ls', n') →
  let to_log := λ row : Z * AlloyLog, log_of (if hashes_requested request then Some hash else None) ti row.1 row.2 in
  n' = n + Z.of_nat (length logs)
  ∧ rl' = rl ++ (if requested_material request Receipts && matched then to_log <$> number n logs else [])
  ∧ ls' = ls ++ (if requested_material request Logs && matched
                 then to_log <$> List.filter (λ row, is_none_or (scope_of request) (λ scope, source_log_matches scope row.2))
                        (number n logs) else []).
Proof.
  cbv zeta. revert rl ls n. induction logs as [|log logs IH]; intros rl ls n; cbn [fold_result].
  { intros [= -> -> ->]. cbn. split; [lia|]. by split; case_match; rewrite app_nil_r. }
  rewrite result_bind_Ok. intros ([[rl1 ls1] n1] & Hstep & Hrest). unfold log_step in Hstep.
  apply result_bind_Ok in Hstep as (next & Hnext & Hstep).
  assert (next = n + 1) as -> by (unfold next_log_index in Hnext; destruct (n <? u32_max); [by injection Hnext|done]).
  injection Hstep as <- <- <-. apply IH in Hrest as (-> & -> & ->). rewrite number_cons. cbn [length fmap list_fmap List.filter].
  split; [lia|]. split.
  - by destruct (_ && matched); [rewrite <-app_assoc|].
  - destruct (requested_material request Logs && matched); cbn [andb]; [|done].
    cbn [snd]. destruct (is_none_or _ _); [by rewrite <-app_assoc|done].
Qed.
Definition needs_sender : bool :=
  senders_requested request || is_some_and (scope_of request) (λ scope, negb (bool_decide (senders scope = []))).

(** The sender a row carries. *)
Definition row_sender (tx : WireTx) : option Address := if needs_sender then signer tx else None.

Lemma sender_of_selects tx sender :
  sender_of header request tx = Ok sender →
  transaction_matches header request tx sender = selects_tx tx ∧ (selects_tx tx = true → sender = row_sender tx).
Proof.
  unfold sender_of, transaction_matches, selects_tx, row_sender, signer.
  change (senders_requested request || _) with needs_sender.
  destruct (preliminary_match header request tx) eqn:Hp; cbn [andb]; unfold preliminary_match, number_of in Hp.
  - unfold needs_sender. destruct (scope_of request) as [scope|]; cbn [is_none_or is_some_and] in *.
    + rewrite Hp. cbn [andb]. destruct (senders_requested request || _) eqn:Hneed.
      * rewrite result_bind_Ok. intros (a & Ha & [= <-]). by destruct (tx_recover_signer tx); [injection Ha as ->|].
      * intros [= <-]. split; [|done]. apply orb_false_iff in Hneed as [_ Hs%negb_false_iff].
        apply bool_decide_eq_true in Hs. unfold FilterScope.matches_sender. by rewrite Hs.
    + destruct (senders_requested request || false); [|by intros [= <-]].
      rewrite result_bind_Ok. intros (a & Ha & [= <-]). by destruct (tx_recover_signer tx); [injection Ha as ->|].
  - intros [= <-]. destruct (scope_of request) as [scope|]; cbn [is_none_or] in *; [|done]. by rewrite Hp.
Qed.

Lemma selects_log_split tx log :
  selects_log tx log = selects_tx tx && is_none_or (scope_of request) (λ scope, source_log_matches scope log).
Proof. unfold selects_log, selects_tx. by destruct (scope_of request). Qed.

(** The receipts of the selected transactions: [n] is the index of the next
    log, [gas] the cumulative gas before. *)
Fixpoint selected_receipts (k n gas : Z) (items : list (WireTx * option WireReceipt)) : list ReceiptEnvelope :=
  match items with
  | [] => []
  | (tx, None) :: items => selected_receipts (k + 1) n gas items
  | (tx, Some receipt) :: items =>
      (if selects_tx tx then
         [receipt_envelope header tx receipt k (sat_sub (cumulative_gas_of receipt) gas)
            (normal_log <$> number n ((λ log, (k, tx, log)) <$> logs_of receipt))]
       else [])
      ++ selected_receipts (k + 1) (n + Z.of_nat (length (logs_of receipt))) (cumulative_gas_of receipt) items
  end.

Lemma normal_logs n k tx logs :
  normal_log <$> number n ((λ log, (k, tx, log)) <$> logs)
  = (λ row, log_of (if hashes_requested request then Some (tx_hash_ref tx) else None) k row.1 row.2) <$> number n logs.
Proof. revert n. induction logs as [|log logs IH]; intros n; [done|]. cbn [fmap list_fmap]. rewrite !number_cons. cbn. by rewrite IH. Qed.

Lemma normal_filtered_logs n k tx logs :
  normal_log <$> List.filter (λ row, selects_log row.2.1.2 row.2.2) (number n ((λ log, (k, tx, log)) <$> logs))
  = if selects_tx tx
    then (λ row, log_of (if hashes_requested request then Some (tx_hash_ref tx) else None) k row.1 row.2)
           <$> List.filter (λ row, is_none_or (scope_of request) (λ scope, source_log_matches scope row.2)) (number n logs)
    else [].
Proof.
  revert n. induction logs as [|log logs IH]; intros n; [by destruct (selects_tx tx)|].
  cbn [fmap list_fmap]. rewrite !number_cons. cbn [List.filter fst snd]. rewrite selects_log_split.
  specialize (IH (n + 1)). destruct (selects_tx tx); cbn [andb]; [|done].
  destruct (is_none_or _ _); [|done]. cbn. f_equal. exact IH.
Qed.

(** The normalized block, all of its transactions. *)
Lemma transaction_steps items k st st' :
  fold_result (transaction_step header request) st (imap (λ i item, ((k + i)%nat, item)) items) = Ok st' →
  let rows := number (Z.of_nat k) items in
  st_logs st' = st_logs st ++ (if requested_material request Logs
    then normal_log <$> List.filter (λ row, selects_log row.2.1.2 row.2.2) (number (st_log_index st) (log_rows rows)) else [])
  ∧ st_transactions st' = st_transactions st ++ (if requested_material request Transactions
    then (λ row, transaction_envelope row.1 (row_sender row.2.1) row.2.1) <$> List.filter (λ row, selects_tx row.2.1) rows else [])
  ∧ st_receipts st' = st_receipts st ++ (if requested_material request Receipts
    then selected_receipts (Z.of_nat k) (st_log_index st) (st_previous_gas st) items else []).
Proof.
  cbv zeta. revert k st. induction items as [|[tx receipt] items IH]; intros k st.
  { cbn. intros [= ->]. by repeat case_match; rewrite ?app_nil_r. }
  cbn [imap fold_result]. rewrite result_bind_Ok. intros (st1 & Hstep & Hrest).
  assert (imap ((λ i item, ((k + i)%nat, item)) ∘ S) items = imap (λ i item, ((S k + i)%nat, item)) items) as Heq
    by (apply imap_ext; intros; cbn; f_equal; lia).
  rewrite Heq in Hrest. clear Heq. rewrite Nat.add_0_r in Hstep.
  apply IH in Hrest as (-> & -> & ->). replace (Z.of_nat (S k)) with (Z.of_nat k + 1) by lia.
  unfold transaction_step in Hstep. apply result_bind_Ok in Hstep as (ti & Hti & Hstep).
  assert (ti = Z.of_nat k) as -> by (unfold index_u32 in Hti; destruct (_ <=? _); [by injection Hti|done]).
  apply result_bind_Ok in Hstep as (sender & Hsender & Hstep). apply sender_of_selects in Hsender as [Hm Hs].
  apply result_bind_Ok in Hstep as ([[rl ls] n'] & Hlogs & Hstep). injection Hstep as <-.
  apply log_steps in Hlogs as (-> & -> & ->). cbn [st_logs st_transactions st_receipts st_log_index st_previous_gas].
  rewrite Hm, number_cons, log_rows_cons, number_app, length_fmap, List.filter_app, fmap_app. cbn [fst snd].
  rewrite normal_filtered_logs. split_and!.
  - destruct (requested_material request Logs); cbn [andb]; [|by rewrite app_nil_r]. by rewrite <-app_assoc.
  - cbn [List.filter fst snd]. destruct (requested_material request Transactions); cbn [andb]; [|by rewrite app_nil_r].
    destruct (selects_tx tx); [|done]. cbn [fmap list_fmap fst snd]. by rewrite <-app_assoc, Hs.
  - destruct receipt as [receipt|]; cbn [map_or selected_receipts].
    + destruct (requested_material request Receipts); cbn [andb]; [|by rewrite app_nil_r].
      destruct (selects_tx tx); cbn [app]; [|done]. by rewrite <-app_assoc, normal_logs.
    + cbn [length]. by rewrite Z.add_0_r.
Qed.

(** The materials of a normalized block are what the filter selects of it. *)
Lemma normalize_block_Ok body receipts frame :
  normalize_block header request body receipts = Ok frame →
  let rows := number 0 (paired body receipts) in
  frame_logs frame = normalized_material
    (if requested_material request Logs then selected_logs body receipts else [])
    (requested_material request Logs) (logs_filtered header request) (scope_of request)
  ∧ frame_transactions frame = normalized_material
    (if requested_material request Transactions
     then (λ row, transaction_envelope row.1 (row_sender row.2.1) row.2.1) <$> List.filter (λ row, selects_tx row.2.1) rows
     else []) (requested_material request Transactions) (transaction_filtered header request) (scope_of request)
  ∧ frame_receipts frame = normalized_material
    (if requested_material request Receipts then selected_receipts 0 0 0 (paired body receipts) else [])
    (requested_material request Receipts) (transaction_filtered header request) (scope_of request)
  ∧ frame_chain_id frame = chain_id ∧ frame_block frame = header_block_ref header ∧ frame_finality frame = Attested.
Proof.
  cbv zeta. unfold normalize_block. rewrite result_bind_Ok. intros (st & Hst & Hframe).
  apply (transaction_steps _ 0) in Hst as (Hl & Ht & Hr). cbn [st_logs st_transactions st_receipts app] in Hl, Ht, Hr.
  apply result_bind_Ok in Hframe as (id & _ & [= <-]). cbn [frame_logs frame_transactions frame_receipts frame_chain_id frame_block frame_finality].
  by rewrite Hl, Ht, Hr.
Qed.
End reference.

(** ** Indices *)

Section indices.
Context {A : Type} (f : A → bool) (items : list A).

Lemma fst_imap_pair k : fst <$> imap (λ i (x : A), ((k + i)%nat, x)) items = seq k (length items).
Proof.
  revert k. induction items as [|x xs IH]; intros k; [done|]. cbn. rewrite Nat.add_0_r. f_equal.
  rewrite <-(IH (S k)). f_equal. apply imap_ext. intros; cbn; f_equal; lia.
Qed.

Lemma elem_of_imap_pair i x : (i, x) ∈ imap pair items ↔ items !! i = Some x.
Proof. rewrite elem_of_lookup_imap. naive_solver. Qed.

Lemma elem_of_indices_of i : i ∈ indices_of f items ↔ ∃ x, items !! i = Some x ∧ f x = true.
Proof.
  unfold indices_of. rewrite list_elem_of_fmap. setoid_rewrite elem_of_filter_list. split.
  - intros ([j x] & -> & Hin%elem_of_imap_pair & Hf). eauto.
  - intros (x & Hx & Hf). exists (i, x). by rewrite elem_of_imap_pair.
Qed.

Lemma NoDup_indices_of : NoDup (indices_of f items).
Proof.
  apply NoDup_fmap_filter. change (imap pair items) with (imap (λ i (x : A), ((0 + i)%nat, x)) items).
  rewrite fst_imap_pair. apply NoDup_seq.
Qed.

Lemma lookup_pick indices p : (∀ i, i ∈ indices → is_Some (items !! i)) → pick items indices !! p = indices !! p ≫= λ i, items !! i.
Proof. apply (lookup_omap_all (λ i, items !! i)). Qed.

(** An item that passes, at its place among those that do. *)
Lemma indices_of_place i x :
  items !! i = Some x → f x = true →
  ∃ p, indices_of f items !! p = Some i ∧ pick items (indices_of f items) !! p = Some x.
Proof.
  intros Hx Hf. assert (i ∈ indices_of f items) as [p Hp]%list_elem_of_lookup by (apply elem_of_indices_of; eauto).
  exists p. split; [done|]. rewrite lookup_pick, Hp; [done|]. intros j (y & Hy & _)%elem_of_indices_of. by rewrite Hy.
Qed.
End indices.

Lemma positions_fold k indices (v : list (option nat)) i :
  NoDup indices → (∀ j, j ∈ indices → (j < length v)%nat) →
  let w := fold_left (λ v item, <[item.2 := Some item.1]> v) (imap (λ n j, ((k + n)%nat, j)) indices) v in
  length w = length v
  ∧ (i ∉ indices → w !! i = v !! i) ∧ ∀ p, indices !! p = Some i → w !! i = Some (Some (k + p)%nat).
Proof.
  cbv zeta. revert k v. induction indices as [|j indices IH]; intros k v Hnd Hin; [done|].
  apply NoDup_cons in Hnd as [Hj Hnd]. cbn [imap fold_left fst snd]. rewrite Nat.add_0_r.
  assert (imap ((λ n i, ((k + n)%nat, i)) ∘ S) indices = imap (λ n i, ((S k + n)%nat, i)) indices) as ->
    by (apply imap_ext; intros; cbn; f_equal; lia).
  destruct (IH (S k) (<[j := Some k]> v) Hnd) as (Hlen & Hout & Hat).
  { intros x Hx. rewrite length_insert. apply Hin. by right. }
  rewrite length_insert in Hlen. split; [done|]. split.
  - rewrite not_elem_of_cons. intros [Hne Hi]. rewrite Hout by done. by apply list_lookup_insert_ne.
  - intros [|p] Hp; [|rewrite (Hat p Hp); do 2 f_equal; lia]. injection Hp as ->. rewrite Hout by done.
    rewrite list_lookup_insert_eq; [do 2 f_equal; lia|]. apply Hin. by left.
Qed.

Lemma positions_spec size indices i :
  NoDup indices → (∀ j, j ∈ indices → (j < size)%nat) →
  (i ∉ indices → mjoin (positions size indices !! i) = None)
  ∧ ∀ p, indices !! p = Some i → mjoin (positions size indices !! i) = Some p.
Proof.
  intros Hnd Hin. unfold positions. change (imap pair indices) with (imap (λ n j, ((0 + n)%nat, j)) indices).
  destruct (positions_fold 0 indices (replicate size None) i Hnd) as (_ & Hout & Hat); [by rewrite length_replicate|].
  split.
  - intros Hi. rewrite (Hout Hi). destruct (decide (i < size)%nat) as [Hlt|Hge].
    + by rewrite lookup_replicate_2.
    + rewrite lookup_ge_None_2; [done|]. rewrite length_replicate. lia.
  - intros p Hp. by rewrite (Hat p Hp).
Qed.

(** ** Pushed frames and validated lists *)

Lemma check_all_Ok {A} (check : A → result P2pError unit) items :
  check_all check items = Ok tt ↔ ∀ item, item ∈ items → check item = Ok tt.
Proof. apply (fold_result_unit (λ _, check)). Qed.

Lemma push_all_frames {A} y budget (frame_of : A → result P2pError BlockFrame) items frames :
  push_all y budget frame_of items = Ok frames → Forall2 (λ item frame, frame_of item = Ok frame) items frames.
Proof.
  unfold push_all. rewrite result_bind_Ok. intros ([out total] & Hfold & [= <-]). cbn.
  assert (∀ items out0 total0 out total,
    fold_result (λ output item, frame ← frame_of item; push_normalized_frame y budget output frame) (out0, total0) items
      = Ok (out, total) → ∃ new, out = out0 ++ new ∧ Forall2 (λ item frame, frame_of item = Ok frame) items new) as Hgen.
  { clear. intros items. induction items as [|item items IH]; intros out0 total0 out total; cbn [fold_result].
    { intros [= -> ->]. exists []. by rewrite app_nil_r. }
    rewrite result_bind_Ok. intros ([out1 total1] & Hstep & Hrest).
    apply result_bind_Ok in Hstep as (frame & Hframe & Hpush).
    assert (out1 = out0 ++ [frame]) as ->.
    { unfold push_normalized_frame in Hpush. by repeat (destruct (_ <? _) in Hpush; [done|]); injection Hpush as <- _. }
    apply IH in Hrest as (new & -> & Hnew). exists (frame :: new). rewrite <-app_assoc. split; [done|by constructor]. }
  by destruct (Hgen _ _ _ _ _ Hfold) as (new & -> & ?).
Qed.

(** ** Sparse logs are the block's *)

Section sparse_facts.
Context (request : DataRequest) (scope : FilterScope) (Hscope : sparse_log_scope request = Some scope).

(** The request's scope is its whole predicate, and selects logs alone. *)
Lemma sparse_scope :
  filter_scope request = Some scope ∧ FilterScope.constrains_logs scope = true
  ∧ FilterScope.constrains_transactions scope = false ∧ CapabilitySet.contains (required request) Logs = true.
Proof.
  unfold sparse_log_scope in Hscope. destruct (_ && _) eqn:Hall in Hscope; [|done]. injection Hscope as <-.
  apply andb_prop in Hall as [[Hlogs _]%andb_prop Hs]. destruct (filter_scope request) as [eff|] eqn:Hf; [|done].
  cbn in Hs. apply andb_prop in Hs as [Hcl Hct%negb_true_iff].
  assert (eff = filter_scope_of (filters request)) as ->; [|done].
  assert (eff = effective_scope (filters request)) as ->.
  { unfold filter_scope in Hf. destruct (request_allow_filtered request); [|done]. case_bool_decide; [|done]. by injection Hf. }
  unfold FilterScope.constrains_transactions in Hct. rewrite !orb_false_iff, !bool_decide_eq_false in Hct.
  destruct Hct as [[[_ _] Hsenders%dec_stable] Hrecipients%dec_stable]. unfold effective_scope in *.
  destruct (filter_scope_of (filters request)) as [r a t th ty se re]. cbn in *.
  f_equal; [by destruct se|by destruct re].
Qed.

Lemma selects_log_sparse header tx log :
  selects_log header (Some request) tx log
  = FilterScope.matches_block scope (header_number header) && source_log_matches scope log.
Proof.
  destruct sparse_scope as (Hf & _ & Hct & _). unfold selects_log, scope_of. cbn. rewrite Hf. cbn. unfold matches. cbn.
  unfold FilterScope.constrains_transactions in Hct. rewrite !orb_false_iff, !bool_decide_eq_false in Hct.
  destruct Hct as [[[Hty%dec_stable Hh%dec_stable] Hse%dec_stable] Hre%dec_stable].
  unfold FilterScope.matches_transaction, FilterScope.matches_sender, source_log_matches. rewrite Hty, Hh, Hse, Hre.
  cbn. by rewrite !andb_true_r.
Qed.

(** Only the receipts' logs and the transactions matter. *)
Lemma paired_ext (txs : list WireTx) rs rs' :
  logs_of <$> rs = logs_of <$> rs' → ∀ k, log_rows (number k (zip txs (Some <$> rs))) = log_rows (number k (zip txs (Some <$> rs'))).
Proof.
  revert txs rs'. induction rs as [|r rs IH]; intros txs [|r' rs'] Heq k; try done.
  injection Heq as Hr Hrs. destruct txs as [|tx txs]; [done|]. cbn [fmap list_fmap zip zip_with].
  rewrite !number_cons, !log_rows_cons. cbn. rewrite Hr. f_equal. by apply IH.
Qed.

Lemma selected_logs_ext header req body body' rs rs' :
  body_transactions body = body_transactions body' → logs_of <$> rs = logs_of <$> rs' →
  selected_logs header req body (Some rs) = selected_logs header req body' (Some rs').
Proof. intros Hb Hr. unfold selected_logs, paired. by rewrite Hb, (paired_ext _ rs rs' Hr). Qed.

Lemma elem_of_log_rows rows row : row ∈ log_rows rows → ∃ item, item ∈ rows ∧ row.2 ∈ map_or [] logs_of item.2.2.
Proof. intros (item & (log & -> & Hlog)%list_elem_of_fmap & Hitem)%list_elem_of_bind. eauto. Qed.

Lemma selected_logs_nil header body rs :
  (∀ log, log ∈ rs ≫= logs_of → source_log_matches scope log = false) →
  selected_logs header (Some request) body (Some rs) = [].
Proof.
  intros Hnone. unfold selected_logs. rewrite filter_none; [done|]. intros [n [[k tx] log]] Hin. cbn. rewrite selects_log_sparse, Hnone, andb_false_r; [done|].
  unfold number in Hin at 1. apply elem_of_lookup_imap in Hin as (i & row & [= -> <-] & Hrow%list_elem_of_lookup_2).
  apply elem_of_log_rows in Hrow as ([k' [tx' r]] & Hitem & Hlog). cbn in Hlog.
  unfold number in Hitem. apply elem_of_lookup_imap in Hitem as (j & item & [= -> <-] & Hitem%list_elem_of_lookup_2).
  apply elem_of_zip_r, list_elem_of_fmap in Hitem as (r' & -> & Hr). apply list_elem_of_bind. eauto.
Qed.

(** A bloom that does not match rules the block's logs out. *)
Lemma bloom_sound `{!WireLaws} header rs log :
  validate_block_receipts header rs = Ok tt → log ∈ rs ≫= logs_of → source_log_matches scope log = true →
  header_bloom_matches scope header = true.
Proof.
  unfold validate_block_receipts. destruct (commits header rs); [|done]. cbn [negb].
  destruct (bool_decide (fold_left _ rs bloom_zero = alloy_logs_bloom header)) eqn:Hbloom; [|done].
  apply bool_decide_eq_true in Hbloom. intros _ (r & Hlog & Hr)%list_elem_of_bind Hmatch.
  assert (∀ rs b, (r ∈ rs ∨ ∀ input, contains_input (bloom_of r) input = true → contains_input b input = true) →
    ∀ input, contains_input (bloom_of r) input = true →
    contains_input (fold_left (λ total receipt, bloom_or total (bloom_of receipt)) rs b) input = true) as Hfold.
  { intros l. induction l as [|x l IH]; intros b Hb input Hin; cbn [fold_left].
    { destruct Hb as [?%elem_of_nil|Hb]; [done|by apply Hb]. }
    apply IH; [|done]. destruct Hb as [[->|Hx]%elem_of_cons|Hb]; [right|by left|right].
    - intros i Hi. by apply bloom_or_right.
    - intros i Hi. by apply bloom_or_left, Hb. }
  specialize (Hfold rs bloom_zero (or_introl Hr)). rewrite Hbloom in Hfold.
  unfold source_log_matches, FilterScope.matches_log in Hmatch. apply andb_prop in Hmatch as [Haddr Htopics].
  rewrite topics_match_allowed in Htopics. unfold header_bloom_matches. apply andb_true_iff. split.
  - unfold FilterScope.matches_log_address in Haddr. apply list_matches_spec in Haddr as [Hnil|(a & [= <-] & Ha)].
    + by rewrite bool_decide_true.
    + apply orb_true_iff. right. apply existsb_spec. exists (alloy_log_address log). split; [done|].
      apply Hfold. by apply bloom_address.
  - apply forallb_spec. intros filter Hfilter. destruct (Htopics filter Hfilter) as (v & Hv & Hin).
    apply andb_true_iff. split; [apply bool_decide_eq_true; by intros Hnil; rewrite Hnil in Hin; apply elem_of_nil in Hin|].
    apply existsb_spec. exists v. split; [done|]. apply Hfold. rewrite list_lookup_fmap in Hv.
    destruct (alloy_log_topics log !! _) as [topic|] eqn:Ht; [|done]. injection Hv as Hv. rewrite <-Hv.
    apply (bloom_topic r log); [done|]. by eapply list_elem_of_lookup_2.
Qed.
(** The logs of a receipt-only normalization. *)
Lemma sparse_log_steps in_range ti logs ls n ls' n' :
  fold_result (sparse_log_step scope in_range ti) (ls, n) logs = Ok (ls', n') →
  n' = n + Z.of_nat (length logs)
  ∧ ls' = ls ++ (if in_range
      then (λ row, log_of None ti row.1 row.2) <$> List.filter (λ row, source_log_matches scope row.2) (number n logs) else []).
Proof.
  revert ls n. induction logs as [|log logs IH]; intros ls n; cbn [fold_result].
  { intros [= -> ->]. cbn. split; [lia|]. by destruct in_range; rewrite app_nil_r. }
  rewrite result_bind_Ok. intros ([ls1 n1] & Hstep & Hrest). unfold sparse_log_step in Hstep.
  apply result_bind_Ok in Hstep as (next & Hnext & Hstep).
  assert (next = n + 1) as -> by (unfold next_log_index in Hnext; destruct (n <? u32_max); [by injection Hnext|done]).
  injection Hstep as <- <-. apply IH in Hrest as (-> & ->). rewrite number_cons. cbn [length List.filter snd].
  split; [lia|]. destruct in_range; cbn [andb]; [|done]. destruct (source_log_matches scope log); [|done].
  by rewrite <-app_assoc.
Qed.

Lemma sparse_receipt_steps header rs txs k ls n ls' n' :
  with_hashes request = false → length txs = length rs →
  fold_result (sparse_receipt_step scope (FilterScope.matches_block scope (header_number header))) (ls, n)
    (imap (λ i r, ((k + i)%nat, r)) rs) = Ok (ls', n') →
  ls' = ls ++ (normal_log (Some request) <$> List.filter (λ row, selects_log header (Some request) row.2.1.2 row.2.2)
    (number n (log_rows (number (Z.of_nat k) (zip txs (Some <$> rs)))))).
Proof.
  intros Hhashes. revert txs k ls n. induction rs as [|r rs IH]; intros [|tx txs] k ls n Hlen; try done.
  { cbn. intros [= -> ->]. by rewrite app_nil_r. }
  injection Hlen as Hlen. cbn [imap fold_result]. rewrite result_bind_Ok. intros ([ls1 n1] & Hstep & Hrest).
  assert (imap ((λ i r, ((k + i)%nat, r)) ∘ S) rs = imap (λ i r, ((S k + i)%nat, r)) rs) as Heq
    by (apply imap_ext; intros; cbn; f_equal; lia).
  rewrite Heq in Hrest. clear Heq. apply (IH txs) in Hrest as ->; [|done].
  rewrite Nat.add_0_r in Hstep. unfold sparse_receipt_step in Hstep. cbn [fst snd] in Hstep.
  apply result_bind_Ok in Hstep as (ti & Hti & Hstep).
  assert (ti = Z.of_nat k) as -> by (unfold index_u32 in Hti; destruct (_ <=? _); [by injection Hti|done]).
  apply sparse_log_steps in Hstep as [-> ->]. replace (Z.of_nat (S k)) with (Z.of_nat k + 1) by lia.
  cbn [fmap list_fmap zip zip_with]. rewrite number_cons, log_rows_cons, number_app, length_fmap, List.filter_app, fmap_app.
  cbn [fst snd map_or]. rewrite <-app_assoc. do 2 f_equal. rewrite normal_filtered_logs.
  unfold hashes_requested. cbn [is_none_or]. rewrite Hhashes.
  destruct sparse_scope as (Hf & _ & Hct & _). unfold selects_tx, scope_of. cbn [option_bind mbind]. rewrite Hf. cbn [is_none_or].
  unfold FilterScope.constrains_transactions in Hct. rewrite !orb_false_iff, !bool_decide_eq_false in Hct.
  destruct Hct as [[[Hty%dec_stable Hh%dec_stable] Hse%dec_stable] Hre%dec_stable].
  unfold FilterScope.matches_transaction, FilterScope.matches_sender. rewrite Hty, Hh, Hse, Hre. cbn. by rewrite !andb_true_r.
Qed.

Lemma sparse_receipt_block header rs body frame :
  length (body_transactions body) = length rs →
  normalize_sparse_receipt_log_block header rs request = Ok frame →
  frame_block frame = header_block_ref header
  ∧ frame_logs frame = Filtered (selected_logs header (Some request) body (Some rs)) scope VerifiedPredicate.
Proof.
  intros Hlen. unfold normalize_sparse_receipt_log_block. rewrite Hscope. destruct (with_hashes request) eqn:Hh; [done|].
  rewrite result_bind_Ok. intros ([ls n] & Hsteps & Hframe). apply (sparse_receipt_steps _ _ (body_transactions body) 0) in Hsteps; [|done..].
  cbn [app Z.of_nat] in Hsteps. subst ls.
  unfold normalize_sparse_log_block in Hframe. rewrite Hscope in Hframe.
  by apply result_bind_Ok in Hframe as (id & _ & [= <-]).
Qed.

Lemma sparse_empty_block header frame verified :
  normalize_sparse_empty_log_block header request verified = Ok frame →
  frame_block frame = header_block_ref header ∧ frame_logs frame = Filtered [] scope VerifiedPredicate.
Proof.
  unfold normalize_sparse_empty_log_block, normalize_sparse_log_block. rewrite Hscope. rewrite result_bind_Ok.
  by intros (id & _ & [= <-]).
Qed.

(** A full normalization's logs. *)
Lemma full_block_logs header body rs frame :
  normalize_block header (Some request) body (Some rs) = Ok frame →
  frame_block frame = header_block_ref header
  ∧ frame_logs frame = Filtered (selected_logs header (Some request) body (Some rs)) scope VerifiedPredicate.
Proof.
  intros (Hlogs & _ & _ & _ & Hblock & _)%normalize_block_Ok. split; [done|].
  destruct sparse_scope as (Hf & Hcl & _ & Hreq). rewrite Hlogs. unfold requested_material, logs_filtered, scope_of.
  cbn [is_none_or mbind option_bind]. rewrite Hreq, Hf. unfold normalized_material. cbn [negb is_some_and].
  by rewrite Hcl, orb_true_r.
Qed.
End sparse_facts.

(** ** What validation establishes *)

Lemma elem_of_zip_lookup {A B} (xs : list A) (ys : list B) i x y :
  xs !! i = Some x → ys !! i = Some y → (x, y) ∈ zip xs ys.
Proof. intros Hx Hy. eapply list_elem_of_lookup_2. apply lookup_zip_with_Some. eauto. Qed.

Lemma validate_against_headers_Ok headers receipts :
  validate_receipts_against_headers headers receipts = Ok tt →
  length receipts = length headers
  ∧ ∀ i header rs, headers !! i = Some header → receipts !! i = Some rs → validate_block_receipts header rs = Ok tt.
Proof.
  unfold validate_receipts_against_headers. destruct (Nat.eqb_spec (length receipts) (length headers)) as [Hlen|]; [|done].
  cbn [negb]. intros Hall. split; [done|]. intros i header rs Hh Hr. rewrite check_all_Ok in Hall.
  apply (Hall (header, rs)). by eapply elem_of_zip_lookup.
Qed.

Lemma validate_bodies_Ok headers bodies :
  validate_bodies headers bodies = Ok tt →
  length bodies = length headers
  ∧ ∀ i header body, headers !! i = Some header → bodies !! i = Some body → validate_body header body = Ok tt.
Proof.
  unfold validate_bodies. destruct (Nat.eqb_spec (length bodies) (length headers)) as [Hlen|]; [|done].
  cbn [negb]. intros Hall. split; [done|]. intros i header body Hh Hb. rewrite check_all_Ok in Hall.
  apply (Hall (header, body)). by eapply elem_of_zip_lookup.
Qed.

Lemma validate_receipts_Ok headers bodies receipts :
  validate_receipts headers bodies receipts = Ok tt →
  length receipts = length headers ∧ length bodies = length headers
  ∧ ∀ i header body rs, headers !! i = Some header → bodies !! i = Some body → receipts !! i = Some rs →
    validate_block_receipts header rs = Ok tt ∧ validate_body_receipts header body rs = Ok tt.
Proof.
  unfold validate_receipts. rewrite result_bind_Ok. intros ([] & Hheaders & Hbodies).
  apply validate_against_headers_Ok in Hheaders as [Hlen Hall].
  destruct (Nat.eqb_spec (length bodies) (length headers)) as [Hlen'|]; [|done]. cbn [negb] in Hbodies.
  rewrite check_all_Ok in Hbodies. split_and!; [done|done|]. intros i header body rs Hh Hb Hr. split; [by eapply Hall|].
  apply (Hbodies (header, body, rs)). eapply elem_of_zip_lookup; [|exact Hr]. apply lookup_zip_with_Some. eauto.
Qed.

Lemma validate_block_receipts_commits header rs : validate_block_receipts header rs = Ok tt → commits header rs = true.
Proof. unfold validate_block_receipts. by destruct (commits header rs). Qed.

Lemma validate_body_root header body :
  validate_body header body = Ok tt → calculate_transaction_root (body_transactions body) = alloy_transactions_root header.
Proof. unfold validate_body. by case_bool_decide. Qed.

Lemma validate_body_receipts_length header body rs :
  validate_body_receipts header body rs = Ok tt → length (body_transactions body) = length rs.
Proof. unfold validate_body_receipts. by destruct (Nat.eqb_spec (length rs) (length (body_transactions body))). Qed.

Lemma fetched_receipts_valid material_request_blocks peers_receipts headers receipts :
  (if bool_decide (length headers = 0%nat) then Ok []
   else fetch_direct_receipts_batched material_request_blocks peers_receipts headers) = Ok receipts →
  validate_receipts_against_headers headers receipts = Ok tt.
Proof.
  case_bool_decide as Hnil; [intros [= <-]; by apply nil_length_inv in Hnil as ->|].
  unfold fetch_direct_receipts_batched. rewrite result_bind_Ok. intros (fetched & _ & Hrest).
  by apply result_bind_Ok in Hrest as ([] & Hvalid & [= <-]).
Qed.

Lemma fetched_bodies_valid request material_request_blocks peers_bodies positive_headers positive_receipts exact bodies :
  fetch_sparse_log_bodies request material_request_blocks peers_bodies positive_headers positive_receipts exact = Ok bodies →
  with_hashes request = true → exact ≠ [] → validate_bodies (pick positive_headers exact) bodies = Ok tt.
Proof.
  unfold fetch_sparse_log_bodies. intros Hfetch Hhash Hne. rewrite Hhash, bool_decide_false in Hfetch by done. cbn [orb negb] in Hfetch.
  apply result_bind_Ok in Hfetch as (bs & Hbs & Hfetch). apply result_bind_Ok in Hfetch as ([] & _ & [= <-]).
  unfold fetch_bodies_batched in Hbs. apply result_bind_Ok in Hbs as (bs' & _ & Hbs).
  by apply result_bind_Ok in Hbs as ([] & Hvalid & [= <-]).
Qed.

(** A header binds its block: no other transactions, and no receipts with
    other logs, have its roots. *)
Record binds (header : Header) : Prop := {
  binds_logs rs rs' : commits header rs = true → commits header rs' = true → logs_of <$> rs = logs_of <$> rs';
  binds_transactions b b' :
    calculate_transaction_root (body_transactions b) = alloy_transactions_root header →
    calculate_transaction_root (body_transactions b') = alloy_transactions_root header →
    body_transactions b = body_transactions b';
}.

Section sparse_frames.
Context `{!WireLaws} (request : DataRequest) (scope : FilterScope) (Hscope : sparse_log_scope request = Some scope).
Context (headers : list Header) (bodies : list BlockBody) (receipts : list (list WireReceipt)).
Context (Hbodies : validate_bodies headers bodies = Ok tt) (Hreceipts : validate_receipts headers bodies receipts = Ok tt).
Context (Hbinds : ∀ header, header ∈ headers → binds header).

Local Abbreviation bloom_positive := (indices_of (header_bloom_matches scope) headers).

(** One block's frame. *)
Lemma sparse_block_frame positive_receipts matching_bodies i header body rs frame :
  validate_receipts_against_headers (pick headers bloom_positive) positive_receipts = Ok tt →
  (with_hashes request = true → exact_matches scope positive_receipts ≠ [] →
    validate_bodies (pick (pick headers bloom_positive) (exact_matches scope positive_receipts)) matching_bodies = Ok tt) →
  headers !! i = Some header → bodies !! i = Some body → receipts !! i = Some rs →
  (let positive_position := mjoin (positions (length headers) bloom_positive !! i) in
   let exact_position :=
     position ← positive_position;
     body_position ← mjoin (positions (length positive_receipts) (exact_matches scope positive_receipts) !! position);
     Some (position, body_position) in
   sparse_frame request positive_receipts matching_bodies header positive_position exact_position) = Ok frame →
  frame_block frame = header_block_ref header
  ∧ frame_logs frame = Filtered (selected_logs header (Some request) body (Some rs)) scope VerifiedPredicate.
Proof.
  cbv zeta. intros Hpositive Hmatching Hh Hb Hr.
  destruct (validate_receipts_Ok _ _ _ Hreceipts) as (_ & _ & Hvalid). destruct (Hvalid i header body rs Hh Hb Hr) as [Hvr Hvb].
  apply validate_against_headers_Ok in Hpositive as [Hplen Hpositive].
  assert (binds header) as [Hlogs Htxs] by (eapply Hbinds, list_elem_of_lookup_2, Hh).
  assert (∀ (items : list Header) f j, j ∈ indices_of f items → (j < length items)%nat) as Hrange.
  { intros items f j (x & Hx & _)%elem_of_indices_of. by eapply lookup_lt_Some. }
  destruct (positions_spec (length headers) bloom_positive i) as [Hnot Hat]; [apply NoDup_indices_of|by apply Hrange|].
  destruct (header_bloom_matches scope header) eqn:Hbloom; cycle 1.
  { rewrite Hnot by (intros (x & Hx & Hf)%elem_of_indices_of; congruence). cbn [mbind option_bind sparse_frame].
    intros [? Hl]%(sparse_empty_block request scope Hscope). split; [done|]. rewrite Hl.
    rewrite (selected_logs_nil request scope Hscope); [done|]. intros log Hlog. apply not_true_is_false. intros Hm.
    by rewrite (bloom_sound scope header rs log Hvr Hlog Hm) in Hbloom. }
  destruct (indices_of_place _ _ _ _ Hh Hbloom) as (p & Hp & Hpick). rewrite (Hat p Hp). cbn [mbind option_bind].
  assert (∃ rs', positive_receipts !! p = Some rs') as [rs' Hrs'].
  { apply lookup_lt_is_Some. rewrite Hplen. by eapply lookup_lt_Some. }
  specialize (Hpositive p header rs' Hpick Hrs'). pose proof (validate_block_receipts_commits _ _ Hpositive) as Hc'.
  pose proof (validate_block_receipts_commits _ _ Hvr) as Hc. pose proof (Hlogs _ _ Hc' Hc) as Heq.
  assert (∀ l : list WireReceipt, l ≫= logs_of = mjoin (logs_of <$> l)) as Hbind.
  { intros l. induction l as [|x l IH]; [done|]. cbn. f_equal. exact IH. }
  assert (∀ j, j ∈ exact_matches scope positive_receipts → (j < length positive_receipts)%nat) as Hexrange.
  { intros j (x & Hx & _)%elem_of_indices_of. by eapply lookup_lt_Some. }
  destruct (positions_spec (length positive_receipts) (exact_matches scope positive_receipts) p) as [Hxnot Hxat];
    [apply NoDup_indices_of|done|].
  destruct (existsb (source_log_matches scope) (rs' ≫= logs_of)) eqn:Hexact; cycle 1.
  { rewrite Hxnot by (intros (x & Hx & Hf)%elem_of_indices_of; congruence). cbn [mbind option_bind sparse_frame].
    intros [? Hl]%(sparse_empty_block request scope Hscope). split; [done|]. rewrite Hl.
    rewrite (selected_logs_nil request scope Hscope); [done|]. intros log Hlog.
    rewrite Hbind, <-Heq, <-Hbind in Hlog. by apply (proj1 (existsb_false _ _) Hexact). }
  destruct (indices_of_place (λ receipts, existsb (source_log_matches scope) (receipts ≫= logs_of)) positive_receipts p rs' Hrs' Hexact)
    as (b & Hbp & _).
  fold (exact_matches scope positive_receipts) in Hbp. rewrite (Hxat b Hbp). cbn [mbind option_bind sparse_frame].
  assert (index_into positive_receipts p = Ok rs') as -> by (unfold index_into; by rewrite Hrs'). cbn [mbind result_bind].
  destruct (with_hashes request) eqn:Hhash.
  - assert (exact_matches scope positive_receipts ≠ []) as Hne by (intros Hnil; by rewrite Hnil in Hbp).
    destruct (validate_bodies_Ok _ _ (Hmatching eq_refl Hne)) as [Hblen Hbodies'].
    rewrite result_bind_Ok. intros (body' & Hbody' & Hfull). unfold index_into in Hbody'.
    destruct (matching_bodies !! b) as [x|] eqn:Hx; [|done]. injection Hbody' as ->.
    assert (pick (pick headers bloom_positive) (exact_matches scope positive_receipts) !! b = Some header) as Hpb.
    { rewrite lookup_pick, Hbp; [exact Hpick|]. intros j Hj. apply lookup_lt_is_Some. rewrite <-Hplen. by apply Hexrange. }
    pose proof (validate_body_root _ _ (Hbodies' b header body' Hpb Hx)) as Hroot'.
    destruct (validate_bodies_Ok _ _ Hbodies) as [_ Htrue].
    pose proof (validate_body_root _ _ (Htrue i header body Hh Hb)) as Hroot.
    apply (full_block_logs request scope Hscope) in Hfull as [Hblock Hl]. split; [done|]. rewrite Hl. f_equal.
    by apply selected_logs_ext; [apply Htxs|].
  - intros Hframe. pose proof (validate_body_receipts_length _ _ _ Hvb) as Hlen.
    assert (length rs' = length rs) as Hlen' by (by rewrite <-(length_fmap logs_of), Heq, length_fmap).
    apply (sparse_receipt_block request scope Hscope header rs' body) in Hframe as [Hblock Hl]; [|congruence].
    split; [done|]. rewrite Hl. f_equal. by apply selected_logs_ext.
Qed.
Lemma sparse_frames_logs y budget positive_receipts matching_bodies frames :
  validate_receipts_against_headers (pick headers bloom_positive) positive_receipts = Ok tt →
  (with_hashes request = true → exact_matches scope positive_receipts ≠ [] →
    validate_bodies (pick (pick headers bloom_positive) (exact_matches scope positive_receipts)) matching_bodies = Ok tt) →
  normalize_sparse_log_frames y request budget headers bloom_positive positive_receipts (exact_matches scope positive_receipts)
    matching_bodies = Ok frames →
  length frames = length headers
  ∧ ∀ i header body rs frame, headers !! i = Some header → bodies !! i = Some body → receipts !! i = Some rs →
    frames !! i = Some frame →
    frame_block frame = header_block_ref header
    ∧ frame_logs frame = Filtered (selected_logs header (Some request) body (Some rs)) scope VerifiedPredicate.
Proof.
  intros Hpositive Hmatching Hframes%push_all_frames.
  split; [rewrite <-(Forall2_length _ _ _ Hframes); by rewrite length_imap|].
  intros i header body rs frame Hh Hb Hr Hf. eapply sparse_block_frame; [exact Hpositive|exact Hmatching|exact Hh|exact Hb|exact Hr|].
  refine (Forall2_lookup_lr _ _ _ i (i, header) frame Hframes _ Hf). by rewrite list_lookup_imap, Hh.
Qed.
End sparse_frames.

(** C2: sparse acquisition loses no log. A request for logs alone is served by
    asking the peers for the receipts of the blocks whose header's bloom may
    match, and for the bodies of those that do match when transaction hashes
    are wanted. The frames it returns, one for every header, claim the whole
    predicate and carry exactly the logs of their block that the request's
    filter selects, each numbered within the whole block, the very logs a
    full normalization of the block's body and receipts carries; a block left
    out has none. The lane's variant, which never fetches bodies, is as good.
    [bodies] and [receipts] are the blocks', whatever the peers served. *)
Theorem sparse_logs_exact `{!WireLaws} y budget request scope headers bodies receipts frames
    material_request_blocks peers_receipts peers_bodies live_receipts
    (Hscope : sparse_log_scope request = Some scope)
    (Hbodies : validate_bodies headers bodies = Ok tt) (Hreceipts : validate_receipts headers bodies receipts = Ok tt)
    (Hbinds : ∀ header, header ∈ headers → binds header)
    (Hfetch : fetch_sparse_log_frames_once y request budget material_request_blocks peers_receipts peers_bodies headers
        = Ok frames
      ∨ with_hashes request = false ∧ fetch_sparse_live_frames y request budget live_receipts headers = Ok frames
        ∧ ∀ hs rs, live_receipts hs = Ok rs → validate_receipts_against_headers hs rs = Ok tt) :
  length frames = length headers
  ∧ ∀ i header body rs frame, headers !! i = Some header → bodies !! i = Some body → receipts !! i = Some rs →
    frames !! i = Some frame →
    frame_block frame = header_block_ref header
    ∧ frame_logs frame = Filtered (selected_logs header (Some request) body (Some rs)) scope VerifiedPredicate
    ∧ ∀ full, normalize_block header (Some request) body (Some rs) = Ok full → frame_logs full = frame_logs frame.
Proof.
  assert (∃ positive_receipts matching_bodies,
    validate_receipts_against_headers (pick headers (indices_of (header_bloom_matches scope) headers)) positive_receipts = Ok tt
    ∧ (with_hashes request = true → exact_matches scope positive_receipts ≠ [] →
      validate_bodies (pick (pick headers (indices_of (header_bloom_matches scope) headers))
        (exact_matches scope positive_receipts)) matching_bodies = Ok tt)
    ∧ normalize_sparse_log_frames y request budget headers (indices_of (header_bloom_matches scope) headers)
        positive_receipts (exact_matches scope positive_receipts) matching_bodies = Ok frames)
    as (positive_receipts & matching_bodies & Hpositive & Hmatching & Hframes).
  { destruct Hfetch as [Hfetch|(Hhash & Hfetch & Hlive)].
    - unfold fetch_sparse_log_frames_once in Hfetch. rewrite Hscope in Hfetch.
      apply result_bind_Ok in Hfetch as (rs & Hrs & Hfetch). apply result_bind_Ok in Hfetch as (bs & Hbs & Hfetch).
      exists rs, bs. split_and!; [by eapply fetched_receipts_valid| |done]. intros Hhash Hne.
      by eapply fetched_bodies_valid.
    - unfold fetch_sparse_live_frames in Hfetch. rewrite Hscope in Hfetch.
      apply result_bind_Ok in Hfetch as (rs & Hrs & Hfetch). exists rs, []. split_and!; [|by rewrite Hhash|done].
      case_bool_decide as Hnil; [|by apply Hlive]. injection Hrs as <-. by apply nil_length_inv in Hnil as ->. }
  destruct (sparse_frames_logs request scope Hscope headers bodies receipts Hbodies Hreceipts Hbinds y budget
    positive_receipts matching_bodies frames Hpositive Hmatching Hframes) as [Hlen Hall].
  split; [done|]. intros i header body rs frame Hh Hb Hr Hf. destruct (Hall i header body rs frame Hh Hb Hr Hf) as [Hblock Hlogs].
  split_and!; [done|done|]. intros full Hfull. apply (full_block_logs request scope Hscope) in Hfull as [_ ->]. by rewrite Hlogs.
Qed.

(** ** Gas *)

Definition gas_total (rows : list ReceiptEnvelope) : Z := Z_sum (default 0 ∘ receipt_gas_used <$> rows).

Lemma selected_receipts_gas header request rs txs k n gas final :
  fold_result (gas_step header) gas rs = Ok final → 0 ≤ gas → length txs = length rs →
  gas ≤ final
  ∧ 0 ≤ gas_total (selected_receipts header request k n gas (zip txs (Some <$> rs))) ≤ final - gas
  ∧ ((∀ tx, selects_tx header request tx = true) →
    gas_total (selected_receipts header request k n gas (zip txs (Some <$> rs))) = final - gas).
Proof.
  revert txs k n gas. induction rs as [|r rs IH]; intros [|tx txs] k n gas; try done.
  { cbn. intros [= ->] ? _. lia. }
  cbn [fold_result]. rewrite result_bind_Ok. intros (next & Hstep & Hrest) Hgas [= Hlen]. unfold gas_step in Hstep.
  destruct (Z.ltb_spec (cumulative_gas_of r) gas) as [|Hle]; [done|]. injection Hstep as <-.
  change (each_receipt cumulative_gas_of cumulative_gas_of r) with (cumulative_gas_of r) in Hrest.
  destruct (IH txs (k + 1) (n + Z.of_nat (length (logs_of r))) _ Hrest (Z.le_trans _ _ _ Hgas Hle) Hlen) as (Hfinal & Hbound & Hall).
  cbn [fmap list_fmap zip zip_with selected_receipts]. unfold gas_total in *. rewrite fmap_app, Z_sum_app.
  assert (sat_sub (cumulative_gas_of r) gas = cumulative_gas_of r - gas) as Hsat by (unfold sat_sub; lia).
  destruct (selects_tx header request tx) eqn:Hsel; cbn [fmap list_fmap Z_sum compose receipt_envelope receipt_gas_used default].
  - change (Z_sum [?x]) with (x + 0). unfold id. rewrite Hsat. set (z := Z_sum _) in *. clearbody z.
    split_and!; [lia|lia|lia|]. intros Hevery. specialize (Hall Hevery). lia.
  - change (Z_sum []) with 0. set (z := Z_sum _) in *. clearbody z. split_and!; [lia|lia|lia|]. intros Hevery. congruence.
Qed.

(** A block whose transactions are all kept. *)
Lemma unfiltered_selects header request tx :
  transaction_filtered header request = false → selects_tx header request tx = true.
Proof.
  unfold transaction_filtered, selects_tx, number_of. destruct (scope_of request) as [scope|]; [|done]. cbn.
  rewrite orb_false_iff, negb_false_iff. intros [-> Hct]. unfold FilterScope.constrains_transactions in Hct.
  rewrite !orb_false_iff, !bool_decide_eq_false in Hct.
  destruct Hct as [[[Hty%dec_stable Hh%dec_stable] Hse%dec_stable] Hre%dec_stable].
  unfold FilterScope.matches_transaction, FilterScope.matches_sender. by rewrite Hty, Hh, Hse, Hre.
Qed.

(** C7: gas adds up. In the frame of a validated block the gas of its receipts
    is never more than its header's, and when no filter drops transactions it
    is exactly the header's: each receipt is charged what it adds to the
    cumulative gas, from Amsterdam on, where headers count otherwise,
    excepted. *)
Theorem receipts_account_gas header request body rs frame rows
    (Hreceipts : validate_block_receipts header rs = Ok tt) (Hbody : validate_body_receipts header body rs = Ok tt)
    (Hcount : alloy_block_access_list_hash header = None)
    (Hframe : normalize_block header request body (Some rs) = Ok frame)
    (Hrows : Material.as_present (frame_receipts frame) = Some rows) :
  0 ≤ gas_total rows ≤ alloy_gas_used header
  ∧ (Material.is_complete (frame_receipts frame) = true → gas_total rows = alloy_gas_used header).
Proof.
  apply normalize_block_Ok in Hframe as (_ & _ & Hr & _). rewrite Hr in Hrows |- *.
  assert (fold_result (gas_step header) 0 rs = Ok (alloy_gas_used header)) as Hgas.
  { unfold validate_block_receipts in Hreceipts. destruct (negb (commits header rs)); [done|].
    destruct (negb (bool_decide _)); [done|]. apply result_bind_Ok in Hreceipts as (final & Hfinal & Hcheck).
    rewrite Hcount in Hcheck. cbn in Hcheck. destruct (Z.eqb_spec final (alloy_gas_used header)) as [->|]; done. }
  destruct (selected_receipts_gas header request rs (body_transactions body) 0 0 0 _ Hgas) as (Hge & Hbound & Hall);
    [done|by eapply validate_body_receipts_length|].
  unfold normalized_material in *. destruct (requested_material request Receipts); [|done]. cbn [negb] in *.
  unfold paired in *. destruct (transaction_filtered header request) eqn:Hfiltered; cbn in Hrows; injection Hrows as <-.
  - split; [lia|done].
  - split; [lia|]. intros _. rewrite Hall; [lia|]. intros tx. by apply unfiltered_selects.
Qed.

End normalize.
End verified.
