(* ===== verification/LiveLane.v ===== *)
(** * The live lane

    Models the live subscription of [crates/source-p2p/src/lib.rs]: the state
    of a lane, its frames of verified headers, and one turn of the loop of
    [next_live_event], whole: what it owes, what an attested head or its
    absence means for the tail, the queue, and the five things it can fetch
    next. A lane runs on turns; what the peers, the clock and the attested
    head's channel answer during a turn is the record [Turn]. *)
From Stdlib Require Import ZArith Lia Strings.Byte.
From stdpp Require Import gmap strings list list_numbers fin_maps sorting pretty.
From S2P Require Import Prelude Bytes Chain Capability Material Provenance Frame SourceContract Durable Cadence Requests LiveHead LiveChain Wire Verified.

(** [#[error(...)]] of [P2pError]. *)
Definition p2p_message (error : P2pError) : string :=
  match error with
  | InvalidConfig detail => "invalid P2P configuration: " +:+ detail
  | RangeTooLarge requested maximum =>
      "fixed P2P range contains " +:+ pretty requested +:+ " blocks; maximum is " +:+ pretty maximum
  | ReorgTooDeep maximum => "P2P reorg exceeds the retained depth of " +:+ pretty maximum +:+ " blocks"
  | Network detail => "failed to start Reth networking: " +:+ detail
  | Cancelled => "P2P source was cancelled"
  | PeerTimeout minimum connected =>
      "only " +:+ pretty connected +:+ " peers connected before timeout; required " +:+ pretty minimum
  | Timeout component => "timed out requesting " +:+ component
  | Request component detail => "P2P " +:+ component +:+ " request failed: " +:+ detail
  | InvalidResponse detail => "invalid peer response: " +:+ detail
  | ExpectationMismatch detail => "peer response contradicts the expected chain: " +:+ detail
  | IncompleteResponse component returned expected =>
      "incomplete peer " +:+ component +:+ " response: returned " +:+ pretty returned +:+ ", expected " +:+ pretty expected
  | SourceFailure resource limit observed =>
      "source budget " +:+ resource +:+ " exceeded: limit " +:+ pretty limit +:+ ", observed " +:+ pretty observed
  end.

(** [leani_source_api::ChainEvent]. *)
Inductive ChainEvent :=
  | EventBlock (frame : BlockFrame)
  | EventReorg (reverted : list BlockRef) (applied : list BlockFrame)
  | EventAttested (through : BlockRef)
  | EventDisconnected (reason : string)
  | EventReset (last_valid : option BlockRef) (reason : string).

Definition frame_with_finality (f : BlockFrame) (level : Finality) : BlockFrame :=
  MkFrame (frame_chain_id f) (frame_block f) level (frame_header f) (frame_transactions f) (frame_receipts f)
    (frame_logs f) (frame_withdrawals f) (frame_blob_sidecars f) (frame_traces f) (frame_state_diffs f)
    (frame_provenance f) (frame_verification f).

Section live_lane.
Context `{WireRoots}.

(** ** The lane *)

Record P2pLiveState := MkLive {
  lane_last : BlockRef;
  queued : list BlockFrame;
  recent : list BlockRef;
  ancestry : AttestedAncestry;
  pending_material_attempts : Z;
  head_poll : HeadPollRotation;
  head_unavailable_since : option Z;
  head_poll_silent_since : option Z;
  reconnect_error : option string;
  disconnect_reported : bool;
  terminal : bool;
  head_acceptance : bool;
  lane_tail : list BlockRef;
  head_votes : HeadVotes;
  child_votes : HeadVotes;
  parent_header : option Header;
  pending_attested : option BlockRef;
  unknown_fork_logged : bool;
}.

Definition set_lane_last (s : P2pLiveState) x : P2pLiveState :=
  MkLive x (queued s) (recent s) (ancestry s) (pending_material_attempts s) (head_poll s)
    (head_unavailable_since s) (head_poll_silent_since s) (reconnect_error s) (disconnect_reported s) (terminal s)
    (head_acceptance s) (lane_tail s) (head_votes s) (child_votes s) (parent_header s) (pending_attested s)
    (unknown_fork_logged s).
Definition set_queued (s : P2pLiveState) x : P2pLiveState :=
  MkLive (lane_last s) x (recent s) (ancestry s) (pending_material_attempts s) (head_poll s)
    (head_unavailable_since s) (head_poll_silent_since s) (reconnect_error s) (disconnect_reported s) (terminal s)
    (head_acceptance s) (lane_tail s) (head_votes s) (child_votes s) (parent_header s) (pending_attested s)
    (unknown_fork_logged s).
Definition set_recent (s : P2pLiveState) x : P2pLiveState :=
  MkLive (lane_last s) (queued s) x (ancestry s) (pending_material_attempts s) (head_poll s)
    (head_unavailable_since s) (head_poll_silent_since s) (reconnect_error s) (disconnect_reported s) (terminal s)
    (head_acceptance s) (lane_tail s) (head_votes s) (child_votes s) (parent_header s) (pending_attested s)
    (unknown_fork_logged s).
Definition set_ancestry (s : P2pLiveState) x : P2pLiveState :=
  MkLive (lane_last s) (queued s) (recent s) x (pending_material_attempts s) (head_poll s)
    (head_unavailable_since s) (head_poll_silent_since s) (reconnect_error s) (disconnect_reported s) (terminal s)
    (head_acceptance s) (lane_tail s) (head_votes s) (child_votes s) (parent_header s) (pending_attested s)
    (unknown_fork_logged s).
Definition set_pending_material_attempts (s : P2pLiveState) x : P2pLiveState :=
  MkLive (lane_last s) (queued s) (recent s) (ancestry s) x (head_poll s) (head_unavailable_since s)
    (head_poll_silent_since s) (reconnect_error s) (disconnect_reported s) (terminal s) (head_acceptance s)
    (lane_tail s) (head_votes s) (child_votes s) (parent_header s) (pending_attested s) (unknown_fork_logged s).
Definition set_head_poll (s : P2pLiveState) x : P2pLiveState :=
  MkLive (lane_last s) (queued s) (recent s) (ancestry s) (pending_material_attempts s) x
    (head_unavailable_since s) (head_poll_silent_since s) (reconnect_error s) (disconnect_reported s) (terminal s)
    (head_acceptance s) (lane_tail s) (head_votes s) (child_votes s) (parent_header s) (pending_attested s)
    (unknown_fork_logged s).
Definition set_head_unavailable_since (s : P2pLiveState) x : P2pLiveState :=
  MkLive (lane_last s) (queued s) (recent s) (ancestry s) (pending_material_attempts s) (head_poll s) x
    (head_poll_silent_since s) (reconnect_error s) (disconnect_reported s) (terminal s) (head_acceptance s)
    (lane_tail s) (head_votes s) (child_votes s) (parent_header s) (pending_attested s) (unknown_fork_logged s).
Definition set_head_poll_silent_since (s : P2pLiveState) x : P2pLiveState :=
  MkLive (lane_last s) (queued s) (recent s) (ancestry s) (pending_material_attempts s) (head_poll s)
    (head_unavailable_since s) x (reconnect_error s) (disconnect_reported s) (terminal s) (head_acceptance s)
    (lane_tail s) (head_votes s) (child_votes s) (parent_header s) (pending_attested s) (unknown_fork_logged s).
Definition set_reconnect_error (s : P2pLiveState) x : P2pLiveState :=
  MkLive (lane_last s) (queued s) (recent s) (ancestry s) (pending_material_attempts s) (head_poll s)
    (head_unavailable_since s) (head_poll_silent_since s) x (disconnect_reported s) (terminal s) (head_acceptance s)
    (lane_tail s) (head_votes s) (child_votes s) (parent_header s) (pending_attested s) (unknown_fork_logged s).
Definition set_disconnect_reported (s : P2pLiveState) x : P2pLiveState :=
  MkLive (lane_last s) (queued s) (recent s) (ancestry s) (pending_material_attempts s) (head_poll s)
    (head_unavailable_since s) (head_poll_silent_since s) (reconnect_error s) x (terminal s) (head_acceptance s)
    (lane_tail s) (head_votes s) (child_votes s) (parent_header s) (pending_attested s) (unknown_fork_logged s).
Definition set_terminal (s : P2pLiveState) x : P2pLiveState :=
  MkLive (lane_last s) (queued s) (recent s) (ancestry s) (pending_material_attempts s) (head_poll s)
    (head_unavailable_since s) (head_poll_silent_since s) (reconnect_error s) (disconnect_reported s) x
    (head_acceptance s) (lane_tail s) (head_votes s) (child_votes s) (parent_header s) (pending_attested s)
    (unknown_fork_logged s).
Definition set_lane_tail (s : P2pLiveState) x : P2pLiveState :=
  MkLive (lane_last s) (queued s) (recent s) (ancestry s) (pending_material_attempts s) (head_poll s)
    (head_unavailable_since s) (head_poll_silent_since s) (reconnect_error s) (disconnect_reported s) (terminal s)
    (head_acceptance s) x (head_votes s) (child_votes s) (parent_header s) (pending_attested s)
    (unknown_fork_logged s).
Definition set_head_votes (s : P2pLiveState) x : P2pLiveState :=
  MkLive (lane_last s) (queued s) (recent s) (ancestry s) (pending_material_attempts s) (head_poll s)
    (head_unavailable_since s) (head_poll_silent_since s) (reconnect_error s) (disconnect_reported s) (terminal s)
    (head_acceptance s) (lane_tail s) x (child_votes s) (parent_header s) (pending_attested s)
    (unknown_fork_logged s).
Definition set_child_votes (s : P2pLiveState) x : P2pLiveState :=
  MkLive (lane_last s) (queued s) (recent s) (ancestry s) (pending_material_attempts s) (head_poll s)
    (head_unavailable_since s) (head_poll_silent_since s) (reconnect_error s) (disconnect_reported s) (terminal s)
    (head_acceptance s) (lane_tail s) (head_votes s) x (parent_header s) (pending_attested s)
    (unknown_fork_logged s).
Definition set_parent_header (s : P2pLiveState) x : P2pLiveState :=
  MkLive (lane_last s) (queued s) (recent s) (ancestry s) (pending_material_attempts s) (head_poll s)
    (head_unavailable_since s) (head_poll_silent_since s) (reconnect_error s) (disconnect_reported s) (terminal s)
    (head_acceptance s) (lane_tail s) (head_votes s) (child_votes s) x (pending_attested s) (unknown_fork_logged s).
Definition set_pending_attested (s : P2pLiveState) x : P2pLiveState :=
  MkLive (lane_last s) (queued s) (recent s) (ancestry s) (pending_material_attempts s) (head_poll s)
    (head_unavailable_since s) (head_poll_silent_since s) (reconnect_error s) (disconnect_reported s) (terminal s)
    (head_acceptance s) (lane_tail s) (head_votes s) (child_votes s) (parent_header s) x (unknown_fork_logged s).
Definition set_unknown_fork_logged (s : P2pLiveState) x : P2pLiveState :=
  MkLive (lane_last s) (queued s) (recent s) (ancestry s) (pending_material_attempts s) (head_poll s)
    (head_unavailable_since s) (head_poll_silent_since s) (reconnect_error s) (disconnect_reported s) (terminal s)
    (head_acceptance s) (lane_tail s) (head_votes s) (child_votes s) (parent_header s) (pending_attested s) x.

(** What a lane is configured with. *)
Record LaneConfig := MkLaneConfig {
  lane_config : RethP2pConfig;
  lane_request : DataRequest;
  lane_budget : SourceBudget;
  lane_chain_id : ChainId;
  lane_rules : HeaderRules;
  lane_layout : Layout;
  show_hash : BlockHash → string;
}.

Inductive WaitEnd := WaitCancelled | WaitChanged | WaitSlept.

(** What happens during one turn of the lane: cancellation, at the top and in
    a pause; the readings of the attested head's channel and of the clocks;
    the ends of the turn's wait; whether the session's manager runs; and what
    the peers answer to each of its requests. [turn_bodies] and
    [turn_receipts] are what the source's shared material comes to for each
    header: what another subscription downloaded, or this one. *)
Record Turn := MkTurn {
  turn_cancelled : bool;
  turn_pause_cancelled : bool;
  turn_connects : list (result P2pError unit);
  turn_peek : option AttestedHead;
  turn_latest : option AttestedHead;
  turn_poll_peek : option AttestedHead;
  turn_now : Z;
  turn_now_ms : Z;
  turn_poll_now : Z;
  turn_seen : Z;
  turn_observed_ms : Z;
  turn_instant : Z;
  turn_wait : WaitEnd;
  turn_manager_current : bool;
  turn_headers : Pool;
  turn_children : Pool;
  turn_windows : BlockRange → BlockHash → Pool;
  turn_parents : list (result P2pError (list Header));
  turn_descending : list (result P2pError (list Header));
  turn_branch : Pool;
  turn_bodies : Header → result P2pError BlockBody;
  turn_receipts : Header → result P2pError (list WireReceipt);
}.

Inductive Outcome :=
  | Again
  | Emit (event : ChainEvent)
  | Failed (error : P2pError)
  | Ended.

Section turn.
Context (c : LaneConfig) (t : Turn).

Definition retry_pause (s : P2pLiveState) : P2pLiveState * Outcome :=
  (s, if turn_pause_cancelled t then Ended else Again).

Definition note_live_progress (s : P2pLiveState) : P2pLiveState :=
  set_head_poll_silent_since (set_disconnect_reported s false) None.

Definition report_disconnect (reason : string) (s : P2pLiveState) : P2pLiveState * Outcome :=
  (set_disconnect_reported s true,
   if disconnect_reported s then Again else Emit (EventDisconnected reason)).

(** Reconnect with a reason, reporting the outage once. *)
Definition reconnect_with (reason : string) (s : P2pLiveState) : P2pLiveState * Outcome :=
  report_disconnect reason (set_reconnect_error s (Some reason)).

(** ** Requests *)

(** The header with a hash, from the replies of as many attempts as are
    retried. *)
Fixpoint fetch_header_by_hash (hash : BlockHash) (replies : list (result P2pError (list Header)))
    (last_error : option P2pError) : result P2pError Header :=
  match replies with
  | [] => Err (default (Request "parent header" "retry budget exhausted") last_error)
  | reply :: rest =>
      let error := match reply with
        | Ok headers =>
            match last headers with
            | Some header =>
                if bool_decide (hash_slow header = hash) then Ok header
                else Err (InvalidResponse "the parent header does not match its hash")
            | None => Err (IncompleteResponse "parent header" 0 1)
            end
        | Err error => Err error
        end in
      match error with
      | Ok header => Ok header
      | Err error => if turn_pause_cancelled t then Err Cancelled else fetch_header_by_hash hash rest (Some error)
      end
  end.

Fixpoint fetch_descending_headers (number : BlockNumber) (hash : BlockHash)
    (replies : list (result P2pError (list Header))) (last_error : option P2pError) : result P2pError (list Header) :=
  match replies with
  | [] => Err (default (Request "reorg headers" "retry budget exhausted") last_error)
  | reply :: rest =>
      match (headers ← reply; _ ← validate_descending_headers number hash headers; Ok headers) with
      | Ok headers => Ok headers
      | Err error => if turn_pause_cancelled t then Err Cancelled else fetch_descending_headers number hash rest (Some error)
      end
  end.

Definition attempts (replies : list (result P2pError (list Header))) : list (result P2pError (list Header)) :=
  List.firstn (retries (lane_config c)) replies.

(** [SharedMaterial::get_or_fetch]: the material of every header, or an error. *)
Definition live_material {A} (answer : Header → result P2pError A) (headers : list Header) : result P2pError (list A) :=
  fold_result (λ material header, value ← answer header; Ok (material ++ [value])) [] headers.

Definition fetch_live_body_frames (headers : list Header) : result P2pError (list BlockFrame) :=
  bodies ← live_material (turn_bodies t) headers;
  normalize_verified_bodies (show_hash c) (lane_chain_id c) (turn_observed_ms t) (lane_layout c) headers bodies
    (lane_budget c).

Definition fetch_verified_material (headers : list Header) : result P2pError (list BlockFrame) :=
  bodies ← live_material (turn_bodies t) headers;
  receipts ← live_material (turn_receipts t) headers;
  _ ← check_all (λ item, validate_body_receipts item.1.1 item.1.2 item.2) (zip (zip headers bodies) receipts);
  normalize_verified (show_hash c) (lane_chain_id c) (turn_observed_ms t) (lane_layout c) headers bodies receipts
    (lane_budget c).

(** The frames of headers, as the request needs them. *)
Definition fetch_live_range_material (headers : list Header) : result P2pError (list BlockFrame) :=
  if header_only_request (lane_request c)
  then normalize_verified_headers (show_hash c) (lane_chain_id c) (turn_observed_ms t) (lane_layout c) headers (lane_budget c)
  else if header_and_body_only_request (lane_request c) then fetch_live_body_frames headers
  else if negb (is_none (sparse_log_scope (lane_request c))) && negb (with_hashes (lane_request c))
  then fetch_sparse_live_frames (show_hash c) (lane_chain_id c) (turn_observed_ms t) (lane_layout c) (lane_request c)
         (lane_budget c) (live_material (turn_receipts t)) headers
  else fetch_verified_material headers.

Definition frame_for_header (header : Header) : result P2pError (option BlockFrame) :=
  frames ← fetch_live_range_material [header];
  Ok (last frames).

Definition fetch_requested_live_range (range : BlockRange) (expected_tip : option ExpectedTip)
    : result P2pError (list BlockFrame) :=
  '(_, headers) ← (fetch_live_headers_from_untried_peers (show_hash c) range expected_tip None None (turn_branch t)).2;
  fetch_live_range_material headers.

(** ** Reorgs *)

(** The branch above the ancestor, when it joins it. *)
Definition fetch_reorg_branch (ancestor : BlockRef) (head_number : BlockNumber) (head_hash : BlockHash)
    (evidence : ExpectationTrust) : result P2pError (list BlockFrame) :=
  if ref_number ancestor =? head_number then Ok []
  else
    range ← map_err (λ _, InvalidResponse "block range") (BlockRange.new (sat_add (ref_number ancestor) 1) head_number);
    if MAX_FIXED_RANGE_BLOCKS <? BlockRange.len range
    then Err (ReorgTooDeep (Z.of_nat (max_reorg_depth (lane_config c))))
    else
      frames ← fetch_requested_live_range range (Some (MkExpectedTip head_hash evidence));
      if is_some_and (head frames) (λ frame, bool_decide (ref_parent_hash (frame_block frame) = ref_hash ancestor))
      then Ok frames
      else Err (InvalidResponse "replacement branch does not join the discovered common ancestor").

Definition new_tip_of (ancestor : BlockRef) (applied : list BlockFrame) : BlockRef :=
  match last applied with Some frame => frame_block frame | None => ancestor end.

Definition reconstruct_reorg (s : P2pLiveState) (head_number : BlockNumber) (head_hash : BlockHash)
    (evidence : ExpectationTrust) : result P2pError (list BlockRef * list BlockFrame * BlockRef) :=
  descending ← fetch_descending_headers head_number head_hash (attempts (turn_descending t)) None;
  '(ancestor, reverted) ← plan_reorg (recent s) descending;
  applied ← fetch_reorg_branch ancestor head_number head_hash evidence;
  Ok (reverted, applied, new_tip_of ancestor applied).

(** [pop_back], as often as there are reverted blocks. *)
Definition pop_reverted (recent reverted : list BlockRef) : list BlockRef :=
  List.firstn (length recent - length reverted) recent.

(** The header a P2P frame carries. *)
Definition decoded_header (frame : BlockFrame) : option Header :=
  match frame_header frame with
  | Complete envelope => bytes ← rlp envelope; rlp_decode bytes
  | _ => None
  end.

(** The chain after a reorg: the tip, the window and the tip's header. *)
Definition adopt_branch (s : P2pLiveState) (reverted : list BlockRef) (applied : list BlockFrame) (new_tip : BlockRef)
    : P2pLiveState :=
  let s := set_recent s (pop_reverted (recent s) reverted ++ (frame_block <$> applied)) in
  let s := set_lane_last s new_tip in
  set_parent_header s (frame ← last applied; decoded_header frame).

Definition adopt_reorg (s : P2pLiveState) (reverted : list BlockRef) (applied : list BlockFrame) (new_tip : BlockRef)
    (evidence : ExpectationTrust) : P2pLiveState * ChainEvent :=
  let s := set_ancestry (adopt_branch s reverted applied new_tip) ancestry_empty in
  let s := set_lane_tail s (UnattestedTail.remove (lane_tail s) reverted) in
  let s := match evidence with
    | VerifiedExpectation => set_lane_tail (set_pending_attested s (UnattestedTail.newest (lane_tail s))) []
    | UnverifiedExpectation => s
    end in
  (note_live_progress s, EventReorg reverted applied).

Definition reconstruct_reorg_event (s : P2pLiveState) (mismatching : BlockRef) (evidence : ExpectationTrust)
    : P2pLiveState * Outcome :=
  let '(head_number, head_hash) := reorg_reconstruction_tip (lane_last s) mismatching in
  match reconstruct_reorg s head_number head_hash evidence with
  | Ok (reverted, applied, new_tip) =>
      let '(s, event) := adopt_reorg s reverted applied new_tip evidence in (s, Emit event)
  | Err error =>
      let '(failure, reported) := reorg_failure error evidence (disconnect_reported s) in
      let s := set_disconnect_reported s reported in
      match failure with
      | ReorgReset => (set_terminal s true, Emit (EventReset (head (recent s)) (p2p_message error)))
      | ReorgReport => (s, Emit (EventDisconnected (p2p_message error)))
      | ReorgRetry => (s, Again)
      end
  end.

(** ** What is owed, and the tail *)

(** [reconnect_live_session] over the attempts to connect; an error of the
    last one ends it. *)
Fixpoint reconnect_attempts (request_error : string) (attempt : Z) (connects : list (result P2pError unit))
    : result P2pError unit :=
  match connects with
  | [] => Err Cancelled
  | Ok _ :: _ => Ok tt
  | Err Cancelled :: _ => Err Cancelled
  | Err error :: rest =>
      if should_retry_session_error (lane_config c) attempt error then
        if turn_pause_cancelled t then Err Cancelled else reconnect_attempts request_error (sat_add attempt 1) rest
      else Err (Network (request_error +:+ "; persistent peer-pool recovery failed: " +:+ p2p_message error))
  end.

Definition step_reconnect (request_error : string) (s : P2pLiveState) : P2pLiveState * Outcome :=
  let s := set_reconnect_error s None in
  match reconnect_attempts request_error 1 (turn_connects t) with
  | Ok _ => (set_head_poll_silent_since (set_head_unavailable_since s None) None, Again)
  | Err Cancelled => (s, Ended)
  | Err reconnect => (set_terminal s true, Failed reconnect)
  end.

(** What the newest attested head means for the tail; [None] goes on with the
    turn. *)
Definition step_attested (s : P2pLiveState) : P2pLiveState * option Outcome :=
  match turn_peek t with
  | None => (s, None)
  | Some attested =>
      match UnattestedTail.attestation (lane_tail s) attested with
      | Confirm through =>
          (set_lane_tail s (UnattestedTail.confirm_through (lane_tail s) (ref_number through)),
           Some (Emit (EventAttested through)))
      | Conflict number hash =>
          match reconstruct_reorg s number hash VerifiedExpectation with
          | Ok (reverted, applied, new_tip) =>
              let '(s, event) := adopt_reorg s reverted applied new_tip VerifiedExpectation in (s, Some (Emit event))
          | Err Cancelled => (s, Some Ended)
          | Err _ => (s, None)
          end
      | NoAttestation => (s, None)
      end
  end.

(** The tail whose grace has passed, undone. *)
Definition step_expired (s : P2pLiveState) (reverted : list BlockRef) : P2pLiveState * Outcome :=
  let s := set_recent s (pop_reverted (recent s) reverted) in
  match last (recent s) with
  | None =>
      (set_terminal s true, Emit (EventReset None "unattested tail expired below the retained chain"))
  | Some attested_tip =>
      (set_lane_tail (set_parent_header (set_lane_last s attested_tip) None) [], Emit (EventReorg reverted []))
  end.

(** [while recent.len() > depth + 1 { pop_front }]. *)
Definition trim_recent (recent : list BlockRef) : list BlockRef :=
  drop (length recent - (max_reorg_depth (lane_config c) + 1)) recent.

(** The next queued frame, delivered. *)
Definition step_deliver (s : P2pLiveState) (frame : BlockFrame) (rest : list BlockFrame) : P2pLiveState * Outcome :=
  let s := set_lane_last (set_queued s rest) (frame_block frame) in
  let s := set_recent s (trim_recent (recent s ++ [frame_block frame])) in
  let s := set_parent_header (note_live_progress s) (decoded_header frame) in
  let s :=
    if bool_decide (frame_finality frame = Unattested)
    then set_lane_tail s (UnattestedTail.push (lane_tail s) (frame_block frame)) else s in
  (s, Emit (EventBlock frame)).

(** ** The unattested head *)

Inductive HeadPoll :=
  | Accepted (frame : BlockFrame)
  | PollNotYet
  | WaitForAttested
  | PollReorg (event : ChainEvent).

Abbreviation lane A := (eff P2pLiveState P2pError A).

(** A poll of one block's headers with the lane's rotation and a set of
    votes. *)
Definition poll_head_headers (range : BlockRange) : lane (HeaderServe * list Header) := λ s,
  let '(rotation, votes, reply) :=
    fetch_live_headers_from_untried_peers (show_hash c) range None (Some (head_poll s)) (Some (head_votes s)) (turn_headers t) in
  (set_head_votes (set_head_poll s (default (head_poll s) rotation)) (default (head_votes s) votes), reply).

Definition poll_child_headers (range : BlockRange) : lane (HeaderServe * list Header) := λ s,
  let '(_, votes, reply) :=
    fetch_live_headers_from_untried_peers (show_hash c) range None None (Some (child_votes s)) (turn_children t) in
  (set_child_votes s (default (child_votes s) votes), reply).

(** The branch of a reorg at the head, lowest first, from its ancestor up. *)
Definition reorg_branch (ancestor : BlockRef) (descending : list Header) : list Header :=
  rev (List.filter (λ header, ref_number ancestor <=? header_number header) descending).

(** A quorum serves a block whose parent is not the tip. *)
Definition unattested_reorg (header : Header) : lane HeadPoll := λ s,
  if bool_decide (lane_tail s = []) then (s, Ok WaitForAttested)
  else
    match fetch_descending_headers (header_number header) (hash_slow header) (attempts (turn_descending t)) None with
    | Err Cancelled => (s, Err Cancelled)
    | Err _ => (s, Ok WaitForAttested)
    | Ok descending =>
        match plan_reorg (recent s) descending with
        | Err _ => (s, Ok WaitForAttested)
        | Ok (ancestor, reverted) =>
            if negb (UnattestedTail.contains_all (lane_tail s) reverted) then (s, Ok WaitForAttested)
            else if negb (accepts_branch (lane_rules c) (reorg_branch ancestor descending) (turn_poll_peek t) (turn_poll_now t))
            then (s, Ok WaitForAttested)
            else
              match fetch_reorg_branch ancestor (header_number header) (hash_slow header) UnverifiedExpectation with
              | Err Cancelled => (s, Err Cancelled)
              | Err _ => (s, Ok WaitForAttested)
              | Ok applied =>
                  let new_tip := new_tip_of ancestor applied in
                  let applied := (λ frame, frame_with_finality frame Unattested) <$> applied in
                  let s := adopt_branch s reverted applied new_tip in
                  let s := set_lane_tail s
                    (fold_left UnattestedTail.push (frame_block <$> applied) (UnattestedTail.remove (lane_tail s) reverted)) in
                  (note_live_progress s, Ok (PollReorg (EventReorg reverted applied)))
              end
        end
    end.

(** The parent the rules check against: the lane's, or a peer's by hash. *)
Definition parent_of_tip (s : P2pLiveState) : result P2pError Header :=
  match parent_header s with
  | Some parent =>
      if bool_decide (hash_slow parent = ref_hash (lane_last s)) then Ok parent
      else fetch_header_by_hash (ref_hash (lane_last s)) (attempts (turn_parents t)) None
  | None => fetch_header_by_hash (ref_hash (lane_last s)) (attempts (turn_parents t)) None
  end.

(** What a late block waits for: nothing more, or why it is not taken. *)
Definition late_child (header : Header) (block : BlockNumber) : lane (option HeadPoll) :=
  if negb (late_reveal (header_timestamp header) (turn_seen t)) then lift (Ok None)
  else λ s,
    match poll_child_headers (BlockRange.single (sat_add block 1)) s with
    | (s, Err (IncompleteResponse _ _ _)) => (s, Ok (Some PollNotYet))
    | (s, Err error) => (s, Err error)
    | (s, Ok (_, children)) =>
        match last children with
        | Some child =>
            if bool_decide (header_parent_hash child = hash_slow header) then (s, Ok None)
            else (s, Ok (Some WaitForAttested))
        | None => (s, Ok (Some WaitForAttested))
        end
    end.

(** The blobs of a frame that carries its transactions. *)
Definition frame_blobs (frame : BlockFrame) : option Z :=
  match frame_transactions frame with
  | Complete transactions => Some (Z_sum ((λ tx, Z.of_nat (length (blob_versioned_hashes tx))) <$> transactions))
  | _ => None
  end.

(** The frame of a header that passed the rules. *)
Definition accept_header (header : Header) : lane HeadPoll :=
  frame ← lift (frame_for_header header);
  match frame with
  | None => lift (Ok PollNotYet)
  | Some frame =>
      if is_some_and (frame_blobs frame) (λ blobs, negb (blob_gas_matches header blobs)) then lift (Ok WaitForAttested)
      else
        _ ← modify (λ s, set_parent_header s (Some header));
        lift (Ok (Accepted (frame_with_finality frame Unattested)))
  end.

Definition judge_header (header parent : Header) (block : BlockNumber) (attested_parent_root : option (array 32))
    : lane HeadPoll :=
  match check (lane_rules c) header parent (turn_poll_now t) attested_parent_root with
  | UnknownFork _ => _ ← modify (λ s, set_unknown_fork_logged s true); lift (Ok WaitForAttested)
  | Invalid _ => lift (Ok WaitForAttested)
  | Valid =>
      held ← late_child header block;
      match held with
      | Some poll => lift (Ok poll)
      | None => accept_header header
      end
  end.

(** A header that continues the tip. *)
Definition poll_next_header (header : Header) (block : BlockNumber) : lane HeadPoll :=
  match Cadence.header_slot (rules_cadence (lane_rules c)) (header_number header) (header_timestamp header), turn_poll_peek t with
  | Some slot, Some head =>
      if MAX_UNATTESTED_SLOTS <? sat_sub slot (head_beacon_slot head) then lift (Ok WaitForAttested)
      else
        s ← gets id;
        parent ← lift (parent_of_tip s);
        judge_header header parent block
          (if sat_add (head_beacon_slot head) 1 =? slot then Some (head_beacon_block_root head) else None)
  | _, _ => lift (Ok WaitForAttested)
  end.

(** [None] for the last header is the panic of an empty reply, which no
    request returns. *)
Definition poll_unattested_head (block : BlockNumber) : lane HeadPoll :=
  _ ← modify (λ s, set_head_poll s (HeadPollRotation.begin_poll (head_poll s) block).1);
  '(_, headers) ← poll_head_headers (BlockRange.single block);
  match last headers with
  | None => lift (Err (Network "panic"))
  | Some header =>
      s ← gets id;
      if bool_decide (header_parent_hash header = ref_hash (lane_last s)) then poll_next_header header block
      else unattested_reorg header
  end.

(** ** The turn's fetch *)

Definition lane_grace : Z := Z.max (expected_lag (lane_config c)) (poll_interval (lane_config c)).

(** A failed head poll, on its way: retry, report or reconnect. *)
Definition fail_head_poll (error : P2pError) (s : P2pLiveState) : P2pLiveState * HeadPollFailure :=
  let s := set_head_poll s (HeadPollRotation.serve_failed (head_poll s)) in
  let '(attempts, silent_since, failure) :=
    head_poll_failure (lane_config c) (pending_material_attempts s) (head_poll_silent_since s) (turn_instant t)
      lane_grace error (turn_manager_current t) in
  (set_head_poll_silent_since (set_pending_material_attempts s attempts) silent_since, failure).

(** What becomes of a poll of the unattested head. *)
Definition settle_head_poll (poll : result P2pError HeadPoll) (s : P2pLiveState) : P2pLiveState * Outcome :=
  match poll with
  | Ok (Accepted frame) => (set_queued s (queued s ++ [frame]), Again)
  | Ok PollNotYet | Ok WaitForAttested => retry_pause s
  | Ok (PollReorg event) => (s, Emit event)
  | Err Cancelled => (s, Ended)
  | Err (IncompleteResponse _ _ _) => retry_pause s
  | Err error =>
      let '(s, failure) := fail_head_poll error s in
      match failure with
      | PollRetry _ | PollReport _ => retry_pause s
      | PollReconnect => reconnect_with (p2p_message error) s
      end
  end.

Definition step_head (block : BlockNumber) (s : P2pLiveState) : P2pLiveState * Outcome :=
  let s := set_head_unavailable_since s None in
  let cadence := rules_cadence (lane_rules c) in
  let delay := head_poll_delay
    (Cadence.next_slot_start_ms cadence (ref_number (lane_last s)) (ref_timestamp (lane_last s)))
    (Cadence.slot_ms cadence (ref_number (lane_last s))) (turn_now_ms t) in
  match (if delay =? 0 then WaitSlept else turn_wait t) with
  | WaitCancelled => (s, Ended)
  | WaitChanged => (s, Again)
  | WaitSlept => let '(s, poll) := poll_unattested_head block s in settle_head_poll poll s
  end.

Definition unavailable_reason (s : P2pLiveState) (unavailable_for : Z) : string :=
  "no sync-committee-attested execution head above block " +:+ pretty (ref_number (lane_last s)) +:+ " for "
  +:+ pretty (unavailable_for / 1000) +:+ " seconds".

Definition step_wait (s : P2pLiveState) : P2pLiveState * Outcome :=
  match turn_wait t with
  | WaitCancelled => (s, Ended)
  | _ =>
      let '(since, unavailable_for) := head_unavailable_for (head_unavailable_since s) (turn_instant t) in
      let s := set_head_unavailable_since s since in
      match head_unavailable (turn_manager_current t) unavailable_for ATTESTED_HEAD_GRACE with
      | HeadRetry => (s, Again)
      | HeadReport => report_disconnect (unavailable_reason s unavailable_for) s
      | HeadReconnect => reconnect_with (unavailable_reason s unavailable_for) s
      end
  end.

(** A failed catch-up or proof: the ancestry is proven again. *)
Definition fail_catch_up (error : P2pError) (s : P2pLiveState) : P2pLiveState * Outcome :=
  let s := set_ancestry s (ancestry_invalidate (ancestry s)) in
  let '(attempts, delay) :=
    pending_live_material_delay (lane_config c) (pending_material_attempts s) error false (turn_manager_current t) in
  let s := set_pending_material_attempts s attempts in
  match delay with
  | Some _ => retry_pause s
  | None => reconnect_with (p2p_message error) s
  end.

(** [None] is a proof that does not end; [ancestry_ends_proven] excludes it. *)
Definition step_anchor (from : BlockNumber) (head : AttestedHead) (s : P2pLiveState) : P2pLiveState * Outcome :=
  let s := set_head_unavailable_since s None in
  match anchor_attested_ancestry (show_hash c) (turn_windows t) from head with
  | Some (Ok proven) => (set_ancestry s (ancestry_advance (ancestry s) proven), Again)
  | Some (Err Cancelled) => (s, Ended)
  | Some (Err error) => fail_catch_up error s
  | None => (s, Again)
  end.

(** Attested frames on the tip prove the tip, and with it the tail. *)
Definition prove_tail (s : P2pLiveState) : P2pLiveState * Outcome :=
  match UnattestedTail.newest (lane_tail s) with
  | Some through => (set_lane_tail s [], Emit (EventAttested through))
  | None => (s, Again)
  end.

Definition served (s : P2pLiveState) : P2pLiveState :=
  set_head_poll_silent_since (set_pending_material_attempts s 0) None.

(** A failed poll of the attested head reports, too. *)
Definition settle_poll_failure (error : P2pError) (s : P2pLiveState) : P2pLiveState * Outcome :=
  let '(s, failure) := fail_head_poll error s in
  match failure with
  | PollReconnect => reconnect_with (p2p_message error) s
  | PollRetry _ => retry_pause s
  | PollReport _ => if turn_pause_cancelled t then (s, Ended) else report_disconnect (p2p_message error) s
  end.

(** [poll_next_verified_frame]. *)
Definition poll_next_verified_frame (block : BlockNumber) (tip : ExpectedTip) : lane (option BlockFrame) := λ s,
  let '(rotation, _, reply) :=
    fetch_live_headers_from_untried_peers (show_hash c) (BlockRange.single block) (Some tip) (Some (head_poll s)) None
      (turn_headers t) in
  (set_head_poll s (default (head_poll s) rotation),
   '(_, headers) ← reply;
   match last headers with
   | Some header => frame_for_header header
   | None => Err (Network "panic")
   end).

Definition step_poll (block : BlockNumber) (tip : ExpectedTip) (s : P2pLiveState) : P2pLiveState * Outcome :=
  let s := set_head_unavailable_since s None in
  let s := set_head_poll s (HeadPollRotation.begin_poll (head_poll s) block).1 in
  match poll_next_verified_frame block tip s with
  | (s, Ok (Some frame)) =>
      let s := served s in
      if negb (bool_decide (ref_parent_hash (frame_block frame) = ref_hash (lane_last s)))
      then reconstruct_reorg_event (set_head_poll s (HeadPollRotation.serve_failed (head_poll s))) (frame_block frame)
             (tip_trust tip)
      else prove_tail (set_queued s (queued s ++ [frame]))
  | (s, Ok None) => retry_pause (served s)
  | (s, Err Cancelled) => (s, Ended)
  | (s, Err error) => settle_poll_failure error s
  end.

(** The material of a catch-up batch. *)
Definition catch_up_frames (headers : list Header) (header_peer : option B512) : result P2pError (list BlockFrame) :=
  match header_peer with
  | Some _ => fetch_live_range_material headers
  | None => Err (IncompleteResponse "headers" 0 (Z.of_nat (length headers)))
  end.

Definition step_catch_up (range : BlockRange) (s : P2pLiveState) : P2pLiveState * Outcome :=
  let s := set_head_unavailable_since s None in
  let '(held, (headers, header_peer, _)) := ancestry_take (ancestry s) (BlockRange.len range) in
  let s := set_ancestry s held in
  match List.find (λ first, negb (bool_decide (header_parent_hash first = ref_hash (lane_last s)))) (List.firstn 1 headers) with
  | Some first =>
      reconstruct_reorg_event (set_ancestry s (ancestry_invalidate held)) (header_block_ref first) VerifiedExpectation
  | None =>
      match catch_up_frames headers header_peer with
      | Ok frames =>
          let s := set_pending_material_attempts s 0 in
          prove_tail (set_queued s (queued s ++ frames))
      | Err Cancelled => (s, Ended)
      | Err error => fail_catch_up error s
      end
  end.

(** The step for what the lane fetches next. *)
Definition step_fetch (s : P2pLiveState) : P2pLiveState * Outcome :=
  let batch_blocks := if pending_material_attempts s =? 0 then max_frames (lane_budget c) else 1 in
  let gate := MkHeadGate (head_acceptance s) (Cadence.slot_at (rules_cadence (lane_rules c)) (turn_now t)) in
  match live_step (lane_last s) (turn_latest t) (ancestry s) batch_blocks gate with
  | StepHead block => step_head block s
  | StepWait => step_wait s
  | StepAnchor from head => step_anchor from head s
  | StepPoll block tip => step_poll block tip s
  | StepCatchUp range => step_catch_up range s
  end.

(** Past what is owed: the tail's grace, the queue, and the next fetch. *)
Definition step_on (s : P2pLiveState) : P2pLiveState * Outcome :=
  match UnattestedTail.expired (lane_tail s) (turn_now t), queued s with
  | Some reverted, _ => step_expired s reverted
  | None, frame :: rest => step_deliver s frame rest
  | None, [] => step_fetch s
  end.

(** One turn of the loop of [next_live_event]. *)
Definition live_turn (s : P2pLiveState) : P2pLiveState * Outcome :=
  if terminal s || turn_cancelled t then (s, Ended)
  else
    match reconnect_error s, pending_attested s with
    | Some request_error, _ => step_reconnect request_error s
    | None, Some through => (set_pending_attested s None, Emit (EventAttested through))
    | None, None =>
        match step_attested s with
        | (s, Some outcome) => (s, outcome)
        | (s, None) => step_on s
        end
    end.

End turn.

(** ** A lane's life *)

(** What [subscribe] refuses with. *)
Inductive SubscribeError :=
  | Refused (error : SourceError)
  | BudgetExceeded (resource : string) (limit observed : Z)
  | ProtocolError (detail : string)
  | FetchFailed (error : P2pError).

Section subscribe.
Context (c : LaneConfig) (desc : SourceDescriptor) (publishes_heads : bool) (connected : result P2pError unit) (now : Z)
  (t : Turn).

(** The lane at its start. *)
Definition new_lane (last : BlockRef) (frames : list BlockFrame) (window : list BlockRef) : P2pLiveState :=
  MkLive last frames window ancestry_empty 0 (HeadPollRotation.new (retry_backoff (lane_config c))) None None None false
    false (bool_decide (request_minimum_finality (lane_request c) = Unattested)) [] no_votes no_votes None None false.

(** What a start stands for: the anchor, the overlap and the retained suffix. *)
Definition start_anchor (start : LiveStart) : result SubscribeError (BlockRef * Z * option (list BlockRef)) :=
  match start with
  | StartBlock block => Ok (block, 0, None)
  | StartOverlap anchor overlap_blocks =>
      if (overlap_blocks =? 0) || (MAX_FIXED_RANGE_BLOCKS <? overlap_blocks)
      then Err (Refused (InvalidPlan ("anchored live overlap must be in 1..=" +:+ pretty MAX_FIXED_RANGE_BLOCKS)))
      else Ok (anchor, overlap_blocks, None)
  | StartRetained canonical =>
      if validate_retained_canonical canonical (max_reorg_depth (lane_config c)) then
        match last canonical with
        | Some tip => Ok (tip, 0, Some canonical)
        | None => Err (Refused (InvalidPlan "retained live suffix"))
        end
      else Err (Refused (InvalidPlan "retained live suffix"))
  | StartCursor cursor =>
      if negb (source_chain_id cursor =? desc_chain_id desc) || negb (bool_decide (source_cursor_id cursor = desc_id desc))
      then Err (Refused (InvalidPlan "live cursor belongs to another source or chain"))
      else Ok (MkBlockRef (source_block_number cursor) (source_block_hash cursor) hash_zero now, 0, None)
  | StartHead =>
      Err (Refused (InvalidPlan "Reth P2P live ingestion requires an explicit consensus-anchored start block"))
  end.

(** The lane that first replays the blocks up to its anchor. *)
Definition overlap_lane (anchor : BlockRef) (overlap_blocks : Z) : result SubscribeError P2pLiveState :=
  range ← map_err (λ _, Refused (InvalidPlan "block range"))
    (BlockRange.new (sat_sub (ref_number anchor) (sat_sub overlap_blocks 1)) (ref_number anchor));
  if max_frames (lane_budget c) <? BlockRange.len range
  then Err (BudgetExceeded "frames" (max_frames (lane_budget c)) (BlockRange.len range))
  else
    frames ← map_err FetchFailed
      (_ ← connected; fetch_requested_live_range c t range (Some (MkExpectedTip (ref_hash anchor) VerifiedExpectation)));
    match head frames, last frames with
    | Some first, Some fetched =>
        if negb (ref_number (frame_block fetched) =? ref_number anchor)
           || negb (bool_decide (ref_hash (frame_block fetched) = ref_hash anchor))
        then Err (ProtocolError "anchored overlap did not end at the verified execution anchor")
        else
          let predecessor := MkBlockRef (sat_sub (ref_number (frame_block first)) 1) (ref_parent_hash (frame_block first))
            hash_zero (sat_sub (ref_timestamp (frame_block first)) 1) in
          Ok (new_lane predecessor frames [predecessor])
    | _, _ => Err (ProtocolError "anchored overlap returned no frames")
    end.

(** [connected] is what connecting and waiting for the peers' head end with;
    [t] what the peers reply to the request of an overlap. *)
Definition subscribe (start : LiveStart) : result SubscribeError P2pLiveState :=
  _ ← map_err Refused (validate_budget (lane_budget c));
  if negb (request_chain_id (lane_request c) =? desc_chain_id desc)
  then Err (Refused (InvalidPlan "live request belongs to another chain"))
  else if negb (CapabilitySet.contains_all (CapabilitySet.with_derivable (complete_capabilities desc)) (required (lane_request c)))
  then Err (Refused (InvalidPlan "execution P2P live source lacks requested capabilities"))
  else if negb (supports (desc_finality desc) (request_minimum_finality (lane_request c)))
  then Err (Refused (InvalidPlan "execution P2P live source lacks requested finality"))
  else if negb publishes_heads
  then Err (Refused (InvalidPlan "execution P2P live ingestion follows sync-committee-attested heads, but no verified finality source publishes them"))
  else
    '(anchor, overlap_blocks, retained) ← start_anchor start;
    match retained with
    | Some window => _ ← map_err FetchFailed connected; Ok (new_lane anchor [] window)
    | None =>
        if overlap_blocks =? 0 then _ ← map_err FetchFailed connected; Ok (new_lane anchor [] [anchor])
        else overlap_lane anchor overlap_blocks
    end.

End subscribe.

(** The turns of a lane, one after the other: the state left, if none of them
    ended the stream, and the events emitted. *)
Fixpoint run_lane (c : LaneConfig) (s : P2pLiveState) (turns : list Turn) : option P2pLiveState * list ChainEvent :=
  match turns with
  | [] => (Some s, [])
  | t :: turns =>
      match live_turn c t s with
      | (s, Again) => run_lane c s turns
      | (s, Emit event) => let '(s, events) := run_lane c s turns in (s, event :: events)
      | (_, Failed _) | (_, Ended) => (None, [])
      end
  end.

Definition is_reorg (o : Outcome) : bool := match o with Emit (EventReorg _ _) => true | _ => false end.

Definition is_reset (event : ChainEvent) : bool := match event with EventReset _ _ => true | _ => false end.

(** No reorg is taken while frames wait in the queue. *)
Fixpoint clean (c : LaneConfig) (s : P2pLiveState) (turns : list Turn) : bool :=
  match turns with
  | [] => true
  | t :: turns =>
      let '(s', o) := live_turn c t s in
      negb (is_reorg o && negb (bool_decide (queued s = [])))
      && match o with Again | Emit _ => clean c s' turns | Failed _ | Ended => true end
  end.

(** ** What a consumer of the events holds

    The chain of delivered blocks, oldest first. A consumer takes a block
    that continues its tip, takes back blocks tip first, and is told that a
    block it holds is attested; anything else it refuses. *)

Definition extend_chain (chain : list BlockRef) (b : BlockRef) : option (list BlockRef) :=
  tip ← last chain;
  if (ref_number b =? ref_number tip + 1) && bool_decide (ref_parent_hash b = ref_hash tip)
  then Some (chain ++ [b]) else None.

Definition take_back (chain : list BlockRef) (b : BlockRef) : option (list BlockRef) :=
  tip ← last chain;
  if bool_decide (b = tip) then Some (List.firstn (length chain - 1) chain) else None.

Fixpoint fold_option {A B} (f : B → A → option B) (b : B) (xs : list A) : option B :=
  match xs with
  | [] => Some b
  | x :: xs => b ← f b x; fold_option f b xs
  end.

Definition follow (chain : list BlockRef) (event : ChainEvent) : option (list BlockRef) :=
  match event with
  | EventBlock frame => extend_chain chain (frame_block frame)
  | EventReorg reverted applied =>
      kept ← fold_option take_back chain reverted;
      fold_option extend_chain kept (frame_block <$> applied)
  | EventAttested through => if bool_decide (through ∈ chain) then Some chain else None
  | EventDisconnected _ | EventReset _ _ => Some chain
  end.

Lemma extend_chain_run chain tip bs :
  last chain = Some tip → extends tip bs → fold_option extend_chain chain bs = Some (chain ++ bs).
Proof.
  revert chain tip. induction bs as [|b bs IH]; intros chain tip Hlast; [by rewrite app_nil_r|].
  intros (Hn & Hp & Hbs). cbn [fold_option].
  assert (extend_chain chain b = Some (chain ++ [b])) as ->.
  { unfold extend_chain. rewrite Hlast. cbn. by rewrite Hn, Z.eqb_refl, bool_decide_true. }
  cbn. rewrite (IH (chain ++ [b]) b); [|apply last_snoc|done].
  by rewrite <-app_assoc.
Qed.

Lemma take_back_run kept bs : fold_option take_back (kept ++ rev bs) bs = Some kept.
Proof.
  revert kept. induction bs as [|b bs IH]; intros kept; [cbn; by rewrite app_nil_r|].
  cbn [rev fold_option]. rewrite app_assoc.
  assert (take_back ((kept ++ rev bs) ++ [b]) b = Some (kept ++ rev bs)) as ->; [|apply IH].
  unfold take_back. rewrite last_snoc. cbn. rewrite bool_decide_true, length_app by done. cbn [length].
  replace (length (kept ++ rev bs) + 1 - 1)%nat with (length (kept ++ rev bs)) by lia.
  by rewrite List.firstn_app, Nat.sub_diag, List.firstn_all, app_nil_r.
Qed.

Lemma follow_reorg kept tip reverted applied :
  last kept = Some tip → extends tip (frame_block <$> applied) →
  follow (kept ++ rev reverted) (EventReorg reverted applied) = Some (kept ++ (frame_block <$> applied)).
Proof. intros Hlast Happ. cbn. rewrite take_back_run. cbn. by eapply extend_chain_run. Qed.

(** ** The invariant of a lane *)

Section invariant.
Context `{!AlloyHeaderLaws} (c : LaneConfig) (seen : AttestedHead → Prop) (base : list BlockRef).

(** An attested head the lane has seen descends from the hash. *)
Definition attests (hash : BlockHash) : Prop := ∃ head, seen head ∧ rtc parent_of (head_block_hash head) hash.

Lemma attests_parent (header : Header) : attests (hash_slow header) → attests (header_parent_hash header).
Proof. intros (head & Hs & Hr). exists head. split; [done|]. eapply rtc_r; [done|]. by exists header. Qed.

Lemma attests_ancestor a b : attests a → rtc parent_of a b → attests b.
Proof. intros (head & Hs & Hr) Hab. exists head. split; [done|]. by etrans. Qed.

Definition of_header (b : BlockRef) : Prop := ∃ header : Header, header_block_ref header = b.

(** A frame of a verified header. *)
Definition frame_ok (f : BlockFrame) : Prop :=
  of_header (frame_block f) ∧ (frame_finality f ≠ Unattested → attests (ref_hash (frame_block f))).

Definition suffix_of (xs chain : list BlockRef) : Prop := ∃ pre, chain = pre ++ xs.

Record lane_inv (chain : list BlockRef) (s : P2pLiveState) : Prop := {
  inv_linked : linked chain;
  inv_width b : b ∈ chain → 0 ≤ ref_number b < i64_max;
  inv_last : last chain = Some (lane_last s);
  inv_recent : suffix_of (recent s) chain;
  inv_held : recent s ≠ [];
  inv_tail : suffix_of (lane_tail s) chain;
  inv_queue : extends (lane_last s) (frame_block <$> queued s);
  inv_frames : Forall frame_ok (queued s);
  inv_kind :
    (lane_tail s = [] ∧ Forall (λ f, frame_finality f ≠ Unattested) (queued s))
    ∨ Forall (λ f, frame_finality f = Unattested) (queued s);
  inv_headers : Forall of_header (lane_tail s);
  inv_ancestry : ∃ number, chain_of number (ancestry_headers (ancestry s));
  inv_proven : Forall (λ h, attests (hash_slow h)) (ancestry_headers (ancestry s));
  inv_rungs : Forall (λ r, attests (head_block_hash r)) (rungs (ancestry s));
  inv_rung_numbers : Forall (λ r, 0 ≤ head_block_number r < i64_max) (rungs (ancestry s));
  inv_votes : counted (head_votes s);
  inv_child_votes : counted (child_votes s);
  inv_pending b : pending_attested s = Some b → b ∈ chain ∧ attests (ref_hash b);
  inv_settled b : b ∈ chain → b ∈ base ∨ b ∈ lane_tail s ∨ attests (ref_hash b);
}.

(** What a turn leaves, and what it reports. *)
Definition event_ok (s s' : P2pLiveState) (event : ChainEvent) : Prop :=
  match event with
  | EventBlock frame => frame_finality frame ≠ Unattested → attests (ref_hash (frame_block frame))
  | EventReorg reverted applied =>
      (∀ b, b ∈ reverted → b ∈ lane_tail s)
      ∨ attests (ref_hash (lane_last s')) ∧ (∀ f, f ∈ applied → attests (ref_hash (frame_block f)))
  | EventAttested through => attests (ref_hash through)
  | _ => True
  end.

Definition turn_post (chain : list BlockRef) (s s' : P2pLiveState) (o : Outcome) : Prop :=
  match o with
  | Again => lane_inv chain s'
  | Emit event =>
      event_ok s s' event ∧ ∃ chain', follow chain event = Some chain' ∧ if is_reset event then terminal s' = true else lane_inv chain' s'
  | Failed _ | Ended => True
  end.

(** The fields the invariant reads. *)
Definition same_lane (s s' : P2pLiveState) : Prop :=
  lane_last s' = lane_last s ∧ queued s' = queued s ∧ recent s' = recent s ∧ ancestry s' = ancestry s
  ∧ lane_tail s' = lane_tail s ∧ head_votes s' = head_votes s ∧ child_votes s' = child_votes s
  ∧ pending_attested s' = pending_attested s.

Lemma lane_inv_same chain s s' : same_lane s s' → lane_inv chain s → lane_inv chain s'.
Proof.
  intros (E1 & E2 & E3 & E4 & E5 & E6 & E7 & E8) [].
  split; rewrite ?E1, ?E2, ?E3, ?E4, ?E5, ?E6, ?E7, ?E8; done.
Qed.

Ltac same := split_and!; reflexivity.

Lemma turn_again chain s s' : same_lane s s' → lane_inv chain s → turn_post chain s s' Again.
Proof. apply lane_inv_same. Qed.

Lemma post_pause chain t s0 s s' o :
  lane_inv chain s → retry_pause t s = (s', o) → turn_post chain s0 s' o.
Proof. unfold retry_pause. intros Hs [= <- <-]. by destruct (turn_pause_cancelled t). Qed.

Lemma post_disconnect chain s0 reason s s' o :
  lane_inv chain s → report_disconnect reason s = (s', o) → turn_post chain s0 s' o.
Proof.
  unfold report_disconnect. intros Hs [= <- <-].
  assert (lane_inv chain (set_disconnect_reported s true)) by (eapply lane_inv_same; [|done]; same).
  destruct (disconnect_reported s); [done|]. split; [done|]. by exists chain.
Qed.

Lemma post_reconnect chain s0 reason s s' o :
  lane_inv chain s → reconnect_with reason s = (s', o) → turn_post chain s0 s' o.
Proof. intros Hs. apply post_disconnect. eapply lane_inv_same; [|done]. same. Qed.

(** ** Frames *)

Definition frames_of (headers : list Header) (frames : list BlockFrame) : Prop :=
  frame_block <$> frames = header_block_ref <$> headers ∧ Forall (λ f, frame_finality f = Attested) frames.

Lemma push_all_frames_of {A} y budget (frame_of : A → result P2pError BlockFrame) (header_of : A → Header) items frames :
  (∀ item frame, frame_of item = Ok frame →
    frame_block frame = header_block_ref (header_of item) ∧ frame_finality frame = Attested) →
  push_all y budget frame_of items = Ok frames → frames_of (header_of <$> items) frames.
Proof.
  intros Hof Hpush%push_all_frames. unfold frames_of. induction Hpush as [|item frame items frames Hframe _ [IH1 IH2]]; [done|].
  apply Hof in Hframe as [Hblock Hfinality]. cbn. split; [by f_equal|by constructor].
Qed.

Lemma live_material_length {A} (answer : Header → result P2pError A) headers material :
  live_material answer headers = Ok material → length material = length headers.
Proof.
  enough (∀ got, fold_result (λ material header, value ← answer header; Ok (material ++ [value])) got headers = Ok material →
    length material = (length got + length headers)%nat) as Hgen by apply (Hgen []).
  induction headers as [|header headers IH]; intros got; cbn [fold_result length].
  - intros [= ->]. lia.
  - intros (got' & (value & _ & [= <-])%result_bind_Ok & Hrest)%result_bind_Ok.
    rewrite (IH _ Hrest), length_app. cbn. lia.
Qed.

Lemma sparse_frame_of show chain_id now request receipts bodies header positive exact frame :
  sparse_frame show chain_id now request receipts bodies header positive exact = Ok frame →
  frame_block frame = header_block_ref header ∧ frame_finality frame = Attested.
Proof.
  assert (∀ verified logs frame, normalize_sparse_log_block show chain_id now header request verified logs = Ok frame →
    frame_block frame = header_block_ref header ∧ frame_finality frame = Attested) as Hlog.
  { intros verified logs f. unfold normalize_sparse_log_block. destruct (sparse_log_scope request); [|done].
    by intros (source_id & _ & [= <-])%result_bind_Ok. }
  unfold sparse_frame. destruct exact as [[position body_position]|]; [|apply Hlog].
  intros (block_receipts & _ & Hframe)%result_bind_Ok. destruct (with_hashes request).
  - apply result_bind_Ok in Hframe as (body & _ & Hframe). apply normalize_block_Ok in Hframe. tauto.
  - unfold normalize_sparse_receipt_log_block in Hframe. destruct (sparse_log_scope request); [|done].
    destruct (with_hashes request) in Hframe; [done|]. repeat apply result_bind_Ok in Hframe as (? & _ & Hframe).
    by eapply Hlog.
Qed.

(** Whatever a request needs, its frames are of the headers. *)
Lemma material_frames t headers frames :
  fetch_live_range_material c t headers = Ok frames → frames_of headers frames.
Proof.
  unfold fetch_live_range_material. destruct (header_only_request (lane_request c)).
  { intros Hframes. rewrite <-(list_fmap_id headers). eapply push_all_frames_of; [|exact Hframes].
    cbn. by intros header frame (source_id & _ & [= <-])%result_bind_Ok. }
  destruct (header_and_body_only_request (lane_request c)).
  { unfold fetch_live_body_frames, normalize_verified_bodies. intros (bodies & Hbodies & Hframes)%result_bind_Ok.
    apply live_material_length in Hbodies. apply result_bind_Ok in Hframes as (_ & _ & Hframes).
    rewrite <-(fst_zip headers bodies) by lia. eapply push_all_frames_of; [|exact Hframes].
    intros [header body] frame. cbn. unfold normalize_body.
    intros (txs & _ & (source_id & _ & [= <-])%result_bind_Ok)%result_bind_Ok. done. }
  destruct (_ && _).
  { unfold fetch_sparse_live_frames. destruct (sparse_log_scope (lane_request c)) as [scope|]; [|done].
    intros (receipts & _ & Hframes)%result_bind_Ok. unfold normalize_sparse_log_frames in Hframes.
    assert (snd <$> imap pair headers = headers) as <-.
    { rewrite fmap_imap. etrans; [apply (imap_const id)|apply list_fmap_id]. }
    eapply push_all_frames_of; [|exact Hframes]. intros item frame. apply sparse_frame_of. }
  unfold fetch_verified_material. intros (bodies & Hbodies & Hframes)%result_bind_Ok.
  apply result_bind_Ok in Hframes as (receipts & Hreceipts & Hframes). apply result_bind_Ok in Hframes as (_ & _ & Hframes).
  apply live_material_length in Hbodies. apply live_material_length in Hreceipts.
  assert (headers = fst <$> (fst <$> zip (zip headers bodies) receipts)) as Heq.
  { rewrite (fst_zip (zip headers bodies)) by (rewrite length_zip_with; lia). by rewrite fst_zip by lia. }
  rewrite Heq. rewrite <-list_fmap_compose. eapply push_all_frames_of; [|exact Hframes].
  intros [[header body] block_receipts] frame Hframe. apply normalize_block_Ok in Hframe. cbn in *. tauto.
Qed.

Context (t : Turn).

(** The frames of a linked chain of attested headers. *)
Lemma frames_ok headers frames :
  frames_of headers frames → (∀ h, h ∈ headers → attests (hash_slow h)) → Forall frame_ok frames.
Proof.
  intros [Hblocks _] Hattests. apply Forall_forall. intros f Hf.
  assert (frame_block f ∈ header_block_ref <$> headers) as Hin by (rewrite <-Hblocks; by apply list_elem_of_fmap_2).
  apply list_elem_of_fmap_1 in Hin as (h & Hb & Hh). split; [by exists h|]. intros _. rewrite Hb. by apply Hattests.
Qed.

Lemma frame_for_header_Ok header frame :
  frame_for_header c t header = Ok (Some frame) →
  frame_block frame = header_block_ref header ∧ frame_finality frame = Attested.
Proof.
  unfold frame_for_header. intros (frames & Hm & [= Hlast])%result_bind_Ok.
  apply material_frames in Hm as [Hb Hf].
  destruct frames as [|f [|g fs]]; [done| |done]. injection Hlast as ->. cbn in Hb. injection Hb as Hb.
  split; [done|]. by inversion Hf.
Qed.

Lemma fetch_requested_live_range_Ok range tip frames :
  BlockRange.valid range → range_end range < i64_max →
  fetch_requested_live_range c t range (Some tip) = Ok frames → frames ≠ [] →
  ∃ headers h, range_chain range headers ∧ frames_of headers frames ∧ last headers = Some h ∧ hash_slow h = tip_hash tip.
Proof.
  intros Hvalid Hend Hfetch Hne. unfold fetch_requested_live_range in Hfetch.
  apply result_bind_Ok in Hfetch as ([serve headers] & Hreply & Hm).
  destruct (fetch_live_headers_from_untried_peers _ _ _ _ _ _) as [[r v] o] eqn:Hf. cbn in Hreply. subst o.
  apply fetch_live_headers_Ok in Hf as [Hc Ht]; [|done|uints].
  apply material_frames in Hm as Hof. exists headers.
  destruct (last headers) as [h|] eqn:Hlast.
  - exists h. split; [done|]. split; [done|]. split; [done|]. by apply (Ht tip).
  - apply last_None in Hlast. subst headers. destruct Hof as [Hb _]. by destruct frames.
Qed.

Lemma fetch_descending_headers_Ok number hash replies e headers :
  fetch_descending_headers t number hash replies e = Ok headers →
  validate_descending_headers number hash headers = Ok tt.
Proof.
  revert e. induction replies as [|reply replies IH]; intros e; [done|]. cbn [fetch_descending_headers].
  destruct (_ ← reply; _) as [hs|e'] eqn:Hreply.
  - intros [= ->]. apply result_bind_Ok in Hreply as (hs' & _ & Hv). apply result_bind_Ok in Hv as ([] & Hv & [= ->]). done.
  - destruct (turn_pause_cancelled t); [done|]. apply IH.
Qed.

(** ** Reorgs *)

(** What a reconstructed reorg is, on a lane that holds [chain]. *)
Record reorg_ok (chain : list BlockRef) (s : P2pLiveState) (hash : BlockHash) (kept : list BlockRef)
    (ancestor : BlockRef) (reverted : list BlockRef) (applied : list BlockFrame) : Prop := {
  reorg_chain : chain = (kept ++ [ancestor]) ++ rev reverted;
  reorg_recent : ∃ pre, recent s = (pre ++ [ancestor]) ++ rev reverted;
  reorg_some : reverted ≠ [];
  reorg_extends : extends ancestor (frame_block <$> applied);
  reorg_ancestor : rtc parent_of hash (ref_hash ancestor);
  reorg_applied f : f ∈ applied →
    of_header (frame_block f) ∧ rtc parent_of hash (ref_hash (frame_block f)) ∧ frame_finality f = Attested;
}.

Lemma plan_on_lane chain s number hash descending ancestor reverted :
  lane_inv chain s → validate_descending_headers number hash descending = Ok tt →
  plan_reorg (recent s) descending = Ok (ancestor, reverted) →
  ∃ kept, chain = (kept ++ [ancestor]) ++ rev reverted ∧ (∃ pre, recent s = (pre ++ [ancestor]) ++ rev reverted)
  ∧ reverted ≠ [] ∧ rtc parent_of hash (ref_hash ancestor) ∧ 0 ≤ number < i64_max.
Proof.
  intros Hinv Hv Hplan. destruct (inv_recent _ _ Hinv) as (before & Hchain).
  assert (linked (recent s)) as Hlinked by (pose proof (inv_linked _ _ Hinv) as Hl; rewrite Hchain in Hl; by apply linked_app_r in Hl).
  apply plan_reorg_Ok in Hplan as (pre & Hrecent & Hne & header & Hin & Hn & Hh); [|done].
  apply validate_descending_headers_Ok in Hv as (Hl & first & Hfirst & Hhash & Hnumber).
  exists (before ++ pre). rewrite Hchain, Hrecent, <-!app_assoc. split; [done|]. split; [by exists pre; rewrite <-app_assoc|].
  split; [done|]. destruct descending as [|x ds]; [done|]. injection Hfirst as ->. split.
  - rewrite <-Hh, <-Hhash. apply (linked_ancestors (rev (first :: ds))); [done|apply last_snoc|].
    by apply list_elem_of_In, List.in_rev; rewrite rev_involutive; apply list_elem_of_In.
  - rewrite <-Hnumber. apply header_number_range.
Qed.

Lemma fetch_reorg_branch_Ok ancestor number hash evidence applied :
  0 ≤ ref_number ancestor < i64_max → 0 ≤ number < i64_max →
  fetch_reorg_branch c t ancestor number hash evidence = Ok applied →
  extends ancestor (frame_block <$> applied)
  ∧ ∀ f, f ∈ applied → of_header (frame_block f) ∧ rtc parent_of hash (ref_hash (frame_block f)) ∧ frame_finality f = Attested.
Proof.
  intros Ha Hn. unfold fetch_reorg_branch. destruct (Z.eqb_spec (ref_number ancestor) number) as [|Hne].
  { intros [= <-]. split; [done|]. intros f Hf. by apply elem_of_nil in Hf. }
  intros (range & Hrange & Hrest)%result_bind_Ok.
  destruct (BlockRange.new _ number) as [r|] eqn:Hnew; [|done]. injection Hrange as <-.
  assert (sat_add (ref_number ancestor) 1 = ref_number ancestor + 1) as Hsat by uints.
  apply BlockRange.new_Ok in Hnew as [-> Hle]. rewrite Hsat in *.
  destruct (MAX_FIXED_RANGE_BLOCKS <? _); [done|].
  apply result_bind_Ok in Hrest as (frames & Hfetch & Hjoin).
  destruct (is_some_and (head frames) _) eqn:Hfirst; [|done]. injection Hjoin as <-.
  apply fetch_requested_live_range_Ok in Hfetch as (headers & h & [Hc Hlen] & [Hblocks Hfinal] & Hlast & Hhash);
    [|unfold BlockRange.valid; cbn; uints|cbn; lia|by destruct frames].
  cbn [range_start] in Hc. split.
  - rewrite Hblocks. destruct headers as [|x headers]; [done|]. destruct frames as [|f frames]; [done|].
    cbn in Hfirst. apply bool_decide_eq_true in Hfirst. cbn in Hblocks. injection Hblocks as Hb _. rewrite Hb in Hfirst.
    destruct Hc as [Hl Hf]. specialize (Hf x eq_refl). split_and!; [cbn; lia|done|exact Hl].
  - intros f Hf. assert (frame_block f ∈ header_block_ref <$> headers) as Hin
      by (rewrite <-Hblocks; by apply list_elem_of_fmap_2).
    apply list_elem_of_fmap_1 in Hin as (y & Hb & Hy). split; [by exists y|]. split.
    + rewrite Hb. cbn. change hash with (tip_hash (MkExpectedTip hash evidence)). rewrite <-Hhash.
      by eapply chain_ancestors.
    + rewrite Forall_forall in Hfinal. by apply Hfinal.
Qed.

Lemma reconstruct_reorg_ok chain s number hash evidence reverted applied new_tip :
  lane_inv chain s → reconstruct_reorg c t s number hash evidence = Ok (reverted, applied, new_tip) →
  ∃ kept ancestor, reorg_ok chain s hash kept ancestor reverted applied ∧ new_tip = new_tip_of ancestor applied.
Proof.
  intros Hinv. unfold reconstruct_reorg. intros (descending & Hd & Hrest)%result_bind_Ok.
  apply fetch_descending_headers_Ok in Hd.
  apply result_bind_Ok in Hrest as ([ancestor rev'] & Hplan & Hrest).
  apply result_bind_Ok in Hrest as (frames & Hfetch & [= -> -> <-]).
  pose proof (plan_on_lane _ _ _ _ _ _ _ Hinv Hd Hplan) as (kept & Hchain & Hrecent & Hne & Hr & Hn).
  apply fetch_reorg_branch_Ok in Hfetch as [Hext Happ]; [|apply (inv_width _ _ Hinv); rewrite Hchain; set_solver|done].
  exists kept, ancestor. by split.
Qed.

(** A tail that ends where the chain does, over a chain whose tip an attested
    head descends to, is attested whole. *)
Lemma tail_attested chain tail tip :
  linked chain → suffix_of tail chain → last chain = Some tip → Forall of_header tail →
  attests (ref_hash tip) → ∀ b, b ∈ tail → attests (ref_hash b).
Proof.
  intros Hl [pre ->]. revert tip. induction tail as [|x tail IH] using rev_ind; intros tip; [set_solver|].
  rewrite app_assoc in Hl |- *. rewrite last_snoc. intros [= ->] Hh Htip b Hb.
  apply Forall_app in Hh as [Hh [[header Hheader] _]%Forall_cons].
  apply elem_of_app in Hb as [Hb|Hb]; [|by apply list_elem_of_singleton in Hb as ->].
  destruct tail as [|y tail] using rev_ind; [by apply elem_of_nil in Hb|]. clear IHtail.
  rewrite app_assoc in Hl, IH. apply (IH (linked_app_l _ _ Hl) y); [apply last_snoc|done| |done].
  rewrite <-app_assoc in Hl. apply linked_app_r in Hl. destruct Hl as (_ & Hp & _).
  rewrite <-Hp, <-Hheader. apply attests_parent. by rewrite <-Hheader in Htip.
Qed.

Lemma linked_NoDup chain : linked chain → NoDup chain.
Proof.
  induction chain as [|x chain IH]; intros Hl; [constructor|]. constructor; [|by apply IH, (extends_linked x)].
  intros Hx. pose proof (extends_number _ _ _ Hl Hx). lia.
Qed.

Lemma elem_of_rev {A} (x : A) xs : x ∈ rev xs ↔ x ∈ xs.
Proof. rewrite !list_elem_of_In. symmetry. apply List.in_rev. Qed.

(** Of a tail, the blocks a reorg does not revert end the kept chain. *)
Lemma remove_suffix kept reverted tail :
  NoDup (kept ++ rev reverted) → suffix_of tail (kept ++ rev reverted) →
  suffix_of (UnattestedTail.remove tail reverted) kept
  ∧ ∀ b, b ∈ kept → b ∈ tail → b ∈ UnattestedTail.remove tail reverted.
Proof.
  intros Hnodup Hsuffix. split.
  - destruct Hsuffix as [pre Heq]. unfold UnattestedTail.remove.
    exists (List.filter (λ b, negb (bool_decide (b ∈ reverted))) pre).
    rewrite <-List.filter_app, <-Heq, List.filter_app.
    apply NoDup_app in Hnodup as (_ & Hdisj & _).
    assert (List.filter (λ b, negb (bool_decide (b ∈ reverted))) (rev reverted) = []) as ->.
    { clear. assert (∀ xs, (∀ x, x ∈ xs → x ∈ reverted) →
        List.filter (λ b, negb (bool_decide (b ∈ reverted))) xs = []) as Hf; [|apply Hf; intros x; by rewrite elem_of_rev].
      induction xs as [|x xs IH]; intros Hx; [done|]. cbn. rewrite bool_decide_true by set_solver. apply IH. set_solver. }
    rewrite app_nil_r. clear Heq. induction kept as [|x kept IH]; [done|]. cbn.
    rewrite bool_decide_false by (rewrite <-elem_of_rev; apply Hdisj; set_solver). cbn. f_equal. apply IH. set_solver.
  - intros b Hk Ht. unfold UnattestedTail.remove. apply list_elem_of_In, List.filter_In. split; [by apply list_elem_of_In|].
    rewrite bool_decide_false; [done|]. rewrite <-elem_of_rev. apply NoDup_app in Hnodup as (_ & Hdisj & _). by apply Hdisj.
Qed.

Lemma remove_in tail reverted b : b ∈ UnattestedTail.remove tail reverted → b ∈ tail.
Proof. unfold UnattestedTail.remove. intros Hb. apply list_elem_of_In, List.filter_In in Hb as [Hb _]. by apply list_elem_of_In. Qed.

Lemma pop_reverted_app pre reverted : pop_reverted (pre ++ rev reverted) reverted = pre.
Proof.
  unfold pop_reverted. rewrite length_app, length_rev.
  replace (length pre + length reverted - length reverted)%nat with (length pre) by lia.
  by rewrite List.firstn_app, Nat.sub_diag, List.firstn_all, app_nil_r.
Qed.

Lemma new_tip_last kept ancestor applied :
  last ((kept ++ [ancestor]) ++ (frame_block <$> applied)) = Some (new_tip_of ancestor applied).
Proof.
  unfold new_tip_of. destruct applied as [|f fs _] using rev_ind; [rewrite app_nil_r; apply last_snoc|].
  rewrite fmap_app. cbn. rewrite app_assoc, !last_snoc. done.
Qed.

(** The chain, its tip and its window after a branch was taken. *)
Lemma adopted_chain chain s hash kept ancestor reverted applied :
  lane_inv chain s → reorg_ok chain s hash kept ancestor reverted applied →
  let chain' := (kept ++ [ancestor]) ++ (frame_block <$> applied) in
  linked chain' ∧ (∀ b, b ∈ chain' → 0 ≤ ref_number b < i64_max)
  ∧ last chain' = Some (new_tip_of ancestor applied)
  ∧ suffix_of (pop_reverted (recent s) reverted ++ (frame_block <$> applied)) chain'
  ∧ pop_reverted (recent s) reverted ++ (frame_block <$> applied) ≠ [].
Proof.
  intros Hinv [Hchain (pre & Hrecent) Hne Hext Hanc Happ]. cbn zeta.
  pose proof (inv_linked _ _ Hinv) as Hlinked. rewrite Hchain in Hlinked. split_and!.
  - eapply linked_app; [apply last_snoc|by eapply linked_app_l|done].
  - intros b [Hb|Hb]%elem_of_app.
    + apply (inv_width _ _ Hinv). rewrite Hchain. set_solver.
    + apply list_elem_of_fmap_1 in Hb as (f & -> & Hf). destruct (Happ f Hf) as ([h <-] & _). apply header_number_range.
  - apply new_tip_last.
  - rewrite Hrecent, pop_reverted_app. destruct (inv_recent _ _ Hinv) as [before Hb]. rewrite Hchain, Hrecent in Hb.
    rewrite app_assoc in Hb. apply app_inj_2 in Hb as [Hb _]; [|done]. exists before. by rewrite Hb, <-app_assoc.
  - rewrite Hrecent, pop_reverted_app. by destruct pre.
Qed.

Lemma chain_of_nil number : chain_of number [].
Proof. by split. Qed.

(** The blocks a verified reorg keeps below its branch are attested. *)
Lemma kept_attested chain s hash kept ancestor reverted applied :
  lane_inv chain s → reorg_ok chain s hash kept ancestor reverted applied → attests hash →
  suffix_of (UnattestedTail.remove (lane_tail s) reverted) (kept ++ [ancestor])
  ∧ (∀ b, b ∈ UnattestedTail.remove (lane_tail s) reverted → attests (ref_hash b))
  ∧ ∀ b, b ∈ kept ++ [ancestor] → b ∈ base ∨ attests (ref_hash b).
Proof.
  intros Hinv [Hchain _ Hne Hext Hanc Happ] Hhash.
  pose proof (inv_linked _ _ Hinv) as Hl. pose proof (inv_tail _ _ Hinv) as Ht. rewrite Hchain in Hl, Ht.
  destruct (remove_suffix _ reverted (lane_tail s) (linked_NoDup _ Hl) Ht) as [Hsuffix Hremove].
  assert (∀ b, b ∈ UnattestedTail.remove (lane_tail s) reverted → attests (ref_hash b)) as Hatt.
  { apply (tail_attested (kept ++ [ancestor]) _ ancestor); [by eapply linked_app_l|done|apply last_snoc| |].
    - apply Forall_forall. intros b Hb%remove_in. pose proof (inv_headers _ _ Hinv) as Hh. rewrite Forall_forall in Hh. by apply Hh.
    - by eapply attests_ancestor. }
  split; [done|]. split; [done|]. intros b Hb.
  destruct (inv_settled _ _ Hinv b) as [|[Htail|]]; [rewrite Hchain; set_solver|by left| |by right].
  right. by apply Hatt, Hremove.
Qed.

Lemma post_adopt chain s hash kept ancestor reverted applied s' event :
  lane_inv chain s → queued s = [] → reorg_ok chain s hash kept ancestor reverted applied → attests hash →
  adopt_reorg s reverted applied (new_tip_of ancestor applied) VerifiedExpectation = (s', event) →
  turn_post chain s s' (Emit event).
Proof.
  intros Hinv Hq Hok Hhash. unfold adopt_reorg. intros [= <- <-].
  destruct (kept_attested _ _ _ _ _ _ _ Hinv Hok Hhash) as (Hsuffix & Hatt & Hkept).
  destruct (adopted_chain _ _ _ _ _ _ _ Hinv Hok) as (Hlinked & Hwidth & Hlast & Hrecent & Hheld).
  pose proof Hok as [Hchain _ _ Hext _ Happ].
  assert (∀ f, f ∈ applied → attests (ref_hash (frame_block f))) as Hframes.
  { intros f Hf. destruct (Happ f Hf) as (_ & Hr & _). by eapply attests_ancestor. }
  split.
  { right. split; [|done]. cbn. unfold new_tip_of. destruct (last applied) as [f|] eqn:Hf.
    - by apply Hframes, last_Some_elem_of.
    - by eapply attests_ancestor; [|apply Hok]. }
  exists ((kept ++ [ancestor]) ++ (frame_block <$> applied)). split.
  { rewrite Hchain. eapply follow_reorg; [apply last_snoc|done]. }
  split; cbn; try done.
  - by exists ((kept ++ [ancestor]) ++ (frame_block <$> applied)); rewrite app_nil_r.
  - by rewrite Hq.
  - by rewrite Hq.
  - right. by rewrite Hq.
  - exists 0. apply chain_of_nil.
  - apply (inv_votes _ _ Hinv).
  - apply (inv_child_votes _ _ Hinv).
  - intros b Hb. unfold UnattestedTail.newest in Hb. apply last_Some_elem_of in Hb. split; [|by apply Hatt].
    destruct Hsuffix as [pre Hpre]. rewrite Hpre. set_solver.
  - intros b [Hb|Hb]%elem_of_app; [destruct (Hkept b Hb); auto|].
    apply list_elem_of_fmap_1 in Hb as (f & -> & Hf). right. right. by apply Hframes.
Qed.

(** The reorg a mismatching frame reveals. *)
Lemma post_reconstruct chain s mismatching s' o :
  lane_inv chain s → queued s = [] → attests (ref_parent_hash mismatching) →
  reconstruct_reorg_event c t s mismatching VerifiedExpectation = (s', o) → turn_post chain s s' o.
Proof.
  intros Hinv Hq Hatt. unfold reconstruct_reorg_event, reorg_reconstruction_tip.
  destruct (reconstruct_reorg c t s (ref_number (lane_last s)) (ref_parent_hash mismatching) VerifiedExpectation)
    as [[[reverted applied] new_tip]|e] eqn:Hr.
  - destruct (adopt_reorg s reverted applied new_tip VerifiedExpectation) as [s1 event] eqn:Ha. intros [= <- <-].
    apply (reconstruct_reorg_ok chain) in Hr as (kept & ancestor & Hok & ->); [|done]. by eapply post_adopt.
  - destruct (reorg_failure e VerifiedExpectation (disconnect_reported s)) as [failure reported].
    assert (lane_inv chain (set_disconnect_reported s reported)) by (eapply lane_inv_same; [|done]; same).
    destruct failure; intros [= <- <-]; [|split; [done|by exists chain]|done].
    split; [done|]. by exists chain.
Qed.

(** ** Steps *)

Lemma post_reconnect_step chain s0 reason s s' o :
  lane_inv chain s → step_reconnect c t reason s = (s', o) → turn_post chain s0 s' o.
Proof.
  unfold step_reconnect. intros Hs. destruct (reconnect_attempts c t reason 1 (turn_connects t)) as [|e].
  - intros [= <- <-]. eapply lane_inv_same; [|done]. same.
  - by destruct e; intros [= <- <-].
Qed.

Lemma post_pending chain s through :
  lane_inv chain s → pending_attested s = Some through →
  turn_post chain s (set_pending_attested s None) (Emit (EventAttested through)).
Proof.
  intros Hs Hp. destruct (inv_pending _ _ Hs through Hp) as [Hin Hatt]. split; [done|]. exists chain.
  split; [cbn; by rewrite bool_decide_true|]. destruct Hs. by split.
Qed.

(** A confirmed head: what is left of the tail, and what left it. *)
Lemma confirm_through_split tail number :
  ∃ confirmed, tail = confirmed ++ UnattestedTail.confirm_through tail number
  ∧ ∀ b, b ∈ confirmed → ref_number b ≤ number.
Proof.
  induction tail as [|x tail (confirmed & Heq & Hall)]; [exists []; split; [done|]; intros b Hb; by apply elem_of_nil in Hb|].
  cbn. destruct (Z.leb_spec (ref_number x) number).
  - exists (x :: confirmed). split; [cbn; by f_equal|]. intros b [->|Hb]%elem_of_cons; [done|by apply Hall].
  - exists []. split; [done|]. intros b Hb. by apply elem_of_nil in Hb.
Qed.

Lemma suffix_trans {xs ys zs} : suffix_of xs ys → suffix_of ys zs → suffix_of xs zs.
Proof. intros [p ->] [q ->]. exists (q ++ p). by rewrite app_assoc. Qed.

Lemma suffix_in xs chain b : suffix_of xs chain → b ∈ xs → b ∈ chain.
Proof. intros [pre ->]. set_solver. Qed.

Lemma suffix_shorter {xs ys chain} :
  suffix_of xs chain → suffix_of ys chain → (length ys ≤ length xs)%nat → suffix_of ys xs.
Proof.
  intros [p ->] [q Hq] Hlen. assert (length p ≤ length q)%nat as Hp by (apply (f_equal length) in Hq; rewrite !length_app in Hq; lia).
  exists (drop (length p) q). apply (f_equal (drop (length p))) in Hq. rewrite drop_app_length in Hq. rewrite Hq.
  by rewrite drop_app_le.
Qed.

(** A block of a linked chain is attested when a later one is. *)
Lemma below_attested chain tail b tip :
  linked chain → suffix_of tail chain → Forall of_header tail → tip ∈ tail → attests (ref_hash tip) →
  b ∈ tail → ref_number b ≤ ref_number tip → attests (ref_hash b).
Proof.
  intros Hl Hsuffix Hh Htip Hatt Hb Hle. apply list_elem_of_split in Htip as (t1 & t2 & ->).
  destruct Hsuffix as [pre ->].
  apply elem_of_app in Hb as [Hb|[->|Hb]%elem_of_cons]; [|done|].
  - replace (pre ++ t1 ++ tip :: t2) with (((pre ++ t1) ++ [tip]) ++ t2) in Hl by (by rewrite <-!app_assoc).
    apply (tail_attested ((pre ++ t1) ++ [tip]) (t1 ++ [tip]) tip); [by eapply linked_app_l| |apply last_snoc| |done|set_solver].
    + exists pre. by rewrite app_assoc.
    + replace (t1 ++ tip :: t2) with ((t1 ++ [tip]) ++ t2) in Hh by (by rewrite <-app_assoc). by apply Forall_app in Hh as [? _].
  - rewrite app_assoc in Hl. apply linked_app_r in Hl. pose proof (extends_number _ _ _ Hl Hb). lia.
Qed.

Lemma post_confirm chain s head through :
  lane_inv chain s → seen head → UnattestedTail.attestation (lane_tail s) head = Confirm through →
  turn_post chain s (set_lane_tail s (UnattestedTail.confirm_through (lane_tail s) (ref_number through)))
    (Emit (EventAttested through)).
Proof.
  intros Hinv Hseen. unfold UnattestedTail.attestation. destruct (List.find _ _) as [b|] eqn:Hfind; [|done].
  case_bool_decide as Hhash; [|done]. intros [= ->]. apply List.find_some in Hfind as [Hin%list_elem_of_In Hn%Z.eqb_eq].
  assert (attests (ref_hash through)) as Hatt by (exists head; split; [done|]; rewrite Hhash; apply rtc_refl).
  pose proof (suffix_in _ _ _ (inv_tail _ _ Hinv) Hin) as Hchain.
  split; [done|]. exists chain. split; [cbn; by rewrite bool_decide_true|].
  destruct (confirm_through_split (lane_tail s) (ref_number through)) as (confirmed & Htail & Hbelow).
  assert (suffix_of (UnattestedTail.confirm_through (lane_tail s) (ref_number through)) (lane_tail s)) as Hsuffix
    by (by exists confirmed).
  pose proof Hinv as []. split; cbn; try done.
  - by eapply suffix_trans.
  - destruct inv_kind0 as [[Hnil _]|?]; [|by right]. rewrite Hnil in Hin. by apply elem_of_nil in Hin.
  - rewrite Htail in inv_headers0. by apply Forall_app in inv_headers0 as [_ ?].
  - intros b Hb. destruct (inv_settled0 b Hb) as [|[Hb'|]]; [by left| |by right; right].
    rewrite Htail in Hb'. apply elem_of_app in Hb' as [Hb'|]; [|by right; left]. right. right.
    apply (below_attested chain (lane_tail s) b through); try done; [rewrite Htail; set_solver|by apply Hbelow].
Qed.

Lemma post_expired chain s s' o reverted :
  lane_inv chain s → (is_reorg o = true → queued s = []) → pending_attested s = None →
  UnattestedTail.expired (lane_tail s) (turn_now t) = Some reverted →
  step_expired s reverted = (s', o) → turn_post chain s s' o.
Proof.
  intros Hinv Hq Hp Hexp. unfold UnattestedTail.expired in Hexp. apply bind_Some in Hexp as (oldest & _ & Hexp).
  destruct (_ <? _) in Hexp; [|done]. injection Hexp as <-.
  assert (∀ b, b ∈ rev (lane_tail s) → b ∈ lane_tail s) as Hrev by (intros b; by rewrite elem_of_rev).
  destruct (inv_recent _ _ Hinv) as [before Hb]. unfold step_expired. cbn.
  destruct (decide (length (lane_tail s) < length (recent s))%nat) as [Hlt|Hge].
  - destruct (suffix_shorter (inv_recent _ _ Hinv) (inv_tail _ _ Hinv) ltac:(lia)) as [r Hr].
    assert (pop_reverted (recent s) (rev (lane_tail s)) = r) as ->.
    { rewrite Hr. rewrite <-(rev_involutive (lane_tail s)) at 1. apply pop_reverted_app. }
    destruct (last r) as [tip|] eqn:Hlast; [|apply last_None in Hlast; subst r; rewrite Hr in Hlt; cbn in Hlt; lia].
    intros [= <- <-]. specialize (Hq eq_refl). split; [by left|]. exists (before ++ r).
    assert (chain = (before ++ r) ++ lane_tail s) as Hchain by (by rewrite Hb, Hr, app_assoc).
    assert (last (before ++ r) = Some tip) as Hl by (rewrite last_app, Hlast; done).
    split.
    { rewrite Hchain. rewrite <-(rev_involutive (lane_tail s)) at 1. etrans; [by apply (follow_reorg _ tip _ [])|]. cbn. by rewrite app_nil_r. }
    pose proof (linked_NoDup _ (inv_linked _ _ Hinv)) as Hnodup. pose proof Hinv as [].
    rewrite Hchain in inv_linked0, inv_width0, inv_settled0, Hnodup.
    split; cbn; rewrite ?Hq, ?Hp; try done.
    + by eapply linked_app_l.
    + intros b Hbin. apply inv_width0. set_solver.
    + by exists before.
    + by intros ->.
    + exists (before ++ r). by rewrite app_nil_r.
    + by left.
    + intros b Hbin. destruct (inv_settled0 b) as [|[Ht|]]; [set_solver|by left| |by right; right].
      apply NoDup_app in Hnodup as (_ & Hdisj & _). by destruct (Hdisj b Hbin).
  - assert (pop_reverted (recent s) (rev (lane_tail s)) = []) as ->.
    { unfold pop_reverted. rewrite length_rev. by replace (length (recent s) - length (lane_tail s))%nat with 0%nat by lia. }
    intros [= <- <-]. split; [done|]. by exists chain.
Qed.

Lemma trim_recent_suffix xs : suffix_of (trim_recent c xs) xs.
Proof. unfold trim_recent. eexists. symmetry. apply take_drop. Qed.

Lemma post_deliver chain s s' o frame rest :
  lane_inv chain s → queued s = frame :: rest → pending_attested s = None →
  step_deliver c s frame rest = (s', o) → turn_post chain s s' o.
Proof.
  intros Hinv Hq Hp. unfold step_deliver. intros [= <- <-]. pose proof Hinv as [].
  rewrite Hq in inv_queue0, inv_frames0, inv_kind0. destruct inv_queue0 as (Hn & Hparent & Hrest).
  apply Forall_cons in inv_frames0 as [[[header Hheader] Hatt] Hframes].
  split; [exact Hatt|]. exists (chain ++ [frame_block frame]). split.
  { cbn. unfold extend_chain. rewrite inv_last0. cbn. by rewrite Hn, Z.eqb_refl, bool_decide_true. }
  assert (suffix_of (if bool_decide (frame_finality frame = Unattested)
    then lane_tail s ++ [frame_block frame] else lane_tail s) (chain ++ [frame_block frame])) as Htail.
  { case_bool_decide as Hu.
    - destruct inv_tail0 as [pre ->]. exists pre. by rewrite app_assoc.
    - destruct inv_kind0 as [[-> _]|[Hf _]%Forall_cons]; [|done]. eexists. by rewrite app_nil_r. }
  case_bool_decide as Hu; split; cbn; rewrite ?Hp; try done.
  all: try (by eapply linked_snoc).
  all: try (intros b [Hb|Hb]%elem_of_app; [by apply inv_width0|apply list_elem_of_singleton in Hb as ->; rewrite <-Hheader; apply header_number_range]).
  all: try apply last_snoc.
  all: try (eapply suffix_trans; [apply trim_recent_suffix|destruct inv_recent0 as [pre ->]; exists pre; by rewrite app_assoc]).
  all: try (unfold trim_recent; intros Hnil%(f_equal length); rewrite length_drop, length_app in Hnil; cbn in Hnil; lia).
  - destruct inv_kind0 as [[_ [Hf _]%Forall_cons]|[_ Hf]%Forall_cons]; [done|by right].
  - apply Forall_app. split; [done|]. constructor; [by exists header|constructor].
  - intros b [Hb|Hb]%elem_of_app; [destruct (inv_settled0 b Hb) as [|[|]]; set_solver|]. right. left. set_solver.
  - destruct inv_kind0 as [[Ht [_ Hf]%Forall_cons]|[Hf _]%Forall_cons]; [by left|done].
  - intros b [Hb|Hb]%elem_of_app; [by apply inv_settled0|]. apply list_elem_of_singleton in Hb as ->. right. right. by apply Hatt.
Qed.

(** ** The poll of the unattested head *)

(** A frame that continues the tip, delivered unattested. *)
Definition next_frame (s : P2pLiveState) (f : BlockFrame) : Prop :=
  extends (lane_last s) [frame_block f] ∧ of_header (frame_block f) ∧ frame_finality f = Unattested.

Definition poll_post (chain : list BlockRef) (s s' : P2pLiveState) (r : result P2pError HeadPoll) : Prop :=
  match r with
  | Ok (PollReorg event) => event_ok s s' event ∧ is_reset event = false ∧ ∃ chain', follow chain event = Some chain' ∧ lane_inv chain' s'
  | Ok (Accepted f) => lane_inv chain s' ∧ queued s' = [] ∧ next_frame s' f
  | _ => lane_inv chain s'
  end.

(** A reply to a poll of single blocks, and the votes it leaves. *)
Lemma poll_votes show block rotation votes pool rotation' votes' r :
  0 ≤ block < u64_max → counted votes →
  fetch_live_headers_from_untried_peers show (BlockRange.single block) None rotation (Some votes) pool = (rotation', votes', r) →
  counted (default votes votes')
  ∧ ∀ serve headers, r = Ok (serve, headers) → ∃ header, headers = [header] ∧ header_number header = block.
Proof.
  intros Hb Hvotes Hfetch. unfold fetch_live_headers_from_untried_peers in Hfetch.
  apply take_replies_served in Hfetch as [Hcounted Hserved];
    [|unfold BlockRange.valid; cbn; uints|cbn; uints|by intros ? [= <-]].
  split; [destruct votes' as [v|]; [by apply Hcounted|done]|]. intros serve headers Hr.
  destruct (Hserved serve headers Hr) as (agreed & -> & Hn). by exists agreed.
Qed.

Lemma inv_set_votes chain s rotation votes :
  lane_inv chain s → counted votes → lane_inv chain (set_head_votes (set_head_poll s rotation) votes).
Proof. intros [] Hv. by split. Qed.

Lemma inv_set_child_votes chain s votes :
  lane_inv chain s → counted votes → lane_inv chain (set_child_votes s votes).
Proof. intros [] Hv. by split. Qed.

(** Parts of the poll keep the invariant and the chain. *)
Definition quiet {A} (m : eff P2pLiveState P2pError A) : Prop := ∀ chain s s' r,
  lane_inv chain s → m s = (s', r) →
  lane_inv chain s' ∧ lane_last s' = lane_last s ∧ queued s' = queued s ∧ lane_tail s' = lane_tail s
  ∧ pending_attested s' = pending_attested s.

Lemma quiet_lift {A} (r : result P2pError A) : quiet (lift r).
Proof. intros chain s s' r' Hs [= <- <-]. done. Qed.

Lemma quiet_gets {A} (f : P2pLiveState → A) : quiet (gets f).
Proof. intros chain s s' r' Hs [= <- <-]. done. Qed.

Lemma quiet_modify f : (∀ s, same_lane s (f s)) → quiet (modify f).
Proof.
  intros Hf chain s s' r' Hs [= <- <-]. split; [by eapply lane_inv_same|].
  destruct (Hf s) as (? & ? & _ & _ & ? & _ & _ & ?). done.
Qed.

Lemma quiet_bind {A B} (m : eff P2pLiveState P2pError A) (f : A → eff P2pLiveState P2pError B) :
  quiet m → (∀ a, quiet (f a)) → quiet (m ≫= f).
Proof.
  intros Hm Hf chain s s' r Hs. unfold mbind, eff_bind. destruct (m s) as [s1 [a|e]] eqn:Heq.
  - intros Hrun. destruct (Hm _ _ _ _ Hs Heq) as (Hinv1 & ? & ? & ? & ?).
    destruct (Hf a _ _ _ _ Hinv1 Hrun) as (? & ? & ? & ? & ?). split_and!; [done|congruence..].
  - intros [= <- <-]. by eapply Hm.
Qed.

Lemma quiet_if {A} (b : bool) (m1 m2 : eff P2pLiveState P2pError A) : quiet m1 → quiet m2 → quiet (if b then m1 else m2).
Proof. by destruct b. Qed.

Create HintDb quiet.
Hint Resolve quiet_lift quiet_gets quiet_bind quiet_if : quiet.

Lemma late_child_quiet header block : 0 ≤ block < i64_max → quiet (late_child c t header block).
Proof.
  intros Hb. unfold late_child. apply quiet_if; [apply quiet_lift|]. intros chain s s' r Hs.
  unfold poll_child_headers.
  destruct (fetch_live_headers_from_untried_peers _ _ _ _ _ _) as [[rot v] reply] eqn:Hfetch.
  assert (sat_add block 1 = block + 1) as Hsat by uints. rewrite Hsat in Hfetch.
  apply poll_votes in Hfetch as [Hv _]; [|uints|apply (inv_child_votes _ _ Hs)].
  pose proof (inv_set_child_votes _ _ _ Hs Hv) as Hs'.
  destruct reply as [[serve children]|e].
  - destruct (last children) as [child|]; [case_bool_decide|]; intros [= <- <-]; done.
  - destruct e; intros [= <- <-]; done.
Qed.

Lemma accept_header_quiet header : quiet (accept_header c t header).
Proof.
  unfold accept_header. apply quiet_bind; [apply quiet_lift|]. intros [frame|]; [|apply quiet_lift].
  apply quiet_if; [apply quiet_lift|]. apply quiet_bind; [|intros; apply quiet_lift]. apply quiet_modify. intros s. same.
Qed.

Lemma judge_header_quiet header parent block root :
  0 ≤ block < i64_max → quiet (judge_header c t header parent block root).
Proof.
  intros Hb. unfold judge_header. destruct (check _ _ _ _ _).
  - apply quiet_bind; [by apply late_child_quiet|]. intros [poll|]; [apply quiet_lift|apply accept_header_quiet].
  - apply quiet_bind; [apply quiet_modify; intros s; same|intros; apply quiet_lift].
  - apply quiet_lift.
Qed.

Lemma poll_next_header_quiet header block :
  0 ≤ block < i64_max → quiet (poll_next_header c t header block).
Proof.
  intros Hb. unfold poll_next_header. destruct (Cadence.header_slot _ _ _), (turn_poll_peek t); try apply quiet_lift.
  apply quiet_if; [apply quiet_lift|]. apply quiet_bind; [apply quiet_gets|]. intros s.
  apply quiet_bind; [apply quiet_lift|]. intros parent. by apply judge_header_quiet.
Qed.

(** What the poll of a header that continues the tip can answer. *)
Definition answer_ok (header : Header) (poll : HeadPoll) : Prop :=
  match poll with
  | Accepted f => frame_block f = header_block_ref header ∧ frame_finality f = Unattested
  | PollReorg _ => False
  | _ => True
  end.

Definition answers (header : Header) (m : eff P2pLiveState P2pError HeadPoll) : Prop :=
  ∀ s s' poll, m s = (s', Ok poll) → answer_ok header poll.

Lemma answers_lift header r : (∀ poll, r = Ok poll → answer_ok header poll) → answers header (lift r).
Proof. intros Hr s s' poll [= <- ->]. by apply Hr. Qed.

Lemma answers_bind {A} header (m : eff P2pLiveState P2pError A) f : (∀ a, answers header (f a)) → answers header (m ≫= f).
Proof.
  intros Hf s s' poll. unfold mbind, eff_bind. destruct (m s) as [s1 [a|e]]; [|done]. apply Hf.
Qed.

Lemma late_child_answers header block s s' poll :
  late_child c t header block s = (s', Ok (Some poll)) → answer_ok header poll.
Proof.
  unfold late_child. destruct (negb _); [done|]. destruct (poll_child_headers c t _ s) as [s1 [[serve children]|e]].
  - destruct (last children) as [child|]; [case_bool_decide|]; intros [= _ <-]; done.
  - destruct e; intros [= _ <-]; done.
Qed.

Lemma accept_header_answers header : answers header (accept_header c t header).
Proof.
  intros s s' poll. unfold accept_header, mbind, eff_bind, lift.
  destruct (frame_for_header c t header) as [[frame|]|e] eqn:Hframe; [| |done].
  - apply frame_for_header_Ok in Hframe as [Hb _]. destruct (is_some_and _ _); [by intros [= _ <-]|].
    cbn. by intros [= _ <-].
  - by intros [= _ <-].
Qed.

Lemma poll_next_header_answers header block : answers header (poll_next_header c t header block).
Proof.
  assert (answers header (lift (Ok WaitForAttested))) as Hwait by (apply answers_lift; by intros ? [= <-]).
  unfold poll_next_header. destruct (Cadence.header_slot _ _ _), (turn_poll_peek t); try apply Hwait.
  destruct (_ <? _); [apply Hwait|]. apply answers_bind. intros s0. apply answers_bind. intros parent.
  unfold judge_header. destruct (check _ _ _ _ _); [|apply answers_bind; intros; apply Hwait|apply Hwait].
  intros s s' poll. unfold mbind at 1, eff_bind at 1.
  destruct (late_child c t header block s) as [s1 [held|e]] eqn:Hlate; [|done].
  destruct held as [p|]; [|apply accept_header_answers].
  intros [= _ <-]. by eapply late_child_answers.
Qed.

(** A reorg on unverified evidence reverts the tail, and only it. *)
Lemma unattested_reorg_post chain s header s' r :
  lane_inv chain s → queued s = [] → pending_attested s = None →
  unattested_reorg c t header s = (s', r) → poll_post chain s s' r.
Proof.
  intros Hinv Hq Hp. unfold unattested_reorg. case_bool_decide; [by intros [= <- <-]|].
  destruct (fetch_descending_headers _ _ _ _ _) as [descending|e] eqn:Hd; [|by destruct e; intros [= <- <-]].
  destruct (plan_reorg (recent s) descending) as [[ancestor reverted]|e] eqn:Hplan; [|by intros [= <- <-]].
  destruct (UnattestedTail.contains_all (lane_tail s) reverted) eqn:Hall; [|by intros [= <- <-]].
  destruct (accepts_branch _ _ _ _); [|by intros [= <- <-]]. cbn [negb].
  destruct (fetch_reorg_branch _ _ _ _ _ _) as [frames|e] eqn:Hfetch; [|by destruct e; intros [= <- <-]].
  intros [= <- <-]. apply fetch_descending_headers_Ok in Hd.
  pose proof (plan_on_lane _ _ _ _ _ _ _ Hinv Hd Hplan) as (kept & Hchain & Hrecent & Hne & Hr & Hn).
  apply fetch_reorg_branch_Ok in Hfetch as [Hext Happ]; [|apply (inv_width _ _ Hinv); rewrite Hchain; set_solver|done].
  set (applied := (λ frame, frame_with_finality frame Unattested) <$> frames).
  assert (frame_block <$> applied = frame_block <$> frames) as Hblocks.
  { subst applied. rewrite <-list_fmap_compose. done. }
  assert (reorg_ok chain s (hash_slow header) kept ancestor reverted frames) as Hok by (by split).
  destruct (adopted_chain _ _ _ _ _ _ _ Hinv Hok) as (Hlinked & Hwidth & Hlast & Hrec & Hheld).
  assert (∀ b, b ∈ reverted → b ∈ lane_tail s) as Hin.
  { intros b Hb. unfold UnattestedTail.contains_all in Hall. rewrite forallb_forall in Hall.
    apply list_elem_of_In in Hb. specialize (Hall b Hb). by apply bool_decide_eq_true in Hall. }
  assert (∀ bs tail, fold_left UnattestedTail.push bs tail = tail ++ bs) as Hpush.
  { induction bs as [|b bs IH]; intros tail; [by rewrite app_nil_r|]. cbn. rewrite IH. unfold UnattestedTail.push. by rewrite <-app_assoc. }
  pose proof (inv_linked _ _ Hinv) as Hl. pose proof (inv_tail _ _ Hinv) as Ht. rewrite Hchain in Hl, Ht.
  destruct (remove_suffix _ reverted (lane_tail s) (linked_NoDup _ Hl) Ht) as [[pre Hsuffix] Hremove].
  split; [by left|]. split; [done|]. exists ((kept ++ [ancestor]) ++ (frame_block <$> frames)). split.
  { rewrite Hchain, <-Hblocks. eapply follow_reorg; [apply last_snoc|by rewrite Hblocks]. }
  pose proof Hinv as []. split; cbn; rewrite ?Hpush, ?Hblocks, ?Hp; try done.
  - exists pre. by rewrite Hsuffix, <-app_assoc.
  - by rewrite Hq.
  - right. by rewrite Hq.
  - apply Forall_app. split.
    + apply Forall_forall. intros b Hb%remove_in. rewrite Forall_forall in inv_headers0. by apply inv_headers0.
    + apply Forall_forall. intros b Hb. apply list_elem_of_fmap_1 in Hb as (f & -> & Hf). by apply Happ.
  - intros b [Hb|Hb]%elem_of_app; [|right; left; set_solver].
    destruct (inv_settled0 b) as [|[Htl|]]; [rewrite Hchain; set_solver|by left| |by right; right].
    right. left. apply elem_of_app. left. by apply Hremove.
Qed.

Lemma poll_unattested_head_post chain s s' r :
  lane_inv chain s → queued s = [] → pending_attested s = None →
  poll_unattested_head c t (sat_add (ref_number (lane_last s)) 1) s = (s', r) → poll_post chain s s' r.
Proof.
  intros Hinv Hq Hp. assert (lane_last s ∈ chain) as Hin by (apply last_Some_elem_of, (inv_last _ _ Hinv)).
  pose proof (inv_width _ _ Hinv _ Hin) as Hwidth.
  assert (sat_add (ref_number (lane_last s)) 1 = ref_number (lane_last s) + 1) as -> by uints.
  unfold poll_unattested_head, mbind, eff_bind, modify, gets, poll_head_headers.
  destruct (fetch_live_headers_from_untried_peers _ _ _ _ _ _) as [[rot v] reply] eqn:Hfetch. cbn [head_votes set_head_poll head_poll] in Hfetch.
  apply poll_votes in Hfetch as [Hv Hserved]; [|uints|apply (inv_votes _ _ Hinv)].
  set (s1 := set_head_votes _ _).
  assert (lane_inv chain s1) as Hinv1 by (apply inv_set_votes; [|done]; eapply lane_inv_same; [|done]; same).
  destruct reply as [[serve headers]|e]; [|by intros [= <- <-]].
  destruct (Hserved serve headers eq_refl) as (header & -> & Hnumber). cbn [last].
  destruct (bool_decide (header_parent_hash header = ref_hash (lane_last (id s1)))) eqn:Hparent.
  - apply bool_decide_eq_true in Hparent. intros Hrun.
    assert (0 ≤ ref_number (lane_last s) + 1 < i64_max) as Hb by (rewrite <-Hnumber; apply header_number_range).
    destruct (poll_next_header_quiet header _ Hb chain s1 s' r Hinv1 Hrun) as (Hinv' & Hlast & Hqueue & _).
    pose proof (poll_next_header_answers header (ref_number (lane_last s) + 1) s1 s') as Hans.
    destruct r as [[f| | |event]|e]; [|done|done|by destruct (Hans _ Hrun)|done].
    destruct (Hans _ Hrun) as [Hblock Hfin]. split; [done|]. split; [rewrite Hqueue; exact Hq|].
    split; [|split; [by exists header|done]]. rewrite Hlast, Hblock. split_and!; [cbn; lia|exact Hparent|done].
  - intros Hrun. by apply (unattested_reorg_post chain s1 header s' r).
Qed.

Lemma fail_head_poll_same error s s' failure : fail_head_poll c t error s = (s', failure) → same_lane s s'.
Proof.
  unfold fail_head_poll. destruct (head_poll_failure _ _ _ _ _ _ _) as [[a b] f]. intros [= <- _]. same.
Qed.

(** A block whose frames are queued behind the tip. *)
Lemma inv_enqueue chain s f :
  lane_inv chain s → queued s = [] → next_frame s f → lane_inv chain (set_queued s (queued s ++ [f])).
Proof.
  intros [] Hq (Hext & Hheader & Hfin). rewrite Hq. split; cbn; try done.
  - constructor; [|done]. split; [done|]. by rewrite Hfin.
  - right. by constructor.
Qed.

Lemma post_settle chain s0 s poll s' o :
  poll_post chain s0 s poll → settle_head_poll c t poll s = (s', o) → turn_post chain s0 s' o.
Proof.
  intros Hpost. destruct poll as [[f| | |event]|e]; cbn in Hpost |- *.
  - destruct Hpost as (Hinv & Hq & Hf). intros [= <- <-]. by apply inv_enqueue.
  - by apply post_pause.
  - by apply post_pause.
  - destruct Hpost as (Hev & Hreset & chain' & Hfollow & Hinv). intros [= <- <-]. split; [done|]. exists chain'.
    by rewrite Hreset.
  - assert (∀ s'' f, fail_head_poll c t e s = (s'', f) → lane_inv chain s'') as Hfail.
    { intros s'' f Hf. eapply lane_inv_same; [by eapply fail_head_poll_same|done]. }
    destruct (fail_head_poll c t e s) as [s1 failure] eqn:Hf. specialize (Hfail _ _ eq_refl).
    destruct e; try (intros [= <- <-]; done); try (by apply post_pause);
      (destruct failure; [by apply post_pause|by apply post_pause|by apply post_reconnect]).
Qed.

Lemma post_head chain s s' o :
  lane_inv chain s → queued s = [] → pending_attested s = None →
  step_head c t (sat_add (ref_number (lane_last s)) 1) s = (s', o) → turn_post chain s s' o.
Proof.
  intros Hinv Hq Hp. unfold step_head. set (s1 := set_head_unavailable_since s None).
  assert (lane_inv chain s1) as Hinv1 by (eapply lane_inv_same; [|done]; same).
  destruct (if _ =? 0 then _ else _); [by intros [= <- <-]|by intros [= <- <-]|].
  destruct (poll_unattested_head c t _ s1) as [s2 poll] eqn:Hpoll. intros Hsettle.
  apply (poll_unattested_head_post chain s1) in Hpoll; [|done..].
  eapply (post_settle chain s1) in Hsettle; [|exact Hpoll]. exact Hsettle.
Qed.

Lemma post_wait chain s s' o : lane_inv chain s → step_wait t s = (s', o) → turn_post chain s s' o.
Proof.
  intros Hinv. unfold step_wait. destruct (turn_wait t); [by intros [= <- <-]|..];
    destruct (head_unavailable_for _ _) as [since for_];
    (assert (lane_inv chain (set_head_unavailable_since s since)) as Hquiet by (eapply lane_inv_same; [|done]; same));
    destruct (head_unavailable _ _ _); [by intros [= <- <-]|by apply post_disconnect|by apply post_reconnect
      |by intros [= <- <-]|by apply post_disconnect|by apply post_reconnect].
Qed.

(** ** Towards an attested head *)

Context (Hrange : ∀ head, seen head → 0 ≤ head_block_number head < i64_max).

(** An attested head, or a rung below one. *)
Definition target_ok (head : AttestedHead) : Prop :=
  attests (head_block_hash head) ∧ 0 ≤ head_block_number head < i64_max.

Lemma seen_target head : seen head → target_ok head.
Proof. intros Hs. split; [by exists head; split; [|apply rtc_refl]|by apply Hrange]. Qed.

Lemma inv_set_ancestry chain s a :
  lane_inv chain s → (∃ number, chain_of number (ancestry_headers a)) →
  (∀ h, h ∈ ancestry_headers a → attests (hash_slow h)) → (∀ r, r ∈ rungs a → target_ok r) →
  lane_inv chain (set_ancestry s a).
Proof.
  intros [] Hchain Hheaders Hrungs. split; cbn; try done; apply Forall_forall; try done; intros r Hr; by apply Hrungs.
Qed.

Lemma inv_invalidate chain s : lane_inv chain s → lane_inv chain (set_ancestry s ancestry_empty).
Proof.
  intros Hinv. apply inv_set_ancestry; [done|exists 0; apply chain_of_nil|..]; intros x Hx; by apply elem_of_nil in Hx.
Qed.

Lemma rung_target chain s r : lane_inv chain s → r ∈ rungs (ancestry s) → target_ok r.
Proof.
  intros [] Hr. rewrite Forall_forall in inv_rungs0. rewrite Forall_forall in inv_rung_numbers0.
  split; [by apply inv_rungs0|by apply inv_rung_numbers0].
Qed.

Lemma post_fail_catch_up chain s0 error s s' o :
  lane_inv chain s → fail_catch_up c t error s = (s', o) → turn_post chain s0 s' o.
Proof.
  intros Hinv. unfold fail_catch_up. destruct (pending_live_material_delay _ _ _ _ _) as [attempts delay].
  assert (lane_inv chain (set_pending_material_attempts (set_ancestry s (ancestry_invalidate (ancestry s))) attempts)).
  { eapply lane_inv_same; [|by apply inv_invalidate]. same. }
  destruct delay; [by apply post_pause|by apply post_reconnect].
Qed.

Lemma post_anchor chain s from head s' o :
  lane_inv chain s → target_ok head → 0 ≤ from ≤ head_block_number head →
  step_anchor c t from head s = (s', o) → turn_post chain s s' o.
Proof.
  intros Hinv [Hatt Hn] Hfrom. unfold step_anchor. set (s1 := set_head_unavailable_since s None).
  assert (lane_inv chain s1) as Hinv1 by (eapply lane_inv_same; [|done]; same).
  destruct (anchor_proves (show_hash c) (turn_windows t) from head) as (r & -> & Hproves); [lia|uints|].
  destruct r as [proven|e].
  - intros [= <- <-]. destruct (Hproves proven eq_refl) as [Hhead Hchain _ Hheaders Hrungs].
    apply inv_set_ancestry; [done|by exists from| |].
    + intros h Hh. eapply attests_ancestor; [exact Hatt|by apply Hheaders].
    + intros r [Hr|Hr]%elem_of_app.
      * destruct (Hrungs r Hr) as [Hreach Hbelow]. split; [by eapply attests_ancestor|].
        unfold MAX_ANCESTRY_HEADERS in Hbelow. lia.
      * apply list_elem_of_In, List.filter_In in Hr as [Hr _]. apply list_elem_of_In in Hr. by eapply rung_target.
  - destruct e; intros Hs; first [by injection Hs as <- <- | by eapply (post_fail_catch_up chain s _ s1)].
Qed.

(** Frames of attested headers that continue a tip the chain of an attested
    head holds: the tail is proven with them. *)
Lemma post_prove_tail chain s0 s headers frames s' o :
  lane_inv chain s → queued s = [] → attests (ref_hash (lane_last s)) →
  extends (lane_last s) (header_block_ref <$> headers) → (∀ h, h ∈ headers → attests (hash_slow h)) →
  frames = [] ∨ frames_of headers frames →
  prove_tail (set_queued s (queued s ++ frames)) = (s', o) → turn_post chain s0 s' o.
Proof.
  intros Hinv Hq Htip Hext Hatt Hframes. rewrite Hq. cbn [app].
  assert (lane_inv chain (set_lane_tail (set_queued s frames) [])) as Hdone.
  { assert (extends (lane_last s) (frame_block <$> frames)) as Hextf.
    { destruct Hframes as [->|[-> _]]; done. }
    assert (Forall frame_ok frames) as Hok by (destruct Hframes as [->|?]; [done|by eapply frames_ok]).
    assert (Forall (λ f, frame_finality f ≠ Unattested) frames) as Hfin.
    { destruct Hframes as [->|[_ Hf]]; [done|]. eapply Forall_impl; [exact Hf|]. by intros f ->. }
    pose proof Hinv as []. split; cbn; try done; [by exists chain; rewrite app_nil_r|by left|].
    intros b Hb. destruct (inv_settled0 b Hb) as [|[Htl|]]; [by left| |by right; right]. right. right.
    by apply (tail_attested chain (lane_tail s) (lane_last s)). }
  unfold prove_tail. cbn. unfold UnattestedTail.newest. destruct (last (lane_tail s)) as [through|] eqn:Hlast.
  - intros [= <- <-]. apply last_Some_elem_of in Hlast. pose proof Hinv as [].
    split; [by apply (tail_attested chain (lane_tail s) (lane_last s))|].
    exists chain. split; [cbn; rewrite bool_decide_true; [done|by eapply suffix_in]|]. exact Hdone.
  - intros [= <- <-]. apply last_None in Hlast.
    eapply lane_inv_same; [|exact Hdone]. split_and!; try reflexivity. exact Hlast.
Qed.

Lemma tip_number chain s : lane_inv chain s →
  0 ≤ ref_number (lane_last s) < i64_max ∧ sat_add (ref_number (lane_last s)) 1 = ref_number (lane_last s) + 1.
Proof.
  intros Hinv. pose proof (inv_width _ _ Hinv _ (last_Some_elem_of _ _ (inv_last _ _ Hinv))). split; [done|uints].
Qed.

Lemma post_poll chain s head s' o :
  lane_inv chain s → queued s = [] → target_ok head → head_block_number head = ref_number (lane_last s) + 1 →
  step_poll c t (head_block_number head) (MkExpectedTip (head_block_hash head) VerifiedExpectation) s = (s', o) →
  turn_post chain s s' o.
Proof.
  intros Hinv Hq [Hatt Hn] Hnext. unfold step_poll, poll_next_verified_frame.
  destruct (fetch_live_headers_from_untried_peers _ _ _ _ _ _) as [[rot v] reply] eqn:Hfetch.
  match goal with |- context [set_head_poll ?x (default _ rot)] => set (s1 := set_head_poll x (default (head_poll x) rot)) end.
  assert (lane_inv chain s1) as Hinv1 by (eapply lane_inv_same; [|done]; same).
  assert (queued s1 = []) as Hq1 by exact Hq. assert (lane_last s1 = lane_last s) as Hl1 by done.
  assert (∀ a, lane_inv chain (set_head_poll s1 a)) as Hpoll by (intros a; eapply lane_inv_same; [|exact Hinv1]; same).
  assert (lane_inv chain (served s1)) as Hserved by (eapply lane_inv_same; [|exact Hinv1]; same).
  assert (∀ error, settle_poll_failure c t error s1 = (s', o) → turn_post chain s s' o) as Hfail.
  { intros error. unfold settle_poll_failure. destruct (fail_head_poll c t error s1) as [s2 failure] eqn:Hf.
    assert (lane_inv chain s2) by (eapply lane_inv_same; [by eapply fail_head_poll_same|done]).
    destruct failure; [by apply post_pause| |by apply post_reconnect].
    destruct (turn_pause_cancelled t); [by intros [= <- <-]|by apply post_disconnect]. }
  destruct reply as [[serve headers]|e]; [|cbn [mbind result_bind]; destruct e; first [apply Hfail|by intros [= <- <-]]].
  cbn [mbind result_bind].
  apply fetch_live_headers_Ok in Hfetch as [Hchain Hhash]; [|unfold BlockRange.valid; cbn; uints|cbn; uints].
  destruct (last headers) as [header|] eqn:Hlast; [|apply Hfail].
  specialize (Hhash _ eq_refl header eq_refl). cbn [tip_hash] in Hhash.
  destruct (frame_for_header c t header) as [[frame|]|e] eqn:Hframe; [|by apply post_pause|destruct e; first [apply Hfail|by intros [= <- <-]]].
  apply frame_for_header_Ok in Hframe as [Hblock Hfin].
  assert (attests (hash_slow header)) as Hheader by (by rewrite Hhash).
  case_bool_decide as Hparent; cbn [negb].
  - intros Hrun. eapply (post_prove_tail chain s (served s1) [header] [frame]) in Hrun; [exact Hrun|done|done|..].
    + change (lane_last (served s1)) with (lane_last s1) in *. rewrite <-Hparent, Hblock. by apply attests_parent.
    + change (lane_last (served s1)) with (lane_last s1) in *. rewrite Hblock in Hparent.
      destruct Hchain as [Hc Hlen].
      assert (header_number header = head_block_number head) as Hnum.
      { apply (range_chain_last (BlockRange.single (head_block_number head)) headers);
          [unfold BlockRange.valid; cbn; uints|cbn; uints|by split|done]. }
      split_and!; [cbn; change (lane_last (served s1)) with (lane_last s); lia|exact Hparent|done].
    + intros h Hh%list_elem_of_singleton. by subst.
    + right. split; [cbn; by rewrite Hblock|by repeat constructor].
  - intros Hrun. change (turn_post chain (set_head_poll (served s1) (HeadPollRotation.serve_failed (head_poll (served s1)))) s' o).
    eapply post_reconstruct; [| | |exact Hrun]; [|exact Hq1|].
    + eapply lane_inv_same; [|exact Hserved]. same.
    + rewrite Hblock. by apply attests_parent.
Qed.

Lemma post_catch_up chain s range s' o :
  lane_inv chain s → queued s = [] → ancestry_first (ancestry s) = Some (ref_number (lane_last s) + 1) →
  0 < BlockRange.len range → step_catch_up c t range s = (s', o) → turn_post chain s s' o.
Proof.
  intros Hinv Hq Hfirst Hlen. unfold step_catch_up, ancestry_take. cbv zeta beta iota.
  change (ancestry (set_head_unavailable_since s None)) with (ancestry s).
  set (n := Z.to_nat (BlockRange.len range)). assert (∃ m, n = S m) as [m Hm] by (exists (pred n); lia).
  destruct (inv_ancestry _ _ Hinv) as [number Hchain].
  assert (∀ h, h ∈ ancestry_headers (ancestry s) → attests (hash_slow h)) as Hall.
  { pose proof (inv_proven _ _ Hinv) as Hp. rewrite Forall_forall in Hp. exact Hp. }
  unfold ancestry_first in Hfirst.
  destruct (ancestry_headers (ancestry s)) as [|x rest] eqn:Hheaders; [done|]. injection Hfirst as Hx.
  match goal with |- context [set_ancestry (set_head_unavailable_since s None) ?h] => set (held := h) end.
  set (s1 := set_ancestry (set_head_unavailable_since s None) held).
  assert (lane_inv chain s1) as Hinv1.
  { apply inv_set_ancestry; [eapply lane_inv_same; [|exact Hinv]; same|..].
    - exists (number + Z.of_nat n). exact (chain_of_drop _ _ n Hchain).
    - intros h Hh. apply Hall. cbn in Hh. rewrite <-(take_drop n (x :: rest)). set_solver.
    - intros r Hr. by eapply rung_target. }
  assert (attests (header_parent_hash x)) as Hparent by (apply attests_parent, Hall; set_solver).
  assert (List.firstn n (x :: rest) = x :: List.firstn m rest) as Htake by (by rewrite Hm). rewrite Htake.
  cbn [List.firstn List.find].
  destruct (negb (bool_decide (header_parent_hash x = ref_hash (lane_last s1)))) eqn:Hjoin.
  - intros Hrun. change (turn_post chain (set_ancestry s1 (ancestry_invalidate held)) s' o).
    eapply post_reconstruct; [| | |exact Hrun]; [by apply inv_invalidate|exact Hq|exact Hparent].
  - apply negb_false_iff, bool_decide_eq_true in Hjoin.
    destruct (catch_up_frames c t _ (header_peer (ancestry s))) as [frames|e] eqn:Hframes.
    + intros Hrun. eapply (post_prove_tail chain s (set_pending_material_attempts s1 0)) in Hrun; [exact Hrun|..].
      * eapply lane_inv_same; [|exact Hinv1]. same.
      * exact Hq.
      * change (attests (ref_hash (lane_last s1))). by rewrite <-Hjoin.
      * instantiate (1 := x :: List.firstn m rest). rewrite <-Htake.
        destruct (chain_of_take _ _ n Hchain) as [Hl _]. rewrite Htake in Hl |- *. cbn in Hl |- *.
        split_and!; [exact Hx|exact Hjoin|exact Hl].
      * intros h Hh. apply Hall. rewrite <-(take_drop n (x :: rest)). apply elem_of_app. left.
        change (take n (x :: rest)) with (List.firstn n (x :: rest)). by rewrite Htake.
      * unfold catch_up_frames in Hframes. destruct (header_peer (ancestry s)); [|done]. right. by eapply material_frames.
    + change (take 0 (take m rest)) with (@nil Header). cbn [List.find].
      destruct e; intros Hs; first [by injection Hs as <- <- | by eapply (post_fail_catch_up chain s _ s1)].
Qed.

Lemma post_fetch chain s s' o :
  lane_inv chain s → queued s = [] → pending_attested s = None →
  (∀ head, turn_latest t = Some head → seen head) → step_fetch c t s = (s', o) → turn_post chain s s' o.
Proof.
  intros Hinv Hq Hp Hseen. destruct (tip_number _ _ Hinv) as [Hwidth Hsat].
  unfold step_fetch. destruct (live_step _ _ _ _ _) as [|block tip|range|from head|block] eqn:Hstep; unfold live_step in Hstep.
  - by apply post_wait.
  - destruct (turn_latest t) as [h|] eqn:Hlatest; [|by destruct (allows _ _) in Hstep].
    destruct (Z.ltb_spec (ref_number (lane_last s)) (head_block_number h)); [|by destruct (allows _ _) in Hstep].
    destruct (catch_up_range _ _ _ _); [done|].
    destruct (Z.eqb_spec (head_block_number h) (sat_add (ref_number (lane_last s)) 1)) as [Hnext|]; [|done].
    injection Hstep as <- <-. rewrite <-Hnext.
    apply post_poll; [done|done|by apply seen_target, Hseen|lia].
  - destruct (turn_latest t) as [h|] eqn:Hlatest; [|by destruct (allows _ _) in Hstep].
    destruct (ref_number (lane_last s) <? head_block_number h); [|by destruct (allows _ _) in Hstep].
    destruct (catch_up_range _ _ _ _) as [r|] eqn:Hrange'; [injection Hstep as ->|by destruct (_ =? _) in Hstep].
    unfold catch_up_range in Hrange'. case_bool_decide as Hfirst; [|done].
    destruct (BlockRange.new _ _) as [r|] eqn:Hnew; [|done]. injection Hrange' as ->.
    apply BlockRange.new_Ok in Hnew as [-> Hle].
    apply post_catch_up; [done|done|by rewrite Hfirst, Hsat|].
    unfold BlockRange.len. cbn. rewrite Hsat in *. uints.
  - destruct (turn_latest t) as [h|] eqn:Hlatest; [|by destruct (allows _ _) in Hstep].
    destruct (Z.ltb_spec (ref_number (lane_last s)) (head_block_number h)); [|by destruct (allows _ _) in Hstep].
    destruct (catch_up_range _ _ _ _); [done|]. destruct (_ =? _) in Hstep; [done|].
    injection Hstep as <- <-. rewrite Hsat.
    destruct (List.find _ (rungs (ancestry s))) as [r|] eqn:Hfind; cbn.
    + apply List.find_some in Hfind as [Hin%list_elem_of_In Hle%Z.leb_le].
      pose proof (rung_target _ _ _ Hinv Hin) as Htarget. apply post_anchor; [done|done|lia].
    + apply post_anchor; [done|by apply seen_target, Hseen|lia].
  - assert (block = sat_add (ref_number (lane_last s)) 1) as ->; [|by apply post_head].
    destruct (turn_latest t) as [h|]; [|destruct (allows _ _) in Hstep; congruence].
    destruct (_ <? _) in Hstep; [|destruct (allows _ _) in Hstep; congruence].
    destruct (catch_up_range _ _ _ _); [done|]. by destruct (_ =? _) in Hstep.
Qed.

(** ** A turn *)

Lemma post_on chain s s' o :
  lane_inv chain s → pending_attested s = None → (∀ head, turn_latest t = Some head → seen head) →
  (is_reorg o = true → queued s = []) → step_on c t s = (s', o) → turn_post chain s s' o.
Proof.
  intros Hinv Hp Hseen Hclean. unfold step_on.
  destruct (UnattestedTail.expired _ _) as [reverted|] eqn:Hexp; [by apply post_expired|].
  destruct (queued s) as [|frame rest] eqn:Hq; [by apply post_fetch|by apply post_deliver].
Qed.

Lemma post_turn chain s s' o :
  lane_inv chain s → (∀ head, turn_peek t = Some head ∨ turn_latest t = Some head → seen head) →
  (is_reorg o = true → queued s = []) → live_turn c t s = (s', o) → turn_post chain s s' o.
Proof.
  intros Hinv Hseen Hclean. unfold live_turn. destruct (terminal s || _); [by intros [= <- <-]|].
  destruct (reconnect_error s) as [reason|]; [by apply post_reconnect_step|].
  destruct (pending_attested s) as [through|] eqn:Hp; [intros [= <- <-]; by apply post_pending|].
  assert (∀ s' o, (is_reorg o = true → queued s = []) → step_on c t s = (s', o) → turn_post chain s s' o) as Hon.
  { intros s1 o1 Hc. apply post_on; [done|done|intros h Hh; apply Hseen; by right|done]. }
  unfold step_attested. destruct (turn_peek t) as [head|] eqn:Hpeek; [|by apply Hon].
  assert (seen head) as Hs by (apply Hseen; by left).
  destruct (UnattestedTail.attestation (lane_tail s) head) as [|through|number hash] eqn:Hatt; [by apply Hon| |].
  - intros [= <- <-]. by eapply post_confirm.
  - destruct (reconstruct_reorg c t s number hash VerifiedExpectation) as [[[reverted applied] new_tip]|e] eqn:Hr.
    + destruct (adopt_reorg s reverted applied new_tip VerifiedExpectation) as [s1 event] eqn:Ha. intros [= <- <-].
      apply (reconstruct_reorg_ok chain) in Hr as (kept & ancestor & Hok & ->); [|done].
      eapply post_adopt; [done|apply Hclean; unfold adopt_reorg in Ha; by injection Ha as _ <-|done| |done].
      exists head. split; [done|]. unfold UnattestedTail.attestation in Hatt.
      destruct (List.find _ _); [|done]. case_bool_decide; [done|]. injection Hatt as <- <-. apply rtc_refl.
    + destruct e; first [by intros [= <- <-]|by apply Hon].
Qed.

End invariant.

(** ** A lane from its start *)

Context `{!AlloyHeaderLaws}.

Definition read_by (turns : list Turn) (head : AttestedHead) : Prop :=
  ∃ t, t ∈ turns ∧ (turn_peek t = Some head ∨ turn_latest t = Some head).

(** The attested heads of a lane: those its turns read, and the anchor of an
    overlap, which consensus has verified. *)
Definition evidence (start : LiveStart) (turns : list Turn) (head : AttestedHead) : Prop :=
  read_by turns head
  ∨ match start with
    | StartOverlap anchor _ => head_block_number head = ref_number anchor ∧ head_block_hash head = ref_hash anchor
    | _ => False
    end.

Definition is_number (number : Z) : Prop := 0 ≤ number < i64_max.

(** Block numbers are numbers, and an overlap stays above the genesis block,
    which has no predecessor. *)
Definition start_ok (start : LiveStart) : Prop :=
  match start with
  | StartHead => True
  | StartBlock block => is_number (ref_number block)
  | StartOverlap anchor overlap_blocks => is_number (ref_number anchor) ∧ 0 ≤ overlap_blocks ≤ ref_number anchor
  | StartRetained canonical => ∀ b, b ∈ canonical → is_number (ref_number b)
  | StartCursor cursor => is_number (source_block_number cursor)
  end.

Lemma new_lane_inv c seen window tip frames :
  linked window → (∀ b, b ∈ window → is_number (ref_number b)) → last window = Some tip →
  extends tip (frame_block <$> frames) → Forall (frame_ok seen) frames → Forall (λ f, frame_finality f = Attested) frames →
  lane_inv seen window window (new_lane c tip frames window).
Proof.
  intros Hl Hn Hlast Hext Hok Hfin. split; cbn; try done; try (by apply no_votes_counted).
  - by intros ->.
  - exists window. by rewrite app_nil_r.
  - left. split; [done|]. eapply Forall_impl; [exact Hfin|]. by intros f ->.
  - exists 0. apply chain_of_nil.
  - by left.
Qed.

Lemma continues_linked canonical :
  (∀ b, b ∈ canonical → is_number (ref_number b)) →
  forallb (λ pair, continues pair.1 pair.2) (windows2 canonical) = true → linked canonical.
Proof.
  induction canonical as [|x [|y canonical] IH]; intros Hn Hall; [done|done|].
  cbn in Hall. apply andb_prop in Hall as [Hxy Hall]. unfold continues in Hxy.
  apply andb_prop in Hxy as [Hnum%Z.eqb_eq Hhash%bool_decide_eq_true].
  assert (is_number (ref_number x)) by (apply Hn; set_solver). unfold is_number in *.
  split_and!; [revert Hnum; uints|done|]. apply IH; [intros b Hb; apply Hn; set_solver|done].
Qed.

Lemma overlap_inv c t anchor overlap connected seen s :
  is_number (ref_number anchor) → 0 < overlap ≤ ref_number anchor →
  (∃ head, seen head ∧ head_block_hash head = ref_hash anchor) →
  overlap_lane c connected t anchor overlap = Ok s → lane_inv seen (recent s) (recent s) s.
Proof.
  unfold is_number. intros Hn Ho (head & Hseen & Hhead). unfold overlap_lane.
  assert (sat_sub (ref_number anchor) (sat_sub overlap 1) = ref_number anchor - overlap + 1) as -> by uints.
  unfold BlockRange.new. rewrite (proj2 (Z.leb_le _ _)) by lia. cbn [map_err mbind result_bind].
  destruct (_ <? _); [done|]. intros (frames & Hfetch & Hrest)%result_bind_Ok.
  destruct (_ ← connected; _) as [frames'|] eqn:Hf; [|done]. injection Hfetch as ->.
  apply result_bind_Ok in Hf as (_ & _ & Hf).
  destruct (list.head frames) as [first|] eqn:Hfirst; [|done].
  destruct (last frames) as [fetched|] eqn:Hlast; [|done].
  destruct (negb _ || negb _); [done|]. injection Hrest as <-. cbn [recent new_lane].
  apply (fetch_requested_live_range_Ok c t) in Hf as (headers & h & [Hc _] & [Hblocks Hfin] & Hh & Hhash);
    [|unfold BlockRange.valid; cbn; uints|cbn; lia|by destruct frames].
  destruct frames as [|f frames]; [done|]. injection Hfirst as ->.
  destruct headers as [|x headers]; [done|]. injection Hblocks as Hx Hrest.
  change (frame_block <$> frames = header_block_ref <$> headers) in Hrest.
  pose proof (chain_number _ _ 0 x Hc eq_refl) as Hnumber. cbn [range_start] in Hnumber.
  assert (ref_number (frame_block first) = ref_number anchor - overlap + 1) as Hfn by (rewrite Hx; cbn; lia).
  apply new_lane_inv; try done.
  - intros b ->%list_elem_of_singleton. unfold is_number. cbn. rewrite Hfn. uints.
  - rewrite fmap_cons. cbn [extends ref_number ref_hash]. rewrite Hrest. split_and!; [rewrite Hfn; uints|done|].
    destruct Hc as [Hl _]. rewrite Hx. exact Hl.
  - apply (frames_ok seen (x :: headers)); [split; [rewrite !fmap_cons; by f_equal|done]|].
    intros y Hy. exists head. split; [done|]. rewrite Hhead.
    change (ref_hash anchor) with (tip_hash (MkExpectedTip (ref_hash anchor) VerifiedExpectation)). rewrite <-Hhash.
    by eapply chain_ancestors.
Qed.

Lemma subscribe_inv c desc publishes connected now t start seen s :
  start_ok start → (∀ anchor overlap, start = StartOverlap anchor overlap →
    ∃ head, seen head ∧ head_block_hash head = ref_hash anchor) →
  subscribe c desc publishes connected now t start = Ok s → lane_inv seen (recent s) (recent s) s.
Proof.
  intros Hstart Hanchor. unfold subscribe. intros (_ & _ & Hsub)%result_bind_Ok.
  do 4 (destruct (negb _) in Hsub; [done|]). apply result_bind_Ok in Hsub as ([[anchor overlap] retained] & Hat & Hsub).
  assert (∀ window tip, linked window → (∀ b, b ∈ window → is_number (ref_number b)) → last window = Some tip →
    lane_inv seen (recent (new_lane c tip [] window)) (recent (new_lane c tip [] window)) (new_lane c tip [] window)) as Hnew.
  { intros window tip Hl Hn Hlast. by apply new_lane_inv. }
  assert (∀ b, is_number (ref_number b) → ∀ x, x ∈ [b] → is_number (ref_number x)) as Hone
    by (intros b Hb x ->%list_elem_of_singleton; done).
  destruct start as [|block|a o|canonical|cursor]; cbn in Hat, Hstart; [done|..].
  - injection Hat as <- <- <-. apply result_bind_Ok in Hsub as (_ & _ & [= <-]). apply Hnew; [done|by apply Hone|done].
  - destruct ((o =? 0) || _) eqn:Ho; [done|]. injection Hat as <- <- <-. apply orb_false_iff in Ho as [Ho%Z.eqb_neq _].
    destruct (Z.eqb_spec o 0); [done|]. apply (overlap_inv c t a o connected); [apply Hstart|lia|by eapply Hanchor|done].
  - unfold validate_retained_canonical in Hat. destruct (_ && _) eqn:Hv in Hat; [|done].
    apply andb_prop in Hv as [_ Hv]. destruct (last canonical) as [tip|] eqn:Hlast; [|done]. injection Hat as <- <- <-.
    apply result_bind_Ok in Hsub as (_ & _ & [= <-]). apply Hnew; [by apply continues_linked|done|done].
  - destruct (_ || _); [done|]. injection Hat as <- <- <-. apply result_bind_Ok in Hsub as (_ & _ & [= <-]).
    apply Hnew; [done|by apply Hone|done].
Qed.

Lemma run_inv c seen base turns chain s s' events :
  (∀ head, seen head → is_number (head_block_number head)) →
  (∀ t, t ∈ turns → ∀ head, turn_peek t = Some head ∨ turn_latest t = Some head → seen head) →
  lane_inv seen base chain s → clean c s turns = true → run_lane c s turns = (s', events) →
  ∃ chain', fold_option follow chain events = Some chain'
  ∧ if existsb is_reset events then True else ∀ s, s' = Some s → lane_inv seen base chain' s.
Proof.
  intros Hnumbers. revert chain s events. induction turns as [|t turns IH]; intros chain s events Hturns Hinv Hclean.
  { intros [= <- <-]. exists chain. split; [done|]. by intros ? [= <-]. }
  assert (t ∈ t :: turns) as Ht by set_solver. specialize (Hturns t Ht) as Hseen. clear Ht.
  cbn [run_lane]. cbn [clean] in Hclean. destruct (live_turn c t s) as [s1 o] eqn:Hturn.
  apply andb_prop in Hclean as [Hone Hclean].
  pose proof (post_turn c seen base t Hnumbers chain s s1 o Hinv Hseen) as Hpost.
  assert (is_reorg o = true → queued s = []) as Hqueue.
  { intros Ho. rewrite Ho in Hone. cbn in Hone. apply negb_true_iff, negb_false_iff in Hone. by apply bool_decide_eq_true in Hone. }
  specialize (Hpost Hqueue Hturn). destruct o as [|event| |].
  - apply IH; [intros x Hx; apply Hturns; set_solver|done|done].
  - destruct (run_lane c s1 turns) as [s2 rest] eqn:Hrun. intros [= <- <-].
    destruct Hpost as (_ & chain1 & Hfollow & Hnext). cbn [fold_option existsb]. rewrite Hfollow. cbn [mbind option_bind].
    destruct (is_reset event).
    + assert (rest = []) as ->; [|by exists chain1].
      destruct turns as [|t2 turns]; [by injection Hrun as _ <-|]. cbn [run_lane] in Hrun. unfold live_turn in Hrun.
      rewrite Hnext in Hrun. by injection Hrun as _ <-.
    + cbn [orb]. apply (IH chain1 s1 rest); [intros x Hx; apply Hturns; set_solver|done|done|done].
  - intros [= <- <-]. by exists chain.
  - intros [= <- <-]. by exists chain.
Qed.

Lemma seen_numbers start turns :
  (∀ head, read_by turns head → is_number (head_block_number head)) → start_ok start →
  ∀ head, evidence start turns head → is_number (head_block_number head).
Proof.
  intros Hread Hstart head [Hr|Ha]; [by apply Hread|]. destruct start; try done. destruct Ha as [-> _]. apply Hstart.
Qed.

Lemma overlap_evidence start turns anchor overlap :
  start = StartOverlap anchor overlap → ∃ head, evidence start turns head ∧ head_block_hash head = ref_hash anchor.
Proof.
  intros ->. exists (MkAttestedHead 0 hash_zero (ref_number anchor) (ref_hash anchor)). split; [right|]; done.
Qed.

Lemma clean_app c turns rest s s1 events :
  run_lane c s turns = (Some s1, events) → clean c s (turns ++ rest) = true → clean c s turns = true ∧ clean c s1 rest = true.
Proof.
  revert s events. induction turns as [|t turns IH]; intros s events; [by intros [= <- <-]|].
  cbn [run_lane app clean]. destruct (live_turn c t s) as [s2 o]. destruct o as [|event| |].
  - intros Hrun [-> Hclean]%andb_prop. by apply (IH s2 events).
  - destruct (run_lane c s2 turns) as [s3 events'] eqn:Hrun. intros [= -> <-] [-> Hclean]%andb_prop. by apply (IH s2 events').
  - done.
  - done.
Qed.

Section lane.
Context (c : LaneConfig) (desc : SourceDescriptor) (publishes_heads : bool) (connected : result P2pError unit) (now : Z)
  (t0 : Turn) (start : LiveStart) (s : P2pLiveState) (turns : list Turn).
Context (Hsubscribe : subscribe c desc publishes_heads connected now t0 start = Ok s) (Hstart : start_ok start)
  (Hnumbers : ∀ head, read_by turns head → is_number (head_block_number head)).

Lemma lane_run turns' s' events :
  (∀ t, t ∈ turns' → t ∈ turns) → clean c s turns' = true → run_lane c s turns' = (s', events) →
  ∃ chain, fold_option follow (recent s) events = Some chain
  ∧ if existsb is_reset events then True else ∀ s1, s' = Some s1 → lane_inv (evidence start turns) (recent s) chain s1.
Proof.
  intros Hin Hclean Hrun.
  apply (run_inv c (evidence start turns) (recent s) turns' (recent s) s); [by apply seen_numbers| | |done|done].
  - intros t Ht%Hin head Hhead. left. by exists t.
  - eapply subscribe_inv; [exact Hstart| |exact Hsubscribe]. intros. by eapply overlap_evidence.
Qed.

(** C3: What the live lane says can be followed. A consumer that starts on
    the window the lane starts on can take every event of any run of the lane,
    whatever the peers answer, the clocks show and the attested heads say, as
    long as no reorg is taken while a frame waits in the queue: each block
    continues the consumer's tip by number and parent hash, each reorg takes
    blocks back from the tip, newest first, and continues the block that is
    then the tip, and each attested block is one the consumer holds. While
    the stream has not been reset, its chain ends in the lane's tip, is linked
    throughout, and holds the lane's window and its unattested tail as its
    last blocks. *)
Theorem lane_follows s' events
    (Hclean : clean c s turns = true) (Hrun : run_lane c s turns = (s', events)) :
  ∃ chain, fold_option follow (recent s) events = Some chain
  ∧ ∀ s1, s' = Some s1 → existsb is_reset events = false →
    last chain = Some (lane_last s1) ∧ linked chain ∧ suffix_of (recent s1) chain ∧ suffix_of (lane_tail s1) chain.
Proof.
  destruct (lane_run turns s' events (λ _, id) Hclean Hrun) as (chain & Hfollow & Hinv). exists chain. split; [done|].
  intros s1 -> Hreset. rewrite Hreset in Hinv. destruct (Hinv s1 eq_refl). done.
Qed.

(** C6: Only attested evidence is final. Before the stream has been reset,
    and as long as no reorg is taken while a frame waits in the queue (the
    turn itself included), at any turn of a lane a block it delivers as
    attested and a block it reports as attested are ancestors by hash of an
    attested head the lane has read (or of the anchor it started from), and a
    reorg either reverts blocks of the unattested tail only or puts the tip
    on the chain of such a head, with every block it applies. So, on such a
    run, whatever a consumer holds at any time is what it started from, the
    unattested tail, or attested. *)
Theorem attested_evidence turns' t s1 events s2 event
    (Hturns : turns = turns' ++ [t]) (Hclean : clean c s turns = true)
    (Hrun : run_lane c s turns' = (Some s1, events)) (Hreset : existsb is_reset events = false)
    (Hturn : live_turn c t s1 = (s2, Emit event)) :
  (∀ frame, event = EventBlock frame → frame_finality frame ≠ Unattested →
     attests (evidence start turns) (ref_hash (frame_block frame)))
  ∧ (∀ through, event = EventAttested through → attests (evidence start turns) (ref_hash through))
  ∧ (∀ reverted applied, event = EventReorg reverted applied →
       (∀ b, b ∈ reverted → b ∈ lane_tail s1)
       ∨ attests (evidence start turns) (ref_hash (lane_last s2))
         ∧ ∀ f, f ∈ applied → attests (evidence start turns) (ref_hash (frame_block f)))
  ∧ ∀ chain b, fold_option follow (recent s) events = Some chain → b ∈ chain →
      b ∈ recent s ∨ b ∈ lane_tail s1 ∨ attests (evidence start turns) (ref_hash b).
Proof.
  assert (∀ x, x ∈ turns' → x ∈ turns) as Hin by (rewrite Hturns; set_solver).
  assert (t ∈ turns) as Ht by (rewrite Hturns; set_solver).
  rewrite Hturns in Hclean. destruct (clean_app _ _ _ _ _ _ Hrun Hclean) as [Hclean' Hlast].
  destruct (lane_run turns' _ events Hin Hclean' Hrun) as (chain & Hfollow & Hinv). rewrite Hreset in Hinv.
  specialize (Hinv s1 eq_refl). cbn [clean] in Hlast. rewrite Hturn in Hlast. apply andb_prop in Hlast as [Hone _].
  assert (turn_post (evidence start turns) (recent s) chain s1 s2 (Emit event)) as [Hevent _].
  { apply (post_turn c (evidence start turns) (recent s) t); [|done| |intros Ho|done].
    - by apply seen_numbers.
    - intros head Hhead. left. by exists t.
    - rewrite Ho in Hone. cbn in Hone. by apply negb_true_iff, negb_false_iff, bool_decide_eq_true in Hone. }
  split; [by intros frame ->|]. split; [by intros through ->|]. split; [by intros reverted applied ->|].
  intros chain' b Hchain' Hb. rewrite Hfollow in Hchain'. injection Hchain' as <-. by apply (inv_settled _ _ _ _ Hinv).
Qed.

End lane.
End live_lane.
