(* ===== verification/LiveSamples.v ===== *)
(** * The live lane's headers on concrete input

    A header with a number, a parent and a timestamp, on which the witnesses
    of the theorems about the live head and the live lane run. *)
From Stdlib Require Import ZArith Lia Strings.Byte.
From stdpp Require Import gmap strings list list_numbers fin_maps.
From S2P Require Import Prelude Bytes Chain Capability Material Provenance Frame SourceContract Cadence Requests LiveHead LiveChain Wire Verified LiveLane.

Record SampleHeader := MkSampleHeader {
  sample_number : Z;
  sample_parent : BlockHash;
  sample_timestamp : Z;
  sample_full : bool;
}.

Definition word (z : Z) : array 32 := exist _ (be_bytes 32 z) (length_be_bytes 32 z).

(** A block is empty, or has the transactions and receipts below. *)
Definition root_of (full : bool) : BlockHash := word (if full then 1 else 0).

(** A number out of a block number's range counts as block 0. *)
Definition sample_block (h : SampleHeader) : Z :=
  if (0 <=? sample_number h) && (sample_number h <? 1000000) then sample_number h else 0.

(** A hash that tells two branches apart by the timestamp. *)
#[export] Instance sample_header : AlloyHeader := {|
  Header := SampleHeader;
  header_number := sample_block;
  header_parent_hash := sample_parent;
  header_timestamp := sample_timestamp;
  header_slot_number := λ _, None;
  header_parent_beacon_block_root := λ _, None;
  alloy_transactions_root := λ h, root_of (sample_full h);
  alloy_receipts_root := λ h, root_of (sample_full h);
  alloy_withdrawals_root := λ _, None;
  alloy_gas_limit := λ _, 30000000;
  alloy_gas_used := λ h, if sample_full h then 50000 else 0;
  alloy_base_fee_per_gas := λ _, None;
  alloy_blob_gas_used := λ _, None;
  alloy_excess_blob_gas := λ _, None;
  hash_slow := λ h, word (sample_number h * 65536 + sample_timestamp h);
  rlp_encode := λ _, [];
  rlp_decode := λ _, None;
|}.

#[export] Instance sample_header_laws : @AlloyHeaderLaws sample_header.
Proof.
  intros h. cbn. unfold sample_block, i64_max.
  destruct (Z.leb_spec 0 (sample_number h)), (Z.ltb_spec (sample_number h) 1000000); cbn; lia.
Qed.

(** ** The sample block's material *)

Record SampleReceipt := MkSampleReceipt { sample_logs : list AlloyLog; sample_gas : Z }.

#[export] Instance alloy_log_eq_dec : EqDecision AlloyLog.
Proof. solve_decision. Defined.
#[export] Instance sample_receipt_eq_dec : EqDecision SampleReceipt.
Proof. solve_decision. Defined.

(** A transaction is its nonce. *)
#[export] Instance sample_transaction : AlloyTransaction Z := {|
  tx_ty := λ _, 2;
  tx_hash_ref := λ n, word (100 + n);
  tx_recipient := λ _, None;
  tx_nonce_of := id;
  tx_gas_limit_of := λ _, 30000;
  tx_value_of := λ _, 0;
  tx_input_of := λ _, [];
  tx_max_fee_per_gas := λ _, 7;
  tx_max_priority_fee_per_gas := λ _, Some 1;
  tx_max_fee_per_blob_gas := λ _, None;
  tx_blob_hashes := λ _, None;
  tx_effective_gas_price := λ _ _, 7;
  tx_recover_signer := λ _, Ok (array_fill 20 x0a);
  tx_encoded_2718 := λ _, [x02];
|}.

Definition no_transaction {A} (tx : Empty_set) : A := match tx with end.

#[export] Instance no_op_transaction : AlloyTransaction Empty_set :=
  Build_AlloyTransaction Empty_set no_transaction no_transaction no_transaction no_transaction no_transaction
    no_transaction no_transaction no_transaction no_transaction no_transaction no_transaction no_transaction
    no_transaction no_transaction.

(** A bloom that forgets nothing. *)
Definition log_inputs (log : AlloyLog) : list (list byte) :=
  bytes_of (alloy_log_address log) :: (bytes_of <$> alloy_log_topics log).

#[export] Instance sample_receipt : AlloyReceipt (list (list byte)) SampleReceipt := {|
  receipt_ty := λ _, 2;
  logs_of := sample_logs;
  cumulative_gas_of := sample_gas;
  status_of := λ _, true;
  bloom_of := λ r, sample_logs r ≫= log_inputs;
|}.

#[export] Instance no_op_receipt : AlloyReceipt (list (list byte)) Empty_set :=
  Build_AlloyReceipt (list (list byte)) Empty_set no_transaction no_transaction no_transaction no_transaction no_transaction.

(** Two transactions; the second logs what the sample request wants. *)
Definition wanted : Address := array_fill 20 x11.
Definition sample_txs : list Z := [4; 5].
Definition sample_rs : list SampleReceipt :=
  [MkSampleReceipt [MkAlloyLog (array_fill 20 x22) [word 9] [x01]] 20000;
   MkSampleReceipt [MkAlloyLog wanted [word 8] [x02]; MkAlloyLog (array_fill 20 x22) [] []] 50000].

#[export] Instance sample_wire : @WireTypes sample_header := {|
  Bloom := list (list byte);
  bloom_zero := [];
  bloom_or := app;
  contains_input bloom input := bool_decide (input ∈ bloom);
  TransactionSigned := Z;
  OpTxEnvelope := Empty_set;
  EthereumReceipt := SampleReceipt;
  OpReceipt := Empty_set;
  op_deposit_fields := no_transaction;
  op_clear_deposit_nonce := id;
  default_blob_gas_used := λ _, None;
  alloy_ommers_hash := λ _, word 0;
  alloy_logs_bloom := λ h : @Header sample_header, if sample_full h then sample_rs ≫= λ r, sample_logs r ≫= log_inputs else [];
  alloy_block_access_list_hash := λ _, None;
|}.

Definition txs_of : list WireTx → list Z := fmap (λ tx, match tx with EthereumTx n => n | OpStackTx tx => no_transaction tx end).
Definition rs_of : list WireReceipt → list SampleReceipt :=
  fmap (λ r, match r with EthereumRc r => r | OpStackRc r => no_transaction r end).

(** Roots that tell the sample's parts, the empty list and the rest apart. *)
Definition table {A} `{EqDecision A} (sample items : list A) : BlockHash :=
  word (if bool_decide (items = sample) then 1 else if bool_decide (items = []) then 0 else 2).

#[export] Instance sample_roots : @WireRoots sample_header sample_wire := {|
  EMPTY_ROOT_HASH := word 0;
  calculate_transaction_root := λ txs, table sample_txs (txs_of txs);
  calculate_receipt_root := λ rs, table sample_rs (rs_of rs);
  calculate_ommers_root := λ body, match body_ommers body with [] => word 0 | _ => word 1 end;
  calculate_withdrawals_root := λ body, match body_withdrawals body with None => None | Some _ => Some (word 1) end;
  encode_with_bloom := λ _, [x01];
  block_rlp_length := λ _ _, 600%nat;
|}.

(** Block [n] of a chain of 12-second slots, [shift] slots late. *)
Definition sample (shift n : Z) (parent : BlockHash) : SampleHeader := MkSampleHeader n parent (12 * (n + shift)) false.
Definition block1 : SampleHeader := sample 0 1 (word 0).
Definition block2 : SampleHeader := sample 0 2 (hash_slow block1).
Definition block3 : SampleHeader := sample 0 3 (hash_slow block2).
Definition sample_peer : B512 := array_fill 64 x01.
Definition sample_cadence : Cadence := MkCadence 0 12 None None.
Definition sample_head (h : SampleHeader) : AttestedHead :=
  MkAttestedHead (sample_number h) (word 7) (sample_number h) (hash_slow h).

(** A branch of two blocks that joins the tail one slot past the head. *)
Lemma accepts_branch_sound_witness :
  accepts_branch (cadence_only sample_cadence) [block1; block2; block3] (Some (sample_head block1)) 40 = true
  ∧ header_parent_hash block3 = hash_slow block2 ∧ header_number block3 = header_number block2 + 1.
Proof.
  assert (accepts_branch (cadence_only sample_cadence) [block1; block2; block3] (Some (sample_head block1)) 40 = true)
    as Haccepts by (by vm_compute).
  split; [exact Haccepts|].
  destruct (accepts_branch_sound (cadence_only sample_cadence) _ _ _ I Haccepts)
    as (head & tip & _ & _ & _ & _ & Hlinks).
  destruct (Hlinks 1%nat block2 block3) as (Hh & Hn & _); [done|done|]. done.
Defined.

(** Two peers are asked for the headers from block 2 up to block 3: the first
    is silent, the second serves them. *)
Definition sample_pool (range : BlockRange) (top : BlockHash) : Pool :=
  MkPool
    [PeerAsked sample_peer; PeerReplied sample_peer 10 5 (Err (Timeout "headers"));
     PeerReplied sample_peer 20 5 (Ok [block3; block2])]
    Cancelled.

Lemma ancestry_ends_proven_witness :
  ∃ a, anchor_attested_ancestry (λ _, EmptyString) sample_pool 2 (sample_head block3) = Some (Ok a)
  ∧ ancestry_headers a = [block2; block3]
  ∧ rtc parent_of (hash_slow block3) (hash_slow block2).
Proof.
  destruct (ancestry_ends_proven (λ _, EmptyString) sample_pool 2 (sample_head block3)) as (r & Hr & _ & Hproves);
    [lia|cbn; unfold u64_max; lia|].
  destruct (anchor_attested_ancestry (λ _, EmptyString) sample_pool 2 (sample_head block3)) as [[a|e]|] eqn:Heq.
  - injection Hr as <-. destruct (Hproves a eq_refl) as [_ Ha].
    assert (ancestry_headers a = [block2; block3]) as Hheaders.
    { assert ((λ x, match x with Some (Ok a) => ancestry_headers a | _ => [] end)
        (anchor_attested_ancestry (λ _, EmptyString) sample_pool 2 (sample_head block3)) = [block2; block3]) as H
        by (by vm_compute).
      rewrite Heq in H. exact H. }
    exists a. split; [done|]. split; [exact Hheaders|]. apply (proves_headers _ _ _ Ha). rewrite Hheaders. set_solver.
  - exfalso. assert ((λ x, match x with Some (Err _) => true | _ => false end)
      (anchor_attested_ancestry (λ _, EmptyString) sample_pool 2 (sample_head block3)) = false) as H by (by vm_compute).
    by rewrite Heq in H.
  - done.
Defined.

(** ** A lane *)

Module LaneSample.

Definition request : DataRequest :=
  MkDataRequest 1 (MkBlockRange 0 100) (CapabilitySet.of_cap Capability.Header) LogFieldSet.NONE false
    (MkFieldProjection [] [] [] []) (MkFilterSet scope_default [] []) Unattested CompleteCryptographic.
Definition source : SourceDescriptor :=
  MkSourceDescriptor (MkSourceId "p2p") ExecutionP2p 1 None (CapabilitySet.of_cap Capability.Header)
    (CapabilitySet.of_cap Capability.Header) ProtocolVerified ModelAttested PartNone 0 "1" 0.
Definition budget : SourceBudget := MkSourceBudget 1000000 1000000 64 64 4 0 1000000.
Definition p2p_config : RethP2pConfig := MkP2pConfig 2 500 30000 3 true 12000 12000 64.
Definition lane : LaneConfig :=
  MkLaneConfig p2p_config request budget 1 (cadence_only sample_cadence) (MkLayout 500 200 150 48 120 64 68) (λ _, EmptyString).

Definition other_peer : B512 := array_fill 64 x02.
Definition silent : Pool := MkPool [] Cancelled.

(** Both peers serve a header at once. *)
Definition both (header : SampleHeader) : Pool :=
  MkPool [PeerAsked sample_peer; PeerAsked other_peer; PeerReplied sample_peer 1 1 (Ok [header : Header]);
          PeerReplied other_peer 2 1 (Ok [header : Header])] Cancelled.

(** One peer serves the header a hash asks for. *)
Definition served_alone (header : SampleHeader) : Pool :=
  MkPool [PeerAsked sample_peer; PeerReplied sample_peer 1 1 (Ok [header : Header])] Cancelled.

(** A turn at a second, with the attested head it reads, the replies to its
    polls, to requests for the tip's header and for a branch. *)
Definition turn (now : Z) (head : SampleHeader) (polled : Pool) (parents descending : list SampleHeader) (branch : Pool) : Turn :=
  MkTurn false false [] (Some (sample_head head)) (Some (sample_head head)) (Some (sample_head head)) now (now * 1000) now now
    (now * 1000) now WaitSlept true polled silent (λ _ _, silent) [Ok (parents : list Header)]
    [Ok (descending : list Header)] branch (λ _, Err (Request "bodies" "none")) (λ _, Err (Request "receipts" "none")).

(** Block 2 of another branch, in the slot after. *)
Definition fork2 : SampleHeader := sample 1 2 (hash_slow block1).

Definition poll2 : Turn := turn 26 block1 (both block2) [block1] [] silent.
Definition deliver : Turn := turn 26 block1 silent [] [] silent.
Definition poll3 : Turn := turn 38 block1 (both block3) [block2] [] silent.
Definition attest_fork : Turn := turn 38 fork2 silent [] [fork2; block1] (served_alone fork2).

Definition start : LiveStart := StartBlock (header_block_ref block1).
Definition subscribed : result SubscribeError P2pLiveState := subscribe lane source true (Ok ()) 26 deliver start.

Definition begun : P2pLiveState :=
  match subscribed with Ok s => s | Err _ => new_lane lane (header_block_ref block1) [] [] end.

(** The numbers of the blocks of an event. *)
Definition event_numbers (event : ChainEvent) : list Z :=
  match event with
  | EventBlock frame => [ref_number (frame_block frame)]
  | EventReorg reverted applied => (ref_number <$> reverted) ++ (ref_number <$> (frame_block <$> applied))
  | _ => []
  end.

Lemma numbers head : read_by [poll2; deliver; attest_fork] head → is_number (head_block_number head).
Proof.
  intros (t & Ht & Hread). rewrite !elem_of_cons, elem_of_nil in Ht. unfold is_number, i64_max.
  destruct Ht as [->|[->|[->|[]]]]; destruct Hread as [[= <-]|[= <-]]; cbn; lia.
Qed.

Lemma subscribed_begun : subscribe lane source true (Ok ()) 26 deliver start = Ok begun.
Proof.
  assert (match subscribed with Ok _ => true | Err _ => false end = true) as Hok by (by vm_compute).
  unfold begun. change (subscribe lane source true (Ok ()) 26 deliver start) with subscribed. by destruct subscribed.
Qed.

Lemma start_number : start_ok start.
Proof. cbn. unfold is_number, i64_max. lia. Qed.

End LaneSample.

(** The lane delivers block 2 unattested; an attested head on the other block
    2 takes it back. *)
Lemma lane_follows_witness :
  let r := run_lane LaneSample.lane LaneSample.begun [LaneSample.poll2; LaneSample.deliver; LaneSample.attest_fork] in
  LaneSample.event_numbers <$> r.2 = [[2]; [2; 2]]
  ∧ ∃ chain, fold_option follow (recent LaneSample.begun) r.2 = Some chain
  ∧ last chain = Some (header_block_ref LaneSample.fork2).
Proof.
  cbv zeta. split; [by vm_compute|].
  assert ((let '(s', events) := run_lane LaneSample.lane LaneSample.begun
      [LaneSample.poll2; LaneSample.deliver; LaneSample.attest_fork] in
    negb (existsb is_reset events) && match s' with
      | Some s1 => bool_decide (lane_last s1 = header_block_ref LaneSample.fork2)
      | None => false end) = true) as Hruns by (by vm_compute).
  destruct (run_lane LaneSample.lane LaneSample.begun [LaneSample.poll2; LaneSample.deliver; LaneSample.attest_fork])
    as [s' events] eqn:Hrun.
  apply andb_prop in Hruns as [Hreset%negb_true_iff Htip]. destruct s' as [s1|]; [|done].
  apply bool_decide_eq_true in Htip. cbn [snd].
  destruct (lane_follows LaneSample.lane LaneSample.source true (Ok ()) 26 LaneSample.deliver LaneSample.start
    LaneSample.begun [LaneSample.poll2; LaneSample.deliver; LaneSample.attest_fork] LaneSample.subscribed_begun
    LaneSample.start_number LaneSample.numbers (Some s1) events) as (chain & Hfollow & Hlast);
    [by vm_compute|exact Hrun|].
  exists chain. split; [exact Hfollow|]. destruct (Hlast s1 eq_refl Hreset) as [-> _]. by rewrite Htip.
Defined.

Lemma attested_evidence_witness :
  ∃ s1 s2 reverted applied,
    (run_lane LaneSample.lane LaneSample.begun [LaneSample.poll2; LaneSample.deliver]).1 = Some s1
    ∧ live_turn LaneSample.lane LaneSample.attest_fork s1 = (s2, Emit (EventReorg reverted applied))
    ∧ ∀ chain b, fold_option follow (recent LaneSample.begun)
          (run_lane LaneSample.lane LaneSample.begun [LaneSample.poll2; LaneSample.deliver]).2 = Some chain → b ∈ chain →
        b ∈ recent LaneSample.begun ∨ b ∈ lane_tail s1
        ∨ attests (evidence LaneSample.start [LaneSample.poll2; LaneSample.deliver; LaneSample.attest_fork]) (ref_hash b).
Proof.
  destruct (run_lane LaneSample.lane LaneSample.begun [LaneSample.poll2; LaneSample.deliver]) as [s' events] eqn:Hrun.
  assert ((let '(s', events) := run_lane LaneSample.lane LaneSample.begun [LaneSample.poll2; LaneSample.deliver] in
    negb (existsb is_reset events) && match s' with
      | Some s1 => match (live_turn LaneSample.lane LaneSample.attest_fork s1).2 with Emit (EventReorg _ _) => true | _ => false end
      | None => false end) = true) as Hruns by (by vm_compute).
  rewrite Hrun in Hruns. apply andb_prop in Hruns as [Hreset%negb_true_iff Hruns].
  destruct s' as [s1|]; [|done]. destruct (live_turn LaneSample.lane LaneSample.attest_fork s1) as [s2 o] eqn:Hturn.
  destruct o as [|[|reverted applied| | |]| |]; try discriminate Hruns.
  exists s1, s2, reverted, applied. split; [reflexivity|]. split; [exact Hturn|].
  eapply (attested_evidence LaneSample.lane LaneSample.source true (Ok ()) 26 LaneSample.deliver LaneSample.start
    LaneSample.begun [LaneSample.poll2; LaneSample.deliver; LaneSample.attest_fork] LaneSample.subscribed_begun
    LaneSample.start_number LaneSample.numbers [LaneSample.poll2; LaneSample.deliver]
    LaneSample.attest_fork s1 events s2); [done|by vm_compute|exact Hrun|exact Hreset|exact Hturn].
Defined.

(** A reorg to an attested branch, taken while a frame above the reverted
    blocks waits in the queue, leaves it there: the next event delivers a
    block whose parent was just taken back, which no consumer can follow. *)
Theorem stale_frame_delivered :
  let events := (run_lane LaneSample.lane LaneSample.begun
    [LaneSample.poll2; LaneSample.deliver; LaneSample.poll3; LaneSample.attest_fork; LaneSample.deliver]).2 in
  LaneSample.event_numbers <$> events = [[2]; [2; 2]; [3]]
  ∧ fold_option follow (recent LaneSample.begun) (take 2 events) ≠ None
  ∧ fold_option follow (recent LaneSample.begun) events = None.
Proof.
  split_and!; [by vm_compute| |by vm_compute].
  intros Hnone%(f_equal (λ chain, match chain with Some _ => true | None => false end)). by vm_compute in Hnone.
Qed.
