(* ===== verification/VerifiedSamples.v ===== *)
(** * Requests and verified material on concrete input

    A chain of two blocks, one of them with two transactions and their logs,
    and the request of a processor that wants the logs of one address; the
    witnesses of the theorems about requests and verified material run on
    them. *)
From Stdlib Require Import ZArith Lia Strings.Byte.
From stdpp Require Import gmap strings list list_numbers fin_maps.
From S2P Require Import Prelude Bytes Chain Capability Material Provenance Frame SourceContract Planner Durable Descriptor Ranges Cadence Requests LiveHead LiveChain Batches Wire Verified LiveLane Samples LiveSamples.

(** ** The classes' laws *)

#[export] Instance sample_wire_laws : @WireLaws sample_header sample_wire sample_roots.
Proof.
  split; cbn.
  - intros [r|[]] log Hlog. apply bool_decide_eq_true, list_elem_of_bind. exists log. split; [by left|done].
  - intros [r|[]] log topic Hlog Htopic. apply bool_decide_eq_true, list_elem_of_bind. exists log. split; [|done].
    right. by apply list_elem_of_fmap_2.
  - intros a b input Ha%bool_decide_eq_true. apply bool_decide_eq_true, elem_of_app. by left.
  - intros a b input Hb%bool_decide_eq_true. apply bool_decide_eq_true, elem_of_app. by right.
Qed.

Lemma table_root {A} `{EqDecision A} (sample items : list A) full :
  sample ≠ [] → table sample items = root_of full → items = if full then sample else [].
Proof.
  intros Hne. unfold table, root_of. repeat case_bool_decide; subst; destruct full; try done;
    intros Heq%(f_equal bytes_of); vm_compute in Heq; done.
Qed.

Lemma rs_of_inj rs rs' : rs_of rs = rs_of rs' → rs = rs'.
Proof. apply list_fmap_eq_inj. intros [r|[]] [r'|[]]; cbn; congruence. Qed.

Lemma txs_of_inj txs txs' : txs_of txs = txs_of txs' → txs = txs'.
Proof. apply list_fmap_eq_inj. intros [r|[]] [r'|[]]; cbn; congruence. Qed.

Lemma sample_binds (h : SampleHeader) : binds (h : Header).
Proof.
  assert (∀ rs, commits (h : Header) rs = true → rs_of rs = if sample_full h then sample_rs else []) as Hrs.
  { intros rs [Hroot%bool_decide_eq_true|Hroot%bool_decide_eq_true]%orb_prop; [by apply table_root in Hroot|].
    unfold regolith_receipts_root in Hroot. destruct (existsb _ rs) eqn:Hdeposit; [|done].
    apply existsb_spec in Hdeposit as ([r|[]] & _ & Hfields). done. }
  split.
  - intros rs rs' Ha%Hrs Hb%Hrs. f_equal. apply rs_of_inj. by rewrite Ha, Hb.
  - intros b b' Ha Hb. apply table_root in Ha; [|done]. apply table_root in Hb; [|done].
    apply txs_of_inj. by rewrite Ha, Hb.
Qed.

(** ** The chain and the request *)

Module VerifiedSample.

Definition empty_block : SampleHeader := block1.
Definition full_block : @Header sample_header := MkSampleHeader 2 (hash_slow block1) 24 true.
Definition headers : list Header := [empty_block; full_block].

Definition body_of (txs : list Z) : BlockBody := MkBody (EthereumTx <$> txs : list WireTx) [] None.
Definition bodies : list BlockBody := [body_of []; body_of sample_txs].
Definition full_receipts : list WireReceipt := map (λ r : SampleReceipt, EthereumRc r) sample_rs.
Definition receipts : list (list WireReceipt) := [[]; full_receipts].

(** What a processor of one address asks for, and a descriptor with it. *)
Definition scope : FilterScope := MkFilterScope None [wanted] [] [] [] [] [].
Definition requirement : DataRequirement :=
  MkRequirement (CapabilitySet.of_cap Logs) (LogFieldSet.of_field LogTransactionHash) true scope Attested.
Definition processor : ProcessorDescriptor :=
  MkDescriptor (descriptor_id BlobsSample.descriptor) (descriptor_instance BlobsSample.descriptor) "1.0.0"
    hash_zero hash_zero (descriptor_start BlobsSample.descriptor) [requirement] BlockLocal
    BlockVersionedIdempotent PublishAttested lifecycle_default (schemas BlobsSample.descriptor).

Definition request : DataRequest := requirements_request [requirement] 1 (MkBlockRange 1 2) CompleteCryptographic.

(** The peers serve the blocks' material, whatever subset is asked for. *)
Definition peers_receipts (single : bool) (hs : list Header) : result P2pError (list (list WireReceipt)) :=
  Ok (map (λ h : SampleHeader, if sample_full h then full_receipts else []) hs).
Definition peers_bodies (single : bool) (hs : list Header) : result P2pError (list BlockBody) :=
  Ok (map (λ h : SampleHeader, body_of (if sample_full h then sample_txs else [])) hs).

Definition no_show (_ : BlockHash) : string := EmptyString.
Definition fetched : result P2pError (list BlockFrame) :=
  fetch_sparse_log_frames_once no_show 1 0 (lane_layout LaneSample.lane) request LaneSample.budget 1
    peers_receipts peers_bodies headers.

(** The log the request wants, the second of the block. *)
Definition wanted_log : Log := MkLog wanted [word 8] [x02] (Some (word 105)) 1 1.

End VerifiedSample.

Lemma sparse_logs_exact_witness :
  ∃ frames frame, VerifiedSample.fetched = Ok frames ∧ length frames = 2%nat ∧ frames !! 1%nat = Some frame
  ∧ frame_logs frame = Filtered [VerifiedSample.wanted_log] VerifiedSample.scope VerifiedPredicate.
Proof.
  assert (match VerifiedSample.fetched with Ok _ => true | Err _ => false end = true) as Hok by (by vm_compute).
  destruct VerifiedSample.fetched as [frames|] eqn:Hfetched; [|done].
  destruct (sparse_logs_exact VerifiedSample.no_show 1 0 (lane_layout LaneSample.lane) LaneSample.budget
    VerifiedSample.request VerifiedSample.scope VerifiedSample.headers VerifiedSample.bodies VerifiedSample.receipts frames
    1 VerifiedSample.peers_receipts VerifiedSample.peers_bodies (λ _, Err Cancelled)) as [Hlen Hall];
    [by vm_compute|by vm_compute|by vm_compute| |by left|].
  { intros header _. apply sample_binds. }
  change (length VerifiedSample.headers) with 2%nat in Hlen.
  destruct frames as [|first [|frame rest]]; [done|done|]. exists (first :: frame :: rest), frame.
  split_and!; [done|done|done|].
  destruct (Hall 1%nat VerifiedSample.full_block (VerifiedSample.body_of sample_txs) VerifiedSample.full_receipts frame)
    as (_ & -> & _); [done|done|done|done|]. by f_equal.
Defined.

Lemma receipts_account_gas_witness :
  ∃ frame rows,
    normalize_block VerifiedSample.no_show 1 0 VerifiedSample.full_block None (VerifiedSample.body_of sample_txs)
      (Some VerifiedSample.full_receipts) = Ok frame
    ∧ Material.as_present (frame_receipts frame) = Some rows ∧ gas_total rows = 50000.
Proof.
  destruct (normalize_block VerifiedSample.no_show 1 0 VerifiedSample.full_block None
    (VerifiedSample.body_of sample_txs) (Some VerifiedSample.full_receipts)) as [frame|] eqn:Hframe;
    [|by vm_compute in Hframe].
  assert (∃ rows, frame_receipts frame = Complete rows) as [rows Hrows].
  { apply normalize_block_Ok in Hframe as (_ & _ & -> & _). by eexists. }
  exists frame, rows. split; [done|]. split; [by rewrite Hrows|].
  destruct (receipts_account_gas VerifiedSample.no_show 1 0 VerifiedSample.full_block None
    (VerifiedSample.body_of sample_txs) VerifiedSample.full_receipts frame rows) as [_ Hall];
    [by vm_compute|by vm_compute|done|exact Hframe|by rewrite Hrows|]. apply Hall. by rewrite Hrows.
Defined.

(** Blocks 1 and 2 are asked for together, and the reply stops after the
    first; a request that starts with block 3 and has more fails. *)
Definition cut_answers (single : bool) (hs : list Header) : result P2pError (list Z) :=
  match hs with
  | header :: rest =>
      if (header_number header =? 3) && negb (bool_decide (length rest = 0%nat)) then Err (Timeout "bodies")
      else Ok [header_number header]
  | [] => Ok []
  end.

Definition four_headers : list (@Header sample_header) := [block1; block2; block3; sample 0 4 (word 3)].

Lemma batches_complete_witness :
  fetch_batched 2 cut_answers four_headers = Ok [1; 2; 3; 4].
Proof.
  rewrite (batches_complete 2 cut_answers header_number four_headers);
    [done|lia| | |].
  - repeat constructor.
  - intros [|header rest] got; cbn [cut_answers]; [intros [= <-]; by exists 0%nat|].
    destruct (_ && _); [done|]. intros [= <-]. by exists 1%nat.
  - intros single header _. cbn [cut_answers]. by rewrite andb_false_r.
Defined.

(** The log the processor wants is asked for. *)
Lemma request_covers_requirements_witness :
  ∃ request, compile_live_request [VerifiedSample.processor] 1 LaneSample.start = Ok request
  ∧ filter_scope request = Some VerifiedSample.scope
  ∧ CapabilitySet.contains (required request) Logs = true.
Proof.
  destruct (compile_live_request [VerifiedSample.processor] 1 LaneSample.start) as [request|] eqn:Hrequest;
    [|by vm_compute in Hrequest].
  exists request. split; [done|].
  destruct (request_covers_requirements [VerifiedSample.processor] 1 LaneSample.start request VerifiedSample.processor
    VerifiedSample.requirement (MkItem 2 2 None (word 105) None wanted [])) as (_ & Hcaps & _ & _);
    [by left; split; [|left]|by left|by vm_compute|].
  split; [|by apply Hcaps].
  assert (match compile_live_request [VerifiedSample.processor] 1 LaneSample.start with
    | Ok request => bool_decide (filter_scope request = Some VerifiedSample.scope) | Err _ => false end = true) as Hf
    by (by vm_compute).
  rewrite Hrequest in Hf. by apply bool_decide_eq_true in Hf.
Defined.

(** Ranges that touch and overlap, out of order. *)
Lemma built_job_ranges_witness :
  ∃ job, for_processor_ranges "job" VerifiedSample.processor 1 [MkBlockRange 6 9; MkBlockRange 1 3; MkBlockRange 4 7]
    CompleteCryptographic = Ok job
  ∧ BlockRange.contains (request_range (job_request job)) 8 = true.
Proof.
  destruct (built_job_ranges "job" VerifiedSample.processor 1 [MkBlockRange 6 9; MkBlockRange 1 3; MkBlockRange 4 7]
    CompleteCryptographic) as (job & Hjob & _ & _ & _ & Hall); [done| |done|].
  - repeat constructor; cbn; unfold u64_max; lia.
  - exists job. split; [done|]. apply Hall, in_ranges_cons. left. cbn. lia.
Defined.
